(* ===== verification/_CoqProject ===== *)
-Q . S2P
Prelude.v
TaskDeque.v
Fiber.v
Task.v
SchedulerMutex.v
TaskAllocator.v
Slots.v
TaskCanary.v
TaskMPSCQueue.v
WorkDeque.v
Scheduler.v
Worker.v
PoolSafety.v
Pool.v
WorkerFlow.v
Lifecycle.v
LifecycleSafety.v
Shutdown.v
Dispatch.v
MainThread.v
WorkerSleep.v
ParallelFor.v
Topology.v
Epochs.v
MarkedPointer.v
LockFreeList.v
TaskDAG.v
DagReclaim.v
DagMemory.v
DagSlots.v
FiberStack.v
FiberPool.v
Parking.v
Sync.v
Waits.v
WaitGroups.v
WaitEarly.v
