(* ===== verification/Prelude.v ===== *)
(** * JLib::TaskScheduler: a verification library

    The program is a C++ task scheduler: a pool of worker threads that run tasks
    on their own stacks ("fast jobs") or on fibers that may suspend, with
    work-stealing deques, inboxes, named events, wait groups, a fiber mutex,
    semaphore and condition variable, parallel loops, task graphs, a slab
    allocator, epoch-based reclamation and a lock-free ordered list.

    ** How the parts interact

    A client creates tasks in the slab allocator and submits them: [Push] and its
    relatives choose a worker, append to its inbox and wake it.  A worker
    ([Thread::Worker]) runs what it holds, then looks for an immediate (forked)
    task, its own deques, the deques of others (siblings and cluster mates first,
    by the CPU topology), its inboxes (which it empties into its deques), and then
    sleeps.  A task that needs a stack of its own gets a fiber from the worker's
    cache or the global pool; the fiber comes back finished, yielded, or suspended
    behind an event, a wait group, a mutex, a semaphore or a condition variable,
    and whoever resumes it requeues its task.  A task that completes counts down
    its wait group, which wakes the waiting fibers.  Task graphs submit a node's
    task when its dependencies have finished; their edges are lock-free lists
    whose nodes are freed by the epochs.

    ** Files and the code they model (paths under [src/])

    Each file cuts the code at the granularity its properties need; an operation
    that is one step in one file is interleaved, access by access, in another.

    - [Prelude.v] (this file): machine words, transition systems ([exec], [run],
      [reaches], invariants and measures over runs), outcomes of operations ([Ok],
      [Blocked], [Stuck]), simulations, occurrence counting, sums, updated maps.
    - [TaskDeque.v]: [include/TaskDeque.h].  [deque] has the fields of the class,
      the methods its names; the machine [exec] interleaves one owner's accesses
      with any number of thieves'.  [WorkDeque.v]: the class [WorkDeque], what the
      scheduler relies on of a deque; [TaskDeque.v] is its instance.
    - [TaskMPSCQueue.v]: [include/TaskMPSCQueue.h], alone and interleaved.
    - [TaskAllocator.v]: [include/TaskAllocator.h].  [Slots.v]: the class
      [SlotAllocator], what the code that keeps objects in slots relies on;
      [TaskAllocator.v] and [TaskCanary.v] (the [_DEBUG] build, with its canary) are
      its instances, [DagMemory.v] its client.
    - [Task.v]: [include/Task.h], [CreateTask], the priority boosts.
    - [Scheduler.v]: the members of [include/TaskScheduler.h] and the operations of
      [src/TaskScheduler.cpp] that submit, steal and complete ([PushLocal],
      [PushBatch], [PushToCore], [PushFork], [Requeue], [GetTask],
      [TryRunStolenFastJob], [PushMain], ...), for any [WorkDeque]: one step each,
      except that [PushLocal] is cut between the push and the count of the task and
      [PushToCore] between the load and the store of the core's mark ([submitting]
      holds what is left of such calls, [finish_call] does it).
      [Worker.v]: [Thread::Worker] of [src/Thread.cpp], a step per section, and the
      machine of clients, main thread and workers ([step]).  [Dispatch.v]: what the
      choices of workers and victims promise.  [MainThread.v]: [ProcessMainThread]
      and [WaitForMain].
    - [PoolSafety.v]: the invariant of that machine, operation by operation.
      [Pool.v]: the state [StartPool] leaves, and the properties of the machine.
      [WorkerFlow.v]: where each step leaves the workers, and when it can block.
    - [Lifecycle.v]: [StartPool]'s start of the threads, [Thread::StartWorker],
      [TaskScheduler::Join], [Thread::Join], [Stop], the destructor, around the
      machine of [Worker.v]; [LifecycleSafety.v]: its invariant; [Shutdown.v]: its
      properties.
    - [WorkerSleep.v]: [Worker]'s drains of its inboxes and its sleep against [NotifyWorker], [MarkQueuedWork],
      [SetImmediateTask] and [Thread::Join], access by access.
    - [ParallelFor.v], [Topology.v]: the parallel loops and [BuildTopology] of
      [src/TaskScheduler.cpp].
    - [Fiber.v]: the status protocol of [include/Fiber.h] and [src/Fiber.cpp].
      [FiberStack.v]: [src/ContextSwitch.asm], [Fiber::Init],
      [include/FiberStackArena.h].  [FiberPool.v]: [include/ThreadLocalCache.h],
      [src/GlobalFiberPool.cpp], [AcquireFiber], [ReleaseFiber].
    - [SchedulerMutex.v]: [SchedulerMutex].  [Parking.v]: how a fiber that queues
      itself suspends and is resumed, shared by [Sync.v] (semaphore, condition
      variable) and [Waits.v] ([include/Event.h], [include/DirectEvent.h],
      [src/Task.cpp], [WaitOnEvent*], [WaitFor], [WaitForMain], [GetEvent]).
      [WaitGroups.v] and [WaitEarly.v]: the invariants and properties of [Waits.v].
    - [Epochs.v]: [include/Epochs.h], [src/Epochs.cpp].  [MarkedPointer.v]: [LMarkablePointer] of
      [include/LockFreeList.h], word by word; [LockFreeList.v]: the list, over
      references that its section [Words] shows to be those words.
    - [TaskDAG.v]: [include/TaskNode.h], [include/TaskDAG.h], [src/TaskDAG.cpp].
      [DagReclaim.v]: that machine with the reclaimer, which frees a retired node
      when the guards that were held at its retirement have ended.  [DagMemory.v] and
      [DagSlots.v]: the memory of a graph (nodes, their lists, the lists' entries and
      sentinels) in slots of any [SlotAllocator], from construction to destruction:
      the first has the operations, the walk of [OnTaskFinished] over a list with
      what its callback does to each dependent among them, the second the proof.

    ** What the theorems show

    The comment of a property carries its number, in the order of importance.
    - The pool ([Pool.v]): no operation of any interleaving is undefined, a
      submitted task is in exactly one place until it completes or is dropped on
      the record, and what [WaitAll] counts: it waits for every task whose push has
      been counted, and can return over the ones whose push has not.  The life cycle
      ([Shutdown.v]): what is undefined from construction to destruction (only a
      steal while the pool is being started), the ids and caches of the threads,
      and that [Join] returns once the tasks it waits for do.
    - Nobody sleeps for ever: workers ([WorkerSleep.v]: except on what a full batch
      has left in an inbox), the waiters of events and
      wait groups ([WaitGroups.v]; [WaitEarly.v]: nobody is released early), fibers
      ([Fiber.v]), the waiters of semaphores and the condition variable ([Sync.v]).
      The mutex excludes ([SchedulerMutex.v]).
    - Parallel loops visit every index once and terminate ([ParallelFor.v]).  Task
      graphs run every node once, after its dependencies, and finish; the cycle
      check rejects exactly the graphs that have a cycle or a dependency recorded
      twice ([TaskDAG.v], where a retired node stays allocated).  A node that was freed is not used any more
      unless it is an OR node with several dependencies ([DagReclaim.v]); building,
      running and destroying a graph without such a node accesses each slot as the
      object it holds, and frees every slot once ([dag_memory_typed]); an allocator of a capacity computed from the graph never
      runs out ([dag_capacity_suffices], [dag_debug_build]), and what happens when
      one does is [dag_memory_exhaustion] ([DagSlots.v]).
    - Data structures refine their specifications: [TaskDeque.v],
      [TaskMPSCQueue.v], [TaskAllocator.v], [FiberPool.v], [LockFreeList.v] (atomic
      updates, and what the result of a call says), [MarkedPointer.v] (an atomic register).
      The debug build of the allocator is its release build ([TaskCanary.v]).
      Epochs free nothing that a reader may reach, if guards do not nest and their
      store is not delayed ([Epochs.v]).
    - Context switches restore what they saved, and a new fiber starts on an
      aligned stack within its bounds ([FiberStack.v]); the topology tables
      ([Topology.v]).
    - Runs in which the code does not do what it means to, each a concrete
      interleaving or input that the model evaluates: [mutex_lost_wakeup],
      [sync_lost_wakeup], [wait_group_defects], [lifecycle_defects],
      [wait_all_returns_early], [sleeps_on_its_work], [fiber_exhaustion_runs_task_twice], [push_fork_wedges_the_pool],
      [epoch_guard_hazards], [list_defects], [dag_defects],
      [dag_or_node_used_after_free], [dag_or_gate_freed], [lambda_pushes] (its last part).

    ** Conventions, bounds and fuel

    Accesses to shared memory are sequentially consistent except in [Epochs.v],
    whose switch [tso] delays the store of a guard; a machine's interleavings are
    all sequences of steps, so a property of every [run] is one of every schedule.
    Memory orders and data races on plain fields are otherwise not modelled.
    Machine integers are [Z] with the wrap-around written out: [u64], [u32], [u8],
    and [s32] for the atomic [int] [pendingTasks].  The [int] arithmetic of the
    parallel loops is checked: an overflow is [None] ([int_ok]).  Two [int]s are
    unbounded in the model: a worker's [consecutiveMisses], which is only compared
    with 8 (the code's overflows after [2 ^ 31 - 1] failed searches in a row), and a
    node's [dependencies_left], the number of calls of [AddDependency] for it.  Theorems about structures
    with 64-bit indices take a budget of further operations ([dq_ok b],
    [headroom]) below 2^64, which no run of a real machine exhausts; pools have 2
    to 256 workers, as the [uint8_t] worker index allows (one worker divides by
    zero).  Every loop over a container recurses on it or on its length as fuel
    ([pick], [probe], [scan]: one lap over the workers), so the fuel is the number
    of iterations the code makes.  Loops that wait are steps that stay where they
    are, or [Blocked]; that they end is proved with a measure ([run_bounded],
    [join_returns], [waits_lose_no_wakeup], [dag_all_nodes_run],
    [parallel_for_fj_covers]).
    Hypotheses are of four kinds.  The state is reached by the machine from its
    initial state.  The client keeps the rules: a task is submitted once, a fast job
    does not suspend, the affinity of a [PushBatch] is a worker's ([submittable],
    [admissible]); nothing is submitted before [Init] has returned or once [Join] has
    cleared the workers, and calls of [Join] do not overlap ([orderly]); tasks are
    counted in a group while nobody waits for it, and only the code signals a
    [DirectEvent] ([fork_join]); no OR node gets a second dependency ([ordinary]);
    the sizes of a loop are such that [int] does not overflow ([sizes_ok]).  The
    environment: a fiber can be acquired ([pool_never_stuck], [lifecycle_safe]:
    without one, [fiber_exhaustion_runs_task_twice]); guards do not nest on one slot
    and are published in time ([epoch_reclamation_safe]: otherwise,
    [epoch_guard_hazards]; [TaskDAG] nests them, so [grace = true] in
    [DagReclaim.v] is more than [Epochs.h] gives it).  And what third-party code
    promises ([FiberPool], [Epochs]: [moodycamel]'s queue returns some of the
    elements put in).  Each is shown to be satisfiable by a witness.
    Where the code goes on from a failure that the model of another file treats, a
    machine stops: [EventPool::Acquire] on an exhausted pool has no step in
    [Waits.v] (the code dereferences null), and [Fiber.v] starts after a fiber has
    been acquired (the failure is in [Worker.v]).

    ** Not modelled, and why

    [include/concurrentqueue.h], [include/blockingconcurrentqueue.h] and
    [include/lightweightsemaphore.h] are vendored third-party code, which the
    program only calls: its answers are inputs of [FiberPool.v] and [Epochs.v].
    [include/platform.h] selects compiler intrinsics.  The operating system
    (virtual memory, thread affinity, [GetLogicalProcessorInformationEx]) and the
    functions of tasks are inputs.  The
    diagnostics ([AvailableCount], [std::cerr]), the declared but undefined methods
    ([TaskDAG::Validate], [Thread::GetQueueLoad]) and the empty ones
    ([Thread::AcquireWork], [RunTask]) have no behaviour to model.  The exceptions
    thrown to a caller that breaks a contract ([Instance] before [Init], waiting
    without a fiber) carry no state.  A caller off a fiber runs the job it steals
    on its own stack, above the wait it is in; [SchedulerMutex.v], [Sync.v] and [Waits.v] let that job
    run as another caller, so they say nothing about waits that can end only when
    the wait below them does.  The destructors of what a function captured run with
    its task's ([destroy]) and are not modelled further.  Operations modelled as one step in
    [Scheduler.v] are composed with the finer machines by their specifications
    ([WorkDeque], the inbox as a list), not by one machine of all accesses. *)
From Stdlib Require Export ZArith Lia Bool.
From stdpp Require Export base numbers list gmap relations sorting.

#[global] Open Scope Z_scope.

(** ** Pointers

    A non-null C++ pointer is an abstract identity; [nullptr] is [None] of
    [option ptr]. *)
Abbreviation ptr := positive.

(** ** Machine words

    [size_t], [uint64_t] and [uintptr_t] are 64-bit, [unsigned int] and
    [uint32_t] are 32-bit, [uint8_t] is 8-bit; unsigned arithmetic wraps. *)
Definition u64 (x : Z) : Z := x mod 2 ^ 64.
Definition u32 (x : Z) : Z := x mod 2 ^ 32.
Definition u8 (x : Z) : Z := x mod 2 ^ 8.

(** [int] is a 32-bit two's complement integer; signed overflow is undefined
    behaviour, so a model of [int] arithmetic states [in_int] where the code
    needs it.  [std::atomic<int>] wraps ([s32]). *)
Definition s32 (x : Z) : Z := (x + 2 ^ 31) mod 2 ^ 32 - 2 ^ 31.
Definition INT_MAX : Z := 2 ^ 31 - 1.
Definition INT_MIN : Z := - 2 ^ 31.
Definition in_int (x : Z) : Prop := INT_MIN <= x <= INT_MAX.
#[global] Instance in_int_dec x : Decision (in_int x).
Proof. unfold in_int. apply _. Defined.

Lemma s32_small x : in_int x -> s32 x = x.
Proof. unfold in_int, INT_MIN, INT_MAX, s32. intros H. rewrite Z.mod_small; lia. Qed.
Lemma s32_add_l x k : s32 (s32 x + k) = s32 (x + k).
Proof.
  unfold s32. f_equal. replace ((x + 2 ^ 31) mod 2 ^ 32 - 2 ^ 31 + k + 2 ^ 31) with ((x + 2 ^ 31) mod 2 ^ 32 + k) by lia.
  rewrite Zplus_mod_idemp_l. f_equal. lia.
Qed.
Lemma u64_small x : 0 <= x < 2 ^ 64 -> u64 x = x.
Proof. apply Z.mod_small. Qed.
Lemma u64_range x : 0 <= u64 x < 2 ^ 64.
Proof. apply Z.mod_pos_bound. lia. Qed.
Lemma u64_sub_u64_l x y : u64 (u64 x - y) = u64 (x - y).
Proof. apply Zminus_mod_idemp_l. Qed.

(** [x & (2^k - 1)] is [x mod 2^k]; slots of a power-of-two ring buffer that
    are less than a lap apart are distinct. *)
Lemma land_mask x k : 0 <= k -> Z.land x (2 ^ k - 1) = x mod 2 ^ k.
Proof. intros Hk. rewrite <- Z.land_ones by done. by rewrite Z.ones_equiv, Z.sub_1_r. Qed.

Lemma mod_ne_within_lap x y n : 0 < n -> 0 < x - y < n -> x mod n <> y mod n.
Proof.
  intros Hn Hxy Heq.
  assert (Hd : (n | x - y)).
  { exists (x / n - y / n). rewrite (Z.div_mod x n), (Z.div_mod y n) at 1 by lia. nia. }
  apply Z.divide_pos_le in Hd; lia.
Qed.

(** ** Transition systems with executable steps

    A concurrent component is a state and a partial function that performs
    one atomic action (one access to a shared variable) of one actor; the
    interleavings are the sequences of actions.  Accesses are sequentially
    consistent: memory orders are not modelled. *)
Section Lts.
Context {S A : Type} (exec : A -> S -> option S).

Definition lstep (s s' : S) : Prop := exists a, exec a s = Some s'.

Fixpoint run (l : list A) (s : S) : option S :=
  match l with
  | [] => Some s
  | a :: l => exec a s ≫= run l
  end.

(** [s'] is reached from [s] by some interleaving. *)
Definition reaches (s s' : S) : Prop := exists l, run l s = Some s'.

Lemma run_app l1 l2 s : run (l1 ++ l2) s = run l1 s ≫= run l2.
Proof. revert s. induction l1 as [|a l1 IH]; intros s; simpl; [done|].
  destruct (exec a s); simpl; auto. Qed.

Lemma run_cons_eq a l s s1 : exec a s = Some s1 -> run (a :: l) s = run l s1.
Proof. intros H. simpl. by rewrite H. Qed.

Lemma reaches_refl s : reaches s s.
Proof. by exists []. Qed.

Lemma reaches_rtc s s' : reaches s s' -> rtc lstep s s'.
Proof.
  intros [l Hl]. revert s Hl. induction l as [|a l IH]; intros s; simpl.
  { intros [= ->]. constructor. }
  destruct (exec a s) eqn:E; simpl; [|done]. intros Hr.
  apply rtc_l with s0; [by exists a|by apply IH].
Qed.

Lemma rtc_reaches s s' : rtc lstep s s' -> reaches s s'.
Proof.
  induction 1 as [s|s1 s2 s3 [a Ha] _ [l Hl]]; [apply reaches_refl|].
  exists (a :: l). simpl. by rewrite Ha.
Qed.

Lemma reaches_invariant (I : S -> Prop) s s' :
  (forall a s1 s2, I s1 -> exec a s1 = Some s2 -> I s2) ->
  I s -> reaches s s' -> I s'.
Proof.
  intros Hstep HI Hr%reaches_rtc. induction Hr as [|s1 s2 s3 [a Ha]]; eauto.
Qed.

(** Actions that make a measure smaller cannot be repeated for ever. *)
Lemma run_bounded (I : S -> Prop) (ok : A -> Prop) (m : S -> nat) l s s' :
  (forall a s1 s2, I s1 -> exec a s1 = Some s2 -> I s2) ->
  (forall a s1 s2, I s1 -> ok a -> exec a s1 = Some s2 -> (m s2 < m s1)%nat) ->
  I s -> Forall ok l -> run l s = Some s' -> (length l <= m s)%nat.
Proof.
  intros Hstep Hdec. revert s. induction l as [|a l IH]; intros s HI Hok Hr; simpl; [lia|].
  apply Forall_cons in Hok as [Ha Hok]. simpl in Hr. destruct (exec a s) as [s1|] eqn:E; simpl in Hr; [|done].
  specialize (IH s1 (Hstep a s s1 HI E) Hok Hr). specialize (Hdec a s s1 HI Ha E). lia.
Qed.

(** The same when a quantity only grows and is bounded at the end. *)
Lemma reaches_invariant_bounded (I : S -> Prop) (m : S -> Z) (B : Z) s s' :
  (forall a s1 s2, exec a s1 = Some s2 -> m s1 <= m s2) ->
  (forall a s1 s2, I s1 -> m s2 < B -> exec a s1 = Some s2 -> I s2) ->
  I s -> reaches s s' -> m s' < B -> I s'.
Proof.
  intros Hmono Hstep HI Hr%reaches_rtc.
  induction Hr as [|s1 s2 s3 [a Ha] Hr IH]; intros HB; [done|].
  apply IH; [|done]. eapply Hstep; [done| |done].
  assert (m s2 <= m s3); [|lia]. clear -Hr Hmono.
  induction Hr as [|x y z [b Hb]]; [lia|]. specialize (Hmono _ _ _ Hb). lia.
Qed.
End Lts.

(** Simulation: [abs] maps the states of [exec] to those of a specification, and
    each step to some steps (often none or one) of it. *)
Lemma run_simulation {S A T B : Type} (exec : A -> S -> option S) (spec : B -> T -> option T) (I : S -> Prop) (abs : S -> T) l s s' :
  (forall a s1 s2, I s1 -> exec a s1 = Some s2 -> I s2 /\ exists l', run spec l' (abs s1) = Some (abs s2)) ->
  I s -> run exec l s = Some s' -> I s' /\ exists l', run spec l' (abs s) = Some (abs s').
Proof.
  intros Hstep. revert s. induction l as [|a l IH]; intros s HI; simpl.
  - intros [= ->]. split; [done|]. by exists [].
  - destruct (exec a s) as [s1|] eqn:E; [|done]. simpl. intros Hr.
    destruct (Hstep a s s1 HI E) as [HI1 [l1 H1]]. destruct (IH s1 HI1 Hr) as [HI' [l2 H2]].
    split; [done|]. exists (l1 ++ l2). by rewrite run_app, H1.
Qed.

(** ** Tactics *)

(** Performs the first action of a concrete interleaving; [tac] computes it. *)
Ltac run_one tac := cbn [replicate app]; erewrite run_cons_eq; [|by tac].

(** ** Results of an operation

    [Ok]: it returned; [Blocked]: it spins or sleeps until another thread acts;
    [Stuck]: undefined behaviour (an index out of range, a null or freed object,
    a division by zero). *)
Inductive outcome (A : Type) := Ok (a : A) | Blocked | Stuck.
Arguments Ok {A} a.
Arguments Blocked {A}.
Arguments Stuck {A}.

#[global] Instance outcome_ret : MRet outcome := @Ok.
#[global] Instance outcome_bind : MBind outcome := fun A B f m =>
  match m with Ok a => f a | Blocked => Blocked | Stuck => Stuck end.
#[global] Instance outcome_fmap : FMap outcome := fun A B f m =>
  match m with Ok a => Ok (f a) | Blocked => Blocked | Stuck => Stuck end.

(** [v[i]] of a [std::vector]. *)
Definition at_ {A} (l : list A) (i : nat) : outcome A :=
  match l !! i with Some x => Ok x | None => Stuck end.
(** Dereferencing a pointer. *)
Definition deref {A} (m : gmap ptr A) (p : ptr) : outcome A :=
  match m !! p with Some x => Ok x | None => Stuck end.

Definition returns {A} (m : outcome A) : option A :=
  match m with Ok a => Some a | _ => None end.

Lemma bind_ok {A B} (m : outcome A) (f : A -> outcome B) b :
  (m ≫= f) = Ok b -> exists a, m = Ok a /\ f a = Ok b.
Proof. destruct m; simpl; [eauto|done|done]. Qed.
Lemma bind_stuck {A B} (m : outcome A) (f : A -> outcome B) :
  (m ≫= f) = Stuck -> m = Stuck \/ exists a, m = Ok a /\ f a = Stuck.
Proof. destruct m; simpl; [eauto|done|auto]. Qed.
Lemma at_ok {A} (l : list A) i x : at_ l i = Ok x <-> l !! i = Some x.
Proof. unfold at_. destruct (l !! i); split; congruence. Qed.
Lemma at_stuck {A} (l : list A) i : at_ l i = Stuck <-> (length l <= i)%nat.
Proof. unfold at_. rewrite <- lookup_ge_None. destruct (l !! i); split; congruence. Qed.

(** ** Occurrences in a list, for conservation arguments by arithmetic *)
Section Occ.
Context {A : Type} `{EqDecision A}.

Fixpoint occ (x : A) (l : list A) : nat :=
  match l with [] => 0 | y :: l => (if decide (y = x) then 1 else 0) + occ x l end.

Lemma occ_app x l k : occ x (l ++ k) = (occ x l + occ x k)%nat.
Proof. induction l as [|y l IH]; simpl; [done|]. rewrite IH. lia. Qed.
Lemma occ_delete x l i y : l !! i = Some y -> occ x l = (occ x [y] + occ x (delete i l))%nat.
Proof.
  revert i. induction l as [|z l IH]; intros [|i]; simpl; intros H; try done.
  - injection H as ->. lia.
  - specialize (IH _ H). simpl in IH. lia.
Qed.
Lemma occ_elem x l : x ∈ l <-> (0 < occ x l)%nat.
Proof.
  induction l as [|y l IH]; simpl; [split; [by intros ?%not_elem_of_nil|lia]|].
  rewrite elem_of_cons, IH. case_decide as Hc; split.
  - lia.
  - intros _. by left.
  - intros [->|?]; [done|lia].
  - intros ?. right. lia.
Qed.
Lemma occ_Permutation x l k : l ≡ₚ k -> occ x l = occ x k.
Proof. induction 1; simpl; lia. Qed.
Lemma occ_perm l k : (forall x, occ x l = occ x k) -> l ≡ₚ k.
Proof.
  revert k. induction l as [|y l IH]; intros k H.
  - destruct k as [|z k]; [done|]. specialize (H z). simpl in H. rewrite decide_True in H by done. lia.
  - assert (Hy : y ∈ k).
    { apply occ_elem. rewrite <- H. simpl. rewrite decide_True by done. lia. }
    apply elem_of_Permutation in Hy as [k' Hk]. rewrite Hk. constructor. apply IH. intros x.
    specialize (H x). rewrite (occ_Permutation x _ _ Hk) in H. simpl in H. lia.
Qed.
Lemma occ_NoDup l : (forall x, occ x l <= 1)%nat -> NoDup l.
Proof.
  induction l as [|y l IH]; intros H; constructor.
  - intros Hy%occ_elem. specialize (H y). simpl in H. rewrite decide_True in H by done. lia.
  - apply IH. intros x. specialize (H x). simpl in H. lia.
Qed.
Lemma NoDup_occ l x : NoDup l -> (occ x l <= 1)%nat.
Proof.
  induction 1 as [|y l Hy _ IH]; simpl; [lia|]. rewrite occ_elem in Hy. case_decide as E; [rewrite E in Hy|]; lia.
Qed.
Lemma occ_zero x l : x ∉ l -> occ x l = 0%nat.
Proof. rewrite occ_elem. lia. Qed.

(** One element of a list changes, and with it what it contributes. *)
Lemma occ_bind_insert {B} x (h : B -> list A) l i a b : l !! i = Some a ->
  (occ x (<[i := b]> l ≫= h) + occ x (h a) = occ x (l ≫= h) + occ x (h b))%nat.
Proof.
  revert i. induction l as [|d l IH]; intros [|i] H; try done.
  - injection H as ->. change (<[0%nat := b]> (a :: l)) with (b :: l). rewrite !bind_cons, !occ_app. lia.
  - change (<[S i := b]> (d :: l)) with (d :: <[i := b]> l). rewrite !bind_cons, !occ_app. specialize (IH i H). lia.
Qed.
Lemma occ_bind_lookup {B} x (h : B -> list A) l i a : l !! i = Some a -> (occ x (h a) <= occ x (l ≫= h))%nat.
Proof.
  revert i. induction l as [|d l IH]; intros [|i] H; try done; rewrite bind_cons, occ_app.
  - injection H as ->. lia.
  - specialize (IH i H). lia.
Qed.
Lemma occ_bind_two {B} x (h : B -> list A) l i j a b : i <> j -> l !! i = Some a -> l !! j = Some b ->
  (occ x (h a) + occ x (h b) <= occ x (l ≫= h))%nat.
Proof.
  revert i j. induction l as [|d l IH]; intros [|i] [|j] Hne Hi Hj; try done; rewrite bind_cons, occ_app.
  - injection Hi as ->. pose proof (occ_bind_lookup x h l j b Hj). lia.
  - injection Hj as ->. pose proof (occ_bind_lookup x h l i a Hi). lia.
  - specialize (IH i j ltac:(congruence) Hi Hj). lia.
Qed.
Lemma occ_bind_elem {B} x (h : B -> list A) l :
  (0 < occ x (l ≫= h))%nat -> exists i a, l !! i = Some a /\ x ∈ h a.
Proof.
  rewrite <- occ_elem, list_elem_of_bind. intros (a & Hx & [i Hi]%list_elem_of_lookup). eauto.
Qed.
End Occ.

Lemma sum_with_insert {A} (h : A -> nat) (l : list A) i a b : l !! i = Some a ->
  (sum_list_with h (<[i := b]> l) + h a = sum_list_with h l + h b)%nat.
Proof.
  revert i. induction l as [|d l IH]; intros [|i] H; try done; simpl.
  - injection H as ->. lia.
  - specialize (IH i H). lia.
Qed.

(** Sums compared element by element. *)
Lemma sum_with_le {A} (h : A -> nat) l l' :
  Forall2 (fun x y => h y <= h x)%nat l l' -> (sum_list_with h l' <= sum_list_with h l)%nat.
Proof. induction 1; simpl; lia. Qed.
Lemma sum_with_lt {A} (h : A -> nat) l l' i x y :
  Forall2 (fun x y => h y <= h x)%nat l l' -> l !! i = Some x -> l' !! i = Some y -> (h y < h x)%nat ->
  (sum_list_with h l' < sum_list_with h l)%nat.
Proof.
  intros H. revert i. induction H as [|a b l l' Hab Hl IH]; intros [|i] Hx Hy Hlt; try done; simpl.
  - injection Hx as ->. injection Hy as ->. pose proof (sum_with_le h _ _ Hl). lia.
  - specialize (IH i Hx Hy Hlt). lia.
Qed.

(** ** Total maps: one value per index, all but finitely many unchanged *)
Section Upd.
Context {A : Type}.

Definition upd (m : nat -> A) (i : nat) (x : A) : nat -> A :=
  fun j => if decide (i = j) then x else m j.

Lemma upd_eq m i x : upd m i x i = x.
Proof. unfold upd. by rewrite decide_True. Qed.
Lemma upd_ne m i j x : i <> j -> upd m i x j = m j.
Proof. intros. unfold upd. by rewrite decide_False. Qed.
Lemma upd_cases m i j x : (i = j /\ upd m i x j = x) \/ (i <> j /\ upd m i x j = m j).
Proof. unfold upd. case_decide; auto. Qed.
End Upd.

(** Splits every lookup in an updated map. *)
Ltac upd_split :=
  repeat match goal with
  | H : context [upd ?m ?i ?x ?j] |- _ =>
      let E := fresh "E" in destruct (upd_cases m i j x) as [[? E]|[? E]]; rewrite E in *; clear E
  | |- context [upd ?m ?i ?x ?j] =>
      let E := fresh "E" in destruct (upd_cases m i j x) as [[? E]|[? E]]; rewrite E in *; clear E
  end; subst.
