(* ===== verification/TaskDeque.v ===== *)
(** * The Chase-Lev work-stealing deque ([include/TaskDeque.h])

    [deque] is the class's fields; [push_bottom], [push_bottom_batch],
    [pop_bottom], [steal], [size], [empty] are its methods run without
    interference, and [exec] is the same code cut at its accesses to the shared
    [top_], [bottom_] and [buffer_], interleaved between one owner and any
    number of thieves. *)
From S2P Require Import Prelude.

(** ** The class and its methods *)

Record deque := mk_deque {
  buffer_ : list (option ptr);   (* Task** : a slot holds a Task*, null at first *)
  capacity_ : Z;
  mask_ : Z;
  top_ : Z;
  bottom_ : Z
}.

(** The constructor throws unless the capacity passes the power-of-two test. *)
Definition make (capacity : Z) : option deque :=
  if Z.land capacity (u64 (capacity - 1)) =? 0
  then Some (mk_deque (replicate (Z.to_nat capacity) None) capacity (u64 (capacity - 1)) 0 0)
  else None.

Definition slot (d : deque) (i : Z) : nat := Z.to_nat (Z.land i (mask_ d)).
Definition read (d : deque) (i : Z) : option ptr := buffer_ d !! slot d i ≫= id.
Definition write (d : deque) (i : Z) (x : option ptr) : deque :=
  mk_deque (<[slot d i := x]> (buffer_ d)) (capacity_ d) (mask_ d) (top_ d) (bottom_ d).
Definition set_top (d : deque) (t : Z) : deque :=
  mk_deque (buffer_ d) (capacity_ d) (mask_ d) t (bottom_ d).
Definition set_bottom (d : deque) (b : Z) : deque :=
  mk_deque (buffer_ d) (capacity_ d) (mask_ d) (top_ d) b.

(** [bool push_bottom(Task* item)] *)
Definition push_bottom (d : deque) (item : option ptr) : deque * bool :=
  match item with
  | None => (d, false)
  | Some _ =>
      let b := bottom_ d in
      let t := top_ d in
      if capacity_ d <=? u64 (b - t) then (d, false)
      else (set_bottom (write d b item) (u64 (b + 1)), true)
  end.

(** The copy loop of [push_bottom_batch]. *)
Fixpoint write_batch (d : deque) (b : Z) (items : list (option ptr)) : deque :=
  match items with
  | [] => d
  | x :: items => write_batch (write d b x) (u64 (b + 1)) items
  end.

Definition push_bottom_batch (d : deque) (items : list (option ptr)) : deque * bool :=
  let b := bottom_ d in
  let t := top_ d in
  let count := Z.of_nat (length items) in
  if capacity_ d <? u64 (b + count - t) then (d, false)
  else (set_bottom (write_batch d b items) (u64 (b + count)), true).

(** [std::optional<Task*> pop_bottom()]: without a stealer in between, the CAS
    on [top_] compares the value just read and succeeds. *)
Definition pop_bottom (d : deque) : deque * option (option ptr) :=
  let b := bottom_ d in
  let t := top_ d in
  if b <=? t then (d, None)
  else
    let b := u64 (b - 1) in
    let d := set_bottom d b in
    let t := top_ d in
    if t <=? b then
      let item := read d b in
      if t =? b then (set_bottom (set_top d (u64 (t + 1))) (u64 (b + 1)), Some item)
      else (d, Some item)
    else (set_bottom d t, None).

Definition steal (d : deque) : deque * option (option ptr) :=
  let t := top_ d in
  let b := bottom_ d in
  if t <? b then (set_top d (u64 (t + 1)), Some (read d t)) else (d, None).

Definition size (d : deque) : Z :=
  let t := top_ d in
  let b := bottom_ d in
  if t <? b then u64 (b - t) else 0.

Definition empty (d : deque) : bool := bottom_ d <=? top_ d.

(** ** What a deque holds *)

(** The tasks at indices [lo..hi-1], oldest first. *)
Definition window (d : deque) (lo hi : Z) : list (option ptr) :=
  read d <$> seqZ lo (hi - lo).
Definition contents (d : deque) : list (option ptr) := window d (top_ d) (bottom_ d).

(** The capacity is a power of two whose buffer fits in memory (a slot is eight
    bytes), and the mask matches it. *)
Definition geometry (d : deque) : Prop :=
  (exists k, 0 <= k <= 60 /\ capacity_ d = 2 ^ k) /\
  mask_ d = capacity_ d - 1 /\
  Z.of_nat (length (buffer_ d)) = capacity_ d.

Definition wf (d : deque) : Prop :=
  geometry d /\ 0 <= top_ d <= bottom_ d /\ bottom_ d - top_ d <= capacity_ d.

Lemma capacity_range d : geometry d -> 1 <= capacity_ d <= 2 ^ 60.
Proof.
  intros [(k & Hk & ->) _]. split.
  - pose proof (Z.pow_pos_nonneg 2 k). lia.
  - apply Z.pow_le_mono_r; lia.
Qed.

Lemma slot_mod d i : geometry d -> slot d i = Z.to_nat (i mod capacity_ d).
Proof.
  intros [(k & Hk & Hc) [Hm _]]. unfold slot. rewrite Hm, Hc, land_mask by lia. done.
Qed.

Lemma slot_lt d i : geometry d -> (slot d i < length (buffer_ d))%nat.
Proof.
  intros Hg. rewrite slot_mod by done. pose proof (capacity_range d Hg).
  destruct Hg as (_ & _ & Hl).
  pose proof (Z.mod_pos_bound i (capacity_ d)). lia.
Qed.

Lemma slot_ne d i j : geometry d -> 0 < i - j < capacity_ d -> slot d i <> slot d j.
Proof.
  intros Hg Hij. rewrite !slot_mod by done. pose proof (capacity_range d Hg).
  pose proof (mod_ne_within_lap i j (capacity_ d)).
  pose proof (Z.mod_pos_bound i (capacity_ d)). pose proof (Z.mod_pos_bound j (capacity_ d)).
  lia.
Qed.

Lemma geometry_write d i x : geometry d -> geometry (write d i x).
Proof. unfold geometry, write. simpl. by rewrite length_insert. Qed.

Lemma read_write_eq d i x : geometry d -> read (write d i x) i = x.
Proof.
  intros Hg. unfold read, write. change (slot (mk_deque _ _ _ _ _) i) with (slot d i). simpl.
  by rewrite list_lookup_insert_eq by (by apply slot_lt).
Qed.

Lemma read_write_ne d i j x :
  geometry d -> 0 < i - j < capacity_ d -> read (write d i x) j = read d j.
Proof.
  intros Hg Hij. unfold read, write. change (slot (mk_deque _ _ _ _ _) j) with (slot d j). simpl.
  by rewrite list_lookup_insert_ne by (by apply slot_ne).
Qed.

Lemma window_ext d d' lo hi :
  (forall i, lo <= i < hi -> read d i = read d' i) -> window d lo hi = window d' lo hi.
Proof.
  intros H. unfold window. apply list_fmap_ext. intros k i Hi.
  apply lookup_seqZ in Hi. apply H. lia.
Qed.

Lemma window_empty d lo hi : hi <= lo -> window d lo hi = [].
Proof. intros. unfold window. by rewrite seqZ_nil by lia. Qed.

Lemma window_cons d lo hi : lo < hi -> window d lo hi = read d lo :: window d (lo + 1) hi.
Proof.
  intros. unfold window. rewrite seqZ_cons by lia.
  replace (Z.pred (hi - lo)) with (hi - (lo + 1)) by lia. by rewrite Z.add_1_r.
Qed.

Lemma window_app d lo mid hi :
  lo <= mid <= hi -> window d lo hi = window d lo mid ++ window d mid hi.
Proof.
  intros. unfold window. replace (hi - lo) with ((mid - lo) + (hi - mid)) by lia.
  rewrite seqZ_app, fmap_app by lia. by replace (lo + (mid - lo)) with mid by lia.
Qed.

Lemma window_snoc d lo hi : lo <= hi -> window d lo (hi + 1) = window d lo hi ++ [read d hi].
Proof.
  intros. rewrite (window_app d lo hi (hi + 1)), (window_cons d hi) by lia.
  by rewrite (window_empty d (hi + 1)) by lia.
Qed.

Lemma window_write d i x lo hi :
  geometry d -> (forall j, lo <= j < hi -> 0 < i - j < capacity_ d) ->
  window (write d i x) lo hi = window d lo hi.
Proof. intros Hg H. apply window_ext. intros j Hj. by apply read_write_ne; [|apply H]. Qed.

(** ** The methods refine a list with two ends *)

(** The indices stay below 2^64: they count pushes. *)
Definition headroom (d : deque) (n : Z) : Prop := bottom_ d + n < 2 ^ 64.

Lemma length_contents d : wf d -> Z.of_nat (length (contents d)) = bottom_ d - top_ d.
Proof.
  intros (_ & Hb & _). unfold contents, window. rewrite length_fmap, length_seqZ. lia.
Qed.

Lemma u64_gap d n : wf d -> 0 <= n <= 2 ^ 62 -> u64 (bottom_ d + n - top_ d) = bottom_ d + n - top_ d.
Proof.
  intros (Hg & Hb & Hc) Hn. pose proof (capacity_range d Hg). apply u64_small. lia.
Qed.

Lemma push_bottom_refines d p :
  wf d -> headroom d 1 ->
  let full := capacity_ d <=? Z.of_nat (length (contents d)) in
  let '(d', ok) := push_bottom d (Some p) in
  wf d' /\ ok = negb full /\ contents d' = contents d ++ (if full then [] else [Some p]).
Proof.
  intros Hwf Hh full. pose proof Hwf as (Hg & Hb & Hc).
  pose proof (u64_gap d 0 Hwf ltac:(lia)) as Hgap. rewrite Z.add_0_r in Hgap.
  unfold push_bottom, full. rewrite Hgap, length_contents by done.
  destruct (Z.leb_spec (capacity_ d) (bottom_ d - top_ d)).
  { by rewrite app_nil_r. }
  unfold headroom in Hh. rewrite u64_small by lia.
  assert (Hg' := geometry_write d (bottom_ d) (Some p) Hg).
  split; [split; [done|simpl; lia]|]. split; [done|]. unfold contents. simpl.
  change (window (set_bottom ?d0 _)) with (window d0).
  rewrite window_snoc, read_write_eq, window_write by (done || lia). done.
Qed.

Lemma write_batch_spec d b items :
  geometry d -> 0 <= b -> b + Z.of_nat (length items) < 2 ^ 64 ->
  Z.of_nat (length items) <= capacity_ d ->
  let d' := write_batch d b items in
  geometry d' /\ capacity_ d' = capacity_ d /\ top_ d' = top_ d /\ bottom_ d' = bottom_ d /\
  window d' b (b + Z.of_nat (length items)) = items /\
  (forall j, b + Z.of_nat (length items) - capacity_ d <= j < b -> read d' j = read d j).
Proof.
  revert d b. induction items as [|x items IH]; intros d b Hg Hb Hmax Hcap.
  { simpl. split_and!; try done. by apply window_empty; lia. }
  simpl in Hmax, Hcap |- *. rewrite u64_small by lia.
  assert (Hg' := geometry_write d b x Hg).
  destruct (IH (write d b x) (b + 1)) as (Hgd & Hcd & Htd & Hbd & Hw & Hr); try done || (simpl; lia).
  split_and!; try done.
  - rewrite window_cons by lia. f_equal.
    + rewrite Hr by (simpl; lia). by apply read_write_eq.
    + etrans; [|exact Hw]. f_equal. lia.
  - intros j Hj. rewrite Hr by (simpl; lia). apply read_write_ne; [done|lia].
Qed.

Lemma push_bottom_batch_refines d items :
  wf d -> headroom d (Z.of_nat (length items)) -> Z.of_nat (length items) <= 2 ^ 60 ->
  let full := capacity_ d <? Z.of_nat (length (contents d)) + Z.of_nat (length items) in
  let '(d', ok) := push_bottom_batch d items in
  wf d' /\ ok = negb full /\ contents d' = contents d ++ (if full then [] else items).
Proof.
  intros Hwf Hh Hlen full. pose proof Hwf as (Hg & Hb & Hc).
  pose proof (u64_gap d (Z.of_nat (length items)) Hwf ltac:(lia)) as Hgap.
  unfold push_bottom_batch, full. rewrite Hgap, length_contents by done.
  replace (bottom_ d - top_ d + Z.of_nat (length items))
    with (bottom_ d + Z.of_nat (length items) - top_ d) by lia.
  destruct (Z.ltb_spec (capacity_ d) (bottom_ d + Z.of_nat (length items) - top_ d)).
  { by rewrite app_nil_r. }
  unfold headroom in Hh. rewrite u64_small by lia.
  destruct (write_batch_spec d (bottom_ d) items) as (Hgd & Hcd & Htd & Hbd & Hw & Hr);
    try done || lia.
  split; [split; [done|simpl; lia]|]. split; [done|]. unfold contents. simpl.
  change (window (set_bottom ?d0 _)) with (window d0). rewrite Htd.
  rewrite (window_app _ _ (bottom_ d)), Hw by lia. f_equal.
  apply window_ext. intros i Hi. apply Hr. lia.
Qed.

Lemma pop_bottom_refines d :
  wf d -> headroom d 1 ->
  let '(d', r) := pop_bottom d in
  wf d' /\ capacity_ d' = capacity_ d /\
  match r with
  | Some x => contents d = contents d' ++ [x]
  | None => contents d = [] /\ d' = d
  end.
Proof.
  intros Hwf Hh. pose proof Hwf as (Hg & Hb & Hc). unfold headroom in Hh.
  pose proof (capacity_range d Hg). unfold pop_bottom.
  destruct (Z.leb_spec (bottom_ d) (top_ d)).
  { split_and!; try done. by apply window_empty. }
  rewrite u64_small by lia. simpl.
  destruct (Z.leb_spec (top_ d) (bottom_ d - 1)); [|lia].
  destruct (Z.eqb_spec (top_ d) (bottom_ d - 1)) as [He|Hne].
  - split; [split; [done|simpl; rewrite !u64_small by lia; lia]|]. split; [done|].
    unfold contents. simpl. rewrite !u64_small by lia.
    rewrite (window_empty _ (top_ d + 1)) by lia.
    rewrite window_cons, window_empty by lia. by rewrite He.
  - split; [split; [done|simpl; lia]|]. split; [done|]. unfold contents. simpl.
    replace (bottom_ d) with (bottom_ d - 1 + 1) at 1 by lia. by rewrite window_snoc by lia.
Qed.

Lemma steal_refines d :
  wf d -> headroom d 1 ->
  let '(d', r) := steal d in
  wf d' /\ capacity_ d' = capacity_ d /\
  match r with
  | Some x => contents d = x :: contents d'
  | None => contents d = [] /\ d' = d
  end.
Proof.
  intros Hwf Hh. pose proof Hwf as (Hg & Hb & Hc). unfold headroom in Hh.
  unfold steal. destruct (Z.ltb_spec (top_ d) (bottom_ d)).
  - rewrite u64_small by lia. split; [split; [done|simpl; lia]|]. split; [done|].
    unfold contents. simpl. by rewrite window_cons by lia.
  - split_and!; try done. by apply window_empty.
Qed.

Lemma make_wf k : 0 <= k <= 60 -> exists d, make (2 ^ k) = Some d /\ wf d /\ contents d = [] /\ capacity_ d = 2 ^ k.
Proof.
  intros Hk. assert (Hr : 1 <= 2 ^ k <= 2 ^ 60).
  { split; [pose proof (Z.pow_pos_nonneg 2 k); lia|apply Z.pow_le_mono_r; lia]. }
  unfold make. rewrite u64_small by lia. rewrite land_mask, Z_mod_same_full by lia. simpl.
  eexists. split; [done|]. split; [|done]. split; [|simpl; lia].
  split; [by exists k|]. simpl. rewrite length_replicate. lia.
Qed.

(** ** The methods as atomic actions

    Each constructor of [owner_pc] and [thief_pc] is a point between two accesses
    to the shared fields; it carries the local variables live there.  Only the
    owner writes [bottom_] (outside its own CAS on [top_]) and the buffer. *)

Inductive owner_pc :=
  | OIdle
  | OPushLoadTop (item : ptr) (b : Z)
  | OPushWrite (item : ptr) (b : Z)
  | OPushPublish (item : ptr) (b : Z)
  | OBatchLoadTop (items : list (option ptr)) (b : Z)
  | OBatchWrite (items todo : list (option ptr)) (b i : Z)
  | OBatchPublish (items : list (option ptr)) (b : Z)
  | OPopLoadTop (b : Z)
  | OPopDec (b : Z)                            (* b is already decremented *)
  | OPopReload (b : Z)
  | OPopRead (b t : Z)                         (* t <= b *)
  | OPopCas (b : Z) (item : option ptr)        (* last item *)
  | OPopRestore (b : Z) (item : option (option ptr))
  | OPopEmpty (t : Z).

Inductive thief_pc :=
  | TLoadBottom (t : Z)
  | TRead (t : Z)
  | TCas (t : Z) (item : option ptr).

(** [pushed] and [taken] are history: the tasks published by the owner and
    the tasks returned by [pop_bottom] or [steal]. *)
Record state := mk_state {
  dq : deque;
  own : owner_pc;
  thieves : gmap nat thief_pc;                 (* absent: not inside steal() *)
  pushed : list (option ptr);
  taken : list (option ptr)
}.

Inductive action :=
  | CallPush (item : ptr)
  | CallPushBatch (items : list (option ptr))
  | CallPop
  | Owner
  | CallSteal (i : nat)
  | Thief (i : nat).

Definition init (d : deque) : state := mk_state d OIdle ∅ [] [].

(** Helpers that replace one field. *)
Definition at_own (s : state) (pc : owner_pc) : state :=
  mk_state (dq s) pc (thieves s) (pushed s) (taken s).
Definition with_dq (s : state) (d : deque) (pc : owner_pc) : state :=
  mk_state d pc (thieves s) (pushed s) (taken s).
Definition owner_returns (s : state) (x : option ptr) : state :=
  mk_state (dq s) OIdle (thieves s) (pushed s) (taken s ++ [x]).
Definition publish (s : state) (xs : list (option ptr)) (b : Z) : state :=
  mk_state (set_bottom (dq s) b) OIdle (thieves s) (pushed s ++ xs) (taken s).
Definition at_thief (s : state) (i : nat) (pc : thief_pc) : state :=
  mk_state (dq s) (own s) (<[i := pc]> (thieves s)) (pushed s) (taken s).
Definition thief_returns (s : state) (i : nat) : state :=
  mk_state (dq s) (own s) (delete i (thieves s)) (pushed s) (taken s).

(** The owner's next access. *)
Definition owner_step (s : state) : option state :=
  let d := dq s in
  match own s with
  | OIdle => None
  | OPushLoadTop item b =>
      if capacity_ d <=? u64 (b - top_ d) then Some (at_own s OIdle)
      else Some (at_own s (OPushWrite item b))
  | OPushWrite item b => Some (with_dq s (write d b (Some item)) (OPushPublish item b))
  | OPushPublish item b => Some (publish s [Some item] (u64 (b + 1)))
  | OBatchLoadTop items b =>
      if capacity_ d <? u64 (b + Z.of_nat (length items) - top_ d) then Some (at_own s OIdle)
      else Some (at_own s (OBatchWrite items items b b))
  | OBatchWrite items [] b _ => Some (at_own s (OBatchPublish items b))
  | OBatchWrite items (x :: todo) b i =>
      Some (with_dq s (write d i x) (OBatchWrite items todo b (u64 (i + 1))))
  | OBatchPublish items b => Some (publish s items (u64 (b + Z.of_nat (length items))))
  | OPopLoadTop b =>
      if b <=? top_ d then Some (at_own s OIdle) else Some (at_own s (OPopDec (u64 (b - 1))))
  | OPopDec b => Some (with_dq s (set_bottom d b) (OPopReload b))
  | OPopReload b =>
      let t := top_ d in
      if t <=? b then Some (at_own s (OPopRead b t)) else Some (at_own s (OPopEmpty t))
  | OPopRead b t =>
      let item := read d b in
      if t =? b then Some (at_own s (OPopCas b item)) else Some (owner_returns s item)
  | OPopCas b item =>
      if top_ d =? b
      then Some (with_dq s (set_top d (u64 (b + 1))) (OPopRestore b (Some item)))
      else Some (at_own s (OPopRestore b None))
  | OPopRestore b r =>
      let s := with_dq s (set_bottom d (u64 (b + 1))) OIdle in
      match r with Some item => Some (owner_returns s item) | None => Some s end
  | OPopEmpty t => Some (with_dq s (set_bottom d t) OIdle)
  end.

(** Thief [i]'s next access. *)
Definition thief_step (i : nat) (s : state) : option state :=
  let d := dq s in
  match thieves s !! i with
  | None => None
  | Some (TLoadBottom t) =>
      if t <? bottom_ d then Some (at_thief s i (TRead t)) else Some (thief_returns s i)
  | Some (TRead t) => Some (at_thief s i (TCas t (read d t)))
  | Some (TCas t item) =>
      if top_ d =? t
      then Some (mk_state (set_top d (u64 (t + 1))) (own s) (delete i (thieves s))
                   (pushed s) (taken s ++ [item]))
      else Some (thief_returns s i)
  end.

(** A call starts by loading its first index.  A batch is an array of pointers,
    so it has fewer than 2^60 elements. *)
Definition exec (a : action) (s : state) : option state :=
  match a with
  | CallPush item =>
      match own s with
      | OIdle => Some (at_own s (OPushLoadTop item (bottom_ (dq s))))
      | _ => None
      end
  | CallPushBatch items =>
      match own s with
      | OIdle =>
          if Z.of_nat (length items) <? 2 ^ 60
          then Some (at_own s (OBatchLoadTop items (bottom_ (dq s)))) else None
      | _ => None
      end
  | CallPop =>
      match own s with
      | OIdle => Some (at_own s (OPopLoadTop (bottom_ (dq s))))
      | _ => None
      end
  | Owner => owner_step s
  | CallSteal i =>
      match thieves s !! i with
      | None => Some (at_thief s i (TLoadBottom (top_ (dq s))))
      | Some _ => None
      end
  | Thief i => thief_step i s
  end.

(** ** The invariant *)

(** Where the range of tasks a thief may still claim ends: inside
    [pop_bottom] the decremented [bottom_] does not say yet who gets the task
    at [b]. *)
Definition limit (s : state) : Z :=
  match own s with
  | OPopReload b => b + 1
  | OPopRead b t => if t =? b then b + 1 else b
  | OPopCas b _ => b + 1
  | OPopRestore b _ => b + 1
  | OPopEmpty t => t
  | _ => bottom_ (dq s)
  end.

(** Tasks in the deque that a thief may still take. *)
Definition available (s : state) : list (option ptr) := window (dq s) (top_ (dq s)) (limit s).

(** The task the owner has won and not returned yet. *)
Definition claimed (s : state) : list (option ptr) :=
  match own s with
  | OPopRead b t => if t =? b then [] else [read (dq s) b]
  | OPopRestore _ (Some item) => [item]
  | _ => []
  end.

Definition owner_inv (s : state) : Prop :=
  let d := dq s in
  let t := top_ d in
  match own s with
  | OIdle => True
  | OPushLoadTop _ b => bottom_ d = b
  | OPushWrite _ b => bottom_ d = b /\ b - t < capacity_ d
  | OPushPublish item b => bottom_ d = b /\ b - t < capacity_ d /\ read d b = Some item
  | OBatchLoadTop items b => bottom_ d = b /\ Z.of_nat (length items) < 2 ^ 60
  | OBatchWrite items todo b i =>
      bottom_ d = b /\ b + Z.of_nat (length items) - t <= capacity_ d /\
      i = b + Z.of_nat (length items) - Z.of_nat (length todo) /\ b <= i /\
      window d b i ++ todo = items
  | OBatchPublish items b =>
      bottom_ d = b /\ b + Z.of_nat (length items) - t <= capacity_ d /\
      window d b (b + Z.of_nat (length items)) = items
  | OPopLoadTop b => bottom_ d = b
  | OPopDec b => bottom_ d = b + 1 /\ 0 <= b
  | OPopReload b => bottom_ d = b /\ 0 <= b
  | OPopRead b t0 => bottom_ d = b /\ 0 <= t0 <= b /\ t0 <= t
  | OPopCas b item => bottom_ d = b /\ 0 <= b <= t /\ (t = b -> read d b = item)
  | OPopRestore b _ => bottom_ d = b /\ 0 <= b /\ t = b + 1
  | OPopEmpty t0 => bottom_ d + 1 = t0 /\ t = t0
  end.

Definition thief_inv (s : state) (pc : thief_pc) : Prop :=
  let t0 := top_ (dq s) in
  match pc with
  | TLoadBottom t => 0 <= t <= t0
  | TRead t => 0 <= t <= t0 /\ (t = t0 -> t < limit s)
  | TCas t item => 0 <= t <= t0 /\ (t = t0 -> t < limit s /\ read (dq s) t = item)
  end.

Record inv (s : state) : Prop := mk_inv {
  inv_geometry : geometry (dq s);
  inv_range : 0 <= top_ (dq s) <= limit s /\ limit s - top_ (dq s) <= capacity_ (dq s);
  inv_pushed : 0 <= bottom_ (dq s) /\ limit s <= Z.of_nat (length (pushed s));
  inv_owner : owner_inv s;
  inv_thieves : map_Forall (fun _ => thief_inv s) (thieves s);
  inv_balance : pushed s ≡ₚ taken s ++ claimed s ++ available s
}.

(** *** Preservation *)

(** A thief's local view survives any step that advances [top_], or leaves it in
    place with its task still there. *)
Lemma thief_inv_frame s s' pc :
  top_ (dq s) <= top_ (dq s') ->
  (top_ (dq s') = top_ (dq s) -> top_ (dq s) < limit s ->
   top_ (dq s) < limit s' /\ read (dq s') (top_ (dq s)) = read (dq s) (top_ (dq s))) ->
  thief_inv s pc -> thief_inv s' pc.
Proof.
  intros Hle Hf. destruct pc as [t|t|t item]; simpl; intros H.
  - lia.
  - destruct H as [Ht Hl]. split; [lia|]. intros ->.
    assert (He : top_ (dq s') = top_ (dq s)) by lia. rewrite He in *.
    by destruct (Hf eq_refl (Hl eq_refl)).
  - destruct H as [Ht Hl]. split; [lia|]. intros ->.
    assert (He : top_ (dq s') = top_ (dq s)) by lia. rewrite He in *.
    destruct (Hl eq_refl) as [Hlt <-]. by destruct (Hf eq_refl Hlt).
Qed.

(** What remains to prove for an owner step. *)
Lemma inv_owner_change s s' :
  inv s -> thieves s' = thieves s ->
  geometry (dq s') -> capacity_ (dq s') = capacity_ (dq s) ->
  top_ (dq s) <= top_ (dq s') <= limit s' -> limit s' - top_ (dq s') <= capacity_ (dq s) ->
  0 <= bottom_ (dq s') /\ limit s' <= Z.of_nat (length (pushed s')) ->
  (top_ (dq s') = top_ (dq s) -> top_ (dq s) < limit s ->
   top_ (dq s) < limit s' /\ read (dq s') (top_ (dq s)) = read (dq s) (top_ (dq s))) ->
  owner_inv s' -> pushed s' ≡ₚ taken s' ++ claimed s' ++ available s' ->
  inv s'.
Proof.
  intros Hi Hth Hg Hcap Hr Hc Hb Hf Ho Hbal. pose proof (inv_range s Hi).
  split; [done|lia|done|done| |done].
  rewrite Hth. eapply map_Forall_impl; [apply Hi|].
  intros i pc. simpl. apply thief_inv_frame; [lia|done].
Qed.

(** A step that only moves the owner's program counter. *)
Lemma inv_at_own s pc :
  inv s -> limit (at_own s pc) = limit s -> claimed (at_own s pc) = claimed s ->
  owner_inv (at_own s pc) -> inv (at_own s pc).
Proof.
  intros Hi Hl Hc Ho. pose proof Hi as [Hg Hr Hp _ Ht Hb].
  apply (inv_owner_change s); simpl; rewrite ?Hl; try done || lia.
  unfold available. by rewrite Hl, Hc.
Qed.

(** Writing above every available index. *)
Lemma inv_write s i x pc :
  inv s -> limit s <= i -> i - top_ (dq s) < capacity_ (dq s) ->
  limit (with_dq s (write (dq s) i x) pc) = limit s ->
  claimed s = [] -> claimed (with_dq s (write (dq s) i x) pc) = [] ->
  owner_inv (with_dq s (write (dq s) i x) pc) ->
  inv (with_dq s (write (dq s) i x) pc).
Proof.
  intros Hi Hli Hlap Hl Hc Hc' Ho. pose proof Hi as [Hg Hr Hp _ Ht Hb].
  apply (inv_owner_change s); simpl; rewrite ?Hl; try done || lia.
  - by apply geometry_write.
  - intros _ Hlt. split; [done|]. apply read_write_ne; [done|lia].
  - rewrite Hc'. unfold available. rewrite Hl. simpl.
    rewrite window_write by (done || (intros j Hj; lia)). by rewrite Hc in Hb.
Qed.

(** Publishing the tasks written above [bottom_]. *)
Lemma inv_publish s xs :
  inv s -> limit s = bottom_ (dq s) -> claimed s = [] ->
  bottom_ (dq s) + Z.of_nat (length xs) - top_ (dq s) <= capacity_ (dq s) ->
  window (dq s) (bottom_ (dq s)) (bottom_ (dq s) + Z.of_nat (length xs)) = xs ->
  Z.of_nat (length (pushed s ++ xs)) < 2 ^ 63 ->
  inv (publish s xs (u64 (bottom_ (dq s) + Z.of_nat (length xs)))).
Proof.
  intros Hi Hl Hc Hcap Hw Hm. pose proof Hi as [Hg Hr Hp _ Ht Hb].
  rewrite length_app in Hm. rewrite u64_small by lia.
  set (b' := bottom_ (dq s) + Z.of_nat (length xs)) in *.
  assert (Hlim : limit (publish s xs b') = b') by done.
  apply (inv_owner_change s); rewrite ?Hlim; simpl; rewrite ?length_app; try done || lia.
  { intros _ Hlt. split; [lia|done]. }
  unfold available, limit, claimed. simpl.
  change (window (set_bottom ?d0 _)) with (window d0).
  unfold b' in *. rewrite (window_app _ _ (bottom_ (dq s))), Hw by lia.
  rewrite Hb, Hc. unfold available. rewrite Hl. simpl. by rewrite <- !app_assoc.
Qed.

Lemma window_one d b x : read d b = x -> window d b (b + 1) = [x].
Proof. intros <-. rewrite window_cons, window_empty by lia. done. Qed.

Ltac owner_start Hi E :=
  let Hg := fresh "Hg" in let Hr := fresh "Hr" in let Hp := fresh "Hp" in
  let Ho := fresh "Ho" in let Ht := fresh "Ht" in let Hb := fresh "Hb" in
  pose proof Hi as [Hg Hr Hp Ho Ht Hb];
  unfold owner_inv in Ho; unfold limit in Hr, Hp; rewrite E in Ho, Hr, Hp; cbn beta iota zeta in Ho, Hr, Hp.

(** Closes the side conditions about the owner's program counter. *)
Ltac owner_side E := unfold limit, claimed, owner_inv; simpl; rewrite ?E; try done; try lia.

Lemma inv_push_step s s' item b :
  inv s -> Z.of_nat (length (pushed s')) < 2 ^ 63 -> owner_step s = Some s' ->
  own s = OPushLoadTop item b \/ own s = OPushWrite item b \/ own s = OPushPublish item b ->
  inv s'.
Proof.
  intros Hi Hm Hst [E|[E|E]]; unfold owner_step in Hst; rewrite E in Hst;
    owner_start Hi E; pose proof (capacity_range _ Hg).
  - rewrite u64_small in Hst by lia. case_match; simplify_eq.
    + apply inv_at_own; owner_side E.
    + apply inv_at_own; owner_side E.
  - simplify_eq. destruct Ho as [<- Hlap]. apply inv_write; owner_side E.
    by rewrite read_write_eq.
  - simplify_eq. destruct Ho as (<- & Hlap & Hrd).
    apply (inv_publish s [Some item]); owner_side E. by apply window_one.
Qed.

Lemma inv_batch_step s s' :
  inv s -> Z.of_nat (length (pushed s')) < 2 ^ 63 -> owner_step s = Some s' ->
  match own s with
  | OBatchLoadTop _ _ | OBatchWrite _ _ _ _ | OBatchPublish _ _ => True
  | _ => False
  end -> inv s'.
Proof.
  intros Hi Hm Hst E. unfold owner_step in Hst.
  destruct (own s) as [| | | |items b|items [|x todo] b i|items b| | | | | | |] eqn:E0; try done;
    clear E; owner_start Hi E0; pose proof (capacity_range _ Hg).
  - rewrite u64_small in Hst by lia. case_match; simplify_eq.
    + apply inv_at_own; owner_side E0.
    + apply inv_at_own; owner_side E0. split_and!; try lia. by rewrite window_empty by lia.
  - simplify_eq. destruct Ho as (<- & Hlap & -> & Hle & Hw).
    apply inv_at_own; owner_side E0. split_and!; try done.
    rewrite app_nil_r in Hw. simpl in Hw. by rewrite Z.sub_0_r in Hw.
  - simplify_eq. destruct Ho as (<- & Hlap & Hi' & Hle & Hw).
    simpl length in Hi'. simpl in Hm. apply inv_write; owner_side E0.
    rewrite u64_small by lia. split_and!; try done || lia.
    rewrite window_snoc, read_write_eq, window_write, <- app_assoc by (done || (intros j Hj; lia)).
    done.
  - simplify_eq. destruct Ho as (<- & Hlap & Hw).
    apply inv_publish; owner_side E0.
Qed.

(** Moving [bottom_] inside [pop_bottom] without changing who may take what. *)
Lemma inv_set_bottom s b pc :
  inv s -> let s' := with_dq s (set_bottom (dq s) b) pc in
  0 <= b -> limit s' = limit s -> claimed s' = claimed s -> owner_inv s' -> inv s'.
Proof.
  intros Hi s' Hb Hl Hc Ho. pose proof Hi as [Hg Hr Hp _ Ht Hbal].
  apply (inv_owner_change s); rewrite ?Hl; try done || (simpl; lia).
  unfold available. by rewrite Hl, Hc.
Qed.

Lemma inv_pop_step s s' :
  inv s -> Z.of_nat (length (pushed s')) < 2 ^ 63 -> owner_step s = Some s' ->
  match own s with
  | OPopLoadTop _ | OPopDec _ | OPopReload _ | OPopEmpty _ => True
  | _ => False
  end -> inv s'.
Proof.
  intros Hi Hm Hst E. unfold owner_step in Hst.
  destruct (own s) eqn:E0; try done; clear E; owner_start Hi E0; pose proof (capacity_range _ Hg).
  - case_match; simplify_eq.
    + apply inv_at_own; owner_side E0.
    + apply inv_at_own; owner_side E0. rewrite u64_small; [lia|].
      simplify_eq. unfold at_own in Hm. simpl in Hm. lia.
  - simplify_eq. destruct Ho as [Hbt Hb0].
    apply inv_set_bottom; owner_side E0.
  - case_match; simplify_eq; destruct Ho as [<- Hb0].
    + (* commits to the task at b, or goes on to race for it *)
      apply (inv_owner_change s); unfold limit; simpl; rewrite ?E0; try done || lia.
      * case_match; lia.
      * case_match; lia.
      * case_match; lia.
      * intros _ _. split; [|done]. case_match; lia.
      * unfold owner_inv. simpl. lia.
      * revert Hb. unfold available, claimed, limit. rewrite E0. simpl.
        case_match; simplify_eq/=; intros Hb; [done|].
        rewrite window_snoc in Hb by lia. rewrite Hb. apply Permutation_app_head.
        by rewrite Permutation_app_comm.
    + apply inv_at_own; owner_side E0.
  - simplify_eq. destruct Ho as [Hbt <-].
    apply inv_set_bottom; owner_side E0.
Qed.

Lemma inv_pop_finish_step s s' :
  inv s -> Z.of_nat (length (pushed s')) < 2 ^ 63 -> owner_step s = Some s' ->
  match own s with
  | OPopRead _ _ | OPopCas _ _ | OPopRestore _ _ => True
  | _ => False
  end -> inv s'.
Proof.
  intros Hi Hm Hst E. unfold owner_step in Hst.
  destruct (own s) as [| | | | | | | | | |b t|b item|b [item|]|] eqn:E0; try done; clear E;
    owner_start Hi E0; pose proof (capacity_range _ Hg).
  - case_match eqn:Et; simplify_eq; destruct Ho as (<- & Ht0 & Htt).
    + apply Z.eqb_eq in Et as ->. apply inv_at_own; owner_side E0; rewrite ?Z.eqb_refl; try done || lia. split_and!; try done || lia.
    + apply (inv_owner_change s); unfold limit, owner_inv; simpl; rewrite ?E0, ?Et; try done || lia.
      revert Hb. unfold available, claimed, limit. rewrite E0, Et. simpl. intros ->.
      by rewrite <- app_assoc.
  - case_match eqn:Et; simplify_eq; destruct Ho as (<- & Hb0 & Hrd).
    + apply Z.eqb_eq in Et. simpl in Hm.
      apply (inv_owner_change s); unfold limit, owner_inv; simpl; rewrite ?E0, ?u64_small by lia;
        try done || lia.
      revert Hb. unfold available, claimed, limit. rewrite E0. simpl. 
      rewrite Et, (window_one _ _ item), window_empty by (auto || lia). done.
    + apply Z.eqb_neq in Et. apply inv_at_own; owner_side E0.
  - simplify_eq. destruct Ho as (<- & Hb0 & Htop). simpl in Hm.
    apply (inv_owner_change s); unfold limit, owner_inv; simpl; rewrite ?E0, ?u64_small by lia;
      try done || lia.
    revert Hb. unfold available, claimed, limit. rewrite E0. simpl.
    rewrite !window_empty by lia. by rewrite !app_nil_r.
  - simplify_eq. destruct Ho as (<- & Hb0 & Htop). simpl in Hm.
    rewrite u64_small by lia. apply inv_set_bottom; owner_side E0.
Qed.

Lemma inv_owner_step s s' :
  inv s -> Z.of_nat (length (pushed s')) < 2 ^ 63 -> owner_step s = Some s' -> inv s'.
Proof.
  intros Hi Hm Hst. destruct (own s) eqn:E.
  - unfold owner_step in Hst. by rewrite E in Hst.
  - by eapply inv_push_step; eauto.
  - by eapply inv_push_step; eauto.
  - by eapply inv_push_step; eauto.
  - by eapply inv_batch_step; eauto; rewrite E.
  - by eapply inv_batch_step; eauto; rewrite E.
  - by eapply inv_batch_step; eauto; rewrite E.
  - by eapply inv_pop_step; eauto; rewrite E.
  - by eapply inv_pop_step; eauto; rewrite E.
  - by eapply inv_pop_step; eauto; rewrite E.
  - by eapply inv_pop_finish_step; eauto; rewrite E.
  - by eapply inv_pop_finish_step; eauto; rewrite E.
  - by eapply inv_pop_finish_step; eauto; rewrite E.
  - by eapply inv_pop_step; eauto; rewrite E.
Qed.

(** A step of a thief that leaves the deque as it is. *)
Lemma inv_thieves_only s th :
  inv s -> map_Forall (fun _ => thief_inv s) th ->
  inv (mk_state (dq s) (own s) th (pushed s) (taken s)).
Proof. intros [Hg Hr Hp Ho _ Hb] Ht. by split. Qed.

(** The CAS that claims the oldest task. *)
Lemma inv_thief_cas s i item :
  inv s -> thieves s !! i = Some (TCas (top_ (dq s)) item) -> top_ (dq s) + 1 < 2 ^ 64 ->
  inv (mk_state (set_top (dq s) (u64 (top_ (dq s) + 1))) (own s) (delete i (thieves s))
         (pushed s) (taken s ++ [item])).
Proof.
  intros Hi Hth Hm. pose proof Hi as [Hg Hr Hp Ho Ht Hb].
  destruct (Ht i _ Hth) as [_ [Hlt Hrd]]; [done|].
  rewrite u64_small by lia.
  set (s' := mk_state _ _ _ _ _).
  assert (Hl : limit s' = limit s) by done.
  split; rewrite ?Hl; simpl; try done || lia.
  - (* the owner's local view *)
    unfold owner_inv in *. unfold limit in Hlt. simpl.
    destruct (own s); try done || lia; destruct_and!; split_and!; done || lia.
  - apply map_Forall_delete. eapply map_Forall_impl; [exact Ht|].
    intros j pc. simpl. apply thief_inv_frame; simpl; lia.
  - rewrite Hb. unfold available at 2. rewrite Hl. simpl.
    unfold available. rewrite window_cons, Hrd by done.
    assert (claimed s' = claimed s) as ->.
    { unfold claimed. simpl. by destruct (own s). }
    change (window (set_top ?d0 _)) with (window d0).
    rewrite <- app_assoc. apply Permutation_app_head. simpl.
    by rewrite Permutation_middle.
Qed.

Lemma inv_thief_step i s s' : inv s -> Z.of_nat (length (pushed s')) < 2 ^ 63 -> thief_step i s = Some s' -> inv s'.
Proof.
  intros Hi Hm. unfold thief_step. destruct (thieves s !! i) as [[t|t|t item]|] eqn:E; [..|done].
  all: pose proof Hi as [Hg Hr Hp Ho Ht Hb]; pose proof (Ht i _ E) as Hpc.
  - intros Hst. case_match eqn:Hc; simplify_eq.
    + apply inv_thieves_only; [done|]. apply map_Forall_insert_2; [|done].
      simpl in *. split; [lia|]. intros ->.
      apply Z.ltb_lt in Hc. unfold limit, owner_inv in *. destruct (own s); try case_match; lia.
    + apply inv_thieves_only; [done|by apply map_Forall_delete].
  - intros [= <-]. apply inv_thieves_only; [done|]. apply map_Forall_insert_2; [|done].
    simpl in *. destruct Hpc as [? Hl]. split; [done|]. intros He. split; [by apply Hl|done].
  - intros Hst. case_match eqn:Hc; simplify_eq.
    + apply Z.eqb_eq in Hc as <-. simpl in Hm. apply inv_thief_cas; [done|done|lia].
    + apply inv_thieves_only; [done|by apply map_Forall_delete].
Qed.

Lemma inv_call_step a s s' : inv s -> Z.of_nat (length (pushed s')) < 2 ^ 63 -> exec a s = Some s' -> inv s'.
Proof.
  intros Hi Hm. destruct a as [item|items| | |i|i]; simpl.
  - destruct (own s) eqn:E; intros ?; simplify_eq. apply inv_at_own; owner_side E.
  - destruct (own s) eqn:E; intros ?; simplify_eq. case_match eqn:Hl; simplify_eq.
    apply inv_at_own; owner_side E.
  - destruct (own s) eqn:E; intros ?; simplify_eq. apply inv_at_own; owner_side E.
  - by apply inv_owner_step.
  - destruct (thieves s !! i) eqn:E; intros ?; simplify_eq.
    apply inv_thieves_only; [done|]. apply map_Forall_insert_2; [|apply Hi].
    simpl. pose proof (inv_range s Hi). lia.
  - by apply inv_thief_step.
Qed.

Lemma exec_pushed_mono a s s' :
  exec a s = Some s' -> Z.of_nat (length (pushed s)) <= Z.of_nat (length (pushed s')).
Proof.
  destruct a; simpl; unfold owner_step, thief_step; intros H; repeat case_match; simplify_eq/=;
    rewrite ?length_app; lia.
Qed.

Lemma deque_inv_init d : wf d -> top_ d = bottom_ d -> top_ d = 0 -> inv (init d).
Proof.
  intros (Hg & Hr & Hc) He Hz. split; try done; unfold limit; simpl; try lia.
  unfold available, limit, claimed. simpl. by rewrite window_empty by lia.
Qed.

(** ** Progress of the owner *)

(** How many more accesses the current call makes at most. *)
Definition owner_fuel (s : state) : nat :=
  match own s with
  | OIdle => 0
  | OPushLoadTop _ _ => 3
  | OPushWrite _ _ => 2
  | OPushPublish _ _ => 1
  | OBatchLoadTop items _ => length items + 3
  | OBatchWrite _ todo _ _ => length todo + 2
  | OBatchPublish _ _ => 1
  | OPopLoadTop _ => 6
  | OPopDec _ => 5
  | OPopReload _ => 4
  | OPopRead _ _ => 3
  | OPopCas _ _ => 2
  | OPopRestore _ _ => 1
  | OPopEmpty _ => 1
  end%nat.

Lemma owner_step_progress s :
  own s <> OIdle -> exists s', owner_step s = Some s' /\ (owner_fuel s' < owner_fuel s)%nat.
Proof.
  intros Hne. unfold owner_step, owner_fuel.
  destruct (own s); try done; repeat case_match; simplify_eq; eexists; (split; [done|]);
    simpl; try case_match; simpl; lia.
Qed.

Lemma thief_step_own i s s' : thief_step i s = Some s' -> own s' = own s.
Proof. unfold thief_step. intros H. repeat case_match; by simplify_eq. Qed.

Lemma exec_other_own a s s' :
  own s <> OIdle -> a <> Owner -> exec a s = Some s' -> own s' = own s.
Proof.
  intros Hne Ha. destruct a; simpl; try done; intros H.
  - by destruct (own s).
  - by destruct (own s).
  - by destruct (own s).
  - case_match; by simplify_eq.
  - by eapply thief_step_own.
Qed.

Definition is_owner (a : action) : bool := match a with Owner => true | _ => false end.
Definition owner_turns (l : list action) : nat := length (filter (fun a => is_owner a = true) l).

(** ** The methods are the machine run alone *)

(** The value [pop_bottom] or [steal] returned, as history. *)
Definition returned (r : option (option ptr)) : list (option ptr) :=
  match r with Some x => [x] | None => [] end.

Lemma run_owner_batch s items todo b i :
  own s = OBatchWrite items todo b i ->
  run exec (replicate (length todo + 1) Owner) s
  = Some (with_dq s (write_batch (dq s) i todo) (OBatchPublish items b)).
Proof.
  revert s i. induction todo as [|x todo IH]; intros s i E; simpl.
  - unfold owner_step. rewrite E. done.
  - unfold owner_step. rewrite E. simpl. by rewrite (IH _ (u64 (i + 1))) by done.
Qed.

Ltac owner_turn H := run_one ltac:(unfold exec, owner_step; simpl; rewrite ?H).
Ltac thief_turn H := run_one ltac:(unfold exec, thief_step; simpl; rewrite ?lookup_insert_eq, ?H).

Lemma solo_push s p :
  own s = OIdle ->
  exists n s', run exec (CallPush p :: replicate n Owner) s = Some s' /\ own s' = OIdle /\
    dq s' = (push_bottom (dq s) (Some p)).1.
Proof.
  intros E. unfold push_bottom.
  destruct (capacity_ (dq s) <=? u64 (bottom_ (dq s) - top_ (dq s))) eqn:Hc.
  - exists 1%nat. owner_turn E. owner_turn Hc. by eexists.
  - exists 3%nat. owner_turn E. owner_turn Hc. by eexists.
Qed.

Lemma solo_push_batch s items :
  own s = OIdle -> Z.of_nat (length items) < 2 ^ 60 ->
  exists n s', run exec (CallPushBatch items :: replicate n Owner) s = Some s' /\ own s' = OIdle /\
    dq s' = (push_bottom_batch (dq s) items).1.
Proof.
  intros E Hl. apply Z.ltb_lt in Hl. unfold push_bottom_batch.
  destruct (capacity_ (dq s) <? u64 (bottom_ (dq s) + Z.of_nat (length items) - top_ (dq s))) eqn:Hc.
  - exists 1%nat. run_one ltac:(simpl; rewrite E, Hl). owner_turn Hc. by eexists.
  - exists (S ((length items + 1) + 1)). run_one ltac:(simpl; rewrite E, Hl).
    rewrite replicate_add. owner_turn Hc.
    rewrite run_app. erewrite run_owner_batch by done. by eexists.
Qed.

Lemma solo_pop s :
  own s = OIdle ->
  exists n s', run exec (CallPop :: replicate n Owner) s = Some s' /\ own s' = OIdle /\
    dq s' = (pop_bottom (dq s)).1 /\ taken s' = taken s ++ returned (pop_bottom (dq s)).2.
Proof.
  intros E. unfold pop_bottom.
  destruct (bottom_ (dq s) <=? top_ (dq s)) eqn:H1.
  { exists 1%nat. owner_turn E. owner_turn H1. eexists. split_and!; try done.
    by rewrite app_nil_r. }
  cbn [top_ set_bottom]. destruct (top_ (dq s) <=? u64 (bottom_ (dq s) - 1)) eqn:H2.
  2:{ exists 4%nat. owner_turn E. owner_turn H1. owner_turn H1. owner_turn H2.
      eexists. split_and!; try done. by rewrite app_nil_r. }
  destruct (top_ (dq s) =? u64 (bottom_ (dq s) - 1)) eqn:H3.
  - exists 6%nat. owner_turn E. owner_turn H1. owner_turn H1. owner_turn H2.
    owner_turn H3. owner_turn H3. owner_turn H3. eexists. split_and!; try done.
    simpl. apply Z.eqb_eq in H3. by rewrite <- H3.
  - exists 4%nat. owner_turn E. owner_turn H1. owner_turn H1. owner_turn H2.
    owner_turn H3. by eexists.
Qed.

Lemma solo_steal s i :
  thieves s !! i = None ->
  exists n s', run exec (CallSteal i :: replicate n (Thief i)) s = Some s' /\
    thieves s' !! i = None /\
    dq s' = (steal (dq s)).1 /\ taken s' = taken s ++ returned (steal (dq s)).2.
Proof.
  intros E. unfold steal. destruct (top_ (dq s) <? bottom_ (dq s)) eqn:H1.
  - exists 3%nat. thief_turn E. thief_turn H1. thief_turn H1. thief_turn Z.eqb_refl.
    eexists. split; [done|]. simpl. by rewrite lookup_delete_eq.
  - exists 1%nat. thief_turn E. thief_turn H1. eexists. split; [done|]. simpl.
    by rewrite lookup_delete_eq, app_nil_r.
Qed.

(** ** The properties *)

(** [C17] However the owner and any number of thieves interleave, the tasks
    published by [push_bottom] and [push_bottom_batch] are, as a multiset,
    exactly those returned by [pop_bottom] and [steal], the one the owner has won
    and is about to return, and those still available: no task is lost and none
    is handed out twice, also in the race for the last task. *)
Theorem deque_conservation k d l s :
  0 <= k <= 60 -> make (2 ^ k) = Some d -> run exec l (init d) = Some s ->
  Z.of_nat (length (pushed s)) < 2 ^ 63 ->
  pushed s ≡ₚ taken s ++ claimed s ++ available s /\
  (NoDup (pushed s) -> NoDup (taken s)) /\
  (own s = OIdle -> wf (dq s) /\ pushed s ≡ₚ taken s ++ contents (dq s)).
Proof.
  intros Hk Hmk Hrun Hm.
  destruct (make_wf k Hk) as (d' & Hmk' & Hwf & Hc & _). simplify_eq.
  assert (Hi : inv s).
  { apply (reaches_invariant_bounded exec inv (fun s => Z.of_nat (length (pushed s))) (2 ^ 63) (init d));
      [| | |by exists l|done].
    - apply exec_pushed_mono.
    - intros a s1 s2 H1 H2 H3. by eapply inv_call_step.
    - apply deque_inv_init; [done| |]; unfold make in Hmk; case_match; by simplify_eq. }
  destruct Hi as [Hg Hr Hp Ho Ht Hb]. split_and!; [done| |].
  - intros Hnd. rewrite Hb in Hnd. by apply NoDup_app in Hnd as [? _].
  - intros Hid. unfold available, claimed, limit in *. rewrite Hid in *.
    split; [split; [done|lia]|done].
Qed.

(** Two tasks are pushed, the owner's [pop_bottom] commits to the younger one,
    and a thief takes the older one in between. *)
Definition race_trace : list action :=
  [CallPush 7%positive; Owner; Owner; Owner; CallPush 8%positive; Owner; Owner; Owner;
   CallPop; Owner; Owner; CallSteal 0; Thief 0; Thief 0; Owner; Thief 0; Owner].

Lemma deque_conservation_witness :
  exists s, run exec race_trace (init (mk_deque [None; None] 2 1 0 0)) = Some s /\
  taken s = [Some 7%positive; Some 8%positive] /\
  pushed s ≡ₚ taken s ++ claimed s ++ available s.
Proof.
  eexists. split; [vm_compute; reflexivity|]. split; [vm_compute; reflexivity|].
  refine (proj1 (deque_conservation 1 (mk_deque [None; None] 2 1 0 0) race_trace _ _ _ _ _));
    [lia|vm_compute; reflexivity|vm_compute; reflexivity|vm_compute; reflexivity].
Defined.

(** [C36] Without interference the deque is a two-ended list: [push_bottom] and
    [push_bottom_batch] append at the bottom and refuse (returning false,
    unchanged) exactly when the capacity would be exceeded, [pop_bottom] removes
    the youngest task, [steal] the oldest, both return nothing exactly when the
    deque is empty, and [size] and [empty] report the length. *)
Theorem deque_methods_refine d p items :
  wf d -> headroom d (2 ^ 60) -> Z.of_nat (length items) <= 2 ^ 60 ->
  (let full := capacity_ d <=? Z.of_nat (length (contents d)) in
   let '(d', ok) := push_bottom d (Some p) in
   wf d' /\ ok = negb full /\ contents d' = contents d ++ (if full then [] else [Some p])) /\
  (let full := capacity_ d <? Z.of_nat (length (contents d)) + Z.of_nat (length items) in
   let '(d', ok) := push_bottom_batch d items in
   wf d' /\ ok = negb full /\ contents d' = contents d ++ (if full then [] else items)) /\
  (let '(d', r) := pop_bottom d in
   wf d' /\ match r with
            | Some x => contents d = contents d' ++ [x]
            | None => contents d = [] /\ d' = d
            end) /\
  (let '(d', r) := steal d in
   wf d' /\ match r with
            | Some x => contents d = x :: contents d'
            | None => contents d = [] /\ d' = d
            end) /\
  size d = Z.of_nat (length (contents d)) /\ (empty d = true <-> contents d = []).
Proof.
  intros Hwf Hh Hl. unfold headroom in Hh.
  split; [apply push_bottom_refines; [done|unfold headroom; lia]|].
  split; [apply push_bottom_batch_refines; [done|unfold headroom; lia|done]|].
  pose proof (pop_bottom_refines d Hwf ltac:(unfold headroom; lia)) as Hpop.
  pose proof (steal_refines d Hwf ltac:(unfold headroom; lia)) as Hst.
  split; [by destruct (pop_bottom d) as [d' r]; destruct_and!|].
  split; [by destruct (steal d) as [d' r]; destruct_and!|].
  pose proof (length_contents d Hwf) as Hlen. destruct Hwf as (Hg & Hb & Hc).
  pose proof (capacity_range d Hg). unfold size, empty. split.
  - destruct (Z.ltb_spec (top_ d) (bottom_ d)); [rewrite u64_small|]; lia.
  - rewrite Z.leb_le, <- length_zero_iff_nil. lia.
Qed.

Lemma deque_methods_refine_witness :
  let d := mk_deque [Some 1%positive; Some 2%positive; None; None] 4 3 0 2 in
  pop_bottom d = (mk_deque [Some 1%positive; Some 2%positive; None; None] 4 3 0 1, Some (Some 2%positive)) /\
  size d = Z.of_nat (length (contents d)).
Proof.
  intros d. split; [vm_compute; reflexivity|].
  refine (proj1 (proj2 (proj2 (proj2 (proj2 (deque_methods_refine d 9%positive [] _ _ _)))))).
  - split; [split; [exists 2; split; [lia|reflexivity]|split; reflexivity]|simpl; lia].
  - unfold headroom. simpl. lia.
  - simpl. lia.
Defined.

(** The owner is wait-free: whatever the thieves do, a call of
    [push_bottom], [push_bottom_batch] or [pop_bottom] returns once the owner has
    been scheduled as many times as the call has accesses left (six for a pop,
    the batch length plus three for a batch). *)
Theorem deque_owner_wait_free l s s' :
  run exec l s = Some s' -> (owner_fuel s <= owner_turns l)%nat ->
  exists l1 l2 s1, l = l1 ++ l2 /\ run exec l1 s = Some s1 /\ own s1 = OIdle.
Proof.
  revert s. induction l as [|a l IH]; intros s Hr Hf.
  { exists [], [], s. split_and!; try done. unfold owner_turns in Hf. simpl in Hf.
    unfold owner_fuel in Hf. destruct (own s); (done || lia). }
  assert (Hd : own s = OIdle \/ own s <> OIdle) by (destruct (own s); auto).
  destruct Hd as [Hid|Hne]; [by exists [], (a :: l), s|].
  simpl in Hr. destruct (exec a s) as [s1|] eqn:Ea; simpl in Hr; [|done].
  assert (Hle : (owner_fuel s1 <= owner_turns l)%nat).
  { destruct (is_owner a) eqn:Eo.
    - destruct a; try done. destruct (owner_step_progress s Hne) as (s2 & Hs2 & Hlt).
      simpl in Ea. simplify_eq. unfold owner_turns in Hf. rewrite filter_cons_True in Hf by done.
      simpl in Hf. unfold owner_turns. lia.
    - assert (Ha : a <> Owner) by (by intros ->).
      assert (He := exec_other_own a s s1 Hne Ha Ea).
      unfold owner_turns in Hf. rewrite filter_cons_False in Hf by (by rewrite Eo).
      unfold owner_fuel in *. rewrite He. done. }
  destruct (IH s1 Hr Hle) as (l1 & l2 & s2 & -> & Hr1 & Hid).
  exists (a :: l1), l2, s2. split_and!; try done. simpl. by rewrite Ea.
Qed.

Lemma deque_owner_wait_free_witness :
  let s := mk_state (mk_deque [Some 1%positive; None] 2 1 0 1) (OPopLoadTop 1) ∅
             [Some 1%positive] [] in
  exists l1 l2 s1, [Owner; CallSteal 3; Owner; Owner; Thief 3; Owner; Owner; Owner] = l1 ++ l2 /\
    run exec l1 s = Some s1 /\ own s1 = OIdle.
Proof.
  intros s.
  refine (deque_owner_wait_free _ s _ _ _).
  - vm_compute. reflexivity.
  - vm_compute. lia.
Defined.

(** The uninterrupted methods used by the sequential models of the scheduler
    are the interleaved machine run alone: calling a method and letting only its
    caller run ends with the deque and the returned task that the method computes. *)
Theorem deque_methods_are_solo_runs s p items i :
  own s = OIdle -> thieves s !! i = None -> Z.of_nat (length items) < 2 ^ 60 ->
  (exists n s', run exec (CallPush p :: replicate n Owner) s = Some s' /\ own s' = OIdle /\
     dq s' = (push_bottom (dq s) (Some p)).1) /\
  (exists n s', run exec (CallPushBatch items :: replicate n Owner) s = Some s' /\ own s' = OIdle /\
     dq s' = (push_bottom_batch (dq s) items).1) /\
  (exists n s', run exec (CallPop :: replicate n Owner) s = Some s' /\ own s' = OIdle /\
     dq s' = (pop_bottom (dq s)).1 /\ taken s' = taken s ++ returned (pop_bottom (dq s)).2) /\
  (exists n s', run exec (CallSteal i :: replicate n (Thief i)) s = Some s' /\
     thieves s' !! i = None /\
     dq s' = (steal (dq s)).1 /\ taken s' = taken s ++ returned (steal (dq s)).2).
Proof. eauto 10 using solo_push, solo_push_batch, solo_pop, solo_steal. Qed.

Lemma deque_methods_are_solo_runs_witness :
  let s := init (mk_deque [None; None] 2 1 0 0) in
  exists n s', run exec (CallPush 5%positive :: replicate n Owner) s = Some s' /\ own s' = OIdle /\
     dq s' = (push_bottom (dq s) (Some 5%positive)).1.
Proof.
  intros s.
  refine (proj1 (deque_methods_are_solo_runs s 5%positive [] 0 _ _ _)); reflexivity.
Defined.
