(* ===== verification/Fiber.v ===== *)
(** * Fiber status and the suspend/resume handshake
      ([include/Fiber.h], [src/Fiber.cpp], the switch-back of [src/Thread.cpp])

    A fiber's [status] is shared by the fiber itself, the worker that runs it and
    every thread that calls [Resume] on it.  [resume_step] is the loop of
    [Fiber::Resume] and [post_step] the part of [Thread::Worker] after
    [ContextSwitch] returns, both cut at their accesses to [status]; [exec]
    interleaves them for one fiber. *)
From S2P Require Import Prelude.

Inductive FiberStatus :=
  | READY | RUNNING | WANTS_YIELD | WANTS_SUSPEND | SUSPEND_SIGNALED | SUSPENDED | DEAD.

#[global] Instance FiberStatus_eq_dec : EqDecision FiberStatus.
Proof. solve_decision. Defined.

(** [bool Fiber::IsReady() const] *)
Definition IsReady (s : FiberStatus) : bool := bool_decide (s = READY).

(** ** [Fiber::Resume] *)

Inductive resume_pc :=
  | RLoad                  (* about to load status *)
  | RCasSuspended          (* loaded SUSPENDED, about to CAS it to READY *)
  | RCasWants              (* loaded WANTS_SUSPEND, about to CAS it to SUSPEND_SIGNALED *)
  | RRequeue               (* won the first CAS: about to Requeue(owningTask) *)
  | RDone.

#[global] Instance resume_pc_eq_dec : EqDecision resume_pc.
Proof. solve_decision. Defined.

Definition resume_load (s : FiberStatus) : resume_pc :=
  match s with
  | SUSPENDED => RCasSuspended
  | WANTS_SUSPEND => RCasWants
  | _ => RDone
  end.

(** One access of [Resume] to [status]: the new status and program counter. *)
Definition resume_step (pc : resume_pc) (s : FiberStatus) : FiberStatus * resume_pc :=
  match pc with
  | RLoad => (s, resume_load s)
  | RCasSuspended => if decide (s = SUSPENDED) then (READY, RRequeue) else (s, RDone)
  | RCasWants => if decide (s = WANTS_SUSPEND) then (SUSPEND_SIGNALED, RDone) else (s, RLoad)
  | RRequeue => (s, RDone)
  | RDone => (s, RDone)
  end.

(** ** The worker after [ContextSwitch] *)

Inductive worker_pc :=
  | WRunning               (* the fiber's code runs on this worker *)
  | WPost                  (* switched back, about to load status *)
  | WYield                 (* saw WANTS_YIELD, about to store READY *)
  | WPark                  (* about to CAS WANTS_SUSPEND to SUSPENDED *)
  | WSignaled              (* the CAS saw SUSPEND_SIGNALED: about to store READY *)
  | WPush                  (* about to put the task back into a queue *)
  | WDone.

#[global] Instance worker_pc_eq_dec : EqDecision worker_pc.
Proof. solve_decision. Defined.

Definition post_step (pc : worker_pc) (s : FiberStatus) : FiberStatus * worker_pc :=
  match pc with
  | WRunning => (s, WRunning)
  | WPost =>
      match s with
      | DEAD => (s, WDone)
      | WANTS_YIELD => (s, WYield)
      | _ => (s, WPark)
      end
  | WYield => (READY, WPush)
  | WPark =>
      if decide (s = WANTS_SUSPEND) then (SUSPENDED, WDone)
      else if decide (s = SUSPEND_SIGNALED) then (s, WSignaled)
      else (s, WDone)
  | WSignaled => (READY, WPush)
  | WPush => (s, WDone)
  | WDone => (s, WDone)
  end.

(** What the fiber's own code stores before it switches away: [CoYield],
    [Suspend] (and every [WaitOnEvent]), and the end of [FiberEntryWrapper]. *)
Inductive leave := CoYield | Suspend | Finish.
Definition leave_status (l : leave) : FiberStatus :=
  match l with CoYield => WANTS_YIELD | Suspend => WANTS_SUSPEND | Finish => DEAD end.

(** ** One fiber, any number of workers and resumers *)

(** [queued] counts the entries of the fiber's task in all run queues;
    [workers] are the workers between taking such an entry and being done with
    it; [signaled] is history: a [Resume] call began since the fiber's last
    suspension became visible. *)
Record state := mk_state {
  status : FiberStatus;
  queued : nat;
  workers : gmap nat worker_pc;
  resumers : gmap nat resume_pc;
  signaled : bool
}.

Inductive action :=
  | Dispatch (w : nat)             (* worker w takes the task and switches in *)
  | Leave (w : nat) (l : leave)    (* the fiber's code on w stores and switches out *)
  | Post (w : nat)                 (* w's next access after the switch *)
  | CallResume (i : nat)
  | Resume (i : nat).              (* caller i's next access *)

Definition parkable (s : FiberStatus) : bool :=
  match s with WANTS_SUSPEND | SUSPEND_SIGNALED | SUSPENDED => true | _ => false end.

Definition exec (a : action) (s : state) : option state :=
  match a with
  | Dispatch w =>
      match queued s, workers s !! w with
      | S n, None => Some (mk_state RUNNING n (<[w := WRunning]> (workers s)) (resumers s) (signaled s))
      | _, _ => None
      end
  | Leave w l =>
      match workers s !! w with
      | Some WRunning =>
          Some (mk_state (leave_status l) (queued s) (<[w := WPost]> (workers s)) (resumers s) false)
      | _ => None
      end
  | Post w =>
      match workers s !! w with
      | Some WRunning | None => None
      | Some pc =>
          let '(st, pc') := post_step pc (status s) in
          Some (mk_state st
                  (if decide (pc = WPush) then S (queued s) else queued s)
                  (if decide (pc' = WDone) then delete w (workers s) else <[w := pc']> (workers s))
                  (resumers s) (signaled s))
      end
  | CallResume i =>
      match resumers s !! i with
      | None => Some (mk_state (status s) (queued s) (workers s) (<[i := RLoad]> (resumers s))
                        (signaled s || parkable (status s)))
      | Some _ => None
      end
  | Resume i =>
      match resumers s !! i with
      | None => None
      | Some pc =>
          let '(st, pc') := resume_step pc (status s) in
          Some (mk_state st
                  (if decide (pc = RRequeue) then S (queued s) else queued s)
                  (workers s)
                  (if decide (pc' = RDone) then delete i (resumers s) else <[i := pc']> (resumers s))
                  (signaled s))
      end
  end.

(** A task just pushed: its fiber is ready and in one queue. *)
Definition init : state := mk_state READY 1 ∅ ∅ false.

(** ** Where the fiber is *)

(** Which statuses a worker's program counter allows. *)
Definition worker_allows (pc : worker_pc) (s : FiberStatus) : Prop :=
  match pc with
  | WRunning => s = RUNNING
  | WPost => s = WANTS_YIELD \/ s = DEAD \/ s = WANTS_SUSPEND \/ s = SUSPEND_SIGNALED
  | WYield => s = WANTS_YIELD
  | WPark => s = WANTS_SUSPEND \/ s = SUSPEND_SIGNALED
  | WSignaled => s = SUSPEND_SIGNALED
  | WPush => s = READY
  | WDone => False
  end.

Definition no_requeue (r : gmap nat resume_pc) : Prop := forall i, r !! i <> Some RRequeue.

(** Exactly one of: on one worker, in one queue, about to be requeued by one
    resumer, parked, finished. *)
Inductive phase : state -> Prop :=
  | PhaseWorker st w pc r b :
      worker_allows pc st -> no_requeue r -> phase (mk_state st 0 {[w := pc]} r b)
  | PhaseQueued r b : no_requeue r -> phase (mk_state READY 1 ∅ r b)
  | PhaseRequeue i r b :
      no_requeue r -> r !! i = None -> phase (mk_state READY 0 ∅ (<[i := RRequeue]> r) b)
  | PhaseParked r b : no_requeue r -> phase (mk_state SUSPENDED 0 ∅ r b)
  | PhaseDead r b : no_requeue r -> phase (mk_state DEAD 0 ∅ r b).

Lemma no_requeue_insert r i pc : no_requeue r -> pc <> RRequeue -> no_requeue (<[i := pc]> r).
Proof. intros Hr Hne j. destruct (decide (i = j)) as [->|]; simplify_map_eq; [congruence|apply Hr]. Qed.

Lemma no_requeue_delete r i : no_requeue r -> no_requeue (delete i r).
Proof. intros Hr j. destruct (decide (i = j)) as [->|]; simplify_map_eq; [done|apply Hr]. Qed.

Ltac requeue_absurd :=
  match goal with H : no_requeue ?r, Hi : ?r !! _ = Some RRequeue |- _ => destruct (H _ Hi) end.

#[local] Hint Resolve no_requeue_insert no_requeue_delete : core.

(** A step of [Resume] that is not the requeueing one keeps every phase in which
    the fiber is not about to be requeued. *)
Lemma resume_step_cases pc s :
  pc <> RRequeue ->
  let '(s', pc') := resume_step pc s in
  pc' <> RRequeue /\ (s' = s \/ s = WANTS_SUSPEND /\ s' = SUSPEND_SIGNALED) \/
  s = SUSPENDED /\ s' = READY /\ pc' = RRequeue.
Proof. destruct pc, s; intros; simpl; repeat case_decide; simpl; auto 6 || done. Qed.

Lemma worker_allows_signaled pc :
  worker_allows pc WANTS_SUSPEND -> worker_allows pc SUSPEND_SIGNALED.
Proof. destruct pc; simpl; intuition congruence. Qed.

Lemma worker_allows_not_parked pc : worker_allows pc SUSPENDED -> False.
Proof. destruct pc; simpl; intuition congruence. Qed.

Lemma phase_resumers s r b :
  phase s -> no_requeue (resumers s) -> no_requeue r ->
  phase (mk_state (status s) (queued s) (workers s) r b).
Proof.
  intros Hp Hn Hr. destruct Hp; simpl in *; try by constructor.
  exfalso. apply (Hn i). by simplify_map_eq.
Qed.

Lemma phase_step_resume i s s' : phase s -> exec (Resume i) s = Some s' -> phase s'.
Proof.
  intros Hp. simpl. destruct (resumers s !! i) as [pc|] eqn:Hi; [|done].
  destruct (decide (pc = RRequeue)) as [->|Hne].
  - intros [= <-]. destruct Hp as [| |j r b Hr Hj| |]; simpl in *; try requeue_absurd.
    destruct (decide (i = j)) as [->|]; simplify_map_eq; [|requeue_absurd].
    rewrite delete_insert_id by done. by constructor.
  - pose proof (resume_step_cases pc (status s) Hne) as Hc.
    destruct (resume_step pc (status s)) as [s1 pc']. intros [= <-].
    set (r' := if decide (pc' = RDone) then delete i (resumers s) else <[i := pc']> (resumers s)).
    destruct Hc as [[Hpc Hs]|(Hs & -> & ->)].
    + assert (Hr' : no_requeue (resumers s) -> no_requeue r').
      { intros Hn. unfold r'. case_decide; auto. }
      destruct Hp as [st w wpc r b Ha Hr|r b Hr|j r b Hr Hj|r b Hr|r b Hr]; simpl in *.
      * constructor; [|auto]. destruct Hs as [->|[-> ->]]; [done|by apply worker_allows_signaled].
      * destruct Hs as [->|[? ?]]; [constructor; auto|done].
      * destruct Hs as [->|[? ?]]; [|done]. destruct (decide (i = j)) as [->|Hij]; [by simplify_map_eq|].
        unfold r'. case_decide.
        -- rewrite delete_insert_ne by done. constructor; [auto|by simplify_map_eq].
        -- rewrite insert_insert_ne by done. constructor; [auto|by simplify_map_eq].
      * destruct Hs as [->|[? ?]]; [constructor; auto|done].
      * destruct Hs as [->|[? ?]]; [constructor; auto|done].
    + destruct Hp as [st w wpc r b Ha Hr| | |r b Hr|]; simpl in *; try done.
      * subst. by apply worker_allows_not_parked in Ha.
      * unfold r'. simpl. rewrite <- insert_delete_eq. constructor; [auto|by simplify_map_eq].
Qed.

Lemma phase_step_post w s s' : phase s -> exec (Post w) s = Some s' -> phase s'.
Proof.
  intros Hp. simpl. destruct (workers s !! w) as [pc|] eqn:Hw; [|done].
  destruct Hp as [st w' pc' r b Ha Hr| | | |]; simpl in *; simplify_map_eq; try done.
  assert (Hins : forall pc', <[w := pc']> {[w := pc]} = ({[w := pc']} : gmap nat worker_pc)).
  { intros. by rewrite insert_singleton_eq. }
  assert (Hdel : delete w {[w := pc]} = (∅ : gmap nat worker_pc)) by apply delete_singleton_eq.
  intros Hst.
  destruct pc, st; simpl in *; try (intuition congruence); simplify_eq;
    rewrite ?Hins, ?Hdel; constructor; simpl; auto.
Qed.

Lemma phase_step a s s' : phase s -> exec a s = Some s' -> phase s'.
Proof.
  intros Hp Hex. destruct a as [w|w l|w|i|i].
  - simpl in Hex. destruct Hp; simpl in *; simplify_map_eq.
    rewrite insert_empty. by constructor.
  - simpl in Hex. destruct Hp as [st w' pc' r b Ha Hr| | | |]; simpl in *; simplify_map_eq.
    repeat case_match; simplify_map_eq.
    rewrite ?insert_singleton_eq. constructor; [destruct l; simpl; auto|done].
  - by eapply phase_step_post.
  - simpl in Hex. case_match; simplify_eq.
    destruct Hp as [st w pc r b Ha Hr|r b Hr|j r b Hr Hj|r b Hr|r b Hr]; simpl in *;
      try (constructor; try done; by apply no_requeue_insert).
    assert (i <> j) by (intros ->; simplify_map_eq).
    rewrite insert_insert_ne by done.
    constructor; [by apply no_requeue_insert|]. by simplify_map_eq.
  - by eapply phase_step_resume.
Qed.

Lemma phase_reached s : reaches exec init s -> phase s.
Proof.
  apply reaches_invariant; [intros a s1 s2 H1 H2; by eapply phase_step|].
  constructor. intros i. by rewrite lookup_empty.
Qed.

(** ** No wakeup is lost *)

(** A resumer that will still wake the fiber out of its current wait. *)
Definition fresh (st : FiberStatus) (pc : resume_pc) : Prop :=
  match pc with
  | RLoad | RCasWants => True
  | RCasSuspended => st = SUSPENDED
  | RRequeue | RDone => False
  end.

Definition wakes (s : state) : Prop :=
  signaled s = true ->
  status s <> DEAD /\ status s <> WANTS_YIELD /\
  (status s = WANTS_SUSPEND \/ status s = SUSPENDED ->
   exists i pc, resumers s !! i = Some pc /\ fresh (status s) pc).

Lemma wakes_trivial s :
  (signaled s = true -> status s = RUNNING \/ status s = READY \/ status s = SUSPEND_SIGNALED) -> wakes s.
Proof. intros H Hs. specialize (H Hs). destruct H as [->|[->| ->]]; split_and!; try done; by intros [?|?]. Qed.

Lemma wakes_step_resume i s s' : wakes s -> exec (Resume i) s = Some s' -> wakes s'.
Proof.
  intros Hw. simpl. destruct (resumers s !! i) as [pc|] eqn:Hi; [|done].
  destruct (resume_step pc (status s)) as [s1 pc'] eqn:Hst. intros [= <-] Hs. simpl in *.
  destruct (Hw Hs) as (Hd & Hy & Hf).
  destruct (decide (s1 = WANTS_SUSPEND \/ s1 = SUSPENDED)) as [Hp|Hp].
  - (* the status is unchanged: the waking resumer is still there, or is i moving on *)
    assert (s1 = status s) as ->.
    { destruct pc, (status s); simpl in Hst; repeat case_decide; simplify_eq; destruct Hp; done. }
    split_and!; try done. intros _. destruct (Hf Hp) as (j & pcj & Hj & Hfr).
    destruct (decide (j = i)) as [->|Hne].
    + simplify_eq. exists i, pc'.
      destruct pc, (status s), pc'; simpl in *; repeat case_decide; simplify_eq; try done;
        simplify_map_eq; try done; by destruct Hp.
    + exists j, pcj. split; [|done]. case_decide; by simplify_map_eq.
  - split_and!.
    + intros ->. destruct pc, (status s); simpl in Hst; repeat case_decide; simplify_eq.
    + intros ->. destruct pc, (status s); simpl in Hst; repeat case_decide; simplify_eq.
    + by intros ?.
Qed.

Lemma wakes_step a s s' : phase s -> wakes s -> exec a s = Some s' -> wakes s'.
Proof.
  intros Hp Hw. destruct a as [w|w l|w|i|i].
  - simpl. intros Hex. repeat case_match; simplify_eq. apply wakes_trivial. simpl. auto.
  - simpl. intros Hex. repeat case_match; simplify_eq. by intros ?.
  - simpl. intros Hex. destruct (workers s !! w) as [pc|] eqn:E; [|done].
    destruct (post_step pc (status s)) as [st pc'] eqn:Hst.
    assert (Hs' : s' = mk_state st (queued s') (workers s') (resumers s) (signaled s))
      by (destruct pc; by simplify_eq). rewrite Hs'. intros Hs. simpl in *.
    destruct (Hw Hs) as (Hd & Hy & Hf).
    destruct pc, (status s); simpl in Hst; repeat case_decide; simplify_eq; simpl;
      split_and!; try done; try (by intros [?|?]); try (by apply Hf; auto).
    intros _. destruct (Hf (or_introl eq_refl)) as (i & pci & Hi & Hfr).
    exists i, pci. split; [done|]. by destruct pci.
  - simpl. intros Hex. case_match; simplify_eq. intros Hs. simpl in *.
    destruct (signaled s) eqn:Esig.
    + destruct (Hw Esig) as (Hd & Hy & Hf). split_and!; try done.
      intros _. exists i, RLoad. by simplify_map_eq.
    + simpl in Hs. split_and!; [by intros E; rewrite E in Hs|by intros E; rewrite E in Hs|].
      intros _. exists i, RLoad. by simplify_map_eq.
  - apply wakes_step_resume. done.
Qed.

Lemma wakes_reached s : reaches exec init s -> phase s /\ wakes s.
Proof.
  apply (reaches_invariant exec (fun s => phase s /\ wakes s)).
  - intros a s1 s2 [H1 H2] H3. split; [by eapply phase_step|by eapply wakes_step].
  - split; [|by apply wakes_trivial]. constructor. intros i. by rewrite lookup_empty.
Qed.

(** ** [Resume] run alone *)

(** The status it leaves and whether it requeued the task. *)
Definition resume_alone (s : FiberStatus) : FiberStatus * bool :=
  match s with
  | SUSPENDED => (READY, true)
  | WANTS_SUSPEND => (SUSPEND_SIGNALED, false)
  | s => (s, false)
  end.

(** The worker's part after the switch, run alone: the status it leaves and
    whether it put the task back into a queue. *)
Definition post_alone (s : FiberStatus) : FiberStatus * bool :=
  match s with
  | WANTS_YIELD => (READY, true)
  | WANTS_SUSPEND => (SUSPENDED, false)
  | SUSPEND_SIGNALED => (READY, true)
  | s => (s, false)
  end.

Ltac act := run_one ltac:(unfold exec; simpl; rewrite ?lookup_insert_eq; unfold decide; simpl).

(** ** The properties *)

(** [C21] A fiber is never on two workers, and never in a queue while it is on a
    worker or about to be requeued: whatever the interleaving of dispatches,
    yields, suspensions and concurrent [Resume] calls, its stack is run by at
    most one thread and its task has at most one queue entry. *)
Theorem fiber_runs_once s :
  reaches exec init s ->
  (forall w1 w2 pc1 pc2, workers s !! w1 = Some pc1 -> workers s !! w2 = Some pc2 -> w1 = w2) /\
  (queued s <= 1)%nat /\
  (queued s = 1%nat -> workers s = ∅ /\ no_requeue (resumers s) /\ status s = READY).
Proof.
  intros Hp%phase_reached. split; [|split].
  - intros w1 w2 pc1 pc2 H1 H2. destruct Hp; simpl in *; by simplify_map_eq.
  - destruct Hp; simpl; lia.
  - intros Hq. by destruct Hp.
Qed.

(** A resume that races in between [Suspend] and the worker's parking CAS, with a
    second one behind it. *)
Definition early_wake_trace : list action :=
  [Dispatch 0; Leave 0 Suspend; CallResume 5; Resume 5; Post 0; Resume 5; CallResume 6;
   Post 0; Post 0; Resume 6; Post 0].

Lemma fiber_runs_once_witness :
  exists s, run exec early_wake_trace init = Some s /\ queued s = 1%nat /\
    (workers s = ∅ /\ no_requeue (resumers s) /\ status s = READY).
Proof.
  eexists. split; [vm_compute; reflexivity|]. split; [reflexivity|].
  refine (proj2 (proj2 (fiber_runs_once _ _)) _); [|reflexivity].
  exists early_wake_trace. vm_compute. reflexivity.
Defined.

(** [C22] No wakeup is lost once the fiber is parkable: if a [Resume] call began
    after the fiber stored [WANTS_SUSPEND], then when no worker and no [Resume]
    call is in the middle of its steps the fiber is [READY] with its task queued,
    not parked -- also when the call raced with the worker's parking step. *)
Theorem fiber_no_lost_wakeup s :
  reaches exec init s -> signaled s = true -> workers s = ∅ -> resumers s = ∅ ->
  status s = READY /\ queued s = 1%nat.
Proof.
  intros [Hp Hw]%wakes_reached Hs Hwk Hrs. destruct (Hw Hs) as (Hd & Hy & Hf).
  destruct Hp as [st w pc r b|r b|i r b|r b|r b]; simpl in *; try done.
  - apply (f_equal (lookup i)) in Hrs. by rewrite lookup_insert_eq in Hrs.
  - subst. destruct (Hf (or_intror eq_refl)) as (i & pc & Hi & _). by rewrite lookup_empty in Hi.
Qed.

Lemma fiber_no_lost_wakeup_witness :
  exists s, run exec early_wake_trace init = Some s /\ signaled s = true /\
    (status s = READY /\ queued s = 1%nat).
Proof.
  eexists. split; [vm_compute; reflexivity|]. split; [reflexivity|].
  refine (fiber_no_lost_wakeup _ _ _ _ _); [|reflexivity..].
  exists early_wake_trace. vm_compute. reflexivity.
Defined.

(** Run alone, [Resume] wakes a parked fiber (requeueing its task once),
    flags one that is about to park, and leaves every other status untouched;
    the worker's part after the switch parks exactly the fiber that asked for it
    unsignaled, and requeues one that yielded or was signaled. *)
Theorem resume_and_post_alone s i w st0 :
  resumers s !! i = None -> workers s !! w = Some WPost -> status s = st0 ->
  (exists n s', run exec (CallResume i :: replicate n (Resume i)) s = Some s' /\
     resumers s' = resumers s /\ status s' = (resume_alone st0).1 /\
     queued s' = (queued s + Nat.b2n (resume_alone st0).2)%nat) /\
  (exists n s', run exec (replicate n (Post w)) s = Some s' /\
     workers s' = delete w (workers s) /\ status s' = (post_alone st0).1 /\
     queued s' = (queued s + Nat.b2n (post_alone st0).2)%nat).
Proof.
  intros Hi Hw <-. destruct s as [st q wk rs sg]. cbn [status queued workers resumers signaled] in *. split.
  - destruct st; cbn [resume_alone post_alone fst snd Nat.b2n].
    4: { exists 2%nat. run_one ltac:(simpl; rewrite Hi). do 2 act. eexists. split; [done|]. simpl.
         rewrite insert_insert_eq, delete_insert_id by done. repeat split; lia. }
    5: { exists 3%nat. run_one ltac:(simpl; rewrite Hi). do 3 act. eexists. split; [done|]. simpl.
         rewrite !insert_insert_eq, delete_insert_id by done. repeat split; lia. }
    all: exists 1%nat; run_one ltac:(simpl; rewrite Hi); act; eexists; split; [done|]; simpl;
         rewrite delete_insert_id by done; repeat split; lia.
  - destruct st; cbn [resume_alone post_alone fst snd Nat.b2n].
    7: { exists 1%nat. run_one ltac:(simpl; rewrite Hw; unfold decide; simpl). eexists.
         split; [done|]. simpl. repeat split; lia. }
    5: { exists 4%nat. run_one ltac:(simpl; rewrite Hw; unfold decide; simpl). do 3 act. eexists.
         split; [done|]. simpl. rewrite !delete_insert_eq. repeat split; lia. }
    3: { exists 3%nat. run_one ltac:(simpl; rewrite Hw; unfold decide; simpl). do 2 act. eexists.
         split; [done|]. simpl. rewrite !delete_insert_eq. repeat split; lia. }
    all: exists 2%nat; run_one ltac:(simpl; rewrite Hw; unfold decide; simpl); act; eexists;
         split; [done|]; simpl; rewrite !delete_insert_eq; repeat split; lia.
Qed.

Lemma resume_and_post_alone_witness :
  let s := mk_state SUSPEND_SIGNALED 0 {[3%nat := WPost]} ∅ true in
  exists n s', run exec (replicate n (Post 3)) s = Some s' /\
     workers s' = delete 3%nat (workers s) /\ status s' = READY /\ queued s' = 1%nat.
Proof.
  intros s. refine (proj2 (resume_and_post_alone s 0 3 SUSPEND_SIGNALED _ _ _)); reflexivity.
Defined.
