(* ===== verification/Task.v ===== *)
(** * Tasks and wait-group counters ([include/Task.h], and the task operations of
      [src/TaskScheduler.cpp])

    A [task] is the record behind a [Task*]; its function is called through an
    identity, and what running it does is a parameter wherever it matters.  The
    [waitGroup] field points to a [WaitGroup]; here are the record and the
    arithmetic of its counter [n], which shares one [int] between the count and
    the waiter flag. *)
From S2P Require Import Prelude.

(** ** [struct Task] *)

Inductive FiberSize := Standard | Heavy.

Record task := mk_task {
  fn : option ptr;                (* code pointer *)
  data : option ptr;
  assignedFiber : option ptr;
  waitGroup : option ptr;
  hiPri : Z;                      (* uint8_t flags *)
  requiredSize : FiberSize;
  fastJob : Z;
  isForked : Z;
  priorityBoost : Z
}.

(** [Task()] and [Task(Func, void*, uint8_t, FiberSize)] with the default member
    initialisers. *)
Definition Task0 : task := mk_task None None None None 0 Standard 0 0 0.
Definition Task4 (f : ptr) (d : option ptr) (hipri : Z) (size : FiberSize) : task :=
  mk_task (Some f) d None None (u8 hipri) size 0 0 0.

(** [TaskScheduler::CreateTask(fn, data, ...)] once [taskAllocator.Alloc()] has
    returned [mem]: no memory, no task. *)
Definition CreateTask (mem : option ptr) (f : ptr) (d : option ptr) (hipri : Z) (size : FiberSize)
    (fastjob : Z) : option (ptr * task) :=
  match mem with
  | None => None
  | Some m =>
      let t := Task4 f d hipri size in
      Some (m, mk_task (fn t) (data t) (assignedFiber t) (waitGroup t) (hiPri t) (requiredSize t)
                 (u8 fastjob) (isForked t) (priorityBoost t))
  end.

(** The template [CreateTask(F&&, ...)]: a [LambdaTask] is its own data. *)
Definition CreateLambdaTask (mem : option ptr) (wrapper : ptr) (hipri : Z) (size : FiberSize)
    (fastjob : Z) : option (ptr * task) :=
  match mem with
  | None => None
  | Some m =>
      Some (m, mk_task (Some wrapper) (Some m) None None (u8 hipri) size (u8 fastjob) 0 0)
  end.

(** ** Priority inheritance *)

Definition with_priority (t : task) (pri boost : Z) : task :=
  mk_task (fn t) (data t) (assignedFiber t) (waitGroup t) pri (requiredSize t)
    (fastJob t) (isForked t) boost.

(** [void BoostTaskPriority(Task *task)]: [None] is the null pointer. *)
Definition BoostTaskPriority (t : option task) : option task :=
  match t with
  | None => None
  | Some t => Some (if priorityBoost t =? 0 then with_priority t 1 (hiPri t) else t)
  end.

Definition UnboostTaskPriority (t : option task) : option task :=
  match t with
  | None => None
  | Some t => Some (if negb (priorityBoost t =? 0) then with_priority t (priorityBoost t) 0 else t)
  end.

Definition CleanupTaskMetadata (t : option task) : option task := UnboostTaskPriority t.

(** ** [WaitGroup::n] *)

Definition WAITER_BIT : Z := 0x40000000.
Definition COUNT_MASK : Z := WAITER_BIT - 1.

(** The completion of a task: [fetch_sub(1)], then wake if this was the last
    task and somebody registered.  Returns the new counter and whether [WakeAll]
    is called. *)
Definition complete (n : Z) : Z * bool :=
  let old := n in
  (old - 1, (Z.land old COUNT_MASK =? 1) && negb (Z.land old WAITER_BIT =? 0)).

(** [n.fetch_or(WAITER_BIT)] and the test [(old & COUNT_MASK) == 0] of [WaitFor]. *)
Definition announce_waiter (n : Z) : Z * bool :=
  (Z.lor n WAITER_BIT, Z.land n COUNT_MASK =? 0).

(** [n.fetch_and(~WAITER_BIT)] of [WakeAll]. *)
Definition clear_waiter (n : Z) : Z := Z.land n (Z.lnot WAITER_BIT).

(** The loop condition of the non-fiber waiters ([WaitFor], [WaitForMain]). *)
Definition keeps_spinning (n : Z) : bool := 0 <? n.

(** A counter holding [count] unfinished tasks and the waiter flag. *)
Definition counter (count : Z) (waiters : bool) : Z :=
  count + (if waiters then WAITER_BIT else 0).

Lemma count_high_bit count i : 0 <= count <= COUNT_MASK -> 30 <= i -> Z.testbit count i = false.
Proof.
  intros Hc Hi. unfold COUNT_MASK, WAITER_BIT in Hc. apply Z.testbit_false; [lia|].
  rewrite Z.div_small; [done|]. pose proof (Z.pow_le_mono_r 2 30 i). lia.
Qed.

Lemma counter_testbit count w i :
  0 <= count <= COUNT_MASK -> 0 <= i ->
  Z.testbit (counter count w) i = Z.testbit count i || (w && (i =? 30)).
Proof.
  intros Hc Hi. unfold counter. change WAITER_BIT with (2 ^ 30). destruct w; simpl.
  2: { by rewrite Z.add_0_r, orb_false_r. }
  rewrite Z.add_nocarry_lxor.
  - rewrite Z.lxor_spec, Z.pow2_bits_eqb by lia. rewrite (Z.eqb_sym 30 i).
    destruct (Z.eqb_spec i 30) as [->|]; [|by rewrite xorb_false_r, orb_false_r].
    by rewrite count_high_bit by (done || lia).
  - apply Z.bits_inj'. intros j Hj. rewrite Z.land_spec, Z.pow2_bits_eqb, Z.bits_0 by lia.
    destruct (Z.eqb_spec 30 j) as [<-|]; [|by rewrite andb_false_r].
    by rewrite count_high_bit by (done || lia).
Qed.

Lemma counter_count count w :
  0 <= count <= COUNT_MASK -> Z.land (counter count w) COUNT_MASK = count.
Proof.
  intros Hc. apply Z.bits_inj'. intros i Hi. rewrite Z.land_spec, counter_testbit by done.
  change COUNT_MASK with (Z.ones 30). destruct (Z.ltb_spec i 30).
  - rewrite Z.ones_spec_low by lia. rewrite (proj2 (Z.eqb_neq i 30)) by lia.
    by rewrite andb_false_r, orb_false_r, andb_true_r.
  - rewrite Z.ones_spec_high by lia. rewrite andb_false_r. symmetry.
    by apply count_high_bit.
Qed.

Lemma counter_flag count w :
  0 <= count <= COUNT_MASK -> Z.land (counter count w) WAITER_BIT = if w then WAITER_BIT else 0.
Proof.
  intros Hc. apply Z.bits_inj'. intros i Hi. rewrite Z.land_spec, counter_testbit by done.
  change WAITER_BIT with (2 ^ 30). rewrite Z.pow2_bits_eqb by lia.
  rewrite (Z.eqb_sym 30 i). destruct (Z.eqb_spec i 30) as [->|].
  - rewrite count_high_bit by (done || lia). by destruct w.
  - rewrite andb_false_r. symmetry. destruct w; [|by rewrite Z.bits_0].
    rewrite Z.pow2_bits_eqb by lia. by apply Z.eqb_neq.
Qed.

Lemma counter_set count w :
  0 <= count <= COUNT_MASK -> Z.lor (counter count w) WAITER_BIT = counter count true.
Proof.
  intros Hc. apply Z.bits_inj'. intros i Hi. rewrite Z.lor_spec, !counter_testbit by done.
  change WAITER_BIT with (2 ^ 30). rewrite Z.pow2_bits_eqb, (Z.eqb_sym 30 i) by lia.
  destruct w, (Z.testbit count i), (i =? 30); done.
Qed.

Lemma counter_clear count w :
  0 <= count <= COUNT_MASK -> clear_waiter (counter count w) = count.
Proof.
  intros Hc. unfold clear_waiter. apply Z.bits_inj'. intros i Hi.
  rewrite Z.land_spec, Z.lnot_spec, counter_testbit by done.
  change WAITER_BIT with (2 ^ 30). rewrite Z.pow2_bits_eqb, (Z.eqb_sym 30 i) by lia.
  destruct (Z.eqb_spec i 30) as [->|]; [|by rewrite andb_false_r, orb_false_r, andb_true_r].
  rewrite count_high_bit by (done || lia). by destruct w.
Qed.

(** ** The properties *)

(** A boost followed by the unboost of [Unlock] restores the priority of a
    task that was already high priority, but leaves a low-priority task at high
    priority for good: the saved priority 0 means "not boosted". *)
Theorem boost_unboost_restores t :
  priorityBoost t = 0 ->
  UnboostTaskPriority (BoostTaskPriority (Some t)) =
    Some (if hiPri t =? 0 then with_priority t 1 0 else t) /\
  (hiPri t = 0 -> forall n, exists t', Nat.iter n UnboostTaskPriority (BoostTaskPriority (Some t)) = Some t' /\ hiPri t' = 1).
Proof.
  intros H0. split.
  - unfold BoostTaskPriority, UnboostTaskPriority. rewrite H0. simpl.
    destruct (Z.eqb_spec (hiPri t) 0) as [E|E]; simpl; [by rewrite E|].
    destruct t. simpl in *. by subst.
  - intros Hp n. exists (with_priority t 1 0).
    induction n as [|n IH]; [simpl; by rewrite H0, Hp|].
    rewrite Nat.iter_succ. destruct IH as [-> _]. done.
Qed.

Lemma boost_unboost_restores_witness :
  let t := Task4 4%positive None 0 Standard in
  hiPri t = 0 /\
  UnboostTaskPriority (BoostTaskPriority (Some t)) = Some (with_priority t 1 0).
Proof.
  intros t. split; [reflexivity|]. refine (proj1 (boost_unboost_restores t _)). reflexivity.
Defined.

(** The count and the waiter flag share [n] without disturbing each other
    while fewer than 2^30 tasks are outstanding: completing a task decrements the
    count, keeps the flag, and calls [WakeAll] exactly when the last task finishes
    with a waiter registered; registering sets the flag and detects a finished
    group; [WakeAll] clears the flag; a spinning waiter goes on while either is
    non-zero. *)
Theorem wait_counter_encoding count w :
  0 <= count <= COUNT_MASK ->
  (0 < count -> complete (counter count w) = (counter (count - 1) w, (count =? 1) && w)) /\
  announce_waiter (counter count w) = (counter count true, count =? 0) /\
  clear_waiter (counter count w) = counter count false /\
  keeps_spinning (counter count w) = (0 <? count) || w.
Proof.
  intros Hc. split_and!.
  - intros Hpos. unfold complete. rewrite counter_count, counter_flag by done.
    f_equal; [unfold counter; lia|]. destruct w; simpl; by rewrite ?andb_true_r, ?andb_false_r.
  - unfold announce_waiter. by rewrite counter_set, counter_count by done.
  - rewrite counter_clear by done. unfold counter. lia.
  - unfold keeps_spinning, counter. change WAITER_BIT with 1073741824.
    destruct w; [|by rewrite Z.add_0_r, orb_false_r].
    rewrite orb_true_r. apply Z.ltb_lt. lia.
Qed.

Lemma wait_counter_encoding_witness :
  0 < 1 /\ complete (counter 1 true) = (counter 0 true, true).
Proof.
  split; [lia|]. refine (proj1 (wait_counter_encoding 1 true _) _); [|lia].
  unfold COUNT_MASK, WAITER_BIT. lia.
Defined.
