(* ===== verification/SchedulerMutex.v ===== *)
(** * The fiber mutex ([SchedulerMutex] of [include/TaskScheduler.h] and
      [src/TaskScheduler.cpp])

    Any number of callers, on fibers or not, call [Lock], [Try_Lock] and [Unlock].
    A caller that is not on a fiber polls [Try_Lock]; the job it steals meanwhile
    ([TryRunStolenFastJob]) is another caller of the machine.  A section guarded by [spinLock] or [holderLock] is one action: every access to [locked] and
    [waitingFibers] is under the first, every access to [lockHolder] under the
    second.  Suspension and [Fiber::Resume] are the steps of [Fiber.v]. *)
From S2P Require Import Prelude Fiber Task.

(** Where a fiber's code is in the mutex's methods. *)
Inductive mutex_pc :=
  | CIdle
  | CHolding
  | LEnter                                         (* Lock: at its spinLock section *)
  | TEnter                                         (* Try_Lock: at its spinLock section *)
  | LPoll                                          (* Lock off a fiber: at the Try_Lock of its loop *)
  | LSetHolder                                     (* has the lock, about to store lockHolder *)
  | LSuspend                                       (* in waitingFibers, about to Suspend *)
  | LSuspended                                     (* switched away inside Suspend *)
  | UClear                                         (* Unlock: at its holderLock section *)
  | UPop (was : option nat)
  | UUnboost (was next : option nat)
  | UResume (next : nat) (pc : resume_pc).

(** A fiber: its code, its status, the worker step it is in ([None] off a
    worker), and whether its task is in a run queue. *)
Record cell := mk_cell {
  code : mutex_pc;
  status : FiberStatus;
  place : option worker_pc;
  inq : bool
}.

(** Tasks and fibers are named by the same index: a fiber runs one task. *)
Record state := mk_state {
  locked : bool;
  lockHolder : option nat;
  waitingFibers : list nat;
  cells : nat -> cell;
  tasks : nat -> task
}.

Definition set_cell (s : state) (f : nat) (c : cell) : state :=
  mk_state (locked s) (lockHolder s) (waitingFibers s) (upd (cells s) f c) (tasks s).
Definition set_code (s : state) (f : nat) (pc : mutex_pc) : state :=
  let c := cells s f in set_cell s f (mk_cell pc (status c) (place c) (inq c)).
Definition set_holder (s : state) (h : option nat) : state :=
  mk_state (locked s) h (waitingFibers s) (cells s) (tasks s).
Definition set_lock (s : state) (b : bool) (w : list nat) : state :=
  mk_state b (lockHolder s) w (cells s) (tasks s).
Definition set_task (s : state) (f : nat) (t : task) : state :=
  mk_state (locked s) (lockHolder s) (waitingFibers s) (cells s) (upd (tasks s) f t).

(** [UnboostTaskPriority(wasHolder)] on the task table. *)
Definition unboost (s : state) (was : option nat) : state :=
  match was with
  | None => s
  | Some h =>
      match UnboostTaskPriority (Some (tasks s h)) with
      | Some t => set_task s h t
      | None => s
      end
  end.

(** Of each caller: whether it is on a fiber, and what [GetCurrentTask] returns to
    it ([None] also when there is no scheduler). *)
Record callers := mk_callers { onFiber : nat -> bool; callerTask : nat -> option nat }.

Section Callers.
Context (env : callers).

(** The next action of the code of fiber [f], which must be running. *)
Definition code_step (f : nat) (s : state) : option state :=
  let c := cells s f in
  match code c with
  | CIdle | CHolding | LSuspended => None
  | LEnter =>
      if locked s
      then Some (set_code (set_lock s true (waitingFibers s ++ [f])) f LSuspend)
      else Some (set_code (set_lock s true (waitingFibers s)) f LSetHolder)
  | TEnter =>
      if locked s then Some (set_code s f CIdle)
      else Some (set_code (set_lock s true (waitingFibers s)) f LSetHolder)
  | LPoll =>
      if locked s then Some s
      else Some (set_code (set_lock s true (waitingFibers s)) f LSetHolder)
  | LSetHolder => Some (set_code (set_holder s (callerTask env f)) f CHolding)
  | LSuspend => Some (set_cell s f (mk_cell LSuspended (leave_status Suspend) (Some WPost) (inq c)))
  | UClear => Some (set_code (set_holder s None) f (UPop (lockHolder s)))
  | UPop was =>
      match waitingFibers s with
      | n :: w => Some (set_code (set_lock s (locked s) w) f (UUnboost was (Some n)))
      | [] => Some (set_code (set_lock s false []) f (UUnboost was None))
      end
  | UUnboost was next =>
      Some (set_code (unboost s was) f
              (match next with Some n => UResume n RLoad | None => CIdle end))
  | UResume n pc =>
      let cn := cells s n in
      let '(st, pc') := resume_step pc (status cn) in
      let s := set_cell s n (mk_cell (code cn) st (place cn)
                               (if decide (pc = RRequeue) then true else inq cn)) in
      Some (set_code s f (if decide (pc' = RDone) then CIdle else UResume n pc'))
  end.

Inductive action :=
  | Lock (f : nat) | Try_Lock (f : nat) | Unlock (f : nat)   (* calls *)
  | Code (f : nat)                                           (* f's code goes on *)
  | Worker (f : nat)                 (* the worker that switched back from f goes on *)
  | Dispatch (f : nat).              (* a worker takes f's task and switches in *)

Definition running (c : cell) : bool := bool_decide (place c = Some WRunning).

Definition exec (a : action) (s : state) : option state :=
  match a with
  | Lock f =>
      match code (cells s f), running (cells s f) with
      | CIdle, true => Some (set_code s f (if onFiber env f then LEnter else LPoll)) | _, _ => None
      end
  | Try_Lock f =>
      match code (cells s f), running (cells s f) with
      | CIdle, true => Some (set_code s f TEnter) | _, _ => None
      end
  | Unlock f =>
      match code (cells s f), running (cells s f) with
      | CHolding, true => Some (set_code s f UClear) | _, _ => None
      end
  | Code f => if running (cells s f) then code_step f s else None
  | Worker f =>
      let c := cells s f in
      match place c with
      | Some WRunning | None => None
      | Some pc =>
          let '(st, pc') := post_step pc (status c) in
          Some (set_cell s f (mk_cell (code c) st
                  (if decide (pc' = WDone) then None else Some pc')
                  (if decide (pc = WPush) then true else inq c)))
      end
  | Dispatch f =>
      let c := cells s f in
      match place c, inq c with
      | None, true =>
          (* the code after Suspend takes the lock to be handed over *)
          Some (set_cell s f (mk_cell (match code c with LSuspended => LSetHolder | pc => pc end)
                                RUNNING (Some WRunning) false))
      | _, _ => None
      end
  end.

(** All fibers run client code and the mutex is free. *)
Definition init (tasks : nat -> task) : state :=
  mk_state false None [] (fun _ => mk_cell CIdle RUNNING (Some WRunning) false) tasks.

(** ** The invariant *)

Definition waiting_code (pc : mutex_pc) : Prop := pc = LSuspend \/ pc = LSuspended.

(** Fibers inside [Lock] after their push and before their wakeup, popped
    already: the lock is theirs. *)
Definition granted (s : state) (f : nat) : Prop :=
  waiting_code (code (cells s f)) /\ f ∉ waitingFibers s.

Definition in_section (pc : mutex_pc) : Prop :=
  match pc with LSetHolder | CHolding | UClear | UPop _ => True | _ => False end.

Definition owner (s : state) (f : nat) : Prop := in_section (code (cells s f)) \/ granted s f.

(** [g]'s [Unlock] has popped [n] and not finished resuming it. *)
Definition resumes (s : state) (g n : nat) : Prop :=
  (exists was, code (cells s g) = UUnboost was (Some n)) \/ (exists pc, code (cells s g) = UResume n pc).

(** The statuses a fiber may have at its point in the code. *)
Definition cell_ok (c : cell) : Prop :=
  match code c with
  | LSuspended =>
      match place c with
      | Some WPost | Some WPark => (status c = WANTS_SUSPEND \/ status c = SUSPEND_SIGNALED) /\ inq c = false
      | Some WSignaled => status c = SUSPEND_SIGNALED /\ inq c = false
      | Some WPush => status c = READY /\ inq c = false
      | None => (status c = SUSPENDED /\ inq c = false) \/ status c = READY
      | _ => False
      end
  | _ => status c = RUNNING /\ place c = Some WRunning /\ inq c = false
  end.

(** A fiber still queued in the mutex is not signaled. *)
Definition unsignaled (c : cell) : Prop :=
  code c = LSuspend \/ code c = LSuspended /\ (status c = WANTS_SUSPEND \/ status c = SUSPENDED).

(** What a resumer may assume of the fiber it resumes. *)
Definition resume_ok (pc : resume_pc) (c : cell) : Prop :=
  match pc with
  | RLoad => unsignaled c
  | RCasWants => unsignaled c /\ code c = LSuspended
  | RCasSuspended => code c = LSuspended /\ status c = SUSPENDED
  | RRequeue => code c = LSuspended /\ status c = READY /\ place c = None /\ inq c = false
  | RDone => False
  end.

Record inv (s : state) : Prop := mk_inv {
  inv_unique : forall f g, owner s f -> owner s g -> f = g;
  inv_free : locked s = false -> waitingFibers s = [] /\ forall f, ~ owner s f;
  inv_taken : locked s = true -> exists f, owner s f;
  inv_nodup : NoDup (waitingFibers s);
  inv_queue : forall f, f ∈ waitingFibers s -> waiting_code (code (cells s f)) /\ unsignaled (cells s f);
  inv_cells : forall f, cell_ok (cells s f);
  inv_resumes : forall g n, resumes s g n -> granted s n /\
    (forall was, code (cells s g) = UUnboost was (Some n) -> unsignaled (cells s n)) /\
    (forall pc, code (cells s g) = UResume n pc -> resume_ok pc (cells s n));
  inv_one_resumer : forall g g' n, resumes s g n -> resumes s g' n -> g = g'
}.

(** *** Changing one fiber *)

(** The invariant reads the lock, the queue and the cells. *)
Lemma mutex_inv_ext s s' :
  locked s' = locked s -> waitingFibers s' = waitingFibers s -> (forall f, cells s' f = cells s f) ->
  inv s -> inv s'.
Proof.
  intros Hl Hw Hc [H1 H2 H3 H4 H5 H6 H7 H8].
  assert (Hg : forall f, granted s' f <-> granted s f) by (intros f; unfold granted; by rewrite Hc, Hw).
  assert (Ho : forall f, owner s' f <-> owner s f) by (intros f; unfold owner; by rewrite Hg, Hc).
  assert (Hr : forall g n, resumes s' g n <-> resumes s g n) by (intros g n; unfold resumes; by rewrite Hc).
  split; rewrite ?Hl, ?Hw.
  - intros f g. rewrite !Ho. apply H1.
  - intros E. destruct (H2 E) as [? H]. split; [done|]. intros f. rewrite Ho. apply H.
  - intros E. destruct (H3 E) as [f ?]. exists f. by rewrite Ho.
  - done.
  - intros f. rewrite Hc. apply H5.
  - intros f. rewrite Hc. apply H6.
  - intros g n. rewrite Hr, Hg, !Hc. apply H7.
  - intros g g' n. rewrite !Hr. apply H8.
Qed.

Definition resumes_from (pc : mutex_pc) (n : nat) : Prop :=
  (exists was, pc = UUnboost was (Some n)) \/ (exists rpc, pc = UResume n rpc).

Lemma resumes_granted s g n : inv s -> resumes s g n -> granted s n.
Proof. intros Hi Hr. by destruct (inv_resumes s Hi g n Hr). Qed.

Lemma unsignaled_waiting c : unsignaled c -> waiting_code (code c).
Proof. unfold unsignaled, waiting_code. intuition. Qed.

Lemma resume_ok_waiting pc c : resume_ok pc c -> waiting_code (code c).
Proof. unfold waiting_code. destruct pc; simpl; intuition; by apply unsignaled_waiting. Qed.

Lemma inv_cell s f c :
  inv s ->
  (in_section (code c) \/ waiting_code (code c) /\ f ∉ waitingFibers s <-> owner s f) ->
  (f ∈ waitingFibers s -> unsignaled c) ->
  (forall g was, g <> f -> code (cells s g) = UUnboost was (Some f) -> unsignaled c) ->
  (forall g pc, g <> f -> code (cells s g) = UResume f pc -> resume_ok pc c) ->
  (forall n, resumes_from (code c) n -> granted s n /\ (forall g, resumes s g n -> g = f) /\ n <> f /\
     (forall was, code c = UUnboost was (Some n) -> unsignaled (cells s n)) /\
     (forall pc, code c = UResume n pc -> resume_ok pc (cells s n))) ->
  cell_ok c -> inv (set_cell s f c).
Proof.
  intros Hi Hown Hq Hby1 Hby2 Hmine Hok. pose proof Hi as [H1 H2 H3 H4 H5 H6 H7 H8].
  assert (Ho : forall g, owner (set_cell s f c) g <-> owner s g).
  { intros g. unfold owner at 1, granted. simpl. upd_split; [done|]. by unfold owner, granted. }
  assert (Hr : forall g n, resumes (set_cell s f c) g n ->
                 g = f /\ resumes_from (code c) n \/ g <> f /\ resumes s g n).
  { intros g n. unfold resumes at 1. simpl. upd_split; auto. }
  split; simpl.
  - intros g1 g2. rewrite !Ho. apply H1.
  - intros Hl. destruct (H2 Hl) as [? Hno]. split; [done|]. intros g. rewrite Ho. apply Hno.
  - intros Hl. destruct (H3 Hl) as [g Hgo]. exists g. by rewrite Ho.
  - done.
  - intros g Hin. destruct (H5 g Hin). upd_split; [|done].
    split; [by apply unsignaled_waiting, Hq|by apply Hq].
  - intros g. upd_split; [done|apply H6].
  - intros g n [[-> Hrn]|[Hgf Hrn]]%Hr.
    + destruct (Hmine n Hrn) as ([Hw Hnw] & _ & Hnf & Hu). unfold granted. simpl.
      rewrite upd_eq, upd_ne by done. by split.
    + destruct (H7 g n Hrn) as ([Hw Hnw] & Ha & Hb).
      unfold granted. simpl. rewrite (upd_ne (cells s) f g) by done.
      destruct (decide (f = n)) as [<-|Hfn]; [|rewrite upd_ne by done; by split].
      rewrite upd_eq. split_and!; try done; eauto.
      destruct Hrn as [[was E]|[pc E]]; [eapply unsignaled_waiting, Hby1|eapply resume_ok_waiting, Hby2]; done.
  - intros g g' n Hr1 Hr2. destruct (Hr g n Hr1) as [[-> Hf1]|[Hn1 Hf1]], (Hr g' n Hr2) as [[-> Hf2]|[Hn2 Hf2]].
    + done.
    + destruct (Hmine n Hf1) as (_ & Hu & _). symmetry. by apply Hu.
    + destruct (Hmine n Hf2) as (_ & Hu & _). by apply Hu.
    + by eapply H8.
Qed.

(** Moving the program counter between points outside the queue. *)
Definition plain (pc : mutex_pc) : Prop :=
  match pc with LSuspend | LSuspended | UUnboost _ (Some _) | UResume _ _ => False | _ => True end.

Lemma plain_not_waiting pc : plain pc -> ~ waiting_code pc.
Proof. by intros Hp [->| ->]. Qed.

Lemma plain_not_resuming pc n : plain pc -> ~ resumes_from pc n.
Proof. by intros Hp [[? ->]|[? ->]]. Qed.

Lemma running_cell_ok pc c : pc <> LSuspended -> code c <> LSuspended -> cell_ok c ->
  cell_ok (mk_cell pc (status c) (place c) (inq c)).
Proof. unfold cell_ok. simpl. intros H1 H2 H. destruct pc, (code c); done. Qed.

(** Nobody resumes or queues a fiber at a plain point. *)
Lemma plain_alone s f :
  inv s -> ~ waiting_code (code (cells s f)) -> (f ∉ waitingFibers s) /\ (forall g, ~ resumes s g f).
Proof.
  intros Hi Hp. split.
  - intros Hin. by destruct (inv_queue s Hi f Hin).
  - intros g Hr. by destruct (resumes_granted s g f Hi Hr).
Qed.

Lemma inv_set_code s f pc :
  inv s -> plain (code (cells s f)) -> plain pc -> (in_section pc <-> in_section (code (cells s f))) ->
  inv (set_code s f pc).
Proof.
  intros Hi Hp Hp' Hsec. destruct (plain_alone s f Hi (plain_not_waiting _ Hp)) as [Hnw Hnr].
  apply inv_cell; simpl; try done.
  - unfold owner, granted. rewrite Hsec.
    pose proof (plain_not_waiting _ Hp). pose proof (plain_not_waiting _ Hp'). tauto.
  - intros g was _ E. destruct (Hnr g). left. eauto.
  - intros g rpc _ E. destruct (Hnr g). right. eauto.
  - intros n Hr. by destruct (plain_not_resuming _ n Hp').
  - apply running_cell_ok; [by intros ->|by intros E; rewrite E in Hp|apply Hi].
Qed.

(** *** Steps that change the owner or the queue *)

(** [f] takes the free lock. *)
Lemma inv_acquire s f :
  inv s -> locked s = false -> ~ waiting_code (code (cells s f)) ->
  inv (set_code (set_lock s true (waitingFibers s)) f LSetHolder).
Proof.
  intros Hi Hl Hp. pose proof Hi as [H1 H2 H3 H4 H5 H6 H7 H8].
  destruct (H2 Hl) as [Hw Hno]. rewrite Hw.
  assert (Ho : forall g, owner (set_code (set_lock s true []) f LSetHolder) g -> g = f).
  { intros g. unfold owner, granted. simpl. upd_split; [done|]. intros Hg. destruct (Hno g).
    unfold owner, granted. by rewrite Hw. }
  assert (Hr : forall g n, ~ resumes (set_code (set_lock s true []) f LSetHolder) g n).
  { intros g n. unfold resumes. simpl. upd_split; [by intros [[? ?]|[? ?]]|]. intros Hg.
    destruct (Hno n). right. by eapply resumes_granted. }
  split; simpl; try done.
  - intros g1 g2 ->%Ho ->%Ho. done.
  - intros _. exists f. left. simpl. by rewrite upd_eq.
  - constructor.
  - by intros g ?%elem_of_nil.
  - intros g. upd_split; [|done]. apply running_cell_ok; [done| |apply H6].
    intros E. apply Hp. by right.
  - intros g n Hg. by destruct (Hr g n).
  - intros g g' n Hg. by destruct (Hr g n).
Qed.

(** [f] joins the queue of the taken lock. *)
Lemma inv_enqueue s f :
  inv s -> locked s = true -> code (cells s f) = LEnter ->
  inv (set_code (set_lock s true (waitingFibers s ++ [f])) f LSuspend).
Proof.
  intros Hi Hl E. pose proof Hi as [H1 H2 H3 H4 H5 H6 H7 H8].
  destruct (plain_alone s f Hi) as [Hnw Hnr]; [by rewrite E; intros [?|?]|].
  set (s' := set_code _ _ _).
  assert (Hg : forall g, granted s' g <-> granted s g).
  { intros g. unfold granted, s'. simpl. rewrite not_elem_of_app, not_elem_of_cons. upd_split.
    - rewrite E. split; [by intros [_ [_ [? _]]]|by intros [[?|?] _]].
    - split; intros [? Hx]; split; try done; [by destruct Hx|]. split; [done|].
      split; [done|apply not_elem_of_nil]. }
  assert (Ho : forall g, owner s' g <-> owner s g).
  { intros g. unfold owner. rewrite Hg. unfold s'. simpl. upd_split; [by rewrite E|done]. }
  assert (Hr : forall g n, resumes s' g n -> resumes s g n /\ g <> f).
  { intros g n. unfold resumes, s'. simpl. upd_split; [by intros [[? ?]|[? ?]]|done]. }
  split; simpl.
  - intros g1 g2. rewrite !Ho. apply H1.
  - done.
  - intros _. destruct (H3 Hl) as [g ?]. exists g. by apply Ho.
  - apply NoDup_app. split; [done|]. split; [|apply NoDup_singleton].
    by intros x Hx ->%list_elem_of_singleton.
  - intros g [Hin| ->%list_elem_of_singleton]%elem_of_app.
    + rewrite upd_ne by (by intros ->). by apply H5.
    + rewrite upd_eq. split; [by left|by left].
  - intros g. upd_split; [|done]. apply running_cell_ok; [done|by rewrite E|apply H6].
  - intros g n [Hrn Hgf]%Hr. rewrite Hg, (upd_ne _ f g) by done.
    rewrite upd_ne by (intros <-; by apply (Hnr g)). by apply H7.
  - intros g g' n [? _]%Hr [? _]%Hr. by eapply H8.
Qed.

(** [Unlock] with waiters: the lock goes to the fiber at the front. *)
Lemma inv_hand_over s f was n w :
  inv s -> code (cells s f) = UPop was -> waitingFibers s = n :: w ->
  inv (set_code (set_lock s (locked s) w) f (UUnboost was (Some n))).
Proof.
  intros Hi E Hw. pose proof Hi as [H1 H2 H3 H4 H5 H6 H7 H8].
  rewrite Hw in H4. apply NoDup_cons in H4 as [Hnw Hnd].
  assert (Hof : owner s f) by (left; by rewrite E).
  assert (Hl : locked s = true).
  { destruct (locked s) eqn:Hl; [done|]. by destruct (proj2 (H2 eq_refl) f). }
  destruct (H5 n) as [Hcn Hun]; [rewrite Hw; left|].
  assert (Hfn : f <> n) by (intros ->; rewrite E in Hcn; by destruct Hcn).
  assert (Hnr : forall g m, ~ resumes s g m).
  { intros g m Hr. pose proof (resumes_granted s g m Hi Hr) as Hgm.
    assert (m = f) as -> by (apply H1; [by right|done]). destruct Hgm as [[?|?] _]; congruence. }
  set (s' := set_code _ _ _).
  assert (Ho : forall g, owner s' g -> g = n).
  { intros g. unfold owner, granted, s'. simpl. upd_split; [by intros [?|[[?|?] _]]|].
    intros Hg. destruct (decide (g = n)) as [|Hgn]; [done|]. exfalso.
    assert (f = g); [|done]. apply H1; [done|]. unfold owner, granted. rewrite Hw, not_elem_of_cons. tauto. }
  assert (Hr : forall g m, resumes s' g m -> g = f /\ m = n).
  { intros g m. unfold resumes, s'. simpl. upd_split.
    - by intros [[? [= _ <-]]|[? ?]].
    - intros Hg. by destruct (Hnr g m). }
  assert (Hgn : granted s' n).
  { unfold granted, s'. simpl. by rewrite upd_ne by done. }
  split; simpl; rewrite ?Hl.
  - intros g1 g2 ->%Ho ->%Ho. done.
  - done.
  - intros _. exists n. by right.
  - done.
  - intros g Hin. rewrite upd_ne; [apply H5; rewrite Hw; by right|].
    intros <-. destruct (H5 f) as [[?|?] _]; [rewrite Hw; by right|congruence..].
  - intros g. upd_split; [|done]. apply running_cell_ok; [done|by rewrite E|apply H6].
  - intros g m [-> ->]%Hr. split; [done|]. rewrite upd_eq, upd_ne by done. by split.
  - intros g g' m [-> _]%Hr [-> _]%Hr. done.
Qed.

(** [Unlock] without waiters frees the lock. *)
Lemma inv_release s f was :
  inv s -> code (cells s f) = UPop was -> waitingFibers s = [] ->
  inv (set_code (set_lock s false []) f (UUnboost was None)).
Proof.
  intros Hi E Hw. pose proof Hi as [H1 H2 H3 H4 H5 H6 H7 H8].
  assert (Hof : owner s f) by (left; by rewrite E).
  set (s' := set_code _ _ _).
  assert (Ho : forall g, ~ owner s' g).
  { intros g. unfold owner, granted, s'. simpl. upd_split; [by intros [?|[[?|?] _]]|].
    intros Hg. assert (f = g); [|done]. apply H1; [done|]. unfold owner, granted. by rewrite Hw. }
  assert (Hr : forall g m, ~ resumes s' g m).
  { intros g m. unfold resumes, s'. simpl. upd_split; [by intros [[? ?]|[? ?]]|].
    intros Hr. pose proof (resumes_granted s g m Hi Hr) as Hgm.
    assert (m = f) as -> by (apply H1; [by right|done]). destruct Hgm as [[?|?] _]; congruence. }
  split; simpl; try done.
  - intros g1 g2 Hg. by destruct (Ho g1).
  - constructor.
  - by intros g ?%elem_of_nil.
  - intros g. upd_split; [|done]. apply running_cell_ok; [done|by rewrite E|apply H6].
  - intros g m Hg. by destruct (Hr g m).
  - intros g g' m Hg. by destruct (Hr g m).
Qed.

(** *** Suspension, resumption and the worker *)

Lemma owner_waiting s f :
  waiting_code (code (cells s f)) -> owner s f <-> f ∉ waitingFibers s.
Proof. unfold owner, granted. intros Hw. split; [|tauto]. by intros [Hs|[_ ?]]; [destruct Hw as [E|E]; rewrite E in Hs|]. Qed.

Lemma inv_suspend s f :
  inv s -> code (cells s f) = LSuspend ->
  inv (set_cell s f (mk_cell LSuspended WANTS_SUSPEND (Some WPost) (inq (cells s f)))).
Proof.
  intros Hi E. pose proof (inv_cells s Hi f) as Hc. unfold cell_ok in Hc. rewrite E in Hc.
  destruct Hc as (Hst & Hpl & Hq).
  assert (Hwc : waiting_code (code (cells s f))) by (by left).
  apply inv_cell; simpl; try done.
  - rewrite owner_waiting by done. unfold waiting_code. tauto.
  - intros _. right. auto.
  - intros _ _ _ _. right. auto.
  - intros g pc Hgf Hg. destruct (inv_resumes s Hi g f) as (_ & _ & Hr); [by right; eexists|].
    specialize (Hr _ Hg). destruct pc; simpl in *; unfold unsignaled; simpl; intuition congruence.
  - by intros n [[? ?]|[? ?]].
  - unfold cell_ok. simpl. auto.
Qed.

(** [f] becomes, or stays, the one resumer of [n]. *)
Lemma inv_resumer s f n pc :
  inv s -> plain (code (cells s f)) \/ resumes s f n -> ~ in_section (code (cells s f)) ->
  granted s n -> (forall g, resumes s g n -> g = f) -> resume_ok pc (cells s n) ->
  inv (set_code s f (UResume n pc)).
Proof.
  intros Hi Hpf Hns Hg Hun Hok.
  assert (Hnw : ~ waiting_code (code (cells s f))).
  { destruct Hpf as [Hp|[[? E]|[? E]]]; [by apply plain_not_waiting|..]; rewrite E; by intros [?|?]. }
  destruct (plain_alone s f Hi Hnw) as [Hq Hnr].
  apply inv_cell; simpl; try done.
  - unfold owner, granted. simpl. unfold waiting_code in *. intuition congruence.
  - intros g w _ Eg. destruct (Hnr g). left. eauto.
  - intros g w _ Eg. destruct (Hnr g). right. eauto.
  - intros m [[? [=]]|[? [= <- <-]]]. split_and!; try done.
    + intros ->. by destruct Hg.
    + by intros ? [= <-].
  - apply running_cell_ok; [done| |apply Hi]. intros E. apply Hnw. by right.
Qed.

Lemma inv_unboost_some s f was n :
  inv s -> code (cells s f) = UUnboost was (Some n) -> inv (set_code s f (UResume n RLoad)).
Proof.
  intros Hi E. assert (Hr : resumes s f n) by (left; eauto).
  destruct (inv_resumes s Hi f n Hr) as (Hg & Hu & _).
  apply inv_resumer; try done.
  - by right.
  - rewrite E. simpl. tauto.
  - intros g Hr'. by eapply (inv_one_resumer s Hi).
  - simpl. eauto.
Qed.

(** [Unlock]'s [Resume] of the fiber it popped, one access at a time.  The caller
    moves on first; then the fiber changes with nobody else resuming it. *)
Lemma inv_resume_done s f n pc :
  inv s -> code (cells s f) = UResume n pc -> inv (set_code s f CIdle).
Proof.
  intros Hi E. assert (Hnw : ~ waiting_code (code (cells s f))) by (rewrite E; by intros [?|?]).
  destruct (plain_alone s f Hi Hnw) as [Hq Hnr].
  apply inv_cell; simpl; try done.
  - unfold owner, granted. rewrite E. simpl. unfold waiting_code. intuition congruence.
  - intros g w _ Eg. destruct (Hnr g). left. eauto.
  - intros g w _ Eg. destruct (Hnr g). right. eauto.
  - by intros m [[? ?]|[? ?]].
  - apply running_cell_ok; [done|by rewrite E|apply Hi].
Qed.

(** A granted fiber that nobody resumes may be woken. *)
Lemma inv_wake s n c :
  inv s -> code (cells s n) = LSuspended -> code c = LSuspended -> n ∉ waitingFibers s ->
  (forall g, ~ resumes s g n) -> cell_ok c -> inv (set_cell s n c).
Proof.
  intros Hi E Ec Hq Hnr Hok. apply inv_cell; try done.
  - rewrite Ec, owner_waiting by (by right). simpl. unfold waiting_code. tauto.
  - intros g w _ Eg. destruct (Hnr g). left. eauto.
  - intros g w _ Eg. destruct (Hnr g). right. eauto.
  - rewrite Ec. by intros m [[? ?]|[? ?]].
Qed.

Lemma resumes_after_done s f n pc g :
  inv s -> code (cells s f) = UResume n pc -> ~ resumes (set_code s f CIdle) g n.
Proof.
  intros Hi E Hr. unfold resumes in Hr. simpl in Hr. upd_split.
  - by destruct Hr as [[? ?]|[? ?]].
  - assert (g = f); [|done]. eapply (inv_one_resumer s Hi); [done|right; by eexists].
Qed.

Lemma cell_eta c : mk_cell (code c) (status c) (place c) (inq c) = c.
Proof. by destruct c. Qed.

(** [Thread::Resume(n)] by [f], step by step. *)
Section Resume.
Context (s : state) (f n : nat) (pc : resume_pc) (Hi : inv s) (E : code (cells s f) = UResume n pc).

Lemma resume_is : resumes s f n.
Proof. right. eauto. Qed.
Lemma resume_ne : f <> n.
Proof. destruct (inv_resumes s Hi f n resume_is) as ([Hgw _] & _). intros ->. rewrite E in Hgw. by destruct Hgw. Qed.
Lemma resume_can : resume_ok pc (cells s n).
Proof. destruct (inv_resumes s Hi f n resume_is) as (_ & _ & Hok). by apply Hok. Qed.

(** The caller's and the fiber's change commute. *)
Lemma resume_comm cn pcf : inv (set_cell (set_code s f pcf) n cn) -> inv (set_code (set_cell s n cn) f pcf).
Proof.
  pose proof resume_ne as Hfn. apply mutex_inv_ext; simpl; try done. intros g. rewrite (upd_ne _ n f) by done.
  unfold upd. repeat case_decide; congruence.
Qed.
(** The fiber stays as it is. *)
Lemma resume_same pcf : inv (set_code s f pcf) -> inv (set_code (set_cell s n (cells s n)) f pcf).
Proof. apply mutex_inv_ext; simpl; try done. intros g. unfold upd. repeat case_decide; congruence. Qed.

Lemma resume_move pc' : resume_ok pc' (cells s n) -> inv (set_code s f (UResume n pc')).
Proof.
  intros Hpc'. pose proof resume_is as Hr. destruct (inv_resumes s Hi f n Hr) as (Hg & _).
  apply inv_resumer; try done; [by right|rewrite E; simpl; tauto|]. intros g Hr'. by eapply (inv_one_resumer s Hi).
Qed.
Lemma resume_wake cn : code (cells s n) = LSuspended -> code cn = LSuspended -> cell_ok cn ->
  inv (set_cell (set_code s f CIdle) n cn).
Proof.
  pose proof resume_ne as Hfn. destruct (inv_resumes s Hi f n resume_is) as ([_ Hgq] & _).
  intros Hc1 Hc2 Hc3. apply inv_wake; try done; [by apply (inv_resume_done s f n pc)|simpl; by rewrite upd_ne|].
  intros g. by apply (resumes_after_done s f n pc).
Qed.

(** The step, with the fiber's status known. *)
Lemma resume_step_is st pc' s' : resume_step pc (status (cells s n)) = (st, pc') -> pc <> RRequeue -> code_step f s = Some s' ->
  s' = set_code (set_cell s n (mk_cell (code (cells s n)) st (place (cells s n)) (inq (cells s n)))) f
         (if decide (pc' = RDone) then CIdle else UResume n pc').
Proof. intros Hr Hq Hst. unfold code_step in Hst. rewrite E, Hr in Hst. by destruct pc; simplify_eq. Qed.
End Resume.

Lemma inv_resume_load s f n s' : inv s -> code (cells s f) = UResume n RLoad -> code_step f s = Some s' -> inv s'.
Proof.
  intros Hi E Hst. pose proof (inv_cells s Hi n) as Hcn. pose proof (resume_can s f n _ Hi E) as Hok. simpl in Hok.
  assert (exists pc', resume_step RLoad (status (cells s n)) = (status (cells s n), pc') /\
    (pc' = RDone \/ resume_ok pc' (cells s n))) as (pc' & Hr & Hpc').
  { destruct Hok as [Hc|(Hc & [Hs|Hs])].
    - unfold cell_ok in Hcn. rewrite Hc in Hcn. destruct Hcn as (Hs & _). rewrite Hs. eexists. split; [done|by left].
    - rewrite Hs. exists RCasWants. split; [done|]. right. unfold resume_ok, unsignaled. auto.
    - rewrite Hs. exists RCasSuspended. split; [done|]. by right. }
  rewrite (resume_step_is s f n RLoad E _ _ _ Hr) by done. rewrite cell_eta. apply (resume_same s f n).
  case_decide as Hd; [by apply (inv_resume_done s f n RLoad)|]. destruct Hpc' as [?|Hpc']; [done|].
  by apply (resume_move s f n RLoad).
Qed.

Lemma inv_resume_wants s f n s' : inv s -> code (cells s f) = UResume n RCasWants -> code_step f s = Some s' -> inv s'.
Proof.
  intros Hi E Hst. pose proof (inv_cells s Hi n) as Hcn. pose proof (resume_can s f n _ Hi E) as Hok. simpl in Hok.
  destruct Hok as [[Hc|(_ & [Hs|Hs])] Hc']; [congruence|..].
  - assert (Hr : resume_step RCasWants (status (cells s n)) = (SUSPEND_SIGNALED, RDone)) by (by rewrite Hs).
    rewrite (resume_step_is s f n _ E _ _ _ Hr) by done. simpl. apply (resume_comm s f n RCasWants Hi E).
    apply (resume_wake s f n RCasWants); try done. unfold cell_ok in *. rewrite Hc' in *. rewrite Hs in Hcn. simpl.
    destruct (place (cells s n)) as [[]|]; intuition congruence.
  - assert (Hr : resume_step RCasWants (status (cells s n)) = (status (cells s n), RLoad)) by (by rewrite Hs).
    rewrite (resume_step_is s f n _ E _ _ _ Hr) by done. simpl. rewrite cell_eta.
    apply (resume_same s f n), (resume_move s f n RCasWants); try done. right. auto.
Qed.

Lemma inv_resume_suspended s f n s' : inv s -> code (cells s f) = UResume n RCasSuspended -> code_step f s = Some s' -> inv s'.
Proof.
  intros Hi E Hst. pose proof (inv_cells s Hi n) as Hcn. pose proof (resume_can s f n _ Hi E) as [Hc Hs].
  pose proof (resume_ne s f n _ Hi E) as Hfn. destruct (inv_resumes s Hi f n (resume_is s f n _ E)) as ([_ Hgq] & _).
  assert (Hp : place (cells s n) = None /\ inq (cells s n) = false).
  { unfold cell_ok in Hcn. rewrite Hc, Hs in Hcn. destruct (place (cells s n)) as [[]|]; intuition congruence. }
  destruct Hp as [Hp Hq]. assert (Hr : resume_step RCasSuspended (status (cells s n)) = (READY, RRequeue)) by (by rewrite Hs).
  rewrite (resume_step_is s f n _ E _ _ _ Hr) by done. rewrite Hc, Hp, Hq. simpl. set (cn := mk_cell LSuspended READY None false).
  assert (Hi1 : inv (set_cell (set_code s f CIdle) n cn)) by (apply (resume_wake s f n RCasSuspended); try done; by right).
  pose proof (resumes_after_done s f n RCasSuspended) as Hnr.
  eapply mutex_inv_ext; [..|apply (inv_resumer _ f n RRequeue Hi1)]; simpl; try done.
  - intros g. unfold upd. repeat case_decide; simpl; congruence.
  - left. by rewrite upd_ne, upd_eq by done.
  - rewrite upd_ne, upd_eq by done. simpl. tauto.
  - split; simpl; [by rewrite upd_eq; right|done].
  - intros g Hg. exfalso. apply (Hnr g Hi E). unfold resumes in *. simpl in *. upd_split; try done; by destruct Hg as [[? ?]|[? ?]].
  - by rewrite upd_eq.
Qed.

Lemma inv_resume_requeue s f n s' : inv s -> code (cells s f) = UResume n RRequeue -> code_step f s = Some s' -> inv s'.
Proof.
  intros Hi E Hst. pose proof (resume_can s f n _ Hi E) as (Hc & Hs & Hp & Hq). unfold code_step in Hst. rewrite E in Hst.
  simpl in Hst. simplify_eq. apply (resume_comm s f n RRequeue Hi E), (resume_wake s f n RRequeue); try done.
  unfold cell_ok. simpl. rewrite Hc, Hp. auto.
Qed.

Lemma inv_resume_step s f s' n pc : inv s -> code (cells s f) = UResume n pc -> code_step f s = Some s' -> inv s'.
Proof.
  intros Hi E Hst. destruct pc.
  - by eapply inv_resume_load.
  - by eapply inv_resume_suspended.
  - by eapply inv_resume_wants.
  - by eapply inv_resume_requeue.
  - by destruct (resume_can s f n _ Hi E).
Qed.

Lemma inv_worker_step s f s' : inv s -> exec (Worker f) s = Some s' -> inv s'.
Proof.
  intros Hi Hst. simpl in Hst. pose proof (inv_cells s Hi f) as Hc.
  assert (Hcode : place (cells s f) <> Some WRunning -> code (cells s f) = LSuspended).
  { intros Hp. unfold cell_ok in Hc. destruct (code (cells s f)); intuition congruence. }
  destruct (place (cells s f)) as [pc|] eqn:Hp; [|done].
  assert (Hpc : pc <> WRunning) by (by intros ->).
  specialize (Hcode ltac:(congruence)). unfold cell_ok in Hc. rewrite Hcode, Hp in Hc.
  assert (Hrq : forall g rpc, code (cells s g) = UResume f rpc -> resume_ok rpc (cells s f)).
  { intros g rpc Eg. destruct (inv_resumes s Hi g f) as (_ & _ & H); [by right; eexists|]. by apply H. }
  assert (Hall : forall st' pl' q', s' = set_cell s f (mk_cell (code (cells s f)) st' pl' q') ->
    (unsignaled (cells s f) -> st' = WANTS_SUSPEND \/ st' = SUSPENDED) ->
    cell_ok (mk_cell LSuspended st' pl' q') -> inv s').
  { intros st' pl' q' -> Hu Hok. rewrite Hcode.
    assert (Hu' : unsignaled (cells s f) -> unsignaled (mk_cell LSuspended st' pl' q')).
    { intros Hun. right. auto. }
    apply inv_cell; try done.
    - rewrite owner_waiting by (by right). simpl. unfold waiting_code. tauto.
    - intros Hq. apply Hu'. by destruct (inv_queue s Hi f Hq).
    - intros g w _ Eg. apply Hu'. destruct (inv_resumes s Hi g f) as (_ & H & _); [left; by eexists|]. by eapply H.
    - intros g rpc _ Eg. specialize (Hrq g rpc Eg). destruct rpc; simpl in *; try done.
      + by apply Hu'.
      + exfalso. destruct Hrq as [_ Hs]. rewrite Hs in Hc. destruct pc; intuition congruence.
      + split; [apply Hu', Hrq|done].
      + destruct Hrq as (_ & _ & Hpl & _). congruence.
    - by intros n [[? ?]|[? ?]]. }
  unfold unsignaled in Hall. rewrite Hcode in Hall, Hst.
  destruct pc; simpl in Hst; try done; destruct (status (cells s f)) eqn:Hs; simpl in Hst;
    try (intuition congruence); simplify_eq; (eapply Hall; [done|intuition congruence|]);
    unfold cell_ok; simpl; intuition congruence.
Qed.

Lemma inv_dispatch s f s' : inv s -> exec (Dispatch f) s = Some s' -> inv s'.
Proof.
  intros Hi Hst. simpl in Hst. pose proof (inv_cells s Hi f) as Hc.
  destruct (place (cells s f)) eqn:Hp; [done|]. destruct (inq (cells s f)) eqn:Hq; [|done].
  unfold cell_ok in Hc. rewrite Hp, Hq in Hc.
  destruct (code (cells s f)) eqn:E; try (intuition congruence).
  destruct Hc as [[_ ?]|Hs]; [done|]. simplify_eq.
  assert (Hun : ~ unsignaled (cells s f)).
  { unfold unsignaled. rewrite E, Hs. intuition congruence. }
  assert (Hnq : f ∉ waitingFibers s).
  { intros Hin. apply Hun. by destruct (inv_queue s Hi f Hin). }
  assert (Hnr : forall g, ~ resumes s g f).
  { intros g Hr. destruct (inv_resumes s Hi g f Hr) as (_ & H1 & H2).
    destruct Hr as [[w Eg]|[rpc Eg]]; [by apply Hun, (H1 w)|]. specialize (H2 rpc Eg).
    destruct rpc; simpl in H2; try done; intuition congruence. }
  apply inv_cell; try done.
  - rewrite owner_waiting by (by right). simpl. tauto.
  - intros g w _ Eg. destruct (Hnr g). left. eauto.
  - intros g w _ Eg. destruct (Hnr g). right. eauto.
  - by intros n [[? ?]|[? ?]].
Qed.

Lemma inv_code_step f s s' : inv s -> code_step f s = Some s' -> inv s'.
Proof.
  intros Hi Hst. destruct (code (cells s f)) as [| | | | | | | | |was|was next|n pc] eqn:E.
  all: try (by unfold code_step in Hst; rewrite E in Hst).
  9: by eapply inv_resume_step. all: unfold code_step in Hst; rewrite E in Hst.
  - destruct (locked s) eqn:Hl; simplify_eq.
    + by apply inv_enqueue.
    + apply inv_acquire; [done|done|]. rewrite E. by intros [?|?].
  - destruct (locked s) eqn:Hl; simplify_eq.
    + apply inv_set_code; try done; by rewrite E.
    + apply inv_acquire; [done|done|]. rewrite E. by intros [?|?].
  - destruct (locked s) eqn:Hl; simplify_eq; [done|]. apply inv_acquire; [done|done|]. rewrite E. by intros [?|?].
  - simplify_eq. apply (mutex_inv_ext (set_code s f CHolding)); try done.
    apply inv_set_code; try done; by rewrite E.
  - simplify_eq. by apply inv_suspend.
  - simplify_eq. apply (mutex_inv_ext (set_code s f (UPop (lockHolder s)))); try done.
    apply inv_set_code; try done; by rewrite E.
  - destruct (waitingFibers s) as [|n w] eqn:Hw; simplify_eq.
    + by eapply inv_release.
    + by eapply inv_hand_over.
  - simplify_eq. set (pc' := match next with Some n => _ | None => _ end).
    assert (Hi' : inv (set_code s f pc')).
    { unfold pc'. destruct next as [n|]; [by eapply inv_unboost_some|].
      apply inv_set_code; try done; by rewrite E. }
    revert Hi'. apply mutex_inv_ext; by destruct was.
Qed.

Lemma mutex_inv_exec a s s' : inv s -> exec a s = Some s' -> inv s'.
Proof.
  intros Hi. destruct a as [f|f|f|f|f|f]; simpl.
  - destruct (code (cells s f)) eqn:E; try done. case_match; intros ?; simplify_eq.
    destruct (onFiber env f); apply inv_set_code; try done; by rewrite E.
  - destruct (code (cells s f)) eqn:E; try done. case_match; intros ?; simplify_eq.
    apply inv_set_code; try done; by rewrite E.
  - destruct (code (cells s f)) eqn:E; try done. case_match; intros ?; simplify_eq.
    apply inv_set_code; try done; by rewrite E.
  - case_match; [|done]. by apply inv_code_step.
  - by apply inv_worker_step.
  - by apply inv_dispatch.
Qed.

Lemma mutex_inv_init t : inv (init t).
Proof.
  assert (Ho : forall f, ~ owner (init t) f) by (intros f [[]|[[?|?] _]]; done).
  assert (Hr : forall f n, ~ resumes (init t) f n) by (intros f n [[? ?]|[? ?]]; done).
  split; simpl; try done.
  - intros f g Hf. by destruct (Ho f).
  - constructor.
  - by intros f ?%elem_of_nil.
  - intros g n Hg. by destruct (Hr g n).
  - intros g g' n Hg. by destruct (Hr g n).
Qed.

Lemma mutex_inv_reached t s : reaches exec (init t) s -> inv s.
Proof. apply reaches_invariant; [intros a s1 s2 H1 H2; by eapply mutex_inv_exec|apply mutex_inv_init]. Qed.

(** ** The lost wakeup *)

(** [f] was popped by an [Unlock] whose [Resume] is over, and is parked. *)
Definition stranded (s : state) (f : nat) : Prop :=
  cells s f = mk_cell LSuspended SUSPENDED None false /\ (f ∉ waitingFibers s) /\ (forall g, ~ resumes s g f).

(** A cell changes by its own code, its own worker, a dispatch, or a resumer. *)
Lemma code_step_cells f s s' n :
  code_step f s = Some s' -> n <> f -> (forall g, ~ resumes s g n) -> cells s' n = cells s n.
Proof.
  intros Hst Hne Hnr. unfold code_step, unboost in Hst.
  destruct (code (cells s f)) eqn:E; repeat case_match; simplify_eq/=; rewrite ?upd_ne by done; try done.
  all: rewrite upd_ne; [done|]; intros ->; destruct (Hnr f); right; eauto.
Qed.

Lemma stranded_code_step f s s' n :
  inv s -> stranded s n -> code_step f s = Some s' -> stranded s' n.
Proof.
  intros Hi (Hc & Hq & Hnr) Hst.
  assert (Hon : owner s n) by (right; split; [rewrite Hc; by right|done]).
  assert (Hne : n <> f).
  { intros ->. unfold code_step in Hst. by rewrite Hc in Hst. }
  assert (Hns : ~ in_section (code (cells s f))).
  { intros Hs. apply Hne, (inv_unique s Hi); [done|by left]. }
  assert (Hl : locked s = true).
  { destruct (locked s) eqn:Hl; [done|]. by destruct (proj2 (inv_free s Hi Hl) n). }
  split; [|split].
  - rewrite <- Hc. by eapply code_step_cells.
  - unfold code_step, unboost in Hst. destruct (code (cells s f)) eqn:E; try done;
      rewrite ?Hl in Hst; repeat case_match; simplify_eq/=; try done.
    all: rewrite not_elem_of_app, not_elem_of_cons; split; [done|split; [done|apply not_elem_of_nil]].
  - intros g Hr. destruct (decide (g = f)) as [->|Hgf].
    + assert (Hr' : resumes s f n); [|by destruct (Hnr f)].
      unfold resumes in *. unfold code_step, unboost in Hst.
      destruct (code (cells s f)) eqn:E; try done; rewrite ?Hl in Hst; repeat case_match;
        simplify_eq/=; rewrite ?upd_eq in Hr; simpl in Hr;
        destruct Hr as [[? ?]|[? ?]]; simplify_eq; try congruence; eauto.
    + destruct (Hnr g). unfold resumes in *. replace (code (cells s g)) with (code (cells s' g)); [done|].
      unfold code_step, unboost in Hst.
      destruct (code (cells s f)) eqn:E; repeat case_match; simplify_eq/=; upd_split; try done.
Qed.

Lemma stranded_set_code s f n pc :
  stranded s n -> n <> f -> plain pc -> stranded (set_code s f pc) n.
Proof.
  intros (Hc & Hq & Hnr) Hne Hp. split; [|split]; simpl; [by rewrite upd_ne|done|].
  intros g. unfold resumes. simpl. upd_split; [by apply plain_not_resuming|apply Hnr].
Qed.

Lemma stranded_exec a s s' n : inv s -> stranded s n -> exec a s = Some s' -> stranded s' n.
Proof.
  intros Hi Hs. pose proof Hs as (Hc & Hq & Hnr).
  destruct a as [f|f|f|f|f|f]; simpl; (destruct (decide (n = f)) as [<-|Hne]; [by rewrite Hc|]).
  - destruct (code (cells s f)); try done. case_match; intros ?; simplify_eq. apply stranded_set_code; try done. by destruct (onFiber env f).
  - repeat case_match; intros ?; simplify_eq. by apply stranded_set_code.
  - repeat case_match; intros ?; simplify_eq. by apply stranded_set_code.
  - case_match; [|done]. by apply stranded_code_step.
  - intros Hst. assert (Hs' : exists c, s' = set_cell s f c /\ code c = code (cells s f)).
    { repeat case_match; simplify_eq; by eexists. }
    destruct Hs' as (c & -> & Ec). split; [|split]; simpl; [by rewrite upd_ne|done|].
    intros g. unfold resumes. simpl. upd_split; [rewrite Ec; apply Hnr|apply Hnr].
  - intros Hst. assert (Hcf := inv_cells s Hi f). repeat case_match; simplify_eq.
    all: split; [|split]; simpl; [by rewrite upd_ne|done|].
    all: intros g; unfold resumes; simpl; upd_split; [|apply Hnr]; simpl.
    all: try (by intros [[? ?]|[? ?]]).
    all: unfold cell_ok in Hcf; repeat match goal with H : code _ = _ |- _ => rewrite H in Hcf end;
      destruct Hcf as (_ & ? & _); congruence.
Qed.

(** Only a fiber's own actions move its code. *)
Definition actor (a : action) : nat :=
  match a with Lock f | Try_Lock f | Unlock f | Code f | Worker f | Dispatch f => f end.

Lemma exec_code_other a s s' g :
  exec a s = Some s' -> g <> actor a -> code (cells s' g) = code (cells s g).
Proof.
  intros Hst Hne. destruct a; simpl in *; unfold code_step, unboost in Hst;
    repeat case_match; simplify_eq/=; upd_split; done.
Qed.

Lemma run_code_other l s s' g :
  run exec l s = Some s' -> g ∉ actor <$> l -> code (cells s' g) = code (cells s g).
Proof.
  revert s. induction l as [|a l IH]; intros s; simpl; [by intros [= ->]|].
  destruct (exec a s) as [s1|] eqn:E; simpl; [|done].
  rewrite not_elem_of_cons. intros Hr [Hne Hni]. rewrite (IH s1) by done.
  by eapply exec_code_other.
Qed.

(** ** Priorities *)

Lemma exec_tasks a s s' f :
  priorityBoost (tasks s f) = 0 -> exec a s = Some s' -> tasks s' f = tasks s f.
Proof.
  intros Hb. destruct a; simpl; unfold code_step, unboost; intros Hst;
    repeat case_match; simplify_eq/=; try done.
  all: upd_split; try done; unfold UnboostTaskPriority in *; simplify_eq/=; by rewrite Hb.
Qed.

(** ** Callers that are not on a fiber *)

(** They are never at a point at which a fiber queues itself. *)
Definition only_polls (s : state) : Prop :=
  forall f, onFiber env f = false -> match code (cells s f) with LEnter | LSuspend | LSuspended => False | _ => True end.

Lemma mutex_off_fiber_exec a s s' : only_polls s -> exec a s = Some s' -> only_polls s'.
Proof.
  intros HO Hst f Hoff. destruct (decide (f = actor a)) as [->|Hne]; [|rewrite (exec_code_other a s s' f Hst Hne); by apply HO].
  specialize (HO _ Hoff). destruct a as [f|f|f|f|f|f]; simpl in *; unfold code_step, unboost in Hst; rewrite ?Hoff in Hst;
    repeat case_match; simplify_eq/=; upd_split; congruence || done.
Qed.

Lemma mutex_off_fiber_reached t s : reaches exec (init t) s -> only_polls s.
Proof. apply reaches_invariant; [apply mutex_off_fiber_exec|]. by intros f _. Qed.
End Callers.

(** ** The properties *)

(** [C25] Mutual exclusion: at most one caller is between taking the lock and
    releasing it -- counting the fiber an [Unlock] hands the lock to, from the
    moment it is popped -- and [locked] is set exactly when there is one, so two
    callers never hold the mutex together and a free mutex has no waiters.  A
    caller that is not on a fiber never queues and never stops running. *)
Theorem mutex_mutual_exclusion env t s :
  reaches (exec env) (init t) s ->
  (forall f g, owner s f -> owner s g -> f = g) /\
  (forall f g, code (cells s f) = CHolding -> code (cells s g) = CHolding -> f = g) /\
  (locked s = true <-> exists f, owner s f) /\
  (locked s = false -> waitingFibers s = []) /\
  (forall f, onFiber env f = false -> (f ∉ waitingFibers s) /\ running (cells s f) = true).
Proof.
  intros Hr. pose proof (mutex_off_fiber_reached env t s Hr) as HO. apply mutex_inv_reached in Hr as Hi. split; [apply Hi|]. split_and!.
  - intros f g Hf Hg. apply (inv_unique s Hi); left; [by rewrite Hf|by rewrite Hg].
  - split; [apply Hi|]. intros [f Hf]. destruct (locked s) eqn:Hl; [done|].
    by destruct (proj2 (inv_free s Hi Hl) f).
  - intros Hl. by apply (inv_free s Hi).
  - intros f Hoff. specialize (HO f Hoff). split.
    + intros Hq. destruct (inv_queue s Hi f Hq) as [[E|E] _]; by rewrite E in HO.
    + pose proof (inv_cells s Hi f) as Hc. apply bool_decide_eq_true. unfold cell_ok in Hc. by destruct (code (cells s f)); try apply Hc.
Qed.

(** Callers 0 and 1 are on fibers and run tasks of the same number; the others are
    the main thread or clients. *)
Definition two_fibers : callers :=
  mk_callers (fun f => Nat.ltb f 2) (fun f => if Nat.ltb f 2 then Some f else None).

(** Fiber 1 queues up behind fiber 0 and parks; fiber 0's [Unlock] wakes it. *)
Definition handover_trace : list action :=
  [Lock 0; Code 0; Code 0; Lock 1; Code 1; Code 1; Worker 1; Worker 1;
   Unlock 0; Code 0; Code 0; Code 0; Code 0; Code 0; Code 0; Dispatch 1; Code 1]%nat.

Definition sample_tasks (_ : nat) : task := Task4 1%positive None 0 Standard.

Lemma mutex_mutual_exclusion_witness :
  exists s, run (exec two_fibers) handover_trace (init sample_tasks) = Some s /\
    code (cells s 1%nat) = CHolding /\ lockHolder s = Some 1%nat /\
    (locked s = true <-> exists f, owner s f).
Proof.
  assert (Hf : (fun s => (code (cells s 1%nat), lockHolder s)) <$> run (exec two_fibers) handover_trace (init sample_tasks)
               = Some (CHolding, Some 1%nat)) by (vm_compute; reflexivity).
  destruct (run (exec two_fibers) handover_trace (init sample_tasks)) as [s|] eqn:E; [|discriminate].
  exists s. injection Hf as Hc Hh. split; [done|]. split; [done|]. split; [done|].
  refine (proj1 (proj2 (proj2 (mutex_mutual_exclusion two_fibers sample_tasks s _)))).
  by exists handover_trace.
Defined.

(** Fiber 1 is in [waitingFibers] but still running when fiber 0 unlocks:
    [Resume] sees [RUNNING] and does nothing; then fiber 1 suspends. *)
Definition lost_wakeup_trace : list action :=
  [Lock 0; Code 0; Code 0; Lock 1; Code 1;
   Unlock 0; Code 0; Code 0; Code 0; Code 0;
   Code 1; Worker 1; Worker 1]%nat.

(** [C27] [Lock] can lose the wakeup: it publishes the fiber in [waitingFibers]
    before the fiber is [WANTS_SUSPEND], and an [Unlock] in between resumes a
    [RUNNING] fiber, which is a no-op.  The fiber then parks with the lock handed
    to it, and from that state no interleaving whatsoever wakes it, frees the
    mutex or lets any fiber acquire it. *)
Theorem mutex_lost_wakeup t :
  exists s, run (exec two_fibers) lost_wakeup_trace (init t) = Some s /\
    code (cells s 0%nat) = CIdle /\ waitingFibers s = [] /\
    forall s', reaches (exec two_fibers) s s' ->
      status (cells s' 1%nat) = SUSPENDED /\ code (cells s' 1%nat) = LSuspended /\
      locked s' = true /\ forall f, code (cells s' f) <> CHolding.
Proof.
  assert (Hf : (fun s => (cells s 1%nat, code (cells s 0%nat), waitingFibers s)) <$>
                 run (exec two_fibers) lost_wakeup_trace (init t)
               = Some (mk_cell LSuspended SUSPENDED None false, CIdle, [])) by (vm_compute; reflexivity).
  destruct (run (exec two_fibers) lost_wakeup_trace (init t)) as [s0|] eqn:E; [|discriminate].
  injection Hf as Hc0 Hc1 Hw0. exists s0. split; [done|]. split; [done|]. split; [done|].
  assert (Hi : inv s0) by (apply (mutex_inv_reached two_fibers t); by exists lost_wakeup_trace).
  assert (Hs0 : stranded s0 1%nat).
  { split; [done|]. split; [rewrite Hw0; apply not_elem_of_nil|]. intros g Hg.
    assert (Hcg : g = 1%nat \/ code (cells s0 g) = CIdle).
    { destruct (decide (g ∈ actor <$> lost_wakeup_trace)) as [Hin|Hni].
      - unfold lost_wakeup_trace in Hin. simpl in Hin. rewrite !elem_of_cons, elem_of_nil in Hin.
        destruct Hin as [->|Hin]; [by right|]. intuition (subst; auto).
      - right. by rewrite (run_code_other _ _ _ _ _ E Hni). }
    unfold resumes in Hg. destruct Hcg as [->|Hcg]; [rewrite Hc0 in Hg|rewrite Hcg in Hg];
      destruct Hg as [[? ?]|[? ?]]; done. }
  intros s' Hr. assert (Hs' : inv s' /\ stranded s' 1%nat).
  { revert Hr. apply (reaches_invariant (exec two_fibers) (fun s => inv s /\ stranded s 1%nat)); [|done].
    intros a s1 s2 [H1 H2] H3. split; [by eapply mutex_inv_exec|by eapply stranded_exec]. }
  destruct Hs' as [Hi' (Hc & Hq & _)].
  assert (Ho : owner s' 1%nat) by (right; split; [rewrite Hc; by right|done]).
  rewrite Hc. split_and!; try done.
  - destruct (locked s') eqn:Hl; [done|]. by destruct (proj2 (inv_free s' Hi' Hl) 1%nat).
  - intros f Hf. assert (f = 1%nat) as ->.
    { apply (inv_unique s' Hi'); [left; by rewrite Hf|done]. }
    by rewrite Hc in Hf.
Qed.

(** The mutex never raises a priority: whatever contention there is, a task
    that starts unboosted keeps its priority, since [Lock] does not boost the
    holder and [Unlock] only restores boosts made elsewhere. *)
Theorem mutex_never_boosts env t s :
  (forall f, priorityBoost (t f) = 0) -> reaches (exec env) (init t) s -> forall f, tasks s f = t f.
Proof.
  intros Hb Hr f. revert Hr.
  apply (reaches_invariant (exec env) (fun s => tasks s f = t f)); [|done].
  intros a s1 s2 H1 H2. rewrite <- H1. eapply exec_tasks; [by rewrite H1|done].
Qed.

Lemma mutex_never_boosts_witness :
  exists s, run (exec two_fibers) handover_trace (init sample_tasks) = Some s /\
    forall f, tasks s f = sample_tasks f.
Proof.
  assert (Hf : is_Some (run (exec two_fibers) handover_trace (init sample_tasks))) by (vm_compute; by eexists).
  destruct Hf as [s E]. exists s. split; [done|].
  refine (mutex_never_boosts two_fibers sample_tasks s _ _); [reflexivity|]. by exists handover_trace.
Defined.
