(* ===== verification/TaskAllocator.v ===== *)
(** * The slab allocator ([include/TaskAllocator.h])

    Slots are interchangeable 256-byte blocks; the first word of a free slot is
    the link to the next free one.  Free slots are chained from [sharedHead] or
    from one of the per-thread caches.  An operation of a thread touches its own
    cache, and the shared list inside one section of [mtx], so each operation is
    one step.  This is the release build; [TaskCanary.v] adds the [_DEBUG] canary. *)
From S2P Require Import Prelude.

Definition SLOT : Z := 256.
Definition BATCH : nat := 32.

Record cache := mk_cache { head : option ptr; count : Z }.

(** [links] is the first word of every slot, of whatever use; [live] is history:
    the slots handed out and not freed. *)
Record allocator := mk_allocator {
  mem : list ptr;                    (* the slots of the backing vector *)
  links : gmap ptr (option ptr);
  sharedHead : option ptr;
  caches : list cache;               (* one per thread *)
  liveCount : Z;
  live : list ptr
}.

(** [next(slot)]: reading the link of a slot. *)
Definition next_in (m : gmap ptr (option ptr)) (p : ptr) : option ptr := m !! p ≫= id.

(** The constructor's loop over [mem]. *)
Fixpoint link_all (blks : list ptr) (m : gmap ptr (option ptr)) (h : option ptr)
    : gmap ptr (option ptr) * option ptr :=
  match blks with
  | [] => (m, h)
  | blk :: blks => link_all blks (<[blk := h]> m) (Some blk)
  end.

(** [TaskAllocator(slots)] with the backing at the given addresses, for
    [threads] threads whose caches start empty. *)
Definition make (slots : list ptr) (threads : nat) : allocator :=
  let '(m, h) := link_all slots ∅ None in
  mk_allocator slots m h (replicate threads (mk_cache None 0)) 0 [].

Definition Capacity (a : allocator) : Z := Z.of_nat (length (mem a)).
Definition LiveCount (a : allocator) : Z := liveCount a.

(** [refill]'s walk: at most [fuel] slots from [curr]; [fuel] is what remains of
    [moved < BATCH]. *)
Fixpoint walk (m : gmap ptr (option ptr)) (fuel : nat) (curr tail : option ptr) (moved : Z)
    : option ptr * option ptr * Z :=
  match fuel, curr with
  | S fuel, Some p => walk m fuel (next_in m p) (Some p) (moved + 1)
  | _, _ => (curr, tail, moved)
  end.

Definition refill (a : allocator) (c : cache) : allocator * cache :=
  match sharedHead a with
  | None => (a, c)
  | Some _ =>
      let batchHead := sharedHead a in
      let '(curr, batchTail, moved) := walk (links a) BATCH batchHead None 0 in
      match batchTail with
      | Some t =>
          (mk_allocator (mem a) (<[t := head c]> (links a)) curr (caches a) (liveCount a) (live a),
           mk_cache batchHead (u64 (count c + moved)))
      | None => (a, c)                 (* not reached: the list is not empty *)
      end
  end.

(** [flush]'s walk from [batchTail], [i] steps; [None] is a null dereference. *)
Fixpoint advance (m : gmap ptr (option ptr)) (i : nat) (p : ptr) : option ptr :=
  match i with
  | O => Some p
  | S i => next_in m p ≫= advance m i
  end.

Definition flush (a : allocator) (c : cache) : option (allocator * cache) :=
  if count c <=? Z.of_nat BATCH then Some (a, c)
  else
    let toMove := count c - Z.of_nat BATCH in
    batchHead ← head c;
    batchTail ← advance (links a) (Z.to_nat toMove - 1) batchHead;
    let c' := mk_cache (next_in (links a) batchTail) (Z.of_nat BATCH) in
    Some (mk_allocator (mem a) (<[batchTail := sharedHead a]> (links a)) (Some batchHead)
            (caches a) (liveCount a) (live a), c').

Definition set_cache (a : allocator) (t : nat) (c : cache) : allocator :=
  mk_allocator (mem a) (links a) (sharedHead a) (<[t := c]> (caches a)) (liveCount a) (live a).

(** [void* Alloc()] by thread [t]. *)
Definition Alloc (a : allocator) (t : nat) : option (allocator * option ptr) :=
  c ← caches a !! t;
  let '(a, c) := match head c with None => refill a c | Some _ => (a, c) end in
  match head c with
  | None => Some (set_cache a t c, None)
  | Some slot =>
      let a := set_cache a t (mk_cache (next_in (links a) slot) (u64 (count c - 1))) in
      Some (mk_allocator (mem a) (links a) (sharedHead a) (caches a) (liveCount a + 1)
              (slot :: live a), Some slot)
  end.

(** [void Free(void* slot)] by thread [t]. *)
Definition Free (a : allocator) (t : nat) (slot : ptr) : option allocator :=
  c ← caches a !! t;
  let a := mk_allocator (mem a) (<[slot := head c]> (links a)) (sharedHead a) (caches a)
             (liveCount a - 1) (filter (.≠ slot) (live a)) in
  let c := mk_cache (Some slot) (u64 (count c + 1)) in
  if Z.of_nat (2 * BATCH) <? count c
  then '(a, c) ← flush a c; Some (set_cache a t c)
  else Some (set_cache a t c).

(** The allocator's clients: any thread allocates, any thread frees a live slot
    (once), and whoever holds a live slot writes to it. *)
Inductive action :=
  | AAlloc (t : nat)
  | AFree (t : nat) (slot : ptr)
  | AWrite (slot : ptr) (v : option ptr).

Definition exec (x : action) (a : allocator) : option allocator :=
  match x with
  | AAlloc t => fst <$> Alloc a t
  | AFree t slot => if decide (slot ∈ live a) then Free a t slot else None
  | AWrite slot v =>
      if decide (slot ∈ live a)
      then Some (mk_allocator (mem a) (<[slot := v]> (links a)) (sharedHead a) (caches a)
                   (liveCount a) (live a))
      else None
  end.

(** ** Free lists *)

Fixpoint chain (m : gmap ptr (option ptr)) (p : option ptr) (l : list ptr) : Prop :=
  match l with
  | [] => p = None
  | x :: l => p = Some x /\ chain m (next_in m x) l
  end.

Lemma next_in_eq m p v : next_in (<[p := v]> m) p = v.
Proof. unfold next_in. by rewrite lookup_insert_eq. Qed.
Lemma next_in_ne m p q v : p <> q -> next_in (<[p := v]> m) q = next_in m q.
Proof. intros. unfold next_in. by rewrite lookup_insert_ne. Qed.

Lemma chain_frame m p l q v : q ∉ l -> chain m p l -> chain (<[q := v]> m) p l.
Proof.
  revert p. induction l as [|x l IH]; intros p; simpl; [done|].
  rewrite not_elem_of_cons. intros [Hx Hl] [-> Hc]. split; [done|].
  rewrite next_in_ne by done. by apply IH.
Qed.

Lemma chain_cons m p x l : x ∉ l -> chain m p l -> chain (<[x := p]> m) (Some x) (x :: l).
Proof. intros Hx Hc. split; [done|]. rewrite next_in_eq. by apply chain_frame. Qed.

(** Cutting a chain after [x] and attaching another list there. *)
Lemma chain_splice m p l1 x l2 q l3 :
  NoDup (l1 ++ x :: l2) -> (forall y, y ∈ l1 ++ [x] -> y ∉ l3) ->
  chain m p (l1 ++ x :: l2) -> chain m q l3 -> chain (<[x := q]> m) p (l1 ++ x :: l3).
Proof.
  revert p. induction l1 as [|y l1 IH]; intros p Hnd Hd; simpl.
  - intros [-> _] Hq. split; [done|]. rewrite next_in_eq. apply chain_frame; [|done].
    apply Hd. by left.
  - intros [-> Hc] Hq. split; [done|]. simpl in Hnd. apply NoDup_cons in Hnd as [Hy Hnd].
    rewrite next_in_ne by (intros ->; apply Hy; set_solver). apply IH; try done.
    intros z Hz. apply Hd. by right.
Qed.

Lemma chain_tail m p l1 x l2 : chain m p (l1 ++ x :: l2) -> chain m (next_in m x) l2.
Proof. revert p. induction l1 as [|y l1 IH]; intros p; simpl; [by intros [_ ?]|]. intros [-> H]. eauto. Qed.

Lemma walk_spec m fuel p l tail moved :
  chain m p l ->
  walk m fuel p tail moved =
    (hd_error (drop fuel l),
     from_option Some tail (last (take fuel l)), moved + Z.of_nat (length l `min` fuel)).
Proof.
  revert p l tail moved. induction fuel as [|fuel IH]; intros p l tail moved Hc.
  - rewrite Nat.min_0_r, Z.add_0_r. by destruct l; simpl in *; [subst|destruct Hc as [-> _]].
  - destruct l as [|x l]; cbn [chain] in Hc; [subst; simpl; by rewrite Z.add_0_r|].
    destruct Hc as [-> Hc]. cbn [walk]. rewrite (IH _ l) by done. cbn [take drop length].
    rewrite last_cons. f_equal; [f_equal|lia]. by destruct (last (take fuel l)).
Qed.

(** [advance] stops at the element of its index. *)
Lemma advance_spec m p l1 x l2 :
  chain m (Some p) (l1 ++ x :: l2) -> advance m (length l1) p = Some x.
Proof.
  revert p. induction l1 as [|y l1 IH]; intros p; simpl.
  - by intros [[= ->] _].
  - intros [[= ->] Hc]. destruct (next_in m y) as [q|] eqn:E; simpl; [auto|].
    by destruct l1; simpl in Hc; destruct Hc.
Qed.

Lemma chain_start m p l : chain m p l -> p = hd_error l.
Proof. destruct l; simpl; [done|by intros [-> _]]. Qed.

Lemma chain_drop m p l1 l2 : chain m p (l1 ++ l2) -> chain m (hd_error l2) l2.
Proof.
  revert p. induction l1 as [|y l1 IH]; intros p; simpl.
  - intros Hc. by rewrite <- (chain_start _ _ _ Hc).
  - intros [_ Hc]. eauto.
Qed.

(** ** The shape of the allocator: which slots are where *)

Definition holds (m : gmap ptr (option ptr)) (c : cache) (l : list ptr) : Prop :=
  chain m (head c) l /\ count c = Z.of_nat (length l).

(** [sl] is the shared free list, [cs] those of the threads. *)
Record shape (a : allocator) (sl : list ptr) (cs : list (list ptr)) : Prop := mk_shape {
  sh_nodup : NoDup (live a ++ sl ++ concat cs);
  sh_mem : mem a ≡ₚ live a ++ sl ++ concat cs;
  sh_len : Z.of_nat (length (mem a)) < 2 ^ 64;
  sh_count : liveCount a = Z.of_nat (length (live a));
  sh_shared : chain (links a) (sharedHead a) sl;
  sh_caches : Forall2 (holds (links a)) (caches a) cs
}.

Lemma concat_split {A} (cs : list (list A)) t l l' :
  cs !! t = Some l ->
  concat cs ≡ₚ l ++ concat (take t cs ++ drop (S t) cs) /\
  concat (<[t := l']> cs) ≡ₚ l' ++ concat (take t cs ++ drop (S t) cs).
Proof.
  intros H. rewrite insert_take_drop by (by apply lookup_lt_Some in H).
  rewrite <- (take_drop_middle cs t l) at 1 by done.
  rewrite !concat_app. simpl. split; solve_Permutation.
Qed.

Definition others (cs : list (list ptr)) (t : nat) : list ptr := concat (take t cs ++ drop (S t) cs).

(** One thread's step: it may rewrite the links of slots that are in no other
    thread's cache, and redistribute its own slots, the shared and the live ones. *)
Lemma shape_update a sl cs t l a' sl' c' l' :
  shape a sl cs -> cs !! t = Some l ->
  (forall p k, (forall x, x ∈ k -> x ∈ others cs t) ->
    chain (links a) p k -> chain (links a') p k) ->
  mem a' = mem a -> caches a' = <[t := c']> (caches a) ->
  liveCount a' = Z.of_nat (length (live a')) ->
  live a' ++ sl' ++ l' ≡ₚ live a ++ sl ++ l ->
  chain (links a') (sharedHead a') sl' -> holds (links a') c' l' ->
  shape a' sl' (<[t := l']> cs).
Proof.
  intros [Hnd Hm Hl Hc Hs Hcs] Ht Hfr Hm' Hcs' Hc' HP Hs' Hh.
  destruct (concat_split cs t l l' Ht) as [H1 H2]. fold (others cs t) in H1, H2.
  assert (HP' : live a' ++ sl' ++ concat (<[t := l']> cs) ≡ₚ live a ++ sl ++ concat cs).
  { rewrite H1, H2. trans ((live a' ++ sl' ++ l') ++ others cs t); [by rewrite <- !(assoc_L (++))|].
    rewrite HP. by rewrite <- !(assoc_L (++)). }
  constructor; [by rewrite HP'|by rewrite Hm', HP'|by rewrite Hm'|done|done|].
  rewrite Hcs'. apply Forall2_same_length_lookup_2.
  { rewrite !length_insert. by eapply Forall2_length. }
  intros i c k Hi Hk. apply list_lookup_insert_Some in Hi, Hk.
  destruct Hi as [(? & <- & _)|[Hne Hi]], Hk as [(? & <- & _)|[? Hk]]; try done.
  destruct (Forall2_lookup_lr _ _ _ _ _ _ Hcs Hi Hk) as [Hck Hlen]. split; [|done].
  apply Hfr; [|done]. intros x Hx. unfold others. apply list_elem_of_In, in_concat.
  exists k. split; [|by apply list_elem_of_In]. apply list_elem_of_In, elem_of_app.
  destruct (Nat.lt_total i t) as [|[|]]; [left|lia|right]; apply list_elem_of_lookup.
  - exists i. by rewrite lookup_take_lt.
  - exists (i - S t)%nat. rewrite lookup_drop. rewrite <- Hk. f_equal. lia.
Qed.

Lemma caches_lookup a sl cs t l :
  shape a sl cs -> cs !! t = Some l ->
  exists c, caches a !! t = Some c /\ holds (links a) c l.
Proof. intros Hs Ht. eapply Forall2_lookup_r in Ht; [|apply (sh_caches _ _ _ Hs)]. done. Qed.

(** The slots of the thread and the shared ones are not in other caches. *)
Lemma shape_disjoint a sl cs t l :
  shape a sl cs -> cs !! t = Some l ->
  NoDup (live a ++ sl ++ l ++ others cs t).
Proof.
  intros Hs Ht. pose proof (sh_nodup _ _ _ Hs) as Hnd.
  destruct (concat_split cs t l [] Ht) as [H _]. by rewrite H in Hnd.
Qed.

Lemma shape_short a sl cs t l :
  shape a sl cs -> cs !! t = Some l -> Z.of_nat (length sl + length l + length (live a)) < 2 ^ 64.
Proof.
  intros Hs Ht. pose proof (sh_len _ _ _ Hs) as Hl. rewrite (sh_mem _ _ _ Hs) in Hl.
  destruct (concat_split cs t l [] Ht) as [H _]. rewrite H, !length_app in Hl. lia.
Qed.

(** Rewriting the link of a slot of no other cache. *)
Lemma frame_others m q v (o : list ptr) p k :
  q ∉ o -> (forall x, x ∈ k -> x ∈ o) -> chain m p k -> chain (<[q := v]> m) p k.
Proof. intros Hq Hk. apply chain_frame. auto. Qed.

Lemma set_cache_eq a t c : caches a !! t = Some c -> set_cache a t c = a.
Proof. intros H. destruct a; unfold set_cache; simpl in *. by rewrite list_insert_id. Qed.

(** Membership facts from the absence of duplicates. *)
Ltac nodup :=
  repeat match goal with
  | H : NoDup (_ ++ _) |- _ => apply NoDup_app in H as (? & ? & ?)
  | H : NoDup (_ :: _) |- _ => apply NoDup_cons in H as [? ?]
  end; set_solver.

Ltac nodup_part H :=
  first [exact H | let H1 := fresh in let H2 := fresh in
    apply NoDup_app in H as (H1 & _ & H2); first [nodup_part H1 | nodup_part H2]].

(** [refill] moves a prefix of the shared list to an empty cache. *)
Lemma refill_shape a sl cs t c :
  shape a sl cs -> caches a !! t = Some c -> cs !! t = Some [] ->
  exists a' c' sl' l',
    refill a c = (a', c') /\ shape (set_cache a' t c') sl' (<[t := l']> cs) /\
    sl = l' ++ sl' /\ length l' = (length sl `min` BATCH)%nat /\
    mem a' = mem a /\ live a' = live a /\ caches a' = caches a.
Proof.
  intros Hs Hc Ht. destruct (caches_lookup _ _ _ _ _ Hs Ht) as (? & Hc' & Hh & Hn).
  simplify_eq/=. pose proof (shape_disjoint _ _ _ _ _ Hs Ht) as Hnd.
  pose proof (shape_short _ _ _ _ _ Hs Ht) as Hlen.
  pose proof (sh_shared _ _ _ Hs) as Hsl. unfold refill.
  destruct sl as [|x sl]; simpl in Hsl.
  { rewrite Hsl. exists a, c, [], []. rewrite set_cache_eq by done.
    rewrite list_insert_id by done. done. }
  destruct Hsl as [-> Hsl].
  rewrite (walk_spec _ _ _ (x :: sl)) by done.
  set (l' := take BATCH (x :: sl)). set (sl' := drop BATCH (x :: sl)).
  assert (Hsplit : x :: sl = l' ++ sl') by (symmetry; apply take_drop).
  assert (Hne : l' <> []) by done.
  destruct (exists_last Hne) as (l1 & tl & Htl). rewrite Htl, last_snoc. cbn [from_option].
  assert (Hmin : (length l' = length (x :: sl) `min` BATCH)%nat)
    by (unfold l'; by rewrite length_take, Nat.min_comm).
  rewrite <- Hmin. clearbody l' sl'.
  eexists _, _, sl', l'. split; [done|].
  rewrite Hsplit, Htl in Hnd. cbn [app] in Hnd.
  assert (Hch : chain (links a) (Some x) (l1 ++ tl :: sl')).
  { replace (l1 ++ tl :: sl') with (x :: sl) by (by rewrite Hsplit, Htl, <- (assoc_L (++))). done. }
  split_and!; try done.
  eapply (shape_update a (x :: sl) cs t [] _ sl' _ l'); simpl; try done.
  - intros p k. apply frame_others. nodup.
  - by apply (sh_count _ _ _ Hs).
  - rewrite app_nil_r, Hsplit. by rewrite (Permutation_app_comm l').
  - apply chain_frame; [nodup|]. apply chain_drop with (Some x) l'. by rewrite <- Hsplit.
  - split; simpl.
    + rewrite Hh, Htl. eapply (chain_splice _ _ _ _ sl' _ []); try done; [|set_solver].
      change (tl :: sl') with ([tl] ++ sl'). rewrite (assoc_L (++)). by nodup_part Hnd.
    + rewrite Hn, u64_small; lia.
Qed.

(** Taking the first slot of the cache. *)
Definition pop_cache (a : allocator) (t : nat) (c : cache) (slot : ptr) : allocator :=
  let a := set_cache a t (mk_cache (next_in (links a) slot) (u64 (count c - 1))) in
  mk_allocator (mem a) (links a) (sharedHead a) (caches a) (liveCount a + 1) (slot :: live a).

Lemma pop_shape a sl cs t c slot l :
  shape a sl cs -> caches a !! t = Some c -> cs !! t = Some (slot :: l) ->
  shape (pop_cache a t c slot) sl (<[t := l]> cs).
Proof.
  intros Hs Hc Ht. destruct (caches_lookup _ _ _ _ _ Hs Ht) as (? & Hc' & [_ Hch] & Hn).
  simplify_eq/=. pose proof (shape_short _ _ _ _ _ Hs Ht) as Hlen.
  eapply (shape_update a sl cs t (slot :: l)); try done; simpl.
  - rewrite (sh_count _ _ _ Hs). lia.
  - solve_Permutation.
  - apply (sh_shared _ _ _ Hs).
  - split; [done|]. simpl. rewrite Hn, u64_small; simpl in Hlen; lia.
Qed.

(** Putting a slot in front of the cache. *)
Definition push_cache (a : allocator) (t : nat) (c : cache) (slot : ptr) : allocator :=
  set_cache (mk_allocator (mem a) (<[slot := head c]> (links a)) (sharedHead a) (caches a)
               (liveCount a - 1) (filter (.≠ slot) (live a))) t
            (mk_cache (Some slot) (u64 (count c + 1))).

Lemma filter_absent (l : list ptr) x : x ∉ l -> filter (.≠ x) l = l.
Proof.
  induction l as [|y l IH]; [done|]. rewrite not_elem_of_cons. intros [? ?].
  rewrite filter_cons_True by auto. by rewrite IH.
Qed.

Lemma filter_one (l : list ptr) x : NoDup l -> x ∈ l -> l ≡ₚ x :: filter (.≠ x) l.
Proof.
  induction 1 as [|y l Hy Hl IH]; [by intros ?%not_elem_of_nil|]. intros Hx.
  destruct (decide (y = x)) as [->|Hne].
  - rewrite filter_cons_False by auto. by rewrite filter_absent.
  - rewrite filter_cons_True by done. rewrite IH at 1; [solve_Permutation|set_solver].
Qed.

Lemma push_shape a sl cs t c slot l :
  shape a sl cs -> caches a !! t = Some c -> cs !! t = Some l -> slot ∈ live a ->
  shape (push_cache a t c slot) sl (<[t := slot :: l]> cs).
Proof.
  intros Hs Hc Ht Hlive. destruct (caches_lookup _ _ _ _ _ Hs Ht) as (? & Hc' & Hch & Hn).
  simplify_eq/=. pose proof (shape_short _ _ _ _ _ Hs Ht) as Hlen.
  pose proof (shape_disjoint _ _ _ _ _ Hs Ht) as Hnd.
  assert (Hl : live a ≡ₚ slot :: filter (.≠ slot) (live a)) by (apply filter_one; [by nodup_part Hnd|done]).
  assert (Hlen' : length (live a) = S (length (filter (.≠ slot) (live a)))) by (by rewrite Hl at 1).
  eapply (shape_update a sl cs t l); try done; simpl.
  - intros p k. apply frame_others. nodup.
  - rewrite (sh_count _ _ _ Hs). lia.
  - rewrite Hl at 2. solve_Permutation.
  - apply chain_frame; [nodup|]. apply (sh_shared _ _ _ Hs).
  - split; simpl; [|rewrite Hn, u64_small; lia].
    split; [done|]. rewrite next_in_eq. apply chain_frame; [nodup|done].
Qed.

Lemma set_cache_twice a t c c' : set_cache (set_cache a t c) t c' = set_cache a t c'.
Proof. unfold set_cache; simpl. by rewrite list_insert_insert_eq. Qed.

(** [flush] keeps [BATCH] slots and gives the others back. *)
Lemma flush_shape a sl cs t c l :
  shape (set_cache a t c) sl cs -> (t < length (caches a))%nat -> cs !! t = Some l ->
  (BATCH < length l)%nat ->
  exists a' c' l1 l2,
    flush a c = Some (a', c') /\ shape (set_cache a' t c') (l1 ++ sl) (<[t := l2]> cs) /\
    l = l1 ++ l2 /\ length l2 = BATCH /\
    mem a' = mem a /\ live a' = live a /\ caches a' = caches a.
Proof.
  intros Hs Hlt Ht Hlen. destruct (caches_lookup _ _ _ _ _ Hs Ht) as (? & Hc' & Hch & Hn).
  simpl in Hc'. rewrite list_lookup_insert_eq in Hc' by done. injection Hc' as <-. simpl in Hch.
  pose proof (shape_disjoint _ _ _ _ _ Hs Ht) as Hnd.
  set (k := (length l - BATCH - 1)%nat).
  assert (exists x, l !! k = Some x) as [x Hx] by (apply lookup_lt_is_Some; lia).
  pose proof (take_drop_middle _ _ _ Hx) as Hl.
  set (l1 := take k l) in *. set (l2 := drop (S k) l) in *.
  assert (Hl1 : length l1 = k) by (unfold l1; rewrite length_take; lia).
  assert (Hl2 : length l2 = BATCH) by (unfold l2; rewrite length_drop; lia).
  clearbody l1 l2. rewrite <- Hl in Hnd, Hch, Ht.
  unfold flush. rewrite Hn. destruct (Z.leb_spec (Z.of_nat (length l)) (Z.of_nat BATCH)); [lia|].
  pose proof (chain_start _ _ _ Hch) as Hhd.
  destruct (head c) as [p|] eqn:Hp; [|by destruct l1]. cbn [mbind option_bind].
  replace (Z.to_nat (Z.of_nat (length l) - Z.of_nat BATCH) - 1)%nat with (length l1) by lia.
  rewrite (advance_spec (links a) p l1 x l2) by done. cbn [mbind option_bind].
  eexists _, _, (l1 ++ [x]), l2. rewrite <- !(assoc_L (++)). simpl.
  split; [done|]. split; [|by rewrite Hl].
  eapply (shape_update (set_cache a t c) sl cs t (l1 ++ x :: l2)); simpl; try done.
  - intros p' k'. apply frame_others. nodup.
  - by rewrite list_insert_insert_eq.
  - apply (sh_count _ _ _ Hs).
  - solve_Permutation.
  - apply (chain_splice _ _ _ _ l2); [by nodup_part Hnd| |done|apply (sh_shared _ _ _ Hs)].
    nodup.
  - split; simpl; [|by rewrite Hl2]. apply chain_frame; [nodup|]. by eapply chain_tail.
Qed.

(** ** The invariant and the operations *)

Definition small (l : list ptr) : Prop := (length l <= 2 * BATCH)%nat.

Definition inv (a : allocator) : Prop := exists sl cs, shape a sl cs /\ Forall small cs.

Lemma concat_bound (cs : list (list ptr)) :
  Forall small cs -> Z.of_nat (length (concat cs)) <= Z.of_nat (2 * BATCH) * Z.of_nat (length cs).
Proof.
  induction 1 as [|l cs Hl H IH]; cbn [concat length]; [lia|].
  rewrite length_app. unfold small, BATCH in *. lia.
Qed.

(** What the other threads can hold back. *)
Lemma others_bound a cs t :
  shape a [] cs -> Forall small cs -> cs !! t = Some [] ->
  Capacity a <= LiveCount a + Z.of_nat (2 * BATCH) * (Z.of_nat (length (caches a)) - 1).
Proof.
  intros Hs Hsm Ht. unfold Capacity, LiveCount.
  rewrite (sh_mem _ _ _ Hs), (sh_count _ _ _ Hs). destruct (concat_split cs t [] [] Ht) as [-> _].
  rewrite (Forall2_length _ _ _ (sh_caches _ _ _ Hs)). cbn [app].
  pose proof (lookup_lt_Some _ _ _ Ht) as Hlt.
  assert (Hsm' : Forall small (take t cs ++ drop (S t) cs))
    by (apply Forall_app; split; [by apply Forall_take|by apply Forall_drop]).
  apply concat_bound in Hsm'. rewrite !length_app, length_take, length_drop in Hsm'.
  rewrite length_app. unfold BATCH in *. simpl length in *. lia.
Qed.

Lemma small_insert cs t l : Forall small cs -> small l -> Forall small (<[t := l]> cs).
Proof. intros. by apply Forall_insert. Qed.

(** The thread's cache after [refill] where the code calls it. *)
Lemma Alloc_refilled a sl cs t c :
  shape a sl cs -> Forall small cs -> caches a !! t = Some c ->
  exists a' c' sl' l',
    (match head c with None => refill a c | Some _ => (a, c) end) = (a', c') /\
    shape (set_cache a' t c') sl' (<[t := l']> cs) /\ small l' /\ (l' = [] -> sl' = []) /\
    mem a' = mem a /\ live a' = live a /\ caches a' = caches a.
Proof.
  intros Hs Hsm Hc. destruct (Forall2_lookup_l _ _ _ _ _ (sh_caches _ _ _ Hs) Hc) as (l & Ht & Hch & _).
  destruct (head c) as [p|] eqn:Hp.
  - exists a, c, sl, l. rewrite set_cache_eq, list_insert_id by done.
    split_and!; try done; [by eapply Forall_lookup_1|intros ->]. by apply chain_start in Hch.
  - assert (l = []) as -> by (destruct l; [done|by destruct Hch]).
    destruct (refill_shape _ _ _ _ _ Hs Hc Ht) as (a' & c' & sl' & l' & -> & Hs' & -> & Hlen & ?).
    exists a', c', sl', l'. split_and!; try tauto; [unfold small; lia|]. intros ->.
    simpl in Hlen. destruct sl'; [done|simpl in Hlen; lia].
Qed.

Lemma Alloc_spec a t :
  inv a -> (t < length (caches a))%nat ->
  exists a' r, Alloc a t = Some (a', r) /\ inv a' /\ mem a' = mem a /\
    length (caches a') = length (caches a) /\
    match r with
    | Some p => p ∈ mem a /\ (p ∉ live a) /\ live a' = p :: live a
    | None => live a' = live a /\
        Capacity a <= LiveCount a + Z.of_nat (2 * BATCH) * (Z.of_nat (length (caches a)) - 1)
    end.
Proof.
  intros (sl & cs & Hs & Hsm) [c Hc]%lookup_lt_is_Some. unfold Alloc. rewrite Hc. cbn [mbind option_bind].
  destruct (Alloc_refilled _ _ _ _ _ Hs Hsm Hc) as (a1 & c1 & sl1 & l1 & -> & Hs1 & Hl1 & Hn1 & Hm & Hli & Hca).
  assert (Ht : <[t := l1]> cs !! t = Some l1).
  { apply list_lookup_insert_eq. rewrite <- (Forall2_length _ _ _ (sh_caches _ _ _ Hs)).
    by eapply lookup_lt_Some. }
  assert (Hc1 : caches (set_cache a1 t c1) !! t = Some c1).
  { simpl. apply list_lookup_insert_eq. rewrite Hca. by eapply lookup_lt_Some. }
  assert (Hsm1 : Forall small (<[t := l1]> cs)) by (by apply small_insert).
  destruct (caches_lookup _ _ _ _ _ Hs1 Ht) as (? & Hc1' & Hch & _). simplify_eq.
  rewrite (chain_start _ _ _ Hch). destruct l1 as [|slot l1]; simpl hd_error.
  - rewrite Hn1 in Hs1 by done. eexists _, _. split; [done|]. split; [by eexists _, _|].
    simpl. rewrite length_insert, Hca. split_and!; try done.
    pose proof (others_bound _ _ _ Hs1 Hsm1 Ht) as Hb. unfold Capacity, LiveCount in *.
    rewrite (sh_count _ _ _ Hs1), (sh_count _ _ _ Hs) in *. simpl in Hb.
    by rewrite length_insert, Hca, Hm, Hli in Hb.
  - eexists _, _. split; [done|]. simpl. rewrite length_insert, Hca, Hm, Hli.
    pose proof (shape_disjoint _ _ _ _ _ Hs1 Ht) as Hnd. simpl in Hnd. rewrite Hli in Hnd.
    split_and!; try done; [| |nodup].
    + exists sl1, (<[t := l1]> (<[t := slot :: l1]> cs)). split.
      * pose proof (pop_shape _ _ _ _ _ _ _ Hs1 Hc1 Ht) as Hp. unfold pop_cache in Hp.
        rewrite set_cache_twice in Hp.
        unfold set_cache in Hp. simpl in Hp. by rewrite Hm, Hli, Hca in Hp.
      * apply small_insert; [done|]. unfold small in *. simpl in *. lia.
    + rewrite <- Hm. destruct Hs1 as [_ Hmem _ _ _ _]. simpl in Hmem. rewrite Hmem.
      destruct (concat_split _ _ _ [] Ht) as [-> _]. set_solver.
Qed.

Lemma Free_spec a t slot :
  inv a -> (t < length (caches a))%nat -> slot ∈ live a ->
  exists a', Free a t slot = Some a' /\ inv a' /\ mem a' = mem a /\
    length (caches a') = length (caches a) /\ live a ≡ₚ slot :: live a'.
Proof.
  intros (sl & cs & Hs & Hsm) Hlt Hlive. pose proof Hlt as [c Hc]%lookup_lt_is_Some.
  unfold Free. rewrite Hc. cbn [mbind option_bind].
  destruct (Forall2_lookup_l _ _ _ _ _ (sh_caches _ _ _ Hs) Hc) as (l & Ht & Hl & Hn).
  pose proof (push_shape _ _ _ _ _ _ _ Hs Hc Ht Hlive) as Hp. unfold push_cache in Hp.
  pose proof (shape_short _ _ _ _ _ Hs Ht) as Hlen.
  assert (Hnd : NoDup (live a)) by (pose proof (sh_nodup _ _ _ Hs) as Hnd; by nodup_part Hnd).
  pose proof (filter_one _ _ Hnd Hlive) as Hfl.
  assert (Hcnt : u64 (count c + 1) = Z.of_nat (length (slot :: l))).
  { rewrite Hn, u64_small; simpl; [lia|]. apply Permutation_length in Hfl. simpl in Hfl. lia. }
  pose proof (proj1 (Forall_lookup _ _) Hsm _ _ Ht) as Hsl. unfold small in Hsl.
  cbn [count]. rewrite Hcnt. destruct (Z.ltb_spec (Z.of_nat (2 * BATCH)) (Z.of_nat (length (slot :: l)))).
  - assert (Ht' : <[t := slot :: l]> cs !! t = Some (slot :: l))
      by (apply list_lookup_insert_eq; by eapply lookup_lt_Some).
    rewrite Hcnt in Hp.
    destruct (flush_shape _ _ _ _ _ (slot :: l) Hp)
      as (a' & c' & l1 & l2 & -> & Hs' & _ & Hl2 & Hm & Hli & Hca); [done|exact Ht'|unfold BATCH in *; lia|].
    cbn [mbind option_bind]. eexists. split; [done|]. simpl in *. rewrite Hm, Hli, length_insert, Hca.
    split_and!; try done. exists (l1 ++ sl), (<[t := l2]> (<[t := slot :: l]> cs)).
    split; [done|]. rewrite list_insert_insert_eq. apply small_insert; [done|].
    unfold small, BATCH in *. lia.
  - rewrite Hcnt in Hp. eexists. split; [done|]. simpl. rewrite length_insert.
    split_and!; try done. exists sl, (<[t := slot :: l]> cs). split; [done|].
    apply small_insert; [done|]. unfold small. lia.
Qed.

Lemma link_all_spec slots m h l m' h' :
  NoDup (slots ++ l) -> chain m h l -> link_all slots m h = (m', h') -> chain m' h' (rev slots ++ l).
Proof.
  revert m h l. induction slots as [|s slots IH]; intros m h l Hnd Hc; simpl.
  { by intros [= <- <-]. }
  simpl in Hnd. intros H. rewrite <- (assoc_L (++)). simpl. apply NoDup_cons in Hnd as [Hn Hnd].
  eapply IH; [|apply chain_cons; [|exact Hc]|exact H].
  - rewrite <- Permutation_middle. by constructor.
  - set_solver.
Qed.

Lemma inv_make slots threads :
  NoDup slots -> Z.of_nat (length slots) < 2 ^ 64 -> inv (make slots threads).
Proof.
  intros Hnd Hlen. unfold make. destruct (link_all slots ∅ None) as [m h] eqn:E.
  assert (Hcc : concat (replicate threads ([] : list ptr)) = []) by (induction threads; auto).
  assert (Hr : rev slots ≡ₚ slots) by (symmetry; apply Permutation_rev).
  exists (rev slots), (replicate threads []). split.
  - constructor; simpl; rewrite ?Hcc, ?app_nil_r; [by rewrite Hr|by rewrite Hr|done|done| |].
    + rewrite <- (app_nil_r (rev slots)). eapply link_all_spec; [|by apply (eq_refl : chain ∅ None [])|done].
      by rewrite app_nil_r.
    + clear. induction threads; simpl; constructor; done.
  - apply Forall_replicate. unfold small. simpl. lia.
Qed.

Lemma inv_exec x a a' :
  inv a -> exec x a = Some a' ->
  inv a' /\ mem a' = mem a /\ length (caches a') = length (caches a).
Proof.
  intros Hi. destruct x as [t|t slot|slot v]; simpl.
  - intros He. assert (Hlt : (t < length (caches a))%nat).
    { apply lookup_lt_is_Some. unfold Alloc in He. destruct (caches a !! t); [by eexists|done]. }
    destruct (Alloc_spec _ _ Hi Hlt) as (a1 & r & HA & ? & ? & ? & _).
    rewrite HA in He. by simplify_eq/=.
  - case_decide as Hlive; [|done]. intros He. assert (Hlt : (t < length (caches a))%nat).
    { apply lookup_lt_is_Some. unfold Free in He. destruct (caches a !! t); [by eexists|done]. }
    destruct (Free_spec _ _ _ Hi Hlt Hlive) as (a1 & HF & ? & ? & ? & _). by simplify_eq.
  - case_decide as Hlive; [|done]. intros [= <-]. split; [|done].
    destruct Hi as (sl & cs & Hs & Hsm). exists sl, cs. split; [|done].
    pose proof (sh_nodup _ _ _ Hs) as Hnd. destruct Hs as [? ? ? ? Hsl Hcs].
    constructor; simpl; try done; [apply chain_frame; [nodup|done]|].
    apply Forall2_same_length_lookup_2; [by eapply Forall2_length|]. intros i c l Hi Hk.
    destruct (Forall2_lookup_lr _ _ _ _ _ _ Hcs Hi Hk) as [Hc Hn]. split; [|done].
    apply chain_frame; [|done]. destruct (concat_split cs i l [] Hk) as [Hp _]. rewrite Hp in Hnd.
    nodup.
Qed.

Lemma alloc_inv_run slots threads l a :
  NoDup slots -> Z.of_nat (length slots) < 2 ^ 64 ->
  run exec l (make slots threads) = Some a ->
  inv a /\ mem a = slots /\ length (caches a) = threads.
Proof.
  intros Hnd Hlen Hr.
  apply (reaches_invariant exec (fun a => inv a /\ mem a = slots /\ length (caches a) = threads)
           (make slots threads)).
  - intros x a1 a2 (Hi & <- & <-) Hx. by eapply inv_exec.
  - split; [by apply inv_make|]. unfold make. destruct (link_all slots ∅ None). simpl.
    by rewrite length_replicate.
  - by exists l.
Qed.

(** ** Properties *)

(** [C38] Whatever threads allocate, free the slots they hold and write through
    them (a free slot's link lives in the slot itself), [Alloc] returns a slot of
    the backing that nobody holds, or null; [Free] of a held slot succeeds
    without following a null link and takes it off the held ones exactly once;
    and [LiveCount] is the number of slots held. *)
Theorem allocator_hands_out_free_slots slots threads l a t :
  NoDup slots -> Z.of_nat (length slots) < 2 ^ 64 ->
  run exec l (make slots threads) = Some a -> (t < threads)%nat ->
  Capacity a = Z.of_nat (length slots) /\ LiveCount a = Z.of_nat (length (live a)) /\
  (exists a' r, Alloc a t = Some (a', r) /\
    match r with
    | Some p => p ∈ slots /\ (p ∉ live a) /\ live a' = p :: live a
    | None => live a' = live a
    end) /\
  (forall slot, slot ∈ live a ->
    exists a', Free a t slot = Some a' /\ live a ≡ₚ slot :: live a').
Proof.
  intros Hnd Hlen Hr Ht. destruct (alloc_inv_run _ _ _ _ Hnd Hlen Hr) as (Hi & Hm & Hc).
  rewrite <- Hc in Ht. split_and!.
  - unfold Capacity. by rewrite Hm.
  - destruct Hi as (sl & cs & Hs & _). apply (sh_count _ _ _ Hs).
  - destruct (Alloc_spec _ _ Hi Ht) as (a' & [p|] & HA & _ & _ & _ & H).
    + rewrite Hm in H. by exists a', (Some p).
    + exists a', None. tauto.
  - intros slot Hs. destruct (Free_spec _ _ _ Hi Ht Hs) as (a' & HF & _ & _ & _ & H). eauto.
Qed.

(** [Alloc] returns null only when the free slots are too few to fill the
    other threads' caches: with [n] threads it succeeds as long as more than
    [64 * (n - 1)] slots are free, wherever they were freed. *)
Theorem allocator_exhaustion slots threads l a t a' :
  NoDup slots -> Z.of_nat (length slots) < 2 ^ 64 ->
  run exec l (make slots threads) = Some a -> Alloc a t = Some (a', None) ->
  Capacity a - LiveCount a <= 64 * (Z.of_nat threads - 1).
Proof.
  intros Hnd Hlen Hr HA. destruct (alloc_inv_run _ _ _ _ Hnd Hlen Hr) as (Hi & Hm & Hc).
  assert (Ht : (t < length (caches a))%nat).
  { apply lookup_lt_is_Some. unfold Alloc in HA. destruct (caches a !! t); [by eexists|done]. }
  destruct (Alloc_spec _ _ Hi Ht) as (a1 & r & HA1 & _ & _ & _ & H). rewrite HA in HA1.
  injection HA1 as <- <-. destruct H as [_ H]. rewrite Hc in H. unfold BATCH in H. lia.
Qed.

(** Forty slots, two threads: thread 0 takes 33 (a refill of 32, then one of 8),
    scribbles on one and frees two; thread 1 frees one of thread 0's. *)
Definition slots40 : list ptr := Pos.of_nat <$> seq 1 40.
Definition run40 : list action :=
  replicate 33 (AAlloc 0) ++ [AWrite 9 (Some 77%positive); AFree 0 40; AFree 0 8; AFree 1 9].

Lemma allocator_hands_out_free_slots_witness :
  exists a a' r, run exec run40 (make slots40 2) = Some a /\
    LiveCount a = 30 /\ Alloc a 1 = Some (a', r) /\ r = Some 9%positive.
Proof.
  assert (Hf : (fun a => (LiveCount a, snd <$> Alloc a 1)) <$> run exec run40 (make slots40 2)
    = Some (30, Some (Some 9%positive))) by (vm_compute; reflexivity).
  destruct (run exec run40 (make slots40 2)) as [a|] eqn:E; [|discriminate Hf]. injection Hf as Hl Hr.
  assert (Hnd : NoDup slots40) by (apply (bool_decide_unpack _); vm_compute; exact I).
  assert (Hlen : Z.of_nat (length slots40) < 2 ^ 64) by (vm_compute; reflexivity).
  assert (Ht : (1 < 2)%nat) by lia.
  destruct (allocator_hands_out_free_slots slots40 2 run40 a 1 Hnd Hlen E Ht)
    as (_ & _ & (a' & r & HA & _) & _).
  exists a, a', r. rewrite HA in Hr. injection Hr as ->. auto.
Defined.

(** The bound is met: thread 0 takes 64 slots and frees them all; its cache is
    then full, nothing is held, and thread 1 gets null. *)
Definition slots64 : list ptr := Pos.of_nat <$> seq 1 64.
Definition hoard : list action :=
  replicate 64 (AAlloc 0) ++ ((fun i => AFree 0 (Pos.of_nat i)) <$> seq 1 64).

Lemma allocator_exhaustion_witness :
  exists a a', run exec hoard (make slots64 2) = Some a /\ Alloc a 1 = Some (a', None) /\
    Capacity a - LiveCount a = 64 /\ Capacity a - LiveCount a <= 64 * (2 - 1).
Proof.
  assert (Hf : (fun a => (Capacity a - LiveCount a, snd <$> Alloc a 1)) <$> run exec hoard (make slots64 2)
    = Some (64, Some None)) by (vm_compute; reflexivity).
  destruct (run exec hoard (make slots64 2)) as [a|] eqn:E; [|discriminate Hf]. injection Hf as Hl Hr.
  destruct (Alloc a 1) as [[a' [p|]]|] eqn:HA; [discriminate Hr| |discriminate Hr].
  exists a, a'. split; [reflexivity|]. split; [exact HA|]. split; [exact Hl|].
  apply (allocator_exhaustion slots64 2 hoard a 1 a'); [|vm_compute; reflexivity|exact E|exact HA].
  apply (bool_decide_unpack _); vm_compute; exact I.
Defined.
