(* ===== verification/Slots.v ===== *)
(** * What the allocator's clients rely on

    The class [SlotAllocator] states what [TaskAllocator] promises to the code that
    keeps its objects in slots: a slot is handed out to one holder, writing through
    a held slot and freeing it are safe, and [Alloc] fails only when few slots are
    left.  [TaskAllocator.v] is its instance; [DagMemory.v] is proved against the
    class. *)
From S2P Require Import Prelude TaskAllocator.

Class SlotAllocator (A : Type) := {
  sa_alloc : nat -> A -> option (A * option ptr);   (* None: no such thread *)
  sa_free : nat -> ptr -> A -> option A;            (* None: undefined *)
  sa_write : ptr -> option ptr -> A -> option A;    (* the first word of a slot; None: undefined *)
  sa_held : A -> list ptr;
  sa_capacity : A -> Z;
  sa_threads : A -> nat;
  sa_ok : A -> Prop;
  sa_nodup a : sa_ok a -> NoDup (sa_held a);
  sa_address a p : sa_ok a -> p ∈ sa_held a -> Z.pos p < 2 ^ 64;
  sa_alloc_ok a t : sa_ok a -> (t < sa_threads a)%nat -> exists a' r,
    sa_alloc t a = Some (a', r) /\ sa_ok a' /\ sa_capacity a' = sa_capacity a /\ sa_threads a' = sa_threads a /\
    match r with
    | Some p => (p ∉ sa_held a) /\ sa_held a' = p :: sa_held a
    | None => sa_held a' = sa_held a /\
        sa_capacity a - Z.of_nat (length (sa_held a)) <= 64 * (Z.of_nat (sa_threads a) - 1)
    end;
  sa_free_ok a t p : sa_ok a -> (t < sa_threads a)%nat -> p ∈ sa_held a -> exists a',
    sa_free t p a = Some a' /\ sa_ok a' /\ sa_capacity a' = sa_capacity a /\ sa_threads a' = sa_threads a /\
    sa_held a ≡ₚ p :: sa_held a';
  sa_write_ok a p v : sa_ok a -> p ∈ sa_held a -> exists a',
    sa_write p v a = Some a' /\ sa_ok a' /\ sa_capacity a' = sa_capacity a /\ sa_threads a' = sa_threads a /\
    sa_held a' = sa_held a
}.

(** The addresses of the backing vector are words. *)
Definition addressed (a : allocator) : Prop := Forall (fun p => Z.pos p < 2 ^ 64) (mem a).

Lemma live_in_mem a p : inv a -> p ∈ live a -> p ∈ mem a.
Proof. intros (sl & cs & Hs & _) Hp. rewrite (sh_mem _ _ _ Hs). apply elem_of_app. by left. Qed.

Lemma live_length a : inv a -> LiveCount a = Z.of_nat (length (live a)).
Proof. intros (sl & cs & Hs & _). apply (sh_count _ _ _ Hs). Qed.

#[global] Program Instance task_allocator : SlotAllocator allocator := {|
  sa_alloc t a := Alloc a t;
  sa_free t p a := exec (AFree t p) a;
  sa_write p v a := exec (AWrite p v) a;
  sa_held := live;
  sa_capacity := Capacity;
  sa_threads a := length (caches a);
  sa_ok a := inv a /\ addressed a
|}.
Next Obligation. intros a [(sl & cs & Hs & _) _]. pose proof (sh_nodup _ _ _ Hs) as H. by apply NoDup_app in H as [? _]. Qed.
Next Obligation. intros a p [Hi Ha] Hp. unfold addressed in Ha. rewrite Forall_forall in Ha. by apply Ha, live_in_mem. Qed.
Next Obligation.
  intros a t [Hi Ha] Ht. destruct (Alloc_spec a t Hi Ht) as (a' & r & HA & Hi' & Hm & Hc & Hr).
  exists a', r. unfold Capacity, addressed in *. rewrite Hm. split_and!; try done. destruct r; [tauto|].
  destruct Hr as [Hl Hb]. split; [done|]. rewrite (live_length a Hi) in Hb. unfold BATCH in Hb. lia.
Qed.
Next Obligation.
  intros a t p [Hi Ha] Ht Hp. destruct (Free_spec a t p Hi Ht Hp) as (a' & HF & Hi' & Hm & Hc & Hl).
  exists a'. unfold Capacity, addressed in *. simpl. rewrite decide_True by done. by rewrite Hm.
Qed.
Next Obligation.
  intros a p v [Hi Ha] Hp. eexists. simpl. rewrite decide_True by done. split; [done|].
  destruct (inv_exec (AWrite p v) a _ Hi (decide_True _ _ Hp)) as (Hi' & _). by split_and!.
Qed.

Lemma make_ok slots threads :
  NoDup slots -> Z.of_nat (length slots) < 2 ^ 64 -> Forall (fun p => Z.pos p < 2 ^ 64) slots ->
  sa_ok (make slots threads) /\ sa_held (make slots threads) = [] /\ sa_threads (make slots threads) = threads.
Proof.
  intros Hn Hl Ha. pose proof (inv_make slots threads Hn Hl) as Hi. unfold sa_ok, sa_held, sa_threads, task_allocator, addressed.
  unfold make in *. destruct (link_all slots ∅ None). split_and!; try done. apply length_replicate.
Qed.
