(* ===== verification/TaskCanary.v ===== *)
(** * The debug build of the slab allocator ([_DEBUG] in [include/TaskAllocator.h])

    The second word of a free slot holds a canary, which [Alloc] checks.  The debug
    build keeps the promises of [SlotAllocator]: with correct clients the check
    never fires.  A slot whose canary was overwritten while it was free is never
    handed out. *)
From S2P Require Import Prelude TaskAllocator Slots.

Definition kFreeCanary : Z := 0xFEEDFACECAFEBEEF.

(** [canary] is bytes 8 to 15 of every slot, of whatever use; the first word is in
    [links (base d)]. *)
Record debug := mk_debug { base : allocator; canary : gmap ptr Z }.

Definition StampCanary (slot : ptr) (m : gmap ptr Z) : gmap ptr Z := <[slot := kFreeCanary]> m.
(** [false]: it stops the program. *)
Definition CheckCanary (slot : ptr) (m : gmap ptr Z) : bool := bool_decide (m !! slot = Some kFreeCanary).

(** The constructor stamps every slot. *)
Definition debug_make (slots : list ptr) (threads : nat) : debug :=
  mk_debug (make slots threads) (foldr StampCanary ∅ slots).

(** [Alloc]; [None] also when the check stops the program. *)
Definition debug_Alloc (d : debug) (t : nat) : option (debug * option ptr) :=
  '(a, r) ← Alloc (base d) t;
  match r with
  | Some slot => if CheckCanary slot (canary d) then Some (mk_debug a (canary d), r) else None
  | None => Some (mk_debug a (canary d), r)
  end.

Definition debug_Free (d : debug) (t : nat) (slot : ptr) : option debug :=
  a ← Free (base d) t slot; Some (mk_debug a (StampCanary slot (canary d))).

(** Whoever holds a slot writes both words. *)
Inductive debug_action :=
  | DAlloc (t : nat)
  | DFree (t : nat) (slot : ptr)
  | DWrite (slot : ptr) (v : option ptr) (w : Z).

Definition debug_exec (x : debug_action) (d : debug) : option debug :=
  match x with
  | DAlloc t => fst <$> debug_Alloc d t
  | DFree t slot => if decide (slot ∈ live (base d)) then debug_Free d t slot else None
  | DWrite slot v w => a ← exec (AWrite slot v) (base d); Some (mk_debug a (<[slot := w]> (canary d)))
  end.

(** ** The promises of the class *)

(** Free slots carry the canary. *)
Definition stamped (d : debug) : Prop := forall p, p ∈ mem (base d) -> p ∉ live (base d) -> canary d !! p = Some kFreeCanary.

Lemma debug_Alloc_spec d t : sa_ok (base d) -> stamped d -> (t < sa_threads (base d))%nat -> exists d' r,
  debug_Alloc d t = Some (d', r) /\ Alloc (base d) t = Some (base d', r) /\ stamped d'.
Proof.
  intros [Hi Ha] Hst Ht. destruct (Alloc_spec (base d) t Hi Ht) as (a' & r & HA & _ & Hm & _ & Hr).
  unfold debug_Alloc, CheckCanary. rewrite HA. cbn [mbind option_bind]. destruct r as [p|].
  - destruct Hr as (Hp & Hnl & Hl). rewrite bool_decide_true by (by apply Hst). do 2 eexists. split_and!; try done.
    intros q. cbn [base canary]. rewrite Hm, Hl, not_elem_of_cons. intros Hq [_ Hq']. by apply Hst.
  - destruct Hr as [Hl _]. do 2 eexists. split_and!; try done. intros q. cbn [base canary]. rewrite Hm, Hl. apply Hst.
Qed.

Lemma debug_Free_spec d t p : sa_ok (base d) -> stamped d -> (t < sa_threads (base d))%nat -> p ∈ live (base d) -> exists d',
  debug_Free d t p = Some d' /\ Free (base d) t p = Some (base d') /\ stamped d'.
Proof.
  intros [Hi Ha] Hst Ht Hp. destruct (Free_spec (base d) t p Hi Ht Hp) as (a' & HF & _ & Hm & _ & Hl).
  unfold debug_Free. rewrite HF. eexists. split_and!; [done..|]. intros q. cbn [base canary]. rewrite Hm. unfold StampCanary.
  intros Hq Hq'. apply lookup_insert_Some. destruct (decide (p = q)) as [->|Hne]; [by left|right]. split; [done|].
  apply Hst; [done|]. rewrite Hl. by intros [?|?]%elem_of_cons.
Qed.

Lemma debug_write_ok d p v w : sa_ok (base d) -> stamped d -> p ∈ live (base d) -> exists d',
  debug_exec (DWrite p v w) d = Some d' /\ exec (AWrite p v) (base d) = Some (base d') /\ stamped d'.
Proof.
  intros _ Hst Hp. cbn. rewrite decide_True by done. eexists. split_and!; [done..|]. intros q. cbn. intros Hq Hq'.
  rewrite lookup_insert_ne by (by intros ->). by apply Hst.
Qed.

Section Instance_.
(** What holders write to the second word, given what they write to the first. *)
Context (second : option ptr -> Z).

#[global] Program Instance debug_allocator : SlotAllocator debug := {|
  sa_alloc t d := debug_Alloc d t;
  sa_free t p d := debug_exec (DFree t p) d;
  sa_write p v d := debug_exec (DWrite p v (second v)) d;
  sa_held d := live (base d);
  sa_capacity d := Capacity (base d);
  sa_threads d := length (caches (base d));
  sa_ok d := sa_ok (base d) /\ stamped d
|}.
Next Obligation. intros d [Ho _]. exact (sa_nodup (base d) Ho). Qed.
Next Obligation. intros d p [Ho _]. exact (sa_address (base d) p Ho). Qed.
Next Obligation.
  intros d t [Ho Hst] Ht. destruct (debug_Alloc_spec d t Ho Hst Ht) as (d' & r & HD & HA & Hst').
  destruct (sa_alloc_ok (base d) t Ho Ht) as (a' & r' & HA' & H). cbn in HA'. rewrite HA in HA'. injection HA' as <- <-.
  exists d', r. destruct H as (H1 & H2 & H3 & H4). exact (conj HD (conj (conj H1 Hst') (conj H2 (conj H3 H4)))).
Qed.
Next Obligation.
  intros d t p [Ho Hst] Ht Hp. destruct (debug_Free_spec d t p Ho Hst Ht Hp) as (d' & HD & HA & Hst').
  destruct (sa_free_ok (base d) t p Ho Ht Hp) as (a' & HA' & H). cbn in HA'. rewrite decide_True in HA' by done.
  rewrite HA in HA'. injection HA' as <-. exists d'. cbn. rewrite decide_True by done. destruct H as (H1 & H2 & H3 & H4).
  exact (conj HD (conj (conj H1 Hst') (conj H2 (conj H3 H4)))).
Qed.
Next Obligation.
  intros d p v [Ho Hst] Hp. destruct (debug_write_ok d p v (second v) Ho Hst Hp) as (d' & HD & HA & Hst').
  destruct (sa_write_ok (base d) p v Ho Hp) as (a' & HA' & H). change (sa_write p v (base d)) with (exec (AWrite p v) (base d)) in HA'.
  rewrite HA in HA'. injection HA' as <-. exists d'. destruct H as (H1 & H2 & H3 & H4).
  exact (conj HD (conj (conj H1 Hst') (conj H2 (conj H3 H4)))).
Qed.
End Instance_.

Lemma foldr_stamp slots p : p ∈ slots -> foldr StampCanary ∅ slots !! p = Some kFreeCanary.
Proof.
  induction slots as [|q l IH]; [by intros ?%not_elem_of_nil|]. cbn. unfold StampCanary at 1. intros [->|Hp]%elem_of_cons.
  - by rewrite lookup_insert_eq.
  - apply lookup_insert_Some. destruct (decide (q = p)); [by left|right; auto].
Qed.

(** ** Properties *)

Definition erase (x : debug_action) : action :=
  match x with DAlloc t => AAlloc t | DFree t p => AFree t p | DWrite p v _ => AWrite p v end.

Definition debug_ok (d : debug) : Prop := sa_ok (base d) /\ stamped d.

Lemma debug_make_ok slots threads : NoDup slots -> Z.of_nat (length slots) < 2 ^ 64 -> Forall (fun p => Z.pos p < 2 ^ 64) slots ->
  debug_ok (debug_make slots threads).
Proof.
  intros Hn Hl Ha. destruct (make_ok slots threads Hn Hl Ha) as (Ho & _ & _). split; [exact Ho|]. intros p. cbn [base debug_make canary].
  unfold make. destruct (link_all slots ∅ None). cbn. intros Hp _. by apply foldr_stamp.
Qed.

Lemma no_thread (a : allocator) t : ~ (t < length (caches a))%nat -> caches a !! t = None.
Proof. intros H. apply lookup_ge_None. lia. Qed.

(** An action of the debug build is the action of the release build. *)
Lemma debug_erases x d : debug_ok d -> base <$> debug_exec x d = exec (erase x) (base d) /\
  forall d', debug_exec x d = Some d' -> debug_ok d'.
Proof.
  intros [Ho Hst]. assert (Hok : forall a, exec (erase x) (base d) = Some a -> sa_ok a).
  { intros a Ha. destruct Ho as [Hi Had]. destruct (inv_exec _ _ _ Hi Ha) as (Hi' & Hm & _). split; [done|]. unfold addressed. by rewrite Hm. }
  assert (Hfin : forall d1, debug_exec x d = Some d1 -> exec (erase x) (base d) = Some (base d1) -> stamped d1 ->
    base <$> debug_exec x d = exec (erase x) (base d) /\ forall d', debug_exec x d = Some d' -> debug_ok d').
  { intros d1 -> E Hs. split; [done|]. intros d' [= <-]. split; [by apply Hok|done]. }
  assert (Hnone : debug_exec x d = None -> exec (erase x) (base d) = None ->
    base <$> debug_exec x d = exec (erase x) (base d) /\ forall d', debug_exec x d = Some d' -> debug_ok d').
  { intros -> ->. by split. }
  destruct x as [t|t p|p v w]; cbn [debug_exec erase exec] in *.
  - destruct (decide (t < length (caches (base d)))%nat) as [Ht|Ht%no_thread].
    + destruct (debug_Alloc_spec d t Ho Hst Ht) as (d1 & r & HD & HA & Hs). apply (Hfin d1); [by rewrite HD|by rewrite HA|done].
    + apply Hnone; unfold debug_Alloc, Alloc; by rewrite Ht.
  - case_decide as Hp; [|by apply Hnone]. destruct (decide (t < length (caches (base d)))%nat) as [Ht|Ht%no_thread].
    + destruct (debug_Free_spec d t p Ho Hst Ht Hp) as (d1 & HD & HA & Hs). by apply (Hfin d1).
    + apply Hnone; unfold debug_Free, Free; by rewrite Ht.
  - destruct (decide (p ∈ live (base d))) as [Hp|Hp]; [|by apply Hnone].
    destruct (debug_write_ok d p v w Ho Hst Hp) as (d1 & HD & HA & Hs). cbn [debug_exec exec] in HD, HA.
    rewrite decide_True in HD, HA by done. by apply (Hfin d1).
Qed.

(** [C39] With clients that free and write only what they hold, the debug build is
    the release build: it makes the same runs, whatever the clients write, so the
    check of the canary never stops the program. *)
Theorem debug_build_is_release_build slots threads l :
  NoDup slots -> Z.of_nat (length slots) < 2 ^ 64 -> Forall (fun p => Z.pos p < 2 ^ 64) slots ->
  base <$> run debug_exec l (debug_make slots threads) = run exec (erase <$> l) (make slots threads).
Proof.
  intros Hn Hl Ha. pose proof (debug_make_ok slots threads Hn Hl Ha) as Hok.
  change (make slots threads) with (base (debug_make slots threads)). revert Hok. generalize (debug_make slots threads).
  induction l as [|x l IH]; intros d Hok; [done|]. cbn [fmap list_fmap run]. destruct (debug_erases x d Hok) as [He Hk]. rewrite <- He.
  destruct (debug_exec x d) as [d1|]; [|done]. cbn. by apply IH, Hk.
Qed.

(** What a call does to the slots in use, of any state whatever. *)
Lemma refill_live a c a' c' : refill a c = (a', c') -> live a' = live a.
Proof.
  unfold refill. destruct (sharedHead a); [|by intros [= <- _]]. destruct (walk _ _ _ _ _) as [[? [?|]] ?]; by intros [= <- _].
Qed.

Lemma Alloc_live a t a' r : Alloc a t = Some (a', r) -> live a' = option_list r ++ live a.
Proof.
  unfold Alloc. destruct (caches a !! t) as [c|]; [|done]. cbn [mbind option_bind].
  destruct (match head c with None => refill a c | Some _ => (a, c) end) as [a1 c1] eqn:E.
  assert (Hl : live a1 = live a) by (destruct (head c); [by injection E as <- _|by eapply refill_live]).
  destruct (head c1); intros [= <- <-]; cbn; by rewrite Hl.
Qed.

Lemma Free_live a t p a' : Free a t p = Some a' -> live a' = filter (.≠ p) (live a).
Proof.
  unfold Free. destruct (caches a !! t) as [c|]; [|done]. cbn [mbind option_bind]. destruct (_ <? _); [|by intros [= <-]].
  unfold flush. destruct (_ <=? _); [by intros [= <-]|]. cbn [head mbind option_bind]. destruct (advance _ _ _); [|done]. by intros [= <-].
Qed.

Lemma Alloc_head a t c p : caches a !! t = Some c -> head c = Some p -> exists a', Alloc a t = Some (a', Some p).
Proof. intros Ht Hh. unfold Alloc. rewrite Ht. cbn [mbind option_bind]. rewrite Hh. cbn [mbind option_bind]. rewrite Hh. eauto. Qed.

(** [p] is free, and its canary is gone. *)
Definition clobbered (p : ptr) (d : debug) : Prop := (p ∉ live (base d)) /\ canary d !! p <> Some kFreeCanary.

Lemma clobbered_exec p x d d' : clobbered p d -> debug_exec x d = Some d' -> clobbered p d'.
Proof.
  intros [Hp Hc]. destruct x as [t|t q|q v w]; cbn [debug_exec].
  - unfold debug_Alloc, CheckCanary. destruct (Alloc (base d) t) as [[a r]|] eqn:E; [|done]. cbn [mbind option_bind].
    destruct r as [q|]; [case_bool_decide as Hq; [|done]|]; intros [= <-]; (split; [|done]); cbn [base];
      rewrite (Alloc_live _ _ _ _ E); [|done]. intros [->|?]%elem_of_cons; congruence.
  - case_decide as Hq; [|done]. unfold debug_Free, StampCanary. destruct (Free (base d) t q) as [a|] eqn:E; [|done].
    intros [= <-]. split; cbn [base canary]; [|by rewrite lookup_insert_ne by (by intros ->)].
    rewrite (Free_live _ _ _ _ E). by intros [_ ?]%list_elem_of_filter.
  - cbn. case_decide as Hq; [|done]. intros [= <-]. split; cbn [base canary live]; [done|by rewrite lookup_insert_ne by (by intros ->)].
Qed.

(** A slot whose canary was overwritten while it was free is never handed out
    again, whatever the clients do: the [Alloc] that reaches it stops the program. *)
Theorem canary_catches_use_after_free d p :
  clobbered p d ->
  (forall d', reaches debug_exec d d' -> clobbered p d') /\
  forall t c, caches (base d) !! t = Some c -> head c = Some p -> debug_Alloc d t = None.
Proof.
  intros Hc. split.
  - intros d' Hr. apply (reaches_invariant debug_exec (clobbered p) d d'); [|done|done]. intros x d1 d2. apply clobbered_exec.
  - intros t c Ht Hh. unfold debug_Alloc, CheckCanary. destruct (Alloc_head _ _ _ _ Ht Hh) as [a ->]. cbn.
    rewrite bool_decide_false; [done|apply Hc].
Qed.

(** *** Concrete runs *)

Definition slots2 : list ptr := [1; 2]%positive.

(** A slot is used, freed, and used again, with its second word overwritten. *)
Definition reuse : list debug_action := [DAlloc 0; DWrite 2 None 5; DFree 0 2; DAlloc 0; DWrite 2 (Some 9%positive) 6; DAlloc 0].

Lemma debug_build_is_release_build_witness :
  exists a, run exec (erase <$> reuse) (make slots2 1) = Some a /\ live a = [1; 2]%positive /\
    base <$> run debug_exec reuse (debug_make slots2 1) = Some a.
Proof.
  assert (Hf : live <$> run exec (erase <$> reuse) (make slots2 1) = Some [1; 2]%positive) by (vm_compute; reflexivity).
  destruct (run exec (erase <$> reuse) (make slots2 1)) as [a|] eqn:E; [|discriminate Hf]. injection Hf as Hf.
  exists a. split; [reflexivity|]. split; [exact Hf|].
  rewrite (debug_build_is_release_build slots2 1 reuse); [exact E|apply (bool_decide_unpack _); vm_compute; exact I|vm_compute; reflexivity|].
  repeat constructor; vm_compute; reflexivity.
Defined.

(** A slot freed twice: [Alloc] hands it to a holder that constructs a task in it,
    and the next [Alloc], which would hand it out again, stops. *)
Example double_free_caught :
  (d ← debug_exec (DAlloc 0) (debug_make slots2 1);
   d ← debug_Free d 0 2%positive; d ← debug_Free d 0 2%positive;
   '(d, r) ← debug_Alloc d 0; d ← debug_exec (DWrite 2%positive None 7) d;
   Some (r, bool_decide (debug_Alloc d 0 = None))) = Some (Some 2%positive, true).
Proof. vm_compute. reflexivity. Qed.

Lemma canary_catches_use_after_free_witness :
  exists d, debug_exec (DAlloc 0) (debug_make slots2 1) = Some d /\
    forall d', reaches debug_exec (mk_debug (base d) (<[1%positive := 5]> (canary d))) d' -> 1%positive ∉ live (base d').
Proof.
  assert (Hf : (fun d => live (base d)) <$> debug_exec (DAlloc 0) (debug_make slots2 1) = Some [2%positive]) by (vm_compute; reflexivity).
  destruct (debug_exec (DAlloc 0) (debug_make slots2 1)) as [d|]; [|discriminate Hf]. injection Hf as Hf.
  exists d. split; [reflexivity|]. intros d' Hr. apply (canary_catches_use_after_free _ 1%positive) in Hr; [exact (proj1 Hr)|].
  split; cbn [base canary]; [rewrite Hf; apply (bool_decide_unpack _); vm_compute; exact I|].
  rewrite lookup_insert_eq. discriminate.
Defined.
