(* ===== verification/TaskMPSCQueue.v ===== *)
(** * The intrusive multi-producer single-consumer queue
      ([include/TaskMPSCQueue.h])

    Nodes are tasks; the link of a node is its [next] field, here a map from
    nodes to links shared by every queue.  First the methods as they run without
    interference, then the interleaved machine: any number of producers and one
    consumer, one access to a shared location per step.  (A node's first store of
    null is one step with the [exchange] that publishes it: until then nobody
    else reaches the node.) *)
From S2P Require Import Prelude.

(** [Task::next] of every task. *)
Abbreviation heap := (gmap ptr (option ptr)).

Definition next_of (h : heap) (p : ptr) : option ptr := h !! p ≫= id.

Record queue := mk_queue { head_ : ptr; tail_ : ptr; stub_ : ptr }.

(** [init] with [mem] the slot of the stub. *)
Definition init (h : heap) (mem : ptr) : heap * queue :=
  (<[mem := None]> h, mk_queue mem mem mem).

Definition append (h : heap) (q : queue) (n : ptr) : heap * queue :=
  let h := <[n := None]> h in
  let prev := head_ q in
  (<[prev := Some n]> h, mk_queue n (tail_ q) (stub_ q)).

Definition push (h : heap) (q : queue) (task : ptr) : heap * queue := append h q task.

Definition push_batch (h : heap) (q : queue) (head_batch tail_batch : ptr) : heap * queue :=
  let h := <[tail_batch := None]> h in
  let prev := head_ q in
  (<[prev := Some head_batch]> h, mk_queue tail_batch (tail_ q) (stub_ q)).

Definition set_tail (q : queue) (t : ptr) : queue := mk_queue (head_ q) t (stub_ q).

(** [pop] from its second null test on, with [tail] and [next] loaded. *)
Definition pop_tail (h : heap) (q : queue) (tail : ptr) (next : option ptr)
    : heap * queue * option ptr :=
  match next with
  | Some n => (h, set_tail q n, Some tail)
  | None =>
      if decide (tail <> head_ q) then (h, q, None)
      else
        let '(h, q) := append h q (stub_ q) in
        match next_of h tail with
        | Some n => (h, set_tail q n, Some tail)
        | None => (h, q, None)
        end
  end.

Definition pop (h : heap) (q : queue) : heap * queue * option ptr :=
  let tail := tail_ q in
  let next := next_of h tail in
  if decide (tail = stub_ q) then
    match next with
    | None => (h, q, None)
    | Some n => pop_tail h (set_tail q n) n (next_of h n)
    end
  else pop_tail h q tail next.

(** [clear]: [fuel] bounds the loop. *)
Fixpoint clear (fuel : nat) (h : heap) (q : queue) : heap * queue :=
  match fuel with
  | O => (h, q)
  | S fuel => match pop h q with
              | (h, q, Some _) => clear fuel h q
              | (h, q, None) => (h, q)
              end
  end.

Definition empty (h : heap) (q : queue) : bool :=
  bool_decide (tail_ q = stub_ q) && bool_decide (next_of h (tail_ q) = None).

(** ** Producers and the consumer, interleaved *)

(** The consumer: idle, or before the access named by the constructor. *)
Inductive pop_pc :=
  | PIdle
  | PNext (tail : ptr)                 (* tail->next *)
  | PSkipped (tail : ptr)              (* next->next, the stub having been skipped *)
  | PHead (tail : ptr)                 (* head_ *)
  | PAppend (tail : ptr)               (* append(stub_): the exchange *)
  | PLink (tail prev : ptr)            (* append(stub_): prev->next *)
  | PAgain (tail : ptr)                (* tail->next, after the append *)
  | PRet (out : option ptr).

(** [pending]: a producer between its exchange and its store: the node it got
    and the node it links there.  [nodes], [pushed], [popped] are history: the
    nodes from [tail_] to [head_] in exchange order, the tasks published and the
    tasks taken. *)
Record state := mk_state {
  links : heap;
  q : queue;
  pending : list (ptr * ptr);
  pc : pop_pc;
  nodes : list ptr;
  pushed : list ptr;
  popped : list ptr
}.

Definition make (h : heap) (mem : ptr) : state :=
  let '(h, q) := init h mem in mk_state h q [] PIdle [mem] [] [].

Inductive action :=
  | APush (task : ptr)
  | APushBatch (tasks : list ptr)      (* already linked to each other *)
  | ALink (prev n : ptr)
  | APop
  | AStep
  | ARet.

(** Consecutive nodes. *)
Definition consec (l : list ptr) : list (ptr * ptr) := zip l (tl l).

(** The first half of [push_batch(hd, tl)] (of [push] when they are one node). *)
Definition publish (s : state) (tasks : list ptr) (hd tl : ptr) : state :=
  mk_state (<[tl := None]> (links s)) (mk_queue tl (tail_ (q s)) (stub_ (q s)))
    ((head_ (q s), hd) :: pending s) (pc s)
    (nodes s ++ tasks) (pushed s ++ tasks) (popped s).

Definition set_pc (s : state) (c : pop_pc) : state :=
  mk_state (links s) (q s) (pending s) c (nodes s) (pushed s) (popped s).

(** [tail_ = next], leaving [tail] behind. *)
Definition advance_tail (s : state) (n : ptr) (c : pop_pc) (out : list ptr) : state :=
  mk_state (links s) (set_tail (q s) n) (pending s) c (tl (nodes s)) (pushed s) (popped s ++ out).

Definition pop_step (s : state) : option state :=
  match pc s with
  | PNext tail =>
      let next := next_of (links s) tail in
      if decide (tail = stub_ (q s)) then
        match next with
        | None => Some (set_pc s (PRet None))
        | Some n => Some (advance_tail s n (PSkipped n) [])
        end
      else match next with
        | Some n => Some (advance_tail s n (PRet (Some tail)) [tail])
        | None => Some (set_pc s (PHead tail))
        end
  | PSkipped tail | PAgain tail =>
      match next_of (links s) tail with
      | Some n => Some (advance_tail s n (PRet (Some tail)) [tail])
      | None => match pc s with
                | PAgain _ => Some (set_pc s (PRet None))
                | _ => Some (set_pc s (PHead tail))
                end
      end
  | PHead tail =>
      if decide (tail <> head_ (q s)) then Some (set_pc s (PRet None))
      else Some (set_pc s (PAppend tail))
  | PAppend tail =>
      let stub := stub_ (q s) in
      Some (mk_state (<[stub := None]> (links s)) (mk_queue stub (tail_ (q s)) stub)
              (pending s) (PLink tail (head_ (q s))) (nodes s ++ [stub]) (pushed s) (popped s))
  | PLink tail prev =>
      Some (mk_state (<[prev := Some (stub_ (q s))]> (links s)) (q s) (pending s) (PAgain tail)
              (nodes s) (pushed s) (popped s))
  | PIdle | PRet _ => None
  end.

(** Producers push tasks that are in no queue. *)
Definition fresh (s : state) (tasks : list ptr) : Prop :=
  NoDup (stub_ (q s) :: tasks) /\ Forall (fun t => t ∉ nodes s) tasks.
#[global] Instance fresh_dec s tasks : Decision (fresh s tasks) := _.

Definition exec (a : action) (s : state) : option state :=
  match a with
  | APush t => if decide (fresh s [t]) then Some (publish s [t] t t) else None
  | APushBatch tasks =>
      match tasks, last tasks with
      | hd :: _, Some tl =>
          if decide (fresh s tasks /\
                     Forall (fun xy => next_of (links s) xy.1 = Some xy.2) (consec tasks))
          then Some (publish s tasks hd tl) else None
      | _, _ => None
      end
  | ALink prev n =>
      if decide ((prev, n) ∈ pending s)
      then Some (mk_state (<[prev := Some n]> (links s)) (q s) (filter (.≠ (prev, n)) (pending s))
                   (pc s) (nodes s) (pushed s) (popped s))
      else None
  | APop => match pc s with PIdle => Some (set_pc s (PNext (tail_ (q s)))) | _ => None end
  | AStep => pop_step s
  | ARet => match pc s with PRet _ => Some (set_pc s PIdle) | _ => None end
  end.

(** ** Chains of nodes *)

Lemma consec_cons x y l : consec (x :: y :: l) = (x, y) :: consec (y :: l).
Proof. done. Qed.

Lemma consec_join l x n r :
  consec (l ++ x :: n :: r) = consec (l ++ [x]) ++ (x, n) :: consec (n :: r).
Proof.
  induction l as [|z l IH]; [done|].
  destruct l as [|w l]; [done|]. simpl app in *. rewrite !consec_cons, IH. done.
Qed.

Lemma consec_in l x y : (x, y) ∈ consec l -> x ∈ l /\ y ∈ l.
Proof.
  intros Hxy. split; [by eapply elem_of_zip_l|].
  apply elem_of_zip_r in Hxy. destruct l; [done|by right].
Qed.

Lemma consec_not_last l x y z : NoDup l -> last l = Some z -> (x, y) ∈ consec l -> x <> z.
Proof.
  induction l as [|a [|b l] IH]; intros Hnd Hl Hxy; [by apply not_elem_of_nil in Hxy..|].
  rewrite consec_cons in Hxy. apply NoDup_cons in Hnd as [Ha Hnd]. simpl in Hl.
  apply elem_of_cons in Hxy as [[= -> ->]|Hxy]; [|by apply IH].
  intros ->. apply Ha. by apply last_Some_elem_of.
Qed.

Lemma consec_fun l x y y' : NoDup l -> (x, y) ∈ consec l -> (x, y') ∈ consec l -> y = y'.
Proof.
  induction l as [|a [|b l] IH]; intros Hnd H1 H2; [by apply not_elem_of_nil in H1..|].
  rewrite consec_cons in *. apply NoDup_cons in Hnd as [Ha Hnd].
  apply elem_of_cons in H1 as [[= -> ->]|H1]; apply elem_of_cons in H2 as [[= ->]|H2]; try done.
  - by destruct Ha; apply consec_in in H2 as [? _].
  - by destruct Ha; apply consec_in in H1 as [? _].
  - by apply IH.
Qed.

Lemma next_eq h p v : next_of (<[p := v]> h) p = v.
Proof. unfold next_of. by rewrite lookup_insert_eq. Qed.
Lemma next_ne h p p' v : p <> p' -> next_of (<[p := v]> h) p' = next_of h p'.
Proof. intros. unfold next_of. by rewrite lookup_insert_ne. Qed.

(** The nodes [l], each linked to the next one unless the link is pending. *)
Definition linked (h : heap) (pend : list (ptr * ptr)) (x y : ptr) : Prop :=
  (next_of h x = Some y /\ ((x, y) ∉ pend)) \/ (next_of h x = None /\ (x, y) ∈ pend).

Record chain (h : heap) (pend : list (ptr * ptr)) (l : list ptr) : Prop := mk_chain {
  ch_nodup : NoDup l;
  ch_links : forall x y, (x, y) ∈ consec l -> linked h pend x y;
  ch_last : forall x, last l = Some x -> next_of h x = None;
  ch_pend : forall x y, (x, y) ∈ pend -> (x, y) ∈ consec l
}.

Lemma last_snoc_split (l : list ptr) x : last l = Some x -> exists l0, l = l0 ++ [x].
Proof. intros [l0 ->]%last_Some. by exists l0. Qed.

(** An exchange by the batch [ns], whose inner links are in place. *)
Lemma chain_publish h pend l x hd ns tl :
  chain h pend l -> last l = Some x ->
  last (hd :: ns) = Some tl -> NoDup (hd :: ns) -> (forall y, y ∈ hd :: ns -> y ∉ l) ->
  (forall y z, (y, z) ∈ consec (hd :: ns) -> next_of h y = Some z) ->
  chain (<[tl := None]> h) ((x, hd) :: pend) (l ++ hd :: ns).
Proof.
  intros [Hnd Hln Hla Hp] Hx Htl Hns Hd Hin.
  apply last_snoc_split in Hx as [l0 ->]. rewrite <- (assoc_L (++)). simpl.
  assert (Htl' : tl ∈ hd :: ns) by by apply last_Some_elem_of.
  assert (Hc : forall y z, (y, z) ∈ consec (l0 ++ x :: hd :: ns) <->
    (y, z) ∈ consec (l0 ++ [x]) \/ (y, z) = (x, hd) \/ (y, z) ∈ consec (hd :: ns)).
  { intros. rewrite consec_join, elem_of_app, elem_of_cons. tauto. }
  assert (Hpl : forall y z, (y, z) ∈ pend -> y ∈ l0 ++ [x] /\ z ∈ l0 ++ [x])
    by (intros; by apply consec_in, Hp).
  constructor.
  - change (x :: hd :: ns) with ([x] ++ hd :: ns). rewrite (assoc_L (++)).
    apply NoDup_app. split_and!; try done. intros y Hy Hy'. by apply (Hd y).
  - intros y z [H|[[= -> ->]|H]]%Hc.
    + destruct (consec_in _ _ _ H) as [Hy Hz].
      assert (tl <> y) by (intros ->; by apply (Hd y)).
      unfold linked. rewrite next_ne by done. rewrite not_elem_of_cons, elem_of_cons.
      assert ((y, z) <> (x, hd)) by (intros [= -> ->]; apply (Hd hd); [by left|done]).
      destruct (Hln _ _ H) as [[? ?]|[? ?]]; [left|right]; tauto.
    + right. split; [|by left]. rewrite next_ne; [apply Hla, last_snoc|].
      intros ->. apply (Hd x); [done|]. apply elem_of_app. right. by left.
    + left. destruct (consec_in _ _ _ H) as [Hy Hz].
      rewrite next_ne by (intros ->; by eapply (consec_not_last _ _ _ y); [..|exact H|]).
      split; [by apply Hin|]. intros [[= -> ->]|Hpe]%elem_of_cons.
      * apply (Hd x); [done|]. apply elem_of_app. right. by left.
      * apply Hpl in Hpe as [? _]. by apply (Hd y).
  - intros y Hy. replace (l0 ++ x :: hd :: ns) with ((l0 ++ [x]) ++ hd :: ns) in Hy
      by (by rewrite <- (assoc_L (++))).
    rewrite last_app, Htl in Hy. injection Hy as <-. apply next_eq.
  - intros y z [[= -> ->]|H]%elem_of_cons; apply Hc; [by right; left|left; by apply Hp].
Qed.

(** A pending link is stored. *)
Lemma chain_link h pend l x y pend' :
  chain h pend l -> (x, y) ∈ pend ->
  (forall a b, (a, b) ∈ pend' <-> (a, b) ∈ pend /\ (a, b) <> (x, y)) ->
  chain (<[x := Some y]> h) pend' l.
Proof.
  intros [Hnd Hln Hla Hp] Hxy Hp'. constructor; [done| | |].
  - intros a b Hab. unfold linked. destruct (decide (x = a)) as [<-|Hne].
    + rewrite (consec_fun l x b y) by auto. rewrite next_eq. left. split; [done|].
      intros [_ ?]%Hp'. done.
    + rewrite next_ne by done. destruct (Hln _ _ Hab) as [[? Hn]|[? ?]]; [left|right]; split; try done.
      * intros [? _]%Hp'. done.
      * apply Hp'. split; [done|congruence].
  - intros z Hz. rewrite next_ne; [auto|]. by eapply consec_not_last; eauto.
  - intros a b [H _]%Hp'. auto.
Qed.

(** The first node is left behind. *)
Lemma chain_advance h pend t l n :
  chain h pend (t :: l) -> next_of h t = Some n ->
  chain h pend l /\ exists r, l = n :: r.
Proof.
  intros [Hnd Hln Hla Hp] Hn. destruct l as [|m r].
  { by rewrite (Hla t) in Hn. }
  rewrite consec_cons in *.
  destruct (Hln t m) as [[Hm Hnp]|[Hm _]]; [by left| |congruence].
  rewrite Hn in Hm. injection Hm as <-. split; [|by exists r]. constructor.
  - by apply NoDup_cons in Hnd as [_ Hnd].
  - intros x y Hxy. apply Hln. by right.
  - intros x Hx. apply Hla. done.
  - intros x y Hxy. pose proof (Hp _ _ Hxy) as [[= -> ->]|?]%elem_of_cons; done.
Qed.

Lemma chain_singleton h pend t l :
  chain h pend (t :: l) -> last (t :: l) = Some t -> l = [].
Proof.
  intros [Hnd _ _ _] Hl. destruct l as [|m r]; [done|].
  apply NoDup_cons in Hnd as [Hn _]. destruct Hn. by apply last_Some_elem_of.
Qed.

(** Without pending links a node has no next one exactly when it is the last. *)
Lemma chain_next_none h t l : chain h [] (t :: l) -> next_of h t = None -> l = [].
Proof.
  intros Hc Hn. destruct l as [|m r]; [done|].
  destruct (ch_links _ _ _ Hc t m) as [[? _]|[_ ?]]; [by left|congruence|set_solver].
Qed.

Lemma chain_append h pend l x n pend' :
  chain h pend l -> last l = Some x -> n ∉ l ->
  (forall a b, (a, b) ∈ pend' <-> (a, b) ∈ (x, n) :: pend) ->
  chain (<[n := None]> h) pend' (l ++ [n]).
Proof.
  intros Hc Hx Hn Hp.
  assert (H : chain (<[n := None]> h) ((x, n) :: pend) (l ++ [n])).
  { apply chain_publish; try done.
    - apply NoDup_singleton.
    - by intros y ->%list_elem_of_singleton.
    - by intros y z ?%not_elem_of_nil. }
  destruct H as [H1 H2 H3 H4]. constructor; [done| |done|].
  - intros a b Hab. unfold linked. rewrite (Hp a b). by apply H2.
  - intros a b Hab. apply H4. by apply Hp.
Qed.

(** ** The methods without interference *)

(** [q] holds the tasks [l], oldest first; [nodes] are the tasks and perhaps the
    stub. *)
Definition repr_with (h : heap) (q : queue) (nodes l : list ptr) : Prop :=
  chain h [] nodes /\ hd_error nodes = Some (tail_ q) /\ last nodes = Some (head_ q) /\
  l = filter (.≠ stub_ q) nodes.
Definition repr (h : heap) (q : queue) (l : list ptr) : Prop := exists nodes, repr_with h q nodes l.

Lemma repr_fresh h q nodes l t : repr_with h q nodes l -> t <> stub_ q -> t ∉ l -> t ∉ nodes.
Proof. intros (_ & _ & _ & ->) Ht Hl Hn. apply Hl. by apply list_elem_of_filter. Qed.

Lemma append_spec h q nodes l n :
  repr_with h q nodes l -> n ∉ nodes ->
  exists h' q', append h q n = (h', q') /\ repr_with h' q' (nodes ++ [n]) (l ++ filter (.≠ stub_ q) [n]) /\
    stub_ q' = stub_ q /\ tail_ q' = tail_ q.
Proof.
  intros (Hc & Hh & Hl & ->) Hn. eexists _, _. split; [done|]. unfold repr_with; split_and!; try done; simpl.
  - eapply (chain_link _ [(head_ q, n)]); [|by left|].
    + eapply chain_append; [exact Hc|done|done|done].
    + intros a b. rewrite elem_of_cons. split; [by intros ?%not_elem_of_nil|].
      intros [[?|?] ?]; done.
  - destruct nodes; [done|]. by simpl in *.
  - apply last_snoc.
  - by rewrite filter_app.
Qed.

Lemma pop_tail_spec h q nodes l :
  repr_with h q nodes l -> tail_ q <> stub_ q ->
  match l with
  | [] => False
  | t :: l => exists h' q', pop_tail h q (tail_ q) (next_of h (tail_ q)) = (h', q', Some t) /\
      repr h' q' l /\ stub_ q' = stub_ q
  end.
Proof.
  intros Hr Hne. pose proof Hr as (Hc & Hh & Hl & ->). destruct nodes as [|t nodes]; [done|].
  injection Hh as Ht. rewrite <- Ht in *.
  rewrite filter_cons_True by done. unfold pop_tail.
  destruct (next_of h t) as [n|] eqn:Hn.
  - destruct (chain_advance _ _ _ _ _ Hc Hn) as [Hc' [r ->]].
    eexists _, _. split; [done|]. split; [|done]. by exists (n :: r).
  - pose proof (chain_next_none _ _ _ Hc Hn) as ->. injection Hl as Hl.
    rewrite decide_False by (by rewrite Hl; intros []).
    destruct (append_spec h q [t] (filter (.≠ stub_ q) [t]) (stub_ q)) as (h' & q' & -> & Hr' & Hs & Htl);
      [done|set_solver|].
    destruct Hr' as (Hc' & Hh' & Hl' & _). simpl in Hc', Hl'.
    destruct (ch_links _ _ _ Hc' t (stub_ q)) as [[-> _]|[_ ?]]; [by left| |set_solver].
    eexists _, _. split; [done|]. split; [|done]. exists [stub_ q].
    destruct (chain_advance _ _ _ _ (stub_ q) Hc') as [Hc'' _].
    { destruct (ch_links _ _ _ Hc' t (stub_ q)) as [[? _]|[_ ?]]; [by left|done|set_solver]. }
    unfold repr_with; split_and!; try done. simpl. rewrite Hs. by rewrite filter_cons_False by auto.
Qed.

Lemma pop_spec h q l :
  repr h q l ->
  exists h' q', pop h q = (h', q', hd_error l) /\ repr h' q' (tl l) /\ stub_ q' = stub_ q.
Proof.
  intros [nodes Hr]. unfold pop. case_decide as Hs.
  - pose proof Hr as (Hc & Hh & Hl & ->). destruct nodes as [|t nodes]; [done|].
    injection Hh as Ht. rewrite filter_cons_False by congruence.
    destruct (next_of h (tail_ q)) as [n|] eqn:Hn; rewrite <- Ht in Hn.
    + destruct (chain_advance _ _ _ _ _ Hc Hn) as [Hc' [r ->]].
      assert (n <> stub_ q) by (intros ->; pose proof (ch_nodup _ _ _ Hc) as Hnd; rewrite Ht, Hs in Hnd;
        apply NoDup_cons in Hnd as [Hnd _]; apply Hnd; by left).
      pose proof (pop_tail_spec h (set_tail q n) (n :: r) (filter (.≠ stub_ q) (n :: r))) as Hp.
      rewrite filter_cons_True in * by done. simpl in Hp. simpl.
      destruct Hp as (h' & q' & -> & ? & ?); [by unfold repr_with; split_and!; try rewrite filter_cons_True|done|].
      by eexists _, _.
    + pose proof (chain_next_none _ _ _ Hc Hn) as ->. eexists _, _. split; [done|]. split; [|done].
      exists [t]. unfold repr_with; split_and!; try done; [by rewrite Ht|].
      by rewrite filter_cons_False by congruence.
  - pose proof (pop_tail_spec _ _ _ _ Hr Hs) as Hp. destruct l as [|t l]; [done|].
    destruct Hp as (h' & q' & -> & ? & ?). by eexists _, _.
Qed.

(** ** The interleaved machine *)

(** The consumer's own link while it is inside [append(stub_)]. *)
Definition own_link (s : state) : list (ptr * ptr) :=
  match pc s with PLink _ prev => [(prev, stub_ (q s))] | _ => [] end.
Definition all_pending (s : state) : list (ptr * ptr) := own_link s ++ pending s.

Definition pc_ok (s : state) : Prop :=
  match pc s with
  | PIdle | PRet _ => True
  | PNext t => t = tail_ (q s)
  | PSkipped t | PHead t | PLink t _ | PAgain t => t = tail_ (q s) /\ t <> stub_ (q s)
  | PAppend t => t = tail_ (q s) /\ t <> stub_ (q s) /\ (stub_ (q s) ∉ nodes s)
  end.

Definition contents (s : state) : list ptr := filter (.≠ stub_ (q s)) (nodes s).

Record inv (s : state) : Prop := mk_inv {
  inv_chain : chain (links s) (all_pending s) (nodes s);
  inv_hd : hd_error (nodes s) = Some (tail_ (q s));
  inv_last : last (nodes s) = Some (head_ (q s));
  inv_hist : pushed s = popped s ++ contents s;
  inv_foreign : Forall (fun xy => xy.2 <> stub_ (q s)) (pending s);
  inv_pc : pc_ok s
}.

Lemma mpsc_publish_inv s hd ns tl :
  inv s -> fresh s (hd :: ns) -> last (hd :: ns) = Some tl ->
  (forall y z, (y, z) ∈ consec (hd :: ns) -> next_of (links s) y = Some z) ->
  inv (publish s (hd :: ns) hd tl).
Proof.
  intros [Hc Hh Hl Hi Hf Hp] [[Hst Hnd]%NoDup_cons Hd] Htl Hin.
  assert (Hd' : forall y, y ∈ hd :: ns -> y ∉ nodes s) by (by apply Forall_forall).
  pose proof (chain_publish _ _ _ _ _ _ _ Hc Hl Htl Hnd Hd' Hin) as Hc'.
  assert (Hm : forall ab, ab ∈ all_pending (publish s (hd :: ns) hd tl) <->
                          ab ∈ (head_ (q s), hd) :: all_pending s).
  { intros ab. unfold all_pending, own_link. simpl. rewrite !elem_of_app, !elem_of_cons, elem_of_app. tauto. }
  constructor; simpl.
  - destruct Hc' as [H1 H2 H3 H4]. constructor; [done| |done|].
    + intros x y Hxy. unfold linked. rewrite Hm. by apply H2.
    + intros x y Hxy. apply H4. by apply Hm.
  - destruct (nodes s); [done|]. by simpl in *.
  - by rewrite last_app, Htl.
  - unfold contents in *. simpl. rewrite filter_app, (assoc_L (++)), <- Hi. f_equal. symmetry.
    clear -Hst. induction (hd :: ns) as [|y l IH]; [done|].
    apply not_elem_of_cons in Hst as [? ?]. rewrite filter_cons_True by auto. by rewrite IH.
  - constructor; [|done]. simpl. intros ->. apply Hst. by left.
  - unfold pc_ok in *. simpl. destruct (pc s); try tauto. destruct Hp as (? & ? & ?).
    split_and!; try done. rewrite elem_of_app. tauto.
Qed.

Lemma mpsc_link_inv s x y :
  inv s -> (x, y) ∈ pending s ->
  inv (mk_state (<[x := Some y]> (links s)) (q s) (filter (.≠ (x, y)) (pending s)) (pc s)
         (nodes s) (pushed s) (popped s)).
Proof.
  intros [Hc Hh Hl Hi Hf Hp] Hxy. constructor; try done; simpl.
  - eapply chain_link; [exact Hc| |].
    + apply elem_of_app. by right.
    + intros a b. unfold all_pending, own_link; simpl. rewrite !elem_of_app, list_elem_of_filter.
      enough ((a, b) ∈ match pc s with PLink _ prev => [(prev, stub_ (q s))] | _ => [] end ->
              (a, b) <> (x, y)) by tauto.
      destruct (pc s); try by intros ?%not_elem_of_nil. intros [= -> ->]%list_elem_of_singleton [= <- <-].
      rewrite Forall_forall in Hf. by apply (Hf _ Hxy).
  - rewrite Forall_forall in *. intros ab [_ ?]%list_elem_of_filter. auto.
Qed.

(** [tail_ = next]. *)
Lemma inv_advance s n c out :
  inv s -> next_of (links s) (tail_ (q s)) = Some n -> own_link s = [] ->
  out = filter (.≠ stub_ (q s)) [tail_ (q s)] ->
  own_link (advance_tail s n c out) = [] ->
  (n <> tail_ (q s) -> pc_ok (advance_tail s n c out)) ->
  inv (advance_tail s n c out).
Proof.
  intros [Hc Hh Hl Hi Hf Hp] Hn Ho Hout Ho' Hpc.
  destruct (nodes s) as [|t l] eqn:En; [done|]. injection Hh as Ht. rewrite <- Ht in *.
  destruct (chain_advance _ _ _ _ _ Hc Hn) as [Hc' [r Hr]].
  constructor; unfold all_pending in *; rewrite ?Ho', ?Ho in *; cbn [nodes advance_tail]; rewrite ?En; simpl; try done.
  - by rewrite Hr.
  - rewrite Hr in *. done.
  - unfold contents in *. simpl. rewrite En in Hi |- *. simpl tl. rewrite Hi, Hout, <- (assoc_L (++)).
    f_equal. change (t :: l) with ([t] ++ l). by rewrite filter_app.
  - apply Hpc. intros ->. subst l. pose proof (ch_nodup _ _ _ Hc) as [Hnd _]%NoDup_cons.
    apply Hnd. by left.
Qed.

Lemma inv_set_pc s c :
  inv s -> own_link s = [] -> own_link (set_pc s c) = [] -> pc_ok (set_pc s c) -> inv (set_pc s c).
Proof.
  intros [Hc Hh Hl Hi Hf Hp] Ho Ho' Hpc. constructor; try done.
  unfold all_pending in *. rewrite Ho' . by rewrite Ho in Hc.
Qed.

Lemma mpsc_pop_step_inv s s' : inv s -> pop_step s = Some s' -> inv s'.
Proof.
  intros Hi. pose proof Hi as [Hc Hh Hl Hhist Hf Hp]. unfold pop_step, pc_ok, own_link in *.
  destruct (pc s) as [|t|t|t|t|t prev|t|out] eqn:E; try done.
  - subst t. case_decide as Hs; destruct (next_of (links s) (tail_ (q s))) as [n|] eqn:Hn; intros [= <-].
    + apply inv_advance; unfold own_link, pc_ok; simpl; rewrite ?E; try done; [by rewrite filter_cons_False by auto|].
      intros ?. split; [done|]. by rewrite <- Hs.
    + apply inv_set_pc; unfold own_link, pc_ok; simpl; by rewrite ?E.
    + apply inv_advance; unfold own_link, pc_ok; simpl; rewrite ?E; try done. by rewrite filter_cons_True.
    + apply inv_set_pc; unfold own_link, pc_ok; simpl; by rewrite ?E.
  - destruct Hp as [-> Hs]. destruct (next_of (links s) (tail_ (q s))) as [n|] eqn:Hn; intros [= <-].
    + apply inv_advance; unfold own_link, pc_ok; simpl; rewrite ?E; try done. by rewrite filter_cons_True.
    + apply inv_set_pc; unfold own_link, pc_ok; simpl; by rewrite ?E.
  - destruct Hp as [-> Hs]. case_decide as Hne; intros [= <-].
    + apply inv_set_pc; unfold own_link, pc_ok; simpl; by rewrite ?E.
    + apply inv_set_pc; unfold own_link, pc_ok; simpl; rewrite ?E; try done. split_and!; try done.
      destruct (nodes s) as [|t l]; [done|]. injection Hh as ->.
      rewrite <- Hne in Hl. rewrite (chain_singleton _ _ _ _ Hc Hl). by intros ?%list_elem_of_singleton.
  - destruct Hp as (-> & Hs & Hns). intros [= <-]. constructor; simpl; try done.
    + eapply chain_append; [exact Hc|done|done|]. intros a b.
      unfold all_pending, own_link; simpl. by rewrite E.
    + destruct (nodes s); [done|]. by simpl in *.
    + apply last_snoc.
    + unfold contents in *. simpl. rewrite filter_app, filter_cons_False by auto. by rewrite app_nil_r.
  - destruct Hp as (-> & Hs). intros [= <-]. constructor; simpl; try done.
    eapply chain_link; [exact Hc| |].
    + unfold all_pending, own_link. rewrite E. by left.
    + intros a b. unfold all_pending, own_link; simpl. rewrite E. simpl.
      rewrite elem_of_cons. rewrite Forall_forall in Hf. split; [|tauto].
      intros Hab. split; [by right|]. intros [= -> ->]. by apply (Hf _ Hab).
  - destruct Hp as [-> Hs]. destruct (next_of (links s) (tail_ (q s))) as [n|] eqn:Hn; intros [= <-].
    + apply inv_advance; unfold own_link, pc_ok; simpl; rewrite ?E; try done. by rewrite filter_cons_True.
    + apply inv_set_pc; unfold own_link, pc_ok; simpl; by rewrite ?E.
Qed.

Lemma mpsc_inv_make h mem : inv (make h mem).
Proof.
  constructor; try done; simpl.
  - constructor; unfold all_pending; simpl.
    + apply NoDup_singleton.
    + by intros x y ?%not_elem_of_nil.
    + intros x [= <-]. apply next_eq.
    + by intros x y ?%not_elem_of_nil.
  - unfold contents. simpl. by rewrite filter_cons_False by auto.
Qed.

Lemma mpsc_inv_exec a s s' : inv s -> exec a s = Some s' -> inv s'.
Proof.
  intros Hi. destruct a as [t|ts|x y| | |]; simpl.
  - case_decide as Hf; [|done]. intros [= <-]. apply mpsc_publish_inv; try done.
    by intros y z ?%not_elem_of_nil.
  - destruct ts as [|hd ns]; [done|]. destruct (last (hd :: ns)) as [tl|] eqn:El; [|done].
    case_decide as Hf; [|done]. destruct Hf as [Hf Hl]. intros [= <-]. apply mpsc_publish_inv; try done.
    intros y z Hyz. rewrite Forall_forall in Hl. by apply (Hl (y, z)).
  - case_decide; [|done]. intros [= <-]. by apply mpsc_link_inv.
  - destruct (pc s) eqn:E; try done. intros [= <-].
    apply inv_set_pc; unfold own_link, pc_ok; simpl; by rewrite ?E.
  - by apply mpsc_pop_step_inv.
  - destruct (pc s) eqn:E; try done. intros [= <-].
    apply inv_set_pc; unfold own_link, pc_ok; simpl; by rewrite ?E.
Qed.

Lemma mpsc_inv_run h mem l s : run exec l (make h mem) = Some s -> inv s.
Proof.
  intros Hr. eapply (reaches_invariant exec inv); [|apply (mpsc_inv_make h mem)|by exists l].
  intros. by eapply mpsc_inv_exec.
Qed.

Lemma solo_pop_tail s tail :
  (pc s = PSkipped tail \/ (pc s = PNext tail /\ tail <> stub_ (q s))) ->
  exists k s', (k <= 6)%nat /\ run exec (replicate k AStep) s = Some s' /\
    exists out, pc s' = PRet out /\
      pop_tail (links s) (q s) tail (next_of (links s) tail) = (links s', q s', out).
Proof.
  intros Hpc.
  assert (H1 : pop_step s = match next_of (links s) tail with
    | Some n => Some (advance_tail s n (PRet (Some tail)) [tail])
    | None => Some (set_pc s (PHead tail)) end).
  { unfold pop_step. destruct Hpc as [->|[-> Hne]]; [done|]. by rewrite decide_False. }
  unfold pop_tail. destruct (next_of (links s) tail) as [n|] eqn:Hn.
  { exists 1%nat, (advance_tail s n (PRet (Some tail)) [tail]). split; [lia|]. simpl. rewrite H1.
    split; [done|]. by eexists. }
  destruct (decide (tail <> head_ (q s))) as [Hne|He].
  { exists 2%nat, (set_pc (set_pc s (PHead tail)) (PRet None)). split; [lia|]. simpl. rewrite H1.
    cbn [mbind option_bind pop_step set_pc pc q]. rewrite decide_True by done. split; [done|]. by eexists. }
  set (s4 := mk_state (<[head_ (q s) := Some (stub_ (q s))]> (<[stub_ (q s) := None]> (links s)))
               (mk_queue (stub_ (q s)) (tail_ (q s)) (stub_ (q s))) (pending s) (PAgain tail)
               (nodes s ++ [stub_ (q s)]) (pushed s) (popped s)).
  assert (H4 : run exec (replicate 4 AStep) s = Some s4).
  { simpl. rewrite H1. cbn [mbind option_bind pop_step set_pc pc q]. by rewrite decide_False by done. }
  cbn [append]. destruct (next_of (links s4) tail) as [n|] eqn:Hn4.
  - exists 5%nat, (advance_tail s4 n (PRet (Some tail)) [tail]). split; [lia|].
    change (replicate 5 AStep) with (replicate 4 AStep ++ [AStep]). rewrite run_app, H4.
    cbn. unfold s4 in Hn4. cbn [links] in Hn4. rewrite Hn4. split; [done|]. by eexists.
  - exists 5%nat, (set_pc s4 (PRet None)). split; [lia|].
    change (replicate 5 AStep) with (replicate 4 AStep ++ [AStep]). rewrite run_app, H4.
    cbn. unfold s4 in Hn4. cbn [links] in Hn4. rewrite Hn4. split; [done|]. by eexists.
Qed.

(** [pop] is what the consumer's steps do when no producer takes one. *)
Lemma mpsc_solo_pop s :
  pc s = PIdle ->
  exists k s' out, (k <= 7)%nat /\ run exec (APop :: replicate k AStep) s = Some s' /\
    pc s' = PRet out /\ pop (links s) (q s) = (links s', q s', out).
Proof.
  intros Hpc. set (s1 := set_pc s (PNext (tail_ (q s)))).
  assert (H1 : forall k, run exec (APop :: replicate k AStep) s = run exec (replicate k AStep) s1)
    by (intros k; simpl; by rewrite Hpc).
  unfold pop. case_decide as Hs.
  - destruct (next_of (links s) (tail_ (q s))) as [n|] eqn:Hn.
    + set (s2 := advance_tail s1 n (PSkipped n) []).
      destruct (solo_pop_tail s2 n) as (k & s' & Hk & Hr & out & Hpc' & Hp); [by left|].
      exists (S k), s', out. split; [lia|]. split; [|done]. rewrite H1. simpl.
      unfold pop_step; simpl. rewrite decide_True, Hn by done. exact Hr.
    + exists 1%nat, (set_pc s1 (PRet None)), None. split; [lia|]. rewrite H1. simpl.
      unfold pop_step; simpl. by rewrite decide_True, Hn by done.
  - destruct (solo_pop_tail s1 (tail_ (q s))) as (k & s' & Hk & Hr & out & Hpc' & Hp); [by right|].
    exists k, s', out. rewrite H1. split; [lia|]. done.
Qed.

Lemma inv_repr s : inv s -> pending s = [] -> pc s = PIdle -> repr (links s) (q s) (contents s).
Proof.
  intros [Hc Hh Hl Hi Hf Hp] H0 Hpc. exists (nodes s). unfold repr_with. split_and!; try done.
  unfold all_pending, own_link in Hc. by rewrite Hpc, H0 in Hc.
Qed.

Lemma clear_spec fuel h q l :
  repr h q l -> (length l < fuel)%nat ->
  exists h' q', clear fuel h q = (h', q') /\ repr h' q' [] /\ stub_ q' = stub_ q.
Proof.
  revert h q l. induction fuel as [|fuel IH]; intros h q l Hr Hf; [lia|]. simpl.
  destruct (pop_spec _ _ _ Hr) as (h1 & q1 & -> & Hr1 & Hs). destruct l as [|t l]; simpl in *.
  - by eexists _, _.
  - destruct (IH h1 q1 l Hr1) as (h2 & q2 & -> & ? & ?); [lia|]. eexists _, _. split_and!; try done. congruence.
Qed.

Lemma push_batch_spec h q l hd ns tl :
  repr h q l -> last (hd :: ns) = Some tl -> NoDup (stub_ q :: hd :: ns) ->
  (forall y, y ∈ hd :: ns -> y ∉ l) ->
  (forall y z, (y, z) ∈ consec (hd :: ns) -> next_of h y = Some z) ->
  exists h' q', push_batch h q hd tl = (h', q') /\ repr h' q' (l ++ hd :: ns) /\ stub_ q' = stub_ q.
Proof.
  intros [nodes Hr] Htl [Hst Hnd]%NoDup_cons Hd Hin.
  assert (Hd' : forall y, y ∈ hd :: ns -> y ∉ nodes).
  { intros y Hy. eapply repr_fresh; [exact Hr| |by apply Hd]. by intros ->. }
  destruct Hr as (Hc & Hh & Hl & ->). eexists _, _. split; [done|]. split; [|done].
  exists (nodes ++ hd :: ns). unfold repr_with. split_and!; simpl.
  - eapply (chain_link _ [(head_ q, hd)]); [|by left|].
    + by eapply chain_publish.
    + intros a b. rewrite elem_of_cons. split; [by intros ?%not_elem_of_nil|]. intros [[?|?] ?]; done.
  - destruct nodes; [done|]. by simpl in *.
  - by rewrite last_app, Htl.
  - rewrite filter_app. f_equal. clear -Hst. induction (hd :: ns) as [|y l IH]; [done|].
    apply not_elem_of_cons in Hst as [? ?]. rewrite filter_cons_True by auto. by rewrite <- IH.
Qed.

(** ** Properties *)

(** [C37] Whatever the producers and the consumer do and however they
    interleave, the tasks published are, in the order of the producers'
    exchanges, those the consumer took followed by those still in the queue:
    first in first out, none lost, none taken twice.  A producer that has not
    stored its link yet only ever writes to a node that is still in the queue. *)
Theorem mpsc_fifo h mem l s :
  run exec l (make h mem) = Some s ->
  pushed s = popped s ++ contents s /\ NoDup (contents s) /\
  (forall prev n, (prev, n) ∈ pending s -> prev ∈ nodes s /\ n ∈ contents s).
Proof.
  intros Hr%mpsc_inv_run. destruct Hr as [Hc Hh Hl Hi Hf Hp]. split_and!; [done| |].
  - apply NoDup_filter, (ch_nodup _ _ _ Hc).
  - intros prev n Hn. assert (Ha : (prev, n) ∈ all_pending s) by (apply elem_of_app; by right).
    destruct (consec_in _ _ _ (ch_pend _ _ _ Hc _ _ Ha)). split; [done|].
    rewrite Forall_forall in Hf. apply list_elem_of_filter. split; [by apply (Hf _ Hn)|done].
Qed.

(** Without interference the methods are those of a queue: [init] gives an
    empty one, [push] and [push_batch] add at the end, [pop] takes the first or
    reports that there is none, [clear] empties it, [empty] tells. *)
Theorem mpsc_methods_refine h q l :
  repr h q l ->
  (forall h0 mem, let '(h', q') := init h0 mem in repr h' q' []) /\
  (forall t, t <> stub_ q -> t ∉ l ->
    let '(h', q') := push h q t in repr h' q' (l ++ [t])) /\
  (forall hd ns tl, last (hd :: ns) = Some tl -> NoDup (stub_ q :: hd :: ns) ->
    (forall y, y ∈ hd :: ns -> y ∉ l) ->
    (forall y z, (y, z) ∈ consec (hd :: ns) -> next_of h y = Some z) ->
    let '(h', q') := push_batch h q hd tl in repr h' q' (l ++ hd :: ns)) /\
  (let '(h', q', out) := pop h q in out = hd_error l /\ repr h' q' (tl l)) /\
  (forall fuel, (length l < fuel)%nat -> let '(h', q') := clear fuel h q in repr h' q' []) /\
  empty h q = bool_decide (l = []).
Proof.
  intros Hr. split_and!.
  - intros h0 mem. pose proof (inv_repr (make h0 mem) (mpsc_inv_make h0 mem) eq_refl eq_refl) as H.
    unfold contents in H. simpl in H. by rewrite filter_cons_False in H by auto.
  - intros t Ht Hl. destruct Hr as [nodes Hr].
    destruct (append_spec h q nodes l t Hr) as (h' & q' & Ha & Hr' & _); [by eapply repr_fresh|].
    unfold push. rewrite Ha. rewrite filter_cons_True in Hr' by done. by exists (nodes ++ [t]).
  - intros hd ns tl H1 H2 H3 H4. destruct (push_batch_spec _ _ _ _ _ _ Hr H1 H2 H3 H4) as (h' & q' & Hp & ? & _).
    by rewrite Hp.
  - destruct (pop_spec _ _ _ Hr) as (h' & q' & Hp & ? & _). by rewrite Hp.
  - intros fuel Hf. destruct (clear_spec _ _ _ _ Hr Hf) as (h' & q' & Hp & ? & _). by rewrite Hp.
  - destruct Hr as [[|t nodes] (Hc & [= Ht] & Hl & ->)]. unfold empty. rewrite <- Ht.
    case_bool_decide as Hs; simpl.
    + rewrite filter_cons_False by congruence. apply bool_decide_ext. split.
      * intros Hn. by rewrite (chain_next_none _ _ _ Hc Hn).
      * intros Hn. apply (ch_last _ _ _ Hc). destruct nodes as [|x nodes]; [done|].
        pose proof (ch_nodup _ _ _ Hc) as [Hnt _]%NoDup_cons.
        rewrite filter_cons_True in Hn; [done|]. intros ->. apply Hnt. rewrite Hs. by left.
    + by rewrite filter_cons_True.
Qed.

(** [pop] returns within seven of the consumer's steps when the producers
    pause, whatever they were doing before; it then computes what the
    uninterrupted method computes, and if no producer paused between its two
    stores it returns the oldest task. *)
Theorem mpsc_pop_progress h mem l s :
  run exec l (make h mem) = Some s -> pc s = PIdle ->
  exists k s' out, (k <= 7)%nat /\ run exec (APop :: replicate k AStep) s = Some s' /\
    pc s' = PRet out /\ pop (links s) (q s) = (links s', q s', out) /\
    (pending s = [] -> out = hd_error (contents s)).
Proof.
  intros Hr Hpc. destruct (mpsc_solo_pop s Hpc) as (k & s' & out & Hk & Hrun & Hout & Hp).
  exists k, s', out. split_and!; try done. intros H0.
  destruct (pop_spec _ _ _ (inv_repr s (mpsc_inv_run _ _ _ _ Hr) H0 Hpc)) as (h' & q' & Hp' & _).
  congruence.
Qed.

(** Two producers and the consumer; the stub is 100.  The first producer stops
    between its two stores; the second publishes a batch behind it; the consumer
    finds nothing until the first has linked, and re-inserts the stub before it
    takes the last task. *)
Definition h0 : heap := <[2%positive := Some 3%positive]> ∅.
Definition interleaved : list action :=
  [APush 1; APushBatch [2; 3]; APop; AStep; ARet; ALink 1 2; ALink 100 1;
   APop; AStep; AStep; ARet; APop; AStep; ARet]%positive.

Lemma mpsc_fifo_witness :
  exists s, run exec interleaved (make h0 100) = Some s /\
    popped s = [1; 2]%positive /\ pushed s = popped s ++ contents s /\ contents s = [3%positive].
Proof.
  assert (Hf : (fun s => (popped s, contents s)) <$> run exec interleaved (make h0 100)
    = Some ([1; 2]%positive, [3%positive])) by (vm_compute; reflexivity).
  destruct (run exec interleaved (make h0 100)) as [s|] eqn:E; [|discriminate Hf].
  injection Hf as Hp Hc. exists s.
  destruct (mpsc_fifo h0 100 interleaved s E) as (H & _ & _).
  split; [reflexivity|]. split; [exact Hp|]. split; [exact H|exact Hc].
Defined.

Lemma mpsc_pop_progress_witness :
  exists s, run exec interleaved (make h0 100) = Some s /\
    exists k s', (k <= 7)%nat /\ run exec (APop :: replicate k AStep) s = Some s' /\
      pc s' = PRet (Some 3%positive).
Proof.
  assert (Hf : (fun s => (pc s, pending s, contents s)) <$> run exec interleaved (make h0 100)
    = Some (PIdle, [], [3%positive])) by (vm_compute; reflexivity).
  destruct (run exec interleaved (make h0 100)) as [s|] eqn:E; [|discriminate Hf].
  injection Hf as Hpc Hp Hc. exists s. split; [reflexivity|].
  destruct (mpsc_pop_progress h0 100 interleaved s E Hpc) as (k & s' & out & Hk & Hr & Hpc' & _ & Ho).
  exists k, s'. split; [exact Hk|]. split; [exact Hr|]. rewrite Hpc', (Ho Hp), Hc. reflexivity.
Defined.

Lemma mpsc_methods_refine_witness :
  let '(h, q) := init ∅ 100 in let '(h, q) := push h q 1 in
  repr h q [1%positive] /\
  let '(h', q', out) := pop h q in out = Some 1%positive /\ repr h' q' [].
Proof.
  assert (H0 : repr (<[100%positive := None]> ∅) (mk_queue 100 100 100) []).
  { exists [100%positive]. split; [|done]. constructor.
    - apply NoDup_singleton.
    - by intros x y ?%not_elem_of_nil.
    - intros x [= <-]. reflexivity.
    - by intros x y ?%not_elem_of_nil. }
  destruct (mpsc_methods_refine _ _ _ H0) as (_ & Hpush & _).
  specialize (Hpush 1%positive ltac:(done) (not_elem_of_nil _)). cbn in Hpush |- *.
  split; [exact Hpush|].
  destruct (mpsc_methods_refine _ _ _ Hpush) as (_ & _ & _ & Hpop & _). exact Hpop.
Defined.
