(* ===== verification/WorkDeque.v ===== *)
(** * What the scheduler relies on of a work-stealing deque

    The class [WorkDeque] is the contract between the scheduler and the deque: a
    bounded double-ended list.  [dq_ok b d] says that [d] is well formed and that
    [b] more pushes cannot wrap its 64-bit indices.  The instance discharges it
    with the Chase-Lev deque of [TaskDeque.v]. *)
From S2P Require Import Prelude TaskDeque.

Class WorkDeque (D : Type) := {
  dq_push_bottom : D -> option ptr -> D * bool;
  dq_push_bottom_batch : D -> list (option ptr) -> D * bool;
  dq_pop_bottom : D -> D * option (option ptr);
  dq_steal : D -> D * option (option ptr);
  dq_elems : D -> list (option ptr);                  (* oldest first *)
  dq_capacity : D -> Z;
  dq_ok : Z -> D -> Prop;
  dq_ok_weaken b b' d : b' <= b -> dq_ok b d -> dq_ok b' d;
  dq_push_bottom_spec b d p : 0 <= b -> dq_ok (b + 1) d ->
    let full := dq_capacity d <=? Z.of_nat (length (dq_elems d)) in
    let '(d', ok) := dq_push_bottom d (Some p) in
    dq_ok b d' /\ dq_capacity d' = dq_capacity d /\ ok = negb full /\
    dq_elems d' = dq_elems d ++ (if full then [] else [Some p]);
  dq_push_bottom_batch_spec b d items : 0 <= b -> Z.of_nat (length items) <= 2 ^ 60 ->
    dq_ok (b + Z.of_nat (length items)) d ->
    let full := dq_capacity d <? Z.of_nat (length (dq_elems d)) + Z.of_nat (length items) in
    let '(d', ok) := dq_push_bottom_batch d items in
    dq_ok b d' /\ dq_capacity d' = dq_capacity d /\ ok = negb full /\
    dq_elems d' = dq_elems d ++ (if full then [] else items);
  dq_pop_bottom_spec b d : 1 <= b -> dq_ok b d ->
    let '(d', r) := dq_pop_bottom d in
    dq_ok b d' /\ dq_capacity d' = dq_capacity d /\
    match r with
    | Some x => dq_elems d = dq_elems d' ++ [x]
    | None => dq_elems d = [] /\ d' = d
    end;
  dq_steal_spec b d : 1 <= b -> dq_ok b d ->
    let '(d', r) := dq_steal d in
    dq_ok b d' /\ dq_capacity d' = dq_capacity d /\
    match r with
    | Some x => dq_elems d = x :: dq_elems d'
    | None => dq_elems d = [] /\ d' = d
    end
}.

(** ** The Chase-Lev deque *)

Definition ok (b : Z) (d : deque) : Prop := wf d /\ headroom d b.

Lemma push_bottom_fields d p :
  let '(d', _) := push_bottom d (Some p) in
  capacity_ d' = capacity_ d /\ (headroom d 1 -> wf d -> bottom_ d' <= bottom_ d + 1).
Proof.
  unfold push_bottom. destruct (capacity_ d <=? _); simpl; [split; [done|lia]|]. split; [done|].
  intros Hh (Hg & Hb & _). unfold headroom in Hh. rewrite u64_small; lia.
Qed.

Lemma write_batch_capacity d b items : capacity_ (write_batch d b items) = capacity_ d.
Proof. revert d b. induction items as [|x l IH]; intros; simpl; [done|]. by rewrite IH. Qed.

Lemma push_bottom_batch_fields d items :
  let '(d', _) := push_bottom_batch d items in
  capacity_ d' = capacity_ d /\
  (headroom d (Z.of_nat (length items)) -> wf d -> bottom_ d' <= bottom_ d + Z.of_nat (length items)).
Proof.
  unfold push_bottom_batch. destruct (capacity_ d <? _); simpl; [split; [done|lia]|].
  rewrite write_batch_capacity. split; [done|].
  intros Hh (Hg & Hb & _). unfold headroom in Hh. rewrite u64_small; lia.
Qed.

Lemma pop_bottom_bottom d :
  wf d -> headroom d 1 -> bottom_ (fst (pop_bottom d)) <= bottom_ d.
Proof.
  intros (Hg & Hb & _) Hh. unfold headroom in Hh. unfold pop_bottom.
  destruct (Z.leb_spec (bottom_ d) (top_ d)); [simpl; lia|]. rewrite u64_small by lia. simpl.
  repeat case_match; simpl; rewrite ?u64_small by lia; lia.
Qed.

Lemma steal_bottom d : bottom_ (fst (steal d)) = bottom_ d.
Proof. unfold steal. by case_match. Qed.

#[global] Program Instance deque_work_deque : WorkDeque deque := {|
  dq_push_bottom := push_bottom;
  dq_push_bottom_batch := push_bottom_batch;
  dq_pop_bottom := pop_bottom;
  dq_steal := steal;
  dq_elems := contents;
  dq_capacity := capacity_;
  dq_ok := ok
|}.
Next Obligation. intros b b' d Hb [Hwf Hh]. split; [done|]. unfold headroom in *. lia. Qed.
Next Obligation.
  intros b d p Hb [Hwf Hh]. assert (Hh1 : headroom d 1) by (unfold headroom in *; lia).
  pose proof (push_bottom_refines d p Hwf Hh1) as H. pose proof (push_bottom_fields d p) as Hf.
  cbv zeta in *. destruct (push_bottom d (Some p)) as [d' r]. destruct H as (? & ? & ?), Hf as [? Hbot].
  specialize (Hbot Hh1 Hwf). split_and!; try done. split; [done|]. unfold headroom in *. lia.
Qed.
Next Obligation.
  intros b d items Hb Hl [Hwf Hh].
  assert (Hh1 : headroom d (Z.of_nat (length items))) by (unfold headroom in *; lia).
  pose proof (push_bottom_batch_refines d items Hwf Hh1 Hl) as H.
  pose proof (push_bottom_batch_fields d items) as Hf.
  cbv zeta in *. destruct (push_bottom_batch d items) as [d' r]. destruct H as (? & ? & ?), Hf as [? Hbot].
  specialize (Hbot Hh1 Hwf). split_and!; try done. split; [done|]. unfold headroom in *. lia.
Qed.
Next Obligation.
  intros b d Hb [Hwf Hh]. assert (Hh1 : headroom d 1) by (unfold headroom in *; lia).
  pose proof (pop_bottom_refines d Hwf Hh1) as H. pose proof (pop_bottom_bottom d Hwf Hh1) as Hf.
  destruct (pop_bottom d) as [d' r]. destruct H as (? & ? & ?). simpl in Hf.
  split_and!; try done. split; [done|]. unfold headroom in *. lia.
Qed.
Next Obligation.
  intros b d Hb [Hwf Hh]. assert (Hh1 : headroom d 1) by (unfold headroom in *; lia).
  pose proof (steal_refines d Hwf Hh1) as H. pose proof (steal_bottom d) as Hf.
  destruct (steal d) as [d' r]. destruct H as (? & ? & ?). simpl in Hf.
  split_and!; try done. split; [done|]. unfold headroom in *. lia.
Qed.
