(* ===== verification/Scheduler.v ===== *)
(** * The scheduler's shared state and its operations
      ([include/TaskScheduler.h], [src/TaskScheduler.cpp])

    The state a [TaskScheduler] and its workers share, and the operations that
    submit, move and complete tasks.  An operation is one step here; what happens
    inside one (queue accesses, the suspension handshake) is interleaved in
    [TaskDeque.v], [TaskMPSCQueue.v], [Fiber.v] and [WorkerSleep.v].  An inbox is
    the list of its tasks ([TaskMPSCQueue.v] refines it); a deque is any
    implementation of [WorkDeque].  Two operations are cut where the order of their
    accesses shows: [PushLocal] between the push and the count of the task, and
    [PushToCore] between the load and the store of the core's mark; what is left of
    such a call is in [submitting] until [finish_call] performs it. *)
From S2P Require Import Prelude Task WorkDeque.

(** Where a worker's thread is in [Thread::Worker]'s loop. *)
Inductive worker_at :=
  | Top                        (* the loop's condition, section 1 *)
  | Fast                       (* running a fast job on its own stack *)
  | OnFiber (f : ptr)          (* switched to a fiber *)
  | Immediate | Local | Stealing | Inbox | SleepCheck    (* sections 2 to 5, the predicate *)
  | Asleep                     (* blocked in cv.wait *)
  | Exited.

Record worker := mk_worker {
  pc : worker_at;
  task_to_run : option ptr;
  is_handling_fork : bool;
  currentRunningTask : option ptr;
  currentFiber : option ptr;
  immediateTask : option ptr;
  immediate : bool;
  hasQueuedWork : bool;
  busy : bool;
  running : bool;
  consecutiveMisses : Z;
  rng : Z                      (* FastRand's x *)
}.

(** A [WaitGroup]: the counter of [Task.v] and the suspended tasks behind
    [waiters]. *)
Record wait_group := mk_wait_group { n : Z; waiters : list ptr }.

Section Scheduler.
Context {D : Type} `{WD : WorkDeque D}.

Record queues := mk_queues {
  hiPri : list D;
  loPri : list D;
  hiPriInboxes : list (list ptr);
  loPriInboxes : list (list ptr);
  mainQ : list ptr
}.

Record control := mk_control {
  poolActive : bool;
  paused : bool;
  nextWorker : nat;
  pendingTasks : Z;
  consecutiveHiPriSteals : Z
}.

(** [parked]: tasks whose fiber is SUSPENDED, held by whatever will resume them. *)
Record objects := mk_objects {
  tasks : gmap ptr task;
  waitGroups : gmap ptr wait_group;
  parked : list ptr
}.

(** History: the tasks completed, the tasks dropped by the scheduler, and how
    often [pendingTasks] was raised without a task being queued. *)
Record ghost := mk_ghost { completed : list ptr; lost : list ptr; phantom : Z }.

Record topology := mk_topology { siblingQIndex : list Z; clusterMates : list (list nat) }.

(** What a caller has left to do: count the task it has pushed to the inbox of
    worker [i] and wake the worker; or give the task to core [i], which it found
    free. *)
Inductive call := Counting (i : nat) | Claiming (i : nat) (t : ptr).

Record sched := mk_sched {
  qs : queues;
  ctl : control;
  immediateCoresInUse : list bool;
  workers : list worker;
  obj : objects;
  topo : topology;
  gh : ghost;
  submitting : list call
}.

(** ** Field updates *)

Definition set_qs (s : sched) (q : queues) : sched :=
  mk_sched q (ctl s) (immediateCoresInUse s) (workers s) (obj s) (topo s) (gh s) (submitting s).
Definition set_ctl (s : sched) (c : control) : sched :=
  mk_sched (qs s) c (immediateCoresInUse s) (workers s) (obj s) (topo s) (gh s) (submitting s).
Definition set_flags (s : sched) (fl : list bool) : sched :=
  mk_sched (qs s) (ctl s) fl (workers s) (obj s) (topo s) (gh s) (submitting s).
Definition set_workers (s : sched) (w : list worker) : sched :=
  mk_sched (qs s) (ctl s) (immediateCoresInUse s) w (obj s) (topo s) (gh s) (submitting s).
Definition set_obj (s : sched) (o : objects) : sched :=
  mk_sched (qs s) (ctl s) (immediateCoresInUse s) (workers s) o (topo s) (gh s) (submitting s).
Definition set_gh (s : sched) (g : ghost) : sched :=
  mk_sched (qs s) (ctl s) (immediateCoresInUse s) (workers s) (obj s) (topo s) g (submitting s).

Definition set_submitting (s : sched) (l : list call) : sched :=
  mk_sched (qs s) (ctl s) (immediateCoresInUse s) (workers s) (obj s) (topo s) (gh s) l.

Definition set_flag (s : sched) (i : nat) (b : bool) : sched :=
  set_flags s (<[i := b]> (immediateCoresInUse s)).
Definition set_worker (s : sched) (i : nat) (w : worker) : sched :=
  set_workers s (<[i := w]> (workers s)).
Definition set_tasks (s : sched) (m : gmap ptr task) : sched :=
  set_obj s (mk_objects m (waitGroups (obj s)) (parked (obj s))).
Definition set_groups (s : sched) (m : gmap ptr wait_group) : sched :=
  set_obj s (mk_objects (tasks (obj s)) m (parked (obj s))).
Definition set_parked (s : sched) (l : list ptr) : sched :=
  set_obj s (mk_objects (tasks (obj s)) (waitGroups (obj s)) l).
Definition set_nextWorker (s : sched) (i : nat) : sched :=
  let c := ctl s in
  set_ctl s (mk_control (poolActive c) (paused c) i (pendingTasks c) (consecutiveHiPriSteals c)).
(** [pendingTasks.fetch_add(k)] on [std::atomic<int>], which wraps. *)
Definition add_pending (s : sched) (k : Z) : sched :=
  let c := ctl s in
  set_ctl s (mk_control (poolActive c) (paused c) (nextWorker c) (s32 (pendingTasks c + k))
               (consecutiveHiPriSteals c)).
Definition set_steals (s : sched) (k : Z) : sched :=
  let c := ctl s in
  set_ctl s (mk_control (poolActive c) (paused c) (nextWorker c) (pendingTasks c) k).
Definition lose (s : sched) (l : list ptr) : sched :=
  let g := gh s in set_gh s (mk_ghost (completed g) (l ++ lost g) (phantom g)).

(** A queue of the pair selected by priority. *)
Definition inbox_push (s : sched) (hi : bool) (i : nat) (ts : list ptr) : outcome sched :=
  let q := qs s in
  if hi then
    l ← at_ (hiPriInboxes q) i;
    Ok (set_qs s (mk_queues (hiPri q) (loPri q) (<[i := l ++ ts]> (hiPriInboxes q)) (loPriInboxes q) (mainQ q)))
  else
    l ← at_ (loPriInboxes q) i;
    Ok (set_qs s (mk_queues (hiPri q) (loPri q) (hiPriInboxes q) (<[i := l ++ ts]> (loPriInboxes q)) (mainQ q))).

Definition deque_at (s : sched) (hi : bool) (i : nat) : outcome D :=
  if hi then at_ (hiPri (qs s)) i else at_ (loPri (qs s)) i.
Definition set_deque (s : sched) (hi : bool) (i : nat) (d : D) : sched :=
  let q := qs s in
  set_qs s (if hi
    then mk_queues (<[i := d]> (hiPri q)) (loPri q) (hiPriInboxes q) (loPriInboxes q) (mainQ q)
    else mk_queues (hiPri q) (<[i := d]> (loPri q)) (hiPriInboxes q) (loPriInboxes q) (mainQ q)).

(** ** Waking workers *)

(** [Thread::NotifyWorker] on a worker that sleeps: it re-evaluates the predicate. *)
Definition notified (w : worker) : worker :=
  mk_worker (match pc w with Asleep => SleepCheck | p => p end) (task_to_run w) (is_handling_fork w)
    (currentRunningTask w) (currentFiber w) (immediateTask w) (immediate w) (hasQueuedWork w) (busy w)
    (running w) (consecutiveMisses w) (rng w).
(** [MarkQueuedWork(); NotifyWorker();] *)
Definition marked (w : worker) : worker :=
  notified (mk_worker (pc w) (task_to_run w) (is_handling_fork w)
    (currentRunningTask w) (currentFiber w) (immediateTask w) (immediate w) true (busy w)
    (running w) (consecutiveMisses w) (rng w)).
(** [SetImmediateTask(task); NotifyWorker();] *)
Definition given_immediate (w : worker) (t : ptr) : worker :=
  notified (mk_worker (pc w) (task_to_run w) (is_handling_fork w)
    (currentRunningTask w) (currentFiber w) (Some t) true (hasQueuedWork w) (busy w)
    (running w) (consecutiveMisses w) (rng w)).

Definition mark_and_notify (s : sched) (i : nat) : outcome sched :=
  w ← at_ (workers s) i; Ok (set_worker s i (marked w)).

Definition NotifyAll (s : sched) : sched := set_workers s (notified <$> workers s).

(** ** Choosing a worker *)

(** The loop of [PickNextWorker], at iteration [i] of [n]. *)
Fixpoint pick (flags : list bool) (next n fuel i : nat) : outcome (option nat) :=
  match fuel with
  | O => Ok None
  | S fuel =>
      let idx := ((next + i) mod n)%nat in
      b ← at_ flags idx;
      if negb b then Ok (Some idx) else pick flags next n fuel (S i)
  end.

Definition PickNextWorker (s : sched) : outcome (nat * sched) :=
  let n := length (workers s) in
  let next := nextWorker (ctl s) in
  r ← pick (immediateCoresInUse s) next n n 0;
  match r with
  | Some idx => Ok (idx, set_nextWorker s ((idx + 1) mod n)%nat)
  | None =>
      let fallback := next in
      if decide (n = 0%nat) then Stuck
      else Ok (fallback, set_nextWorker s ((fallback + 1) mod n)%nat)
  end.

(** [uint8_t chosen = PickNextWorker(); while (immediateCoresInUse[chosen]) ...]:
    the loop spins as long as every core is taken. *)
Definition pick_free (s : sched) : outcome (nat * sched) :=
  '(idx, s) ← PickNextWorker s;
  let chosen := Z.to_nat (u8 (Z.of_nat idx)) in
  b ← at_ (immediateCoresInUse s) chosen;
  if (b : bool) then Blocked else Ok (chosen, s).

(** The same with [int chosen]. *)
Definition pick_free_int (s : sched) : outcome (nat * sched) :=
  '(chosen, s) ← PickNextWorker s;
  b ← at_ (immediateCoresInUse s) chosen;
  if (b : bool) then Blocked else Ok (chosen, s).

(** ** Submitting tasks *)

Definition begin_call (s : sched) (c : call) : sched := set_submitting s (submitting s ++ [c]).

Definition is_hi (t : task) : bool := negb (Task.hiPri t =? 0).

(** [bool PushLocal(Task* task, uint8_t cpuaffinity)] up to the push, and its
    result. *)
Definition PushLocal (s : sched) (task : option ptr) (cpuaffinity : Z) : outcome (sched * bool) :=
  match task with
  | None => Ok (s, false)
  | Some t =>
      let num_workers := Z.of_nat (length (workers s)) in
      if (0 <? cpuaffinity) && (cpuaffinity - 1 <? num_workers) then
        let idx := Z.to_nat (cpuaffinity - 1) in
        b ← at_ (immediateCoresInUse s) idx;
        if negb b then
          s ← inbox_push s false idx [t];
          Ok (begin_call s (Counting idx), true)
        else Ok (s, false)
      else
        '(chosen, s) ← pick_free s;
        tk ← deref (tasks (obj s)) t;
        s ← inbox_push s (is_hi tk) chosen [t];
        Ok (begin_call s (Counting chosen), true)
  end.

Definition Push (s : sched) (task : option ptr) : outcome (sched * bool) := PushLocal s task 0.

(** [Requeue(task)]: as [PushLocal], but the task is already counted. *)
Definition Requeue (s : sched) (task : option ptr) : outcome (sched * bool) :=
  match task with
  | None => Ok (s, false)
  | Some t =>
      '(chosen, s) ← pick_free s;
      tk ← deref (tasks (obj s)) t;
      s ← inbox_push s (is_hi tk) chosen [t];
      s ← mark_and_notify s chosen;
      Ok (s, true)
  end.

(** [PushBatch(tasks, count, cpuaffinity)] with [count] the length of [ts]; an
    empty batch makes [count - 1] wrap and the loop run off the array. *)
Definition PushBatch (s : sched) (ts : list ptr) (cpuaffinity : Z) : outcome sched :=
  if decide (ts = []) then Stuck
  else
    let s := add_pending s (Z.of_nat (length ts)) in
    '(chosen, s) ←
      (if cpuaffinity =? 0 then pick_free_int s
       else
         let chosen := Z.to_nat (cpuaffinity - 1) in
         b ← at_ (immediateCoresInUse s) chosen;
         if (b : bool) then pick_free_int s else Ok (chosen, s));
    s ← inbox_push s false chosen ts;
    mark_and_notify s chosen.

(** [RunCounted(wg, t)] *)
Definition set_waitGroup (tk : task) (g : option ptr) : task :=
  mk_task (fn tk) (data tk) (assignedFiber tk) g (Task.hiPri tk) (requiredSize tk) (fastJob tk)
    (isForked tk) (priorityBoost tk).
Definition RunCounted (s : sched) (g t : ptr) : outcome sched :=
  wg ← deref (waitGroups (obj s)) g;
  tk ← deref (tasks (obj s)) t;
  let s := set_groups s (<[g := mk_wait_group (n wg + 1) (waiters wg)]> (waitGroups (obj s))) in
  let s := set_tasks s (<[t := set_waitGroup tk (Some g)]> (tasks (obj s))) in
  fst <$> Push s (Some t).

(** [PushToCore(core_id, task)] up to the load of the core's mark, and its
    result. *)
Definition PushToCore (s : sched) (core_id : Z) (task : option ptr) : outcome (sched * bool) :=
  if core_id <? 1 then Ok (s, false)
  else if negb (poolActive (ctl s)) then Ok (s, false)
  else match task with
  | None => Ok (s, false)
  | Some t =>
      let n := Z.of_nat (length (workers s)) in
      if n =? 0 then Stuck
      else
        let idx := Z.to_nat ((core_id - 1) mod n) in
        b ← at_ (immediateCoresInUse s) idx;
        Ok (if (b : bool) then (s, false) else (begin_call s (Claiming idx t), true))
  end.

(** The rest of [PushToCore], with [SetImmediateTask] and [NotifyWorker]; a task
    still in [immediateTask] is overwritten. *)
Definition give_core (s : sched) (idx : nat) (t : ptr) : outcome sched :=
  let s := add_pending (set_flag s idx true) 1 in
  w ← at_ (workers s) idx;
  let s := lose s (match immediateTask w with Some t' => [t'] | None => [] end) in
  Ok (set_worker s idx (given_immediate w t)).

(** The rest of call [k]. *)
Definition finish_call (s : sched) (k : nat) : outcome sched :=
  match submitting s !! k with
  | None => Blocked
  | Some c =>
      let s := set_submitting s (delete k (submitting s)) in
      match c with
      | Counting i => mark_and_notify (add_pending s 1) i
      | Claiming i t => give_core s i t
      end
  end.

Definition PushImmediate (s : sched) (cpu_affinity : Z) (task : option ptr) : outcome (sched * bool) :=
  match task with
  | None => Ok (s, false)
  | Some _ => PushToCore s cpu_affinity task
  end.

(** [IsOnFiber()] for the thread of a worker ([None]: not a worker). *)
Definition IsOnFiber (s : sched) (caller : option nat) : bool :=
  match caller ≫= fun i => workers s !! i with
  | Some w => bool_decide (currentRunningTask w <> None) && bool_decide (currentFiber w <> None)
  | None => false
  end.
(** [GetCurrentTask()] *)
Definition GetCurrentTask (s : sched) (caller : option nat) : option ptr :=
  caller ≫= fun i => workers s !! i ≫= currentRunningTask.

Definition set_isForked (tk : task) (b : Z) : task :=
  mk_task (fn tk) (data tk) (assignedFiber tk) (waitGroup tk) (Task.hiPri tk) (requiredSize tk) (fastJob tk)
    b (priorityBoost tk).

(** [PushFork(task)] called on the thread [caller]. *)
Definition PushFork (s : sched) (caller : option nat) (task : option ptr) : outcome (sched * bool) :=
  match task with
  | None => Ok (s, false)
  | Some t =>
      if negb (poolActive (ctl s)) then Ok (s, false)
      else
        let is_local_push := IsOnFiber s caller in
        '(worker_id, s) ←
          (match is_local_push, caller with
           | true, Some i => Ok (i, s)
           | _, _ => PickNextWorker s
           end);
        b ← (if is_local_push then Ok false else at_ (immediateCoresInUse s) worker_id);
        if (b : bool) then Ok (s, false)
        else
          let s := if is_local_push then s else set_flag s worker_id true in
          tk ← deref (tasks (obj s)) t;
          let s := set_tasks s (<[t := set_isForked tk 1]> (tasks (obj s))) in
          let s := add_pending s 1 in
          let g := gh s in
          let s := set_gh s (mk_ghost (completed g) (lost g) (phantom g + 1)) in
          PushLocal s (Some t) (u8 (Z.of_nat worker_id))
  end.

(** *** The templates that submit a function

    [mem] is what the allocator returns to [CreateTask], whose other arguments are
    the defaults: low priority, a standard fiber, a fast job.  The templates return
    nothing: whether the task was taken is not reported. *)
Definition create_lambda (s : sched) (mem : option ptr) (wrapper : ptr) : sched * option ptr :=
  match CreateLambdaTask mem wrapper 0 Standard 1 with
  | None => (s, None)
  | Some (t, tk) => (set_tasks s (<[t := tk]> (tasks (obj s))), Some t)
  end.

Definition Push_F (s : sched) (mem : option ptr) (wrapper : ptr) : outcome sched :=
  let '(s, t) := create_lambda s mem wrapper in fst <$> PushLocal s t 0.
Definition Push_affinity_F (s : sched) (cpu_affinity : Z) (mem : option ptr) (wrapper : ptr) : outcome sched :=
  let '(s, t) := create_lambda s mem wrapper in fst <$> PushLocal s t cpu_affinity.
Definition PushImmediate_F (s : sched) (coreID : Z) (mem : option ptr) (wrapper : ptr) : outcome sched :=
  let '(s, t) := create_lambda s mem wrapper in fst <$> PushToCore s coreID t.
Definition PushFork_F (s : sched) (caller : option nat) (mem : option ptr) (wrapper : ptr) : outcome sched :=
  let '(s, t) := create_lambda s mem wrapper in fst <$> PushFork s caller t.

(** ** Completion *)

(** Resuming a suspended task: [Fiber::Resume] of a SUSPENDED fiber. *)
Definition resume_parked (s : sched) (t : ptr) : outcome sched :=
  if decide (t ∈ parked (obj s))
  then fst <$> Requeue (set_parked s (filter (.≠ t) (parked (obj s)))) (Some t)
  else Ok s.
Fixpoint resume_all (s : sched) (ts : list ptr) : outcome sched :=
  match ts with
  | [] => Ok s
  | t :: ts => s ← resume_parked s t; resume_all s ts
  end.

(** [WaitGroup::WakeAll()] *)
Definition WakeAll (s : sched) (g : ptr) : outcome sched :=
  wg ← deref (waitGroups (obj s)) g;
  let to_wake := waiters wg in
  let s := set_groups s (<[g := mk_wait_group (clear_waiter (n wg)) []]> (waitGroups (obj s))) in
  resume_all s to_wake.

(** The wait-group decrement of a completed task. *)
Definition complete_wait (s : sched) (tk : task) : outcome sched :=
  match waitGroup tk with
  | None => Ok s
  | Some g =>
      wg ← deref (waitGroups (obj s)) g;
      let '(n', wake) := complete (n wg) in
      let s := set_groups s (<[g := mk_wait_group n' (waiters wg)]> (waitGroups (obj s))) in
      if wake then WakeAll s g else Ok s
  end.

(** [t->~Task(); allocator.Free(t)] *)
Definition destroy (s : sched) (t : ptr) : sched :=
  let s := set_tasks s (delete t (tasks (obj s))) in
  let g := gh s in set_gh s (mk_ghost (t :: completed g) (lost g) (phantom g)).

(** ** The main thread's queue *)

Definition set_mainQ (s : sched) (l : list ptr) : sched :=
  let q := qs s in set_qs s (mk_queues (hiPri q) (loPri q) (hiPriInboxes q) (loPriInboxes q) l).

Definition PushMain (s : sched) (task : option ptr) : sched * bool :=
  if negb (poolActive (ctl s)) then (s, false)
  else match task with
  | None => (s, false)
  | Some t => (set_mainQ s (mainQ (qs s) ++ [t]), true)
  end.

(** One iteration of [ProcessMainThread]'s loop; [None] ends it. *)
Definition process_main_one (s : sched) : outcome (option sched) :=
  match mainQ (qs s) with
  | [] => Ok None
  | t :: l =>
      let s := set_mainQ s l in
      tk ← deref (tasks (obj s)) t;
      s ← complete_wait s tk;
      Ok (Some (destroy s t))
  end.

(** The loop, which pops as many tasks as are queued when nobody adds more. *)
Fixpoint process_main (fuel : nat) (s : sched) : outcome sched :=
  match fuel with
  | O => Ok s
  | S fuel => r ← process_main_one s; match r with Some s => process_main fuel s | None => Ok s end
  end.
Definition ProcessMainThread (s : sched) : outcome sched :=
  if poolActive (ctl s) then process_main (length (mainQ (qs s))) s else Ok s.

(** [fuel] iterations of [WaitForMain]'s loop while no other thread acts. *)
Fixpoint WaitForMain (fuel : nat) (s : sched) (g : ptr) : outcome sched :=
  match fuel with
  | O => Blocked
  | S fuel =>
      wg ← deref (waitGroups (obj s)) g;
      if keeps_spinning (n wg) then s ← ProcessMainThread s; WaitForMain fuel s g else Ok s
  end.

(** ** Stealing from outside the pool *)

Definition kStealFairnessWindow : Z := 8.

(** The scan of one priority from deque [start]: the task and where it was. *)
Fixpoint scan (s : sched) (hi : bool) (start fuel i : nat) : outcome (sched * option (option ptr)) :=
  match fuel with
  | O => Ok (s, None)
  | S fuel =>
      let numThreads := if hi then length (hiPri (qs s)) else length (loPri (qs s)) in
      let target := ((start + i) mod numThreads)%nat in
      d ← deque_at s hi target;
      match dq_steal d with
      | (d, Some x) => Ok (set_deque s hi target d, Some x)
      | (d, None) => scan (set_deque s hi target d) hi start fuel (S i)
      end
  end.

(** [GetTask()]; [r1] and [r2] are what the calls of [rand()] return. *)
Definition get_lo (s : sched) (r2 : nat) : outcome (sched * option ptr) :=
  let s := set_steals s 0 in
  let numThreads := length (loPri (qs s)) in
  if decide (numThreads = 0%nat) then Stuck
  else
    '(s, r) ← scan s false (r2 mod numThreads)%nat numThreads 0;
    Ok (s, match r with Some x => x | None => None end).

Definition GetTask (s : sched) (r1 r2 : nat) : outcome (sched * option ptr) :=
  let forceLoPri := kStealFairnessWindow <=? consecutiveHiPriSteals (ctl s) in
  if forceLoPri then get_lo s r2
  else
    let numThreads := length (hiPri (qs s)) in
    if decide (numThreads = 0%nat) then Stuck
    else
      '(s, r) ← scan s true (r1 mod numThreads)%nat numThreads 0;
      match r with
      | Some x => Ok (set_steals s (consecutiveHiPriSteals (ctl s) + 1), x)
      | None => get_lo s r2
      end.

(** [TryRunStolenFastJob()] *)
Definition TryRunStolenFastJob (s : sched) (r1 r2 : nat) : outcome (sched * bool) :=
  '(s, r) ← GetTask s r1 r2;
  match r with
  | None => Ok (s, false)
  | Some t =>
      tk ← deref (tasks (obj s)) t;
      if fastJob tk =? 0 then
        '(s, _) ← Requeue s (Some t); Ok (s, true)
      else
        s ← complete_wait s tk;
        Ok (add_pending (destroy s t) (-1), true)
  end.

(** ** Pausing and waiting *)

Definition set_paused (s : sched) (b : bool) : sched :=
  let c := ctl s in
  set_ctl s (mk_control (poolActive c) b (nextWorker c) (pendingTasks c) (consecutiveHiPriSteals c)).
Definition Pause (s : sched) : sched := set_paused s true.
Definition Resume (s : sched) : sched := NotifyAll (set_paused s false).

(** The condition on which [WaitAll] keeps waiting. *)
Definition WaitAll_waits (s : sched) : bool := 0 <? pendingTasks (ctl s).
End Scheduler.
Arguments queues D : clear implicits.
Arguments sched D : clear implicits.
