(* ===== verification/Worker.v ===== *)
(** * The worker loop ([Thread::Worker] of [src/Thread.cpp]) and the machine it is
      part of

    [worker_step i] performs the section of the loop worker [i] is at; between
    two sections any other thread may act.  The fiber that [AcquireFiber] finds
    and the way a running fiber gives its worker back are inputs of the step. *)
From S2P Require Import Prelude Task WorkDeque Scheduler.

(** How a fiber came back: [Waited g] is [WaitFor(g)] on a fiber. *)
Inductive switch_back := Finished | Yielded | Suspended | Signaled | Waited (g : ptr).

Record input := mk_input { acquired : option ptr; back : switch_back }.

Definition BATCH_SIZE : nat := 64.
Definition kBackoffMissThreshold : Z := 8.

(** ** [FastRand]: one xorshift32 step *)
Definition FastRand (x : Z) : Z :=
  let x := Z.lxor x (u32 (Z.shiftl x 13)) in
  let x := Z.lxor x (Z.shiftr x 17) in
  Z.lxor x (u32 (Z.shiftl x 5)).

Section Worker.
Context {D : Type} `{WD : WorkDeque D}.

(** ** Updates of a worker *)

Definition goto (w : worker) (p : worker_at) : worker :=
  mk_worker p (task_to_run w) (is_handling_fork w) (currentRunningTask w) (currentFiber w)
    (immediateTask w) (immediate w) (hasQueuedWork w) (busy w) (running w) (consecutiveMisses w) (rng w).
Definition runs (w : worker) (t : option ptr) : worker :=
  mk_worker (pc w) t (is_handling_fork w) (currentRunningTask w) (currentFiber w)
    (immediateTask w) (immediate w) (hasQueuedWork w) (busy w) (running w) (consecutiveMisses w) (rng w).
Definition handling (w : worker) (b : bool) : worker :=
  mk_worker (pc w) (task_to_run w) b (currentRunningTask w) (currentFiber w)
    (immediateTask w) (immediate w) (hasQueuedWork w) (busy w) (running w) (consecutiveMisses w) (rng w).
Definition current (w : worker) (t f : option ptr) (b : bool) : worker :=
  mk_worker (pc w) (task_to_run w) (is_handling_fork w) t f
    (immediateTask w) (immediate w) (hasQueuedWork w) b (running w) (consecutiveMisses w) (rng w).
Definition with_immediate (w : worker) (t : option ptr) (b : bool) : worker :=
  mk_worker (pc w) (task_to_run w) (is_handling_fork w) (currentRunningTask w) (currentFiber w)
    t b (hasQueuedWork w) (busy w) (running w) (consecutiveMisses w) (rng w).
Definition unmarked (w : worker) : worker :=
  mk_worker (pc w) (task_to_run w) (is_handling_fork w) (currentRunningTask w) (currentFiber w)
    (immediateTask w) (immediate w) false (busy w) (running w) (consecutiveMisses w) (rng w).
Definition missed (w : worker) (k : Z) : worker :=
  mk_worker (pc w) (task_to_run w) (is_handling_fork w) (currentRunningTask w) (currentFiber w)
    (immediateTask w) (immediate w) (hasQueuedWork w) (busy w) (running w) k (rng w).
Definition rolled (w : worker) (x : Z) : worker :=
  mk_worker (pc w) (task_to_run w) (is_handling_fork w) (currentRunningTask w) (currentFiber w)
    (immediateTask w) (immediate w) (hasQueuedWork w) (busy w) (running w) (consecutiveMisses w) x.
Definition stopping (w : worker) : worker :=
  mk_worker (pc w) (task_to_run w) (is_handling_fork w) (currentRunningTask w) (currentFiber w)
    (immediateTask w) (immediate w) (hasQueuedWork w) (busy w) false (consecutiveMisses w) (rng w).

Definition modify (s : sched D) (i : nat) (f : worker -> worker) : outcome (sched D) :=
  w ← at_ (workers s) i; Ok (set_worker s i (f w)).

(** [if (qIndex < size) immediateCoresInUse[qIndex]->store(false)]: outside the
    vector nothing happens, as for list insertion. *)
Definition clear_flag (s : sched D) (i : nat) : sched D := set_flag s i false.

Definition set_assignedFiber (tk : task) (f : option ptr) : task :=
  mk_task (fn tk) (data tk) f (waitGroup tk) (Task.hiPri tk) (requiredSize tk) (fastJob tk)
    (isForked tk) (priorityBoost tk).

(** ** Section 1: running the task *)

(** No fiber: the task goes to [immediateTask] or to the deque (which may refuse
    it), and [continue] leaves it in [task_to_run] as well. *)
Definition no_fiber (s : sched D) (i : nat) (w : worker) (t : ptr) : outcome (sched D) :=
  if is_handling_fork w then Ok (set_worker s i (with_immediate w (Some t) true))
  else
    d ← deque_at s false i;
    let '(d, ok) := dq_push_bottom d (Some t) in
    Ok (set_worker (set_deque s false i d) i w).

Definition start_task (s : sched D) (i : nat) (w : worker) (t : ptr) (inp : input) : outcome (sched D) :=
  tk ← deref (tasks (obj s)) t;
  if negb (fastJob tk =? 0) then
    Ok (set_worker s i (goto (current w (Some t) (currentFiber w) true) Fast))
  else
    match assignedFiber tk, acquired inp with
    | Some f, _ => Ok (set_worker s i (goto (current w (Some t) (Some f) true) (OnFiber f)))
    | None, Some f =>
        let s := set_tasks s (<[t := set_assignedFiber tk (Some f)]> (tasks (obj s))) in
        Ok (set_worker s i (goto (current w (Some t) (Some f) true) (OnFiber f)))
    | None, None => no_fiber s i w t
    end.

Definition top (s : sched D) (i : nat) (w : worker) (inp : input) : outcome (sched D) :=
  if negb (running w) then modify s i (fun w => goto w Exited)
  else
    let w := unmarked w in
    match task_to_run w with
    | Some t => start_task s i w t inp
    | None => Ok (set_worker s i (goto w Immediate))
    end.

(** The end of a fast job.  (The worker's own fields, which no other thread
    reads here, are written first.) *)
Definition finish_fast (s : sched D) (i : nat) : outcome (sched D) :=
  w ← at_ (workers s) i;
  match task_to_run w with
  | None => Stuck
  | Some t =>
      s ← modify s i (fun w => goto (runs (current w None (currentFiber w) false) None) Top);
      tk ← deref (tasks (obj s)) t;
      s ← complete_wait s tk;
      let was_forked := negb (isForked tk =? 0) in
      let s := add_pending (destroy s t) (-1) in
      let s := if is_handling_fork w || was_forked then clear_flag s i else s in
      modify s i (fun w => handling w false)
  end.

(** After [ContextSwitch]: what the status of the fiber asks for. *)
Definition switch_back_body (s : sched D) (i : nat) (t : ptr) (b : switch_back) : outcome (sched D) :=
  match b with
  | Finished =>
      tk ← deref (tasks (obj s)) t;
      s ← complete_wait s tk;
      let was_forked := negb (isForked tk =? 0) in
      let s := add_pending (destroy s t) (-1) in
      Ok (if was_forked then clear_flag s i else s)
  | Yielded =>
      d ← deque_at s false i;
      let '(d, ok) := dq_push_bottom d (Some t) in
      let s := set_deque s false i d in
      Ok (if ok : bool then s else lose s [t])
  | Suspended => Ok (set_parked s (t :: parked (obj s)))
  | Signaled => fst <$> Requeue s (Some t)
  | Waited g =>
      wg ← deref (waitGroups (obj s)) g;
      let '(n', done) := announce_waiter (n wg) in
      if done : bool then
        let s := set_groups s (<[g := mk_wait_group n' (waiters wg)]> (waitGroups (obj s))) in
        fst <$> Requeue s (Some t)
      else
        let s := set_groups s (<[g := mk_wait_group n' (t :: waiters wg)]> (waitGroups (obj s))) in
        Ok (set_parked s (t :: parked (obj s)))
  end.

Definition switched_back (s : sched D) (i : nat) (b : switch_back) : outcome (sched D) :=
  w ← at_ (workers s) i;
  match task_to_run w with
  | None => Stuck
  | Some t =>
      s ← modify s i (fun w => goto (runs (current w None None false) None) Immediate);
      s ← switch_back_body s i t b;
      let s := if is_handling_fork w then clear_flag s i else s in
      modify s i (fun w => handling w false)
  end.

(** ** Section 2: a forked task *)

(** [drainInbox]: at most [BATCH_SIZE] tasks of the inbox, requeued in order. *)
Fixpoint requeue_all (s : sched D) (ts : list ptr) : outcome (sched D) :=
  match ts with
  | [] => Ok s
  | t :: ts => '(s, _) ← Requeue s (Some t); requeue_all s ts
  end.

Definition pop_inbox (s : sched D) (hi : bool) (i : nat) : outcome (sched D * list ptr) :=
  let q := qs s in
  if hi then
    l ← at_ (hiPriInboxes q) i;
    Ok (set_qs s (mk_queues (hiPri q) (loPri q) (<[i := drop BATCH_SIZE l]> (hiPriInboxes q))
                    (loPriInboxes q) (mainQ q)), take BATCH_SIZE l)
  else
    l ← at_ (loPriInboxes q) i;
    Ok (set_qs s (mk_queues (hiPri q) (loPri q) (hiPriInboxes q)
                    (<[i := drop BATCH_SIZE l]> (loPriInboxes q)) (mainQ q)), take BATCH_SIZE l).

Definition drainInbox (s : sched D) (hi : bool) (i : nat) : outcome (sched D) :=
  '(s, ts) ← pop_inbox s hi i;
  requeue_all s ts.

Definition immediate_section (s : sched D) (i : nat) : outcome (sched D) :=
  w ← at_ (workers s) i;
  match immediateTask w with
  | None => Ok (set_worker s i (goto w Local))
  | Some _ =>
      s ← drainInbox s true i;
      s ← drainInbox s false i;
      w ← at_ (workers s) i;
      Ok (set_worker s i (goto (handling (with_immediate (runs w (immediateTask w)) None false) true) Top))
  end.

(** ** Section 3: the own deques *)

(** [pop_bottom] of one deque; a null task is reported and skipped. *)
Definition pop_own (s : sched D) (hi : bool) (i : nat) : outcome (sched D * option ptr) :=
  d ← deque_at s hi i;
  let '(d, r) := dq_pop_bottom d in
  Ok (set_deque s hi i d, match r with Some x => x | None => None end).

Definition local_section (s : sched D) (i : nat) : outcome (sched D) :=
  '(s, r) ← pop_own s true i;
  match r with
  | Some t => modify s i (fun w => goto (runs w (Some t)) Top)
  | None =>
      '(s, r) ← pop_own s false i;
      match r with
      | Some t => modify s i (fun w => goto (runs w (Some t)) Top)
      | None => modify s i (fun w => goto w Stealing)
      end
  end.

(** ** Section 4: stealing *)

(** [tryStealFrom(target)]: its result, and the task. *)
Definition tryStealFrom (s : sched D) (target : nat) : outcome (sched D * option (option ptr)) :=
  d ← deque_at s true target;
  let '(d, r) := dq_steal d in
  let s := set_deque s true target d in
  match r with
  | Some x => Ok (s, Some x)
  | None =>
      d ← deque_at s false target;
      let '(d, r) := dq_steal d in
      Ok (set_deque s false target d, r)
  end.

(** The probe of the cluster, from mate [mstart]. *)
Fixpoint probe (s : sched D) (mates : list nat) (mstart fuel i : nat)
    : outcome (sched D * option (option ptr)) :=
  match fuel with
  | O => Ok (s, None)
  | S fuel =>
      target ← at_ mates ((mstart + i) mod length mates)%nat;
      '(s, r) ← tryStealFrom s target;
      match r with
      | Some x => Ok (s, Some x)
      | None => probe s mates mstart fuel (S i)
      end
  end.

Definition roll (s : sched D) (i : nat) : outcome (sched D * Z) :=
  w ← at_ (workers s) i;
  let x := FastRand (rng w) in
  Ok (set_worker s i (rolled w x), x).

(** [task_to_run] after an attempt: a success stores the task it stole. *)
Definition stolen (r : option (option ptr)) : option ptr :=
  match r with Some x => x | None => None end.

Definition steal_cluster (s : sched D) (i : nat) : outcome (sched D * option ptr) :=
  mates ← at_ (clusterMates (topo s)) i;
  if decide (mates = []) then Ok (s, None)
  else
    w ← at_ (workers s) i;
    let probeLimit := if consecutiveMisses w <? kBackoffMissThreshold then length mates else 1%nat in
    '(s, x) ← roll s i;
    '(s, r) ← probe s mates (Z.to_nat (x mod Z.of_nat (length mates))) probeLimit 0;
    Ok (s, stolen r).

Definition steal_sibling (s : sched D) (i : nat) : outcome (sched D * option ptr) :=
  sibling ← at_ (siblingQIndex (topo s)) i;
  if sibling <? 0 then Ok (s, None)
  else
    v ← at_ (workers s) (Z.to_nat sibling);
    if busy v then Ok (s, None)
    else '(s, r) ← tryStealFrom s (Z.to_nat sibling); Ok (s, stolen r).

(** [FastRand() % (workers.size() - 1)], skipping [qIndex]. *)
Definition steal_random (s : sched D) (i : nat) : outcome (sched D * option ptr) :=
  '(s, x) ← roll s i;
  let m := (length (workers s) - 1)%nat in
  if decide (m = 0%nat) then Stuck
  else
    let res := Z.to_nat (x mod Z.of_nat m) in
    let res := if decide (res = i) then S res else res in
    '(s, r) ← tryStealFrom s res; Ok (s, stolen r).

Definition steal_section (s : sched D) (i : nat) : outcome (sched D) :=
  '(s, r) ← steal_cluster s i;
  '(s, r) ← (match r with Some t => Ok (s, Some t) | None => steal_sibling s i end);
  '(s, r) ← (match r with Some t => Ok (s, Some t) | None => steal_random s i end);
  match r with
  | Some t => modify s i (fun w => goto (missed (runs w (Some t)) 0) Top)
  | None => modify s i (fun w => goto (missed w (consecutiveMisses w + 1)) Inbox)
  end.

(** ** Section 5: the inboxes *)

(** One inbox into the deque of its priority, and a task from there; tasks the
    deque refuses are dropped. *)
Definition inbox_one (s : sched D) (hi : bool) (i : nat) : outcome (sched D * option (option ptr)) :=
  '(s, ts) ← pop_inbox s hi i;
  if decide (ts = []) then Ok (s, None)
  else
    d ← deque_at s hi i;
    let '(d, ok) := dq_push_bottom_batch d (Some <$> ts) in
    let s := set_deque s hi i d in
    if ok : bool then
      d ← deque_at s hi i;
      let '(d, r) := dq_pop_bottom d in
      Ok (set_deque s hi i d, r)
    else Ok (lose s ts, None).

Definition inbox_section (s : sched D) (i : nat) : outcome (sched D) :=
  '(s, r) ← inbox_one s true i;
  match r with
  | Some x => modify s i (fun w => goto (runs w x) Top)
  | None =>
      '(s, r) ← inbox_one s false i;
      match r with
      | Some x => modify s i (fun w => goto (runs w x) Top)
      | None => modify s i (fun w => goto w SleepCheck)
      end
  end.

(** ** The predicate of the sleep *)

Definition sleep_check (s : sched D) (i : nat) : outcome (sched D) :=
  w ← at_ (workers s) i;
  if negb (running w) || immediate w || (negb (paused (ctl s)) && hasQueuedWork w)
  then Ok (set_worker s i (goto w (if running w then Top else Exited)))
  else Ok (set_worker s i (goto w Asleep)).

Definition worker_step (s : sched D) (i : nat) (inp : input) : outcome (sched D) :=
  w ← at_ (workers s) i;
  match pc w with
  | Top => top s i w inp
  | Fast => finish_fast s i
  | OnFiber _ => switched_back s i (back inp)
  | Immediate => immediate_section s i
  | Local => local_section s i
  | Stealing => steal_section s i
  | Inbox => inbox_section s i
  | SleepCheck => sleep_check s i
  | Asleep | Exited => Blocked
  end.

(** ** The machine: clients, the main thread and the workers *)

(** What [CreateTask] returns: no wait group, fiber or fork mark yet. *)
Definition new_task (tk : task) : Prop :=
  waitGroup tk = None /\ assignedFiber tk = None /\ isForked tk = 0.
#[global] Instance new_task_dec tk : Decision (new_task tk) := _.

(** [WaitFor] is called on an existing group. *)
Definition group_exists (s : sched D) (b : switch_back) : Prop :=
  match b with Waited g => is_Some (waitGroups (obj s) !! g) | _ => True end.
#[global] Instance group_exists_dec s b : Decision (group_exists s b).
Proof. unfold group_exists. destruct b; apply _. Defined.

Inductive action :=
  | ACreate (t : ptr) (tk : task)               (* CreateTask returned slot t *)
  | ANewGroup (g : ptr)
  | APush (t : ptr) (cpuaffinity : Z)
  | APushBatch (ts : list ptr) (cpuaffinity : Z)
  | ARunCounted (g t : ptr)
  | APushImmediate (cpu_affinity : Z) (t : ptr)
  | APushFork (caller : option nat) (t : ptr)
  | AFinish (k : nat)                           (* call k in progress returns *)
  | APushMain (t : ptr)
  | AProcessMain
  | AHelp (r1 r2 : nat)                         (* TryRunStolenFastJob *)
  | AResume (t : ptr)                           (* an event signals a parked task *)
  | APause
  | AUnpause
  | AStopWorker (i : nat)                       (* Thread::Join stores running = false *)
  | AWorker (i : nat) (inp : input).

(** ** Where tasks are *)

(** The tasks a worker holds. *)
Definition held (w : worker) : list ptr := option_list (task_to_run w) ++ option_list (immediateTask w).
Definition in_deque (d : D) : list ptr := omap id (dq_elems d).

(** The tasks that callers are about to hand to a core. *)
Definition claimed (c : call) : option ptr := match c with Claiming _ t => Some t | Counting _ => None end.

(** The tasks of the pool: queued, held by a worker, parked, or in the hands of a
    caller past the check of [PushToCore]. *)
Definition pool (s : sched D) : list ptr :=
  concat (hiPriInboxes (qs s)) ++ concat (loPriInboxes (qs s)) ++
  concat (in_deque <$> hiPri (qs s)) ++ concat (in_deque <$> loPri (qs s)) ++
  concat (held <$> workers s) ++ parked (obj s) ++ omap claimed (submitting s).
Definition everywhere (s : sched D) : list ptr := mainQ (qs s) ++ pool s.

(** Clients submit tasks that exist and have not been submitted. *)
Definition submittable (s : sched D) (ts : list ptr) : Prop :=
  NoDup ts /\ Forall (fun t => (t ∉ everywhere s) /\ is_Some (tasks (obj s) !! t)) ts.
#[global] Instance submittable_dec s ts : Decision (submittable s ts) := _.

Definition step (a : action) (s : sched D) : outcome (sched D) :=
  match a with
  | ACreate t tk =>
      if decide (tasks (obj s) !! t = None /\ new_task tk)
      then Ok (set_tasks s (<[t := tk]> (tasks (obj s)))) else Blocked
  | ANewGroup g =>
      if decide (waitGroups (obj s) !! g = None)
      then Ok (set_groups s (<[g := mk_wait_group 0 []]> (waitGroups (obj s)))) else Blocked
  | APush t a => if decide (submittable s [t]) then fst <$> PushLocal s (Some t) a else Blocked
  | APushBatch ts a =>
      if decide (submittable s ts /\ ts <> []) then PushBatch s ts a else Blocked
  | ARunCounted g t =>
      if decide (submittable s [t] /\ is_Some (waitGroups (obj s) !! g)) then RunCounted s g t else Blocked
  | APushImmediate c t => if decide (submittable s [t]) then fst <$> PushImmediate s c (Some t) else Blocked
  | APushFork c t => if decide (submittable s [t]) then fst <$> PushFork s c (Some t) else Blocked
  | AFinish k => finish_call s k
  | APushMain t => if decide (submittable s [t]) then Ok (fst (PushMain s (Some t))) else Blocked
  | AProcessMain =>
      if poolActive (ctl s) then r ← process_main_one s; Ok (match r with Some s' => s' | None => s end)
      else Ok s
  | AHelp r1 r2 => fst <$> TryRunStolenFastJob s r1 r2
  | AResume t => resume_parked s t
  | APause => Ok (Pause s)
  | AUnpause => Ok (Resume s)
  | AStopWorker i => modify s i (fun w => notified (stopping w))
  | AWorker i inp => if decide (group_exists s (back inp)) then worker_step s i inp else Blocked
  end.

Definition exec (a : action) (s : sched D) : option (sched D) := returns (step a s).
End Worker.
