(* ===== verification/PoolSafety.v ===== *)
(** * No task is lost, duplicated or used after it is freed

    The invariant of the machine of [Worker.v], proved operation by operation
    with a small program logic: [safe m Q] says that [m] does not get stuck and
    that [Q] holds if it returns. *)
From S2P Require Import Prelude Task WorkDeque Scheduler Worker.

(** ** The logic *)

Definition safe {A} (m : outcome A) (Q : A -> Prop) : Prop :=
  match m with Ok a => Q a | Blocked => True | Stuck => False end.

Lemma safe_bind {A B} (m : outcome A) (f : A -> outcome B) Q :
  safe m (fun a => safe (f a) Q) -> safe (m ≫= f) Q.
Proof. by destruct m. Qed.
Lemma safe_fmap {A B} (m : outcome A) (f : A -> B) Q : safe m (fun a => Q (f a)) -> safe (f <$> m) Q.
Proof. by destruct m. Qed.
Lemma safe_mono {A} (m : outcome A) (P Q : A -> Prop) : safe m P -> (forall a, P a -> Q a) -> safe m Q.
Proof. destruct m; simpl; auto. Qed.
Lemma safe_at {A} (l : list A) i Q : (i < length l)%nat -> (forall x, l !! i = Some x -> Q x) -> safe (at_ l i) Q.
Proof. intros [x Hx]%lookup_lt_is_Some HQ. unfold at_. rewrite Hx. by apply HQ. Qed.
Lemma safe_deref {A} (m : gmap ptr A) p Q : is_Some (m !! p) -> (forall x, m !! p = Some x -> Q x) -> safe (deref m p) Q.
Proof. intros [x Hx] HQ. unfold deref. rewrite Hx. by apply HQ. Qed.

(** Replacing one list of a vector of lists. *)
Lemma concat_insert {A} (ls : list (list A)) i l l' :
  ls !! i = Some l -> l ++ concat (<[i := l']> ls) ≡ₚ l' ++ concat ls.
Proof.
  intros H. rewrite insert_take_drop by (by apply lookup_lt_Some in H).
  rewrite <- (take_drop_middle ls i l) at 3 by done.
  rewrite !concat_app. simpl. solve_Permutation.
Qed.

(** A replacement inside a concatenation. *)
Lemma perm_ctx {A} (L R x y l l' : list A) :
  x ++ l' ≡ₚ y ++ l -> x ++ (L ++ l' ++ R) ≡ₚ y ++ (L ++ l ++ R).
Proof.
  intros H. trans ((x ++ l') ++ L ++ R); [solve_Permutation|]. rewrite H. solve_Permutation.
Qed.
(** The same with the parts taken to and from the side. *)
Lemma perm_swap {A} (x y l l' e e' : list A) :
  x ++ l' ≡ₚ y ++ l -> y ++ e' ≡ₚ x ++ e -> l' ++ e' ≡ₚ l ++ e.
Proof.
  intros H1 H2. apply (Permutation_app_inv_l (x ++ y)).
  trans ((x ++ l') ++ (y ++ e')); [solve_Permutation|]. rewrite H1, H2. solve_Permutation.
Qed.

(** ** The invariant *)
Section Safety.
Context {D : Type} `{WD : WorkDeque D} (N : nat) (HN : (2 <= N <= 256)%nat) (ph : Z).

Definition call_core (c : call) : nat := match c with Counting i => i | Claiming i _ => i end.

Record shaped (s : sched D) : Prop := mk_shaped {
  s_workers : length (workers s) = N;
  s_flags : length (immediateCoresInUse s) = N;
  s_hi : length (hiPri (qs s)) = N;
  s_lo : length (loPri (qs s)) = N;
  s_hiin : length (hiPriInboxes (qs s)) = N;
  s_loin : length (loPriInboxes (qs s)) = N;
  s_next : (nextWorker (ctl s) < N)%nat;
  s_sib : length (siblingQIndex (topo s)) = N;
  s_sibs : Forall (fun x => x < Z.of_nat N) (siblingQIndex (topo s));
  s_mate : length (clusterMates (topo s)) = N;
  s_mates : Forall (Forall (fun i => (i < N)%nat)) (clusterMates (topo s));
  s_calls : Forall (fun c => (call_core c < N)%nat) (submitting s)
}.

(** A worker past section 1 has no task; one that runs a task has it. *)
Definition pc_ok (w : worker) : Prop :=
  match pc w with
  | Fast | OnFiber _ => task_to_run w <> None
  | Immediate | Local | Stealing | Inbox | SleepCheck | Asleep => task_to_run w = None
  | Top | Exited => True
  end.

(** [I b acc extra d s]: [extra] are tasks taken out of the state in the middle
    of an operation, [acc] every task that was ever submitted, [d] by how much
    [pendingTasks] is ahead (a call in progress is one behind); [b] pushes are left before an index could wrap. *)
Record I (b : Z) (acc extra : list ptr) (d : Z) (s : sched D) : Prop := mk_I {
  i_shape : shaped s;
  i_budget : 1 <= b;
  i_hi : Forall (dq_ok b) (hiPri (qs s));
  i_lo : Forall (dq_ok b) (loPri (qs s));
  i_once : NoDup (everywhere s ++ extra);
  i_live : Forall (fun t => is_Some (tasks (obj s) !! t)) (everywhere s ++ extra);
  i_groups : forall t tk g, tasks (obj s) !! t = Some tk -> waitGroup tk = Some g ->
               is_Some (waitGroups (obj s) !! g);
  i_acc : everywhere s ++ extra ++ completed (gh s) ++ lost (gh s) ≡ₚ acc;
  i_pend : pendingTasks (ctl s) =
           s32 (Z.of_nat (length (pool s)) + Z.of_nat (length (lost (gh s))) + phantom (gh s)
                - Z.of_nat (length (submitting s)) + d);
  i_leak : 0 <= phantom (gh s) /\ ph <= phantom (gh s) + Z.of_nat (length (lost (gh s)));
  i_pcs : Forall pc_ok (workers s)
}.

(** Tasks move between the queues, the workers and the operation's hands. *)
Lemma I_move b b' acc extra extra' d d' s s' :
  I b acc extra d s -> shaped s' ->
  1 <= b' -> Forall (dq_ok b') (hiPri (qs s')) -> Forall (dq_ok b') (loPri (qs s')) ->
  tasks (obj s') = tasks (obj s) -> waitGroups (obj s') = waitGroups (obj s) -> gh s' = gh s ->
  Forall pc_ok (workers s') ->
  everywhere s' ++ extra' ≡ₚ everywhere s ++ extra -> pendingTasks (ctl s') = pendingTasks (ctl s) ->
  Z.of_nat (length (pool s')) - Z.of_nat (length (submitting s')) + d' =
    Z.of_nat (length (pool s)) - Z.of_nat (length (submitting s)) + d ->
  I b' acc extra' d' s'.
Proof.
  intros [Hsh Hb Hhi Hlo Hon Hli Hgr Hac Hpe Hle Hpc] Hsh' Hb' Hhi' Hlo' Ht Hg Hgh Hpc' HP Hpend Hd.
  constructor; try done.
  - by rewrite HP.
  - by rewrite HP, Ht.
  - rewrite Ht, Hg. done.
  - rewrite Hgh, (assoc_L (++)), HP, <- (assoc_L (++)). done.
  - rewrite Hpend, Hpe, Hgh. f_equal. lia.
  - by rewrite Hgh.
Qed.

(** The same when only queues, workers and counters of the same shape change. *)
Lemma I_same b acc extra d s s' :
  I b acc extra d s -> shaped s' -> qs s' = qs s -> workers s' = workers s -> obj s' = obj s ->
  gh s' = gh s -> pendingTasks (ctl s') = pendingTasks (ctl s) -> submitting s' = submitting s -> I b acc extra d s'.
Proof.
  intros Hi Hsh Hq Hw Ho Hg Hp Hc. pose proof Hi as [? ? ? ? ? ? ? ? ? ? ?].
  assert (Hpool : pool s' = pool s) by (unfold pool; by rewrite Hq, Hw, Ho, Hc).
  assert (Hev : everywhere s' = everywhere s) by (unfold everywhere; by rewrite Hpool, Hq).
  eapply I_move; try exact Hi; rewrite ?Hq, ?Ho, ?Hw, ?Hev, ?Hpool, ?Hp, ?Hc; done.
Qed.

Lemma I_weaken b b' acc extra d s : 1 <= b' <= b -> I b acc extra d s -> I b' acc extra d s.
Proof.
  intros Hb [? ? Hhi Hlo ? ? ? ? ? ? ?]. constructor; try done; try lia.
  - eapply Forall_impl; [exact Hhi|]. intros x. apply (dq_ok_weaken b b'). lia.
  - eapply Forall_impl; [exact Hlo|]. intros x. apply (dq_ok_weaken b b'). lia.
Qed.

Lemma I_perm b acc extra extra' d s : extra' ≡ₚ extra -> I b acc extra d s -> I b acc extra' d s.
Proof.
  intros HP Hi. pose proof Hi as [? ? ? ? ? ? ? ? ? ? ?]. eapply I_move; try exact Hi; try done. by rewrite HP.
Qed.

Lemma I_shift b acc extra d d' s : d = d' -> I b acc extra d s -> I b acc extra d' s.
Proof. by intros ->. Qed.

Lemma I_live_in b acc extra d s t :
  I b acc extra d s -> t ∈ extra -> is_Some (tasks (obj s) !! t).
Proof. intros Hi Ht. pose proof (i_live _ _ _ _ _ Hi) as Hl. rewrite Forall_forall in Hl. apply Hl. set_solver. Qed.

(** ** Primitive updates *)

Lemma add_pending_I b acc e d s k : I b acc e d s -> I b acc e (d + k) (add_pending s k).
Proof.
  intros [Hsh Hb Hhi Hlo Hon Hli Hgr Hac Hpe Hle Hpc]. destruct Hsh. constructor; try done.
  simpl. rewrite Hpe, s32_add_l. f_equal. change (pool (add_pending s k)) with (pool s). lia.
Qed.

(** A call begins, or goes on with what it has left. *)
Lemma begin_call_I b acc e e' d d' s c :
  (call_core c < N)%nat -> option_list (claimed c) ++ e' ≡ₚ e -> d' = d + 1 - Z.of_nat (length (option_list (claimed c))) ->
  I b acc e d s -> I b acc e' d' (begin_call s c).
Proof.
  intros Hc He Hd Hi. pose proof Hi as [Hsh ? ? ? ? ? ? ? ? ? ?]. destruct Hsh.
  assert (Hp : pool (begin_call s c) = pool s ++ option_list (claimed c)).
  { unfold pool. simpl. rewrite omap_app. simpl. rewrite <- !(assoc_L (++)). by destruct (claimed c). }
  eapply I_move; try exact Hi; try done.
  - constructor; try done. simpl. apply Forall_app. split; [done|by constructor].
  - unfold everywhere. rewrite Hp. simpl. rewrite <- He. solve_Permutation.
  - rewrite Hp. simpl. rewrite !length_app. simpl. lia.
Qed.
Lemma take_call_I b acc e d s k c : submitting s !! k = Some c -> I b acc e d s ->
  (call_core c < N)%nat /\
  I b acc (option_list (claimed c) ++ e) (d - 1 + Z.of_nat (length (option_list (claimed c)))) (set_submitting s (delete k (submitting s))).
Proof.
  intros Hk Hi. pose proof (s_calls s (i_shape _ _ _ _ _ Hi)) as Hc. pose proof Hi as [Hsh ? ? ? ? ? ? ? ? ? ?]. destruct Hsh.
  split; [exact (Forall_lookup_1 _ _ _ _ Hc Hk)|].
  pose proof (delete_Permutation _ _ _ Hk) as HP.
  assert (Hp : pool s ≡ₚ option_list (claimed c) ++ pool (set_submitting s (delete k (submitting s)))).
  { unfold pool. simpl. rewrite HP at 1. simpl. destruct (claimed c); simpl; solve_Permutation. }
  eapply I_move; try exact Hi; try done.
  - constructor; try done. simpl. by apply Forall_delete.
  - unfold everywhere. rewrite Hp. simpl. solve_Permutation.
  - rewrite Hp. rewrite (Permutation_length HP). simpl. rewrite !length_app. lia.
Qed.

Lemma set_nextWorker_I b acc e d s k :
  (k < N)%nat -> I b acc e d s -> I b acc e d (set_nextWorker s k).
Proof. intros Hk Hi. pose proof (i_shape _ _ _ _ _ Hi) as []. by eapply I_same. Qed.

Lemma set_steals_I b acc e d s k : I b acc e d s -> I b acc e d (set_steals s k).
Proof. intros Hi. pose proof (i_shape _ _ _ _ _ Hi) as []. by eapply I_same. Qed.

Lemma set_flag_I b acc e d s i v : I b acc e d s -> I b acc e d (set_flag s i v).
Proof.
  intros Hi. pose proof (i_shape _ _ _ _ _ Hi) as []. eapply I_same; try done.
  constructor; try done. simpl. by rewrite length_insert.
Qed.

(** In the pool [x] is replaced by [y]. *)
Lemma I_pool x y b b' acc e e' d d' s s' :
  I b acc e d s -> shaped s' -> 1 <= b' ->
  Forall (dq_ok b') (hiPri (qs s')) -> Forall (dq_ok b') (loPri (qs s')) ->
  tasks (obj s') = tasks (obj s) -> waitGroups (obj s') = waitGroups (obj s) -> gh s' = gh s ->
  ctl s' = ctl s -> submitting s' = submitting s -> mainQ (qs s') = mainQ (qs s) -> Forall pc_ok (workers s') ->
  x ++ pool s' ≡ₚ y ++ pool s -> y ++ e' ≡ₚ x ++ e ->
  d' = d + Z.of_nat (length x) - Z.of_nat (length y) ->
  I b' acc e' d' s'.
Proof.
  intros Hi Hsh Hb Hhi Hlo Ht Hg Hgh Hc Hsub Hm Hpc HP Hxy Hd. eapply I_move; try exact Hi; try done.
  - unfold everywhere. rewrite Hm, <- !(assoc_L (++)). f_equiv. by eapply perm_swap.
  - by rewrite Hc.
  - apply Permutation_length in HP. rewrite !length_app in HP. rewrite Hsub. lia.
Qed.

Lemma set_worker_I b acc e e' d d' s i w w' :
  workers s !! i = Some w -> pc_ok w' -> held w' ++ e' ≡ₚ held w ++ e ->
  d' = d + Z.of_nat (length (held w)) - Z.of_nat (length (held w')) ->
  I b acc e d s -> I b acc e' d' (set_worker s i w').
Proof.
  intros Hw Hpc Hh Hd Hi. pose proof Hi as [Hsh ? ? ? ? ? ? ? ? ? Hpcs]. destruct Hsh.
  eapply (I_pool (held w) (held w')); try exact Hi; try done.
  - constructor; try done. simpl. by rewrite length_insert.
  - simpl. by apply Forall_insert.
  - unfold pool. simpl. rewrite list_fmap_insert.
    pose proof (concat_insert (held <$> workers s) i (held w) (held w')) as Hc.
    rewrite list_lookup_fmap, Hw in Hc. specialize (Hc eq_refl).
    apply (perm_ctx (concat (hiPriInboxes (qs s)) ++ concat (loPriInboxes (qs s)) ++
      concat (in_deque <$> hiPri (qs s)) ++ concat (in_deque <$> loPri (qs s))) (parked (obj s) ++ omap claimed (submitting s))) in Hc.
    by rewrite <- ?(assoc_L (++)) in Hc.
Qed.

Lemma set_deque_I b b' acc e e' d d' s hi i dq dq' :
  deque_at s hi i = Ok dq -> 1 <= b' <= b -> dq_ok b' dq' ->
  in_deque dq' ++ e' ≡ₚ in_deque dq ++ e ->
  d' = d + Z.of_nat (length (in_deque dq)) - Z.of_nat (length (in_deque dq')) ->
  I b acc e d s -> I b' acc e' d' (set_deque s hi i dq').
Proof.
  intros Hat Hb Hok He Hd Hi. pose proof Hi as [Hsh ? Hhi Hlo ? ? ? ? ? ? Hpcs]. destruct Hsh.
  assert (Hw : forall l, Forall (dq_ok b) l -> Forall (dq_ok b') l).
  { intros l Hl. eapply Forall_impl; [exact Hl|]. intros x. apply (dq_ok_weaken b b'). lia. }
  pose proof (concat_insert (in_deque <$> (if hi then hiPri (qs s) else loPri (qs s))) i
                (in_deque dq) (in_deque dq')) as Hc.
  rewrite list_lookup_fmap, <- list_fmap_insert in Hc.
  eapply (I_pool (in_deque dq) (in_deque dq')); try exact Hi; try done; destruct hi; simpl in *;
    try lia; auto using Forall_insert; apply at_ok in Hat; rewrite Hat in Hc; specialize (Hc eq_refl).
  - constructor; try done. simpl. by rewrite length_insert.
  - constructor; try done. simpl. by rewrite length_insert.
  - apply (perm_ctx (concat (hiPriInboxes (qs s)) ++ concat (loPriInboxes (qs s)))
      (concat (in_deque <$> loPri (qs s)) ++ concat (held <$> workers s) ++ parked (obj s) ++ omap claimed (submitting s))) in Hc.
    by rewrite <- ?(assoc_L (++)) in Hc.
  - apply (perm_ctx (concat (hiPriInboxes (qs s)) ++ concat (loPriInboxes (qs s)) ++
      concat (in_deque <$> hiPri (qs s))) (concat (held <$> workers s) ++ parked (obj s) ++ omap claimed (submitting s))) in Hc.
    by rewrite <- ?(assoc_L (++)) in Hc.
Qed.

(** An inbox of either priority is replaced. *)
Definition inboxes (s : sched D) (hi : bool) : list (list ptr) :=
  if hi then hiPriInboxes (qs s) else loPriInboxes (qs s).
Definition set_inbox (s : sched D) (hi : bool) (i : nat) (l : list ptr) : sched D :=
  let q := qs s in
  set_qs s (if hi
    then mk_queues (hiPri q) (loPri q) (<[i := l]> (hiPriInboxes q)) (loPriInboxes q) (mainQ q)
    else mk_queues (hiPri q) (loPri q) (hiPriInboxes q) (<[i := l]> (loPriInboxes q)) (mainQ q)).

Lemma set_inbox_I b acc e e' d d' s hi i l l' :
  inboxes s hi !! i = Some l -> l' ++ e' ≡ₚ l ++ e ->
  d' = d + Z.of_nat (length l) - Z.of_nat (length l') ->
  I b acc e d s -> I b acc e' d' (set_inbox s hi i l').
Proof.
  intros Hat He Hd Hi. pose proof Hi as [Hsh ? Hhi Hlo ? ? ? ? ? ? Hpcs]. destruct Hsh.
  pose proof (concat_insert _ _ _ l' Hat) as Hc.
  eapply (I_pool l l'); try exact Hi; try done; destruct hi; simpl in *; try done.
  - constructor; try done. simpl. by rewrite length_insert.
  - constructor; try done. simpl. by rewrite length_insert.
  - unfold pool. simpl. apply (perm_ctx [] (concat (loPriInboxes (qs s)) ++ concat (in_deque <$> hiPri (qs s)) ++
      concat (in_deque <$> loPri (qs s)) ++ concat (held <$> workers s) ++ parked (obj s) ++ omap claimed (submitting s))) in Hc.
    by rewrite <- ?(assoc_L (++)) in Hc.
  - unfold pool. simpl. apply (perm_ctx (concat (hiPriInboxes (qs s))) (concat (in_deque <$> hiPri (qs s)) ++
      concat (in_deque <$> loPri (qs s)) ++ concat (held <$> workers s) ++ parked (obj s) ++ omap claimed (submitting s))) in Hc.
    by rewrite <- ?(assoc_L (++)) in Hc.
Qed.

Lemma set_parked_I b acc e e' d d' s l' :
  l' ++ e' ≡ₚ parked (obj s) ++ e ->
  d' = d + Z.of_nat (length (parked (obj s))) - Z.of_nat (length l') ->
  I b acc e d s -> I b acc e' d' (set_parked s l').
Proof.
  intros He Hd Hi. pose proof Hi as [Hsh ? Hhi Hlo ? ? ? ? ? ? Hpcs]. destruct Hsh.
  eapply (I_pool (parked (obj s)) l'); try exact Hi; try done.
  unfold pool; simpl. set (P := concat (hiPriInboxes (qs s))). solve_Permutation.
Qed.

Lemma lose_I b acc e d s l : I b acc (l ++ e) d s -> I b acc e (d - Z.of_nat (length l)) (lose s l).
Proof.
  intros [Hsh Hb Hhi Hlo Hon Hli Hgr Hac Hpe Hle Hpc]. destruct Hsh. 
  change (everywhere s) with (everywhere (lose s l)) in *. change (pool s) with (pool (lose s l)) in Hpe.
  constructor; try done; simpl in *.
  - apply NoDup_app in Hon as (? & Hd & [_ [_ ?]]%NoDup_app). apply NoDup_app. split_and!; try done.
    intros x Hx Hx'. apply (Hd x Hx). apply elem_of_app. by right.
  - rewrite !Forall_app in *. tauto.
  - etrans; [|exact Hac]. solve_Permutation.
  - rewrite Hpe. f_equal. rewrite length_app. change (pool (lose s l)) with (pool s). lia.
  - rewrite length_app. lia.
Qed.

Lemma destroy_I b acc e d s t : I b acc (t :: e) d s -> I b acc e d (destroy s t).
Proof.
  intros [Hsh Hb Hhi Hlo Hon Hli Hgr Hac Hpe Hle Hpc]. destruct Hsh.
  change (everywhere s) with (everywhere (destroy s t)) in *. change (pool s) with (pool (destroy s t)) in Hpe.
  assert (Hn : NoDup (t :: everywhere (destroy s t) ++ e)) by (by rewrite Permutation_middle).
  apply NoDup_cons in Hn as [Ht Hn].
  constructor; try done; simpl in *.
  - rewrite !Forall_app, Forall_cons in Hli. destruct Hli as (Hl1 & _ & Hl2).
    apply Forall_forall. intros x Hx. rewrite lookup_delete_ne by (intros ->; done).
    apply elem_of_app in Hx as [Hx|Hx]; [rewrite Forall_forall in Hl1|rewrite Forall_forall in Hl2]; auto.
  - intros t' tk g [_ Ht']%lookup_delete_Some. by eapply Hgr.
  - etrans; [|exact Hac]. solve_Permutation.
Qed.

Lemma set_mainQ_I b acc e e' d s l :
  l ++ e' ≡ₚ mainQ (qs s) ++ e -> I b acc e d s -> I b acc e' d (set_mainQ s l).
Proof.
  intros He Hi. pose proof Hi as [Hsh ? Hhi Hlo ? ? ? ? ? ? Hpcs]. destruct Hsh.
  eapply I_move; try exact Hi; try done.
  unfold everywhere. simpl. change (pool (set_mainQ s l)) with (pool s).
  rewrite (Permutation_app_comm l), (Permutation_app_comm (mainQ _)), <- !(assoc_L (++)). by rewrite He.
Qed.

Lemma set_groups_I b acc e d s g wg :
  I b acc e d s -> I b acc e d (set_groups s (<[g := wg]> (waitGroups (obj s)))).
Proof.
  intros [Hsh Hb Hhi Hlo Hon Hli Hgr Hac Hpe Hle Hpc]. destruct Hsh. constructor; try done.
  simpl. intros t tk g' Ht Hg. destruct (decide (g = g')) as [<-|Hne].
  - rewrite lookup_insert_eq. by eexists.
  - rewrite lookup_insert_ne by done. eauto.
Qed.

Lemma set_tasks_I b acc e d s t tk :
  (forall g, waitGroup tk = Some g -> is_Some (waitGroups (obj s) !! g)) ->
  I b acc e d s -> I b acc e d (set_tasks s (<[t := tk]> (tasks (obj s)))).
Proof.
  intros Hg0 [Hsh Hb Hhi Hlo Hon Hli Hgr Hac Hpe Hle Hpc]. destruct Hsh. constructor; try done; simpl.
  - eapply Forall_impl; [exact Hli|]. intros x Hx. simpl. destruct (decide (t = x)) as [<-|Hne].
    + rewrite lookup_insert_eq. by eexists.
    + by rewrite lookup_insert_ne.
  - intros t' tk' g Ht' Hg. apply lookup_insert_Some in Ht' as [[<- <-]|[? Ht']]; eauto.
Qed.

Lemma phantom_I b acc e d s k :
  0 <= k -> I b acc e d s ->
  let g := gh s in I b acc e (d - k) (set_gh s (mk_ghost (completed g) (lost g) (phantom g + k))).
Proof.
  intros Hk [Hsh Hb Hhi Hlo Hon Hli Hgr Hac Hpe Hle Hpc]. destruct Hsh. constructor; try done; simpl;
    [|lia]. rewrite Hpe. change (pool (set_gh _ _)) with (pool s). f_equal. lia.
Qed.

(** ** Operations *)

(** The tasks workers hold are where they were. *)
Definition hands (w : worker) : option ptr * option ptr := (task_to_run w, immediateTask w).
Definition same (s s' : sched D) : Prop := hands <$> workers s' = hands <$> workers s.
#[local] Instance same_po : PreOrder same.
Proof. unfold same. split; [done|]. intros x y z H1 H2. congruence. Qed.

Lemma same_lookup s s' i w w' :
  same s s' -> workers s !! i = Some w -> workers s' !! i = Some w' -> hands w' = hands w.
Proof.
  intros Hs Hw Hw'. assert (H : (hands <$> workers s') !! i = (hands <$> workers s) !! i) by by rewrite Hs.
  rewrite !list_lookup_fmap, Hw, Hw' in H. simpl in H. congruence.
Qed.

Lemma same_set_worker s i w w' :
  workers s !! i = Some w -> hands w' = hands w -> same s (set_worker s i w').
Proof.
  intros Hw Hh. unfold same. simpl. rewrite list_fmap_insert.
  apply list_insert_id. by rewrite list_lookup_fmap, Hw, Hh.
Qed.

Lemma held_hands w w' : hands w' = hands w -> held w' = held w.
Proof. unfold hands, held. intros [= -> ->]. done. Qed.

Lemma hands_notified w : hands (notified w) = hands w.
Proof. done. Qed.

Lemma I_worker b acc e d s i : I b acc e d s -> (i < N)%nat -> (i < length (workers s))%nat.
Proof. intros [[]]. lia. Qed.

(** A change of a worker that leaves its tasks alone. *)
Lemma modify_safe b acc e d s i f :
  I b acc e d s -> (i < N)%nat ->
  (forall w, workers s !! i = Some w -> pc_ok w -> pc_ok (f w) /\ hands (f w) = hands w) ->
  safe (modify s i f) (fun s' => I b acc e d s' /\ same s s').
Proof.
  intros Hi Hlt Hf. apply safe_bind, safe_at; [by eapply I_worker|]. intros w Hw. simpl.
  pose proof (i_pcs _ _ _ _ _ Hi) as Hpc. pose proof (Forall_lookup_1 _ _ _ _ Hpc Hw) as Hpw.
  destruct (Hf w Hw Hpw) as [Hp Hh]. split; [|by eapply same_set_worker].
  eapply set_worker_I; try exact Hi; try done; rewrite (held_hands _ _ Hh); [done|lia].
Qed.

Lemma modify_eq (s : sched D) i f w : workers s !! i = Some w -> modify s i f = Ok (set_worker s i (f w)).
Proof. intros H. unfold modify, at_. by rewrite H. Qed.

Lemma pc_ok_marked w : pc_ok w -> pc_ok (marked w).
Proof. unfold pc_ok, marked. simpl. by destruct (pc w). Qed.

Lemma mark_and_notify_safe b acc e d s i :
  I b acc e d s -> (i < N)%nat ->
  safe (mark_and_notify s i) (fun s' => I b acc e d s' /\ same s s').
Proof.
  intros Hi Hlt. change (mark_and_notify s i) with (modify s i marked).
  apply modify_safe; [done|done|]. intros w _ Hp. split; [by apply pc_ok_marked|done].
Qed.

Lemma inbox_push_safe b acc e d s hi i ts :
  I b acc (ts ++ e) d s -> (i < N)%nat ->
  safe (inbox_push s hi i ts) (fun s' => I b acc e (d - Z.of_nat (length ts)) s' /\ same s s').
Proof.
  intros Hi Hlt.
  assert (inbox_push s hi i ts = l ← at_ (inboxes s hi) i; Ok (set_inbox s hi i (l ++ ts))) as ->
    by (by destruct hi).
  apply safe_bind, safe_at.
  { pose proof (i_shape _ _ _ _ _ Hi) as []. destruct hi; simpl; lia. }
  intros l Hl. simpl. split; [|done]. eapply set_inbox_I; try exact Hi; try done.
  - solve_Permutation.
  - rewrite length_app. lia.
Qed.

Lemma pop_inbox_safe b acc e d s hi i :
  I b acc e d s -> (i < N)%nat ->
  safe (pop_inbox s hi i) (fun '(s', ts) =>
    I b acc (ts ++ e) (d + Z.of_nat (length ts)) s' /\ same s s' /\ (length ts <= BATCH_SIZE)%nat).
Proof.
  intros Hi Hlt.
  assert (pop_inbox s hi i = l ← at_ (inboxes s hi) i;
      Ok (set_inbox s hi i (drop BATCH_SIZE l), take BATCH_SIZE l)) as -> by (by destruct hi).
  apply safe_bind, safe_at.
  { pose proof (i_shape _ _ _ _ _ Hi) as []. destruct hi; simpl; lia. }
  intros l Hl. simpl. split; [|split; [done|rewrite length_take; lia]].
  eapply set_inbox_I; try exact Hi; try done.
  - rewrite (assoc_L (++)), (Permutation_app_comm (drop _ _)), take_drop. done.
  - rewrite length_take, length_drop. lia.
Qed.

Lemma pick_safe flags next n fuel i :
  length flags = n -> (0 < n)%nat ->
  safe (pick flags next n fuel i)
    (fun r => match r with Some idx => (idx < n)%nat /\ flags !! idx = Some false | None => True end).
Proof.
  intros Hf Hn. revert i. induction fuel as [|fuel IH]; intros i; simpl; [done|].
  assert (((next + i) mod n < n)%nat) by (apply Nat.mod_upper_bound; lia).
  apply safe_bind, safe_at; [lia|]. intros [] Hb; simpl; auto.
Qed.

Lemma PickNextWorker_safe b acc e d s :
  I b acc e d s ->
  safe (PickNextWorker s) (fun '(idx, s') => (idx < N)%nat /\ I b acc e d s' /\ same s s').
Proof.
  intros Hi. pose proof (i_shape _ _ _ _ _ Hi) as Hsh. destruct Hsh as [Hw Hf ? ? ? ? Hnx ? ? ? ? ?].
  unfold PickNextWorker. rewrite Hw. apply safe_bind. eapply safe_mono; [apply pick_safe; lia|].
  intros [idx|] Hr; simpl.
  - destruct Hr as [Hlt _]. split; [done|]. split; [|done]. apply set_nextWorker_I; [|done].
    apply Nat.mod_upper_bound. lia.
  - rewrite decide_False by lia. simpl. split; [done|]. split; [|done]. apply set_nextWorker_I; [|done].
    apply Nat.mod_upper_bound. lia.
Qed.

Lemma pick_free_int_safe b acc e d s :
  I b acc e d s ->
  safe (pick_free_int s) (fun '(idx, s') => (idx < N)%nat /\ I b acc e d s' /\ same s s').
Proof.
  intros Hi. apply safe_bind. eapply safe_mono; [by apply PickNextWorker_safe|].
  intros [idx s'] (Hlt & Hi' & Hs). apply safe_bind, safe_at; [pose proof (i_shape _ _ _ _ _ Hi') as []; lia|].
  intros [] Hb; simpl; auto.
Qed.

(** With at most 256 workers the [uint8_t] keeps the index. *)
Lemma pick_free_safe b acc e d s :
  I b acc e d s ->
  safe (pick_free s) (fun '(idx, s') => (idx < N)%nat /\ I b acc e d s' /\ same s s').
Proof.
  intros Hi. apply safe_bind. eapply safe_mono; [by apply PickNextWorker_safe|].
  intros [idx s'] (Hlt & Hi' & Hs). 
  assert (u8 (Z.of_nat idx) = Z.of_nat idx) as -> by (apply Z.mod_small; lia). rewrite Nat2Z.id.
  apply safe_bind, safe_at; [pose proof (i_shape _ _ _ _ _ Hi') as []; lia|].
  intros [] Hb; simpl; auto.
Qed.

Lemma Requeue_safe b acc e d s t :
  I b acc (t :: e) d s ->
  safe (Requeue s (Some t)) (fun '(s', _) => I b acc e (d - 1) s' /\ same s s').
Proof.
  intros Hi. unfold Requeue. apply safe_bind. eapply safe_mono; [by apply pick_free_safe|].
  intros [c s1] (Hc & Hi1 & Hs1). apply safe_bind, safe_deref; [eapply I_live_in; [done|by left]|].
  intros tk _. apply safe_bind. eapply safe_mono; [by eapply (inbox_push_safe b acc e d _ _ _ [t])|].
  intros s2 [Hi2 Hs2]. apply safe_bind. eapply safe_mono; [by apply mark_and_notify_safe|].
  intros s3 [Hi3 Hs3]. simpl. split; [done|]. by rewrite Hs1, Hs2, Hs3.
Qed.

Lemma PushLocal_safe b acc e d s t a :
  I b acc (t :: e) d s ->
  safe (PushLocal s (Some t) a) (fun '(s', ok) =>
    (if ok : bool then I b acc e d s' else I b acc (t :: e) d s') /\ same s s').
Proof.
  intros Hi. unfold PushLocal. pose proof (i_shape _ _ _ _ _ Hi) as [Hw Hf ? ? ? ? ? ? ? ? ? ?]. rewrite Hw.
  destruct ((0 <? a) && (a - 1 <? Z.of_nat N)) eqn:Ha.
  - apply andb_true_iff in Ha as [H1%Z.ltb_lt H2%Z.ltb_lt].
    assert (Hlt : (Z.to_nat (a - 1) < N)%nat) by lia.
    apply safe_bind, safe_at; [lia|]. intros [] Hb; simpl negb; cbv iota; [by simpl|].
    apply safe_bind. eapply safe_mono; [by eapply (inbox_push_safe b acc e d _ _ _ [t])|].
    intros s2 [Hi2 Hs2]. simpl. split; [|done]. eapply begin_call_I; [done|done| |exact Hi2]. simpl. lia.
  - apply safe_bind. eapply safe_mono; [by apply pick_free_safe|].
    intros [c s1] (Hc & Hi1 & Hs1). apply safe_bind, safe_deref; [eapply I_live_in; [done|by left]|].
    intros tk _. apply safe_bind. eapply safe_mono; [by eapply (inbox_push_safe b acc e d _ _ _ [t])|].
    intros s2 [Hi2 Hs2]. simpl. split; [|by etrans]. eapply begin_call_I; [done|done| |exact Hi2]. simpl. lia.
Qed.
Lemma PushBatch_safe b acc e d s ts a :
  I b acc (ts ++ e) d s -> ts <> [] -> 0 <= a <= Z.of_nat N ->
  safe (PushBatch s ts a) (fun s' => I b acc e d s').
Proof.
  intros Hi Hts Ha. unfold PushBatch. rewrite decide_False by done.
  pose proof (add_pending_I _ _ _ _ _ (Z.of_nat (length ts)) Hi) as Hi0.
  apply safe_bind. eapply (safe_mono _ (fun '(c, s') => (c < N)%nat /\ I b acc (ts ++ e) (d + Z.of_nat (length ts)) s')).
  - destruct (Z.eqb_spec a 0).
    + eapply safe_mono; [by apply pick_free_int_safe|]. intros [c s'] (? & ? & _). done.
    + apply safe_bind, safe_at; [pose proof (i_shape _ _ _ _ _ Hi0) as []; lia|].
      intros [] _; [|simpl; split; [lia|done]].
      eapply safe_mono; [by apply pick_free_int_safe|]. intros [c s'] (? & ? & _). done.
  - intros [c s'] [Hc Hi']. apply safe_bind. eapply safe_mono; [by eapply (inbox_push_safe b acc e)|].
    intros s2 [Hi2 _]. eapply safe_mono; [by apply mark_and_notify_safe|]. intros s3 [Hi3 _].
    eapply I_shift; [|exact Hi3]. lia.
Qed.

Lemma RunCounted_safe b acc e d s g t :
  I b acc (t :: e) d s -> is_Some (waitGroups (obj s) !! g) ->
  safe (RunCounted s g t) (fun s' => I b acc e d s' \/ I b acc (t :: e) d s').
Proof.
  intros Hi Hg. unfold RunCounted. apply safe_bind, safe_deref; [done|]. intros wg _.
  apply safe_bind, safe_deref; [eapply I_live_in; [done|by left]|]. intros tk _.
  apply safe_fmap. eapply safe_mono.
  - apply PushLocal_safe, set_tasks_I; [|by apply set_groups_I].
    simpl. intros g' [= <-]. rewrite lookup_insert_eq. by eexists.
  - intros [s' []] [? _]; simpl; auto.
Qed.

Lemma PushToCore_safe b acc e d s c t :
  I b acc (t :: e) d s ->
  safe (PushToCore s c (Some t)) (fun '(s', ok) => if ok : bool then I b acc e d s' else I b acc (t :: e) d s').
Proof.
  intros Hi. unfold PushToCore. destruct (c <? 1); [done|]. destruct (negb _); [done|].
  pose proof (i_shape _ _ _ _ _ Hi) as Hsh. destruct Hsh as [Hw Hf ? ? ? ? ? ? ? ? ? ?]. rewrite Hw.
  destruct (Z.eqb_spec (Z.of_nat N) 0); [lia|].
  assert (Hlt : (Z.to_nat ((c - 1) mod Z.of_nat N) < N)%nat)
    by (pose proof (Z.mod_pos_bound (c - 1) (Z.of_nat N)); lia).
  apply safe_bind, safe_at; [lia|]. intros [] _; [done|]. simpl.
  eapply begin_call_I; [done|done| |exact Hi]. simpl. lia.
Qed.

Lemma give_core_safe b acc e d s idx t :
  I b acc (t :: e) d s -> (idx < N)%nat -> safe (give_core s idx t) (fun s' => I b acc e d s').
Proof.
  intros Hi Hlt. unfold give_core. pose proof (i_shape _ _ _ _ _ Hi) as [Hw ? ? ? ? ? ? ? ? ? ? ?].
  apply safe_bind, safe_at; [simpl; lia|]. intros w Hwi. simpl in Hwi.
  set (imm := match immediateTask w with Some t' => [t'] | None => [] end).
  assert (Hi1 : I b acc (t :: e) (d + 1) (add_pending (set_flag s idx true) 1))
    by by apply add_pending_I, set_flag_I.
  assert (Hi2 : I b acc (imm ++ e) (d + Z.of_nat (length imm))
                  (set_worker (add_pending (set_flag s idx true) 1) idx (given_immediate w t))).
  { eapply set_worker_I; [exact Hwi| | |..|exact Hi1].
    - pose proof (Forall_lookup_1 _ _ _ _ (i_pcs _ _ _ _ _ Hi) Hwi) as Hp.
      unfold pc_ok, given_immediate in *. simpl. by destruct (pc w).
    - unfold held, imm. simpl. destruct (immediateTask w); simpl; solve_Permutation.
    - unfold held, imm. rewrite !length_app. destruct (immediateTask w); simpl; lia. }
  apply lose_I in Hi2. simpl. eapply I_shift; [|exact Hi2]. lia.
Qed.

Lemma finish_call_safe b acc e d s k : I b acc e d s -> safe (finish_call s k) (fun s' => I b acc e d s').
Proof.
  intros Hi. unfold finish_call. destruct (submitting s !! k) as [c|] eqn:Hk; [|done].
  destruct (take_call_I _ _ _ _ _ _ _ Hk Hi) as [Hc Hi']. destruct c as [i|i t]; simpl in Hc, Hi'.
  - eapply safe_mono; [eapply mark_and_notify_safe; [exact (add_pending_I _ _ _ _ _ 1 Hi')|done]|].
    intros s' [Hi2 _]. eapply I_shift; [|exact Hi2]. lia.
  - eapply safe_mono; [by eapply give_core_safe|]. intros s' Hi2. eapply I_shift; [|exact Hi2]. lia.
Qed.

Lemma PushFork_safe b acc e d s caller t :
  I b acc (t :: e) d s ->
  safe (PushFork s caller (Some t)) (fun '(s', ok) => if ok : bool then I b acc e d s' else I b acc (t :: e) d s').
Proof.
  intros Hi. unfold PushFork. destruct (negb _); [done|].
  assert (Hfork : forall s1 id (local : bool), I b acc (t :: e) d s1 -> (id < N)%nat ->
    safe (b ← (if local : bool then Ok false else at_ (immediateCoresInUse s1) id);
      if (b : bool) then Ok (s1, false)
      else
        let s := if local then s1 else set_flag s1 id true in
        tk ← deref (tasks (obj s)) t;
        let s := set_tasks s (<[t := set_isForked tk 1]> (tasks (obj s))) in
        let s := add_pending s 1 in
        let g := gh s in
        let s := set_gh s (mk_ghost (completed g) (lost g) (phantom g + 1)) in
        PushLocal s (Some t) (u8 (Z.of_nat id)))
      (fun '(s', ok) => if ok : bool then I b acc e d s' else I b acc (t :: e) d s')).
  { intros s1 id local Hi1 Hid. apply safe_bind.
    eapply (safe_mono _ (fun _ => True)).
    { destruct local; [done|]. apply safe_at; [pose proof (i_shape _ _ _ _ _ Hi1) as []; lia|done]. }
    intros [] _; [done|]. cbv zeta.
    set (s2 := if local then s1 else set_flag s1 id true).
    assert (Hi2 : I b acc (t :: e) d s2) by (unfold s2; destruct local; [done|by apply set_flag_I]).
    apply safe_bind, safe_deref; [eapply I_live_in; [exact Hi2|by left]|]. intros tk Htk.
    eapply safe_mono; [eapply PushLocal_safe|intros [s' []] [? _]; done].
    eapply I_shift; [|eapply (phantom_I _ _ _ _ _ 1); [done|]; eapply add_pending_I, set_tasks_I; [|exact Hi2]].
    - lia.
    - simpl. intros g Hg. by eapply (i_groups _ _ _ _ _ Hi2). }
  destruct (IsOnFiber s caller) eqn:Hon.
  - destruct caller as [i|]; [|done]. apply (Hfork s i true); [done|].
    unfold IsOnFiber in Hon. simpl in Hon. destruct (workers s !! i) eqn:Hw; [|done].
    apply lookup_lt_Some in Hw. pose proof (i_shape _ _ _ _ _ Hi) as []. lia.
  - apply safe_bind. eapply safe_mono; [destruct caller; by apply PickNextWorker_safe|].
    intros [id s1] (? & ? & _). by apply (Hfork s1 id false).
Qed.

(** ** Completion *)

Lemma resume_parked_safe b acc e d s t :
  I b acc e d s -> safe (resume_parked s t) (fun s' => I b acc e d s' /\ same s s').
Proof.
  intros Hi. unfold resume_parked. case_decide as Hin; [|done].
  assert (Hnd : NoDup (parked (obj s))).
  { pose proof (i_once _ _ _ _ _ Hi) as H. unfold everywhere, pool in H. rewrite <- !(assoc_L (++)) in H.
    do 6 (apply NoDup_app in H as (_ & _ & H)). by apply NoDup_app in H as (? & _ & _). }
  assert (HP : parked (obj s) ≡ₚ t :: filter (.≠ t) (parked (obj s))).
  { clear -Hnd Hin. induction Hnd as [|x l Hx Hnd IH]; [by apply not_elem_of_nil in Hin|].
    destruct (decide (x = t)) as [->|Hne].
    - rewrite filter_cons_False by auto. f_equiv. clear -Hx.
      induction l as [|y l IH]; [done|]. apply not_elem_of_cons in Hx as [? ?].
      rewrite filter_cons_True by auto. f_equiv. auto.
    - rewrite filter_cons_True by done. apply elem_of_cons in Hin as [->|Hin]; [done|].
      rewrite IH at 1 by done. solve_Permutation. }
  apply safe_fmap. eapply safe_mono; [eapply (Requeue_safe b acc e (d + 1))|].
  - eapply set_parked_I; [| |exact Hi].
    + rewrite HP at 2. solve_Permutation.
    + apply Permutation_length in HP. simpl in HP. lia.
  - intros [s' r] [Hi' Hs]. simpl. split; [|done]. eapply I_shift; [|exact Hi']. lia.
Qed.

Lemma resume_all_safe b acc e d s ts :
  I b acc e d s -> safe (resume_all s ts) (fun s' => I b acc e d s' /\ same s s').
Proof.
  revert s. induction ts as [|t ts IH]; intros s Hi; simpl; [done|].
  apply safe_bind. eapply safe_mono; [by apply resume_parked_safe|]. intros s1 [Hi1 Hs1].
  eapply safe_mono; [by apply IH|]. intros s2 [Hi2 Hs2]. split; [done|]. by etrans.
Qed.

Lemma complete_wait_safe b acc e d s tk :
  I b acc e d s -> (forall g, waitGroup tk = Some g -> is_Some (waitGroups (obj s) !! g)) ->
  safe (complete_wait s tk) (fun s' => I b acc e d s' /\ same s s').
Proof.
  intros Hi Hg. unfold complete_wait. destruct (waitGroup tk) as [g|]; [|done].
  apply safe_bind, safe_deref; [by apply Hg|]. intros wg _. destruct (complete (n wg)) as [n' []].
  - unfold WakeAll. apply safe_bind, safe_deref; [simpl; rewrite lookup_insert_eq; by eexists|].
    intros wg' _. eapply safe_mono; [apply resume_all_safe, set_groups_I, set_groups_I, Hi|]. done.
  - simpl. split; [by apply set_groups_I|done].
Qed.

(** Completing and freeing a task taken out of the state. *)
Lemma complete_destroy_safe {B} b acc e d s t tk (k : sched D -> outcome B) (Q : B -> Prop) :
  I b acc (t :: e) d s -> tasks (obj s) !! t = Some tk ->
  (forall s', I b acc e d (destroy s' t) -> same s s' -> safe (k s') Q) ->
  safe (s' ← complete_wait s tk; k s') Q.
Proof.
  intros Hi Ht Hk. apply safe_bind. eapply safe_mono.
  - eapply complete_wait_safe; [exact Hi|]. intros g. by apply (i_groups _ _ _ _ _ Hi t).
  - intros s' [Hi' Hs]. apply Hk; [by apply destroy_I|done].
Qed.
Lemma process_main_one_safe b acc e d s :
  I b acc e d s ->
  safe (process_main_one s) (fun r => match r with Some s' => I b acc e d s' | None => True end).
Proof.
  intros Hi. unfold process_main_one. destruct (mainQ (qs s)) as [|t l] eqn:Hm; [done|]. cbv zeta.
  assert (Hi1 : I b acc (t :: e) d (set_mainQ s l))
    by (eapply set_mainQ_I; [|exact Hi]; rewrite Hm; solve_Permutation).
  apply safe_bind, safe_deref; [eapply I_live_in; [exact Hi1|by left]|]. intros tk Htk.
  eapply complete_destroy_safe; [exact Hi1|exact Htk|]. intros s' Hi' _. done.
Qed.

(** ** Deques *)

Lemma deque_at_safe b acc e d s hi i :
  I b acc e d s -> (i < N)%nat ->
  safe (deque_at s hi i) (fun dq => deque_at s hi i = Ok dq /\ dq_ok b dq).
Proof.
  intros Hi Hlt. pose proof Hi as [Hsh ? Hhi Hlo ? ? ? ? ? ? ?]. destruct Hsh.
  unfold deque_at. destruct hi; (apply safe_at; [lia|]); intros dq Hd; (split; [by apply at_ok|]).
  - exact (Forall_lookup_1 _ _ _ _ Hhi Hd).
  - exact (Forall_lookup_1 _ _ _ _ Hlo Hd).
Qed.

Lemma set_deque_same (s : sched D) hi i dq : deque_at s hi i = Ok dq -> set_deque s hi i dq = s.
Proof.
  destruct s as [[] ? ? ? ? ? ?], hi; unfold deque_at, set_deque, set_qs; simpl; intros H%at_ok;
    by rewrite list_insert_id.
Qed.

(** Taking the tasks [l] out of a deque. *)
Lemma set_deque_perm b acc e d s hi i dq dq' l :
  I b acc e d s -> deque_at s hi i = Ok dq -> dq_ok b dq' -> in_deque dq ≡ₚ l ++ in_deque dq' ->
  I b acc (l ++ e) (d + Z.of_nat (length l)) (set_deque s hi i dq').
Proof.
  intros Hi Hat Hok HP. pose proof (i_budget _ _ _ _ _ Hi).
  eapply (set_deque_I b b); try exact Hi; try done.
  - rewrite HP. solve_Permutation.
  - rewrite HP, length_app. lia.
Qed.

Definition stolen_post b acc e d (s : sched D) (s' : sched D) (r : option ptr) : Prop :=
  I b acc (option_list r ++ e) (d + Z.of_nat (length (option_list r))) s' /\ same s s'.

Lemma steal_at b acc e d s hi i dq :
  I b acc e d s -> deque_at s hi i = Ok dq -> dq_ok b dq ->
  let '(dq', r) := dq_steal dq in stolen_post b acc e d s (set_deque s hi i dq') (stolen r).
Proof.
  intros Hi Hat Hok. pose proof (i_budget _ _ _ _ _ Hi) as Hb.
  pose proof (dq_steal_spec b dq Hb Hok) as Hst. destruct (dq_steal dq) as [dq' r].
  destruct Hst as (Hok' & _ & Hr). split; [|by destruct hi].
  assert (HP : in_deque dq ≡ₚ option_list (stolen r) ++ in_deque dq').
  { destruct r as [x|]; [|by destruct Hr as [? ->]]. unfold in_deque. rewrite Hr. by destruct x. }
  by eapply set_deque_perm.
Qed.

Lemma pop_at b acc e d s hi i dq :
  I b acc e d s -> deque_at s hi i = Ok dq -> dq_ok b dq ->
  let '(dq', r) := dq_pop_bottom dq in stolen_post b acc e d s (set_deque s hi i dq') (stolen r).
Proof.
  intros Hi Hat Hok. pose proof (i_budget _ _ _ _ _ Hi) as Hb.
  pose proof (dq_pop_bottom_spec b dq Hb Hok) as Hst. destruct (dq_pop_bottom dq) as [dq' r].
  destruct Hst as (Hok' & _ & Hr). split; [|by destruct hi].
  assert (HP : in_deque dq ≡ₚ option_list (stolen r) ++ in_deque dq').
  { destruct r as [x|]; [|by destruct Hr as [? ->]]. unfold in_deque. rewrite Hr, omap_app.
    destruct x; simpl; rewrite ?app_nil_r; solve_Permutation. }
  by eapply set_deque_perm.
Qed.

Lemma push_at b acc e d s hi i dq t :
  I (b + 1) acc (t :: e) d s -> 1 <= b -> deque_at s hi i = Ok dq -> dq_ok (b + 1) dq ->
  let '(dq', ok) := dq_push_bottom dq (Some t) in
  (if ok : bool then I b acc e (d - 1) (set_deque s hi i dq') else I b acc (t :: e) d (set_deque s hi i dq')) /\
  same s (set_deque s hi i dq').
Proof.
  intros Hi Hb Hat Hok. assert (Hb0 : 0 <= b) by lia.
  pose proof (dq_push_bottom_spec b dq t Hb0 Hok) as Hst. destruct (dq_push_bottom dq (Some t)) as [dq' ok].
  cbv zeta in Hst. destruct Hst as (Hok' & _ & Ho & Hr). split; [|by destruct hi].
  destruct (dq_capacity dq <=? _); subst ok; simpl;
    (eapply (set_deque_I (b + 1) b); try exact Hi; try done; try lia; unfold in_deque; rewrite Hr, omap_app;
     simpl; rewrite ?app_nil_r, ?length_app; simpl; try done; try lia).
  solve_Permutation.
Qed.

Lemma push_batch_at b acc e d s hi i dq ts :
  I (b + Z.of_nat (length ts)) acc (ts ++ e) d s -> 1 <= b -> (length ts <= BATCH_SIZE)%nat ->
  deque_at s hi i = Ok dq -> dq_ok (b + Z.of_nat (length ts)) dq ->
  let '(dq', ok) := dq_push_bottom_batch dq (Some <$> ts) in
  (if ok : bool then I b acc e (d - Z.of_nat (length ts)) (set_deque s hi i dq')
   else I b acc (ts ++ e) d (set_deque s hi i dq')) /\
  same s (set_deque s hi i dq').
Proof.
  intros Hi Hb Hlen Hat Hok. assert (Hb0 : 0 <= b) by lia.
  assert (Hl : Z.of_nat (length (Some <$> ts)) <= 2 ^ 60) by (rewrite length_fmap; unfold BATCH_SIZE in *; lia).
  assert (Hom : omap id (Some <$> ts) = ts) by (clear; induction ts; simpl; [done|by f_equal]).
  pose proof (dq_push_bottom_batch_spec b dq (Some <$> ts) Hb0 Hl) as Hst. rewrite length_fmap in Hst.
  specialize (Hst Hok). destruct (dq_push_bottom_batch dq _) as [dq' ok].
  cbv zeta in Hst. destruct Hst as (Hok' & _ & Ho & Hr). split; [|by destruct hi].
  destruct (dq_capacity dq <? _); subst ok; simpl;
    (eapply (set_deque_I (b + Z.of_nat (length ts)) b); try exact Hi; try done; try lia;
     unfold in_deque; rewrite Hr, omap_app; rewrite ?Hom; simpl; rewrite ?app_nil_r, ?length_app; try done; try lia).
  solve_Permutation.
Qed.

(** ** Stealing *)

Lemma scan_safe b acc e d s hi start fuel i :
  I b acc e d s -> safe (scan s hi start fuel i) (fun '(s', r) => stolen_post b acc e d s s' (stolen r)).
Proof.
  revert s i. induction fuel as [|fuel IH]; intros s i Hi; simpl.
  { split; [|done]. eapply I_shift; [|exact Hi]. simpl. lia. }
  assert (((start + i) mod (if hi then length (hiPri (qs s)) else length (loPri (qs s))) < N)%nat).
  { pose proof (i_shape _ _ _ _ _ Hi) as []. destruct hi; rewrite ?s_hi0, ?s_lo0; apply Nat.mod_upper_bound; lia. }
  apply safe_bind. eapply safe_mono; [by eapply deque_at_safe|]. intros dq [Hat Hok].
  pose proof (dq_steal_spec b dq (i_budget _ _ _ _ _ Hi) Hok) as Hst.
  pose proof (steal_at _ _ _ _ _ _ _ _ Hi Hat Hok) as Hp. destruct (dq_steal dq) as [dq' [x|]]; [done|].
  destruct Hst as (_ & _ & _ & ->). rewrite set_deque_same by done. by apply IH.
Qed.

Lemma get_lo_safe b acc e d s r2 :
  I b acc e d s -> safe (get_lo s r2) (fun '(s', r) => stolen_post b acc e d s s' r).
Proof.
  intros Hi. unfold get_lo. pose proof (i_shape _ _ _ _ _ Hi) as [].
  rewrite decide_False by (simpl; lia). apply safe_bind.
  eapply safe_mono; [apply scan_safe, set_steals_I, Hi|]. intros [s' r] [Hi' Hs']. done.
Qed.

Lemma GetTask_safe b acc e d s r1 r2 :
  I b acc e d s -> safe (GetTask s r1 r2) (fun '(s', r) => stolen_post b acc e d s s' r).
Proof.
  intros Hi. unfold GetTask. case_match; [by apply get_lo_safe|].
  pose proof (i_shape _ _ _ _ _ Hi) as []. rewrite decide_False by lia. apply safe_bind.
  eapply safe_mono; [apply scan_safe, Hi|]. intros [s' [x|]] [Hi' Hs'].
  - simpl. split; [|done]. by apply set_steals_I.
  - eapply safe_mono; [apply (get_lo_safe b acc e d)|].
    + eapply I_shift; [|exact Hi']. simpl. lia.
    + intros [s2 r] [Hi2 Hs2]. split; [done|by etrans].
Qed.

Lemma TryRunStolenFastJob_safe b acc e d s r1 r2 :
  I b acc e d s -> safe (TryRunStolenFastJob s r1 r2) (fun '(s', _) => I b acc e d s').
Proof.
  intros Hi. unfold TryRunStolenFastJob. apply safe_bind. eapply safe_mono; [by apply GetTask_safe|].
  intros [s1 [t|]] [Hi1 _]; simpl in Hi1; [|eapply I_shift; [|exact Hi1]; lia].
  apply safe_bind, safe_deref; [eapply I_live_in; [exact Hi1|by left]|]. intros tk Htk.
  case_match.
  - apply safe_bind. eapply safe_mono; [by eapply Requeue_safe|]. intros [s2 r] [Hi2 _].
    simpl. eapply I_shift; [|exact Hi2]. lia.
  - eapply complete_destroy_safe; [exact Hi1|exact Htk|]. intros s2 Hi2 _.
    simpl. eapply I_shift; [|apply add_pending_I, Hi2]. lia.
Qed.
(** ** The worker's sections *)

(** After an operation that leaves the workers' tasks alone, worker [i] takes
    [r] and goes to [p]. *)
Lemma take_safe b acc e d s i r p (f : worker -> worker) :
  I b acc (option_list r ++ e) (d + Z.of_nat (length (option_list r))) s -> (i < N)%nat ->
  (forall w, workers s !! i = Some w -> task_to_run w = None) ->
  (forall w, task_to_run (f w) = r /\ immediateTask (f w) = immediateTask w /\ pc (f w) = p) ->
  (r = None \/ p = Top) ->
  (match p with Fast | OnFiber _ => False | _ => True end) ->
  safe (modify s i f) (fun s' => I b acc e d s').
Proof.
  intros Hi Hlt Hn Hf Hp Hp'. apply safe_bind, safe_at; [by eapply I_worker|]. intros w Hw. simpl.
  destruct (Hf w) as (Ht & Him & Hpc). specialize (Hn w Hw).
  eapply set_worker_I; [exact Hw| | |..|exact Hi].
  - unfold pc_ok. rewrite Hpc, Ht. destruct Hp as [->| ->]; [by destruct p|done].
  - unfold held. rewrite Ht, Him, Hn. solve_Permutation.
  - unfold held. rewrite Ht, Him, Hn, !length_app. simpl. lia.
Qed.

(** A worker at a section past the first has no task in hand. *)
Lemma no_task b acc e d s i w :
  I b acc e d s -> workers s !! i = Some w ->
  (match pc w with Immediate | Local | Stealing | Inbox | SleepCheck => True | _ => False end) ->
  task_to_run w = None.
Proof.
  intros Hi Hw Hp. pose proof (Forall_lookup_1 _ _ _ _ (i_pcs _ _ _ _ _ Hi) Hw) as H.
  unfold pc_ok in H. by destruct (pc w).
Qed.

Lemma same_no_task s s' i :
  same s s' -> (forall w, workers s !! i = Some w -> task_to_run w = None) ->
  forall w, workers s' !! i = Some w -> task_to_run w = None.
Proof.
  intros Hs Hn w' Hw'. assert (Hl : (i < length (workers s))%nat).
  { apply lookup_lt_Some in Hw'. unfold same in Hs. apply (f_equal length) in Hs.
    rewrite !length_fmap in Hs. lia. }
  apply lookup_lt_is_Some in Hl as [w Hw].
  pose proof (same_lookup _ _ _ _ _ Hs Hw Hw') as Hh. unfold hands in Hh. injection Hh as -> _. auto.
Qed.

Lemma top_safe b acc e d s i w inp :
  I b acc e d s -> workers s !! i = Some w -> pc w = Top -> acquired inp <> None ->
  safe (top s i w inp) (fun s' => I b acc e d s').
Proof.
  intros Hi Hw Hpc Hac. assert (Hlt : (i < N)%nat)
    by (pose proof (i_shape _ _ _ _ _ Hi) as []; apply lookup_lt_Some in Hw; lia).
  unfold top. destruct (negb (running w)).
  { eapply safe_mono; [eapply modify_safe; [exact Hi|done|]|by intros s' [? _]]. by intros w' _ _. }
  destruct (task_to_run w) as [t|] eqn:Ht; simpl; rewrite Ht.
  2:{ simpl. eapply set_worker_I; try exact Hi; try done; unfold held; simpl; lia. }
  assert (Hin : is_Some (tasks (obj s) !! t)).
  { pose proof (i_live _ _ _ _ _ Hi) as Hl. rewrite Forall_forall in Hl. apply Hl.
    unfold everywhere, pool. repeat rewrite elem_of_app. left; right; right; right; right; right; left.
    apply list_elem_of_In, in_concat. exists (held w). split; [|unfold held; rewrite Ht; by left].
    apply list_elem_of_In, list_elem_of_fmap. exists w. split; [done|]. by eapply list_elem_of_lookup_2. }
  unfold start_task. apply safe_bind, safe_deref; [done|]. intros tk Htk. case_match.
  { eapply set_worker_I; try exact Hi; try done; [unfold pc_ok; simpl; by rewrite Ht|unfold held; simpl; lia]. }
  destruct (assignedFiber tk) as [f|].
  { eapply set_worker_I; try exact Hi; try done; [unfold pc_ok; simpl; by rewrite Ht|unfold held; simpl; lia]. }
  destruct (acquired inp) as [f|]; [|done]. simpl.
  eapply set_worker_I; [simpl; exact Hw|unfold pc_ok; simpl; by rewrite Ht| | |apply set_tasks_I; [|exact Hi]].
  - done.
  - unfold held; simpl. lia.
  - simpl. intros g. by apply (i_groups _ _ _ _ _ Hi t).
Qed.

Lemma finish_fast_safe b acc e d s i w :
  I b acc e d s -> workers s !! i = Some w -> pc w = Fast -> safe (finish_fast s i) (fun s' => I b acc e d s').
Proof.
  intros Hi Hw Hpc. assert (Hlt : (i < N)%nat)
    by (pose proof (i_shape _ _ _ _ _ Hi) as []; apply lookup_lt_Some in Hw; lia).
  pose proof (Forall_lookup_1 _ _ _ _ (i_pcs _ _ _ _ _ Hi) Hw) as Hp. unfold pc_ok in Hp. rewrite Hpc in Hp.
  unfold finish_fast. apply safe_bind, safe_at; [by eapply I_worker|]. intros w' Hw'. simplify_eq.
  destruct (task_to_run w) as [t|] eqn:Ht; [|done].
  rewrite (modify_eq _ _ _ _ Hw). cbn [mbind outcome_bind].
  set (s1 := set_worker s i _).
  assert (Hi1 : I b acc (t :: e) (d + 1) s1).
  { eapply set_worker_I; try exact Hi; try done; unfold held; simpl; rewrite Ht; simpl; [solve_Permutation|lia]. }
  apply safe_bind, safe_deref; [eapply I_live_in; [exact Hi1|by left]|]. intros tk Htk.
  eapply complete_destroy_safe; [exact Hi1|exact Htk|]. intros s2 Hi2 _. cbv zeta.
  apply (add_pending_I _ _ _ _ _ (-1)) in Hi2.
  eapply safe_mono; [eapply modify_safe; [|done|]|by intros s' [? _]]; [|by intros ? _ ?].
  eapply I_shift; [|case_match; [apply set_flag_I|]; exact Hi2]. lia.
Qed.

Lemma switch_back_body_safe b acc e d s i t k :
  I (b + 1) acc (t :: e) (d + 1) s -> 1 <= b -> (i < N)%nat -> group_exists s k ->
  safe (switch_back_body s i t k) (fun s' => I b acc e d s').
Proof.
  intros Hi Hb Hlt Hg. assert (Hiw : I b acc (t :: e) (d + 1) s) by (eapply I_weaken; [|exact Hi]; lia).
  assert (Hre : forall s1, I b acc (t :: e) (d + 1) s1 -> safe (fst <$> Requeue s1 (Some t)) (fun s' => I b acc e d s')).
  { intros s1 H1. apply safe_fmap. eapply safe_mono; [by eapply Requeue_safe|].
    intros [s2 r] [H2 _]. eapply I_shift; [|exact H2]. lia. }
  assert (Hpark : forall s1, I b acc (t :: e) (d + 1) s1 -> I b acc e d (set_parked s1 (t :: parked (obj s1)))).
  { intros s1 H1. eapply set_parked_I; [| |exact H1]; [solve_Permutation|simpl; lia]. }
  destruct k as [| | | |g]; cbn [switch_back_body group_exists] in *.
  - apply safe_bind, safe_deref; [eapply I_live_in; [exact Hiw|by left]|]. intros tk Htk.
    eapply complete_destroy_safe; [exact Hiw|exact Htk|]. intros s2 Hi2 _. simpl.
    apply (add_pending_I _ _ _ _ _ (-1)) in Hi2.
    eapply I_shift; [|case_match; [apply set_flag_I|]; exact Hi2]. lia.
  - apply safe_bind. eapply safe_mono; [eapply (deque_at_safe _ _ _ _ _ false); [exact Hi|done]|].
    intros dq [Hat Hok]. pose proof (push_at _ _ _ _ _ _ _ _ _ Hi Hb Hat Hok) as Hp.
    destruct (dq_push_bottom dq (Some t)) as [dq' []]; simpl; destruct Hp as [Hp _].
    + eapply I_shift; [|exact Hp]. lia.
    + eapply I_shift; [|eapply (lose_I b acc e _ _ [t]), Hp]. simpl. lia.
  - by apply Hpark.
  - by apply Hre.
  - apply safe_bind, safe_deref; [done|]. intros wg Hwg. case_match; simpl in *; simplify_eq.
    case_match; [by apply Hre, set_groups_I|]. by apply (Hpark (set_groups s _)), set_groups_I.
Qed.

Lemma switched_back_safe b acc e d s i w f k :
  I (b + 1) acc e d s -> 1 <= b -> workers s !! i = Some w -> pc w = OnFiber f -> group_exists s k ->
  safe (switched_back s i k) (fun s' => I b acc e d s').
Proof.
  intros Hi Hb Hw Hpc Hg. assert (Hlt : (i < N)%nat)
    by (pose proof (i_shape _ _ _ _ _ Hi) as []; apply lookup_lt_Some in Hw; lia).
  pose proof (Forall_lookup_1 _ _ _ _ (i_pcs _ _ _ _ _ Hi) Hw) as Hp. unfold pc_ok in Hp. rewrite Hpc in Hp.
  unfold switched_back. apply safe_bind, safe_at; [by eapply I_worker|]. intros w' Hw'. simplify_eq.
  destruct (task_to_run w) as [t|] eqn:Ht; [|done].
  rewrite (modify_eq _ _ _ _ Hw). cbn [mbind outcome_bind].
  set (s1 := set_worker s i _).
  assert (Hi1 : I (b + 1) acc (t :: e) (d + 1) s1).
  { eapply set_worker_I; try exact Hi; try done; unfold held; simpl; rewrite Ht; simpl; [solve_Permutation|lia]. }
  apply safe_bind. eapply safe_mono; [by apply switch_back_body_safe|]. intros s2 Hi2.
  eapply safe_mono; [eapply modify_safe; [|done|]|by intros s' [? _]]; [|by intros ? _ ?].
  case_match; [by apply set_flag_I|exact Hi2].
Qed.

Lemma requeue_all_safe b acc e d s ts :
  I b acc (ts ++ e) (d + Z.of_nat (length ts)) s ->
  safe (requeue_all s ts) (fun s' => I b acc e d s' /\ same s s').
Proof.
  revert s. induction ts as [|t ts IH]; intros s Hi; simpl.
  { split; [|done]. eapply I_shift; [|exact Hi]. simpl. lia. }
  apply safe_bind. eapply safe_mono; [by eapply Requeue_safe|]. intros [s1 r] [Hi1 Hs1].
  eapply safe_mono; [apply IH|].
  - eapply I_shift; [|exact Hi1]. simpl. lia.
  - intros s2 [Hi2 Hs2]. split; [done|by etrans].
Qed.

Lemma drainInbox_safe b acc e d s hi i :
  I b acc e d s -> (i < N)%nat -> safe (drainInbox s hi i) (fun s' => I b acc e d s' /\ same s s').
Proof.
  intros Hi Hlt. apply safe_bind. eapply safe_mono; [by apply pop_inbox_safe|].
  intros [s1 ts] (Hi1 & Hs1 & _). eapply safe_mono; [by apply requeue_all_safe|].
  intros s2 [Hi2 Hs2]. split; [done|by etrans].
Qed.

Lemma immediate_section_safe b acc e d s i w :
  I b acc e d s -> workers s !! i = Some w -> pc w = Immediate ->
  safe (immediate_section s i) (fun s' => I b acc e d s').
Proof.
  intros Hi Hw Hpc. assert (Hlt : (i < N)%nat)
    by (pose proof (i_shape _ _ _ _ _ Hi) as []; apply lookup_lt_Some in Hw; lia).
  assert (Hn : task_to_run w = None) by (eapply no_task; [exact Hi|exact Hw|by rewrite Hpc]).
  unfold immediate_section. apply safe_bind, safe_at; [by eapply I_worker|]. intros w' Hw'. simplify_eq.
  destruct (immediateTask w) as [t|].
  - apply safe_bind. eapply safe_mono; [by apply drainInbox_safe|]. intros s1 [Hi1 Hs1].
    apply safe_bind. eapply safe_mono; [by apply drainInbox_safe|]. intros s2 [Hi2 Hs2].
    apply safe_bind, safe_at; [by eapply I_worker|]. intros w2 Hw2.
    assert (Hn2 : task_to_run w2 = None).
    { eapply (same_no_task s s2); [by etrans| |exact Hw2]. intros; by simplify_eq. }
    eapply set_worker_I; try exact Hi2; try done; unfold held; simpl; rewrite Hn2; simpl.
    + rewrite app_nil_r. done.
    + rewrite app_nil_r. lia.
  - eapply set_worker_I; try exact Hi; try done. unfold held; simpl. lia.
Qed.

Lemma pop_own_safe b acc e d s hi i :
  I b acc e d s -> (i < N)%nat -> safe (pop_own s hi i) (fun '(s', r) => stolen_post b acc e d s s' r).
Proof.
  intros Hi Hlt. apply safe_bind. eapply safe_mono; [by eapply deque_at_safe|]. intros dq [Hat Hok].
  pose proof (pop_at _ _ _ _ _ _ _ _ Hi Hat Hok) as Hp. by destruct (dq_pop_bottom dq).
Qed.

Lemma none_post b acc e d s s' : stolen_post b acc e d s s' None -> I b acc e d s' /\ same s s'.
Proof. intros [Hi Hs]. split; [|done]. eapply I_shift; [|exact Hi]. simpl. lia. Qed.

Lemma local_section_safe b acc e d s i w :
  I b acc e d s -> workers s !! i = Some w -> pc w = Local ->
  safe (local_section s i) (fun s' => I b acc e d s').
Proof.
  intros Hi Hw Hpc. assert (Hlt : (i < N)%nat)
    by (pose proof (i_shape _ _ _ _ _ Hi) as []; apply lookup_lt_Some in Hw; lia).
  assert (Hn : forall w, workers s !! i = Some w -> task_to_run w = None)
    by (intros; simplify_eq; eapply no_task; [exact Hi|exact Hw|by rewrite Hpc]).
  apply safe_bind. eapply safe_mono; [by apply pop_own_safe|]. intros [s1 [t|]] Hp1.
  - destruct Hp1 as [Hi1 Hs1]. eapply (take_safe _ _ _ _ _ _ (Some t) Top); try done; [by eapply same_no_task|by right].
  - apply none_post in Hp1 as [Hi1 Hs1].
    apply safe_bind. eapply safe_mono; [by apply pop_own_safe|]. intros [s2 [t|]] [Hi2 Hs2].
    + eapply (take_safe _ _ _ _ _ _ (Some t) Top); try done; [|by right].
      eapply same_no_task; [|exact Hn]. by etrans.
    + eapply safe_mono; [eapply modify_safe; [exact Hi2|done|]|].
      * intros w' Hw' _. split; [|done]. unfold pc_ok; simpl.
        eapply (same_no_task s s2); [by etrans|exact Hn|exact Hw'].
      * intros s3 [Hi3 _]. eapply I_shift; [|exact Hi3]. simpl. lia.
Qed.
Lemma tryStealFrom_safe b acc e d s target :
  I b acc e d s -> (target < N)%nat ->
  safe (tryStealFrom s target) (fun '(s', r) => stolen_post b acc e d s s' (stolen r)).
Proof.
  intros Hi Hlt. unfold tryStealFrom. apply safe_bind. eapply safe_mono; [by eapply deque_at_safe|].
  intros dq [Hat Hok]. pose proof (steal_at _ _ _ _ _ _ _ _ Hi Hat Hok) as Hp.
  destruct (dq_steal dq) as [dq' [x|]]; [done|]. cbv zeta. apply none_post in Hp as [Hi1 Hs1].
  apply safe_bind. eapply safe_mono; [by eapply deque_at_safe|]. intros dq2 [Hat2 Hok2].
  pose proof (steal_at _ _ _ _ _ _ _ _ Hi1 Hat2 Hok2) as Hp2.
  destruct (dq_steal dq2) as [dq2' r]. destruct Hp2 as [Hi2 Hs2]. split; [done|by etrans].
Qed.

Lemma probe_safe b acc e d s mates mstart fuel i :
  I b acc e d s -> Forall (fun i => (i < N)%nat) mates -> mates <> [] ->
  safe (probe s mates mstart fuel i) (fun '(s', r) => stolen_post b acc e d s s' (stolen r)).
Proof.
  intros Hi Hm Hne. revert s i Hi. induction fuel as [|fuel IH]; intros s i Hi; simpl.
  { split; [|done]. eapply I_shift; [|exact Hi]. simpl. lia. }
  apply safe_bind, safe_at.
  { apply Nat.mod_upper_bound. by destruct mates. }
  intros target Ht. pose proof (Forall_lookup_1 _ _ _ _ Hm Ht) as Hlt. simpl in Hlt.
  apply safe_bind. eapply safe_mono; [by apply tryStealFrom_safe|].
  intros [s1 [x|]] Hp; [done|]. apply none_post in Hp as [Hi1 Hs1].
  eapply safe_mono; [by apply IH|]. intros [s2 r] [Hi2 Hs2]. split; [done|by etrans].
Qed.

Lemma roll_safe b acc e d s i :
  I b acc e d s -> (i < N)%nat -> safe (roll s i) (fun '(s', _) => I b acc e d s' /\ same s s').
Proof.
  intros Hi Hlt. apply safe_bind, safe_at; [by eapply I_worker|]. intros w Hw. simpl.
  split; [|by eapply same_set_worker].
  eapply set_worker_I; try exact Hi; try done; [|unfold held; simpl; lia].
  exact (Forall_lookup_1 _ _ _ _ (i_pcs _ _ _ _ _ Hi) Hw).
Qed.

(** Each way to steal. *)
Definition steals (st : sched D -> nat -> outcome (sched D * option ptr)) : Prop :=
  forall b acc e d s i, I b acc e d s -> (i < N)%nat ->
    safe (st s i) (fun '(s', r) => stolen_post b acc e d s s' r).

Lemma refl_post b acc e d s : I b acc e d s -> stolen_post b acc e d s s None.
Proof. intros Hi. split; [|done]. eapply I_shift; [|exact Hi]. simpl. lia. Qed.

Lemma steal_cluster_safe : steals steal_cluster.
Proof.
  intros b acc e d s i Hi Hlt. pose proof (i_shape _ _ _ _ _ Hi) as [].
  apply safe_bind, safe_at; [lia|]. intros mates Hm. case_decide; [by apply refl_post|].
  apply safe_bind, safe_at; [by eapply I_worker|]. intros w Hw.
  apply safe_bind. eapply safe_mono; [by apply roll_safe|]. intros [s1 x] [Hi1 Hs1].
  apply safe_bind. eapply safe_mono; [apply probe_safe; [exact Hi1| |done]|].
  - exact (Forall_lookup_1 _ _ _ _ s_mates0 Hm).
  - intros [s2 r] [Hi2 Hs2]. split; [done|by etrans].
Qed.

Lemma steal_sibling_safe : steals steal_sibling.
Proof.
  intros b acc e d s i Hi Hlt. pose proof (i_shape _ _ _ _ _ Hi) as [].
  apply safe_bind, safe_at; [lia|]. intros sib Hsib. case_match; [by apply refl_post|].
  pose proof (Forall_lookup_1 _ _ _ _ s_sibs0 Hsib) as Hb. simpl in Hb.
  assert ((Z.to_nat sib < N)%nat) by lia.
  apply safe_bind, safe_at; [lia|]. intros v Hv. case_match; [by apply refl_post|].
  apply safe_bind. eapply safe_mono; [by apply tryStealFrom_safe|]. intros [s1 r] Hp. done.
Qed.

Lemma steal_random_safe : steals steal_random.
Proof using HN.
  intros b acc e d s i Hi Hlt. pose proof (i_shape _ _ _ _ _ Hi) as [].
  apply safe_bind. eapply safe_mono; [by apply roll_safe|]. intros [s1 x] [Hi1 Hs1]. cbv zeta.
  pose proof (i_shape _ _ _ _ _ Hi1) as []. rewrite decide_False by lia.
  pose proof (Z.mod_pos_bound x (Z.of_nat (length (workers s1) - 1))) as Hm.
  apply safe_bind. eapply safe_mono; [apply tryStealFrom_safe; [exact Hi1|case_decide; lia]|].
  intros [s2 r] [Hi2 Hs2]. split; [done|by etrans].
Qed.

(** The next way is tried when nothing was found. *)
Lemma or_steal b acc e d s i st (s1 : sched D) r :
  steals st -> (i < N)%nat -> stolen_post b acc e d s s1 r ->
  safe (match r with Some t => Ok (s1, Some t) | None => st s1 i end)
    (fun '(s', r) => stolen_post b acc e d s s' r).
Proof.
  intros Hst Hlt Hp. destruct r as [t|]; [done|]. apply none_post in Hp as [Hi1 Hs1].
  eapply safe_mono; [by apply Hst|]. intros [s2 r] [Hi2 Hs2]. split; [done|by etrans].
Qed.

(** The end of a section: worker [i] takes what was found, or moves on. *)
Lemma section_end b acc e d s s1 i w r p f g :
  stolen_post b acc e d s s1 r -> (i < N)%nat -> workers s !! i = Some w -> task_to_run w = None ->
  (forall w, task_to_run (f w) = r /\ immediateTask (f w) = immediateTask w /\ pc (f w) = Top) ->
  (forall w, task_to_run (g w) = task_to_run w /\ immediateTask (g w) = immediateTask w /\ pc (g w) = p) ->
  match p with Fast | OnFiber _ => False | _ => True end ->
  safe (if decide (r = None) then modify s1 i g else modify s1 i f) (fun s' => I b acc e d s').
Proof.
  intros Hp Hlt Hw Hn Hf Hg Hpp. pose proof Hp as [Hi Hs].
  assert (Hn1 : forall w, workers s1 !! i = Some w -> task_to_run w = None)
    by (eapply same_no_task; [exact Hs|intros; by simplify_eq]).
  case_decide as Hr; [|by eapply (take_safe _ _ _ _ _ _ r Top); try done; right].
  subst r. apply none_post in Hp as [Hi1 _]. apply safe_bind, safe_at; [by eapply I_worker|].
  intros w1 Hw1. destruct (Hg w1) as (Ht & Him & Hpc). pose proof (Hn1 _ Hw1) as Hn2. rewrite Hn2 in Ht.
  simpl. eapply set_worker_I; try exact Hi1; try done.
  - unfold pc_ok. rewrite Hpc, Ht. by destruct p.
  - unfold held. by rewrite Ht, Him, Hn2.
  - unfold held. rewrite Ht, Him, Hn2. lia.
Qed.

Lemma steal_section_safe b acc e d s i w :
  I b acc e d s -> workers s !! i = Some w -> pc w = Stealing ->
  safe (steal_section s i) (fun s' => I b acc e d s').
Proof using HN.
  intros Hi Hw Hpc. assert (Hlt : (i < N)%nat)
    by (pose proof (i_shape _ _ _ _ _ Hi) as []; apply lookup_lt_Some in Hw; lia).
  assert (Hn : task_to_run w = None) by (eapply no_task; [exact Hi|exact Hw|by rewrite Hpc]).
  unfold steal_section. apply safe_bind. eapply safe_mono; [by apply steal_cluster_safe|]. intros [s1 r1] Hp1.
  apply safe_bind. eapply safe_mono; [eapply or_steal; [apply steal_sibling_safe|done|exact Hp1]|]. intros [s2 r2] Hp2.
  apply safe_bind. eapply safe_mono; [eapply or_steal; [apply steal_random_safe|done|exact Hp2]|]. intros [s3 r3] Hp3.
  pose proof (section_end _ _ _ _ _ _ _ _ _ Inbox (fun w => goto (missed (runs w r3) 0) Top)
    (fun w => goto (missed w (consecutiveMisses w + 1)) Inbox) Hp3 Hlt Hw Hn) as He.
  destruct r3 as [t|]; apply He; done.
Qed.

Lemma inbox_one_safe b acc e d s hi i :
  I (b + 64) acc e d s -> 1 <= b -> (i < N)%nat ->
  safe (inbox_one s hi i) (fun '(s', r) => stolen_post b acc e d s s' (stolen r)).
Proof.
  intros Hi Hb Hlt. apply safe_bind. eapply safe_mono; [by apply pop_inbox_safe|].
  intros [s1 ts] (Hi1 & Hs1 & Hlen). case_decide as Hts.
  { subst ts. simpl. split; [|done]. eapply I_weaken, I_shift; [| |exact Hi1]; simpl; lia. }
  apply (I_weaken _ (b + Z.of_nat (length ts))) in Hi1; [|unfold BATCH_SIZE in *; lia].
  apply safe_bind. eapply safe_mono; [by eapply deque_at_safe|]. intros dq [Hat Hok].
  pose proof (push_batch_at _ _ _ _ _ _ _ _ _ Hi1 Hb Hlen Hat Hok) as Hp.
  destruct (dq_push_bottom_batch dq (Some <$> ts)) as [dq' []]; cbv zeta; destruct Hp as [Hp Hs2].
  - apply safe_bind. eapply safe_mono; [by eapply deque_at_safe|]. intros dq2 [Hat2 Hok2].
    pose proof (pop_at _ _ _ _ _ _ _ _ Hp Hat2 Hok2) as Hpop.
    destruct (dq_pop_bottom dq2) as [dq2' r]. destruct Hpop as [Hi3 Hs3]. simpl. split.
    + eapply I_shift; [|exact Hi3]. lia.
    + etrans; [exact Hs1|]. by etrans.
  - split.
    + eapply I_shift; [|apply lose_I, Hp]. simpl. lia.
    + etrans; [exact Hs1|]. by etrans.
Qed.

Lemma inbox_section_safe b acc e d s i w :
  I (b + 128) acc e d s -> 1 <= b -> workers s !! i = Some w -> pc w = Inbox ->
  safe (inbox_section s i) (fun s' => I b acc e d s').
Proof.
  intros Hi Hb Hw Hpc. assert (Hlt : (i < N)%nat)
    by (pose proof (i_shape _ _ _ _ _ Hi) as []; apply lookup_lt_Some in Hw; lia).
  assert (Hn : task_to_run w = None) by (eapply no_task; [exact Hi|exact Hw|by rewrite Hpc]).
  assert (Hend : forall s1 x, stolen_post b acc e d s s1 x ->
    safe (modify s1 i (fun w => goto (runs w x) Top)) (fun s' => I b acc e d s')).
  { intros s1 x [Hi1 Hs1]. eapply (take_safe _ _ _ _ _ _ x Top); try done; [|by right].
    eapply same_no_task; [exact Hs1|intros; by simplify_eq]. }
  replace (b + 128) with (b + 64 + 64) in Hi by lia.
  unfold inbox_section. apply safe_bind. eapply safe_mono; [apply inbox_one_safe; [exact Hi|lia|done]|].
  intros [s1 [x|]] Hp1; simpl in Hp1.
  { destruct Hp1 as [Hi1 Hs1]. apply Hend. split; [|done]. eapply I_weaken; [|exact Hi1]. lia. }
  apply none_post in Hp1 as [Hi1 Hs1].
  apply safe_bind. eapply safe_mono; [apply inbox_one_safe; [exact Hi1|lia|done]|].
  intros [s2 r] [Hi2 Hs2]. assert (Hp2 : stolen_post b acc e d s s2 (stolen r)) by (split; [done|by etrans]).
  destruct r as [x|]; simpl in Hp2; [by apply Hend|].
  apply (section_end _ _ _ _ _ _ _ _ None SleepCheck (fun w => goto (runs w None) Top)
    (fun w => goto w SleepCheck) Hp2 Hlt Hw Hn); done.
Qed.

(** ** Every action *)

Lemma worker_step_safe b acc e d s i inp :
  I (b + 128) acc e d s -> 1 <= b -> (i < N)%nat -> acquired inp <> None -> group_exists s (back inp) ->
  safe (worker_step s i inp) (fun s' => I b acc e d s').
Proof using HN.
  intros Hi Hb Hlt Hac Hg. assert (Hiw : I b acc e d s) by (eapply I_weaken; [|exact Hi]; lia).
  apply safe_bind, safe_at; [by eapply I_worker|]. intros w Hw. destruct (pc w) eqn:Hpc; try done.
  - by eapply top_safe.
  - by eapply finish_fast_safe.
  - eapply switched_back_safe; try done. eapply I_weaken; [|exact Hi]. lia.
  - by eapply immediate_section_safe.
  - by eapply local_section_safe.
  - by eapply steal_section_safe.
  - by eapply inbox_section_safe.
  - assert (Hn : task_to_run w = None) by (eapply no_task; [exact Hiw|exact Hw|by rewrite Hpc]).
    unfold sleep_check. apply safe_bind, safe_at; [by eapply I_worker|]. intros w' Hw'. simplify_eq.
    case_match; (eapply set_worker_I; try exact Hiw; try done; try (unfold held; simpl; lia)).
    unfold pc_ok; simpl. by destruct (running w).
Qed.

(** The tasks an action hands over; it says whether they were taken. *)
Definition submits (a : action) : list ptr :=
  match a with
  | APush t _ | ARunCounted _ t | APushImmediate _ t | APushFork _ t | APushMain t => [t]
  | APushBatch ts _ => ts
  | _ => []
  end.

(** What the pool needs of its environment: a fiber is available to the task
    that asks for one, and batches name an existing core. *)
Definition admissible (a : action) : Prop :=
  match a with
  | AWorker i inp => (i < N)%nat /\ acquired inp <> None
  | APushBatch _ c => 0 <= c <= Z.of_nat N
  | AStopWorker i => (i < N)%nat
  | _ => True
  end.
#[global] Instance admissible_dec a : Decision (admissible a).
Proof. unfold admissible. destruct a; apply _. Defined.

Definition accounted (s : sched D) : list ptr := everywhere s ++ completed (gh s) ++ lost (gh s).
Definition inv (b : Z) (s : sched D) : Prop := I b (accounted s) [] 0 s.

Lemma I_inv b acc s : I b acc [] 0 s -> inv b s /\ accounted s ≡ₚ acc.
Proof.
  intros Hi. pose proof (i_acc _ _ _ _ _ Hi) as Ha. simpl in Ha. split; [|done].
  destruct Hi. by constructor.
Qed.

(** Handing a task over. *)
Lemma I_submit b s ts : inv b s -> submittable s ts -> I b (accounted s ++ ts) ts 0 s.
Proof.
  intros [Hsh Hb Hhi Hlo Hon Hli Hgr Hac Hpe Hle Hpc] [Hnd Hsub]. rewrite app_nil_r in *.
  rewrite Forall_forall in Hsub. constructor; try done.
  - apply NoDup_app. split_and!; try done. intros x Hx Hx'. by destruct (Hsub x Hx').
  - apply Forall_app. split; [done|]. apply Forall_forall. intros x Hx. by destruct (Hsub x Hx).
  - unfold accounted. solve_Permutation.
Qed.

(** A task that was not taken goes back to the client. *)
Lemma I_refused b acc t s : I b (acc ++ [t]) [t] 0 s -> I b acc [] 0 s.
Proof.
  intros [Hsh Hb Hhi Hlo Hon Hli Hgr Hac Hpe Hle Hpc]. constructor; try done.
  - rewrite app_nil_r. by apply NoDup_app in Hon as (? & _ & _).
  - rewrite app_nil_r. by apply Forall_app in Hli as [? _].
  - apply (Permutation_app_inv_l [t]). rewrite (Permutation_app_comm [t] acc), <- Hac. solve_Permutation.
Qed.

Definition step_post b s a (s' : sched D) : Prop :=
  inv b s' /\ (accounted s' ≡ₚ accounted s \/ accounted s' ≡ₚ accounted s ++ submits a).

Lemma post_kept b s a s' : I b (accounted s) [] 0 s' -> step_post b s a s'.
Proof. intros [? ?]%I_inv. split; [done|by left]. Qed.
Lemma post_taken b s a s' : I b (accounted s ++ submits a) [] 0 s' -> step_post b s a s'.
Proof. intros [? ?]%I_inv. split; [done|by right]. Qed.

Lemma post_maybe b s a t (m : outcome (sched D * bool)) :
  submits a = [t] ->
  safe m (fun '(s', ok) => if ok : bool then I b (accounted s ++ [t]) [] 0 s'
                           else I b (accounted s ++ [t]) [t] 0 s') ->
  safe (fst <$> m) (step_post b s a).
Proof.
  intros Ha Hm. apply safe_fmap. eapply safe_mono; [exact Hm|]. intros [s' []] Hi; simpl.
  - apply post_taken. by rewrite Ha.
  - by apply post_kept, I_refused with t.
Qed.

Lemma NotifyAll_I b acc s : I b acc [] 0 s -> I b acc [] 0 (NotifyAll s).
Proof.
  intros Hi. pose proof Hi as [Hsh ? ? ? ? ? ? ? ? ? Hpc]. destruct Hsh.
  assert (Hh : held <$> (notified <$> workers s) = held <$> workers s)
    by (rewrite <- list_fmap_compose; by apply list_fmap_ext).
  assert (Hp : pool (NotifyAll s) = pool s) by (unfold pool; simpl; by rewrite Hh).
  assert (He : everywhere (NotifyAll s) = everywhere s) by (unfold everywhere; by rewrite Hp).
  eapply I_move; try exact Hi; rewrite ?He, ?Hp; try done.
  - constructor; try done. simpl. by rewrite length_fmap.
  - simpl. apply Forall_fmap. eapply Forall_impl; [exact Hpc|]. intros w Hw.
    unfold pc_ok, compose in *. simpl. by destruct (pc w).
Qed.

(** The flags that pause and activate the pool. *)
Lemma set_paused_I b acc e d s v : I b acc e d s -> I b acc e d (set_paused s v).
Proof. intros Hi. pose proof (i_shape _ _ _ _ _ Hi) as []. by eapply I_same. Qed.

Lemma step_safe b s a :
  inv (b + 128) s -> 1 <= b -> admissible a -> safe (step a s) (step_post b s a).
Proof using HN.
  intros Hi Hb Had. assert (Hiw : inv b s) by (eapply I_weaken; [|exact Hi]; lia).
  destruct a as [t tk|g|t c|ts c|g t|c t|c t|k|t| |r1 r2|t| | |i|i inp]; simpl.
  - case_decide as Hc; [|done]. apply post_kept. destruct Hc as [_ (Hg & _)]. apply set_tasks_I; [by rewrite Hg|done].
  - case_decide; [|done]. apply post_kept, set_groups_I, Hiw.
  - case_decide as Hs; [|done]. apply (post_maybe _ _ _ t); [done|].
    eapply safe_mono; [apply PushLocal_safe, I_submit; done|]. intros [s' ok] [H _]. done.
  - case_decide as Hs; [|done]. destruct Hs as [Hs Hne].
    eapply safe_mono; [eapply (PushBatch_safe b _ []); [|done|done]; rewrite app_nil_r; by apply I_submit|].
    intros s' H. by apply post_taken.
  - case_decide as Hs; [|done]. destruct Hs as [Hs Hg].
    eapply safe_mono; [eapply (RunCounted_safe b _ [] 0); [by apply I_submit|done]|].
    intros s' [H|H]; [by apply post_taken|by apply post_kept, I_refused with t].
  - case_decide as Hs; [|done]. apply (post_maybe _ _ _ t); [done|]. by apply PushToCore_safe, I_submit.
  - case_decide as Hs; [|done]. apply (post_maybe _ _ _ t); [done|]. by apply PushFork_safe, I_submit.
  - eapply safe_mono; [by apply finish_call_safe|]. intros s' H. by apply post_kept.
  - case_decide as Hs; [|done]. unfold PushMain. destruct (negb _); simpl; [by apply post_kept|].
    apply post_taken. eapply set_mainQ_I; [|by apply I_submit]. simpl. by rewrite app_nil_r.
  - destruct (poolActive _); [|by apply post_kept]. apply safe_bind.
    eapply safe_mono; [by apply process_main_one_safe|]. intros [s'|] H; simpl; by apply post_kept.
  - apply safe_fmap. eapply safe_mono; [by apply TryRunStolenFastJob_safe|]. intros [s' ok] H. by apply post_kept.
  - eapply safe_mono; [by apply resume_parked_safe|]. intros s' [H _]. by apply post_kept.
  - by apply post_kept, set_paused_I.
  - by apply post_kept, NotifyAll_I, set_paused_I.
  - eapply safe_mono; [eapply modify_safe; [exact Hiw|exact Had|]|by intros s' [H _]; apply post_kept].
    intros w Hw Hp. split; [|done]. unfold pc_ok in *; simpl. by destruct (pc w).
  - case_decide as Hg; [|done]. destruct Had. eapply safe_mono; [by eapply worker_step_safe|].
    intros s' Hs'. by apply post_kept.
Qed.
End Safety.
