(* ===== verification/Pool.v ===== *)
(** * The thread pool: start-up and the properties of the whole machine

    [StartPool] builds the state the machine of [Worker.v] runs from; the
    theorems hold for every deque that meets [WorkDeque], and the witnesses and
    the counterexamples run the Chase-Lev deque of [TaskDeque.v]. *)
From S2P Require Import Prelude Task TaskDeque WorkDeque Scheduler Worker PoolSafety.

(** ** Start-up *)

(** [GetSafeTC()]; [hc] is what [std::thread::hardware_concurrency()] returns. *)
Definition GetSafeTC (hc : Z) : Z :=
  if hc =? 0 then 1 else if hc =? 1 then 1 else hc - 1.

(** The number of workers [StartPool(poolSize)] settles on. *)
Definition num_workers (hc poolSize : Z) : Z :=
  let poolSize := if poolSize =? 0 then GetSafeTC hc else poolSize in
  if GetSafeTC hc <? poolSize then GetSafeTC hc else poolSize.

(** The cores fibers are provided for: [hardware_concurrency() - 1] in [unsigned
    int], 4 when that is 0. *)
Definition coreCount (hc : Z) : Z :=
  let c := u32 (hc - 1) in if c =? 0 then 4 else c.
Definition standardFiberCount (hc : Z) : Z := u64 (u32 (coreCount hc * 64)).
Definition heavyFiberCount (hc : Z) : Z := u64 (u32 (coreCount hc * 8)).

Section Pool.
Context {D : Type} `{WD : WorkDeque D}.

(** A worker that has entered its loop; [seed] is its [FastRand] seed. *)
Definition new_worker (seed : Z) : worker :=
  mk_worker Top None false None None None false false false true 0 seed.

(** The state at the end of [StartPool] with [length seeds] workers, an empty
    deque [d0] each. *)
Definition StartPool (d0 : D) (seeds : list Z) (tp : topology) : sched D :=
  let n := length seeds in
  mk_sched
    (mk_queues (replicate n d0) (replicate n d0) (replicate n []) (replicate n []) [])
    (mk_control true false 0 0 0)
    (replicate n false)
    (new_worker <$> seeds)
    (mk_objects ∅ ∅ [])
    tp
    (mk_ghost [] [] 0) [].

(** A topology that names only workers of the pool. *)
Definition topology_ok (n : nat) (tp : topology) : Prop :=
  length (siblingQIndex tp) = n /\ Forall (fun x => x < Z.of_nat n) (siblingQIndex tp) /\
  length (clusterMates tp) = n /\ Forall (Forall (fun i => (i < n)%nat)) (clusterMates tp).
#[global] Instance topology_ok_dec n tp : Decision (topology_ok n tp) := _.

(** ** Runs *)

Lemma inv_start n d0 seeds tp b :
  length seeds = n -> (2 <= n)%nat -> topology_ok n tp -> dq_elems d0 = [] -> 1 <= b -> dq_ok b d0 ->
  inv n 0 b (StartPool d0 seeds tp).
Proof.
  intros Hs Hn (T1 & T2 & T3 & T4) He Hb Hok.
  assert (H1 : forall k, concat (replicate k ([] : list ptr)) = []) by (induction k; auto).
  assert (H2 : concat (in_deque <$> replicate n d0) = []).
  { rewrite fmap_replicate. unfold in_deque. by rewrite He, H1. }
  assert (H3 : forall l, concat (held <$> (new_worker <$> l)) = []) by (induction l; auto).
  assert (Hp : pool (StartPool d0 seeds tp) = []).
  { unfold pool. simpl. by rewrite Hs, !H1, H2, H3. }
  assert (Hv : everywhere (StartPool d0 seeds tp) = []) by (unfold everywhere; by rewrite Hp).
  constructor; rewrite ?Hv, ?Hp; try done; simpl; rewrite ?Hs; try by apply Forall_replicate.
  - constructor; simpl; rewrite ?length_replicate, ?length_fmap; try done. lia.
  - constructor.
  - unfold accounted. by rewrite Hv.
  - apply Forall_fmap, Forall_forall. done.
Qed.

Lemma inv_run n ph b l s s' :
  (2 <= n <= 256)%nat -> 1 <= b -> inv n ph (128 * Z.of_nat (length l) + b) s ->
  Forall (admissible n) l -> run exec l s = Some s' -> inv n ph b s'.
Proof.
  intros Hn Hb. revert s. induction l as [|a l IH]; intros s Hi Hadm; simpl.
  { intros [= <-]. replace b with (128 * Z.of_nat 0 + b) by lia. done. }
  apply Forall_cons in Hadm as [Ha Hl].
  destruct (exec a s) as [s1|] eqn:E; simpl; [|done]. intros Hr. apply (IH s1); [|done|done].
  replace (128 * Z.of_nat (length (a :: l)) + b) with (128 * Z.of_nat (length l) + b + 128) in Hi by (simpl; lia).
  pose proof (step_safe n Hn ph _ s a Hi ltac:(lia) Ha) as H. unfold exec in E.
  destruct (step a s); simpl in E; simplify_eq. apply H.
Qed.

(** What the theorems assume of a run: at least two workers, a topology of the
    pool, an empty deque whose indices cannot wrap within it. *)
Record pool_run (n : nat) (d0 : D) (seeds : list Z) (tp : topology) (l : list action) (s : sched D) : Prop := {
  pr_n : (2 <= n <= 256)%nat;
  pr_seeds : length seeds = n;
  pr_topo : topology_ok n tp;
  pr_empty : dq_elems d0 = [];
  pr_ok : dq_ok (128 * Z.of_nat (length l) + 200) d0;
  pr_adm : Forall (admissible n) l;
  pr_run : run exec l (StartPool d0 seeds tp) = Some s
}.

Lemma pool_run_inv n d0 seeds tp l s : pool_run n d0 seeds tp l s -> inv n 0 200 s.
Proof.
  intros [Hn Hs Ht He Hok Ha Hr]. eapply inv_run; try exact Hr; try done.
  apply inv_start; try done; lia.
Qed.

Lemma inv_lower_bound n ph b s :
  inv n ph b s -> forall ph', ph' <= phantom (gh s) + Z.of_nat (length (lost (gh s))) -> inv n ph' b s.
Proof. intros [] ph' H. constructor; try done. lia. Qed.

(** ** Properties *)

(** [C1] In a pool of at least two workers whose tasks get fibers when they ask
    for one, no operation of the scheduler or of a worker, in any state reached
    by any interleaving of them, indexes outside a vector, divides by zero, or
    touches a task that has been freed (or a wait group that does not exist). *)
Theorem pool_never_stuck n d0 seeds tp l s a :
  pool_run n d0 seeds tp l s -> admissible n a -> step a s <> Stuck.
Proof.
  intros Hr Ha Hst. pose proof (pool_run_inv _ _ _ _ _ _ Hr) as Hi.
  pose proof (step_safe n (pr_n _ _ _ _ _ _ Hr) 0 72 s a Hi ltac:(lia) Ha) as H. by rewrite Hst in H.
Qed.

(** [C2] In such a pool a submitted task is in exactly one place (a queue, a
    worker's hands, parked behind an event), its memory is live there, and it
    leaves only by completing or by being dropped on the record [lost]; an action
    adds to the tasks of the machine the ones it submits, or nothing. *)
Theorem pool_conserves_tasks n d0 seeds tp l s a s' :
  pool_run n d0 seeds tp l s -> admissible n a -> exec a s = Some s' ->
  NoDup (everywhere s') /\
  Forall (fun t => is_Some (tasks (obj s') !! t)) (everywhere s') /\
  (accounted s' ≡ₚ accounted s \/ accounted s' ≡ₚ accounted s ++ submits a).
Proof.
  intros Hr Ha He. pose proof (pool_run_inv _ _ _ _ _ _ Hr) as Hi.
  pose proof (step_safe n (pr_n _ _ _ _ _ _ Hr) 0 72 s a Hi ltac:(lia) Ha) as H.
  unfold exec in He. destruct (step a s) as [s1| |]; simpl in He; simplify_eq. destruct H as [Hi' Hacc].
  split_and!; [| |done].
  - pose proof (i_once _ _ _ _ _ _ _ Hi') as Hn. by rewrite app_nil_r in Hn.
  - pose proof (i_live _ _ _ _ _ _ _ Hi') as Hn. by rewrite app_nil_r in Hn.
Qed.

(** What [pendingTasks] should count: the tasks of the pool, the dropped ones, and
    one more for every [PushFork] (which counts twice). *)
Definition outstanding (s : sched D) : Z :=
  Z.of_nat (length (pool s)) + Z.of_nat (length (lost (gh s))) + phantom (gh s).

(** [C3] [pendingTasks], an [int] that wraps, counts what is outstanding less one for
    every call of [PushLocal] or [PushToCore] that has not counted its task yet.  So,
    while there are fewer than [2 ^ 31] tasks and calls, [WaitAll] returns exactly
    when no more is outstanding than such calls are under way; if none is, only when
    the pool is empty, nothing was dropped and nothing was counted twice; and once a
    task was dropped or a [PushFork] got past its checks, it does not return any
    more at a moment at which no call is under way. *)
Theorem pool_wait_all n d0 seeds tp l s :
  pool_run n d0 seeds tp l s ->
  let calls := Z.of_nat (length (submitting s)) in
  pendingTasks (ctl s) = s32 (outstanding s - calls) /\
  (outstanding s < 2 ^ 31 -> calls <= 2 ^ 31 ->
     (WaitAll_waits s = false <-> outstanding s <= calls) /\
     (submitting s = [] -> WaitAll_waits s = false -> pool s = [] /\ lost (gh s) = [] /\ phantom (gh s) = 0)) /\
  (0 < Z.of_nat (length (lost (gh s))) + phantom (gh s) ->
   forall a s', admissible n a -> exec a s = Some s' ->
     0 < Z.of_nat (length (lost (gh s'))) + phantom (gh s') /\
     (submitting s' = [] -> outstanding s' < 2 ^ 31 -> WaitAll_waits s' = true)).
Proof.
  intros Hr calls. pose proof (pool_run_inv _ _ _ _ _ _ Hr) as Hi.
  assert (Hc : forall s ph b, inv n ph b s -> pendingTasks (ctl s) = s32 (outstanding s - Z.of_nat (length (submitting s))) /\
    0 <= phantom (gh s) /\ ph <= phantom (gh s) + Z.of_nat (length (lost (gh s)))).
  { intros s0 ph b H. rewrite (i_pend _ _ _ _ _ _ _ H). split; [unfold outstanding; f_equal; lia|].
    destruct (i_leak _ _ _ _ _ _ _ H). lia. }
  pose proof (Hc s 0 200 Hi) as (Hp & Hph & _). split; [done|].
  assert (Hw : forall s, pendingTasks (ctl s) = s32 (outstanding s - Z.of_nat (length (submitting s))) -> 0 <= phantom (gh s) ->
    outstanding s < 2 ^ 31 -> Z.of_nat (length (submitting s)) <= 2 ^ 31 ->
    WaitAll_waits s = false <-> outstanding s <= Z.of_nat (length (submitting s))).
  { intros s0 H1 H2 H3 H4. unfold WaitAll_waits. rewrite H1, s32_small, Z.ltb_ge; [lia|].
    unfold in_int, INT_MIN, INT_MAX, outstanding in *. lia. }
  split.
  - intros H1 H2. split; [by apply Hw|]. intros Hs Hwait. apply Hw in Hwait; [|done..]. rewrite Hs in Hwait. unfold outstanding in Hwait.
    assert (length (pool s) = 0 /\ length (lost (gh s)) = 0)%nat as [E1 E2] by (simpl in Hwait; lia).
    apply nil_length_inv in E1, E2. split_and!; try done. simpl in Hwait. lia.
  - intros Hpos a s' Ha He.
    assert (Hi1 : inv n 1 200 s) by (eapply inv_lower_bound; [exact Hi|lia]).
    pose proof (step_safe n (pr_n _ _ _ _ _ _ Hr) 1 72 s a Hi1 ltac:(lia) Ha) as H.
    unfold exec in He. destruct (step a s) as [s1| |]; simpl in He; simplify_eq. destruct H as [Hi' _].
    pose proof (Hc s' 1 72 Hi') as (Hp' & Hph' & Hle). split; [lia|]. intros Hs Hlt.
    destruct (WaitAll_waits s') eqn:E; [done|]. apply Hw in E; [|done..|rewrite Hs; simpl; lia].
    rewrite Hs in E. unfold outstanding in E. simpl in E. lia.
Qed.

(** *** Functions submitted by the templates *)

Definition lambda_task (m wrapper : ptr) : task := mk_task (Some wrapper) (Some m) None None 0 Standard 1 0 0.

Lemma create_lambda_step s m wrapper : tasks (obj s) !! m = None ->
  exec (ACreate m (lambda_task m wrapper)) s = Some (create_lambda s (Some m) wrapper).1.
Proof. intros Hm. unfold exec, step. by rewrite decide_True. Qed.

Lemma create_lambda_submittable s m wrapper : (m ∉ everywhere s) -> submittable (create_lambda s (Some m) wrapper).1 [m].
Proof.
  intros Hm. split; [apply NoDup_singleton|]. apply Forall_singleton. split; [exact Hm|]. cbn. rewrite lookup_insert_eq. by eexists.
Qed.

(** With memory for the task, a template is [CreateTask] followed by the
    function it calls, so the properties of the machine hold of it; without, it
    does nothing, and does not say so.  A function that [PushToCore], or
    [PushLocal] with an affinity, refuses is never called: nothing holds its task,
    and its slot stays taken. *)
Theorem lambda_pushes s m wrapper :
  tasks (obj s) !! m = None -> (m ∉ everywhere s) ->
  (forall caller c, Push_F s None wrapper = Ok s /\ Push_affinity_F s c None wrapper = Ok s /\
     PushFork_F s caller None wrapper = Ok s /\ PushImmediate_F s c None wrapper = Ok s) /\
  (forall caller c, let create := ACreate m (lambda_task m wrapper) in
     returns (Push_F s (Some m) wrapper) = run exec [create; APush m 0] s /\
     returns (Push_affinity_F s c (Some m) wrapper) = run exec [create; APush m c] s /\
     returns (PushImmediate_F s c (Some m) wrapper) = run exec [create; APushImmediate c m] s /\
     returns (PushFork_F s caller (Some m) wrapper) = run exec [create; APushFork caller m] s) /\
  (forall i, immediateCoresInUse s !! i = Some true -> (i < length (workers s))%nat ->
     exists s', PushImmediate_F s (Z.of_nat i + 1) (Some m) wrapper = Ok s' /\
       Push_affinity_F s (Z.of_nat i + 1) (Some m) wrapper = Ok s' /\
       (m ∉ everywhere s') /\ tasks (obj s') !! m = Some (lambda_task m wrapper) /\ ctl s' = ctl s).
Proof.
  intros Hm Hev. pose proof (create_lambda_step s m wrapper Hm) as Hc. pose proof (create_lambda_submittable s m wrapper Hev) as Hs.
  split_and!.
  - intros caller c. split_and!; try done. unfold PushImmediate_F, PushToCore. cbn. by destruct (c <? 1), (poolActive (ctl s)).
  - intros caller c create. unfold create, run. rewrite Hc. cbn [mbind option_bind]. unfold exec, step. rewrite !decide_True by done.
    unfold Push_F, Push_affinity_F, PushImmediate_F, PushFork_F. cbn [create_lambda CreateLambdaTask fst].
    split_and!; match goal with |- returns ?x = returns ?y ≫= _ => change y with x; by destruct x end.
  - intros i Hi Hlt. exists (create_lambda s (Some m) wrapper).1. unfold PushImmediate_F, Push_affinity_F, PushToCore, PushLocal.
    cbn [create_lambda CreateLambdaTask fst]. cbn [workers immediateCoresInUse ctl set_tasks set_obj].
    rewrite (proj2 (Z.ltb_ge _ _)), (proj2 (Z.ltb_lt 0 _)), (proj2 (Z.ltb_lt _ (Z.of_nat (length _)))) by lia.
    cbn [andb negb]. rewrite (proj2 (Z.eqb_neq _ _)) by lia.
    rewrite Z.add_simpl_r, Z.mod_small, Nat2Z.id by lia. unfold at_. rewrite Hi. cbn.
    rewrite lookup_insert_eq. split_and!; try done. by destruct (poolActive (ctl s)).
Qed.
End Pool.

(** ** Runs of the Chase-Lev pool *)

Definition d8 : deque := default (mk_deque [] 1 0 0 0) (TaskDeque.make 8).

Lemma d8_facts : wf d8 /\ contents d8 = [] /\ bottom_ d8 = 0.
Proof.
  destruct (make_wf 3 ltac:(lia)) as (d & Hm & Hwf & He & _).
  assert (Hd : d8 = d) by (unfold d8; change 8 with (2 ^ 3); by rewrite Hm). rewrite Hd.
  split; [done|]. split; [done|]. rewrite <- Hd. reflexivity.
Qed.

Lemma d8_ok b : b < 2 ^ 64 -> dq_ok b d8.
Proof. destruct d8_facts as (Hwf & _ & Hb). intros H. split; [done|]. unfold headroom. rewrite Hb. lia. Qed.

Definition two_workers : topology := mk_topology [-1; -1] [[1]; [0]]%nat.
Definition start2 : sched deque := StartPool d8 [1; 2] two_workers.
Definition fast_job : task := mk_task (Some 7%positive) None None None 0 Standard 1 0 0.
Definition fiber_job : task := mk_task (Some 7%positive) None None None 0 Standard 0 0 0.
Definition with_fiber (b : switch_back) : input := mk_input (Some 50%positive) b.
Definition without_fiber : input := mk_input None Finished.

Lemma run2 l s :
  Forall (admissible 2) l -> Z.of_nat (length l) < 1000 -> run exec l start2 = Some s ->
  pool_run 2 d8 [1; 2] two_workers l s.
Proof.
  intros Ha Hl Hr. destruct d8_facts as (_ & He & _). constructor; try done.
  - lia.
  - apply (bool_decide_unpack _). vm_compute. exact Logic.I.
  - apply d8_ok. lia.
Qed.

(** A fast job in a wait group on worker 0, and a job that yields, waits for the
    group and finishes on a fiber, on worker 1. *)
Definition busy_run : list action :=
  [ANewGroup 90; ACreate 1 fast_job; ARunCounted 90 1; ACreate 2 fiber_job; APush 2 0]%positive ++
  [AFinish 1; AFinish 0]%nat ++
  replicate 6 (AWorker 1 (with_fiber Yielded)) ++ [AWorker 1 (with_fiber Yielded)] ++
  replicate 4 (AWorker 1 (with_fiber (Waited 90))) ++
  replicate 7 (AWorker 0 (with_fiber Finished)).

Lemma busy_admissible : Forall (admissible 2) busy_run.
Proof. apply (bool_decide_unpack _). vm_compute. exact Logic.I. Qed.

Lemma pool_never_stuck_witness :
  exists s, run exec busy_run start2 = Some s /\ completed (gh s) = [1%positive] /\
    step (AHelp 0 0) s <> Stuck.
Proof.
  assert (Hf : (fun s => completed (gh s)) <$> run exec busy_run start2 = Some [1%positive])
    by (vm_compute; reflexivity).
  destruct (run exec busy_run start2) as [s|] eqn:E; [|discriminate Hf]. injection Hf as Hc.
  exists s. split; [reflexivity|]. split; [exact Hc|].
  exact (pool_never_stuck 2 d8 [1; 2] two_workers busy_run s (AHelp 0 0)
    (run2 busy_run s busy_admissible ltac:(vm_compute; reflexivity) E) Logic.I).
Defined.

(** Until the last step of the last task. *)
Definition almost_run : list action := busy_run ++ replicate 6 (AWorker 0 (with_fiber Finished)).
Definition last_step : action := AWorker 0 (with_fiber Finished).

Lemma almost_admissible : Forall (admissible 2) almost_run.
Proof. apply (bool_decide_unpack _). vm_compute. exact Logic.I. Qed.

Lemma pool_conserves_tasks_witness :
  exists s s', run exec almost_run start2 = Some s /\ exec last_step s = Some s' /\
    everywhere s = [2%positive] /\ completed (gh s') = [2; 1]%positive /\ NoDup (everywhere s').
Proof.
  assert (Hf : (fun s => (everywhere s, (fun s' => completed (gh s')) <$> exec last_step s)) <$>
      run exec almost_run start2 = Some ([2%positive], Some [2; 1]%positive)) by (vm_compute; reflexivity).
  destruct (run exec almost_run start2) as [s|] eqn:E; [|discriminate Hf]. injection Hf as He Hc.
  destruct (exec last_step s) as [s'|] eqn:E'; [|discriminate Hc]. injection Hc as Hc.
  assert (Ha : admissible 2 last_step) by (split; [lia|discriminate]).
  destruct (pool_conserves_tasks 2 d8 [1; 2] two_workers almost_run s last_step s'
    (run2 almost_run s almost_admissible ltac:(vm_compute; reflexivity) E) Ha E') as (Hnd & _ & _).
  exists s, s'. split; [reflexivity|]. split; [exact E'|]. split; [exact He|]. split; [exact Hc|exact Hnd].
Defined.

(** One [PushFork] and its completion. *)
Definition fork_run : list action :=
  [ACreate 1 fast_job; APushFork None 1]%positive ++ [AFinish 0]%nat ++ replicate 7 (AWorker 1 (with_fiber Finished)).

Lemma fork_admissible : Forall (admissible 2) fork_run.
Proof. apply (bool_decide_unpack _). vm_compute. exact Logic.I. Qed.

Lemma pool_wait_all_witness :
  exists s, run exec fork_run start2 = Some s /\ pool s = [] /\ completed (gh s) = [1%positive] /\
    forall a s', admissible 2 a -> exec a s = Some s' -> submitting s' = [] -> outstanding s' < 2 ^ 31 -> WaitAll_waits s' = true.
Proof.
  assert (Hf : (fun s => (pool s, completed (gh s), lost (gh s), phantom (gh s))) <$> run exec fork_run start2
    = Some ([], [1%positive], [], 1)) by (vm_compute; reflexivity).
  destruct (run exec fork_run start2) as [s|] eqn:E; [|discriminate Hf]. injection Hf as Hp Hc Hl Hph.
  destruct (pool_wait_all 2 d8 [1; 2] two_workers fork_run s
    (run2 fork_run s fork_admissible ltac:(vm_compute; reflexivity) E)) as (_ & _ & Hw).
  exists s. split; [reflexivity|]. split; [exact Hp|]. split; [exact Hc|].
  intros a s' Ha He. rewrite Hl, Hph in Hw. exact (proj2 (Hw ltac:(reflexivity) a s' Ha He)).
Defined.

(** ** What goes wrong *)

Definition outcome_kind {A} (m : outcome A) : nat :=
  match m with Ok _ => 0 | Blocked => 1 | Stuck => 2 end.
Lemma kind_blocked {A} (m : outcome A) : outcome_kind m = 1%nat -> m = Blocked.
Proof. by destruct m. Qed.
Lemma kind_stuck {A} (m : outcome A) : outcome_kind m = 2%nat -> m = Stuck.
Proof. by destruct m. Qed.

(** A task is submitted and [Push] has returned.  Another thread pushes a second one,
    which worker 1 runs before that thread has counted it. *)
Definition early_run : list action :=
  [ACreate 1 fast_job; APush 1 1]%positive ++ [AFinish 0]%nat ++ [ACreate 2 fast_job; APush 2 2]%positive ++
  replicate 7 (AWorker 1 (with_fiber Finished)).

(** [WaitAll] returns with a task in the pool: [PushLocal] counts a task only
    after it has put it where a worker can take it, so a task that is run in between
    takes the count below the number of tasks that are left.  The first task was
    submitted, and its [Push] had returned, before the second was created; no
    worker has touched it. *)
Theorem wait_all_returns_early :
  exists s, run exec early_run start2 = Some s /\ WaitAll_waits s = false /\ pool s = [1%positive] /\
    loPriInboxes (qs s) = [[1%positive]; []] /\ completed (gh s) = [2%positive] /\ submitting s = [Counting 1] /\
    WaitAll_waits <$> exec (AFinish 0) s = Some true.
Proof. eexists. split; [vm_compute; reflexivity|]. vm_compute. split_and!; reflexivity. Qed.

Definition second_fork : list action :=
  [ACreate 2 fast_job; APushFork None 2; ACreate 3 fast_job]%positive.

(** [PushFork] on a pool of two workers marks worker 0 as taken, hands the
    task to worker 1, and worker 1 clears its own mark: after the task is done
    the pool is empty and idle, yet worker 0 stays marked and one task stays
    counted, and the next [PushFork] is refused after marking worker 1 too, which
    leaves no worker for ordinary work: [Push] spins. *)
Theorem push_fork_wedges_the_pool :
  exists s s', run exec fork_run start2 = Some s /\ everywhere s = [] /\
    immediateCoresInUse s = [true; false] /\ pendingTasks (ctl s) = 1 /\
    run exec second_fork s = Some s' /\
    everywhere s' = [] /\ immediateCoresInUse s' = [true; true] /\ step (APush 3 0) s' = Blocked.
Proof.
  assert (Hf : (fun s => (everywhere s, immediateCoresInUse s, pendingTasks (ctl s),
      (fun s' => (everywhere s', immediateCoresInUse s', outcome_kind (step (APush 3 0) s'))) <$>
      run exec second_fork s)) <$> run exec fork_run start2
    = Some ([], [true; false], 1, Some ([], [true; true], 1%nat))) by (vm_compute; reflexivity).
  destruct (run exec fork_run start2) as [s|] eqn:E; [|discriminate Hf].
  cbv beta iota delta [fmap option_fmap option_map] in Hf.
  destruct (run exec second_fork s) as [s'|] eqn:E'; [|discriminate Hf].
  injection Hf as H1 H2 H3 H4 H5 H6. exists s, s'. split_and!; try assumption; [reflexivity|].
  apply kind_blocked. exact H6.
Qed.

(** Worker 0 takes a job that needs a fiber and finds none. *)
Definition exhausted_run : list action :=
  [ACreate 2 fiber_job; APush 2 1]%positive ++ [AFinish 0]%nat ++ replicate 6 (AWorker 0 without_fiber).
Definition after_exhaustion : list action := replicate 4 (AWorker 0 (with_fiber Finished)).

(** [C30] When no fiber is available the worker puts the task back on its deque
    and keeps it in [task_to_run]: the task is in two places.  The worker's next
    attempt runs it to completion and frees it, and then takes the freed task
    from the deque. *)
Theorem fiber_exhaustion_runs_task_twice :
  exists s s', run exec exhausted_run start2 = Some s /\ everywhere s = [2; 2]%positive /\
    run exec after_exhaustion s = Some s' /\ completed (gh s') = [2%positive] /\
    tasks (obj s') !! 2%positive = None /\ everywhere s' = [2%positive] /\
    step (AWorker 0 (with_fiber Finished)) s' = Stuck.
Proof.
  assert (Hf : (fun s => (everywhere s, (fun s' => (completed (gh s'), tasks (obj s') !! 2%positive, everywhere s',
        outcome_kind (step (AWorker 0 (with_fiber Finished)) s'))) <$>
      run exec after_exhaustion s)) <$> run exec exhausted_run start2
    = Some ([2; 2]%positive, Some ([2%positive], None, [2%positive], 2%nat))) by (vm_compute; reflexivity).
  destruct (run exec exhausted_run start2) as [s|] eqn:E; [|discriminate Hf].
  cbv beta iota delta [fmap option_fmap option_map] in Hf.
  destruct (run exec after_exhaustion s) as [s'|] eqn:E'; [|discriminate Hf].
  injection Hf as H1 H2 H3 H4 H5. exists s, s'. split_and!; try assumption; [reflexivity|].
  apply kind_stuck. exact H5.
Qed.

Definition one_worker : topology := mk_topology [-1] [[]].

(** On a machine with two hardware threads [StartPool(0)] starts one worker,
    and that worker, finding its deques empty, divides by zero when it picks a
    random victim among [workers.size() - 1] others. *)
Theorem single_worker_divides_by_zero seed :
  num_workers 2 0 = 1 /\
  exists s, run exec (replicate 3 (AWorker 0 (with_fiber Finished))) (StartPool d8 [seed] one_worker) = Some s /\
    step (AWorker 0 (with_fiber Finished)) s = Stuck.
Proof. split; [reflexivity|]. eexists. split; reflexivity. Qed.

(** [StartPool] settles on at least one worker and, with two or more
    hardware threads, leaves one of them to the caller, whatever size is asked
    for; it provides fibers for at least one core; but when the hardware
    concurrency is unknown (0) the intended fallback of 4 is missed and the
    fiber counts wrap to just under 2^32. *)
Theorem pool_sizes hc poolSize :
  0 <= hc < 2 ^ 25 -> 0 <= poolSize ->
  1 <= num_workers hc poolSize <= Z.max 1 (hc - 1) /\
  (0 < poolSize <= hc - 1 -> num_workers hc poolSize = poolSize) /\
  (0 < hc -> 64 <= standardFiberCount hc /\ 8 <= heavyFiberCount hc) /\
  (hc = 0 -> coreCount hc = 2 ^ 32 - 1 /\ standardFiberCount hc = 2 ^ 32 - 64).
Proof.
  intros Hh Hp. assert (Hg : 1 <= GetSafeTC hc <= Z.max 1 (hc - 1) /\ (1 < hc -> GetSafeTC hc = hc - 1)).
  { unfold GetSafeTC. destruct (Z.eqb_spec hc 0), (Z.eqb_spec hc 1); lia. }
  split; [|split; [|split]].
  - unfold num_workers. destruct (Z.eqb_spec poolSize 0);
      [destruct (Z.ltb_spec (GetSafeTC hc) (GetSafeTC hc))|destruct (Z.ltb_spec (GetSafeTC hc) poolSize)]; lia.
  - intros Hps. unfold num_workers. destruct (Z.eqb_spec poolSize 0); [lia|].
    destruct (Z.ltb_spec (GetSafeTC hc) poolSize); lia.
  - intros Hpos. assert (Hc : 1 <= coreCount hc <= 2 ^ 25).
    { unfold coreCount, u32. rewrite Z.mod_small by lia. destruct (Z.eqb_spec (hc - 1) 0); lia. }
    unfold standardFiberCount, heavyFiberCount, u64, u32. rewrite !Z.mod_small by (rewrite ?Z.mod_small; lia). lia.
  - intros ->. split; reflexivity.
Qed.

Lemma pool_sizes_witness :
  num_workers 8 0 = 7 /\ num_workers 8 100 = 7 /\ num_workers 8 3 = 3 /\ 64 <= standardFiberCount 8.
Proof.
  destruct (pool_sizes 8 3 ltac:(lia) ltac:(lia)) as (_ & H & Hf & _).
  split; [reflexivity|]. split; [reflexivity|]. split; [apply H; lia|]. apply Hf. lia.
Defined.
