(* ===== verification/WorkerFlow.v ===== *)
(** * The control flow of a worker ([Thread::Worker] of [src/Thread.cpp])

    Where a step of the machine of [Worker.v] leaves the workers: a section takes
    its own worker to one of the sections that follow it in the loop, and any
    other operation at most wakes a worker that sleeps.  So a worker that was told
    to stop reaches the end of its thread after at most six of its own steps,
    unless every core is pinned, in which case a requeue spins. *)
From S2P Require Import Prelude Task WorkDeque Scheduler Worker.

#[global] Instance worker_at_eq_dec : EqDecision worker_at.
Proof. solve_decision. Defined.

Section Flow.
Context {D : Type} `{WD : WorkDeque D}.

(** ** Partial correctness, with the reason for blocking *)

(** [m] may be undefined; if it blocks then [B]; if it returns then [Q]. *)
Definition does (B : Prop) {A} (m : outcome A) (Q : A -> Prop) : Prop :=
  match m with Ok a => Q a | Blocked => B | Stuck => True end.

Lemma does_bind B {A C} (m : outcome A) (f : A -> outcome C) Q :
  does B m (fun a => does B (f a) Q) -> does B (m ≫= f) Q.
Proof. by destruct m. Qed.
Lemma does_mono (B B' : Prop) {A} (m : outcome A) (P Q : A -> Prop) :
  does B m P -> (B -> B') -> (forall a, P a -> Q a) -> does B' m Q.
Proof. destruct m; simpl; auto. Qed.
Lemma does_at B {A} (l : list A) i Q : (forall x, l !! i = Some x -> Q x) -> does B (at_ l i) Q.
Proof. unfold at_. destruct (l !! i); simpl; auto. Qed.
Lemma does_deref B {A} (m : gmap ptr A) p Q : (forall x, m !! p = Some x -> Q x) -> does B (deref m p) Q.
Proof. unfold deref. destruct (m !! p); simpl; auto. Qed.

(** ** What operations do to the workers *)

(** A worker is left where it is, or woken. *)
Definition woken (w w' : worker) : Prop :=
  running w' = running w /\ (pc w' = pc w \/ (pc w = Asleep /\ pc w' = SleepCheck)).
#[global] Instance woken_po : PreOrder woken.
Proof.
  split; [intros w; split; auto|]. intros w1 w2 w3 [R1 H1] [R2 H2]. split; [by etrans|].
  destruct H1 as [H1|[H1 H1']], H2 as [H2|[H2 H2']]; intuition congruence.
Qed.

Definition active (s : sched D) : bool := poolActive (ctl s).
Definition wakes (s s' : sched D) : Prop :=
  Forall2 woken (workers s) (workers s') /\ active s' = active s.
#[global] Instance wakes_po : PreOrder wakes.
Proof. split; [by intros s; split|]. intros s1 s2 s3 [H1 A1] [H2 A2]. split; by etrans. Qed.

(** Besides, a core may be given back, but none is taken. *)
Record framed (s s' : sched D) : Prop := mk_framed {
  fr_workers : wakes s s';
  fr_flags : forall i, immediateCoresInUse s' !! i = Some true -> immediateCoresInUse s !! i = Some true
}.
#[global] Instance framed_po : PreOrder framed.
Proof.
  split; [intros s; split; [reflexivity|auto]|]. intros s1 s2 s3 [H1 F1] [H2 F2]. split; [by etrans|auto].
Qed.

Lemma framed_same s s' :
  workers s' = workers s -> immediateCoresInUse s' = immediateCoresInUse s -> active s' = active s -> framed s s'.
Proof. intros Hw Hf Ha. split; [split; by rewrite ?Hw|by rewrite Hf]. Qed.
Lemma wakes_same s s' : workers s' = workers s -> active s' = active s -> wakes s s'.
Proof. intros Hw Ha. split; by rewrite ?Hw. Qed.
Lemma wakes_set_worker s i w w' : workers s !! i = Some w -> woken w w' -> wakes s (set_worker s i w').
Proof.
  intros Hw H. split; [|done]. simpl. rewrite <- (list_insert_id (workers s) i w) at 1 by done.
  apply Forall2_insert; [reflexivity|done].
Qed.
Lemma framed_set_worker s i w w' : workers s !! i = Some w -> woken w w' -> framed s (set_worker s i w').
Proof. intros. split; [by eapply wakes_set_worker|done]. Qed.
Lemma framed_clear_flag s i : framed s (clear_flag s i).
Proof.
  split; [by split|]. intros j. simpl.
  destruct (decide (i = j)) as [<-|?]; [|by rewrite list_lookup_insert_ne].
  intros H. apply list_lookup_insert_Some in H as [(_ & ? & _)|[? _]]; done.
Qed.
Lemma woken_notified w : woken w (notified w).
Proof. split; [done|]. simpl. destruct (pc w); auto. Qed.
Lemma woken_marked w : woken w (marked w).
Proof. split; [done|]. simpl. destruct (pc w); auto. Qed.

Lemma wakes_length s s' : wakes s s' -> length (workers s') = length (workers s).
Proof. by intros [H%Forall2_length _]. Qed.
Lemma wakes_lookup s s' i w :
  wakes s s' -> workers s !! i = Some w -> exists w', workers s' !! i = Some w' /\ woken w w'.
Proof. intros [H _] Hw. destruct (Forall2_lookup_l _ _ _ _ _ H Hw) as (w' & ? & ?). eauto. Qed.

(** Every core is pinned to an immediate or forked task. *)
Definition all_pinned (s : sched D) : Prop :=
  forall i, (i < length (workers s))%nat -> immediateCoresInUse s !! i = Some true.

#[global] Instance all_pinned_dec s : Decision (all_pinned s).
Proof.
  refine (cast_if (decide (Forall (fun i => immediateCoresInUse s !! i = Some true) (seq 0 (length (workers s))))));
    [abstract (intros i Hi; rewrite Forall_forall in f; apply f, elem_of_seq; lia)|].
  abstract (intros H; apply n, Forall_forall; intros i Hi%elem_of_seq; apply H; lia).
Defined.

Lemma framed_pinned s s' : framed s s' -> all_pinned s' -> all_pinned s.
Proof. intros [Hw Hf] H i Hi. apply Hf, H. by rewrite (wakes_length _ _ Hw). Qed.

(** Worker indices fit the [uint8_t] they are kept in. *)
Definition small (s : sched D) : Prop := (length (workers s) <= 256)%nat.

(** [m] starts from [s], and [f] is the state in its result. *)
Definition flows {A} (s : sched D) (f : A -> sched D) (m : outcome A) : Prop :=
  small s -> does (all_pinned s) m (fun a => framed s (f a)).

Lemma flows_step {A} s s' (f : A -> sched D) m : framed s s' -> flows s' f m -> flows s f m.
Proof.
  intros Hs Hm Hsm. assert (Hsm' : small s') by (unfold small; by rewrite (wakes_length _ _ (fr_workers _ _ Hs))).
  eapply does_mono; [by apply Hm|by apply framed_pinned|]. intros a Ha. by etrans.
Qed.
Lemma flows_bind {A C} s (f : A -> sched D) (g : C -> sched D) m k :
  flows s f m -> (forall a, flows (f a) g (k a)) -> flows s g (m ≫= k).
Proof.
  intros Hm Hk Hsm. apply does_bind. eapply does_mono; [by apply Hm|done|].
  intros a Ha. eapply flows_step; [exact Ha|apply Hk|done].
Qed.
Lemma flows_at {A C} s (g : C -> sched D) (l : list A) i k :
  (forall x, l !! i = Some x -> flows s g (k x)) -> flows s g (at_ l i ≫= k).
Proof. intros Hk Hsm. apply does_bind, does_at. intros x Hx. by apply Hk. Qed.
Lemma flows_deref {A C} s (g : C -> sched D) (m : gmap ptr A) p k :
  (forall x, m !! p = Some x -> flows s g (k x)) -> flows s g (deref m p ≫= k).
Proof. intros Hk Hsm. apply does_bind, does_deref. intros x Hx. by apply Hk. Qed.
Lemma flows_ret {A} s (f : A -> sched D) a : framed s (f a) -> flows s f (Ok a).
Proof. by intros H _. Qed.
Lemma flows_stuck {A} s (f : A -> sched D) : flows s f Stuck.
Proof. done. Qed.
Lemma flows_fmap {A C} s (f : A -> sched D) (h : A -> C) (g : C -> sched D) m :
  flows s f m -> (forall a, g (h a) = f a) -> flows s g (h <$> m).
Proof. intros Hm Hh Hsm. specialize (Hm Hsm). destruct m; simpl in *; [by rewrite Hh|done|done]. Qed.
Lemma flows_wakes {A} s (f : A -> sched D) m :
  small s -> flows s f m -> does True m (fun a => wakes s (f a)).
Proof. intros Hs Hm. eapply does_mono; [by apply Hm|done|]. by intros a []. Qed.

(** ** Submitting tasks *)

Ltac by_frame := apply flows_ret; simpl; by apply framed_same.

Lemma mark_and_notify_flows s i : flows s id (mark_and_notify s i).
Proof. apply flows_at. intros w Hw. apply flows_ret. apply (framed_set_worker _ _ w); [done|apply woken_marked]. Qed.

Lemma inbox_push_flows s hi i ts : flows s id (inbox_push s hi i ts).
Proof. unfold inbox_push. destruct hi; (apply flows_at; intros l _; by_frame). Qed.

(** The loop of [PickNextWorker] finds a free core if there is one. *)
Lemma pick_free_or_pinned flags next n fuel i :
  does False (pick flags next n fuel i) (fun r =>
    match r with
    | Some idx => flags !! idx = Some false /\ exists k, idx = ((next + k) mod n)%nat
    | None => forall k, (i <= k < i + fuel)%nat -> flags !! ((next + k) mod n)%nat = Some true
    end).
Proof.
  revert i. induction fuel as [|fuel IH]; intros i; simpl; [lia|].
  apply does_bind, does_at. intros [] Hb; simpl.
  - eapply does_mono; [apply (IH (S i))|done|]. intros [idx|] H; [done|]. intros k Hk.
    destruct (decide (k = i)) as [->|]; [done|]. apply H. lia.
  - split; [done|by exists i].
Qed.

(** Every index is tried. *)
Lemma mod_hits n next j : (j < n)%nat -> exists k, (k < n)%nat /\ ((next + k) mod n)%nat = j.
Proof.
  intros Hj. pose proof (Nat.mod_upper_bound next n ltac:(lia)) as Hm.
  pose proof (Nat.div_mod next n ltac:(lia)) as Hd. set (r := (next mod n)%nat) in *.
  destruct (decide (r <= j)%nat).
  - exists (j - r)%nat. split; [lia|]. rewrite Hd.
    replace (n * (next / n) + r + (j - r))%nat with (j + (next / n) * n)%nat by lia.
    rewrite Nat.Div0.mod_add. by apply Nat.mod_small.
  - exists (n + j - r)%nat. split; [lia|]. rewrite Hd.
    replace (n * (next / n) + r + (n + j - r))%nat with (j + (next / n + 1) * n)%nat by lia.
    rewrite Nat.Div0.mod_add. by apply Nat.mod_small.
Qed.

Lemma PickNextWorker_spec s :
  does False (PickNextWorker s) (fun '(idx, s') =>
    framed s s' /\ immediateCoresInUse s' = immediateCoresInUse s /\
    (immediateCoresInUse s !! idx = Some false /\ (idx < length (workers s))%nat \/ all_pinned s)).
Proof.
  unfold PickNextWorker. apply does_bind. eapply does_mono; [apply pick_free_or_pinned|done|]. intros [idx|] H; simpl.
  - destruct H as [Hf [k Hk]]. split_and!; [by apply framed_same|done|].
    destruct (decide (length (workers s) = 0%nat)) as [Hz|Hz]; [right; intros i; lia|].
    left. split; [done|]. rewrite Hk. by apply Nat.mod_upper_bound.
  - case_decide; [done|]. split_and!; [by apply framed_same|done|]. right. intros i Hi.
    destruct (mod_hits _ (nextWorker (ctl s)) i Hi) as (k & Hk & <-). apply H. lia.
Qed.

Lemma PickNextWorker_flows s : flows s snd (PickNextWorker s).
Proof.
  intros _. eapply does_mono; [apply PickNextWorker_spec|done|]. by intros [idx s'] (H & _).
Qed.

Lemma pick_free_flows s : flows s snd (pick_free s).
Proof.
  intros Hsm. unfold pick_free. apply does_bind. eapply does_mono; [apply PickNextWorker_spec|done|].
  intros [idx s'] (Hf & Hfl & Hc). apply does_bind, does_at. intros b Hb.
  destruct b; simpl; [|done]. destruct Hc as [[Hc Hlt]|]; [|done].
  unfold small in Hsm. assert (u8 (Z.of_nat idx) = Z.of_nat idx) as He by (apply Z.mod_small; lia).
  rewrite He, Nat2Z.id, Hfl in Hb. congruence.
Qed.

Lemma pick_free_int_flows s : flows s snd (pick_free_int s).
Proof.
  intros Hsm. unfold pick_free_int. apply does_bind. eapply does_mono; [apply PickNextWorker_spec|done|].
  intros [idx s'] (Hf & Hfl & Hc). apply does_bind, does_at. intros b Hb.
  destruct b; simpl; [|done]. destruct Hc as [[Hc Hlt]|]; [|done]. rewrite Hfl in Hb. congruence.
Qed.

Lemma PushLocal_flows s t a : flows s fst (PushLocal s t a).
Proof.
  unfold PushLocal. destruct t as [t|]; [|by_frame]. destruct (_ && _).
  - apply flows_at. intros [] _; cbn [negb]; [by_frame|].
    apply (flows_bind _ id); [apply inbox_push_flows|]. intros s1. by_frame.
  - apply (flows_bind _ snd); [apply pick_free_flows|]. intros [c s1]. apply flows_deref. intros tk _.
    apply (flows_bind _ id); [apply inbox_push_flows|]. intros s2. by_frame.
Qed.

Lemma Requeue_flows s t : flows s fst (Requeue s t).
Proof.
  unfold Requeue. destruct t as [t|]; [|by_frame].
  apply (flows_bind _ snd); [apply pick_free_flows|]. intros [c s1]. apply flows_deref. intros tk _.
  apply (flows_bind _ id); [apply inbox_push_flows|]. intros s2.
  apply (flows_bind _ id); [apply mark_and_notify_flows|]. intros s3. by_frame.
Qed.

Lemma PushBatch_flows s ts a : flows s id (PushBatch s ts a).
Proof.
  unfold PushBatch. case_decide; [done|]. cbv zeta.
  eapply (flows_step _ (add_pending s _)); [by apply framed_same|].
  apply (flows_bind _ snd).
  - destruct (a =? 0); [apply pick_free_int_flows|]. apply flows_at. intros [] _; [apply pick_free_int_flows|by_frame].
  - intros [c s1]. apply (flows_bind _ id); [apply inbox_push_flows|]. intros s2. apply mark_and_notify_flows.
Qed.

Lemma RunCounted_flows s g t : flows s id (RunCounted s g t).
Proof.
  unfold RunCounted. apply flows_deref. intros wg _. apply flows_deref. intros tk _.
  eapply (flows_step _ (set_tasks (set_groups s _) _)); [by apply framed_same|].
  apply (flows_fmap _ fst); [apply PushLocal_flows|done].
Qed.

(** ** Completion *)

Lemma resume_parked_flows s t : flows s id (resume_parked s t).
Proof.
  unfold resume_parked. case_decide; [|by_frame].
  eapply (flows_step _ (set_parked s _)); [by apply framed_same|].
  apply (flows_fmap _ fst); [apply Requeue_flows|done].
Qed.
Lemma resume_all_flows s ts : flows s id (resume_all s ts).
Proof.
  revert s. induction ts as [|t ts IH]; intros s; simpl; [by_frame|].
  apply (flows_bind _ id); [apply resume_parked_flows|]. intros s1. apply IH.
Qed.
Lemma complete_wait_flows s tk : flows s id (complete_wait s tk).
Proof.
  unfold complete_wait. destruct (waitGroup tk) as [g|]; [|by_frame].
  apply flows_deref. intros wg _. destruct (complete (n wg)) as [n' []]; [|by_frame].
  cbn [id]. match goal with |- context [WakeAll ?s1 g] => apply (flows_step _ s1); [by apply framed_same|] end.
  unfold WakeAll. apply flows_deref. intros wg' _. cbv zeta.
  match goal with |- context [resume_all ?s2 _] => apply (flows_step _ s2); [by apply framed_same|] end.
  apply resume_all_flows.
Qed.

(** ** The sections of the loop *)

(** Worker [i] goes to a place in [P]; the others are at most woken. *)
Record steps_to (i : nat) (P : worker_at -> Prop) (s s' : sched D) : Prop := {
  st_length : length (workers s') = length (workers s);
  st_others : forall j w, j <> i -> workers s !! j = Some w -> exists w', workers s' !! j = Some w' /\ woken w w';
  st_own : exists w w', workers s !! i = Some w /\ workers s' !! i = Some w' /\ running w' = running w /\ P (pc w');
  st_active : active s' = active s;
  st_flags : forall j, immediateCoresInUse s' !! j = Some true -> immediateCoresInUse s !! j = Some true
}.

Lemma steps_to_after i P s s1 s' : framed s s1 -> steps_to i P s1 s' -> steps_to i P s s'.
Proof.
  intros [Hw Hf] [Hl Ho (w1 & w' & Hw1 & Hw' & Hr & HP) Hac Hf']. constructor.
  - by rewrite Hl, (wakes_length _ _ Hw).
  - intros j w Hj Hjw. destruct (wakes_lookup _ _ _ _ Hw Hjw) as (v & Hv & Hwv).
    destruct (Ho j v Hj Hv) as (v' & ? & ?). exists v'. split; [done|by etrans].
  - destruct (Forall2_lookup_r _ _ _ _ _ (proj1 Hw) Hw1) as (w & Hw0 & [Hr1 _]). exists w, w'. split_and!; try done. by etrans.
  - rewrite Hac. apply Hw.
  - auto.
Qed.
Lemma steps_to_before i (P : worker_at -> Prop) s s1 s' : ~ P Asleep -> steps_to i P s s1 -> framed s1 s' -> steps_to i P s s'.
Proof.
  intros HP [Hl Ho (w & w1 & Hw & Hw1 & Hr & HPw) Hac Hf] [Hw' Hf']. constructor.
  - by rewrite (wakes_length _ _ Hw').
  - intros j v Hj Hjv. destruct (Ho j v Hj Hjv) as (v1 & Hv1 & Hwv).
    destruct (wakes_lookup _ _ _ _ Hw' Hv1) as (v' & ? & ?). exists v'. split; [done|by etrans].
  - destruct (wakes_lookup _ _ _ _ Hw' Hw1) as (w' & Hw2 & [Hr2 Hp]). exists w, w'. split_and!; try done; [congruence|].
    destruct Hp as [->|[Hp _]]; [done|]. by rewrite Hp in HPw.
  - rewrite <- Hac. apply Hw'.
  - auto.
Qed.

Definition moves (i : nat) (P : worker_at -> Prop) (s : sched D) (m : outcome (sched D)) : Prop :=
  small s -> does (all_pinned s) m (steps_to i P s).

Lemma moves_after i P s s1 m : framed s s1 -> moves i P s1 m -> moves i P s m.
Proof.
  intros Hs Hm Hsm. assert (Hsm' : small s1) by (unfold small; by rewrite (wakes_length _ _ (fr_workers _ _ Hs))).
  eapply does_mono; [by apply Hm|by apply framed_pinned|]. intros a Ha. by eapply steps_to_after.
Qed.
Lemma moves_bind {A} i P s (f : A -> sched D) m k :
  flows s f m -> (forall a, moves i P (f a) (k a)) -> moves i P s (m ≫= k).
Proof.
  intros Hm Hk Hsm. apply does_bind. eapply does_mono; [by apply Hm|done|].
  intros a Ha. eapply moves_after; [exact Ha|apply Hk|done].
Qed.
Lemma moves_then i (P : worker_at -> Prop) s m (k : sched D -> outcome (sched D)) :
  ~ P Asleep -> moves i P s m -> (forall s1, flows s1 id (k s1)) -> moves i P s (m ≫= k).
Proof.
  intros HP Hm Hk Hsm. apply does_bind. eapply does_mono; [by apply Hm|done|]. intros s1 Hs1.
  eapply does_mono; [apply Hk; unfold small; by rewrite (st_length _ _ _ _ Hs1)| |].
  - intros Hp j Hj. apply (st_flags _ _ _ _ Hs1), Hp. by rewrite (st_length _ _ _ _ Hs1).
  - intros a Ha. by eapply steps_to_before.
Qed.
Lemma moves_at {A} i P s (l : list A) j k :
  (forall x, l !! j = Some x -> moves i P s (k x)) -> moves i P s (at_ l j ≫= k).
Proof. intros Hk Hsm. apply does_bind, does_at. intros x Hx. by apply Hk. Qed.

Lemma moves_set_worker i (P : worker_at -> Prop) s w w' :
  workers s !! i = Some w -> running w' = running w -> P (pc w') -> moves i P s (Ok (set_worker s i w')).
Proof.
  intros Hw Hr HP _. simpl. constructor; simpl.
  - by rewrite length_insert.
  - intros j v Hj Hjv. exists v. split; [by rewrite list_lookup_insert_ne|reflexivity].
  - exists w, w'. split_and!; try done. apply list_lookup_insert_eq. by apply lookup_lt_Some in Hw.
  - done.
  - done.
Qed.
Ltac to_place := eapply moves_set_worker; [eassumption|done|simpl; auto].
Lemma moves_modify i (P : worker_at -> Prop) s f :
  (forall w, workers s !! i = Some w -> running (f w) = running w /\ P (pc (f w))) -> moves i P s (modify s i f).
Proof. intros H. apply moves_at. intros w Hw. destruct (H w Hw). by eapply moves_set_worker. Qed.

(** Changes of worker [i] that leave its place alone. *)
Lemma modify_flows s i f :
  (forall w, running (f w) = running w /\ pc (f w) = pc w) -> flows s id (modify s i f).
Proof.
  intros H. apply flows_at. intros w Hw. apply flows_ret. apply (framed_set_worker _ _ w); [done|].
  destruct (H w) as [Hr Hp]. split; auto.
Qed.

Lemma deque_flows {A} s (g : A -> sched D) hi i k :
  (forall d, flows s g (k d)) -> flows s g (deque_at s hi i ≫= k).
Proof. intros H. destruct hi; apply flows_at; auto. Qed.

Lemma switch_back_body_flows s i t b : flows s id (switch_back_body s i t b).
Proof.
  destruct b as [| | | |g]; unfold switch_back_body.
  - apply flows_deref. intros tk _. apply (flows_bind _ id); [apply complete_wait_flows|]. intros s1.
    cbv zeta. case_match; [|by_frame]. apply flows_ret.
    etrans; [|apply framed_clear_flag]. by apply framed_same.
  - apply deque_flows. intros d. destruct (dq_push_bottom d (Some t)) as [d' []]; apply flows_ret; by apply framed_same.
  - by_frame.
  - apply (flows_fmap _ fst); [apply Requeue_flows|done].
  - apply flows_deref. intros wg _. destruct (announce_waiter (n wg)) as [n' []]; [|by_frame].
    eapply (flows_step _ (set_groups s _)); [by apply framed_same|].
    apply (flows_fmap _ fst); [apply Requeue_flows|done].
Qed.

Lemma pop_inbox_flows s hi i : flows s fst (pop_inbox s hi i).
Proof. unfold pop_inbox. destruct hi; (apply flows_at; intros l _; by_frame). Qed.
Lemma requeue_all_flows s ts : flows s id (requeue_all s ts).
Proof.
  revert s. induction ts as [|t ts IH]; intros s; cbn [requeue_all]; [by_frame|].
  apply (flows_bind _ fst); [apply Requeue_flows|]. intros [s1 b]. apply IH.
Qed.
Lemma drainInbox_flows s hi i : flows s id (drainInbox s hi i).
Proof. apply (flows_bind _ fst); [apply pop_inbox_flows|]. intros [s1 ts]. apply requeue_all_flows. Qed.
Lemma pop_own_flows s hi i : flows s fst (pop_own s hi i).
Proof. apply deque_flows. intros d. destruct (dq_pop_bottom d). by_frame. Qed.
Lemma tryStealFrom_flows s j : flows s fst (tryStealFrom s j).
Proof.
  apply deque_flows. intros d. destruct (dq_steal d) as [d' [x|]]; cbv zeta; [by_frame|].
  eapply (flows_step _ (set_deque s true j d')); [by apply framed_same|].
  apply deque_flows. intros e. destruct (dq_steal e). by_frame.
Qed.
Lemma probe_flows s mates st fuel i : flows s fst (probe s mates st fuel i).
Proof.
  revert s i. induction fuel as [|fuel IH]; intros s i; simpl; [by_frame|].
  apply flows_at. intros j _. apply (flows_bind _ fst); [apply tryStealFrom_flows|].
  intros [s1 [x|]]; [by_frame|apply IH].
Qed.
Lemma roll_flows s i : flows s fst (roll s i).
Proof. apply flows_at. intros w Hw. apply flows_ret. apply (framed_set_worker _ _ w); [done|split; auto]. Qed.
Lemma steal_cluster_flows s i : flows s fst (steal_cluster s i).
Proof.
  apply flows_at. intros mates _. case_decide; [by_frame|]. apply flows_at. intros w _.
  apply (flows_bind _ fst); [apply roll_flows|]. intros [s1 x].
  apply (flows_bind _ fst); [apply probe_flows|]. intros [s2 r]. by_frame.
Qed.
Lemma steal_sibling_flows s i : flows s fst (steal_sibling s i).
Proof.
  apply flows_at. intros sib _. destruct (sib <? 0); [by_frame|]. apply flows_at. intros v _.
  destruct (busy v); [by_frame|]. apply (flows_bind _ fst); [apply tryStealFrom_flows|]. intros [s1 r]. by_frame.
Qed.
Lemma steal_random_flows s i : flows s fst (steal_random s i).
Proof.
  apply (flows_bind _ fst); [apply roll_flows|]. intros [s1 x]. cbv zeta.
  destruct (decide (_ = 0%nat)); [done|].
  apply (flows_bind _ fst); [apply tryStealFrom_flows|]. intros [s2 r]. by_frame.
Qed.
Lemma inbox_one_flows s hi i : flows s fst (inbox_one s hi i).
Proof.
  apply (flows_bind _ fst); [apply pop_inbox_flows|]. intros [s1 ts]. case_decide; [by_frame|].
  apply deque_flows. intros d. destruct (dq_push_bottom_batch d _) as [d' []]; cbv zeta.
  - eapply (flows_step _ (set_deque s1 hi i d')); [by apply framed_same|].
    apply deque_flows. intros e. destruct (dq_pop_bottom e). by_frame.
  - by_frame.
Qed.

(** ** The loop *)

(** The places a step from [pc w] may lead to. *)
Definition succ (w : worker) (p : worker_at) : Prop :=
  match pc w with
  | Top => if running w then p = Fast \/ (exists f, p = OnFiber f) \/ p = Top \/ p = Immediate else p = Exited
  | Fast => p = Top
  | OnFiber _ => p = Immediate
  | Immediate => p = Local \/ p = Top
  | Local => p = Stealing \/ p = Top
  | Stealing => p = Inbox \/ p = Top
  | Inbox => p = SleepCheck \/ p = Top
  | SleepCheck => if running w then p = Top \/ p = Asleep else p = Exited
  | Asleep | Exited => False
  end.

Lemma start_task_moves s i w t inp (P : worker_at -> Prop) :
  workers s !! i = Some w -> pc w = Top -> P Fast -> (forall f, P (OnFiber f)) -> P Top ->
  moves i P s (start_task s i (unmarked w) t inp).
Proof.
  intros Hw Hpc H1 H2 H3. intros Hsm. apply does_bind, does_deref. intros tk _. revert Hsm.
  change (moves i P s (if negb (fastJob tk =? 0)
    then Ok (set_worker s i (goto (current (unmarked w) (Some t) (currentFiber (unmarked w)) true) Fast))
    else match assignedFiber tk, acquired inp with
      | Some f, _ => Ok (set_worker s i (goto (current (unmarked w) (Some t) (Some f) true) (OnFiber f)))
      | None, Some f =>
          Ok (set_worker (set_tasks s (<[t := set_assignedFiber tk (Some f)]> (tasks (obj s)))) i
                (goto (current (unmarked w) (Some t) (Some f) true) (OnFiber f)))
      | None, None => no_fiber s i (unmarked w) t
      end)).
  destruct (negb _); [by eapply moves_set_worker|].
  destruct (assignedFiber tk) as [f|].
  { eapply moves_set_worker; [done|done|]. apply H2. }
  destruct (acquired inp) as [g|].
  - eapply (moves_after _ _ _ (set_tasks s _)); [by apply framed_same|].
    eapply moves_set_worker; [done|done|]. apply H2.
  - unfold no_fiber. destruct (is_handling_fork _).
    + eapply moves_set_worker; [done|done|]. simpl. by rewrite Hpc.
    + intros Hsm. apply does_bind. destruct (deque_at s false i) as [d| |] eqn:E; simpl; [|unfold deque_at, at_ in E; by case_match|done].
      destruct (dq_push_bottom d (Some t)) as [d' ok]. revert Hsm.
      change (moves i P s (Ok (set_worker (set_deque s false i d') i (unmarked w)))).
      eapply (moves_after _ _ _ (set_deque s false i d')); [by apply framed_same|].
      eapply moves_set_worker; [done|done|]. simpl. by rewrite Hpc.
Qed.

Lemma top_moves s i w inp : workers s !! i = Some w -> pc w = Top -> moves i (succ w) s (top s i w inp).
Proof.
  intros Hw Hpc. unfold top, succ. rewrite Hpc. destruct (running w) eqn:Hr; cbn [negb].
  - cbv zeta. change (task_to_run (unmarked w)) with (task_to_run w).
    destruct (task_to_run w) as [t|].
    + apply start_task_moves; eauto.
    + eapply moves_set_worker; [done|done|]. simpl. auto.
  - apply moves_modify. intros w' Hw'. simplify_eq. done.
Qed.

Lemma finish_fast_moves s i : moves i (.= Top) s (finish_fast s i).
Proof.
  apply moves_at. intros w Hw. destruct (task_to_run w) as [t|]; [|done].
  apply moves_then; [done|apply moves_modify; by split|]. intros s1.
  apply flows_deref. intros tk _. apply (flows_bind _ id); [apply complete_wait_flows|]. intros s2. cbv zeta.
  match goal with |- flows _ _ (modify ?s3 _ _) => apply (flows_step _ s3) end.
  - destruct (_ || _); [etrans; [|apply framed_clear_flag]|]; by apply framed_same.
  - by apply modify_flows.
Qed.

Lemma switched_back_moves s i b : moves i (.= Immediate) s (switched_back s i b).
Proof.
  apply moves_at. intros w Hw. destruct (task_to_run w) as [t|]; [|done].
  apply moves_then; [done|apply moves_modify; by split|]. intros s1.
  apply (flows_bind _ id); [apply switch_back_body_flows|]. intros s2. cbv zeta.
  match goal with |- flows _ _ (modify ?s3 _ _) => apply (flows_step _ s3) end.
  - destruct (is_handling_fork w); [apply framed_clear_flag|reflexivity].
  - by apply modify_flows.
Qed.

Lemma immediate_section_moves s i : moves i (fun p => p = Local \/ p = Top) s (immediate_section s i).
Proof.
  apply moves_at. intros w Hw. destruct (immediateTask w) as [t|]; [|to_place].
  apply (moves_bind _ _ _ id); [apply drainInbox_flows|]. intros s1.
  apply (moves_bind _ _ _ id); [apply drainInbox_flows|]. intros s2.
  apply moves_at. intros w2 Hw2. to_place.
Qed.

(** A section that looks for a task: it is found, or the next section follows. *)
Ltac found_or_next := apply moves_modify; simpl; intros; split; auto.

Lemma local_section_moves s i : moves i (fun p => p = Stealing \/ p = Top) s (local_section s i).
Proof.
  apply (moves_bind _ _ _ fst); [apply pop_own_flows|]. intros [s1 [t|]]; [found_or_next|].
  apply (moves_bind _ _ _ fst); [apply pop_own_flows|]. intros [s2 [t|]]; found_or_next.
Qed.

Lemma attempt_flows {A} (s : sched D) (r : option A) (m : outcome (sched D * option A)) :
  flows s fst m -> flows s fst (match r with Some t => Ok (s, Some t) | None => m end).
Proof. destruct r; [|done]. intros _. by_frame. Qed.

Lemma steal_section_moves s i : moves i (fun p => p = Inbox \/ p = Top) s (steal_section s i).
Proof.
  apply (moves_bind _ _ _ fst); [apply steal_cluster_flows|]. intros [s1 r1].
  apply (moves_bind _ _ _ fst); [apply attempt_flows, steal_sibling_flows|]. intros [s2 r2].
  apply (moves_bind _ _ _ fst); [apply attempt_flows, steal_random_flows|].
  intros [s3 [t|]]; found_or_next.
Qed.

Lemma inbox_section_moves s i : moves i (fun p => p = SleepCheck \/ p = Top) s (inbox_section s i).
Proof.
  apply (moves_bind _ _ _ fst); [apply inbox_one_flows|]. intros [s1 [x|]]; [found_or_next|].
  apply (moves_bind _ _ _ fst); [apply inbox_one_flows|]. intros [s2 [x|]]; found_or_next.
Qed.

Lemma sleep_check_moves s i w :
  workers s !! i = Some w -> pc w = SleepCheck -> moves i (succ w) s (sleep_check s i).
Proof.
  intros Hw Hpc. apply moves_at. intros w' Hw'. simplify_eq. unfold succ. rewrite Hpc.
  destruct (running w) eqn:Hr; simpl; [destruct (_ || _)|]; to_place.
Qed.

(** A step of a worker that is not asleep follows the loop. *)
Lemma worker_step_moves s i w inp :
  workers s !! i = Some w -> pc w <> Asleep -> pc w <> Exited -> moves i (succ w) s (worker_step s i inp).
Proof.
  intros Hw Ha Hx. apply moves_at. intros w' Hw'. simplify_eq.
  assert (Hm : forall P m, moves i P s m -> (forall p, P p -> succ w p) -> moves i (succ w) s m).
  { intros P m H HP Hsm. eapply does_mono; [by apply H|done|].
    intros s' [Hl Ho (v & v' & ? & ? & ? & ?) Hac Hf]. constructor; eauto 10. }
  destruct (pc w) eqn:Hpc; try done.
  - by apply top_moves.
  - eapply Hm; [apply finish_fast_moves|]. unfold succ. by rewrite Hpc.
  - eapply Hm; [apply switched_back_moves|]. unfold succ. by rewrite Hpc.
  - eapply Hm; [apply immediate_section_moves|]. unfold succ. by rewrite Hpc.
  - eapply Hm; [apply local_section_moves|]. unfold succ. by rewrite Hpc.
  - eapply Hm; [apply steal_section_moves|]. unfold succ. by rewrite Hpc.
  - eapply Hm; [apply inbox_section_moves|]. unfold succ. by rewrite Hpc.
  - by apply sleep_check_moves.
Qed.

(** ** Everything else at most wakes a worker *)

Lemma PushToCore_wakes s c t : small s -> does True (PushToCore s c t) (fun r => wakes s r.1).
Proof.
  intros Hsm. unfold PushToCore. destruct (c <? 1); [simpl; reflexivity|]. destruct (negb _); [simpl; reflexivity|].
  destruct t as [t|]; [|simpl; reflexivity]. cbv zeta. destruct (_ =? 0); [done|].
  apply does_bind, does_at. intros [] _; simpl; [reflexivity|by apply wakes_same].
Qed.

Lemma finish_call_wakes s k : small s -> does True (finish_call s k) (wakes s).
Proof.
  intros Hsm. unfold finish_call. destruct (submitting s !! k) as [[i|i t]|]; [| |done]; cbv zeta.
  - eapply (flows_wakes s id); [done|]. eapply flows_step; [|apply mark_and_notify_flows]. by apply framed_same.
  - unfold give_core. cbv zeta. apply does_bind, does_at. intros w Hw.
    apply (wakes_set_worker s _ w); [done|]. etrans; [|apply woken_notified]. split; auto.
Qed.

Lemma fork_tail_wakes s s1 t id : small s -> wakes s s1 ->
  does True (tk ← deref (tasks (obj s1)) t;
             let s2 := add_pending (set_tasks s1 (<[t := set_isForked tk 1]> (tasks (obj s1)))) 1 in
             let g := gh s2 in
             PushLocal (set_gh s2 (mk_ghost (completed g) (lost g) (phantom g + 1))) (Some t) (u8 (Z.of_nat id)))
    (fun r => wakes s r.1).
Proof.
  intros Hsm Hw. apply does_bind, does_deref. intros tk _. cbv zeta.
  eapply does_mono; [apply PushLocal_flows|done|].
  - unfold small in *. simpl. by rewrite (wakes_length _ _ Hw).
  - intros r [Hr _]. etrans; [exact Hw|exact Hr].
Qed.

Lemma PushFork_wakes s c t : small s -> does True (PushFork s c t) (fun r => wakes s r.1).
Proof.
  intros Hsm. unfold PushFork. destruct t as [t|]; [|simpl; reflexivity].
  destruct (negb _); [simpl; reflexivity|]. cbv zeta. apply does_bind.
  eapply (does_mono _ _ _ (fun r : nat * sched D => framed s r.2)).
  { assert (Hp := PickNextWorker_flows s Hsm). destruct (IsOnFiber s c), c as [i|]; try exact Hp; simpl; reflexivity. }
  { done. }
  intros [id s1] [Hs1 _]. apply does_bind. destruct (IsOnFiber s c).
  - by apply fork_tail_wakes.
  - apply does_at. intros [] _; [done|]. by apply (fork_tail_wakes s (set_flag s1 id true)).
Qed.

Lemma scan_flows s hi st fuel i : flows s fst (scan s hi st fuel i).
Proof.
  revert s i. induction fuel as [|fuel IH]; intros s i; cbn [scan]; [by_frame|]. cbv zeta.
  apply deque_flows. intros d. destruct (dq_steal d) as [d' [x|]]; [by_frame|].
  eapply (flows_step _ (set_deque s hi _ d')); [by apply framed_same|]. apply IH.
Qed.
Lemma get_lo_flows s r : flows s fst (get_lo s r).
Proof.
  unfold get_lo. cbv zeta. case_decide; [done|].
  eapply (flows_step _ (set_steals s 0)); [by apply framed_same|].
  apply (flows_bind _ fst); [apply scan_flows|]. intros [s1 x]. by_frame.
Qed.
Lemma GetTask_flows s r1 r2 : flows s fst (GetTask s r1 r2).
Proof.
  unfold GetTask. cbv zeta. destruct (_ <=? _); [apply get_lo_flows|]. case_decide; [done|].
  apply (flows_bind _ fst); [apply scan_flows|]. intros [s1 [x|]]; [by_frame|apply get_lo_flows].
Qed.
Lemma TryRunStolenFastJob_flows s r1 r2 : flows s fst (TryRunStolenFastJob s r1 r2).
Proof.
  apply (flows_bind _ fst); [apply GetTask_flows|]. intros [s1 [t|]]; [|by_frame].
  apply flows_deref. intros tk _. destruct (fastJob tk =? 0).
  - apply (flows_bind _ fst); [apply Requeue_flows|]. intros [s2 b]. by_frame.
  - apply (flows_bind _ id); [apply complete_wait_flows|]. intros s2. by_frame.
Qed.
Lemma process_main_one_flows s : flows s (default s) (process_main_one s).
Proof.
  unfold process_main_one. destruct (mainQ (qs s)) as [|t l]; [by_frame|]. cbv zeta.
  apply flows_deref. intros tk _.
  intros Hsm. apply does_bind. eapply does_mono; [apply (complete_wait_flows (set_mainQ s l) tk Hsm)|done|].
  intros s1 [Hw Hf]. by split.
Qed.

Lemma fmap_wakes {A} s (m : outcome (sched D * A)) :
  does True m (fun r => wakes s r.1) -> does True (fst <$> m) (wakes s).
Proof. by destruct m. Qed.

(** An operation other than a worker's own step, or the order to stop it. *)
Definition outside (a : action) : bool :=
  match a with AWorker _ _ | AStopWorker _ => false | _ => true end.

Lemma step_wakes s a : outside a = true -> small s -> does True (step a s) (wakes s).
Proof.
  intros Ha Hsm. destruct a; try done; unfold step; try (case_decide; [|done]).
  all: try (apply fmap_wakes; first [by apply PushFork_wakes | by apply (flows_wakes s fst), PushLocal_flows
    | by apply (flows_wakes s fst), TryRunStolenFastJob_flows]).
  all: try (simpl; by apply wakes_same).
  - by apply (flows_wakes s id), PushBatch_flows.
  - by apply (flows_wakes s id), RunCounted_flows.
  - apply fmap_wakes, PushToCore_wakes, Hsm.
  - by apply finish_call_wakes.
  - unfold PushMain. destruct (negb _); simpl; by apply wakes_same.
  - destruct (poolActive _); [|simpl; reflexivity]. apply does_bind.
    eapply does_mono; [by apply process_main_one_flows|done|]. intros [s'|] [Hw _]; [exact Hw|simpl; reflexivity].
  - by apply (flows_wakes s id), resume_parked_flows.
  - split; [|done]. simpl. rewrite <- (list_fmap_id (workers s)) at 1. apply Forall2_fmap_2.
    apply Forall_Forall2_diag, Forall_forall. intros w _. apply woken_notified.
Qed.

(** ** How far a worker that was told to stop is from the end of its thread *)

Definition exit_rank (p : worker_at) : nat :=
  match p with
  | Exited => 0 | Top | SleepCheck => 1 | Fast | Inbox | Asleep => 2
  | Stealing => 3 | Local => 4 | Immediate => 5 | OnFiber _ => 6
  end.

Lemma stopped_succ w p : running w = false -> succ w p -> (exit_rank p < exit_rank (pc w))%nat.
Proof.
  intros Hr Hs. unfold succ in Hs. rewrite Hr in Hs.
  destruct (pc w); simpl; repeat (destruct Hs as [Hs|Hs] || (subst p; simpl; lia)); done.
Qed.
Lemma woken_rank w w' : woken w w' -> (exit_rank (pc w') <= exit_rank (pc w))%nat.
Proof. intros [_ [->|[-> ->]]]; simpl; lia. Qed.
Lemma exit_rank_max p : (exit_rank p <= 6)%nat.
Proof. destruct p; simpl; lia. Qed.

Lemma woken_stop w : running (notified (stopping w)) = false /\ pc (notified (stopping w)) <> Asleep /\
  (exit_rank (pc (notified (stopping w))) <= exit_rank (pc w))%nat.
Proof. split; [done|]. simpl. destruct (pc w); simpl; (split; [done|lia]). Qed.
End Flow.

(** What an operation of the scheduler does to the workers, by its lemma. *)
Create HintDb flow.
#[export] Hint Resolve
  PushLocal_flows Requeue_flows PushBatch_flows RunCounted_flows resume_parked_flows resume_all_flows
  complete_wait_flows TryRunStolenFastJob_flows process_main_one_flows flows_wakes
  woken_notified woken_marked wakes_set_worker framed_set_worker framed_same framed_clear_flag : flow.
