(* ===== verification/Lifecycle.v ===== *)
(** * The life of the pool: construction, [Join] and the destructor
      ([TaskScheduler.cpp]: [StartPool], [Init], [Join], [Stop], the destructor;
      [Thread.cpp]: [StartWorker], [Ready], [Join], the ends of [Worker])

    The machine of [Worker.v] with what comes before and after it: the thread
    that constructs the scheduler pushes the workers on the vector and starts
    their threads one by one, while those already run; any number of threads call
    [Join].  A step is one access to what the threads share, an operation of
    [Worker.v], or a section of a worker's loop. *)
From S2P Require Import Prelude Task TaskDeque WorkDeque Scheduler Worker PoolSafety Pool WorkerFlow.

(** ** State *)

(** Where the thread of a worker is.  [StartWorker] releases it as its last
    action, so it begins there. *)
Inductive thread_pc :=
  | TNone        (* no std::thread yet *)
  | TIdent       (* about to take its thread_id *)
  | TCache       (* about to size its fiber cache *)
  | TEnter       (* about to enter Worker(): running.store(true) *)
  | TLoop        (* in the loop: pc of the worker says where *)
  | TEnd.        (* the function has returned *)
#[global] Instance thread_pc_eq_dec : EqDecision thread_pc.
Proof. solve_decision. Defined.

Record thread := mk_thread {
  tpc : thread_pc;
  thread_id : option Z;
  cacheCapacity : option Z;
  ready : bool;
  joining : bool;
  joinable : bool            (* thread.joinable() *)
}.

(** Where the thread is that runs [Init]. *)
Inductive main_pc :=
  | MPush (i : nat)          (* the loop that starts the workers, at index i *)
  | MStart (i : nat)         (* worker i is on the vector: StartWorker *)
  | MReady (i : nat)         (* waiting for worker i to be ready *)
  | MIdent                   (* about to take its own thread_id *)
  | MActivate                (* about to store poolActive *)
  | MDone.                   (* Init has returned *)
#[global] Instance main_pc_eq_dec : EqDecision main_pc.
Proof. solve_decision. Defined.

(** Where a call of [TaskScheduler::Join] is; [e] is the end of its range-for. *)
Inductive join_pc :=
  | JIdle
  | JStop                    (* about to store stopFlag *)
  | JSignal                  (* about to signal the named events *)
  | JNotify                  (* about to notify all workers *)
  | JCas (i e : nat)         (* worker i: joining.compare_exchange(false, true) *)
  | JRun (i e : nat)         (* running.store(false); NotifyWorker() *)
  | JWait (i e : nat)        (* cvWorkerDone.wait *)
  | JThread (i e : nat)      (* thread.join() *)
  | JUnmark (i e : nat)      (* joining.store(false) *)
  | JClear                   (* about to clear the vectors *)
  | JInactive.               (* about to store poolActive = false *)
#[global] Instance join_pc_eq_dec : EqDecision join_pc.
Proof. solve_decision. Defined.

(** [Thread]'s constructor: [running], [ready] and [joining] are false. *)
Definition new_thread : thread := mk_thread TNone None None false false false.
Definition constructed (seed : Z) : worker :=
  mk_worker Top None false None None None false false false false 0 seed.

Definition at_tpc (t : thread) (p : thread_pc) : thread :=
  mk_thread p (thread_id t) (cacheCapacity t) (ready t) (joining t) (joinable t).
Definition identified (t : thread) (k : Z) : thread :=
  mk_thread TCache (Some k) (cacheCapacity t) (ready t) (joining t) (joinable t).
Definition cached (t : thread) (k : Z) : thread :=
  mk_thread TEnter (thread_id t) (Some k) (ready t) (joining t) (joinable t).
Definition set_ready (t : thread) : thread :=
  mk_thread (tpc t) (thread_id t) (cacheCapacity t) true (joining t) (joinable t).
Definition set_joining (t : thread) (b : bool) : thread :=
  mk_thread (tpc t) (thread_id t) (cacheCapacity t) (ready t) b (joinable t).
Definition released (t : thread) : thread :=
  mk_thread TIdent (thread_id t) (cacheCapacity t) (ready t) (joining t) true.
Definition joined (t : thread) : thread :=
  mk_thread (tpc t) (thread_id t) (cacheCapacity t) (ready t) (joining t) false.

(** [idealCapacity] of [StartWorker], from the size the vector of workers has. *)
Definition idealCapacity (size : Z) : Z :=
  let workerThreads := if 1 <? size then u32 size else 1 in
  let c := u32 (workerThreads * 72) / workerThreads / 2 in
  if c <? 16 then 16 else c.

Section Lifecycle.
Context {D : Type} `{WD : WorkDeque D}.

(** [threads] holds the [Thread]s of the vector [workers] of [sch]. *)
Record life := mk_life {
  sch : sched D;
  threads : list thread;
  thread_counter : Z;
  caller_id : option Z;         (* the thread_id of the thread that runs Init *)
  stopFlag : bool;
  main : main_pc;
  joiners : list join_pc
}.

Definition set_sch (s : life) (x : sched D) : life :=
  mk_life x (threads s) (thread_counter s) (caller_id s) (stopFlag s) (main s) (joiners s).
Definition set_threads (s : life) (x : list thread) : life :=
  mk_life (sch s) x (thread_counter s) (caller_id s) (stopFlag s) (main s) (joiners s).
Definition set_thread (s : life) (i : nat) (t : thread) : life := set_threads s (<[i := t]> (threads s)).
Definition set_counter (s : life) (x : Z) : life :=
  mk_life (sch s) (threads s) x (caller_id s) (stopFlag s) (main s) (joiners s).
Definition set_caller (s : life) (x : Z) : life :=
  mk_life (sch s) (threads s) (thread_counter s) (Some x) (stopFlag s) (main s) (joiners s).
Definition set_stopFlag (s : life) : life :=
  mk_life (sch s) (threads s) (thread_counter s) (caller_id s) true (main s) (joiners s).
Definition set_main (s : life) (p : main_pc) : life :=
  mk_life (sch s) (threads s) (thread_counter s) (caller_id s) (stopFlag s) p (joiners s).
Definition set_join (s : life) (j : nat) (p : join_pc) : life :=
  mk_life (sch s) (threads s) (thread_counter s) (caller_id s) (stopFlag s) (main s) (<[j := p]> (joiners s)).
Definition set_poolActive (s : sched D) (b : bool) : sched D :=
  let c := ctl s in
  set_ctl s (mk_control b (paused c) (nextWorker c) (pendingTasks c) (consecutiveHiPriSteals c)).

(** ** Construction *)

(** The scheduler as the loop that starts the workers finds it, and later with
    the workers [ws] on the vector: [n] pairs of empty deques and inboxes. *)
Definition boot (n : nat) (d0 : D) (tp : topology) (ws : list worker) : sched D :=
  mk_sched
    (mk_queues (replicate n d0) (replicate n d0) (replicate n []) (replicate n []) [])
    (mk_control false false 0 0 0)
    (replicate n false) ws (mk_objects ∅ ∅ []) tp (mk_ghost [] [] 0) [].

(** Before the loop; [callers] threads may call [Join] later. *)
Definition begin_pool (n : nat) (d0 : D) (tp : topology) (callers : nat) : life :=
  mk_life (boot n d0 tp []) [] 0 None false (MPush 0) (replicate callers JIdle).

(** The rest of [StartPool], for [n] workers with the [FastRand] seeds [seeds]. *)
Definition main_step (seeds : list Z) (s : life) : outcome life :=
  let n := length seeds in
  match main s with
  | MPush i =>
      match seeds !! i with
      | Some seed =>
          let s := set_sch s (set_workers (sch s) (workers (sch s) ++ [constructed seed])) in
          Ok (set_main (set_threads s (threads s ++ [new_thread])) (MStart i))
      | None => Ok (set_main s (MReady 0))
      end
  | MStart i =>
      t ← at_ (threads s) i;
      Ok (set_main (set_thread s i (released t)) (MPush (S i)))
  | MReady i =>
      if decide (i = n) then Ok (set_main s MIdent)
      else t ← at_ (threads s) i; if ready t then Ok (set_main s (MReady (S i))) else Blocked
  | MIdent =>
      let k := thread_counter s in
      Ok (set_main (set_counter (set_caller s k) (k + 1)) MActivate)
  | MActivate => Ok (set_main (set_sch s (set_poolActive (sch s) true)) MDone)
  | MDone => Blocked
  end.

(** ** The thread of a worker *)

Definition thread_step (s : life) (i : nat) (inp : input) : outcome life :=
  match threads s !! i with
  | None => Blocked
  | Some t =>
      match tpc t with
      | TNone | TEnd => Blocked
      | TIdent =>
          let k := thread_counter s in
          Ok (set_counter (set_thread s i (identified t k)) (k + 1))
      | TCache => Ok (set_thread s i (cached t (idealCapacity (Z.of_nat (length (workers (sch s)))))))
      | TEnter =>
          x ← modify (sch s) i (fun w =>
                mk_worker (pc w) (task_to_run w) (is_handling_fork w) (currentRunningTask w) (currentFiber w)
                  (immediateTask w) (immediate w) (hasQueuedWork w) (busy w) true (consecutiveMisses w) (rng w));
          Ok (set_thread (set_sch s x) i (at_tpc t TLoop))
      | TLoop =>
          w ← at_ (workers (sch s)) i;
          match pc w with
          | Exited =>
              x ← modify (sch s) i stopping;
              Ok (set_thread (set_sch s x) i (at_tpc t TEnd))
          | Top =>
              x ← step (AWorker i inp) (sch s);
              Ok (set_thread (set_sch s x) i (if running w then set_ready t else t))
          | _ => x ← step (AWorker i inp) (sch s); Ok (set_sch s x)
          end
      end
  end.

(** ** [Join] *)

(** [Join] is called: nothing happens on an inactive pool. *)
Definition call_join (s : life) (j : nat) : outcome life :=
  if decide (joiners s !! j = Some JIdle)
  then Ok (if poolActive (ctl (sch s)) then set_join s j JStop else s)
  else Blocked.

(** [workers.clear()] ends the program when a thread can still be joined:
    [std::thread]'s destructor terminates. *)
Definition clear_pool (s : life) : outcome life :=
  if existsb joinable (threads s) then Stuck
  else
    let x := set_mainQ (set_flags (set_workers (sch s) []) []) [] in
    Ok (set_threads (set_sch s x) []).

(** A step of the call of caller [j]; the fibers of the tasks [ts] wait on named
    events. *)
Definition join_step (s : life) (j : nat) (ts : list ptr) : outcome life :=
  match joiners s !! j with
  | None | Some JIdle => Blocked
  | Some JStop => Ok (set_join (set_stopFlag s) j JSignal)
  | Some JSignal => x ← resume_all (sch s) ts; Ok (set_join (set_sch s x) j JNotify)
  | Some JNotify => Ok (set_join (set_sch s (NotifyAll (sch s))) j (JCas 0 (length (workers (sch s)))))
  | Some (JCas i e) =>
      if decide (i = e) then Ok (set_join s j JClear)
      else
        t ← at_ (threads s) i;
        if joining t then Ok (set_join s j (JCas (S i) e))
        else Ok (set_join (set_thread s i (set_joining t true)) j (JRun i e))
  | Some (JRun i e) =>
      x ← step (AStopWorker i) (sch s);
      Ok (set_join (set_sch s x) j (JWait i e))
  | Some (JWait i e) =>
      w ← at_ (workers (sch s)) i;
      if running w then Blocked else Ok (set_join s j (JThread i e))
  | Some (JThread i e) =>
      t ← at_ (threads s) i;
      if joinable t then
        if decide (tpc t = TEnd) then Ok (set_join (set_thread s i (joined t)) j (JUnmark i e)) else Blocked
      else Ok (set_join s j (JUnmark i e))
  | Some (JUnmark i e) =>
      t ← at_ (threads s) i;
      Ok (set_join (set_thread s i (set_joining t false)) j (JCas (S i) e))
  | Some JClear => s ← clear_pool s; Ok (set_join s j JInactive)
  | Some JInactive => Ok (set_join (set_sch s (set_poolActive (sch s) false)) j JIdle)
  end.

(** [~TaskScheduler()]: whether it calls [Join], and the destruction of the
    members after that. *)
Definition destructor_joins (s : life) : bool := negb (stopFlag s).
Definition destroy_members (s : life) : outcome unit :=
  if existsb joinable (threads s) then Stuck else Ok tt.

(** ** The machine *)

Inductive event :=
  | EMain
  | EThread (i : nat) (inp : input)
  | EClient (a : action)              (* a call of a client or of a task *)
  | EStop                             (* Stop(task) *)
  | ECallJoin (j : nat)
  | EJoin (j : nat) (ts : list ptr).

Definition life_step (seeds : list Z) (e : event) (s : life) : outcome life :=
  match e with
  | EMain => main_step seeds s
  | EThread i inp => thread_step s i inp
  | EClient a => if outside a then x ← step a (sch s); Ok (set_sch s x) else Blocked
  | EStop => Ok (set_stopFlag s)
  | ECallJoin j => call_join s j
  | EJoin j ts => join_step s j ts
  end.
End Lifecycle.
Arguments life D : clear implicits.
