(* ===== verification/LifecycleSafety.v ===== *)
(** * What the life cycle of the pool guarantees

    The invariant of the machine of [Lifecycle.v], for runs in which clients call
    after [Init] and before the vectors are cleared, calls of [Join] do not
    overlap, and a fiber is found.  One step of such a run can be undefined: the
    steal of a worker that gets there before the vector of workers is complete
    ([steals_too_early]). *)
From S2P Require Import Prelude Task TaskDeque WorkDeque Scheduler Worker PoolSafety Pool WorkerFlow Lifecycle.

Section Invariant.
Context {D : Type} `{WD : WorkDeque D} (seeds : list Z) (d0 : D) (tp : topology).
Let n := length seeds.

(** ** Orderly runs *)

Definition starting (p : main_pc) : bool := match p with MPush _ | MStart _ => true | _ => false end.

Definition orderly (s : life D) (e : event) : Prop :=
  match e with
  | EThread i inp => acquired inp <> None
  | EClient a => admissible n a /\ main s = MDone /\ workers (sch s) <> []
  | ECallJoin j => main s = MDone /\ Forall (.= JIdle) (joiners s)
  | _ => True
  end.
#[global] Instance orderly_dec s e : Decision (orderly s e).
Proof. unfold orderly. destruct e; apply _. Defined.

Definition orderly_exec (e : event) (s : life D) : option (life D) :=
  if decide (orderly s e) then returns (life_step seeds e s) else None.

(** While [StartPool] is still pushing workers, a steal of worker [i] divides by
    [workers.size() - 1 = 0] or reads [workers[sibling]] past the end. *)
Definition steals_too_early (s : life D) (e : event) : Prop :=
  match e with
  | EThread i _ =>
      starting (main s) = true /\ (exists w, workers (sch s) !! i = Some w /\ pc w = Stealing) /\
      (length (workers (sch s)) = 1%nat \/
       exists k, siblingQIndex (topo (sch s)) !! i = Some k /\ Z.of_nat (length (workers (sch s))) <= k)
  | _ => False
  end.

(** [safe], but for the event [e]. *)
Definition safe_but (s : life D) (e : event) {A} (m : outcome A) (Q : A -> Prop) : Prop :=
  match m with Ok a => Q a | Blocked => True | Stuck => steals_too_early s e end.
Lemma safe_safe_but s e {A} (m : outcome A) Q : safe m Q -> safe_but s e m Q.
Proof. by destruct m. Qed.
Lemma safe_but_mono s e {A} (m : outcome A) (P Q : A -> Prop) :
  safe_but s e m P -> (forall a, P a -> Q a) -> safe_but s e m Q.
Proof. destruct m; simpl; auto. Qed.
Lemma safe_but_bind s e {A B} (m : outcome A) (f : A -> outcome B) Q :
  safe_but s e m (fun a => safe_but s e (f a) Q) -> safe_but s e (m ≫= f) Q.
Proof. by destruct m. Qed.
Lemma safe_but_does s e {A} (m : outcome A) (P Q : A -> Prop) :
  safe_but s e m P -> does True m Q -> safe_but s e m (fun a => P a /\ Q a).
Proof. by destruct m. Qed.

(** ** The invariant *)

(** A worker that has found nothing yet. *)
Definition booting (w : worker) : Prop :=
  held w = [] /\ match pc w with Top | Immediate | Local | Stealing | Inbox | SleepCheck | Asleep => True | _ => False end.

Definition thread_ok (t : thread) (w : worker) : Prop :=
  (ready t = true -> tpc t = TLoop \/ tpc t = TEnd) /\
  (pc w = Exited -> running w = false) /\
  match tpc t with
  | TNone | TIdent => thread_id t = None /\ pc w = Top
  | TCache => thread_id t <> None /\ pc w = Top
  | TEnter => thread_id t <> None /\ pc w = Top /\ cacheCapacity t = Some 36
  | TLoop => thread_id t <> None /\ cacheCapacity t = Some 36 /\ (running w = false -> pc w <> Asleep)
  | TEnd => thread_id t <> None /\ cacheCapacity t = Some 36 /\ running w = false
  end.

(** What [Join] has done with a worker: nothing, called its [Join], stopped it,
    joined its thread, finished. *)
Definition fresh (t : thread) (w : worker) : Prop :=
  joining t = false /\ (tpc t <> TNone -> joinable t = true) /\ tpc t <> TEnd /\
  (tpc t = TLoop -> running w = true).
Definition joining_it (t : thread) (w : worker) : Prop :=
  joining t = true /\ joinable t = true /\ tpc t = TLoop /\ running w = true.
Definition stopped (t : thread) (w : worker) : Prop :=
  joining t = true /\ joinable t = true /\ (tpc t = TLoop \/ tpc t = TEnd) /\ running w = false.
Definition joined_it (t : thread) (w : worker) : Prop :=
  joining t = true /\ joinable t = false /\ tpc t = TEnd.
Definition done_with (t : thread) (w : worker) : Prop :=
  joining t = false /\ joinable t = false /\ tpc t = TEnd.

(** The worker [Join] is at, and what it has done with that one. *)
Definition at_worker (p : join_pc) : nat * (thread -> worker -> Prop) :=
  match p with
  | JCas k _ => (k, fresh)
  | JRun k _ => (k, joining_it)
  | JWait k _ | JThread k _ => (k, stopped)
  | JUnmark k _ => (k, joined_it)
  | JClear => (n, fresh)
  | _ => (0%nat, fresh)
  end.
Definition staged (p : join_pc) (i : nat) (t : thread) (w : worker) : Prop :=
  let '(k, now) := at_worker p in
  if (i <? k)%nat then done_with t w else if (i =? k)%nat then now t w else fresh t w.

Definition worker_ok (p : join_pc) (s : life D) : Prop :=
  forall i t w, threads s !! i = Some t -> workers (sch s) !! i = Some w -> thread_ok t w /\ staged p i t w.

Definition all_ready (s : life D) : Prop :=
  length (threads s) = n /\ forall i t, threads s !! i = Some t -> ready t = true.
Definition cleared (s : life D) : Prop := threads s = [] /\ workers (sch s) = [] /\ mainQ (qs (sch s)) = [].

Definition main_ok (s : life D) : Prop :=
  match main s with
  | MPush i => length (threads s) = i /\ (i <= n)%nat /\ forall k t, threads s !! k = Some t -> tpc t <> TNone
  | MStart i => length (threads s) = S i /\ (i < n)%nat /\
      forall k t, threads s !! k = Some t -> (tpc t = TNone <-> k = i)
  | MReady i => length (threads s) = n /\ (i <= n)%nat /\
      forall k t, threads s !! k = Some t -> tpc t <> TNone /\ ((k < i)%nat -> ready t = true)
  | MIdent | MActivate => all_ready s
  | MDone => all_ready s \/ cleared s
  end.

Definition ids_ok (s : life D) : Prop :=
  0 <= thread_counter s /\
  match caller_id s with
  | None => omap thread_id (threads s) ≡ₚ seqZ 0 (thread_counter s) /\
      match main s with MActivate | MDone => False | _ => True end
  | Some c => c = Z.of_nat n /\ (threads s = [] \/ omap thread_id (threads s) ≡ₚ seqZ 0 (Z.of_nat n)) /\
      match main s with MActivate | MDone => True | _ => False end
  end.

(** The bounds of the range-for. *)
Definition bounds_ok (p : join_pc) : Prop :=
  match p with
  | JCas k e => (k <= n)%nat /\ e = n
  | JRun k e | JWait k e | JThread k e | JUnmark k e => (k < n)%nat /\ e = n
  | _ => True
  end.

Definition join_ok (p : join_pc) (s : life D) : Prop :=
  bounds_ok p /\
  match p with
  | JIdle => poolActive (ctl (sch s)) = bool_decide (main s = MDone /\ threads s <> []) /\
      (main s = MDone -> threads s = [] -> stopFlag s = true)
  | JStop => main s = MDone /\ all_ready s
  | JInactive => main s = MDone /\ threads s = [] /\ stopFlag s = true
  | _ => main s = MDone /\ all_ready s /\ stopFlag s = true
  end.

(** At most one call of [Join] is active, and it is at [p]. *)
Definition joiners_ok (p : join_pc) (s : life D) : Prop :=
  exists j, joiners s = <[j := p]> (replicate (length (joiners s)) JIdle) /\
    ((length (joiners s) <= j)%nat -> p = JIdle).

Definition sched_ok (b : Z) (s : life D) : Prop :=
  if starting (main s)
  then exists ws, sch s = boot n d0 tp ws /\ Forall booting ws /\ dq_ok b d0 /\ 1 <= b
  else threads s = [] \/ inv n 0 b (sch s).

Record LI (b : Z) (p : join_pc) (s : life D) : Prop := {
  li_len : length (workers (sch s)) = length (threads s);
  li_sched : sched_ok b s;
  li_workers : worker_ok p s;
  li_main : main_ok s;
  li_ids : ids_ok s;
  li_join : join_ok p s;
  li_joiners : joiners_ok p s
}.

(** ** Lemmas on its parts *)

Lemma thread_ok_woken t w w' : woken w w' -> thread_ok t w -> thread_ok t w'.
Proof.
  intros [Hr Hp] (H1 & H2 & H3). split; [done|]. rewrite Hr. split.
  - intros Hx. apply H2. destruct Hp as [Hp|[_ Hp]]; congruence.
  - destruct (tpc t); repeat split; try apply H3.
    all: destruct Hp as [Hp|[Hp Hp']]; intuition congruence.
Qed.
Lemma staged_same p i t t' w w' :
  joining t' = joining t -> joinable t' = joinable t -> tpc t' = tpc t -> running w' = running w ->
  staged p i t w -> staged p i t' w'.
Proof.
  intros H1 H2 H3 H4. unfold staged. destruct (at_worker p) as [k now] eqn:E.
  assert (Hf : fresh t w -> fresh t' w') by (unfold fresh; rewrite H1, H2, H3, H4; auto).
  assert (Hd : done_with t w -> done_with t' w') by (unfold done_with; rewrite H1, H2, H3; auto).
  assert (Hn : now t w -> now t' w').
  { destruct p; injection E as _ <-;
      unfold fresh, joining_it, stopped, joined_it; rewrite H1, H2, H3, ?H4; auto. }
  destruct (i <? k)%nat; [done|]. by destruct (i =? k)%nat.
Qed.
(** A worker whose thread is not in its loop has not been reached by [Join]. *)
Lemma staged_early p i t w :
  tpc t <> TLoop -> tpc t <> TEnd -> staged p i t w ->
  fresh t w /\ forall t' w', fresh t' w' -> staged p i t' w'.
Proof.
  intros H1 H2. unfold staged. destruct (at_worker p) as [k now] eqn:E.
  destruct (i <? k)%nat; [by intros (_ & _ & ?)|]. destruct (i =? k)%nat; [|auto].
  destruct p; injection E as _ <-; auto; unfold joining_it, stopped, joined_it; naive_solver.
Qed.

(** A stopped worker's thread ends. *)
Lemma staged_end p i t w w' :
  tpc t = TLoop -> running w = false -> running w' = false -> staged p i t w -> staged p i (at_tpc t TEnd) w'.
Proof.
  intros Ht Hr Hr'. unfold staged. destruct (at_worker p) as [k now] eqn:E.
  assert (Hf : ~ fresh t w) by (intros (_ & _ & _ & H); specialize (H Ht); congruence).
  destruct (i <? k)%nat; [intros (_ & _ & ?); congruence|]. destruct (i =? k)%nat; [|done].
  destruct p; injection E as _ <-; try done; unfold joining_it, stopped, joined_it; simpl.
  - intros (_ & _ & _ & ?). congruence.
  - intros (? & ? & _ & ?). auto.
  - intros (? & ? & _ & ?). auto.
  - intros (_ & _ & ?). congruence.
Qed.

Lemma worker_ok_wakes p s x :
  worker_ok p s -> wakes (sch s) x -> worker_ok p (set_sch s x).
Proof.
  intros H Hw i t w' Ht Hw'. simpl in *.
  destruct (Forall2_lookup_r _ _ _ _ _ (proj1 Hw) Hw') as (w & Hw0 & Hww).
  destruct (H i t w Ht Hw0) as [H1 H2]. split; [by eapply thread_ok_woken|].
  eapply staged_same; [done|done|done| |exact H2]. apply Hww.
Qed.

(** Replacing a thread and its worker. *)
Lemma worker_ok_own p s s' i t' w' :
  worker_ok p s ->
  (forall j t w, j <> i -> threads s' !! j = Some t -> workers (sch s') !! j = Some w ->
     exists v, threads s !! j = Some t /\ workers (sch s) !! j = Some v /\ woken v w) ->
  threads s' !! i = Some t' -> workers (sch s') !! i = Some w' -> thread_ok t' w' -> staged p i t' w' ->
  worker_ok p s'.
Proof.
  intros H Ho Ht Hw H1 H2 j t w Htj Hwj. destruct (decide (j = i)) as [->|Hne]; [by simplify_eq|].
  destruct (Ho j t w Hne Htj Hwj) as (v & Ht0 & Hv & Hvw). destruct (H j t v Ht0 Hv) as [H3 H4].
  split; [by eapply thread_ok_woken|]. eapply staged_same; [done|done|done| |exact H4]. apply Hvw.
Qed.
Lemma worker_ok_set_thread p s i t t' w :
  worker_ok p s -> threads s !! i = Some t -> workers (sch s) !! i = Some w ->
  thread_ok t' w -> staged p i t' w -> worker_ok p (set_thread s i t').
Proof.
  intros H Ht Hw H1 H2. eapply (worker_ok_own p s _ i t' w); try done; simpl.
  - intros j u v Hj Hu Hv. rewrite list_lookup_insert_ne in Hu by done.
    exists v. by split_and!.
  - apply list_lookup_insert_eq. by apply lookup_lt_Some in Ht.
Qed.

(** ** Start-up *)

Context (Hn : (2 <= n <= 256)%nat) (Htp : topology_ok n tp) (Hempty : dq_elems d0 = []).

Lemma held_none w : held w = [] -> task_to_run w = None /\ immediateTask w = None.
Proof. unfold held. destruct (task_to_run w), (immediateTask w); done. Qed.

Lemma pop_empty b : 1 <= b -> dq_ok b d0 -> dq_pop_bottom d0 = (d0, None).
Proof.
  intros Hb Hd. pose proof (dq_pop_bottom_spec b d0 Hb Hd) as H. destruct (dq_pop_bottom d0) as [d' [x|]].
  - destruct H as (_ & _ & H). rewrite Hempty in H. by destruct (dq_elems d').
  - destruct H as (_ & _ & _ & ->). done.
Qed.

Lemma boot_pop b ws hi i :
  1 <= b -> dq_ok b d0 -> (i < n)%nat -> pop_own (boot n d0 tp ws) hi i = Ok (boot n d0 tp ws, None).
Proof.
  intros Hb Hd Hi. unfold pop_own, deque_at.
  assert (Hl : replicate n d0 !! i = Some d0) by (by apply lookup_replicate).
  destruct hi; simpl; unfold at_; rewrite Hl; simpl; rewrite (pop_empty b Hb Hd); unfold set_deque; simpl;
    by rewrite (list_insert_id _ _ _ Hl).
Qed.

Lemma boot_inbox ws hi i :
  (i < n)%nat -> inbox_one (boot n d0 tp ws) hi i = Ok (boot n d0 tp ws, None).
Proof.
  intros Hi. unfold inbox_one, pop_inbox.
  assert (Hl : replicate n ([] : list ptr) !! i = Some []) by (by apply lookup_replicate).
  destruct hi; simpl; unfold at_; rewrite Hl; simpl; unfold set_qs; simpl; by rewrite (list_insert_id _ _ _ Hl).
Qed.

(** Stealing from empty deques. *)
Section Steal.
Context (b : Z) (Hb : 1 <= b) (Hd : dq_ok b d0).

Lemma steal_empty : dq_steal d0 = (d0, None).
Proof.
  pose proof (dq_steal_spec b d0 Hb Hd) as H. destruct (dq_steal d0) as [d' [x|]].
  - destruct H as (_ & _ & H). congruence.
  - by destruct H as (_ & _ & _ & ->).
Qed.

Lemma boot_try ws j : (j < n)%nat -> tryStealFrom (boot n d0 tp ws) j = Ok (boot n d0 tp ws, None).
Proof.
  intros Hj. unfold tryStealFrom, deque_at.
  assert (Hl : replicate n d0 !! j = Some d0) by (by apply lookup_replicate).
  simpl. unfold at_. rewrite Hl. simpl. rewrite steal_empty.
  unfold set_deque. simpl. by rewrite (list_insert_id _ _ _ Hl).
Qed.

Lemma boot_probe ws mates mstart fuel i :
  mates <> [] -> Forall (fun j => (j < n)%nat) mates ->
  probe (boot n d0 tp ws) mates mstart fuel i = Ok (boot n d0 tp ws, None).
Proof.
  intros Hne Hm. revert i. induction fuel as [|fuel IH]; intros i; [done|]. simpl.
  destruct (lookup_lt_is_Some_2 mates ((mstart + i) mod length mates)) as [j Hj].
  { apply Nat.mod_upper_bound. by destruct mates. }
  unfold at_. rewrite Hj. simpl. rewrite boot_try by (by eapply Forall_lookup_1 in Hm). apply IH.
Qed.

Lemma boot_roll ws i w : ws !! i = Some w ->
  roll (boot n d0 tp ws) i = Ok (boot n d0 tp (<[i := rolled w (FastRand (rng w))]> ws), FastRand (rng w)).
Proof. intros Hw. unfold roll, at_. simpl. by rewrite Hw. Qed.

Lemma boot_cluster ws i w : (i < n)%nat -> ws !! i = Some w ->
  exists x, steal_cluster (boot n d0 tp ws) i = Ok (boot n d0 tp (<[i := rolled w x]> ws), None).
Proof.
  intros Hi Hw. destruct Htp as (_ & _ & T3 & T4). unfold steal_cluster, at_. simpl.
  destruct (lookup_lt_is_Some_2 (clusterMates tp) i) as [mates Hm]; [lia|]. rewrite Hm. simpl. case_decide as Hne.
  - exists (rng w). rewrite (list_insert_id ws i (rolled w (rng w))); [done|]. by destruct w.
  - rewrite Hw. simpl. rewrite (boot_roll ws i w Hw). simpl.
    rewrite boot_probe by (try done; by eapply Forall_lookup_1 in T4). simpl. by eexists.
Qed.

Lemma boot_sibling ws i : (i < n)%nat ->
  steal_sibling (boot n d0 tp ws) i = Ok (boot n d0 tp ws, None) \/
  (steal_sibling (boot n d0 tp ws) i = Stuck /\
   exists k, siblingQIndex tp !! i = Some k /\ Z.of_nat (length ws) <= k).
Proof.
  intros Hi. destruct Htp as (T1 & T2 & _). unfold steal_sibling, at_. simpl.
  destruct (lookup_lt_is_Some_2 (siblingQIndex tp) i) as [k Hk]; [lia|]. rewrite Hk. simpl.
  pose proof (Forall_lookup_1 _ _ _ _ T2 Hk) as Hkn. simpl in Hkn.
  destruct (Z.ltb_spec k 0); [by left|]. destruct (ws !! Z.to_nat k) as [v|] eqn:Hv; simpl.
  - left. destruct (busy v); [done|]. rewrite boot_try by lia. done.
  - right. split; [done|]. exists k. apply lookup_ge_None in Hv. split; [done|lia].
Qed.

Lemma boot_random ws i w : (length ws <= n)%nat -> ws !! i = Some w ->
  (exists x, steal_random (boot n d0 tp ws) i = Ok (boot n d0 tp (<[i := rolled w x]> ws), None)) \/
  (steal_random (boot n d0 tp ws) i = Stuck /\ length ws = 1%nat).
Proof.
  intros Hl Hw. pose proof (lookup_lt_Some _ _ _ Hw) as Hlt. unfold steal_random.
  rewrite (boot_roll ws i w Hw). cbn [mbind outcome_bind workers boot]. rewrite length_insert. case_decide as Hm.
  - right. split; [done|lia].
  - left. exists (FastRand (rng w)).
    pose proof (Z.mod_pos_bound (FastRand (rng w)) (Z.of_nat (length ws - 1)) ltac:(lia)).
    rewrite boot_try by (case_decide; lia). done.
Qed.

Lemma boot_steal ws i w : (length ws <= n)%nat -> ws !! i = Some w ->
  (exists w', steal_section (boot n d0 tp ws) i = Ok (boot n d0 tp (<[i := w']> ws)) /\ held w' = held w /\ pc w' = Inbox) \/
  (steal_section (boot n d0 tp ws) i = Stuck /\
   (length ws = 1%nat \/ exists k, siblingQIndex tp !! i = Some k /\ Z.of_nat (length ws) <= k)).
Proof.
  intros Hl Hw. pose proof (lookup_lt_Some _ _ _ Hw) as Hlt. unfold steal_section.
  destruct (boot_cluster ws i w ltac:(lia) Hw) as [x ->]. cbn [mbind outcome_bind].
  set (ws1 := <[i := rolled w x]> ws). assert (Hl1 : length ws1 = length ws) by apply length_insert.
  assert (Hw1 : ws1 !! i = Some (rolled w x)) by (by apply list_lookup_insert_eq).
  destruct (boot_sibling ws1 i ltac:(lia)) as [->|[-> Hs]]; cbn [mbind outcome_bind];
    [|right; split; [done|rewrite Hl1 in Hs; by right]].
  destruct (boot_random ws1 i _ ltac:(lia) Hw1) as [[y ->]|[-> H1]]; cbn [mbind outcome_bind];
    [left|right; split; [done|left; lia]].
  unfold ws1. rewrite list_insert_insert_eq. unfold modify, at_. simpl. rewrite list_lookup_insert_eq by done.
  simpl. eexists. split; [unfold set_worker, set_workers; simpl; by rewrite list_insert_insert_eq|done].
Qed.
End Steal.

(** A worker finds nothing and goes to sleep, unless its steal fails. *)
Lemma booting_step b ws i w inp :
  1 <= b -> dq_ok b d0 -> (length ws <= n)%nat -> Forall booting ws -> ws !! i = Some w -> running w = true ->
  match step (AWorker i inp) (boot n d0 tp ws) with
  | Ok s => exists w', s = boot n d0 tp (<[i := w']> ws) /\ booting w'
  | Blocked => True
  | Stuck => pc w = Stealing /\
      (length ws = 1%nat \/ exists k, siblingQIndex tp !! i = Some k /\ Z.of_nat (length ws) <= k)
  end.
Proof.
  intros Hb Hd Hlen Hws Hw Hr. pose proof (Forall_lookup_1 _ _ _ _ Hws Hw) as [Hh Hp].
  destruct (held_none w Hh) as [Ht Him]. pose proof (lookup_lt_Some _ _ _ Hw) as Hlt.
  unfold step. case_decide as Hg; [|done]. unfold worker_step, at_. simpl. rewrite Hw. simpl.
  destruct (pc w) eqn:Hpc; try done.
  - unfold top. rewrite Hr. simpl. rewrite Ht. exists (goto (unmarked w) Immediate). by split_and!.
  - unfold immediate_section, at_. simpl. rewrite Hw. simpl. rewrite Him. exists (goto w Local). by split_and!.
  - unfold local_section. rewrite (boot_pop b) by (try done; lia). cbn [mbind outcome_bind].
    rewrite (boot_pop b) by (try done; lia). cbn [mbind outcome_bind]. unfold modify, at_. simpl. rewrite Hw. simpl.
    exists (goto w Stealing). by split_and!.
  - destruct (boot_steal b Hb Hd ws i w Hlen Hw) as [(w' & -> & Hh' & Hp')|[-> H]]; [|done].
    exists w'. split; [done|]. split; [congruence|by rewrite Hp'].
  - unfold inbox_section. rewrite !boot_inbox by lia. cbn [mbind outcome_bind].
    rewrite boot_inbox by lia. cbn [mbind outcome_bind]. unfold modify, at_. simpl. rewrite Hw. simpl.
    exists (goto w SleepCheck). by split_and!.
  - unfold sleep_check, at_. simpl. rewrite Hw. simpl. rewrite Hr.
    destruct (_ || _ || _); eexists; by split_and!.
Qed.

Lemma inv_boot b ws :
  1 <= b -> dq_ok b d0 -> Forall booting ws -> length ws = n -> inv n 0 b (boot n d0 tp ws).
Proof.
  intros Hb Hd Hws Hlen. destruct Htp as (T1 & T2 & T3 & T4).
  assert (H1 : forall k, concat (replicate k ([] : list ptr)) = []) by (induction k; auto).
  assert (H2 : concat (in_deque <$> replicate n d0) = []).
  { rewrite fmap_replicate. unfold in_deque. by rewrite Hempty, H1. }
  assert (H3 : concat (held <$> ws) = []).
  { clear Hlen. induction Hws as [|w ws [Hh _] _ IH]; simpl; [done|]. by rewrite Hh. }
  assert (Hp : pool (boot n d0 tp ws) = []) by (unfold pool; simpl; by rewrite !H1, H2, H3).
  assert (Hv : everywhere (boot n d0 tp ws) = []) by (unfold everywhere; by rewrite Hp).
  constructor; rewrite ?Hv, ?Hp; try done; simpl; try by apply Forall_replicate.
  - constructor; simpl; rewrite ?length_replicate, ?length_fmap; try done. lia.
  - constructor.
  - unfold accounted. by rewrite Hv.
  - eapply Forall_impl; [exact Hws|]. intros w [Hh Hpc]. destruct (held_none w Hh) as [Ht _].
    unfold pc_ok. by destruct (pc w).
Qed.

Lemma sched_ok_weaken b b' s : 1 <= b' <= b -> sched_ok b s -> sched_ok b' s.
Proof.
  intros Hb. unfold sched_ok. destruct (starting (main s)).
  - intros (ws & H1 & H2 & H3 & H4). exists ws. split_and!; try done; [eapply dq_ok_weaken; [|done]|]; lia.
  - intros [?|H]; [by left|right]. eapply I_weaken; [exact Hn|exact Hb|exact H].
Qed.
Lemma LI_weaken b b' p s : 1 <= b' <= b -> LI b p s -> LI b' p s.
Proof. intros Hb []. constructor; try done. by eapply sched_ok_weaken. Qed.

(** ** Steps of the workers' threads *)

Lemma idealCapacity_36 k : 0 <= k < 2 ^ 25 -> idealCapacity k = 36.
Proof.
  intros Hk. unfold idealCapacity. set (w := if 1 <? k then u32 k else 1).
  assert (Hw : 1 <= w < 2 ^ 25).
  { unfold w, u32. destruct (Z.ltb_spec 1 k); [rewrite Z.mod_small by lia|]; lia. }
  assert (Hc : u32 (w * 72) / w = 72).
  { unfold u32. rewrite Z.mod_small by lia. rewrite Z.mul_comm. apply Z.div_mul. lia. }
  rewrite Hc. reflexivity.
Qed.

Lemma omap_insert_new {A B} (f : A -> option B) (l : list A) (i : nat) a a' x :
  l !! i = Some a -> f a = None -> f a' = Some x -> omap f (<[i := a']> l) ≡ₚ x :: omap f l.
Proof.
  intros Hi Ha Ha'. rewrite (insert_take_drop l i a') by (by apply lookup_lt_Some in Hi).
  rewrite <- (take_drop_middle l i a Hi) at 3. rewrite !omap_app. simpl. rewrite Ha, Ha'.
  by rewrite Permutation_middle.
Qed.
Lemma omap_insert_same {A B} (f : A -> option B) (l : list A) (i : nat) a a' :
  l !! i = Some a -> f a' = f a -> omap f (<[i := a']> l) = omap f l.
Proof.
  intros Hi Ha. rewrite (insert_take_drop l i a') by (by apply lookup_lt_Some in Hi).
  rewrite <- (take_drop_middle l i a Hi) at 3. rewrite !omap_app. simpl. by rewrite Ha.
Qed.

(** A thread that keeps its promises to [main_ok]. *)
Lemma all_ready_insert s s' i t t' :
  threads s' = <[i := t']> (threads s) -> threads s !! i = Some t -> (ready t = true -> ready t' = true) ->
  all_ready s -> all_ready s'.
Proof.
  intros Hs Ht Hr [Hl Ha]. unfold all_ready. rewrite Hs. split; [by rewrite length_insert|].
  intros j u [(-> & <- & _)|[_ Hu]]%list_lookup_insert_Some; eauto.
Qed.
Lemma main_ok_insert s s' i t t' :
  main s' = main s -> threads s' = <[i := t']> (threads s) -> threads s !! i = Some t ->
  (tpc t' = TNone <-> tpc t = TNone) -> (ready t = true -> ready t' = true) -> main_ok s -> main_ok s'.
Proof.
  intros Hm Hs Ht Hn0 Hr. unfold main_ok. rewrite Hm.
  pose proof (all_ready_insert s s' i t t' Hs Ht Hr) as Ha. rewrite Hs.
  destruct (main s); rewrite ?length_insert.
  - intros (H1 & H2 & H3). split_and!; try done.
    intros j u [(-> & <- & _)|[_ Hu]]%list_lookup_insert_Some; [rewrite Hn0|]; eauto.
  - intros (H1 & H2 & H3). split_and!; try done.
    intros j u [(-> & <- & _)|[_ Hu]]%list_lookup_insert_Some; [rewrite Hn0|]; eauto.
  - intros (H1 & H2 & H3). split_and!; try done.
    intros j u [(-> & <- & _)|[_ Hu]]%list_lookup_insert_Some; [|by eauto].
    destruct (H3 _ t Ht) as [H4 H5]. rewrite Hn0. auto.
  - done.
  - done.
  - intros [H|[H _]]; [by left; apply Ha|]. by rewrite H in Ht.
Qed.

Lemma LI_worker b p s i t :
  LI b p s -> threads s !! i = Some t -> exists w, workers (sch s) !! i = Some w /\ thread_ok t w /\ staged p i t w.
Proof.
  intros Hi Ht. destruct (lookup_lt_is_Some_2 (workers (sch s)) i) as [w Hw].
  { rewrite (li_len _ _ _ Hi). by apply lookup_lt_Some in Ht. }
  exists w. split; [done|]. by apply (li_workers _ _ _ Hi).
Qed.

Lemma LI_index b p s i t : LI b p s -> threads s !! i = Some t -> (i < n)%nat /\ (length (threads s) <= n)%nat.
Proof.
  intros Hi Ht. apply lookup_lt_Some in Ht as Hl. pose proof (li_main _ _ _ Hi) as Hm.
  unfold main_ok, all_ready in Hm. destruct (main s); try lia.
  destruct Hm as [[Hm _]|[Hm _]]; [lia|by rewrite Hm in Ht].
Qed.

(** Only a thread that is ready is left when [Init] has returned. *)
Lemma LI_early b p s i t :
  LI b p s -> threads s !! i = Some t -> tpc t <> TLoop -> tpc t <> TEnd ->
  caller_id s = None /\ main s <> MActivate /\ main s <> MDone.
Proof.
  intros Hi Ht H1 H2. destruct (LI_worker _ _ _ _ _ Hi Ht) as (w & _ & (Hr & _) & _).
  assert (Hn0 : ready t <> true) by (intros Hx; destruct (Hr Hx); done).
  assert (Ha : ~ all_ready s) by (intros [_ Ha]; eauto).
  assert (Hc : ~ cleared s) by (intros [Hc _]; by rewrite Hc in Ht).
  pose proof (li_main _ _ _ Hi) as Hm. pose proof (li_ids _ _ _ Hi) as [_ Hid]. unfold main_ok in Hm.
  destruct (caller_id s).
  - destruct Hid as (_ & _ & Hid). destruct (main s); naive_solver.
  - split; [done|]. destruct (main s); naive_solver.
Qed.

(** Two threads that differ in nothing [join_ok] looks at. *)
Lemma join_ok_insert p s s' i t t' :
  main s' = main s -> active (sch s') = active (sch s) -> stopFlag s' = stopFlag s ->
  threads s' = <[i := t']> (threads s) -> threads s !! i = Some t -> (ready t = true -> ready t' = true) ->
  join_ok p s -> join_ok p s'.
Proof.
  intros Hm Hac Hst Hs Ht Hr [Hb Hj]. split; [done|].
  pose proof (all_ready_insert s s' i t t' Hs Ht Hr) as Ha.
  assert (Hne : threads s' <> [] <-> threads s <> []).
  { rewrite Hs. split; intros H Hnil; apply H; [by rewrite Hnil|].
    apply (f_equal length) in Hnil. rewrite length_insert in Hnil. by apply nil_length_inv. }
  unfold active in Hac. rewrite Hm, Hst. destruct p; simpl in *.
  1: { rewrite Hac. destruct Hj as [-> Hj]. split.
    + apply bool_decide_ext. by rewrite Hne.
    + intros ? Hnil. apply Hj; [done|]. destruct (decide (threads s = [])) as [|Hx]; [done|].
      by destruct (proj2 Hne Hx). }
  1: { destruct Hj. auto. }
  9: { destruct Hj as (_ & Hj & _). by rewrite Hj in Ht. }
  all: destruct Hj as (? & ? & ?); auto.
Qed.

Lemma sched_ok_threads b s s' i t :
  sched_ok b s -> threads s !! i = Some t -> sch s' = sch s -> main s' = main s -> sched_ok b s'.
Proof.
  unfold sched_ok. intros Hs Ht -> ->. destruct (starting (main s)); [done|].
  destruct Hs as [Hnil|?]; [by rewrite Hnil in Ht|by right].
Qed.

(** A step of the thread of worker [i] and of what belongs to that worker. *)
Lemma LI_own b b' p s s' i t t' w' :
  LI b' p s -> threads s !! i = Some t ->
  main s' = main s -> caller_id s' = caller_id s -> stopFlag s' = stopFlag s -> joiners s' = joiners s ->
  threads s' = <[i := t']> (threads s) -> length (workers (sch s')) = length (workers (sch s)) ->
  active (sch s') = active (sch s) -> sched_ok b s' ->
  (forall j w, j <> i -> workers (sch s) !! j = Some w -> exists v, workers (sch s') !! j = Some v /\ woken w v) ->
  workers (sch s') !! i = Some w' -> thread_ok t' w' -> staged p i t' w' ->
  (tpc t' = TNone <-> tpc t = TNone) -> (ready t = true -> ready t' = true) -> ids_ok s' -> LI b p s'.
Proof.
  intros Hi Ht Hm Hc Hst Hj Hth Hl Hac Hs Ho Hw H1 H2 H3 H4 Hid. constructor; try done.
  - rewrite Hl, (li_len _ _ _ Hi), Hth. by rewrite length_insert.
  - eapply (worker_ok_own p s s' i t' w'); try done; [apply Hi| |].
    + intros j u v Hne Hu Hv. rewrite Hth, list_lookup_insert_ne in Hu by done.
      destruct (lookup_lt_is_Some_2 (workers (sch s)) j) as [w Hjw].
      { rewrite (li_len _ _ _ Hi). by apply lookup_lt_Some in Hu. }
      destruct (Ho j w Hne Hjw) as (v' & Hv' & Hwv). exists w. by simplify_eq.
    + rewrite Hth. apply list_lookup_insert_eq. by apply lookup_lt_Some in Ht.
  - eapply main_ok_insert; try done. apply Hi.
  - eapply join_ok_insert; try done. apply Hi.
  - destruct (li_joiners _ _ _ Hi) as [j Hjs]. exists j. by rewrite Hj.
Qed.

(** Nothing of the workers changes. *)
Lemma LI_thread b b' p s s' i t t' w :
  LI b' p s -> 1 <= b <= b' -> threads s !! i = Some t -> workers (sch s) !! i = Some w ->
  sch s' = sch s -> main s' = main s -> caller_id s' = caller_id s -> stopFlag s' = stopFlag s ->
  joiners s' = joiners s -> threads s' = <[i := t']> (threads s) ->
  thread_ok t' w -> staged p i t' w ->
  (tpc t' = TNone <-> tpc t = TNone) -> (ready t = true -> ready t' = true) -> ids_ok s' -> LI b p s'.
Proof.
  intros Hi Hb Ht Hw Hs Hm Hc Hst Hj Hth H1 H2 H3 H4 Hid.
  eapply (LI_own b b' p s s' i t t' w); try done; rewrite ?Hs; try done.
  - eapply sched_ok_threads; [eapply sched_ok_weaken; [exact Hb|apply Hi]|exact Ht|done|done].
  - intros j v _ Hv. by exists v.
Qed.

Lemma ids_same s s' i t t' :
  thread_counter s' = thread_counter s -> caller_id s' = caller_id s -> main s' = main s ->
  threads s' = <[i := t']> (threads s) -> threads s !! i = Some t -> thread_id t' = thread_id t ->
  ids_ok s -> ids_ok s'.
Proof.
  intros Hc Hca Hm Hth Ht Hid [H0 H]. unfold ids_ok. rewrite Hc, Hca, Hm, Hth. split; [done|].
  assert (Ho : omap thread_id (<[i := t']> (threads s)) = omap thread_id (threads s)) by (by apply (omap_insert_same _ _ _ t)).
  rewrite Ho. destruct (caller_id s); [|done]. destruct H as (? & [Hnil|?] & ?); [by rewrite Hnil in Ht|].
  split_and!; try done. by right.
Qed.

(** A change of worker [i] that keeps its place and its tasks. *)
Lemma sched_ok_modify b s i f t :
  sched_ok b s -> threads s !! i = Some t -> (i < n)%nat -> (i < length (workers (sch s)))%nat ->
  (forall w, hands (f w) = hands w /\ pc (f w) = pc w) ->
  exists w, workers (sch s) !! i = Some w /\ modify (sch s) i f = Ok (set_worker (sch s) i (f w)) /\
    sched_ok b (set_sch s (set_worker (sch s) i (f w))).
Proof.
  intros Hs Ht Hin Hlt Hf. destruct (lookup_lt_is_Some_2 _ _ Hlt) as [w Hw]. exists w. split; [done|].
  split; [by apply modify_eq|]. unfold sched_ok in *. simpl. destruct (starting (main s)).
  - destruct Hs as (ws & Hs & Hws & ? & ?). rewrite Hs in Hw |- *. exists (<[i := f w]> ws). split_and!; try done.
    apply Forall_insert; [done|]. pose proof (Forall_lookup_1 _ _ _ _ Hws Hw) as [Hh Hp].
    destruct (Hf w) as [H1 H2]. split; [by rewrite (held_hands _ _ H1)|by rewrite H2].
  - destruct Hs as [Hnil|Hinv]; [by rewrite Hnil in Ht|right].
    assert (H := modify_safe n Hn 0 b _ _ _ _ i f Hinv Hin).
    rewrite (modify_eq _ _ _ _ Hw) in H. destruct H as [H _]; [|by apply I_inv in H as [H _]].
    intros v Hv Hp. destruct (Hf v) as [H1 H2]. split; [|done]. unfold pc_ok in *.
    injection H1 as -> _. by rewrite H2.
Qed.

Lemma step_worker_flow s i inp w :
  small s -> workers s !! i = Some w -> pc w <> Asleep -> pc w <> Exited ->
  does True (step (AWorker i inp) s) (steps_to i (succ w) s).
Proof.
  intros Hsm Hw Ha Hx. unfold step. case_decide; [|done].
  eapply does_mono; [by apply worker_step_moves|done|done].
Qed.

Lemma safe_does {A} (m : outcome A) (P Q : A -> Prop) : safe m P -> does True m Q -> safe m (fun a => P a /\ Q a).
Proof. by destruct m. Qed.

Lemma LI_idle b p s : LI b p s -> main s <> MDone -> p = JIdle.
Proof. intros Hi Hm. destruct (li_join _ _ _ Hi) as [_ Hj]. destruct p; naive_solver. Qed.

Lemma LI_small b p s : LI b p s -> small (sch s).
Proof.
  intros Hi. unfold small. rewrite (li_len _ _ _ Hi). destruct (threads s) as [|t l] eqn:E; simpl; [lia|].
  destruct (LI_index _ _ _ 0 t Hi) as [_ H]; [by rewrite E|]. rewrite E in H. simpl in H. lia.
Qed.

(** A section of the loop of worker [i]. *)
Lemma loop_safe b p s i inp t w :
  LI (b + 128) p s -> 1 <= b -> orderly s (EThread i inp) ->
  threads s !! i = Some t -> tpc t = TLoop -> workers (sch s) !! i = Some w -> pc w <> Exited ->
  safe_but s (EThread i inp) (step (AWorker i inp) (sch s))
    (fun x => sched_ok b (set_sch s x) /\ steps_to i (succ w) (sch s) x).
Proof.
  intros Hi Hb Hacq Ht Htl Hw Hx.
  destruct (LI_index _ _ _ _ _ Hi Ht) as [Hin _].
  assert (Hd : pc w <> Asleep -> does True (step (AWorker i inp) (sch s)) (steps_to i (succ w) (sch s))).
  { intros Ha. apply step_worker_flow; try done. by eapply LI_small. }
  destruct (decide (pc w = Asleep)) as [Ha|Ha].
  { unfold step. case_decide; [|done]. unfold worker_step, at_. rewrite Hw. simpl. by rewrite Ha. }
  apply safe_but_does; [|by apply Hd].
  pose proof (li_sched _ _ _ Hi) as Hs. unfold sched_ok in *. cbn [main sch threads set_sch].
  destruct (starting (main s)) eqn:Est.
  - destruct Hs as (ws & Hs & Hws & Hdq & Hb').
    assert (Hr : running w = true).
    { destruct (LI_worker _ _ _ _ _ Hi Ht) as (w0 & Hw0 & _ & Hst). simplify_eq.
      rewrite (LI_idle _ _ _ Hi) in Hst by (intros E; by rewrite E in Est).
      unfold staged in Hst. simpl in Hst. destruct i; simpl in Hst; by apply Hst. }
    assert (Hlen : (length ws <= n)%nat).
    { destruct (LI_index _ _ _ _ _ Hi Ht) as [_ Hle]. rewrite <- (li_len _ _ _ Hi), Hs in Hle. done. }
    assert (Hw2 : ws !! i = Some w) by (by rewrite Hs in Hw).
    pose proof (booting_step (b + 128) ws i w inp ltac:(lia) Hdq Hlen Hws Hw2 Hr) as H. unfold safe_but.
    rewrite <- Hs in H. destruct (step (AWorker i inp) (sch s)) as [x| |]; [|done|].
    + destruct H as (w' & -> & Hbw). exists (<[i := w']> ws). split_and!; try done; [by apply Forall_insert|].
      eapply dq_ok_weaken; [|exact Hdq]. lia.
    + destruct H as [H1 H2]. split; [done|]. rewrite Hs. split; [by exists w|done].
  - destruct Hs as [Hnil|Hinv]; [by rewrite Hnil in Ht|]. apply safe_safe_but.
    eapply safe_mono; [by apply (step_safe n Hn 0 b (sch s) (AWorker i inp)); try done|].
    intros x [Hinv' _]. by right.
Qed.

Lemma succ_stopped w p : running w = false -> succ w p -> p <> Asleep.
Proof. unfold succ. intros ->. destruct (pc w); naive_solver. Qed.
Lemma succ_exit w : succ w Exited -> running w = false.
Proof. unfold succ. destruct (pc w), (running w); naive_solver. Qed.

(** The state after that section; its thread is [t] or has become ready. *)
Lemma loop_LI b p s i t t' w x :
  LI (b + 128) p s -> 1 <= b -> threads s !! i = Some t -> tpc t = TLoop -> workers (sch s) !! i = Some w ->
  t' = t \/ t' = set_ready t ->
  sched_ok b (set_sch s x) /\ steps_to i (succ w) (sch s) x -> LI b p (set_thread (set_sch s x) i t').
Proof.
  intros Hi Hb Ht Htl Hw Ht' [Hs [Hl Ho (v & w' & Hv & Hw' & Hr & Hsucc) Hac _]]. simplify_eq.
  destruct (LI_worker _ _ _ _ _ Hi Ht) as (v & Hv & (H1 & H2 & H3) & Hst). simplify_eq.
  assert (E : tpc t' = TLoop /\ joining t' = joining t /\ joinable t' = joinable t /\
    thread_id t' = thread_id t /\ cacheCapacity t' = cacheCapacity t) by (by destruct Ht' as [->| ->]).
  destruct E as (E1 & E2 & E3 & E4 & E5). rewrite Htl in H3.
  eapply (LI_own b _ p s _ i t t' w'); try done.
  - by eapply (sched_ok_threads b (set_sch s x)).
  - repeat split; [by left| |].
    + intros E. rewrite Hr. apply succ_exit. by rewrite <- E.
    + rewrite E1, E4, E5. split_and!; [apply H3|apply H3|]. rewrite Hr. intros Hf. by eapply succ_stopped.
  - eapply staged_same; [exact E2|exact E3| |exact Hr|exact Hst]. by rewrite E1, Htl.
  - by rewrite E1, Htl.
  - destruct Ht' as [->| ->]; done.
  - eapply (ids_same s _ i t t'); try done. apply Hi.
Qed.

Lemma seqZ_snoc k : 0 <= k -> seqZ 0 (k + 1) = seqZ 0 k ++ [k].
Proof. intros Hk. rewrite seqZ_app by lia. by rewrite Z.add_0_l. Qed.

(** The thread [t] of worker [i], whose record is [w]. *)
Section Thread.
Context (b : Z) (p : join_pc) (s : life D) (i : nat) (t : thread) (w : worker).
Context (Hi : LI (b + 128) p s) (Hb : 1 <= b) (Ht : threads s !! i = Some t).
Context (Hw : workers (sch s) !! i = Some w) (Hok : thread_ok t w) (Hst : staged p i t w).

Lemma early_not_ready : tpc t <> TLoop -> tpc t <> TEnd -> ready t <> true.
Proof. intros ? ? Hr. by destruct (proj1 Hok Hr). Qed.

Lemma staged_fresh :
  tpc t <> TLoop -> tpc t <> TEnd -> fresh t w /\ forall t' w', fresh t' w' -> staged p i t' w'.
Proof. intros. by apply staged_early. Qed.

Lemma ident_LI :
  tpc t = TIdent ->
  LI b p (set_counter (set_thread s i (identified t (thread_counter s))) (thread_counter s + 1)).
Proof.
  intros Et. destruct staged_fresh as ((F1 & F2 & F3 & F4) & Hf); [by rewrite Et..|].
  destruct (LI_early _ _ _ _ _ Hi Ht) as (Hca & _ & _); [by rewrite Et..|].
  pose proof (li_ids _ _ _ Hi) as [Hc Hids]. rewrite Hca in Hids. destruct Hids as [Hperm Hm].
  destruct Hok as (H1 & H2 & H3). rewrite Et in H3. destruct H3 as [Hid Hpc]. specialize (F2 ltac:(by rewrite Et)).
  eapply (LI_thread b _ p s _ i t (identified t (thread_counter s))); try done; try lia.
  - repeat split; [|done|done|done]. intros Hr. by destruct early_not_ready; rewrite ?Et.
  - apply Hf. by repeat split.
  - by rewrite Et.
  - unfold ids_ok. simpl. rewrite Hca. split; [lia|]. split; [|done].
    rewrite (omap_insert_new _ _ _ t (identified t (thread_counter s)) (thread_counter s) Ht Hid eq_refl), Hperm.
    rewrite seqZ_snoc by lia. solve_Permutation.
Qed.

Lemma cache_LI :
  tpc t = TCache -> LI b p (set_thread s i (cached t (idealCapacity (Z.of_nat (length (workers (sch s))))))).
Proof.
  intros Et. destruct staged_fresh as ((F1 & F2 & F3 & F4) & Hf); [by rewrite Et..|].
  destruct (LI_index _ _ _ _ _ Hi Ht) as [_ Hlen].
  destruct Hok as (H1 & H2 & H3). rewrite Et in H3. destruct H3 as [Hid Hpc]. specialize (F2 ltac:(by rewrite Et)).
  rewrite idealCapacity_36 by (rewrite (li_len _ _ _ Hi); lia).
  eapply (LI_thread b _ p s _ i t (cached t 36)); try done; try lia.
  - repeat split; [|done|done|done]. intros Hr. by destruct early_not_ready; rewrite ?Et.
  - apply Hf. by repeat split.
  - by rewrite Et.
  - eapply (ids_same s _ i t); try done. apply Hi.
Qed.

(** The thread moves on and its worker changes without moving. *)
Lemma modify_LI f q :
  tpc t <> TNone -> q <> TNone -> (forall w, hands (f w) = hands w /\ pc (f w) = pc w) ->
  thread_ok (at_tpc t q) (f w) -> staged p i (at_tpc t q) (f w) ->
  safe (x ← modify (sch s) i f; Ok (set_thread (set_sch s x) i (at_tpc t q))) (LI b p).
Proof.
  intros Hq Hq' Hf H1 H2. destruct (LI_index _ _ _ _ _ Hi Ht) as [Hin _].
  pose proof (lookup_lt_Some _ _ _ Hw) as Hlt.
  destruct (sched_ok_modify b s i f t) as (w' & Hw' & -> & Hs); try done.
  { eapply sched_ok_weaken; [|apply Hi]. lia. }
  simplify_eq. simpl. eapply (LI_own b _ p s _ i t (at_tpc t q)); try done; simpl.
  - by rewrite length_insert.
  - by eapply (sched_ok_threads b (set_sch s _)).
  - intros j v Hj Hv. exists v. split; [by rewrite list_lookup_insert_ne|reflexivity].
  - by apply list_lookup_insert_eq.
  - eapply (ids_same s _ i t); try done. apply Hi.
Qed.

Lemma loop_thread_safe inp :
  tpc t = TLoop -> orderly s (EThread i inp) -> pc w <> Exited ->
  safe_but s (EThread i inp) (x ← step (AWorker i inp) (sch s); Ok (set_sch s x)) (LI b p) /\
  forall t', t' = t \/ t' = set_ready t ->
    safe_but s (EThread i inp) (x ← step (AWorker i inp) (sch s); Ok (set_thread (set_sch s x) i t')) (LI b p).
Proof.
  intros Et Hord Hx.
  assert (Hloop : forall t', t' = t \/ t' = set_ready t ->
    safe_but s (EThread i inp) (x ← step (AWorker i inp) (sch s); Ok (set_thread (set_sch s x) i t')) (LI b p)).
  { intros t' Ht'. apply safe_but_bind. eapply safe_but_mono; [by eapply loop_safe|].
    intros x Hpost. by eapply loop_LI. }
  split; [|exact Hloop]. specialize (Hloop t (or_introl eq_refl)). revert Hloop.
  destruct (step (AWorker i inp) (sch s)) as [x| |]; cbn; try done.
  unfold set_thread, set_threads, set_sch. simpl. by rewrite list_insert_id.
Qed.
End Thread.

Lemma thread_safe b p s i inp :
  LI (b + 128) p s -> 1 <= b -> orderly s (EThread i inp) ->
  safe_but s (EThread i inp) (life_step seeds (EThread i inp) s) (fun s' => LI b p s').
Proof.
  intros Hi Hb Hord. simpl. unfold thread_step. destruct (threads s !! i) as [t|] eqn:Ht; [|done].
  destruct (LI_worker _ _ _ _ _ Hi Ht) as (w & Hw & Hok & Hst).
  pose proof Hok as (H1 & H2 & H3). destruct (tpc t) eqn:Et; try done.
  - by eapply ident_LI.
  - by eapply cache_LI.
  - destruct (staged_early _ _ _ _ ltac:(by rewrite Et) ltac:(by rewrite Et) Hst) as ((F1 & F2 & F3 & F4) & Hf).
    specialize (F2 ltac:(by rewrite Et)). destruct H3 as (Hid & Hpc & Hcap).
    apply safe_safe_but. eapply modify_LI; try done; [by rewrite Et| |apply Hf; by repeat split].
    repeat split; try done; [by left|]. intros E. simpl in E. congruence.
  - unfold at_. rewrite Hw. cbn [mbind outcome_bind].
    assert (Hl := loop_thread_safe b p s i t w Hi Hb Ht Hw inp Et Hord).
    destruct (pc w) eqn:Hpc; try (by apply Hl).
    + apply Hl; [done|]. destruct (running w); auto.
    + destruct H3 as (Hid & Hcap & _). apply safe_safe_but. eapply modify_LI; try done; [by rewrite Et| |].
      * repeat split; try done. by right.
      * eapply staged_end; [exact Et|by apply H2|done|exact Hst].
Qed.

(** ** Steps of the thread that runs [Init] *)

Lemma li_inv b p s : LI b p s -> starting (main s) = false -> threads s <> [] -> inv n 0 b (sch s).
Proof.
  intros Hi Hst Hth. pose proof (li_sched _ _ _ Hi) as Hs. unfold sched_ok in Hs. rewrite Hst in Hs.
  by destruct Hs.
Qed.

Lemma all_ready_ids b p s : LI b p s -> all_ready s -> length (omap thread_id (threads s)) = n.
Proof.
  intros Hi [Hl Ha]. rewrite <- Hl.
  assert (Hall : forall t, t ∈ threads s -> thread_id t <> None).
  { intros t [i Ht]%list_elem_of_lookup. destruct (LI_worker _ _ _ _ _ Hi Ht) as (w & _ & (H1 & _ & H3) & _).
    destruct (H1 (Ha i t Ht)) as [E|E]; rewrite E in H3; apply H3. }
  clear - Hall. induction (threads s) as [|t l IH]; [done|]. simpl.
  destruct (thread_id t) eqn:E; simpl; [|destruct (Hall t); [by left|done]].
  f_equal. apply IH. intros u Hu. apply Hall. by right.
Qed.

Lemma push_worker_LI b s i seed :
  LI b JIdle s -> main s = MPush i -> seeds !! i = Some seed ->
  LI b JIdle (set_main (set_threads (set_sch s (set_workers (sch s) (workers (sch s) ++ [constructed seed])))
                         (threads s ++ [new_thread])) (MStart i)).
Proof.
  intros Hi Hm Hseed. pose proof (lookup_lt_Some _ _ _ Hseed) as Hlt.
  destruct Hi as [Hlen Hs Hw Hmain [Hc Hids] [_ Hj] Hjs].
  unfold sched_ok, main_ok in *. rewrite Hm in *. simpl in *. destruct Hs as (ws & Hs & Hws & Hd & Hb).
  destruct Hmain as (Hl & Hle & Hnn). constructor; simpl; try done.
  - rewrite !length_app. simpl. lia.
  - unfold sched_ok. simpl. exists (ws ++ [constructed seed]). rewrite Hs. split_and!; try done.
    apply Forall_app. split; [done|]. by repeat constructor.
  - intros j t w. simpl. intros [Ht|[Hge Ht]]%lookup_app_Some [Hwj|[Hge' Hwj]]%lookup_app_Some.
    + by apply Hw.
    + apply lookup_lt_Some in Ht. lia.
    + apply lookup_lt_Some in Hwj. lia.
    + apply list_lookup_singleton_Some in Ht as [_ <-], Hwj as [_ <-]. split; [by repeat split|].
      unfold staged. simpl. destruct (_ =? _)%nat; by repeat split.
  - unfold main_ok. simpl. rewrite length_app. simpl. split_and!; [lia|done|].
    intros k t [Ht|[Hge Ht]]%lookup_app_Some.
    + split; [|apply lookup_lt_Some in Ht; lia]. intros E. by destruct (Hnn k t Ht).
    + apply list_lookup_singleton_Some in Ht as [? <-]. split; [lia|done].
  - split; [done|]. simpl. destruct (caller_id s); [naive_solver|]. rewrite omap_app. simpl. by rewrite app_nil_r.
  - split; [done|]. simpl. destruct Hj as [-> _]. split; [|done].
    done.
Qed.

Lemma start_worker_LI b s i t :
  LI b JIdle s -> main s = MStart i -> threads s !! i = Some t ->
  LI b JIdle (set_main (set_thread s i (released t)) (MPush (S i))).
Proof.
  intros Hi Hm Ht. destruct (LI_worker _ _ _ _ _ Hi Ht) as (w & Hw & (H1 & H2 & H3) & Hst).
  destruct Hi as [Hlen Hs Hwk Hmain [Hc Hids] [_ Hj] Hjs].
  unfold main_ok in Hmain. rewrite Hm in *. destruct Hmain as (Hl & Hle & Hnn).
  assert (Et : tpc t = TNone) by (by apply (Hnn i t)). rewrite Et in H3. destruct H3 as [Hid Hpc].
  destruct (staged_early JIdle i t w) as ((F1 & F2 & F3 & F4) & Hf); [by rewrite Et..|done|].
  constructor; simpl; try done.
  - by rewrite length_insert.
  - unfold sched_ok in *. rewrite Hm in Hs. done.
  - apply (worker_ok_set_thread JIdle s i t (released t) w); try done.
    + repeat split; try done. intros Hr. destruct (H1 Hr); congruence.
    + apply Hf. by repeat split.
  - unfold main_ok. simpl. rewrite length_insert. split_and!; [done|lia|].
    intros k u [(-> & <- & _)|[Hne Hu]]%list_lookup_insert_Some; [done|]. intros E.
    by rewrite (proj1 (Hnn k u Hu) E) in Hne.
  - split; [done|]. simpl. rewrite (omap_insert_same _ _ _ t (released t)) by done.
    destruct (caller_id s); [|done]. by destruct Hids as (_ & _ & []).
  - split; [done|]. simpl. destruct Hj as [-> _]. split; [|done].
    rewrite bool_decide_eq_false_2 by naive_solver. done.
Qed.

Lemma main_safe b p s :
  LI b p s -> safe (main_step seeds s) (fun s' => LI b p s').
Proof.
  intros Hi. destruct (decide (main s = MDone)) as [Hd|Hd]; [unfold main_step; by rewrite Hd|].
  pose proof (LI_idle _ _ _ Hi Hd) as ->. pose proof Hi as [Hlen Hs Hwk Hmain [Hc Hids] [_ Hj] Hjs].
  unfold main_step. unfold sched_ok, main_ok in Hs, Hmain.
  destruct (main s) as [i|i|i| | |] eqn:Hm; try done; simpl in Hs.
  - destruct (seeds !! i) as [seed|] eqn:Hseed; [exact (push_worker_LI b s i seed Hi Hm Hseed)|].
    apply lookup_ge_None in Hseed. destruct Hmain as (Hl & Hle & Hnn).
    assert (Hin : i = n) by (unfold n in *; lia). destruct Hs as (ws & Hs & Hws & Hdq & Hb).
    constructor; simpl; try done.
    + right. cbn [sch set_main]. rewrite Hs. apply inv_boot; try done. rewrite Hs in Hlen. simpl in Hlen. lia.
    + unfold main_ok. simpl. split_and!; [lia|lia|]. intros k t Ht. split; [by eapply Hnn|lia].
    + split; [done|]. simpl. destruct Hj as [-> _]. done.
  - destruct (threads s !! i) as [t|] eqn:Ht; unfold at_; rewrite Ht; simpl; [by apply start_worker_LI|].
    apply lookup_ge_None in Ht. lia.
  - destruct Hmain as (Hl & Hle & Hr). destruct (decide (i = length seeds)) as [->|Hne];
      [|change (length seeds) with n in Hne].
    + constructor; simpl; try done.
      * split; [done|]. intros k t Ht. apply (Hr k t Ht). apply lookup_lt_Some in Ht.
        simpl in Ht. unfold n in *. lia.
      * split; [done|]. simpl. destruct Hj as [-> _]. done.
    + destruct (lookup_lt_is_Some_2 (threads s) i) as [t Ht]; [lia|]. unfold at_. rewrite Ht. simpl.
      destruct (ready t) eqn:Hrt; [|done]. constructor; simpl; try done.
      * unfold main_ok. simpl. split_and!; [done|lia|]. intros k u Hu. destruct (Hr k u Hu) as [H1 H2].
        split; [done|]. intros Hk. destruct (decide (k = i)) as [->|]; [by simplify_eq|]. apply H2. lia.
      * split; [done|]. simpl. destruct Hj as [-> _]. done.
  - pose proof (all_ready_ids _ _ _ Hi Hmain) as Ho.
    destruct (caller_id s) eqn:Hca; [by destruct Hids as (_ & _ & [])|]. destruct Hids as [Hperm _].
    assert (Hcn : thread_counter s = Z.of_nat n).
    { rewrite Hperm, length_seqZ in Ho. lia. }
    constructor; simpl; try done.
    + unfold ids_ok. simpl. rewrite Hcn in Hperm |- *. split; [lia|]. auto.
    + split; [done|]. simpl. destruct Hj as [-> _]. done.
  - assert (Hne : threads s <> []).
    { destruct Hmain as [Hl _]. intros E. rewrite E in Hl. simpl in Hl. lia. }
    constructor; simpl; try done.
    + right. pose proof (li_inv _ _ _ Hi ltac:(by rewrite Hm) Hne) as Hinv.
      eapply I_inv. pose proof (i_shape _ _ _ _ _ _ _ Hinv) as []. by eapply I_same.
    + by left.
    + split; [done|]. simpl. rewrite bool_decide_eq_true_2 by done. done.
Qed.

(** ** Calls of clients *)

Lemma LI_done b p s :
  LI b p s -> main s = MDone -> threads s <> [] -> all_ready s /\ inv n 0 b (sch s).
Proof.
  intros Hi Hm Hth. split; [|eapply li_inv; try done; by rewrite Hm].
  pose proof (li_main _ _ _ Hi) as H. unfold main_ok in H. rewrite Hm in H. by destruct H as [?|[? _]].
Qed.

(** The scheduler changes, and its workers are at most woken. *)
Lemma LI_sched b b' p s x :
  LI b' p s -> main s = MDone -> threads s <> [] -> inv n 0 b x -> wakes (sch s) x -> LI b p (set_sch s x).
Proof.
  intros Hi Hm Hth Hx Hw. destruct (LI_done _ _ _ Hi Hm Hth) as [Hall _].
  destruct Hi as [Hlen Hs Hwk Hmain Hids [Hb Hj] Hjs]. constructor; simpl; try done.
  - by rewrite (wakes_length _ _ Hw).
  - unfold sched_ok. simpl. rewrite Hm. by right.
  - by apply worker_ok_wakes.
  - unfold main_ok. simpl. rewrite Hm. by left.
  - destruct Hw as [_ Hac]. unfold active in Hac. split; [done|]. destruct p; simpl; try done. by rewrite Hac.
Qed.

Lemma client_safe b p s a :
  LI (b + 128) p s -> 1 <= b -> orderly s (EClient a) -> safe (life_step seeds (EClient a) s) (LI b p).
Proof.
  intros Hi Hb (Had & Hm & Hne). simpl. destruct (outside a) eqn:Ho; [|done].
  assert (Hth : threads s <> []).
  { intros E. pose proof (li_len _ _ _ Hi) as Hl. rewrite E in Hl. by apply nil_length_inv in Hl. }
  destruct (LI_done _ _ _ Hi Hm Hth) as [_ Hinv].
  apply safe_bind. eapply safe_mono.
  - apply safe_does; [by apply (step_safe n Hn 0 b)|]. apply step_wakes; [done|]. by eapply LI_small.
  - intros x [[Hx _] Hw]. by eapply LI_sched.
Qed.

(** ** Calls of [Join] *)

Lemma joiners_set p s j q :
  joiners_ok p s -> joiners s !! j = Some q -> q <> JIdle ->
  q = p /\ forall p' s', joiners s' = <[j := p']> (joiners s) -> joiners_ok p' s'.
Proof.
  intros (j0 & Hj & Hout) Hq Hne. pose proof (lookup_lt_Some _ _ _ Hq) as Hlt.
  assert (Hjj : j = j0 /\ q = p).
  { rewrite Hj in Hq. apply list_lookup_insert_Some in Hq as [(-> & -> & _)|[_ Hq]]; [done|].
    apply lookup_replicate in Hq as [-> _]. done. }
  destruct Hjj as [-> ->]. split; [done|]. intros p' s' Hs'. exists j0. rewrite Hs', length_insert.
  split; [|lia]. rewrite Hj at 1. by rewrite list_insert_insert_eq.
Qed.

Lemma joiners_idle p s :
  joiners_ok p s -> Forall (.= JIdle) (joiners s) ->
  p = JIdle /\ joiners s = replicate (length (joiners s)) JIdle.
Proof.
  intros (j & Hj & Hout) Hall. split.
  - destruct (decide (length (joiners s) <= j)%nat) as [|Hlt]; [auto|]. rewrite Forall_lookup in Hall.
    apply (Hall j). rewrite Hj. apply list_lookup_insert_eq. rewrite length_replicate. lia.
  - symmetry. apply replicate_as_Forall. split; [done|]. eapply Forall_impl; [exact Hall|done].
Qed.

Lemma LI_set_join b p p' s j :
  LI b p s -> at_worker p' = at_worker p -> join_ok p' s -> joiners_ok p' (set_join s j p') ->
  LI b p' (set_join s j p').
Proof.
  intros [Hlen Hs Hwk Hmain Hids Hj Hjs] Ha Hj' Hjs'. constructor; try done.
  intros i t w Ht Hw. destruct (Hwk i t w Ht Hw) as [H1 H2]. split; [done|].
  unfold staged in *. by rewrite Ha.
Qed.

Lemma call_safe b p s j :
  LI b p s -> orderly s (ECallJoin j) -> safe (life_step seeds (ECallJoin j) s) (fun s' => exists p', LI b p' s').
Proof.
  intros Hi [Hm Hall]. simpl. unfold call_join. case_decide as Hj; [|done]. simpl.
  destruct (joiners_idle _ _ (li_joiners _ _ _ Hi) Hall) as [-> Hrep].
  destruct (poolActive (ctl (sch s))) eqn:Hact; [|by exists JIdle]. exists JStop.
  destruct (li_join _ _ _ Hi) as [_ [Hp _]]. rewrite Hact in Hp. symmetry in Hp.
  apply bool_decide_eq_true_1 in Hp as [_ Hth].
  apply (LI_set_join b JIdle); [done|done| |].
  - split; [done|]. split; [done|]. by eapply LI_done.
  - exists j. simpl. rewrite length_insert. split; [by rewrite Hrep at 1|].
    apply lookup_lt_Some in Hj. lia.
Qed.

(** A step of [Join] on worker [i] takes it from one stage to the next. *)
Lemma LI_join_step b b' p p' s s' j i t t' w w' :
  LI b' p s -> main s = MDone -> threads s !! i = Some t -> workers (sch s) !! i = Some w ->
  main s' = main s -> caller_id s' = caller_id s -> thread_counter s' = thread_counter s ->
  stopFlag s' = stopFlag s -> joiners s' = <[j := p']> (joiners s) -> joiners_ok p' s' ->
  threads s' = <[i := t']> (threads s) -> workers (sch s') = <[i := w']> (workers (sch s)) ->
  active (sch s') = active (sch s) -> sched_ok b s' ->
  tpc t' = tpc t -> thread_id t' = thread_id t -> ready t' = ready t -> thread_ok t' w' ->
  (forall k u v, k <> i -> staged p k u v -> staged p' k u v) -> staged p' i t' w' ->
  (forall s', main s' = MDone -> all_ready s' -> stopFlag s' = true -> join_ok p' s') ->
  stopFlag s = true -> LI b p' s'.
Proof.
  intros Hi Hm Ht Hw E1 E2 E3 E4 E5 Hjs E6 E7 Hac Hs E8 E9 E10 H1 Hst Hst' Hj Hsf.
  assert (Hth : threads s <> []) by (intros E; by rewrite E in Ht).
  destruct (LI_done _ _ _ Hi Hm Hth) as [Hall _].
  assert (Hall' : all_ready s') by (eapply all_ready_insert; try done; by rewrite E10).
  constructor; try done.
  - rewrite E6, E7, !length_insert. apply Hi.
  - intros k u v Hu Hv. rewrite E6 in Hu. rewrite E7 in Hv.
    destruct (decide (k = i)) as [->|Hne].
    + rewrite list_lookup_insert_eq in Hu by (by eapply lookup_lt_Some).
      rewrite list_lookup_insert_eq in Hv by (by eapply lookup_lt_Some). by simplify_eq.
    + rewrite list_lookup_insert_ne in Hu by done. rewrite list_lookup_insert_ne in Hv by done.
      destruct (li_workers _ _ _ Hi k u v Hu Hv) as [H2 H3]. split; [done|by apply Hst].
  - unfold main_ok. rewrite E1, Hm. by left.
  - eapply (ids_same s s' i t t'); try done. apply Hi.
  - apply Hj; [congruence|done|congruence].
Qed.

Lemma staged_at p i t w k now : at_worker p = (k, now) -> i = k -> staged p i t w -> now t w.
Proof. intros Ha ->. unfold staged. by rewrite Ha, Nat.ltb_irrefl, Nat.eqb_refl. Qed.
Lemma staged_now p i t w k now : at_worker p = (k, now) -> i = k -> now t w -> staged p i t w.
Proof. intros Ha ->. unfold staged. by rewrite Ha, Nat.ltb_irrefl, Nat.eqb_refl. Qed.
Lemma staged_other p p' k now now' i t w :
  at_worker p = (k, now) -> at_worker p' = (k, now') -> i <> k -> staged p i t w -> staged p' i t w.
Proof.
  intros Ha Ha' Hne. unfold staged. rewrite Ha, Ha'. destruct (i <? k)%nat; [done|].
  by rewrite (proj2 (Nat.eqb_neq i k) Hne).
Qed.
(** Worker [k] is done with: the next one is fresh. *)
Lemma staged_next k i t w now p p' :
  at_worker p = (k, now) -> at_worker p' = (S k, fresh) -> i <> k -> staged p i t w -> staged p' i t w.
Proof.
  intros Ha Ha' Hne. unfold staged. rewrite Ha, Ha'.
  destruct (Nat.ltb_spec i k), (Nat.ltb_spec i (S k)); try lia; [done|].
  rewrite (proj2 (Nat.eqb_neq i k) Hne). by destruct (i =? S k)%nat.
Qed.
Lemma staged_done k i t w p : at_worker p = (S k, fresh) -> i = k -> done_with t w -> staged p i t w.
Proof. intros Ha ->. unfold staged. rewrite Ha. by rewrite (proj2 (Nat.ltb_lt k (S k)) ltac:(lia)). Qed.

Lemma LI_at b p s i : LI b p s -> main s = MDone -> threads s <> [] -> (i < n)%nat ->
  exists t w, threads s !! i = Some t /\ workers (sch s) !! i = Some w /\ ready t = true /\
    thread_ok t w /\ staged p i t w.
Proof.
  intros Hi Hm Hth Hlt. destruct (LI_done _ _ _ Hi Hm Hth) as [[Hl Hall] _].
  destruct (lookup_lt_is_Some_2 (threads s) i) as [t Ht]; [lia|].
  destruct (LI_worker _ _ _ _ _ Hi Ht) as (w & Hw & H1 & H2). exists t, w. split_and!; eauto.
Qed.

(** The calls before and after the loop over the workers. *)
Lemma join_outer_safe b p s j ts :
  LI b p s -> joiners s !! j = Some p -> p <> JIdle ->
  (match p with JStop | JSignal | JNotify | JInactive => True | _ => False end) ->
  safe (join_step s j ts) (fun s' => exists p', LI b p' s').
Proof.
  intros Hi Hp Hne Hout. destruct (joiners_set _ _ _ _ (li_joiners _ _ _ Hi) Hp Hne) as [_ Hnext].
  pose proof (li_join _ _ _ Hi) as [_ Hj].
  unfold join_step. rewrite Hp. destruct p; try done; simpl.
  - exists JSignal. destruct Hj as [Hm Hall]. apply (LI_set_join b JStop); [|done|by split|by apply Hnext].
    destruct Hi as [? ? ? ? ? [? _] ?]. by constructor.
  - destruct Hj as (Hm & Hall & Hsf).
    assert (Hth : threads s <> []) by (intros E; destruct Hall as [Hl _]; rewrite E in Hl; simpl in Hl; lia).
    destruct (LI_done _ _ _ Hi Hm Hth) as [_ Hinv].
    apply safe_bind. eapply safe_mono.
    + apply safe_does; [by apply (resume_all_safe n Hn 0 b (accounted (sch s)) [] 0)|].
      apply (flows_wakes (sch s) id), resume_all_flows. by eapply LI_small.
    + intros x [[Hx _] Hw]. exists JNotify. apply (LI_set_join b JSignal); [|done|by split|by apply Hnext].
      eapply LI_sched; [exact Hi|done|done|by eapply I_inv|done].
  - destruct Hj as (Hm & Hall & Hsf).
    assert (Hth : threads s <> []) by (intros E; destruct Hall as [Hl _]; rewrite E in Hl; simpl in Hl; lia).
    destruct (LI_done _ _ _ Hi Hm Hth) as [_ Hinv].
    exists (JCas 0 (length (workers (sch s)))).
    apply (LI_set_join b JNotify); [|done| |by apply Hnext].
    + eapply LI_sched; [exact Hi|done|done|eapply I_inv; by apply NotifyAll_I|].
      split; [|done]. simpl. rewrite <- (list_fmap_id (workers (sch s))) at 1. apply Forall2_fmap_2.
      apply Forall_Forall2_diag, Forall_forall. intros w _. auto with flow.
    + split; [|by split]. simpl. destruct Hall as [Hl _]. rewrite (li_len _ _ _ Hi), Hl. split; [lia|done].
  - exists JIdle. destruct Hj as (Hm & Hth & Hsf).
    assert (Hcl : cleared s).
    { pose proof (li_main _ _ _ Hi) as H. unfold main_ok in H. rewrite Hm in H.
      destruct H as [[Hl _]|H]; [rewrite Hth in Hl; simpl in Hl; lia|done]. }
    destruct Hi as [Hlen Hs Hwk Hmain Hids _ _]. constructor; simpl; try done.
    + unfold sched_ok. simpl. rewrite Hm. by left.
    + split; [done|]. simpl. rewrite bool_decide_eq_false_2 by naive_solver. done.
    + by apply Hnext.
Qed.

(** The loop over the workers, at worker [k]. *)
Section Loop.
Context (b : Z) (s : life D) (j k : nat) (ts : list ptr).
Context (Hb : 1 <= b) (Hm : main s = MDone) (Hall : all_ready s) (Hsf : stopFlag s = true) (Hth : threads s <> []).

Definition join_post (s' : life D) : Prop := exists p', LI b p' s'.
Let after (p : join_pc) : Prop := forall p' s', joiners s' = <[j := p']> (joiners s) -> joiners_ok p' s'.

Lemma cas_safe :
  LI (b + 128) (JCas k n) s -> after (JCas k n) -> (k <= n)%nat ->
  safe (if decide (k = n) then Ok (set_join s j JClear)
        else t ← at_ (threads s) k;
             if joining t then Ok (set_join s j (JCas (S k) n))
             else Ok (set_join (set_thread s k (set_joining t true)) j (JRun k n))) join_post.
Proof.
  intros Hi Hnext Hk. pose proof (LI_weaken (b + 128) b _ s ltac:(lia) Hi) as Hiw. case_decide as Hkn.
  - exists JClear. apply (LI_set_join b (JCas k n)); [done|by rewrite Hkn|by split|by apply Hnext].
  - destruct (LI_at _ _ _ k Hi Hm Hth ltac:(lia)) as (t & w & Ht & Hw & Hr & Hok & Hst).
    pose proof (staged_at (JCas k n) k t w k fresh eq_refl eq_refl Hst) as (F1 & F2 & F3 & F4).
    destruct Hok as (O1 & O2 & O3). assert (Etl : tpc t = TLoop) by (by destruct (O1 Hr)).
    unfold at_. rewrite Ht. simpl. rewrite F1. exists (JRun k n).
    eapply (LI_join_step b _ _ _ s _ j k t (set_joining t true) w w); try done.
    + by apply Hnext.
    + simpl. by rewrite list_insert_id.
    + eapply (sched_ok_threads b s); [apply Hiw|exact Ht|done|done].
    + intros i u v Hi'. by apply (staged_other _ _ k fresh joining_it).
    + apply (staged_now _ _ _ _ k joining_it); [done|done|]. repeat split; auto. simpl. apply F2. by rewrite Etl.
    + intros s' ? ? ?. split; [simpl; lia|done].
Qed.

Lemma run_safe :
  LI (b + 128) (JRun k n) s -> after (JRun k n) -> (k < n)%nat ->
  safe (x ← step (AStopWorker k) (sch s); Ok (set_join (set_sch s x) j (JWait k n))) join_post.
Proof.
  intros Hi Hnext Hk. destruct (LI_at _ _ _ k Hi Hm Hth Hk) as (t & w & Ht & Hw & Hr & Hok & Hst).
  pose proof (staged_at (JRun k n) k t w k joining_it eq_refl eq_refl Hst) as (F1 & F2 & F3 & F4).
  destruct Hok as (O1 & O2 & O3). rewrite F3 in O3. destruct O3 as (O4 & O5 & O6).
  pose proof (LI_done _ _ _ Hi Hm Hth) as [_ Hinv].
  assert (Hsafe := step_safe n Hn 0 b (sch s) (AStopWorker k) Hinv Hb Hk).
  unfold step in *. rewrite (modify_eq _ _ _ _ Hw) in *. destruct Hsafe as [Hx _]. simpl. exists (JWait k n).
  eapply (LI_join_step b _ _ _ s _ j k t t w (notified (stopping w))); try done.
  - by apply Hnext.
  - simpl. by rewrite list_insert_id.
  - unfold sched_ok. simpl. rewrite Hm. by right.
  - destruct (woken_stop w) as (W1 & W2 & _). repeat split; try done. by rewrite F3.
  - intros i u v Hi'. by apply (staged_other _ _ k joining_it stopped).
  - apply (staged_now _ _ _ _ k stopped); [done|done|]. repeat split; auto.
Qed.

Lemma wait_safe :
  LI b (JWait k n) s -> after (JWait k n) -> (k < n)%nat ->
  safe (w ← at_ (workers (sch s)) k; if running w then Blocked else Ok (set_join s j (JThread k n))) join_post.
Proof.
  intros Hi Hnext Hk. destruct (LI_at _ _ _ k Hi Hm Hth Hk) as (t & w & Ht & Hw & Hr & Hok & Hst).
  pose proof (staged_at (JWait k n) k t w k stopped eq_refl eq_refl Hst) as (F1 & F2 & F3 & F4).
  unfold at_. rewrite Hw. simpl. rewrite F4. simpl. exists (JThread k n).
  apply (LI_set_join b (JWait k n)); [done|done|by split|by apply Hnext].
Qed.

Lemma thread_join_safe :
  LI b (JThread k n) s -> after (JThread k n) -> (k < n)%nat ->
  safe (t ← at_ (threads s) k;
        if joinable t then
          if decide (tpc t = TEnd) then Ok (set_join (set_thread s k (joined t)) j (JUnmark k n)) else Blocked
        else Ok (set_join s j (JUnmark k n))) join_post.
Proof.
  intros Hi Hnext Hk. destruct (LI_at _ _ _ k Hi Hm Hth Hk) as (t & w & Ht & Hw & Hr & Hok & Hst).
  pose proof (staged_at (JThread k n) k t w k stopped eq_refl eq_refl Hst) as (F1 & F2 & F3 & F4).
  unfold at_. rewrite Ht. simpl. rewrite F2. case_decide as Hte; [|done]. simpl. exists (JUnmark k n).
  eapply (LI_join_step b _ _ _ s _ j k t (joined t) w w); try done.
  - by apply Hnext.
  - simpl. by rewrite list_insert_id.
  - eapply (sched_ok_threads b s); [apply Hi|exact Ht|done|done].
  - intros i u v Hi'. by apply (staged_other _ _ k stopped joined_it).
  - by apply (staged_now _ _ _ _ k joined_it).
Qed.

Lemma unmark_safe :
  LI b (JUnmark k n) s -> after (JUnmark k n) -> (k < n)%nat ->
  safe (t ← at_ (threads s) k; Ok (set_join (set_thread s k (set_joining t false)) j (JCas (S k) n))) join_post.
Proof.
  intros Hi Hnext Hk. destruct (LI_at _ _ _ k Hi Hm Hth Hk) as (t & w & Ht & Hw & Hr & Hok & Hst).
  pose proof (staged_at (JUnmark k n) k t w k joined_it eq_refl eq_refl Hst) as (F1 & F2 & F3).
  unfold at_. rewrite Ht. simpl. exists (JCas (S k) n).
  eapply (LI_join_step b _ _ _ s _ j k t (set_joining t false) w w); try done.
  - by apply Hnext.
  - simpl. by rewrite list_insert_id.
  - eapply (sched_ok_threads b s); [apply Hi|exact Ht|done|done].
  - intros i u v Hi'. by eapply (staged_next k i u v joined_it (JUnmark k n) (JCas (S k) n)).
  - by apply (staged_done k k).
Qed.
End Loop.

Lemma join_loop_safe b p s j ts :
  LI (b + 128) p s -> 1 <= b -> joiners s !! j = Some p ->
  (match p with JCas _ _ | JRun _ _ | JWait _ _ | JThread _ _ | JUnmark _ _ => True | _ => False end) ->
  safe (join_step s j ts) (fun s' => exists p', LI b p' s').
Proof.
  intros Hi Hb Hp Hin. assert (Hne : p <> JIdle) by (by destruct p).
  destruct (joiners_set _ _ _ _ (li_joiners _ _ _ Hi) Hp Hne) as [_ Hnext].
  pose proof (li_join _ _ _ Hi) as [Hbd Hj].
  assert (HM : main s = MDone /\ all_ready s /\ stopFlag s = true) by (by destruct p).
  destruct HM as (Hm & Hall & Hsf).
  assert (Hth : threads s <> []) by (intros E; destruct Hall as [Hl _]; rewrite E in Hl; simpl in Hl; lia).
  pose proof (LI_weaken (b + 128) b p s ltac:(lia) Hi) as Hiw.
  unfold join_step. rewrite Hp.
  destruct p as [| | | |k e|k e|k e|k e|k e| |]; try done; simpl in Hbd; destruct Hbd as [Hk ->].
  - by apply cas_safe.
  - by apply run_safe.
  - by apply wait_safe.
  - by apply thread_join_safe.
  - by apply unmark_safe.
Qed.

Lemma join_clear_safe b s j ts :
  LI b JClear s -> joiners s !! j = Some JClear -> safe (join_step s j ts) (fun s' => exists p', LI b p' s').
Proof.
  intros Hi Hp. destruct (joiners_set _ _ _ _ (li_joiners _ _ _ Hi) Hp ltac:(done)) as [_ Hnext].
  unfold join_step. rewrite Hp. destruct (li_join _ _ _ Hi) as [_ (Hm & Hall & Hsf)].
  assert (Hdone : existsb joinable (threads s) = false).
  { apply not_true_iff_false. rewrite existsb_exists. intros (t & Ht & Hjt).
    apply list_elem_of_In, list_elem_of_lookup in Ht as [i Ht].
    destruct (LI_worker _ _ _ _ _ Hi Ht) as (w & _ & _ & Hst). apply lookup_lt_Some in Ht.
    destruct Hall as [Hl _]. unfold staged in Hst. simpl in Hst.
    rewrite (proj2 (Nat.ltb_lt i n) ltac:(lia)) in Hst. destruct Hst as (_ & ? & _). congruence. }
  unfold clear_pool. rewrite Hdone. simpl. exists JInactive.
  destruct Hi as [Hlen Hs Hwk Hmain Hids _ _]. constructor; simpl; try done.
  - unfold sched_ok. simpl. rewrite Hm. by left.
  - unfold main_ok. simpl. rewrite Hm. right. by repeat split.
  - destruct Hids as [Hc Hids]. split; [done|]. simpl. rewrite Hm in *.
    destruct (caller_id s); [|by destruct Hids]. destruct Hids as (? & _ & _). split_and!; auto.
  - by apply Hnext.
Qed.

(** ** Every event *)

Lemma life_safe b p s e :
  LI (b + 128) p s -> 1 <= b -> orderly s e -> safe_but s e (life_step seeds e s) (fun s' => exists p', LI b p' s').
Proof.
  intros Hi Hb Ho. pose proof (LI_weaken (b + 128) b p s ltac:(lia) Hi) as Hiw.
  destruct e as [|i inp|a| |j|j ts];
    [apply safe_safe_but|eapply safe_but_mono; [by eapply thread_safe|eauto]|apply safe_safe_but..].
  - eapply safe_mono; [by apply main_safe|eauto].
  - eapply safe_mono; [by eapply client_safe|eauto].
  - exists p. destruct Hiw as [? ? ? ? ? [? Hj] ?]. constructor; try done. split; [done|].
    simpl. destruct p; try done; naive_solver.
  - by eapply call_safe.
  - simpl. destruct (joiners s !! j) as [q|] eqn:Hq; [|unfold join_step; by rewrite Hq].
    destruct (decide (q = JIdle)) as [->|Hne]; [unfold join_step; by rewrite Hq|].
    destruct (joiners_set _ _ _ _ (li_joiners _ _ _ Hi) Hq Hne) as [-> _].
    destruct p; try done; first [by eapply join_outer_safe | by eapply join_loop_safe | by eapply join_clear_safe].
Qed.
End Invariant.
