(* ===== verification/Shutdown.v ===== *)
(** * Construction to destruction: the pool's life is safe, and [Join] returns

    The properties of the machine of [Lifecycle.v], from the invariant of
    [LifecycleSafety.v]; the runs that leave its assumptions. *)
From S2P Require Import Prelude Task TaskDeque WorkDeque Scheduler Worker PoolSafety Pool WorkerFlow Lifecycle LifecycleSafety.

Section Shutdown.
Context {D : Type} `{WD : WorkDeque D}.

(** An orderly run from the construction of a pool of two or more workers. *)
Record life_run (d0 : D) (seeds : list Z) (tp : topology) (callers : nat) (l : list event) (s : life D) : Prop := {
  lr_n : (2 <= length seeds <= 256)%nat;
  lr_topo : topology_ok (length seeds) tp;
  lr_empty : dq_elems d0 = [];
  lr_ok : dq_ok (128 * Z.of_nat (length l) + 200) d0;
  lr_run : run (orderly_exec seeds) l (begin_pool (length seeds) d0 tp callers) = Some s
}.

Lemma LI_begin b d0 seeds tp callers :
  1 <= b -> dq_ok b d0 -> LI seeds d0 tp b JIdle (begin_pool (length seeds) d0 tp callers).
Proof.
  intros Hb Hd. constructor; try done.
  - exists []. by split_and!.
  - split_and!; [done|simpl; lia|done].
  - exists callers. simpl. rewrite length_replicate. split; [|done].
    symmetry. apply list_insert_ge. by rewrite length_replicate.
Qed.

Lemma LI_run d0 seeds tp b p l s s' :
  (2 <= length seeds <= 256)%nat -> topology_ok (length seeds) tp -> dq_elems d0 = [] -> 1 <= b ->
  LI seeds d0 tp (128 * Z.of_nat (length l) + b) p s -> run (orderly_exec seeds) l s = Some s' ->
  exists p', LI seeds d0 tp b p' s'.
Proof.
  intros Hn Htp He Hb. revert p s. induction l as [|e l IH]; intros p s Hi; simpl.
  { intros [= <-]. exists p. by replace b with (128 * Z.of_nat 0 + b) by lia. }
  destruct (orderly_exec seeds e s) as [s1|] eqn:E; simpl; [|done]. intros Hr.
  unfold orderly_exec in E. case_decide as Ho; [|done].
  assert (H : safe_but s e (life_step seeds e s) (fun s' => exists p', LI seeds d0 tp (128 * Z.of_nat (length l) + b) p' s')).
  { eapply life_safe; try done; [|lia].
    replace (128 * Z.of_nat (length l) + b + 128) with (128 * Z.of_nat (length (e :: l)) + b) by (simpl; lia). exact Hi. }
  destruct (life_step seeds e s); simpl in E; simplify_eq. destruct H as [p1 Hi1]. by eapply IH.
Qed.

Lemma life_run_LI d0 seeds tp callers l s :
  life_run d0 seeds tp callers l s -> exists p, LI seeds d0 tp 200 p s.
Proof.
  intros [Hn Ht He Hok Hr]. eapply LI_run; try exact Hr; try done.
  apply LI_begin; [lia|done].
Qed.

(** ** How much is left of a call of [Join] *)

(** The steps of the caller. *)
Definition join_rank (n : nat) (p : join_pc) : nat :=
  match p with
  | JIdle => 0
  | JStop => 5 * n + 6
  | JSignal => 5 * n + 5
  | JNotify => 5 * n + 4
  | JCas k e => 5 * (e - k) + 3
  | JRun k e => 5 * (e - k) + 2
  | JWait k e => 5 * (e - k) + 1
  | JThread k e => 5 * (e - k)
  | JUnmark k e => 5 * (e - k) - 1
  | JClear => 2
  | JInactive => 1
  end.
(** The steps of a worker, once it is told to stop. *)
Definition worker_rank (x : thread * worker) : nat :=
  match tpc x.1 with TEnd => 0 | _ => if running x.2 then 8 else S (exit_rank (pc x.2)) end.
Definition worker_sum (s : life D) : nat := sum_list_with worker_rank (zip (threads s) (workers (sch s))).
Definition join_measure (n : nat) (s : life D) : nat :=
  sum_list_with (join_rank n) (joiners s) + worker_sum s.

Lemma worker_sum_zip ts ts' (ws ws' : list worker) :
  length ts' = length ts -> length ws' = length ws ->
  (forall i t w t' w', ts !! i = Some t -> ws !! i = Some w -> ts' !! i = Some t' -> ws' !! i = Some w' ->
     (worker_rank (t', w') <= worker_rank (t, w))%nat) ->
  Forall2 (fun x y => worker_rank y <= worker_rank x)%nat (zip ts ws) (zip ts' ws').
Proof.
  intros Hl Hl' H. apply Forall2_same_length_lookup. split.
  - rewrite !length_zip_with. lia.
  - intros i [t w] [t' w'] (? & ? & [= <- <-] & Ht & Hw)%lookup_zip_with_Some
      (? & ? & [= <- <-] & Ht' & Hw')%lookup_zip_with_Some. by eapply H.
Qed.

Lemma worker_sum_le s s' :
  length (threads s') = length (threads s) -> length (workers (sch s')) = length (workers (sch s)) ->
  (forall i t w t' w', threads s !! i = Some t -> workers (sch s) !! i = Some w ->
     threads s' !! i = Some t' -> workers (sch s') !! i = Some w' ->
     (worker_rank (t', w') <= worker_rank (t, w))%nat) ->
  (worker_sum s' <= worker_sum s)%nat.
Proof. intros H1 H2 H3. by apply sum_with_le, worker_sum_zip. Qed.

Lemma worker_sum_lt s s' i t w t' w' :
  length (threads s') = length (threads s) -> length (workers (sch s')) = length (workers (sch s)) ->
  (forall i t w t' w', threads s !! i = Some t -> workers (sch s) !! i = Some w ->
     threads s' !! i = Some t' -> workers (sch s') !! i = Some w' ->
     (worker_rank (t', w') <= worker_rank (t, w))%nat) ->
  threads s !! i = Some t -> workers (sch s) !! i = Some w ->
  threads s' !! i = Some t' -> workers (sch s') !! i = Some w' ->
  (worker_rank (t', w') < worker_rank (t, w))%nat -> (worker_sum s' < worker_sum s)%nat.
Proof.
  intros H1 H2 H3 Ht Hw Ht' Hw' Hlt. eapply (sum_with_lt _ _ _ i (t, w) (t', w')); try done;
    [by apply worker_sum_zip|by apply lookup_zip_with_Some; eauto 10|by apply lookup_zip_with_Some; eauto 10].
Qed.

Lemma woken_worker_rank t t' w w' : tpc t' = tpc t -> woken w w' -> (worker_rank (t', w') <= worker_rank (t, w))%nat.
Proof.
  intros Ht Hw. unfold worker_rank. simpl. rewrite Ht. destruct Hw as [Hr Hp]. rewrite Hr.
  pose proof (woken_rank w w' (conj Hr Hp)). destruct (tpc t), (running w); lia.
Qed.

Lemma worker_sum_wakes s s' :
  (forall i t', threads s' !! i = Some t' -> exists t, threads s !! i = Some t /\ tpc t' = tpc t) ->
  length (threads s') = length (threads s) -> wakes (sch s) (sch s') -> (worker_sum s' <= worker_sum s)%nat.
Proof.
  intros Ht Hl Hw. apply worker_sum_le; [done|by apply wakes_length|].
  intros i t w t' w' Hit Hiw Hit' Hiw'. destruct (Ht i t' Hit') as (u & Hu & Htp). simplify_eq.
  destruct (wakes_lookup _ _ _ _ Hw Hiw) as (v & Hv & Hwv). simplify_eq. by apply woken_worker_rank.
Qed.

(** ** While a call of [Join] is active *)

Section Joining.
Context (seeds : list Z) (d0 : D) (tp : topology).
Let n := length seeds.
Context (Hn : (2 <= n <= 256)%nat) (Htp : topology_ok n tp) (Hempty : dq_elems d0 = []).

Lemma joining_done b p s : LI seeds d0 tp b p s -> p <> JIdle -> main s = MDone.
Proof. intros Hi Hp. destruct (decide (main s = MDone)); [done|]. by destruct Hp; eapply LI_idle. Qed.

Lemma joining_loop b p s i t :
  LI seeds d0 tp b p s -> p <> JIdle -> threads s !! i = Some t -> tpc t = TLoop \/ tpc t = TEnd.
Proof.
  intros Hi Hp Ht. destruct (decide (tpc t = TLoop)) as [|H1]; [by left|].
  destruct (decide (tpc t = TEnd)) as [|H2]; [by right|].
  destruct (LI_early _ _ _ Hn _ _ _ _ _ Hi Ht H1 H2) as (_ & _ & H3). destruct H3. by eapply joining_done.
Qed.

(** A section of the loop. *)
Lemma loop_measure b p s i inp t t' w x :
  LI seeds d0 tp b p s -> threads s !! i = Some t -> workers (sch s) !! i = Some w ->
  tpc t = TLoop -> tpc t' = TLoop -> pc w <> Exited -> step (AWorker i inp) (sch s) = Ok x ->
  (worker_sum (set_thread (set_sch s x) i t') <= worker_sum s)%nat /\
  (running w = false -> (worker_sum (set_thread (set_sch s x) i t') < worker_sum s)%nat).
Proof.
  intros Hi Ht Hw Etl Et' Hx E. assert (Ha : pc w <> Asleep).
  { intros Ha. unfold step in E. case_decide; [|done]. unfold worker_step, at_ in E. rewrite Hw in E.
    simpl in E. by rewrite Ha in E. }
  pose proof (step_worker_flow (sch s) i inp w (LI_small _ _ _ Hn _ _ _ Hi) Hw Ha Hx) as H. rewrite E in H.
  destruct H as [Hl Ho (v & w' & Hv & Hw' & Hr & Hsucc) _ _]. simplify_eq.
  assert (Hown : (worker_rank (t', w') <= worker_rank (t, w))%nat /\
    (running w = false -> (worker_rank (t', w') < worker_rank (t, w))%nat)).
  { unfold worker_rank. simpl. rewrite Et', Etl, Hr. split; destruct (running w) eqn:Er; try done; intros;
      pose proof (stopped_succ w (pc w') Er Hsucc); lia. }
  assert (Hle : forall k u v u' v', threads s !! k = Some u -> workers (sch s) !! k = Some v ->
    <[i := t']> (threads s) !! k = Some u' -> workers x !! k = Some v' ->
    (worker_rank (u', v') <= worker_rank (u, v))%nat).
  { intros k u v u' v' Hu Hv0 Hu' Hv'. destruct (decide (k = i)) as [->|Hne].
    - rewrite list_lookup_insert_eq in Hu' by (by eapply lookup_lt_Some). simplify_eq. apply Hown.
    - rewrite list_lookup_insert_ne in Hu' by done. destruct (Ho k v Hne Hv0) as (v2 & Hv2 & Hvv). simplify_eq.
      by apply woken_worker_rank. }
  split.
  - apply worker_sum_le; simpl; [by rewrite length_insert|done|exact Hle].
  - intros Hf. eapply (worker_sum_lt s _ i t w t' w'); simpl; try done; [by rewrite length_insert| |by apply Hown].
    apply list_lookup_insert_eq. by eapply lookup_lt_Some.
Qed.

(** The end of the thread. *)
Lemma exit_measure s i t w :
  threads s !! i = Some t -> workers (sch s) !! i = Some w -> tpc t = TLoop ->
  (worker_sum (set_thread (set_sch s (set_worker (sch s) i (stopping w))) i (at_tpc t TEnd)) < worker_sum s)%nat.
Proof.
  intros Ht Hw Etl. eapply (worker_sum_lt s _ i t w (at_tpc t TEnd) (stopping w)); simpl; rewrite ?length_insert; try done.
  - intros k u v u' v' Hu Hv Hu' Hv'. destruct (decide (k = i)) as [->|Hne].
    + rewrite list_lookup_insert_eq in Hu' by (by eapply lookup_lt_Some). simplify_eq.
      unfold worker_rank at 1. simpl. lia.
    + rewrite list_lookup_insert_ne in Hu' by done. rewrite list_lookup_insert_ne in Hv' by done. by simplify_eq.
  - apply list_lookup_insert_eq. by eapply lookup_lt_Some.
  - apply list_lookup_insert_eq. by eapply lookup_lt_Some.
  - unfold worker_rank. simpl. rewrite Etl. destruct (running w); lia.
Qed.

Lemma thread_measure b p s s' i inp :
  LI seeds d0 tp b p s -> p <> JIdle -> life_step seeds (EThread i inp) s = Ok s' ->
  joiners s' = joiners s /\ (worker_sum s' <= worker_sum s)%nat /\
  (forall w, workers (sch s) !! i = Some w -> running w = false -> (worker_sum s' < worker_sum s)%nat).
Proof.
  intros Hi Hp Hs. simpl in Hs. unfold thread_step in Hs. destruct (threads s !! i) as [t|] eqn:Ht; [|done].
  destruct (LI_worker _ _ _ _ _ _ _ _ Hi Ht) as (w & Hw & (_ & Hex & _) & _).
  destruct (joining_loop _ _ _ _ _ Hi Hp Ht) as [Etl|Etl]; rewrite Etl in Hs; [|done].
  unfold at_ in Hs. rewrite Hw in Hs. cbn [mbind outcome_bind] in Hs.
  assert (Hsame : forall x, set_thread (set_sch s x) i t = set_sch s x).
  { intros x. unfold set_thread, set_threads, set_sch. simpl. by rewrite list_insert_id. }
  destruct (decide (pc w = Exited)) as [Ex|Ex].
  - rewrite Ex, (modify_eq _ _ _ _ Hw) in Hs. injection Hs as <-. split; [done|].
    pose proof (exit_measure s i t w Ht Hw Etl). split; [lia|done].
  - destruct (decide (pc w = Top)) as [Et|Et].
    + rewrite Et in Hs. apply bind_ok in Hs as (x & E & [= <-]). split; [done|].
      destruct (loop_measure b p s i inp t (if running w then set_ready t else t) w x Hi Ht Hw Etl) as [H1 H2];
        [by destruct (running w)|done|done|].
      split; [exact H1|]. intros v Hv. simplify_eq. exact H2.
    + assert (E : exists x, step (AWorker i inp) (sch s) = Ok x /\ s' = set_sch s x).
      { destruct (pc w); try done; apply bind_ok in Hs as (x & ? & [= <-]); eauto. }
      destruct E as (x & E & ->). split; [done|].
      destruct (loop_measure b p s i inp t t w x Hi Ht Hw Etl Etl Ex E) as [H1 H2]. rewrite Hsame in H1, H2.
      split; [exact H1|]. intros v Hv. simplify_eq. exact H2.
Qed.

Lemma client_measure b p s s' a :
  LI seeds d0 tp b p s -> life_step seeds (EClient a) s = Ok s' ->
  joiners s' = joiners s /\ (worker_sum s' <= worker_sum s)%nat.
Proof.
  intros Hi Hs. simpl in Hs. destruct (outside a) eqn:Ho; [|done]. apply bind_ok in Hs as (x & E & [= <-]).
  split; [done|]. pose proof (step_wakes (sch s) a Ho (LI_small _ _ _ Hn _ _ _ Hi)) as H. rewrite E in H.
  apply worker_sum_wakes; simpl; [eauto|done|done].
Qed.

Lemma worker_sum_insert s s' i t t' :
  threads s !! i = Some t -> threads s' = <[i := t']> (threads s) -> sch s' = sch s -> tpc t' = tpc t ->
  (worker_sum s' <= worker_sum s)%nat.
Proof.
  intros Ht Hs Hsch Htp'. apply worker_sum_wakes; [|by rewrite Hs, length_insert|by rewrite Hsch].
  intros k u Hu. rewrite Hs in Hu. apply list_lookup_insert_Some in Hu as [(-> & <- & _)|[_ Hu]]; eauto.
Qed.

Lemma stop_measure s i w j p :
  workers (sch s) !! i = Some w ->
  (worker_sum (set_join (set_sch s (set_worker (sch s) i (notified (stopping w)))) j p) <= worker_sum s)%nat.
Proof.
  intros Hw. apply worker_sum_le; simpl; [done|by rewrite length_insert|].
  intros k t v t' v' Ht Hv Ht' Hv'. assert (t' = t) as -> by congruence.
  apply list_lookup_insert_Some in Hv' as [(<- & <- & _)|[_ Hv']].
  - assert (w = v) as -> by congruence. unfold worker_rank. cbn [fst snd]. destruct (woken_stop v) as (-> & _ & Hrank).
    pose proof (exit_rank_max (pc v)). destruct (tpc t), (running v); lia.
  - by simplify_eq.
Qed.

(** A step of the active call gets it closer to its return. *)
Lemma join_measure_step b p s s' j ts :
  LI seeds d0 tp b p s -> joiners s !! j = Some p -> p <> JIdle -> life_step seeds (EJoin j ts) s = Ok s' ->
  exists p', joiners s' = <[j := p']> (joiners s) /\ (join_rank n p' < join_rank n p)%nat /\
    (worker_sum s' <= worker_sum s)%nat.
Proof.
  intros Hi Hp Hne Hs. simpl in Hs. unfold join_step in Hs. rewrite Hp in Hs.
  pose proof (li_join _ _ _ _ _ _ Hi) as [Hb Hj].
  destruct p as [| | | |k e|k e|k e|k e|k e| |]; simpl in Hb; try done.
  - injection Hs as <-. exists JSignal. split_and!; [done|simpl; lia|done].
  - apply bind_ok in Hs as (x & E & [= <-]). exists JNotify. split_and!; [done|simpl; lia|].
    pose proof (resume_all_flows (sch s) ts (LI_small _ _ _ Hn _ _ _ Hi)) as H. rewrite E in H.
    apply worker_sum_wakes; simpl; [eauto|done|apply H].
  - injection Hs as <-. exists (JCas 0 (length (workers (sch s)))). split_and!; [done| |].
    + destruct Hj as (_ & [Hl _] & _). rewrite (li_len _ _ _ _ _ _ Hi), Hl. simpl. unfold n. lia.
    + apply worker_sum_le; simpl; [done|by rewrite length_fmap|]. intros i t w t' w' Ht Hw Ht' Hw'. simplify_eq.
      rewrite list_lookup_fmap, Hw in Hw'. injection Hw' as <-. by apply woken_worker_rank, woken_notified.
  - destruct Hb as [Hk ->]. case_decide as Hkn.
    + injection Hs as <-. exists JClear. split_and!; [done|simpl; lia|done].
    + apply bind_ok in Hs as (t & Ht%at_ok & Hs). destruct (joining t); injection Hs as <-.
      * exists (JCas (S k) (length seeds)). split_and!; [done|simpl; lia|done].
      * exists (JRun k (length seeds)). split_and!; [done|simpl; lia|]. by eapply worker_sum_insert.
  - destruct Hb as [Hk ->]. apply bind_ok in Hs as (x & E & [= <-]). exists (JWait k (length seeds)).
    split_and!; [done|simpl; lia|]. simpl in E. apply bind_ok in E as (w & Hw%at_ok & [= <-]). by apply stop_measure.
  - destruct Hb as [Hk ->]. apply bind_ok in Hs as (w & _ & Hs). destruct (running w); [done|].
    injection Hs as <-. exists (JThread k (length seeds)). split_and!; [done|simpl; lia|done].
  - destruct Hb as [Hk ->]. apply bind_ok in Hs as (t & Ht%at_ok & Hs). destruct (joinable t).
    + case_decide; [|done]. injection Hs as <-. exists (JUnmark k (length seeds)).
      split_and!; [done|simpl; lia|]. by eapply worker_sum_insert.
    + injection Hs as <-. exists (JUnmark k (length seeds)). split_and!; [done|simpl; lia|done].
  - destruct Hb as [Hk ->]. apply bind_ok in Hs as (t & Ht%at_ok & [= <-]). exists (JCas (S k) (length seeds)).
    split_and!; [done|simpl; lia|]. by eapply worker_sum_insert.
  - apply bind_ok in Hs as (s1 & E & [= <-]). unfold clear_pool in E.
    destruct (existsb joinable (threads s)); [done|]. injection E as <-. exists JInactive.
    split_and!; [done|simpl; lia|]. unfold worker_sum. simpl. lia.
  - injection Hs as <-. exists JIdle. split_and!; [done|simpl; lia|done].
Qed.

Lemma join_measure_bound b p s :
  LI seeds d0 tp b p s -> (join_measure n s <= 13 * n + 6)%nat.
Proof.
  intros Hi. assert (Hw : (worker_sum s <= 8 * n)%nat).
  { assert (Hl : (length (zip (threads s) (workers (sch s))) <= n)%nat).
    { rewrite length_zip_with. trans (length (threads s)); [lia|].
      destruct (threads s) as [|t l] eqn:E; simpl; [lia|].
      destruct (LI_index _ _ _ Hn _ _ _ 0 t Hi) as [_ H]; [by rewrite E|]. rewrite E in H. simpl in H. unfold n in *. lia. }
    unfold worker_sum. revert Hl. generalize (zip (threads s) (workers (sch s))). generalize n.
    intros m l. revert m. induction l as [|x l IH]; intros m Hl; simpl in *; [lia|].
    assert (Hx : (worker_rank x <= 8)%nat).
    { unfold worker_rank. pose proof (exit_rank_max (pc x.2)). destruct (tpc x.1), (running x.2); lia. }
    specialize (IH (m - 1)%nat ltac:(lia)). lia. }
  destruct (li_joiners _ _ _ _ _ _ Hi) as (j & Hj & Hout). unfold join_measure.
  assert (Hz : forall k, sum_list_with (join_rank n) (replicate k JIdle) = 0%nat) by (induction k; auto).
  assert (Hr : (sum_list_with (join_rank n) (joiners s) <= join_rank n p)%nat).
  { rewrite Hj. destruct (replicate (length (joiners s)) JIdle !! j) as [q|] eqn:E.
    - pose proof (sum_with_insert (join_rank n) _ j q p E) as H. rewrite Hz in H.
      apply lookup_replicate in E as [-> _]. simpl in H. lia.
    - apply lookup_ge_None in E. rewrite list_insert_ge, Hz by done. lia. }
  assert (Hp : (join_rank n p <= 5 * n + 6)%nat).
  { destruct (li_join _ _ _ _ _ _ Hi) as [Hb _]. destruct p; simpl in *; lia. }
  lia.
Qed.
End Joining.

(** The events that bring an active call of [Join] forward: its own steps and
    those of the workers it has stopped. *)
Definition drives (s : life D) (e : event) : Prop :=
  match e with
  | EJoin _ _ => True
  | EThread i _ => exists w, workers (sch s) !! i = Some w /\ running w = false
  | _ => False
  end.

Lemma event_measure seeds d0 tp b p s s' j e :
  (2 <= length seeds <= 256)%nat ->
  LI seeds d0 tp b p s -> joiners s !! j = Some p -> p <> JIdle ->
  orderly_exec seeds e s = Some s' ->
  (join_measure (length seeds) s' <= join_measure (length seeds) s)%nat /\
  (drives s e -> (join_measure (length seeds) s' < join_measure (length seeds) s)%nat).
Proof.
  intros Hn Hi Hp Hne He. unfold orderly_exec in He. case_decide as Ho; [|done].
  destruct (life_step seeds e s) as [x| |] eqn:E; simpl in He; simplify_eq.
  unfold join_measure. destruct e as [|i inp|a| |k|k ts].
  - simpl in E. unfold main_step in E. by rewrite (joining_done _ _ _ Hn _ _ _ Hi Hne) in E.
  - destruct (thread_measure _ _ _ Hn _ _ _ _ _ _ Hi Hne E) as (-> & Hle & Hlt). split; [lia|].
    intros (w & Hw & Hr). specialize (Hlt w Hw Hr). lia.
  - destruct (client_measure _ _ _ Hn _ _ _ _ _ Hi E) as [-> Hle]. split; [lia|by intros []].
  - injection E as <-. split; [done|by intros []].
  - destruct Ho as [_ Hall]. rewrite Forall_lookup in Hall. by destruct Hne; apply (Hall j).
  - simpl in E. destruct (joiners s !! k) as [q|] eqn:Hq; [|unfold join_step in E; by rewrite Hq in E].
    destruct (decide (q = JIdle)) as [->|Hqi]; [unfold join_step in E; by rewrite Hq in E|].
    destruct (joiners_set _ Hn _ _ _ _ (li_joiners _ _ _ _ _ _ Hi) Hq Hqi) as [-> _].
    destruct (join_measure_step _ _ _ Hn _ _ _ _ _ _ Hi Hq Hqi E) as (p' & -> & Hlt & Hle).
    pose proof (sum_with_insert (join_rank (length seeds)) _ _ _ p' Hq). lia.
Qed.

(** Worker [i] is inside a task that never gives its worker back (it neither
    returns nor yields nor waits), for the tasks [endless]. *)
Definition stays_inside (endless : ptr -> bool) (s : life D) (i : nat) : Prop :=
  match workers (sch s) !! i with
  | Some w =>
      match pc w, task_to_run w with
      | Fast, Some t | OnFiber _, Some t => endless t = true
      | _, _ => False
      end
  | None => False
  end.
#[global] Instance stays_inside_dec endless s i : Decision (stays_inside endless s i).
Proof. unfold stays_inside. repeat case_match; apply _. Defined.

(** The thread of a stopped worker can go on, unless a requeue spins. *)
Lemma stopped_thread_moves s k t w f :
  small (sch s) -> ~ all_pinned (sch s) -> threads s !! k = Some t -> workers (sch s) !! k = Some w ->
  tpc t = TLoop -> pc w <> Asleep -> thread_step s k (mk_input (Some f) Finished) <> Blocked.
Proof.
  intros Hsm Hnp Ht Hw Htl Ha. unfold thread_step. rewrite Ht, Htl. unfold at_. rewrite Hw.
  cbn [mbind outcome_bind].
  assert (Hs : pc w <> Exited -> step (AWorker k (mk_input (Some f) Finished)) (sch s) <> Blocked).
  { intros Hx. unfold step. rewrite decide_True by done.
    pose proof (worker_step_moves (sch s) k w (mk_input (Some f) Finished) Hw Ha Hx Hsm) as H.
    intros E. by rewrite E in H. }
  destruct (decide (pc w = Exited)) as [Ex|Ex].
  - rewrite Ex, (modify_eq _ _ _ _ Hw). done.
  - specialize (Hs Ex). destruct (step _ (sch s)); try done; destruct (pc w); done.
Qed.

(** A caller in [Join] has threads to join. *)
Lemma join_threads seeds d0 tp b p s j : (2 <= length seeds <= 256)%nat -> LI seeds d0 tp b p s -> joiners s !! j = Some p -> p <> JIdle ->
  match p with JInactive => True | _ => threads s <> [] end.
Proof.
  intros Hn Hi Hp Hne. pose proof (li_join _ _ _ _ _ _ Hi) as [_ Hj].
  assert (Ha : all_ready seeds s -> threads s <> []) by (intros [Hl _] E; rewrite E in Hl; simpl in Hl; lia).
  destruct p; try done; apply Ha, Hj.
Qed.

(** Only the wait for a thread, and the signals, can hold it up. *)
Lemma join_step_moves seeds d0 tp b p s j ts :
  (2 <= length seeds <= 256)%nat -> LI seeds d0 tp b p s -> joiners s !! j = Some p -> p <> JIdle -> p <> JSignal ->
  (forall k e, p <> JThread k e) -> life_step seeds (EJoin j ts) s <> Blocked.
Proof.
  intros Hn Hi Hp Hne Hns Hnt. pose proof (joining_done _ _ _ Hn _ _ _ Hi Hne) as Hm.
  pose proof (join_threads _ _ _ _ _ _ _ Hn Hi Hp Hne) as Hth. pose proof (li_join _ _ _ _ _ _ Hi) as [Hbd _].
  simpl. unfold join_step. rewrite Hp. destruct p as [| | | |k e|k e|k e|k e|k e| |]; simpl in *; try done.
  - destruct (decide (k = e)); [done|].
    destruct (LI_at _ _ _ Hn _ _ _ k Hi Hm Hth ltac:(lia)) as (t & w & Ht & _).
    unfold at_. rewrite Ht. simpl. by destruct (joining t).
  - destruct (LI_at _ _ _ Hn _ _ _ k Hi Hm Hth ltac:(lia)) as (t & w & _ & Hw & _).
    unfold step. by rewrite (modify_eq _ _ _ _ Hw).
  - destruct (LI_at _ _ _ Hn _ _ _ k Hi Hm Hth ltac:(lia)) as (t & w & _ & Hw & _ & _ & Hst).
    destruct (staged_at _ (JWait k e) k t w k stopped eq_refl eq_refl Hst) as (_ & _ & _ & Hr).
    unfold at_. rewrite Hw. simpl. by rewrite Hr.
  - by destruct (Hnt k e).
  - destruct (LI_at _ _ _ Hn _ _ _ k Hi Hm Hth ltac:(lia)) as (t & w & Ht & _).
    unfold at_. by rewrite Ht.
  - unfold clear_pool. by destruct (existsb joinable (threads s)).
Qed.

(** The caller can go on, or it waits for a thread that can. *)
Lemma join_progress seeds d0 tp b p s j endless :
  (2 <= length seeds <= 256)%nat -> topology_ok (length seeds) tp -> dq_elems d0 = [] ->
  LI seeds d0 tp (b + 128) p s -> 1 <= b -> joiners s !! j = Some p -> p <> JIdle ->
  all_pinned (sch s) \/
  (forall ts, is_Some (orderly_exec seeds (EJoin j ts) s)) \/
  exists i e, p = JThread i e /\ (forall ts, life_step seeds (EJoin j ts) s = Blocked) /\
    (stays_inside endless s i \/
     (~ stays_inside endless s i /\ forall f, let go := EThread i (mk_input (Some f) Finished) in
        is_Some (orderly_exec seeds go s) /\ drives s go)).
Proof.
  intros Hn Htp He Hi Hb Hp Hne. pose proof (joining_done _ _ _ Hn _ _ _ Hi Hne) as Hm.
  assert (Hsafe : forall e, orderly seeds s e -> life_step seeds e s <> Stuck).
  { intros e Ho E. pose proof (life_safe _ _ _ Hn Htp He _ _ _ e Hi Hb Ho) as H. rewrite E in H.
    destruct e; try done. destruct H as [H _]. by rewrite Hm in H. }
  assert (Hgo : forall e, orderly seeds s e -> life_step seeds e s <> Blocked -> is_Some (orderly_exec seeds e s)).
  { intros e Ho Hbl. unfold orderly_exec. rewrite decide_True by done. specialize (Hsafe e Ho).
    destruct (life_step seeds e s); simpl; eauto; done. }
  pose proof (join_threads _ _ _ _ _ _ _ Hn Hi Hp Hne) as Hth. pose proof (li_join _ _ _ _ _ _ Hi) as [Hbd _].
  destruct (decide (p = JSignal)) as [->|H1].
  { destruct (decide (all_pinned (sch s))) as [|Hnp]; [by left|].
    right; left. intros ts. apply Hgo; [done|]. simpl. unfold join_step. rewrite Hp.
    pose proof (resume_all_flows (sch s) ts (LI_small _ _ _ Hn _ _ _ Hi)) as H.
    destruct (resume_all (sch s) ts); simpl in *; done. }
  assert (Hstep : (forall k e, p <> JThread k e) -> forall ts, is_Some (orderly_exec seeds (EJoin j ts) s)).
  { intros Hnt ts. apply Hgo; [done|]. by eapply join_step_moves. }
  destruct p as [| | | |k e|k e|k e|k e|k e| |]; try (by right; left; apply Hstep).
  simpl in Hbd. destruct Hbd as [Hk _].
  destruct (LI_at _ _ _ Hn _ _ _ k Hi Hm Hth Hk) as (t & w & Ht & Hw & _ & (_ & _ & Hok) & Hst).
  destruct (staged_at _ (JThread k e) k t w k stopped eq_refl eq_refl Hst) as (_ & Hjt & Htl & Hr).
  destruct (decide (all_pinned (sch s))) as [|Hnp]; [by left|right].
  destruct Htl as [Etl|Etl]; [right|left].
  - exists k, e. split; [done|]. split.
    { intros ts. simpl. unfold join_step. rewrite Hp. unfold at_. rewrite Ht. simpl. rewrite Hjt.
      case_decide; [congruence|done]. }
    destruct (decide (stays_inside endless s k)) as [|Hin]; [by left|right]. split; [done|].
    intros f. split; [|by exists w]. apply Hgo; [done|].
    apply (stopped_thread_moves s k t w); try done; [by eapply LI_small|]. rewrite Etl in Hok. by apply Hok.
  - intros ts. apply Hgo; [done|]. simpl. unfold join_step. rewrite Hp. unfold at_. rewrite Ht. simpl.
    rewrite Hjt. by case_decide.
Qed.
End Shutdown.

(** ** Runs of the Chase-Lev pool *)

Definition thread_goes (i : nat) : event := EThread i (with_fiber Finished).
Definition joins (j : nat) : event := EJoin j [].
Definition new_pool : life deque := begin_pool 2 d8 two_workers 2.

(** Construction, each worker running up to its first look at its deques; then
    caller 0 joins. *)
Definition start_up : list event :=
  replicate 5 EMain ++ replicate 4 (thread_goes 0) ++ replicate 4 (thread_goes 1) ++ replicate 5 EMain.
Definition joining_run : list event :=
  start_up ++ [ECallJoin 0] ++ replicate 6 (joins 0) ++ replicate 6 (thread_goes 0) ++
  replicate 4 (joins 0).
Definition joined_run : list event :=
  joining_run ++ replicate 6 (thread_goes 1) ++ replicate 6 (joins 0).

Lemma life_run2 l s :
  Z.of_nat (length l) < 1000 -> run (orderly_exec [1; 2]) l new_pool = Some s ->
  life_run d8 [1; 2] two_workers 2 l s.
Proof.
  intros Hl Hr. destruct d8_facts as (_ & He & _). constructor; try done.
  - simpl. lia.
  - apply (bool_decide_unpack _). vm_compute. exact Logic.I.
  - apply d8_ok. lia.
Qed.

(** ** Properties *)

(** [C4] From the construction of a pool to its destruction, in every orderly
    run: a step that indexes out of range, divides by zero, touches a cleared
    vector or terminates the program can only be the steal of a worker that gets
    there while [StartPool] has pushed no other worker, or not yet its sibling
    ([lifecycle_defects] shows both happen).  When [Init] has returned, the calling thread has
    the id [n] and every worker is ready, has sized its fiber cache to 36, and
    has an id of its own among [0 .. n - 1], so that all fit the [n + 1] slots of
    the epochs.  When no call of [Join] is active the pool is either active with
    its [n] workers, or inactive with no thread, worker or main-thread task left,
    and then the destructor neither joins nor terminates. *)
Theorem lifecycle_safe {D} `{WD : WorkDeque D} (d0 : D) seeds tp callers l s :
  life_run d0 seeds tp callers l s ->
  let n := length seeds in
  (forall e, orderly seeds s e -> life_step seeds e s = Stuck -> steals_too_early s e) /\
  (main s = MDone ->
     caller_id s = Some (Z.of_nat n) /\
     (threads s = [] \/
      (length (threads s) = n /\ omap thread_id (threads s) ≡ₚ seqZ 0 (Z.of_nat n) /\
       Forall (fun t => ready t = true /\ cacheCapacity t = Some 36) (threads s)))) /\
  (main s = MDone -> Forall (.= JIdle) (joiners s) ->
     (poolActive (ctl (sch s)) = true /\ length (workers (sch s)) = n) \/
     (poolActive (ctl (sch s)) = false /\ workers (sch s) = [] /\ threads s = [] /\
      mainQ (qs (sch s)) = [] /\ destructor_joins s = false /\ destroy_members s = Ok tt)).
Proof.
  intros Hr n. destruct (life_run_LI _ _ _ _ _ _ Hr) as [p Hi]. destruct Hr as [Hn Htp He _ _].
  split_and!.
  - intros e Ho E. pose proof (life_safe _ _ _ Hn Htp He 72 p s e Hi ltac:(lia) Ho) as H. by rewrite E in H.
  - intros Hm. destruct (li_ids _ _ _ _ _ _ Hi) as [_ Hid]. rewrite Hm in Hid.
    destruct (caller_id s) as [c|]; [|by destruct Hid]. destruct Hid as (-> & Hid & _). split; [done|].
    destruct (decide (threads s = [])) as [|Hth]; [by left|right]. destruct Hid as [|Hid]; [done|].
    destruct (LI_done _ _ _ _ _ _ Hi Hm Hth) as [[Hl Hall] _]. split_and!; [done|done|].
    apply Forall_lookup. intros i t Ht. split; [by eapply Hall|].
    destruct (LI_worker _ _ _ _ _ _ _ _ Hi Ht) as (w & _ & (H1 & _ & H3) & _).
    destruct (H1 (Hall i t Ht)) as [E|E]; rewrite E in H3; apply H3.
  - intros Hm Hall. destruct (joiners_idle _ Hn _ _ (li_joiners _ _ _ _ _ _ Hi) Hall) as [-> _].
    destruct (li_join _ _ _ _ _ _ Hi) as [_ [Hp Hsf]]. destruct (decide (threads s = [])) as [Hth|Hth].
    + right. pose proof (li_main _ _ _ _ _ _ Hi) as Hmain. unfold main_ok in Hmain. rewrite Hm in Hmain.
      destruct Hmain as [[Hl _]|(_ & Hw & Hq)]; [rewrite Hth in Hl; simpl in Hl; lia|].
      rewrite Hp, bool_decide_eq_false_2 by naive_solver. unfold destructor_joins, destroy_members.
      rewrite Hth, (Hsf Hm Hth). by split_and!.
    + left. rewrite Hp, bool_decide_eq_true_2 by done. split; [done|].
      rewrite (li_len _ _ _ _ _ _ Hi). by destruct (LI_done _ _ _ _ _ _ Hi Hm Hth) as [[Hl _] _].
Qed.

Lemma lifecycle_safe_witness :
  exists s, run (orderly_exec [1; 2]) joined_run new_pool = Some s /\ main s = MDone /\
    poolActive (ctl (sch s)) = false /\ caller_id s = Some 2 /\ destroy_members s = Ok tt.
Proof.
  assert (Hf : (fun s => (main s, joiners s, poolActive (ctl (sch s)))) <$> run (orderly_exec [1; 2]) joined_run new_pool
    = Some (MDone, [JIdle; JIdle], false)) by (vm_compute; reflexivity).
  destruct (run (orderly_exec [1; 2]) joined_run new_pool) as [s|] eqn:E; [|discriminate Hf].
  injection Hf as Hm Hj Ha.
  destruct (lifecycle_safe d8 [1; 2] two_workers 2 joined_run s
    (life_run2 joined_run s ltac:(vm_compute; reflexivity) E)) as (_ & H1 & H2).
  exists s. split; [reflexivity|]. split; [exact Hm|]. split; [exact Ha|]. split; [exact (proj1 (H1 Hm))|].
  destruct (H2 Hm ltac:(rewrite Hj; repeat constructor)) as [[H _]|(_ & _ & _ & _ & _ & H)]; [congruence|exact H].
Defined.

(** [C8] [Join] returns, when the tasks that the workers are inside return.
    While a call is active, no event of an orderly run makes its measure grow,
    each of its own steps and of the steps of the workers it has stopped makes it
    smaller, and it is at most [13 n + 6].  And, whatever tasks [endless] never
    give their worker back: every core is pinned to an immediate task (when a
    requeue may spin), or the caller can go on, or it waits in [thread.join()]
    for a worker that is inside such a task, or for one that can go on without
    the end of such a task. *)
Theorem join_returns {D} `{WD : WorkDeque D} (d0 : D) seeds tp callers l s j p endless :
  life_run d0 seeds tp callers l s -> joiners s !! j = Some p -> p <> JIdle ->
  let n := length seeds in
  (join_measure n s <= 13 * n + 6)%nat /\
  (forall e s', orderly_exec seeds e s = Some s' ->
     (join_measure n s' <= join_measure n s)%nat /\
     (drives s e -> (join_measure n s' < join_measure n s)%nat)) /\
  (all_pinned (sch s) \/
   (forall ts, is_Some (orderly_exec seeds (EJoin j ts) s)) \/
   exists i e, p = JThread i e /\ (forall ts, life_step seeds (EJoin j ts) s = Blocked) /\
     (stays_inside endless s i \/
      (~ stays_inside endless s i /\ forall f, let go := EThread i (mk_input (Some f) Finished) in
         is_Some (orderly_exec seeds go s) /\ drives s go))).
Proof.
  intros Hr Hp Hne n. destruct (life_run_LI _ _ _ _ _ _ Hr) as [q Hi]. destruct Hr as [Hn Htp He _ _].
  destruct (joiners_set _ Hn _ _ _ _ (li_joiners _ _ _ _ _ _ Hi) Hp Hne) as [-> _]. split_and!.
  - by eapply join_measure_bound.
  - intros e s' Hs. by eapply event_measure.
  - by eapply (join_progress seeds d0 tp 72).
Qed.

Lemma join_returns_witness :
  exists s, run (orderly_exec [1; 2]) joining_run new_pool = Some s /\ joiners s !! 0%nat = Some (JWait 1 2) /\
    join_measure 2 s = 12%nat /\ (join_measure 2 s <= 32)%nat /\
    (forall ts, is_Some (orderly_exec [1; 2] (EJoin 0 ts) s)).
Proof.
  assert (Hf : (fun s => (joiners s !! 0%nat, join_measure 2 s, immediateCoresInUse (sch s), length (workers (sch s)))) <$>
      run (orderly_exec [1; 2]) joining_run new_pool
    = Some (Some (JWait 1 2), 12%nat, [false; false], 2%nat)) by (vm_compute; reflexivity).
  destruct (run (orderly_exec [1; 2]) joining_run new_pool) as [s|] eqn:E; [|discriminate Hf].
  injection Hf as Hj Hm Hfl Hl.
  destruct (join_returns d8 [1; 2] two_workers 2 joining_run s 0%nat (JWait 1 2) (fun _ => false)
    (life_run2 joining_run s ltac:(vm_compute; reflexivity) E) Hj ltac:(discriminate)) as (H1 & _ & H3).
  exists s. split; [reflexivity|]. split; [exact Hj|]. split; [exact Hm|]. split; [exact H1|].
  destruct H3 as [H3|[H3|(i & e & H3 & _)]]; [|exact H3|discriminate H3].
  specialize (H3 0%nat). rewrite Hl, Hfl in H3. discriminate (H3 ltac:(lia)).
Defined.

(** ** What goes wrong *)

(** Without the conditions of an orderly run. *)
Definition any_exec (e : event) (s : life deque) : option (life deque) := returns (life_step [1; 2] e s).

(** Worker 0 gets to its steal before worker 1 is on the vector. *)
Definition early_steal : list event := replicate 2 EMain ++ replicate 6 (thread_goes 0).
Definition smt_pair : topology := mk_topology [1; 0] [[]; []]%nat.

(** Caller 1 calls [Join] while caller 0 waits for worker 0. *)
Definition two_joins : list event :=
  start_up ++ [ECallJoin 0] ++ replicate 5 (joins 0) ++ [ECallJoin 1] ++ replicate 7 (joins 1) ++
  replicate 6 (thread_goes 1) ++ replicate 3 (joins 1).

(** A push after [Join]. *)
Definition late_client : list event := joined_run ++ [EClient (ACreate 1 fast_job)]%positive.

(** Both cores are given an immediate task while a task is in the inbox of
    worker 1; then caller 0 joins. *)
Definition pinned_run : list event :=
  start_up ++ (EClient <$> [ACreate 1 fast_job; ACreate 2 fast_job; ACreate 3 fast_job; APush 3 2; AFinish 0;
    APushImmediate 1 1; AFinish 0; APushImmediate 2 2; AFinish 0]%positive) ++ [ECallJoin 0] ++ replicate 6 (joins 0) ++
  replicate 3 (thread_goes 0) ++ replicate 5 (joins 0).
Definition hung : life deque := Eval vm_compute in
  default new_pool (run (orderly_exec [1; 2]) pinned_run new_pool).

(** The events of the pool's own threads and of [Join]. *)
Definition of_the_pool (e : event) : bool :=
  match e with EMain | EThread _ _ | EJoin _ _ => true | _ => false end.

Lemma hung_reached : run (orderly_exec [1; 2]) pinned_run new_pool = Some hung.
Proof. vm_compute. reflexivity. Qed.

Lemma hung_worker : outcome_kind (worker_step (sch hung) 1 (with_fiber Finished)) = 1%nat.
Proof. vm_compute. reflexivity. Qed.

Lemma hung_stays e s' : of_the_pool e = true -> life_step [1; 2] e hung <> Ok s'.
Proof.
  destruct e as [|i inp|a| |j|j ts]; try done; intros _.
  - destruct i as [|[|i]]; [done| |done].
    intros H. change (life_step [1; 2] (EThread 1 inp) hung) with
      (x ← (if decide (group_exists (sch hung) (back inp)) then worker_step (sch hung) 1 inp else Blocked);
       Ok (set_sch hung x)) in H.
    case_decide; [|done].
    change (worker_step (sch hung) 1 inp) with (worker_step (sch hung) 1 (with_fiber Finished)) in H.
    by rewrite (kind_blocked _ hung_worker) in H.
  - by destruct j as [|[|j]].
Qed.

Definition shared_pool (tp : topology) : life deque := begin_pool 2 d8 tp 2.
Definition goes_wrong (l : list event) (e : event) (s0 : life deque) : Prop :=
  exists s, run any_exec l s0 = Some s /\ life_step [1; 2] e s = Stuck.

Lemma goes_wrong_compute l e s0 :
  (fun s => outcome_kind (life_step [1; 2] e s)) <$> run any_exec l s0 = Some 2%nat -> goes_wrong l e s0.
Proof.
  intros H. unfold goes_wrong. destruct (run any_exec l s0) as [s|] eqn:E; [|discriminate H].
  exists s. split; [done|]. injection H as H. by apply kind_stuck.
Qed.

(** The runs that are not orderly go wrong, and pinned cores stop [Join].
    (1) A worker that reaches its steal before the second worker is on the vector
    divides by [workers.size() - 1 = 0], and (2) reads past the end of the vector
    for its sibling.  (3) Of two overlapping calls of [Join] the second skips the
    worker the first waits for and destroys its running thread.  (4) After [Stop]
    the destructor does not join and destroys running threads.  (5) After [Join]
    a [Push] indexes the empty pool, while [PushImmediate], [PushFork] and
    [PushMain] are refused.  (6) With every core pinned a stopped worker drops its
    immediate task and leaves its core marked, the other spins in its requeue, and
    [Join] never returns: no thread of the pool and no step of [Join] can move. *)
Theorem lifecycle_defects :
  goes_wrong early_steal (thread_goes 0) new_pool /\
  goes_wrong early_steal (thread_goes 0) (shared_pool smt_pair) /\
  goes_wrong two_joins (joins 1) new_pool /\
  (exists s, run any_exec (start_up ++ [EStop]) new_pool = Some s /\ main s = MDone /\
     destructor_joins s = false /\ destroy_members s = Stuck) /\
  (exists s, run any_exec late_client new_pool = Some s /\
     step (APush 1 0) (sch s) = Stuck /\ PushImmediate (sch s) 1 (Some 1%positive) = Ok (sch s, false) /\
     PushFork (sch s) None (Some 1%positive) = Ok (sch s, false) /\
     PushMain (sch s) (Some 1%positive) = (sch s, false)) /\
  (run (orderly_exec [1; 2]) pinned_run new_pool = Some hung /\ joiners hung !! 0%nat = Some (JThread 1 2) /\
   (tpc <$> threads hung) = [TEnd; TLoop] /\ (task_to_run <$> workers (sch hung)) = [Some 1%positive; None] /\
   forall e s', of_the_pool e = true -> life_step [1; 2] e hung <> Ok s').
Proof.
  split; [by apply goes_wrong_compute; vm_compute|]. split; [by apply goes_wrong_compute; vm_compute|].
  split; [by apply goes_wrong_compute; vm_compute|]. split; [|split].
  - assert (Hf : (fun s => (main s, destructor_joins s, outcome_kind (destroy_members s))) <$>
        run any_exec (start_up ++ [EStop]) new_pool = Some (MDone, false, 2%nat)) by (vm_compute; reflexivity).
    destruct (run any_exec (start_up ++ [EStop]) new_pool) as [s|]; [|discriminate Hf]. injection Hf as H1 H2 H3.
    exists s. split_and!; [done|done|done|by apply kind_stuck].
  - assert (Hf : (fun s => (poolActive (ctl (sch s)), outcome_kind (step (APush 1 0) (sch s)))) <$>
        run any_exec late_client new_pool = Some (false, 2%nat)) by (vm_compute; reflexivity).
    destruct (run any_exec late_client new_pool) as [s|]; [|discriminate Hf]. injection Hf as H1 H2.
    exists s. split; [done|]. split; [by apply kind_stuck|].
    unfold PushImmediate, PushToCore, PushFork, PushMain. by rewrite H1.
  - split; [exact hung_reached|]. split_and!; try reflexivity. intros e s'. apply hung_stays.
Qed.
