(* ===== verification/Dispatch.v ===== *)
(** * Choosing workers and victims

    What [PickNextWorker], [GetTask] and [FastRand] promise: the first free worker
    in round-robin order, a task whenever there is one to steal, low-priority
    work after a window of high-priority steals, and a generator that never gets
    stuck at zero. *)
From S2P Require Import Prelude Task TaskDeque WorkDeque Scheduler Worker PoolSafety Pool.

(** ** Round robin *)

Lemma pick_spec flags next n fuel i :
  length flags = n -> (0 < n)%nat ->
  exists r, pick flags next n fuel i = Ok r /\
    match r with
    | Some idx => exists k, (i <= k < i + fuel)%nat /\ idx = ((next + k) mod n)%nat /\
        flags !! idx = Some false /\
        forall j, (i <= j < k)%nat -> flags !! ((next + j) mod n)%nat = Some true
    | None => forall j, (i <= j < i + fuel)%nat -> flags !! ((next + j) mod n)%nat = Some true
    end.
Proof.
  intros Hf Hn. revert i. induction fuel as [|fuel IH]; intros i; simpl.
  { exists None. split; [done|]. intros; lia. }
  assert (Hlt : (((next + i) mod n) < length flags)%nat) by (rewrite Hf; apply Nat.mod_upper_bound; lia).
  apply lookup_lt_is_Some in Hlt as [b Hb]. unfold at_. rewrite Hb. simpl. destruct b; simpl.
  - destruct (IH (S i)) as (r & Hr & Hs). exists r. split; [done|].
    assert (Hj : forall j, (i <= j)%nat -> j = i \/ (S i <= j)%nat) by lia.
    destruct r as [idx|].
    + destruct Hs as (k & Hk & Hi & Hfr & Ha). exists k. split_and!; try done; [lia..|].
      intros j Hjk. destruct (Hj j) as [->|?]; [lia|done|]. apply Ha. lia.
    + intros j Hjk. destruct (Hj j) as [->|?]; [lia|done|]. apply Hs. lia.
  - eexists. split; [done|]. exists i. split_and!; try done; [lia..|]. intros; lia.
Qed.

Lemma cyclic_cover next n i :
  (next < n)%nat -> (i < n)%nat -> exists j, (j < n)%nat /\ ((next + j) mod n)%nat = i.
Proof.
  intros Hn Hi. destruct (decide (next <= i)%nat).
  - exists (i - next)%nat. split; [lia|]. rewrite Nat.mod_small; lia.
  - exists (i + n - next)%nat. split; [lia|].
    replace (next + (i + n - next))%nat with (i + 1 * n)%nat by lia.
    rewrite Nat.Div0.mod_add. by apply Nat.mod_small.
Qed.

(** ** Stealing scans *)
Section Steal.
Context {D : Type} `{WD : WorkDeque D}.

Definition deques (s : sched D) (hi : bool) : list D := if hi then hiPri (qs s) else loPri (qs s).
Lemma deque_at_eq s hi i : deque_at s hi i = at_ (deques s hi) i.
Proof. by destruct hi. Qed.

(** A scan takes the oldest task of the first non-empty deque in cyclic order. *)
Lemma scan_spec s hi start fuel i n :
  length (deques s hi) = n -> (0 < n)%nat -> Forall (dq_ok 1) (deques s hi) ->
  exists s' r, scan s hi start fuel i = Ok (s', r) /\
    match r with
    | Some x => exists k d d', (i <= k < i + fuel)%nat /\ deques s hi !! ((start + k) mod n)%nat = Some d /\
        dq_elems d = x :: dq_elems d' /\ s' = set_deque s hi ((start + k) mod n)%nat d'
    | None => s' = s /\ forall j, (i <= j < i + fuel)%nat ->
        exists d, deques s hi !! ((start + j) mod n)%nat = Some d /\ dq_elems d = []
    end.
Proof.
  intros Hl Hn Hok. revert i. induction fuel as [|fuel IH]; intros i; simpl.
  { eexists _, None. split; [done|]. split; [done|]. intros; lia. }
  replace (if hi then length (hiPri (qs s)) else length (loPri (qs s))) with n by (by destruct hi).
  assert (Hlt : (((start + i) mod n) < length (deques s hi))%nat) by (rewrite Hl; apply Nat.mod_upper_bound; lia).
  apply lookup_lt_is_Some in Hlt as [d Hd]. rewrite deque_at_eq. unfold at_. rewrite Hd. cbn [mbind outcome_bind].
  pose proof (Forall_lookup_1 _ _ _ _ Hok Hd) as Hd1.
  pose proof (dq_steal_spec 1 d ltac:(lia) Hd1) as Hst. destruct (dq_steal d) as [d' [x|]].
  - eexists _, _. split; [done|]. destruct Hst as (_ & _ & He). exists i, d, d'. split_and!; try done; lia.
  - destruct Hst as (_ & _ & He & ->).
    rewrite set_deque_same by (by rewrite deque_at_eq; apply at_ok).
    destruct (IH (S i)) as (s' & r & Hr & Hs). exists s', r. split; [done|]. destruct r as [x|].
    + destruct Hs as (k & d0 & d0' & Hk & ?). exists k, d0, d0'. split; [lia|done].
    + destruct Hs as [-> Hs]. split; [done|]. intros j Hj. destruct (decide (j = i)) as [->|?]; [by exists d|].
      apply Hs. lia.
Qed.

Lemma scan_all s hi start n :
  length (deques s hi) = n -> (start < n)%nat -> Forall (dq_ok 1) (deques s hi) ->
  exists s' r, scan s hi start n 0 = Ok (s', r) /\
    match r with
    | Some x => exists i d d', deques s hi !! i = Some d /\ dq_elems d = x :: dq_elems d' /\
        s' = set_deque s hi i d'
    | None => s' = s /\ Forall (fun d => dq_elems d = []) (deques s hi)
    end.
Proof.
  intros Hl Hs Hok. destruct (scan_spec s hi start n 0 n Hl ltac:(lia) Hok) as (s' & r & Hr & Hp).
  exists s', r. split; [done|]. destruct r as [x|].
  - destruct Hp as (k & d & d' & _ & ? & ? & ?). by eexists _, d, d'.
  - destruct Hp as [-> Hp]. split; [done|]. apply Forall_lookup. intros i d Hd.
    assert (Hi : (i < n)%nat) by (apply lookup_lt_Some in Hd; lia).
    destruct (cyclic_cover start n i Hs Hi) as (j & Hj & <-). destruct (Hp j ltac:(lia)) as (d0 & Hd0 & ?).
    congruence.
Qed.

(** The deques' state when a helper steals. *)
Record stealable (s : sched D) (n : nat) : Prop := {
  st_n : (0 < n)%nat;
  st_hi : length (hiPri (qs s)) = n;
  st_lo : length (loPri (qs s)) = n;
  st_hi_ok : Forall (dq_ok 1) (hiPri (qs s));
  st_lo_ok : Forall (dq_ok 1) (loPri (qs s));
  st_count : 0 <= consecutiveHiPriSteals (ctl s) <= kStealFairnessWindow
}.

Lemma get_lo_spec s r2 n :
  stealable s n ->
  exists s' r, get_lo s r2 = Ok (s', r) /\ consecutiveHiPriSteals (ctl s') = 0 /\ hiPri (qs s') = hiPri (qs s) /\
    ((exists i d d', loPri (qs s) !! i = Some d /\ dq_elems d = r :: dq_elems d' /\
        loPri (qs s') = <[i := d']> (loPri (qs s))) \/
     (r = None /\ loPri (qs s') = loPri (qs s) /\ Forall (fun d => dq_elems d = []) (loPri (qs s)))).
Proof.
  intros [Hn Hh Hl Hho Hlo Hc]. unfold get_lo. cbv zeta. simpl qs. rewrite Hl. rewrite decide_False by lia.
  destruct (scan_all (set_steals s 0) false (r2 mod n)%nat n Hl) as (s' & r & -> & Hp);
    [apply Nat.mod_upper_bound; lia|done|]. cbn [mbind outcome_bind].
  destruct r as [x|].
  - destruct Hp as (i & d & d' & Hd & He & ->). eexists _, _. split; [done|]. split_and!; try done.
    left. by exists i, d, d'.
  - destruct Hp as [-> Hp]. eexists _, _. split; [done|]. split_and!; try done. by right.
Qed.

(** ** Properties *)

(** [PickNextWorker] returns the first worker in round-robin order from
    [nextWorker] whose core is not taken, and moves [nextWorker] behind it; only
    if every core is taken does it return a taken one.  So with at most 256
    workers a push finds its worker at the first try and spins only while every
    core is taken. *)
Theorem pick_next_worker_round_robin (s : sched D) n :
  length (workers s) = n -> length (immediateCoresInUse s) = n -> (nextWorker (ctl s) < n)%nat -> (n <= 256)%nat ->
  exists idx, (idx < n)%nat /\ PickNextWorker s = Ok (idx, set_nextWorker s ((idx + 1) mod n)%nat) /\
    ((exists k, (k < n)%nat /\ idx = ((nextWorker (ctl s) + k) mod n)%nat /\
        immediateCoresInUse s !! idx = Some false /\
        (forall j, (j < k)%nat -> immediateCoresInUse s !! ((nextWorker (ctl s) + j) mod n)%nat = Some true) /\
        pick_free s = Ok (idx, set_nextWorker s ((idx + 1) mod n)%nat)) \/
     ((forall i, (i < n)%nat -> immediateCoresInUse s !! i = Some true) /\ pick_free s = Blocked)).
Proof.
  intros Hw Hf Hn Hm. unfold pick_free, PickNextWorker. rewrite Hw.
  destruct (pick_spec (immediateCoresInUse s) (nextWorker (ctl s)) n n 0 Hf ltac:(lia)) as (r & -> & Hp).
  assert (Hu : forall i, (i < n)%nat -> Z.to_nat (u8 (Z.of_nat i)) = i)
    by (intros i Hi; unfold u8; rewrite Z.mod_small by lia; apply Nat2Z.id).
  cbn [mbind outcome_bind]. destruct r as [idx|].
  - destruct Hp as (k & Hk & Hi & Hfr & Ha). exists idx.
    assert (Hlt : (idx < n)%nat) by (subst idx; apply Nat.mod_upper_bound; lia).
    split; [done|]. split; [done|]. left. exists k. split_and!; try done; [lia|intros; apply Ha; lia|].
    cbn [mbind outcome_bind]. rewrite Hu by done. unfold at_. simpl immediateCoresInUse. by rewrite Hfr.
  - rewrite decide_False by lia. exists (nextWorker (ctl s)). split; [done|]. split; [done|]. right.
    assert (Hall : forall i, (i < n)%nat -> immediateCoresInUse s !! i = Some true).
    { intros i Hi. destruct (cyclic_cover _ n i Hn Hi) as (j & Hj & <-). apply Hp. lia. }
    split; [done|]. cbn [mbind outcome_bind]. rewrite Hu by done. unfold at_. simpl immediateCoresInUse.
    by rewrite Hall.
Qed.

(** [GetTask] returns nothing only if every low-priority deque is empty, and
    the high-priority ones too unless it was forced to skip them; a
    high-priority steal is counted, any scan of the low-priority deques resets
    the count, and after eight the next call leaves the high-priority deques
    alone, so a stream of high-priority work cannot starve the rest. *)
Theorem get_task_is_fair (s : sched D) n r1 r2 :
  stealable s n ->
  exists s' r, GetTask s r1 r2 = Ok (s', r) /\
    0 <= consecutiveHiPriSteals (ctl s') <= kStealFairnessWindow /\
    (consecutiveHiPriSteals (ctl s) = kStealFairnessWindow -> hiPri (qs s') = hiPri (qs s)) /\
    ((hiPri (qs s') = hiPri (qs s) /\ consecutiveHiPriSteals (ctl s') = 0 /\
      (consecutiveHiPriSteals (ctl s) = kStealFairnessWindow \/ Forall (fun d => dq_elems d = []) (hiPri (qs s))) /\
      ((exists i d d', loPri (qs s) !! i = Some d /\ dq_elems d = r :: dq_elems d' /\
          loPri (qs s') = <[i := d']> (loPri (qs s))) \/
       (r = None /\ Forall (fun d => dq_elems d = []) (loPri (qs s))))) \/
     (loPri (qs s') = loPri (qs s) /\
      consecutiveHiPriSteals (ctl s') = consecutiveHiPriSteals (ctl s) + 1 /\
      exists i d d', hiPri (qs s) !! i = Some d /\ dq_elems d = r :: dq_elems d' /\
        hiPri (qs s') = <[i := d']> (hiPri (qs s)))).
Proof.
  intros Hst. pose proof Hst as [Hn Hh Hl Hho Hlo Hc]. unfold GetTask.
  assert (Hk : kStealFairnessWindow = 8) by done.
  destruct (Z.leb_spec kStealFairnessWindow (consecutiveHiPriSteals (ctl s))) as [Hf|Hf].
  - destruct (get_lo_spec s r2 n Hst) as (s' & r & -> & H0 & Hhi & Hr). exists s', r.
    split_and!; try done; [lia..|]. left. split_and!; try done; [left; lia|].
    destruct Hr as [?|(? & _ & ?)]; [by left|by right].
  - rewrite Hh. rewrite decide_False by lia.
    destruct (scan_all s true (r1 mod n)%nat n Hh) as (s1 & x & -> & Hp);
      [apply Nat.mod_upper_bound; lia|done|]. cbn [mbind outcome_bind]. destruct x as [x|].
    + destruct Hp as (i & d & d' & Hd & He & ->). eexists _, _. split; [done|]. simpl.
      split_and!; try lia. right. split_and!; try done. by exists i, d, d'.
    + destruct Hp as [-> Hp]. destruct (get_lo_spec s r2 n Hst) as (s' & r & -> & H0 & Hhi & Hr).
      exists s', r. split_and!; try done; [lia..|]. left. split_and!; try done; [by right|].
      destruct Hr as [?|(? & _ & ?)]; [by left|by right].
Qed.
End Steal.

(** ** [FastRand] *)

Lemma high_bits_zero a n i : 0 <= n <= i -> 0 <= a < 2 ^ n -> Z.testbit a i = false.
Proof. intros Hi Ha. rewrite <- (Z.mod_small a (2 ^ n)) by done. by apply Z.mod_pow2_bits_high. Qed.

Lemma lxor_range a b n : 0 <= n -> 0 <= a < 2 ^ n -> 0 <= b < 2 ^ n -> 0 <= Z.lxor a b < 2 ^ n.
Proof.
  intros Hn Ha Hb. assert (Z.lxor a b = Z.lxor a b mod 2 ^ n) as ->.
  { apply Z.bits_inj'. intros i Hi. rewrite Z.testbit_mod_pow2 by done. destruct (Z.ltb_spec i n); [done|].
    rewrite Z.lxor_spec, (high_bits_zero a n), (high_bits_zero b n) by done. done. }
  apply Z.mod_pos_bound, Z.pow_pos_nonneg; lia.
Qed.

(** [x ^= x << k] and [x ^= x >> k] lose nothing. *)
Lemma xor_shl_nonzero x k : 0 < k < 32 -> Z.gcd (2 ^ 32) (2 ^ k - 1) = 1 -> 0 < x < 2 ^ 32 -> 0 < Z.lxor x (u32 (Z.shiftl x k)) < 2 ^ 32.
Proof.
  intros Hk Hg Hx. unfold u32. rewrite Z.shiftl_mul_pow2 by lia.
  assert (Hm := Z.mod_pos_bound (x * 2 ^ k) (2 ^ 32) ltac:(lia)).
  assert (Hr := lxor_range x ((x * 2 ^ k) mod 2 ^ 32) 32 ltac:(lia) ltac:(lia) Hm).
  enough (Z.lxor x ((x * 2 ^ k) mod 2 ^ 32) <> 0) by lia. intros He%Z.lxor_eq.
  assert (Hd : (2 ^ 32 | (2 ^ k - 1) * x)).
  { exists (x * 2 ^ k / 2 ^ 32). pose proof (Z.div_mod (x * 2 ^ k) (2 ^ 32) ltac:(lia)) as H.
    rewrite <- He in H. rewrite Z.mul_sub_distr_r. lia. }
  apply Z.gauss in Hd; [|done]. apply Z.divide_pos_le in Hd; lia.
Qed.

Lemma xor_shr_nonzero x k : 0 < k -> 0 < x < 2 ^ 32 -> 0 < Z.lxor x (Z.shiftr x k) < 2 ^ 32.
Proof.
  intros Hk Hx. rewrite Z.shiftr_div_pow2 by lia.
  assert (0 <= x / 2 ^ k < x) by (split; [apply Z.div_pos; lia|apply Z.div_lt; [lia|]; apply Z.pow_gt_1; lia]).
  assert (Hr := lxor_range x (x / 2 ^ k) 32 ltac:(lia) ltac:(lia) ltac:(lia)).
  enough (Z.lxor x (x / 2 ^ k) <> 0) by lia. intros He%Z.lxor_eq. lia.
Qed.

(** [FastRand] maps a non-zero 32-bit state to a non-zero 32-bit state: from
    its non-zero seed the generator never falls into the fixed point 0, which
    would make every thief probe the same victim for ever. *)
Theorem fast_rand_never_sticks x : 0 < x < 2 ^ 32 -> 0 < FastRand x < 2 ^ 32.
Proof.
  intros Hx. unfold FastRand. apply xor_shl_nonzero; [done|reflexivity|].
  apply xor_shr_nonzero; [done|]. apply xor_shl_nonzero; done.
Qed.

Lemma fast_rand_never_sticks_witness : FastRand 1 = 270369 /\ 0 < FastRand 1 < 2 ^ 32.
Proof. split; [reflexivity|]. apply (fast_rand_never_sticks 1). lia. Defined.

(** Worker 0 is taken: worker 1 is chosen. *)
Lemma pick_next_worker_round_robin_witness :
  PickNextWorker (set_flag start2 0 true) = Ok (1%nat, set_nextWorker (set_flag start2 0 true) 0) /\
  exists idx, (idx < 2)%nat /\ PickNextWorker (set_flag start2 0 true) =
    Ok (idx, set_nextWorker (set_flag start2 0 true) ((idx + 1) mod 2)%nat).
Proof.
  split; [vm_compute; reflexivity|].
  destruct (pick_next_worker_round_robin (set_flag start2 0 true) 2) as (idx & H1 & H2 & _);
    [reflexivity|reflexivity|cbn; lia|lia|]. exists idx. split; [exact H1|exact H2].
Defined.

(** After eight high-priority steals, with work of both priorities. *)
Definition d5 : deque := fst (push_bottom d8 (Some 5%positive)).
Definition d6 : deque := fst (push_bottom d8 (Some 6%positive)).
Definition starving : sched deque :=
  set_steals (set_deque (set_deque start2 true 0 d5) false 1 d6) 8.

Lemma pushed_ok t : dq_ok 1 (fst (push_bottom d8 (Some t))).
Proof.
  pose proof (dq_push_bottom_spec 1 d8 t ltac:(lia) (d8_ok 2 ltac:(lia))) as H.
  change (push_bottom d8 (Some t)) with (dq_push_bottom d8 (Some t)).
  destruct (dq_push_bottom d8 (Some t)). apply H.
Qed.

Lemma starving_stealable : stealable starving 2.
Proof.
  assert (Hd : dq_ok 1 d8) by (apply d8_ok; lia).
  constructor; try done; simpl; [lia|..]; repeat constructor; try apply Hd; try apply pushed_ok.
Qed.

Lemma get_task_is_fair_witness :
  (snd <$> returns (GetTask starving 0 0)) = Some (Some 6%positive) /\
  exists s' r, GetTask starving 0 0 = Ok (s', r) /\ hiPri (qs s') = hiPri (qs starving).
Proof.
  split; [vm_compute; reflexivity|].
  destruct (get_task_is_fair starving 2 0 0 starving_stealable) as (s' & r & H & _ & Hh & _).
  exists s', r. split; [exact H|]. apply Hh. reflexivity.
Defined.
