(* ===== verification/MainThread.v ===== *)
(** * The main thread's queue and its waiter

    [ProcessMainThread] and [WaitForMain] of [src/TaskScheduler.cpp]: tasks pushed
    with [PushMain] run on the main thread, in order, and a main thread that waits
    for a group of them returns. *)
From S2P Require Import Prelude Task TaskDeque WorkDeque Scheduler Worker PoolSafety Pool.

(** A task that leaves a group in which nobody has announced a waiter. *)
Lemma complete_quiet n : 0 <= n <= COUNT_MASK -> complete n = (n - 1, false).
Proof.
  intros Hn. unfold complete. pose proof (counter_flag n false Hn) as H. unfold counter in H. rewrite Z.add_0_r in H.
  by rewrite H, andb_false_r.
Qed.

Section MainThread.
Context {D : Type} `{WD : WorkDeque D}.

(** [ts] are live tasks of group [g]. *)
Definition tasks_of (s : sched D) (g : ptr) (ts : list ptr) : Prop :=
  Forall (fun t => exists tk, tasks (obj s) !! t = Some tk /\ waitGroup tk = Some g) ts.

(** What running the tasks [ts] of group [g] from the main queue leaves: the rest
    of the scheduler is as it was. *)
Record ran_main (s : sched D) (g : ptr) (ts : list ptr) (s' : sched D) : Prop := {
  rm_queue : mainQ (qs s') = [];
  rm_pool : pool s' = pool s;
  rm_ctl : ctl s' = ctl s;
  rm_workers : workers s' = workers s;
  rm_done : completed (gh s') = rev ts ++ completed (gh s);
  rm_freed : forall t, tasks (obj s') !! t = if decide (t ∈ ts) then None else tasks (obj s) !! t
}.

Lemma process_main_spec g ts s c w :
  mainQ (qs s) = ts -> NoDup ts -> tasks_of s g ts ->
  waitGroups (obj s) !! g = Some (mk_wait_group c w) -> Z.of_nat (length ts) <= c <= COUNT_MASK ->
  exists s', process_main (length ts) s = Ok s' /\ ran_main s g ts s' /\
    waitGroups (obj s') !! g = Some (mk_wait_group (c - Z.of_nat (length ts)) w).
Proof.
  revert s c. induction ts as [|t ts IH]; intros s c Hq Hnd Hts Hg Hc; cbn [process_main length].
  { exists s. split; [done|]. split; [|by rewrite Z.sub_0_r]. constructor; try done. }
  apply NoDup_cons in Hnd as [Hnin Hnd]. apply Forall_cons in Hts as [(tk & Htk & Hwg) Hts].
  unfold process_main_one. rewrite Hq. unfold deref. cbn [set_mainQ set_qs obj]. rewrite Htk. cbn [mbind outcome_bind].
  unfold complete_wait. rewrite Hwg. unfold deref. cbn [set_mainQ set_qs obj]. rewrite Hg. cbn [mbind outcome_bind n].
  rewrite complete_quiet by (cbn [length] in Hc; lia). cbn [mbind outcome_bind].
  match goal with |- context [process_main _ ?x] => set (s1 := x) end.
  destruct (IH s1 (c - 1)) as (s' & Hr & [R1 R2 R3 R4 R5 R6] & Hg').
  - done.
  - done.
  - apply Forall_forall. intros x Hx. unfold tasks_of in Hts. rewrite Forall_forall in Hts. destruct (Hts x Hx) as (tx & H1 & H2).
    exists tx. cbn. rewrite lookup_delete_ne; [done|]. by intros ->.
  - cbn. by rewrite lookup_insert_eq.
  - cbn [length] in Hc. lia.
  - exists s'. split; [done|]. split; [|rewrite Hg'; do 2 f_equal; cbn [length]; lia]. constructor; try done.
    + rewrite R5. cbn. by rewrite <- app_assoc.
    + intros x. rewrite R6. cbn. destruct (decide (x = t)) as [->|Hne].
      * rewrite lookup_delete_eq. rewrite (decide_True (P := t ∈ t :: ts)) by left. by case_decide.
      * rewrite lookup_delete_ne by done. destruct (decide (x ∈ ts)) as [Hin|Hin].
        -- rewrite (decide_True (P := x ∈ t :: ts)); [done|by right].
        -- rewrite (decide_False (P := x ∈ t :: ts)); [done|]. by intros [?|?]%elem_of_cons.
Qed.

(** [WaitForMain] on a group whose unfinished tasks are all on the main thread's
    queue, and behind which nobody else waits, returns after one round: the tasks
    have run in the order they were pushed, once each, and have been freed; the
    group is finished and the pool is as it was.  After [Join] it never returns
    while the group is unfinished, because [ProcessMainThread] does nothing. *)
Theorem wait_for_main_returns s g ts w :
  mainQ (qs s) = ts -> NoDup ts -> tasks_of s g ts ->
  waitGroups (obj s) !! g = Some (mk_wait_group (Z.of_nat (length ts)) w) -> Z.of_nat (length ts) <= COUNT_MASK ->
  (poolActive (ctl s) = true ->
   exists s', WaitForMain 2 s g = Ok s' /\ ran_main s g ts s' /\ waitGroups (obj s') !! g = Some (mk_wait_group 0 w)) /\
  (poolActive (ctl s) = false -> ts <> [] -> forall fuel, WaitForMain fuel s g = Blocked).
Proof.
  intros Hq Hnd Hts Hg Hc. split.
  - intros Hact. destruct (process_main_spec g ts s _ w Hq Hnd Hts Hg ltac:(lia)) as (s' & Hr & Hran & Hg').
    rewrite Z.sub_diag in Hg'. exists s'. split_and!; try done. cbn [WaitForMain]. unfold deref. rewrite Hg. cbn [mbind outcome_bind n].
    unfold keeps_spinning. destruct (Z.ltb_spec 0 (Z.of_nat (length ts))) as [Hlt|Hle].
    + unfold ProcessMainThread. rewrite Hact, Hq, Hr. cbn [mbind outcome_bind]. by rewrite Hg'.
    + destruct ts; [|cbn [length] in Hle; lia]. simpl in Hr. by injection Hr as ->.
  - intros Hact Hne fuel. induction fuel as [|fuel IH]; [done|]. cbn [WaitForMain]. unfold deref. rewrite Hg. cbn [mbind outcome_bind n].
    unfold keeps_spinning. rewrite (proj2 (Z.ltb_lt _ _)) by (destruct ts; [done|cbn [length]; lia]).
    unfold ProcessMainThread. rewrite Hact. exact IH.
Qed.
End MainThread.

(** Two tasks of a group on the main queue of a pool of two workers. *)
Definition main_tasks : sched deque :=
  default start2 (run exec [ANewGroup 90; ACreate 1 fast_job; ACreate 2 fast_job; APushMain 1; APushMain 2]%positive start2).
Definition in_group (s : sched deque) : sched deque :=
  set_groups (set_tasks s ((fun tk => set_waitGroup tk (Some 90%positive)) <$> tasks (obj s)))
    (<[90%positive := mk_wait_group 2 []]> (waitGroups (obj s))).

Lemma wait_for_main_returns_witness :
  exists s', WaitForMain 2 (in_group main_tasks) 90%positive = Ok s' /\ completed (gh s') = [2; 1]%positive.
Proof.
  destruct (proj1 (wait_for_main_returns (in_group main_tasks) 90%positive [1; 2]%positive [] ltac:(vm_compute; reflexivity)
    ltac:(apply (bool_decide_unpack _); vm_compute; exact Logic.I)
    ltac:(repeat constructor; eexists; split; vm_compute; reflexivity)
    ltac:(vm_compute; reflexivity) ltac:(vm_compute; discriminate)) ltac:(vm_compute; reflexivity)) as (s' & Hw & [_ _ _ _ Hd _] & _).
  exists s'. split; [exact Hw|]. rewrite Hd. vm_compute. reflexivity.
Defined.
