(* ===== verification/WorkerSleep.v ===== *)
(** * How a worker falls asleep and is woken
      ([Thread::Worker], [NotifyWorker], [SetImmediateTask], [Join] of
      [src/Thread.cpp]; [MarkQueuedWork] of [include/Thread.h];
      [TaskScheduler::PushToCore])

    One worker and any number of signalers, one access to a shared location per
    step.  A signaler pushes to an inbox of the worker, hands it an immediate task,
    stops it or unpauses the pool, and then calls [NotifyWorker].  An inbox is
    the list of its nodes in exchange order, each with its link stored or not; as
    [TaskMPSCQueue::pop] does, the worker only gets a node when its link and the
    next node's are stored.  Whether the worker finds a task on a deque (its own,
    another's, or the one it has just put a batch on) is an input of its step. *)
From S2P Require Import Prelude.

Definition BATCH_SIZE : nat := 64.

Inductive worker_pc :=
  | WTop                 (* about to clear hasQueuedWork, then run the task it has *)
  | WImm                 (* section 2: about to look at immediateTask *)
  | WLocal               (* sections 3 and 4: its deques, those of others *)
  | WPop (fork hi : bool) (k : nat)   (* draining an inbox, k nodes so far; fork: for section 2 *)
  | WBatch (hi : bool)   (* the batch goes to the deque: about to pop it *)
  | WTake                (* inboxes requeued, about to take immediateTask *)
  | WTook (t : option nat)   (* taken, about to clear immediate *)
  | WRun (t : option nat)    (* running the immediate task *)
  | WLock                (* found nothing: about to lock workerMutex *)
  | WPred                (* holds it, about to evaluate the predicate *)
  | WWait                (* evaluated to false: about to block and release *)
  | WBlocked             (* in cv.wait *)
  | WWoken               (* notified: about to lock workerMutex again *)
  | WExit.

Inductive signal_pc :=
  | SIdle
  | SLink (hi : bool)    (* push: exchanged, link not stored *)
  | SMark                (* pushed: about to store hasQueuedWork *)
  | SClaim               (* PushToCore: loaded the core's mark, about to store it *)
  | SGive                (* stored: about to store immediateTask *)
  | SImmStore            (* immediateTask stored: about to store immediate *)
  | SImmNotify           (* SetImmediateTask's own notify_one *)
  | SLock                (* NotifyWorker: about to lock workerMutex *)
  | SUnlock
  | SNotify.             (* about to notify_one *)

Inductive owner := ByWorker | BySignaler (i : nat).

(** [immediateTask]: the signaler whose task it is.  [cut hi], history: whether the
    worker's last drain of that inbox ended because the batch was full. *)
Record state := mk_state {
  inbox : bool -> list (nat * bool);
  hasQueuedWork : bool;
  immediateTask : option nat;
  immediate : bool;
  coreInUse : bool;          (* immediateCoresInUse of this worker *)
  paused : bool;
  running : bool;
  mutex : option owner;
  cut : bool -> bool;
  wpc : worker_pc;
  signalers : nat -> signal_pc
}.

Definition set_wpc (s : state) (p : worker_pc) : state :=
  mk_state (inbox s) (hasQueuedWork s) (immediateTask s) (immediate s) (coreInUse s) (paused s)
    (running s) (mutex s) (cut s) p (signalers s).
Definition set_mutex (s : state) (m : option owner) : state :=
  mk_state (inbox s) (hasQueuedWork s) (immediateTask s) (immediate s) (coreInUse s) (paused s)
    (running s) m (cut s) (wpc s) (signalers s).
Definition set_sig (s : state) (i : nat) (p : signal_pc) : state :=
  mk_state (inbox s) (hasQueuedWork s) (immediateTask s) (immediate s) (coreInUse s) (paused s)
    (running s) (mutex s) (cut s) (wpc s) (upd (signalers s) i p).
(** One of the two inboxes, by priority. *)
Definition upd_pri {A} (f : bool -> A) (hi : bool) (x : A) : bool -> A := fun h => if eqb h hi then x else f h.
Definition set_inbox (s : state) (hi : bool) (l : list (nat * bool)) : state :=
  mk_state (upd_pri (inbox s) hi l) (hasQueuedWork s) (immediateTask s) (immediate s) (coreInUse s) (paused s)
    (running s) (mutex s) (cut s) (wpc s) (signalers s).
Definition set_cut (s : state) (hi b : bool) : state :=
  mk_state (inbox s) (hasQueuedWork s) (immediateTask s) (immediate s) (coreInUse s) (paused s)
    (running s) (mutex s) (upd_pri (cut s) hi b) (wpc s) (signalers s).
Definition set_marked (s : state) (b : bool) : state :=
  mk_state (inbox s) b (immediateTask s) (immediate s) (coreInUse s) (paused s)
    (running s) (mutex s) (cut s) (wpc s) (signalers s).
Definition set_imm (s : state) (t : option nat) (i c : bool) : state :=
  mk_state (inbox s) (hasQueuedWork s) t i c (paused s) (running s) (mutex s) (cut s) (wpc s) (signalers s).
Definition set_run (s : state) (p r : bool) : state :=
  mk_state (inbox s) (hasQueuedWork s) (immediateTask s) (immediate s) (coreInUse s) p
    r (mutex s) (cut s) (wpc s) (signalers s).

(** What [pop] sees: the first node, unless its link or the next one is missing. *)
Definition poppable (l : list (nat * bool)) : bool :=
  match l with
  | [] => false
  | [(_, b)] => b
  | (_, b) :: (_, b') :: _ => b && b'
  end.

(** The predicate of [cv.wait]. *)
Definition predicate (s : state) : bool :=
  negb (running s) || immediate s || (negb (paused s) && hasQueuedWork s).

(** What follows the end of a drain that has taken [k] nodes. *)
Definition drained (fork hi : bool) (k : nat) : worker_pc :=
  if fork then (if hi then WPop true false 0 else WTake)
  else if (k =? 0)%nat then (if hi then WPop false false 0 else WLock)
  else WBatch hi.

(** [found]: whether the deques of this step have a task for the worker; for
    [WBatch], whether the deque took the batch and thieves left one of its tasks;
    for [WRun], whether there was a fiber for the task if it needs one. *)
Definition worker_step (found : bool) (s : state) : option state :=
  match wpc s with
  | WTop => if running s then Some (set_wpc (set_marked s false) WImm) else Some (set_wpc s WExit)
  | WImm => Some (set_wpc s match immediateTask s with Some _ => WPop true true 0 | None => WLocal end)
  | WLocal => Some (set_wpc s (if found then WTop else WPop false true 0))
  | WPop fork hi k =>
      if (k <? BATCH_SIZE)%nat && poppable (inbox s hi)
      then Some (set_wpc (set_inbox s hi (tail (inbox s hi))) (WPop fork hi (S k)))
      else Some (set_wpc (set_cut s hi (k =? BATCH_SIZE)%nat) (drained fork hi k))
  | WBatch hi => Some (set_wpc s (if found then WTop else if hi then WPop false false 0 else WLock))
  | WTake => Some (set_wpc (set_imm s None (immediate s) (coreInUse s)) (WTook (immediateTask s)))
  | WTook t => Some (set_wpc (set_imm s (immediateTask s) false (coreInUse s)) (WRun t))
  | WRun None => Some (set_wpc s WTop)
  | WRun (Some t) =>
      Some (set_wpc (if found then set_imm s (immediateTask s) (immediate s) false
                     else set_imm s (Some t) true (coreInUse s)) WTop)
  | WLock | WWoken =>
      match mutex s with
      | None => Some (set_wpc (set_mutex s (Some ByWorker)) WPred)
      | Some _ => None
      end
  | WPred =>
      if predicate s then
        Some (set_wpc (set_mutex s None) (if running s then WTop else WExit))
      else Some (set_wpc s WWait)
  | WWait => Some (set_wpc (set_mutex s None) WBlocked)
  | WBlocked | WExit => None
  end.

Definition notify_one (s : state) : state :=
  match wpc s with WBlocked => set_wpc s WWoken | _ => s end.

(** The node of signaler [i] gets its link. *)
Definition link_node (i : nat) (l : list (nat * bool)) : list (nat * bool) :=
  (fun x => if decide (x.1 = i) then (i, true) else x) <$> l.

Definition signal_step (i : nat) (s : state) : option state :=
  match signalers s i with
  | SIdle => None
  | SLink hi => Some (set_sig (set_inbox s hi (link_node i (inbox s hi))) i SMark)
  | SMark => Some (set_sig (set_marked s true) i SLock)
  | SClaim => Some (set_sig (set_imm s (immediateTask s) (immediate s) true) i SGive)
  | SGive => Some (set_sig (set_imm s (Some i) (immediate s) (coreInUse s)) i SImmStore)
  | SImmStore => Some (set_sig (set_imm s (immediateTask s) true (coreInUse s)) i SImmNotify)
  | SImmNotify => Some (set_sig (notify_one s) i SLock)
  | SLock =>
      match mutex s with
      | None => Some (set_sig (set_mutex s (Some (BySignaler i))) i SUnlock)
      | Some _ => None
      end
  | SUnlock => Some (set_sig (set_mutex s None) i SNotify)
  | SNotify => Some (set_sig (notify_one s) i SIdle)
  end.

Inductive kind := KPush (hi : bool) | KImmediate | KStop | KUnpause.

Inductive action := Worker (found : bool) | Spurious | Call (i : nat) (k : kind) | Signal (i : nat) | Pause.

(** [KImmediate]: [PushToCore] loads the mark of the core, and returns false if it
    is set. *)
Definition exec (a : action) (s : state) : option state :=
  match a with
  | Worker found => worker_step found s
  | Spurious => match wpc s with WBlocked => Some (set_wpc s WWoken) | _ => None end
  | Call i k =>
      match signalers s i with
      | SIdle =>
          match k with
          | KPush hi => Some (set_sig (set_inbox s hi (inbox s hi ++ [(i, false)])) i (SLink hi))
          | KImmediate => Some (if coreInUse s then s else set_sig s i SClaim)
          | KStop => Some (set_sig (set_run s (paused s) false) i SLock)
          | KUnpause => Some (set_sig (set_run s false (running s)) i SLock)
          end
      | _ => None
      end
  | Signal i => signal_step i s
  | Pause => Some (set_run s true (running s))
  end.

Definition init : state :=
  mk_state (fun _ => []) false None false false false true None (fun _ => false) WTop (fun _ => SIdle).

(** ** The invariant *)

(** The worker has drained this inbox and will not look at it again before it can
    sleep. *)
Definition passed (p : worker_pc) (hi : bool) : bool :=
  match p with
  | WPop false false _ | WBatch true => hi
  | WBatch false | WLock | WPred | WWait | WBlocked | WWoken => true
  | _ => false
  end.
(** It has looked at [immediateTask]. *)
Definition passed_imm (p : worker_pc) : bool :=
  match p with
  | WLocal | WPop false _ _ | WBatch _ | WLock | WPred | WWait | WBlocked | WWoken => true
  | _ => false
  end.
Definition to_mark (p : signal_pc) : Prop := (exists hi, p = SLink hi) \/ p = SMark.
(** A notification that cannot miss the worker. *)
Definition to_notify (p : signal_pc) : Prop := p = SLock \/ p = SUnlock \/ p = SNotify \/ p = SImmNotify.

Record inv (s : state) : Prop := mk_inv {
  inv_unlinked : forall hi i, (i, false) ∈ inbox s hi -> signalers s i = SLink hi;
  inv_queue : forall hi, passed (wpc s) hi = true -> inbox s hi <> [] ->
    (hasQueuedWork s = true \/ cut s hi = true) \/ exists i, to_mark (signalers s i);
  inv_imm : passed_imm (wpc s) = true -> immediateTask s <> None ->
    immediate s = true \/ exists i, signalers s i = SImmStore;
  inv_batch : forall fork hi k, wpc s = WPop fork hi k -> (k <= BATCH_SIZE)%nat;
  inv_mutex : (wpc s = WPred \/ wpc s = WWait) <-> mutex s = Some ByWorker;
  inv_unlock : forall i, signalers s i = SUnlock <-> mutex s = Some (BySignaler i);
  inv_wait : wpc s = WWait -> predicate s = true ->
    exists i, signalers s i = SLock \/ signalers s i = SImmNotify;
  inv_blocked : wpc s = WBlocked -> predicate s = true -> exists i, to_notify (signalers s i)
}.

(** Some signaler is still as it was after signaler [i] has moved. *)
Lemma upd_ex_old {A} (P : A -> Prop) (f : nat -> A) i p :
  (exists j, P (f j)) -> (P (f i) -> P p) -> exists j, P (upd f i p j).
Proof.
  intros [j Hj] Hi. exists j. destruct (upd_cases f i j p) as [[<- ->]|[_ ->]]; auto.
Qed.
Lemma upd_ex_new {A} (P : A -> Prop) (f : nat -> A) i p : P p -> exists j, P (upd f i p j).
Proof. intros. exists i. by rewrite upd_eq. Qed.

Lemma poppable_false l : l <> [] -> poppable l = false -> exists i, (i, false) ∈ l.
Proof.
  destruct l as [|[i b] [|[j b'] l]]; simpl; [done| |]; intros _.
  - intros ->. exists i. by left.
  - destruct b; simpl; [intros ->; exists j; by right; left|intros _; exists i; by left].
Qed.

Lemma elem_of_tail_in {A} (x : A) l : x ∈ tail l -> x ∈ l.
Proof. destruct l; [done|by right]. Qed.

Lemma link_node_false i j l : (j, false) ∈ link_node i l -> j <> i /\ (j, false) ∈ l.
Proof.
  unfold link_node. rewrite list_elem_of_fmap. intros ([k b] & He & Hin). simpl in He.
  case_decide; [done|]. injection He as -> ->. done.
Qed.

Lemma link_node_nil i l : link_node i l = [] <-> l = [].
Proof. destruct l; done. Qed.

(** The easy parts of the invariant after a step. *)
Ltac sleep_auto :=
  intros; unfold predicate, passed, passed_imm in *; simpl in *; try discriminate; try congruence; auto;
  try solve [intuition (congruence || eauto)].

Lemma upd_pri_cases {A} (f : bool -> A) hi x h : (h = hi /\ upd_pri f hi x h = x) \/ (h <> hi /\ upd_pri f hi x h = f h).
Proof. unfold upd_pri. destruct h, hi; simpl; auto. Qed.

(** The worker is at a point where it has no lock and is not blocked. *)
Definition searching (p : worker_pc) : Prop := p <> WPred /\ p <> WWait /\ p <> WBlocked.

(** What the invariant asks of an inbox that has been drained. *)
Definition left_over (s : state) (hi : bool) : Prop :=
  inbox s hi <> [] -> (hasQueuedWork s = true \/ cut s hi = true) \/ exists i, to_mark (signalers s i).

Lemma inv_worker_move s p : inv s -> searching (wpc s) -> searching p ->
  (forall hi, passed p hi = true -> passed (wpc s) hi = true \/ left_over s hi) ->
  (passed_imm p = true -> passed_imm (wpc s) = true \/ immediateTask s = None) ->
  (forall fork hi k, p = WPop fork hi k -> (k <= BATCH_SIZE)%nat) -> inv (set_wpc s p).
Proof.
  intros [Hu Hq Hi Hn Hm Hk Hw Hb] (S1 & S2 & S3) (P1 & P2 & P3) HP HI HN. constructor; simpl; try done.
  - intros hi H. destruct (HP hi H) as [H'|H']; [by apply Hq|exact H'].
  - intros H Hne. destruct (HI H) as [H'|H']; [by apply Hi|done].
  - rewrite <- Hm. tauto.
Qed.

Lemma inv_set_imm s t i c : inv s -> (passed_imm (wpc s) = true -> t <> None -> i = true \/ exists j, signalers s j = SImmStore) ->
  searching (wpc s) -> inv (set_imm s t i c).
Proof. intros [Hu Hq Hi Hn Hm Hk Hw Hb] Ht (S1 & S2 & S3). by constructor. Qed.

Lemma inv_set_cut s hi b : inv s -> passed (wpc s) hi = false -> inv (set_cut s hi b).
Proof.
  intros [Hu Hq Hi Hn Hm Hk Hw Hb] Hp. constructor; simpl; try done. intros h H Hne.
  destruct (upd_pri_cases (cut s) hi b h) as [[-> _]|[_ ->]]; [congruence|by apply Hq].
Qed.
Lemma inv_pop s hi : inv s -> passed (wpc s) hi = false -> inv (set_inbox s hi (tail (inbox s hi))).
Proof.
  intros [Hu Hq Hi Hn Hm Hk Hw Hb] Hp. constructor; simpl; try done; intros h.
  - intros i. destruct (upd_pri_cases (inbox s) hi (tail (inbox s hi)) h) as [[-> ->]|[_ ->]]; [|apply Hu].
    intros H. by apply Hu, elem_of_tail_in.
  - destruct (upd_pri_cases (inbox s) hi (tail (inbox s hi)) h) as [[-> _]|[_ ->]]; [congruence|apply Hq].
Qed.

(** A drain ends with the inbox empty, a push in progress, or a full batch. *)
Lemma drain_end s hi k : inv s -> (k <= BATCH_SIZE)%nat -> (k <? BATCH_SIZE)%nat && poppable (inbox s hi) = false ->
  left_over (set_cut s hi (k =? BATCH_SIZE)%nat) hi.
Proof.
  intros Hinv Hk Hp Hne. simpl in *. unfold upd_pri. rewrite eqb_reflx. apply andb_false_iff in Hp as [Hp|Hp].
  - left. right. apply Nat.ltb_ge in Hp. apply Nat.eqb_eq. lia.
  - right. destruct (poppable_false (inbox s hi) Hne Hp) as [j Hj]. exists j. left. exists hi. by apply (inv_unlinked s Hinv).
Qed.

Lemma inv_drain s fork hi k found s' : inv s -> wpc s = WPop fork hi k -> worker_step found s = Some s' -> inv s'.
Proof.
  intros Hinv E. pose proof (inv_batch s Hinv fork hi k E) as Hk. unfold worker_step. rewrite E.
  assert (Hp : passed (wpc s) hi = false) by (rewrite E; by destruct fork, hi).
  destruct ((k <? BATCH_SIZE)%nat && poppable (inbox s hi)) eqn:Ep; intros [= <-].
  - apply inv_worker_move; [by apply inv_pop|simpl; by rewrite E|done|simpl; rewrite E; by left..|].
    intros f h k' [= <- <- <-]. apply andb_true_iff in Ep as [Ep%Nat.ltb_lt _]. lia.
  - pose proof (drain_end s hi k Hinv Hk Ep) as Hd. apply inv_worker_move; [by apply inv_set_cut|simpl; by rewrite E|..].
    + unfold drained. by destruct fork, hi, (k =? 0)%nat.
    + intros h Hh. destruct (decide (h = hi)) as [->|Hne]; [by right|left]. simpl. rewrite E. unfold drained in Hh.
      by destruct fork, hi, h, (k =? 0)%nat.
    + simpl. rewrite E. unfold drained. by destruct fork, hi, (k =? 0)%nat; auto.
    + intros f h k'. unfold drained. destruct fork, hi, (k =? 0)%nat; try done; intros [= <- <- <-]; unfold BATCH_SIZE; lia.
Qed.

(** The stores of section 2: nothing has been passed. *)
Lemma inv_fork s t i c p : inv s -> wpc s = WTake \/ (exists x, wpc s = WTook x) \/ (exists x, wpc s = WRun x) ->
  p = WTop \/ (exists x, p = WTook x) \/ (exists x, p = WRun x) -> inv (set_wpc (set_imm s t i c) p).
Proof.
  intros Hinv Hw Hp. assert (E : searching (wpc s) /\ passed_imm (wpc s) = false) by (destruct Hw as [->|[[x ->]|[x ->]]]; done).
  destruct E as [E1 E2]. apply inv_worker_move; simpl; try done.
  - apply inv_set_imm; [done|congruence|done].
  - by destruct Hp as [->|[[x ->]|[x ->]]].
  - intros hi. by destruct Hp as [->|[[x ->]|[x ->]]].
  - by destruct Hp as [->|[[x ->]|[x ->]]].
  - intros f h k ->. by destruct Hp as [?|[[x ?]|[x ?]]].
Qed.

#[local] Ltac moves E := apply inv_worker_move; rewrite ?E; simpl; try done; auto; intros; try discriminate.

Lemma sleep_inv_worker_step found s s' : inv s -> worker_step found s = Some s' -> inv s'.
Proof.
  intros Hinv. destruct (wpc s) eqn:E; [..|unfold worker_step; by rewrite E].
  4: by apply inv_drain with (1 := Hinv) (2 := E).
  all: unfold worker_step; rewrite E; pose proof Hinv as [Hu Hq Hi Hn Hm Hk Hw Hb]; rewrite E in *.
  - destruct (running s); intros [= <-]; [|by moves E]. constructor; simpl; sleep_auto.
  - intros [= <-]. destruct (immediateTask s) eqn:Ei; moves E; sleep_auto. injection H as <- <- <-. unfold BATCH_SIZE. lia.
  - intros [= <-]. destruct found; moves E. injection H as <- <- <-. unfold BATCH_SIZE. lia.
  - intros [= <-]. destruct found; [by moves E|]. destruct hi; moves E; [injection H as <- <- <-; unfold BATCH_SIZE; lia|..].
  - intros [= <-]. apply inv_fork; eauto.
  - intros [= <-]. apply inv_fork; eauto.
  - destruct t as [t|]; intros [= <-]; [|by moves E]. destruct found; apply inv_fork; eauto.
  - destruct (mutex s) eqn:Em; [done|]. intros [= <-]; constructor; simpl; sleep_auto.
    split; [|done]. intros Hs. apply Hk in Hs. congruence.
  - assert (mutex s = Some ByWorker) as Em by tauto.
    destruct (predicate s) eqn:Ep; intros [= <-]; constructor; simpl; sleep_auto; destruct (running s);
      sleep_auto; (split; [|done]); intros Hs; apply Hk in Hs; congruence.
  - assert (mutex s = Some ByWorker) as Em by tauto. intros [= <-]; constructor; simpl; sleep_auto.
    + split; [|done]. intros Hs; apply Hk in Hs; congruence.
    + destruct (Hw eq_refl H0) as [j [Hj|Hj]]; exists j; unfold to_notify; auto.
  - done.
  - destruct (mutex s) eqn:Em; [done|]. intros [= <-]; constructor; simpl; sleep_auto.
    split; [|done]. intros Hs; apply Hk in Hs; congruence.
Qed.

(** The worker's invariant when a signaler moves from [old] to [p] and nothing
    else changes but what the premises say. *)
Lemma inv_notified s : inv s -> inv (notify_one s).
Proof.
  intros Hi. unfold notify_one. destruct (wpc s) eqn:E; try done.
  destruct Hi as [Hu Hq Hi Hn Hm Hk Hw Hb]. rewrite E in *. constructor; simpl; sleep_auto.
Qed.

(** What the invariant says of the signalers, after signaler [i] has moved to [p]. *)
Section Signal.
Context (s : state) (i : nat) (p : signal_pc) (Hinv : inv s).
Abbreviation sigs := (upd (signalers s) i p).

Lemma sig_unlinked hi j : (forall h, signalers s i <> SLink h) -> (j, false) ∈ inbox s hi -> sigs j = SLink hi.
Proof.
  intros Hi Hj. apply (inv_unlinked s Hinv) in Hj. destruct (upd_cases (signalers s) i j p) as [[<- ->]|[_ ->]]; [|done].
  by apply Hi in Hj.
Qed.
Lemma sig_queue hi : (to_mark (signalers s i) -> to_mark p) -> passed (wpc s) hi = true -> inbox s hi <> [] ->
  (hasQueuedWork s = true \/ cut s hi = true) \/ exists j, to_mark (sigs j).
Proof. intros Hp Hl Hn. destruct (inv_queue s Hinv hi Hl Hn) as [?|He]; [by left|right]. by apply (upd_ex_old to_mark). Qed.
Lemma sig_imm : signalers s i <> SImmStore -> passed_imm (wpc s) = true -> immediateTask s <> None ->
  immediate s = true \/ exists j, sigs j = SImmStore.
Proof.
  intros Hp Hl Hn. destruct (inv_imm s Hinv Hl Hn) as [?|He]; [by left|right]. by apply (upd_ex_old (fun q => q = SImmStore)).
Qed.
Lemma sig_unlock j : signalers s i <> SUnlock -> p <> SUnlock -> sigs j = SUnlock <-> mutex s = Some (BySignaler j).
Proof.
  intros Hi Hp. pose proof (inv_unlock s Hinv j) as Hk. destruct (upd_cases (signalers s) i j p) as [[<- ->]|[_ ->]]; [|done].
  split; [done|]. intros Hj. by apply Hk in Hj.
Qed.
Lemma sig_wait : (signalers s i = SLock \/ signalers s i = SImmNotify -> p = SLock \/ p = SImmNotify) ->
  wpc s = WWait -> predicate s = true -> exists j, sigs j = SLock \/ sigs j = SImmNotify.
Proof. intros Hp Hw Hpr. apply (upd_ex_old (fun q => q = SLock \/ q = SImmNotify)); [by apply (inv_wait s Hinv)|done]. Qed.
Lemma sig_blocked : (to_notify (signalers s i) -> to_notify p) -> wpc s = WBlocked -> predicate s = true -> exists j, to_notify (sigs j).
Proof. intros Hp Hw Hpr. apply (upd_ex_old to_notify); [by apply (inv_blocked s Hinv)|done]. Qed.

(** Nothing else changes. *)
Lemma inv_signal_move :
  ~ to_mark (signalers s i) -> signalers s i <> SImmStore ->
  signalers s i <> SUnlock -> p <> SUnlock ->
  (wpc s = WWait -> signalers s i = SLock \/ signalers s i = SImmNotify -> p = SLock \/ p = SImmNotify) ->
  (wpc s = WBlocked -> to_notify (signalers s i) -> to_notify p) ->
  inv (set_sig s i p).
Proof.
  intros H1 H3 H4 H5 H7 H8. constructor; simpl; try apply Hinv.
  - intros hi j. apply sig_unlinked. intros h E. apply H1. left. eauto.
  - intros hi. by apply sig_queue.
  - by apply sig_imm.
  - intros j. by apply sig_unlock.
  - intros Hw. apply sig_wait; auto.
  - intros Hw. apply sig_blocked; auto.
Qed.
End Signal.

#[local] Ltac not_linking := intros ?; congruence.

Lemma inv_link s hi i : inv s -> signalers s i = SLink hi -> inv (set_sig (set_inbox s hi (link_node i (inbox s hi))) i SMark).
Proof.
  intros Hinv E. constructor; simpl; try apply Hinv.
  - intros h j. destruct (upd_pri_cases (inbox s) hi (link_node i (inbox s hi)) h) as [[-> ->]|[Hne ->]].
    + intros Hj. apply link_node_false in Hj as [Hj1 Hj]. rewrite upd_ne by done. by apply (inv_unlinked s Hinv).
    + intros Hj. apply (inv_unlinked s Hinv) in Hj. rewrite upd_ne; [done|congruence].
  - intros h Hl Hn. right. apply upd_ex_new. by right.
  - apply (sig_imm s i _ Hinv). congruence.
  - intros j. apply (sig_unlock s i _ Hinv); [congruence|done].
  - apply (sig_wait s i _ Hinv). rewrite E. by intros [?|?].
  - apply (sig_blocked s i _ Hinv). rewrite E. unfold to_notify. intuition congruence.
Qed.

Lemma inv_mark s i : inv s -> signalers s i = SMark -> inv (set_sig (set_marked s true) i SLock).
Proof.
  intros Hinv E. constructor; simpl; try apply Hinv.
  - intros hi j. apply (sig_unlinked s i _ Hinv). not_linking.
  - intros hi _ _. left. by left.
  - apply (sig_imm s i _ Hinv). congruence.
  - intros j. apply (sig_unlock s i _ Hinv); [congruence|done].
  - intros _ _. apply (upd_ex_new (fun q => q = SLock \/ q = SImmNotify)). by left.
  - intros _ _. apply upd_ex_new. by left.
Qed.

(** [PushToCore]'s stores, until the one of [immediate]. *)
Lemma inv_give s i t c p : inv s -> (signalers s i = SClaim \/ signalers s i = SGive) ->
  (p = SGive /\ t = immediateTask s) \/ p = SImmStore -> inv (set_sig (set_imm s t (immediate s) c) i p).
Proof.
  intros Hinv E Hp. assert (Hs : ~ to_notify (signalers s i) /\ ~ to_mark (signalers s i) /\ signalers s i <> SImmStore /\ signalers s i <> SUnlock).
  { unfold to_notify, to_mark. destruct E as [->| ->]; (split_and!; [intuition congruence|by intros [[? ?]|?]|done|done]). }
  destruct Hs as (N1 & N2 & N3 & N4). constructor; simpl; try apply Hinv.
  - intros hi j. apply (sig_unlinked s i _ Hinv). intros h Eh. apply N2. left. eauto.
  - intros hi. apply (sig_queue s i _ Hinv). done.
  - destruct Hp as [[-> ->]| ->]; [by apply (sig_imm s i _ Hinv)|]. intros _ _. right. by apply (upd_ex_new (fun q => q = SImmStore)).
  - intros j. apply (sig_unlock s i _ Hinv); [done|]. destruct Hp as [[-> _]| ->]; done.
  - apply (sig_wait s i _ Hinv). intros H. destruct N1. unfold to_notify. tauto.
  - apply (sig_blocked s i _ Hinv). done.
Qed.

Lemma inv_imm_store s i : inv s -> signalers s i = SImmStore ->
  inv (set_sig (set_imm s (immediateTask s) true (coreInUse s)) i SImmNotify).
Proof.
  intros Hinv E. constructor; simpl; try apply Hinv.
  - intros hi j. apply (sig_unlinked s i _ Hinv). not_linking.
  - intros hi. apply (sig_queue s i _ Hinv). rewrite E. by intros [[? ?]|?].
  - intros _ _. by left.
  - intros j. apply (sig_unlock s i _ Hinv); [congruence|done].
  - intros _ _. apply (upd_ex_new (fun q => q = SLock \/ q = SImmNotify)). by right.
  - intros _ _. apply upd_ex_new. unfold to_notify. tauto.
Qed.

Lemma inv_lock s i : inv s -> signalers s i = SLock -> mutex s = None -> inv (set_sig (set_mutex s (Some (BySignaler i))) i SUnlock).
Proof.
  intros Hinv E Em. pose proof (inv_mutex s Hinv) as Hm. constructor; simpl; try apply Hinv.
  - intros hi j. apply (sig_unlinked s i _ Hinv). not_linking.
  - intros hi. apply (sig_queue s i _ Hinv). rewrite E. by intros [[? ?]|?].
  - apply (sig_imm s i _ Hinv). congruence.
  - split; [|done]. intros Hp. apply Hm in Hp. congruence.
  - intros j. pose proof (inv_unlock s Hinv j) as Hk.
    destruct (upd_cases (signalers s) i j SUnlock) as [[<- ->]|[Hne ->]]; [done|]. rewrite Em in Hk.
    split; [intros Hj; by apply Hk in Hj|congruence].
  - intros Hp _. exfalso. assert (mutex s = Some ByWorker) by tauto. congruence.
  - apply (sig_blocked s i _ Hinv). unfold to_notify. tauto.
Qed.

Lemma inv_unlock_mutex s i : inv s -> signalers s i = SUnlock -> inv (set_sig (set_mutex s None) i SNotify).
Proof.
  intros Hinv E. pose proof (inv_mutex s Hinv) as Hm. assert (Em : mutex s = Some (BySignaler i)) by (by apply (inv_unlock s Hinv)).
  constructor; simpl; try apply Hinv.
  - intros hi j. apply (sig_unlinked s i _ Hinv). not_linking.
  - intros hi. apply (sig_queue s i _ Hinv). rewrite E. by intros [[? ?]|?].
  - apply (sig_imm s i _ Hinv). congruence.
  - split; [|done]. intros Hp. apply Hm in Hp. congruence.
  - intros j. pose proof (inv_unlock s Hinv j) as Hk.
    destruct (upd_cases (signalers s) i j SNotify) as [[<- ->]|[Hne ->]]; [done|].
    split; [|done]. intros Hj. apply Hk in Hj. congruence.
  - intros Hp _. exfalso. assert (mutex s = Some ByWorker) by tauto. congruence.
  - apply (sig_blocked s i _ Hinv). unfold to_notify. tauto.
Qed.

Lemma inv_signal_step i s s' : inv s -> signal_step i s = Some s' -> inv s'.
Proof.
  intros Hinv. unfold signal_step. destruct (signalers s i) eqn:E; try done.
  - intros [= <-]. by apply inv_link.
  - intros [= <-]. by apply inv_mark.
  - intros [= <-]. apply inv_give; auto.
  - intros [= <-]. apply inv_give; auto.
  - intros [= <-]. by apply inv_imm_store.
  - intros [= <-]. apply inv_notified in Hinv. apply inv_signal_move; try done.
    all: unfold notify_one; destruct (wpc s); simpl; rewrite ?E; try done; auto; try (intros [[? ?]|?]; done); intros; unfold to_notify; auto.
  - destruct (mutex s) eqn:Em; [done|]. intros [= <-]. by apply inv_lock.
  - intros [= <-]. by apply inv_unlock_mutex.
  - intros [= <-]. apply inv_notified in Hinv. apply inv_signal_move; try done.
    all: unfold notify_one; destruct (wpc s) eqn:Ew; simpl; rewrite ?E, ?Ew; try done; try (intros [[? ?]|?]; done); intuition congruence.
Qed.

(** ** A signaler begins *)

Lemma inv_push s hi i :
  inv s -> signalers s i = SLink hi -> inv (set_inbox s hi (inbox s hi ++ [(i, false)])).
Proof.
  intros [Hu Hq Hi Hn Hm Hk Hw Hb] Hs. constructor; simpl; try done; intros h.
  - intros j. destruct (upd_pri_cases (inbox s) hi (inbox s hi ++ [(i, false)]) h) as [[-> ->]|[_ ->]]; [|apply Hu].
    intros [Hj|Hj]%elem_of_app; [auto|]. apply list_elem_of_singleton in Hj. congruence.
  - intros _ _. right. exists i. left. eauto.
Qed.

Lemma inv_set_run s i p r : inv s -> signalers s i = SLock -> inv (set_run s p r).
Proof.
  intros [Hu Hq Hi Hn Hm Hk Hw Hb] Hs. constructor; simpl; try done.
  - intros _ _. exists i. by left.
  - intros _ _. exists i. by left.
Qed.

Lemma inv_pause s : inv s -> inv (set_run s true (running s)).
Proof.
  intros [Hu Hq Hi Hn Hm Hk Hw Hb]. constructor; simpl; try done; unfold predicate in *; simpl.
  - intros Hp Hpr. apply Hw; [done|]. destruct (running s), (immediate s); simpl in *; try done.
  - intros Hp Hpr. apply Hb; [done|]. destruct (running s), (immediate s); simpl in *; try done.
Qed.

Lemma inv_begin s i p : inv s -> signalers s i = SIdle -> p <> SUnlock -> inv (set_sig s i p).
Proof.
  intros Hi E Hp. apply inv_signal_move; rewrite ?E; try done; unfold to_notify, to_mark; try intuition congruence. by intros [[? ?]|?].
Qed.

Lemma sleep_inv_exec a s s' : inv s -> exec a s = Some s' -> inv s'.
Proof.
  intros Hinv. destruct a as [found| |i k|i|]; simpl.
  - by apply sleep_inv_worker_step.
  - destruct (wpc s) eqn:E; try done. intros [= <-].
    pose proof (inv_notified s Hinv) as H. unfold notify_one in H. by rewrite E in H.
  - destruct (signalers s i) eqn:E; try done.
    assert (Hb : forall p, p <> SUnlock -> inv (set_sig s i p) /\ signalers (set_sig s i p) i = p)
      by (intros p Hp; split; [by apply inv_begin|apply upd_eq]).
    destruct k as [hi| | |]; intros [= <-].
    + destruct (Hb (SLink hi)) as [H1 H2]; [done|]. exact (inv_push _ _ _ H1 H2).
    + destruct (coreInUse s); [done|]. by apply Hb.
    + destruct (Hb SLock) as [H1 H2]; [done|]. exact (inv_set_run _ _ (paused s) false H1 H2).
    + destruct (Hb SLock) as [H1 H2]; [done|]. exact (inv_set_run _ _ false (running s) H1 H2).
  - by apply inv_signal_step.
  - intros [= <-]. by apply inv_pause.
Qed.

Lemma sleep_inv_init : inv init.
Proof. constructor; simpl; sleep_auto. by apply not_elem_of_nil in H. Qed.

(** ** Properties *)

(** [C5] The only wakeup that is lost: whatever the signalers, the thieves and the
    worker do and however their steps interleave, a worker that is blocked while no
    signaler is in the middle of its call is not being stopped and has no immediate
    task, and if one of its inboxes is not empty then either the pool is paused and
    the flag that will wake the worker on [Resume] is set, or the worker's last
    drain of that inbox ended because its batch of 64 was full (and the deque kept
    none of the batch for it: see [sleeps_on_its_work]). *)
Theorem worker_sleep_no_lost_wakeup l s :
  run exec l init = Some s -> wpc s = WBlocked -> (forall i, signalers s i = SIdle) ->
  running s = true /\ immediateTask s = None /\
  (forall hi, inbox s hi <> [] -> (paused s = true /\ hasQueuedWork s = true) \/ cut s hi = true).
Proof.
  intros Hr Hw Hs. assert (Hinv : inv s).
  { eapply (reaches_invariant exec inv); [apply sleep_inv_exec|apply sleep_inv_init|by exists l]. }
  destruct Hinv as [Hu Hq Hi Hn Hm Hk Hwt Hb].
  assert (Hno : forall P : signal_pc -> Prop, ~ P SIdle -> ~ exists i, P (signalers s i))
    by (intros P HP [i Hi']; rewrite Hs in Hi'; done).
  assert (Hp : predicate s = false).
  { destruct (predicate s) eqn:E; [|done]. destruct (Hno to_notify); [unfold to_notify; intuition congruence|auto]. }
  unfold predicate in Hp. rewrite !orb_false_iff, negb_false_iff in Hp. destruct Hp as [[Hrun Himm] Hq'].
  rewrite Hw in Hq, Hi. split; [done|]. split.
  - destruct (immediateTask s) eqn:Ei; [|done]. destruct (Hi eq_refl ltac:(done)) as [?|He]; [congruence|].
    by destruct (Hno (fun q => q = SImmStore)).
  - intros hi Hne. destruct (Hq hi eq_refl Hne) as [[Hf|Hf]|He]; [left|by right|].
    + rewrite Hf, andb_true_r, negb_false_iff in Hq'. done.
    + destruct (Hno to_mark); [|done]. by intros [[? ?]|?].
Qed.

(** Signaler 1 stops between exchange and link; signaler 0 pushes before it and
    has marked and notified; the worker finds nothing, sleeps, and is woken when
    signaler 1 is done. *)
Definition pushes (i : nat) : list action := Call i (KPush false) :: replicate 5 (Signal i).
Definition hidden_push : list action :=
  [Call 0 (KPush false); Call 1 (KPush false)]%nat ++ replicate 5 (Signal 0%nat) ++ replicate 8 (Worker false).
Definition woken : list action :=
  hidden_push ++ replicate 5 (Signal 1%nat) ++ replicate 9 (Worker false) ++
  [Worker true] ++ replicate 8 (Worker false).

Lemma worker_sleep_no_lost_wakeup_witness :
  (wpc <$> run exec hidden_push init) = Some WBlocked /\
  exists s, run exec woken init = Some s /\ wpc s = WBlocked /\ inbox s false = [] /\ immediateTask s = None.
Proof.
  split; [vm_compute; reflexivity|].
  assert (Hf : (fun s => (wpc s, inbox s false)) <$> run exec woken init = Some (WBlocked, [])) by (vm_compute; reflexivity).
  destruct (run exec woken init) as [s|] eqn:E; [|discriminate Hf]. injection Hf as Hw Hi.
  exists s. split; [reflexivity|]. split; [exact Hw|]. split; [exact Hi|].
  apply (worker_sleep_no_lost_wakeup woken s E Hw).
  vm_compute in E. injection E as <-. intros [|[|i]]; reflexivity.
Defined.

(** 65 tasks are pushed; the worker takes 64 of them and puts them on its deque,
    where thieves are faster. *)
Definition long_inbox : list action :=
  concat (replicate 65 (pushes 0)) ++ replicate 3 (Worker false) ++ replicate 66 (Worker false) ++ replicate 4 (Worker false).

(** [C31] Two ways the hand-over to a worker goes wrong.  A worker that has drained
    64 tasks of an inbox, and finds none of them on its deque because thieves have
    taken them, goes to sleep on the ones that are left in the inbox: the mark of
    the push was cleared at the top of the loop, no signaler is under way, nobody
    else can take them, and no step of the worker is possible.  And two calls of
    [PushToCore] that both find the core free both hand it a task: the second
    overwrites the first, which no worker will ever run. *)
Theorem sleeps_on_its_work :
  (exists s, run exec long_inbox init = Some s /\ wpc s = WBlocked /\ inbox s false = [(0%nat, true)] /\
     paused s = false /\ hasQueuedWork s = false /\ (forall i, signalers s i = SIdle) /\ forall found, exec (Worker found) s = None) /\
  (exists s, run exec ([Call 0 KImmediate; Call 1 KImmediate]%nat ++ replicate 7 (Signal 0%nat) ++ replicate 7 (Signal 1%nat)) init = Some s /\
     immediateTask s = Some 1%nat /\ wpc s = WTop /\ forall i, signalers s i = SIdle).
Proof.
  split; (eexists; split; [vm_compute; reflexivity|]); split_and!; try reflexivity; intros [|[|i]]; reflexivity.
Qed.
