(* ===== verification/ParallelFor.v ===== *)
(** * [ParallelFor], [ParallelForFJ] and [ParallelForNB]
      ([src/TaskScheduler.cpp])

    Which ranges the loop function is called on, by whom, and when the call
    returns.  [int] arithmetic is checked: [None] is a signed overflow.  Whether
    each [CreateTask] finds memory is an input. *)
From S2P Require Import Prelude.

Definition int_ok (x : Z) : option Z := if decide (in_int x) then Some x else None.

(** A call [func(a, b)]. *)
Abbreviation range := (Z * Z)%type.

(** How often index [i] is processed by the calls [l]. *)
Definition within (i : Z) (r : range) : bool := (r.1 <=? i) && (i <? r.2).
Fixpoint covers (i : Z) (l : list range) : nat :=
  match l with [] => 0 | r :: l => (if within i r then 1 else 0) + covers i l end.

(** ** The flat dispatch *)

Definition num_tasks (start stop chunkSize : Z) : option Z :=
  totalItems ← int_ok (stop - start);
  x ← int_ok (totalItems + chunkSize);
  x ← int_ok (x - 1);
  Some (Z.quot x chunkSize).

(** [chunkStart], [chunkEnd] of iteration [i]. *)
Definition chunk_at (start stop chunkSize i : Z) : option range :=
  o ← int_ok (i * chunkSize);
  chunkStart ← int_ok (start + o);
  e ← int_ok (chunkStart + chunkSize);
  Some (chunkStart, Z.min e stop).

(** The calls the caller makes itself, and the tasks it pushes. *)
Record plan := mk_plan { inline : list range; spawned : list range }.

(** The loop over chunks 1 to [numTasks - 1]: a chunk whose task cannot be
    created is run on the spot. *)
Fixpoint dispatch (start stop chunkSize : Z) (alloc : Z -> bool) (ks : list Z) : option plan :=
  match ks with
  | [] => Some (mk_plan [] [])
  | i :: ks =>
      c ← chunk_at start stop chunkSize i;
      p ← dispatch start stop chunkSize alloc ks;
      Some (if alloc i then mk_plan (inline p) (c :: spawned p)
            else mk_plan (c :: inline p) (spawned p))
  end.

Definition flat (start stop chunkSize numTasks : Z) (alloc : Z -> bool) : option plan :=
  e ← int_ok (start + chunkSize);
  let mainChunkEnd := Z.min e stop in
  p ← dispatch start stop chunkSize alloc (seqZ 1 (numTasks - 1));
  Some (mk_plan (inline p ++ [(start, mainChunkEnd)]) (spawned p)).

(** ** Fork-join

    [rec] runs on the caller and in every task; the tasks run whenever a worker
    takes them.  [caller] is the range the caller's loop still holds ([None]: it
    is in [WaitFor]), [pend] the pushed tasks, [busy] those being run, [wg] the
    count of the group (the tasks in memory, which the allocator bounds). *)
Record fj := mk_fj {
  caller : option range;
  pend : list range;
  busy : list range;
  wg : Z;
  called : list range
}.

(** One iteration of [rec]'s loop on [(a, b)]: what is left, what it spawns or
    processes. *)
Definition rec_step (grain : Z) (alloc : bool) (r : range)
    : option (option range * list range * list range) :=
  let '(a, b) := r in
  d ← int_ok (b - a);
  if grain <? d then
    mid ← int_ok (a + Z.quot d 2);
    Some (if alloc then (Some (a, mid), [(mid, b)], []) else (Some (a, mid), [], [(mid, b)]))
  else Some (None, [], [(a, b)]).

Inductive fj_action := Caller (alloc : bool) | Start (k : nat) | TaskStep (k : nat) (alloc : bool).

Definition fj_exec (grain : Z) (x : fj_action) (s : fj) : option fj :=
  match x with
  | Caller alloc =>
      r ← caller s;
      '(r', sp, ca) ← rec_step grain alloc r;
      Some (mk_fj r' (sp ++ pend s) (busy s) (wg s + Z.of_nat (length sp)) (ca ++ called s))
  | Start k =>
      r ← pend s !! k;
      Some (mk_fj (caller s) (delete k (pend s)) (r :: busy s) (wg s) (called s))
  | TaskStep k alloc =>
      r ← busy s !! k;
      '(r', sp, ca) ← rec_step grain alloc r;
      Some (mk_fj (caller s) (sp ++ pend s)
              (match r' with Some r' => <[k := r']> (busy s) | None => delete k (busy s) end)
              (wg s + Z.of_nat (length sp) - (match r' with Some _ => 0 | None => 1 end))
              (ca ++ called s))
  end.

(** [ParallelForFJ] from its first test on: [Some None] when there is nothing to
    do, and a state without caller when the whole range was one call. *)
Definition ParallelForFJ (start stop grain : Z) : option (option fj) :=
  let grain := Z.max 1 grain in
  d ← int_ok (stop - start);
  Some (if d <=? 0 then None
        else if d <=? grain then Some (mk_fj None [] [] 0 [(start, stop)])
        else Some (mk_fj (Some (start, stop)) [] [] 0 [])).

(** [WaitFor(wg)] returns. *)
Definition returned (s : fj) : Prop := caller s = None /\ wg s = 0.

(** ** The three loops *)

(** What a call does: nothing, one call of the function, the flat dispatch, or
    [ParallelForFJ] with the grain it is given, from the state it begins in. *)
Inductive dispatched := Nothing | Whole (r : range) | Flat (p : plan) | ForkJoin (grain : Z) (s : option fj).

(** [ParallelFor(start, end, chunkSize, func)] with [n] workers. *)
Definition ParallelFor (start stop chunkSize : Z) (n : nat) (alloc : Z -> bool) : option dispatched :=
  let chunkSize := Z.max 1 chunkSize in
  totalItems ← int_ok (stop - start);
  if totalItems <=? 0 then Some Nothing
  else if 10000 <? totalItems then
    numTasks ← num_tasks start stop chunkSize;
    if 2 * Z.of_nat n <? u64 numTasks then s ← ParallelForFJ start stop chunkSize; Some (ForkJoin chunkSize s)
    else p ← flat start stop chunkSize numTasks alloc; Some (Flat p)
  else Some (Whole (start, stop)).

(** [ParallelForNB]: the chunks pushed; [Push(F&&)] drops the ones whose task
    cannot be created. *)
Definition ParallelForNB (start stop chunkSize : Z) (alloc : Z -> bool) : option (list range) :=
  let chunkSize := Z.max 1 chunkSize in
  totalItems ← int_ok (stop - start);
  if totalItems <=? 0 then Some []
  else
    numTasks ← num_tasks start stop chunkSize;
    l ← mapM (fun i => (fun c => (i, c)) <$> chunk_at start stop chunkSize i) (seqZ 0 numTasks);
    Some (snd <$> filter (fun ic => alloc ic.1 = true) l).

(** ** Coverage *)

Lemma covers_app i l k : covers i (l ++ k) = (covers i l + covers i k)%nat.
Proof. induction l as [|r l IH]; simpl; [done|]. rewrite IH. lia. Qed.

#[local] Instance covers_perm i : Proper ((≡ₚ) ==> eq) (covers i).
Proof. intros l k H. induction H; simpl; lia. Qed.

Definition indicator (i a b : Z) : nat := if within i (a, b) then 1 else 0.

Lemma indicator_split i a m b : a <= m <= b -> indicator i a b = (indicator i a m + indicator i m b)%nat.
Proof.
  intros H. unfold indicator, within. simpl.
  destruct (Z.leb_spec a i), (Z.leb_spec m i), (Z.ltb_spec i m), (Z.ltb_spec i b); simpl; lia.
Qed.
Lemma indicator_empty i a b : b <= a -> indicator i a b = 0%nat.
Proof. intros H. unfold indicator, within. simpl. destruct (Z.leb_spec a i), (Z.ltb_spec i b); simpl; lia. Qed.

Lemma indicator_decide i a b : indicator i a b = if decide (a <= i < b) then 1%nat else 0%nat.
Proof.
  unfold indicator, within. simpl.
  destruct (Z.leb_spec a i), (Z.ltb_spec i b); case_decide; simpl; (done || lia).
Qed.

Lemma int_ok_some x : in_int x -> int_ok x = Some x.
Proof. intros. unfold int_ok. by rewrite decide_True. Qed.

(** The sizes for which the code's [int] arithmetic does not overflow. *)
Record sizes_ok (start stop chunkSize : Z) : Prop := {
  so_start : in_int start;
  so_stop : in_int stop;
  so_total : 0 < stop - start <= INT_MAX;
  so_chunk : 1 <= chunkSize <= INT_MAX;
  so_round : stop - start + chunkSize <= INT_MAX;
  so_last : stop + chunkSize <= INT_MAX
}.

Lemma num_tasks_spec start stop chunkSize :
  sizes_ok start stop chunkSize ->
  exists n, num_tasks start stop chunkSize = Some n /\ 1 <= n <= stop - start /\
    (n - 1) * chunkSize < stop - start <= n * chunkSize.
Proof.
  intros [H1 H2 H3 H4 H5 H6]. unfold num_tasks, in_int, INT_MIN, INT_MAX in *.
  rewrite !int_ok_some by (unfold in_int, INT_MIN, INT_MAX; lia). simpl.
  rewrite !int_ok_some by (unfold in_int, INT_MIN, INT_MAX; lia). simpl.
  rewrite !int_ok_some by (unfold in_int, INT_MIN, INT_MAX; lia). simpl.
  rewrite Z.quot_div_nonneg by lia.
  set (t := stop - start) in *. eexists. split; [done|].
  pose proof (Z.div_mod (t + chunkSize - 1) chunkSize ltac:(lia)) as Hd.
  pose proof (Z.mod_pos_bound (t + chunkSize - 1) chunkSize ltac:(lia)) as Hm.
  set (n := (t + chunkSize - 1) / chunkSize) in *. nia.
Qed.

Lemma chunk_at_spec start stop chunkSize i :
  sizes_ok start stop chunkSize -> 0 <= i -> i * chunkSize < stop - start ->
  chunk_at start stop chunkSize i =
    Some (start + i * chunkSize, Z.min (start + i * chunkSize + chunkSize) stop).
Proof.
  intros [H1 H2 H3 H4 H5 H6] Hi Hlt. unfold chunk_at, in_int, INT_MIN, INT_MAX in *.
  assert (0 <= i * chunkSize) by nia.
  rewrite int_ok_some by (unfold in_int, INT_MIN, INT_MAX; lia). simpl.
  rewrite int_ok_some by (unfold in_int, INT_MIN, INT_MAX; lia). simpl.
  rewrite int_ok_some by (unfold in_int, INT_MIN, INT_MAX; lia). done.
Qed.

Lemma dispatch_spec start stop chunkSize alloc k n :
  sizes_ok start stop chunkSize -> 0 <= k -> (k + Z.of_nat n - 1) * chunkSize < stop - start ->
  exists p, dispatch start stop chunkSize alloc (seqZ k (Z.of_nat n)) = Some p /\
    (length (inline p) + length (spawned p))%nat = n /\
    Forall (fun r => start <= r.1 < r.2 /\ r.2 <= stop) (inline p ++ spawned p) /\
    ((forall i, k <= i < k + Z.of_nat n -> alloc i = true) -> inline p = []) /\
    (forall i, covers i (inline p ++ spawned p) =
       indicator i (start + k * chunkSize) (Z.min (start + (k + Z.of_nat n) * chunkSize) stop)).
Proof.
  intros Hs. pose proof Hs as [_ _ Ht Hc _ _]. revert k. induction n as [|n IH]; intros k Hk Hlt.
  - simpl. eexists. split; [done|]. split_and!; try done.
    intros i. simpl. rewrite indicator_empty by lia. done.
  - replace (Z.of_nat (S n)) with (Z.succ (Z.of_nat n)) in * by lia.
    rewrite seqZ_cons by lia. simpl.
    rewrite chunk_at_spec by (done || nia). simpl.
    replace (Z.pred (Z.succ (Z.of_nat n))) with (Z.of_nat n) by lia.
    destruct (IH (Z.succ k)) as (p & -> & Hl & Hf & Hi & Hcov); [lia|nia|]. simpl.
    assert (Hr : start <= start + k * chunkSize < Z.min (start + k * chunkSize + chunkSize) stop /\
                 Z.min (start + k * chunkSize + chunkSize) stop <= stop) by nia.
    assert (Hc1 : forall i, (indicator i (start + k * chunkSize) (Z.min (start + k * chunkSize + chunkSize) stop) +
        covers i (inline p ++ spawned p))%nat =
      indicator i (start + k * chunkSize) (Z.min (start + (k + Z.succ (Z.of_nat n)) * chunkSize) stop)).
    { intros i. rewrite Hcov. destruct (Z.le_gt_cases (start + (k + 1) * chunkSize) stop).
      - rewrite (indicator_split i (start + k * chunkSize) (start + (k + 1) * chunkSize)
          (Z.min (start + (k + Z.succ (Z.of_nat n)) * chunkSize) stop)) by nia.
        f_equal; f_equal; lia.
      - rewrite (indicator_empty i (start + Z.succ k * chunkSize)) by nia.
        rewrite Nat.add_0_r. f_equal. nia. }
    destruct (alloc k) eqn:Ea; eexists; (split; [done|]); simpl.
    + split_and!; [lia| | |].
      * apply Forall_app in Hf as [? ?]. apply Forall_app; split; [done|]. by constructor.
      * intros Ha. apply Hi. intros i Hik. apply Ha. lia.
      * intros i. rewrite <- Hc1, !covers_app. simpl. unfold indicator. lia.
    + split_and!; [lia|by constructor| |].
      * intros Ha. rewrite Ha in Ea by lia. done.
      * intros i. rewrite <- Hc1. simpl. unfold indicator. lia.
Qed.

Lemma flat_spec start stop chunkSize n alloc :
  sizes_ok start stop chunkSize -> num_tasks start stop chunkSize = Some n ->
  exists p, flat start stop chunkSize n alloc = Some p /\
    Z.of_nat (length (inline p) + length (spawned p)) = n /\
    Forall (fun r => start <= r.1 < r.2 /\ r.2 <= stop) (inline p ++ spawned p) /\
    ((forall i, 1 <= i < n -> alloc i = true) -> inline p = [(start, Z.min (start + chunkSize) stop)]) /\
    (forall i, covers i (inline p ++ spawned p) = indicator i start stop).
Proof.
  intros Hs Hn. destruct (num_tasks_spec _ _ _ Hs) as (n' & Hn' & Hn1 & Hn2).
  rewrite Hn in Hn'. injection Hn' as <-. pose proof Hs as [Ha Hb Ht Hc Hr Hl].
  unfold flat. rewrite int_ok_some by (unfold in_int, INT_MIN, INT_MAX in *; lia). simpl.
  destruct (dispatch_spec start stop chunkSize alloc 1 (Z.to_nat (n - 1)))
    as (p & Hp & Hlen & Hf & Hi & Hcov); [done|lia|nia|].
  rewrite Z2Nat.id in * by lia. rewrite Hp. simpl. eexists. split; [done|]. simpl.
  rewrite length_app. simpl. split_and!; [lia| | |].
  - apply Forall_app in Hf as [? ?]. rewrite !Forall_app, Forall_singleton. simpl. split_and!; (done || lia).
  - intros Hall. rewrite Hi; [done|]. intros i Hi'. apply Hall. lia.
  - intros i. rewrite !covers_app in *. simpl. specialize (Hcov i). rewrite covers_app in Hcov.
    rewrite (indicator_split i start (Z.min (start + chunkSize) stop) stop) by lia.
    replace (Z.min (start + (1 + (n - 1)) * chunkSize) stop) with stop in Hcov by nia.
    unfold indicator at 1.
    destruct (Z.le_gt_cases (start + chunkSize) stop).
    + rewrite (Z.min_l (start + chunkSize)) in * by lia.
      replace (start + 1 * chunkSize) with (start + chunkSize) in Hcov by lia. lia.
    + rewrite (Z.min_r (start + chunkSize)) in * by lia.
      rewrite indicator_empty in Hcov by lia. rewrite indicator_empty by lia. lia.
Qed.

Lemma mapM_chunks start stop chunkSize k n :
  sizes_ok start stop chunkSize -> 0 <= k -> (k + Z.of_nat n - 1) * chunkSize < stop - start ->
  mapM (fun i => (fun c => (i, c)) <$> chunk_at start stop chunkSize i) (seqZ k (Z.of_nat n)) =
    Some ((fun i => (i, (start + i * chunkSize, Z.min (start + i * chunkSize + chunkSize) stop)))
            <$> seqZ k (Z.of_nat n)).
Proof.
  intros Hs. pose proof (so_chunk _ _ _ Hs). revert k. induction n as [|n IH]; intros k Hk Hlt; [done|].
  rewrite seqZ_cons by lia. replace (Z.pred (Z.of_nat (S n))) with (Z.of_nat n) by lia. simpl.
  rewrite chunk_at_spec by (done || nia). simpl. rewrite IH by (lia || nia). done.
Qed.

Lemma nb_covers start stop chunkSize alloc i k n :
  1 <= chunkSize ->
  let f := fun j => (j, (start + j * chunkSize, Z.min (start + j * chunkSize + chunkSize) stop)) in
  covers i (snd <$> filter (fun ic : Z * range => alloc ic.1 = true) (f <$> seqZ k (Z.of_nat n))) =
    if decide (k <= (i - start) / chunkSize < k + Z.of_nat n)
    then if alloc ((i - start) / chunkSize) then (if decide (i < stop) then 1%nat else 0%nat) else 0%nat
    else 0%nat.
Proof.
  intros Hc f. revert k. induction n as [|n IH]; intros k.
  { simpl. rewrite decide_False by lia. done. }
  rewrite seqZ_cons by lia. replace (Z.pred (Z.of_nat (S n))) with (Z.of_nat n) by lia.
  assert (Hw : within i (f k).2 = bool_decide ((i - start) / chunkSize = k /\ i < stop)).
  { unfold within, f. simpl.
    pose proof (Z.div_mod (i - start) chunkSize ltac:(lia)) as Hd.
    pose proof (Z.mod_pos_bound (i - start) chunkSize ltac:(lia)) as Hm.
    destruct (Z.leb_spec (start + k * chunkSize) i),
      (Z.ltb_spec i (Z.min (start + k * chunkSize + chunkSize) stop)); simpl; symmetry;
      [apply bool_decide_eq_true|apply bool_decide_eq_false..]; nia. }
  rewrite fmap_cons, filter_cons. specialize (IH (Z.succ k)). change ((f k).1) with k.
  destruct (decide ((i - start) / chunkSize = k)) as [Heq|Hne].
  - rewrite (decide_True (P := k <= (i - start) / chunkSize < k + Z.of_nat (S n))) by lia.
    rewrite decide_False in IH by lia. rewrite Heq.
    destruct (alloc k) eqn:Ea; [rewrite decide_True by done|rewrite decide_False by done].
    + rewrite fmap_cons. cbn [covers]. rewrite Hw, IH.
      destruct (decide (i < stop)); [rewrite bool_decide_true by (split; assumption)|rewrite bool_decide_false by (intros [_ ?]; contradiction)]; lia.
    + exact IH.
  - destruct (decide (alloc k = true)) as [Ea|Ea].
    + rewrite fmap_cons. cbn [covers]. rewrite Hw, IH. rewrite bool_decide_false by (intros [? _]; done).
      repeat case_decide; (done || lia).
    + rewrite IH. repeat case_decide; (done || lia).
Qed.

(** [ParallelForNB] pushes the call of an index of [start, end) exactly
    once when the task of the index's chunk can be created, and never otherwise:
    [Push(F&&)] then drops the chunk without telling the caller. *)
Theorem parallel_for_nb_covers start stop chunkSize alloc :
  sizes_ok start stop (Z.max 1 chunkSize) ->
  exists l, ParallelForNB start stop chunkSize alloc = Some l /\
    forall i, covers i l =
      if decide (start <= i < stop /\ alloc ((i - start) / Z.max 1 chunkSize) = true) then 1%nat else 0%nat.
Proof.
  intros Hs. pose proof Hs as [Ha Hb Ht Hc Hr Hl].
  destruct (num_tasks_spec _ _ _ Hs) as (k & Hk & Hk1 & Hk2).
  unfold ParallelForNB. rewrite int_ok_some by (unfold in_int, INT_MIN, INT_MAX in *; lia). simpl.
  destruct (Z.leb_spec (stop - start) 0); [lia|].
  rewrite Hk. simpl. replace (seqZ 0 k) with (seqZ 0 (Z.of_nat (Z.to_nat k))) by (f_equal; lia).
  rewrite mapM_chunks by (done || lia || nia). simpl.
  eexists. split; [done|]. intros i. rewrite nb_covers by lia.
  set (c := Z.max 1 chunkSize) in *.
  pose proof (Z.div_mod (i - start) c ltac:(lia)) as Hd.
  pose proof (Z.mod_pos_bound (i - start) c ltac:(lia)) as Hm.
  rewrite Z2Nat.id by lia.
  destruct (alloc ((i - start) / c)); repeat case_decide; (done || nia).
Qed.

Lemma parallel_for_nb_covers_witness :
  sizes_ok 0 10 (Z.max 1 4) /\
  ParallelForNB 0 10 4 (fun i => negb (i =? 1)) = Some [(0, 4); (8, 10)].
Proof.
  assert (H : sizes_ok 0 10 (Z.max 1 4)).
  { constructor; unfold in_int, INT_MIN, INT_MAX; simpl; lia. }
  destruct (parallel_for_nb_covers 0 10 4 (fun i => negb (i =? 1)) H) as (l & Hl & _).
  split; [done|]. rewrite Hl. vm_compute in Hl. by injection Hl as <-.
Defined.

(** ** The fork-join tree *)

Lemma covers_insert i l k r r' :
  l !! k = Some r ->
  (covers i (<[k := r']> l) + covers i [r] = covers i l + covers i [r'])%nat.
Proof.
  revert k. induction l as [|x l IH]; intros [|k]; simpl; intros H; try done.
  - injection H as ->. lia.
  - specialize (IH _ H). simpl in IH. lia.
Qed.

Lemma covers_delete i l k r : l !! k = Some r -> covers i l = (covers i [r] + covers i (delete k l))%nat.
Proof. intros H. rewrite (covers_perm i _ _ (delete_Permutation _ _ _ H)). simpl. lia. Qed.

Lemma covers_singleton i a b : covers i [(a, b)] = indicator i a b.
Proof. unfold indicator. simpl. lia. Qed.

(** What [rec_step] does to a range in bounds. *)
Section RecStep.
Context (start stop grain : Z) (Hgrain : 1 <= grain).

Definition good (r : range) : Prop := start <= r.1 < r.2 /\ r.2 <= stop.

(** The steps a range still costs while a thread holds it; a pushed one costs
    one more. *)
Definition cost (r : range) : Z := 3 * (r.2 - r.1) - 2.

Definition pcost (l : list range) : Z := foldr (fun r z => cost r + 1 + z) 0 l.
Definition bcost (l : list range) : Z := foldr (fun r z => cost r + z) 0 l.

Lemma good_sizes a b : good (a, b) -> in_int start -> in_int stop -> stop - start <= INT_MAX ->
  in_int (b - a) /\ in_int (a + (b - a) / 2).
Proof.
  unfold good, in_int, INT_MIN, INT_MAX. simpl. intros Hr H1 H2 H3.
  pose proof (Z.div_mod (b - a) 2 ltac:(lia)). pose proof (Z.mod_pos_bound (b - a) 2 ltac:(lia)). lia.
Qed.

Lemma rec_step_ok alloc r : good r -> in_int start -> in_int stop -> stop - start <= INT_MAX ->
  is_Some (rec_step grain alloc r).
Proof.
  destruct r as [a b]. intros Hr H1 H2 H3. destruct (good_sizes a b Hr H1 H2 H3) as [Hd Hm].
  unfold good in Hr. simpl in Hr. unfold rec_step. rewrite int_ok_some by done. simpl. destruct (grain <? b - a); [|by eexists].
  rewrite Z.quot_div_nonneg by lia. rewrite int_ok_some by done. by eexists.
Qed.

Lemma rec_step_spec alloc r r' sp ca :
  good r -> rec_step grain alloc r = Some (r', sp, ca) ->
  Forall good (option_list r' ++ sp ++ ca) /\
  (forall i, covers i [r] = (covers i (option_list r') + covers i sp + covers i ca)%nat) /\
  bcost (option_list r') + pcost sp < cost r.
Proof.
  destruct r as [a b]. unfold good, cost, rec_step, int_ok. simpl. intros Hr H. case_decide as Hd; [|done]. simpl in H.
  destruct (Z.ltb_spec grain (b - a)) as [Hlt|Hge].
  - rewrite Z.quot_div_nonneg in H by lia. case_decide as Hmid; [|done]. simpl in H. injection H as H.
    pose proof (Z.div_mod (b - a) 2 ltac:(lia)) as Hd'.
    pose proof (Z.mod_pos_bound (b - a) 2 ltac:(lia)) as Hm.
    set (h := (b - a) / 2) in *.
    assert (Hi : forall i, covers i [(a, b)] = (covers i [(a, (a + h)%Z)] + covers i [((a + h)%Z, b)])%nat).
    { intros i. rewrite !covers_singleton. apply indicator_split. lia. }
    destruct alloc; injection H as <- <- <-; unfold pcost, bcost, cost; simpl;
      (split; [rewrite ?Forall_cons, ?Forall_nil; simpl; lia|split; [intros i; specialize (Hi i); simpl in *; lia|lia]]).
  - injection H as <- <- <-. unfold pcost, bcost, cost. simpl.
    split; [rewrite ?Forall_cons, ?Forall_nil; simpl; lia|split; [done|lia]].
Qed.

Definition fj_cost (s : fj) : Z := bcost (option_list (caller s)) + pcost (pend s) + bcost (busy s).

Record J (s : fj) : Prop := {
  J_good : Forall good (option_list (caller s) ++ pend s ++ busy s ++ called s);
  J_covers : forall i, (covers i (option_list (caller s)) + covers i (pend s) + covers i (busy s) +
    covers i (called s))%nat = indicator i start stop;
  J_wg : wg s = Z.of_nat (length (pend s) + length (busy s))
}.

Lemma pcost_app l k : pcost (l ++ k) = pcost l + pcost k.
Proof. unfold pcost. induction l as [|r l IH]; simpl; lia. Qed.
Lemma pcost_delete l k r : l !! k = Some r -> pcost l = cost r + 1 + pcost (delete k l).
Proof.
  unfold pcost. revert k. induction l as [|x l IH]; intros [|k]; simpl; intros H; try done.
  - by injection H as ->.
  - specialize (IH _ H). lia.
Qed.
Lemma bcost_delete l k r : l !! k = Some r -> bcost l = cost r + bcost (delete k l).
Proof.
  unfold bcost. revert k. induction l as [|x l IH]; intros [|k]; simpl; intros H; try done.
  - by injection H as ->.
  - specialize (IH _ H). lia.
Qed.
Lemma bcost_insert l k r r' : l !! k = Some r -> bcost (<[k := r']> l) = bcost l - cost r + cost r'.
Proof.
  unfold bcost. revert k. induction l as [|x l IH]; intros [|k]; simpl; intros H; try done.
  - injection H as ->. lia.
  - specialize (IH _ H). lia.
Qed.
Lemma cost_nonneg r : good r -> 1 <= cost r.
Proof. unfold good, cost. lia. Qed.
Lemma bcost_nonneg l : Forall good l -> 0 <= bcost l.
Proof. unfold bcost. induction 1 as [|r l Hr%cost_nonneg]; simpl; lia. Qed.
Lemma pcost_nonneg l : Forall good l -> 0 <= pcost l.
Proof. unfold pcost. induction 1 as [|r l Hr%cost_nonneg]; simpl; lia. Qed.

Lemma fj_cost_nonneg s : J s -> 0 <= fj_cost s.
Proof.
  intros [Hg _ _]. unfold fj_cost. rewrite !Forall_app in Hg.
  destruct Hg as (?%bcost_nonneg & ?%pcost_nonneg & ?%bcost_nonneg & _). lia.
Qed.

Lemma J_step x s s' : J s -> fj_exec grain x s = Some s' -> J s' /\ fj_cost s' < fj_cost s.
Proof.
  intros [Hg Hc Hw] H. destruct s as [c p b w ca]; simpl in *. unfold fj_cost. simpl.
  rewrite !Forall_app in Hg. destruct Hg as (Hgc & Hgp & Hgb & Hga).
  destruct x as [alloc|k|k alloc]; simpl in H.
  - destruct c as [r|]; simpl in H; [|done].
    destruct (rec_step grain alloc r) as [[[r' sp] l]|] eqn:E; [|done]. injection H as <-. simpl in *.
    apply rec_step_spec in E as (Hf & Hi & Hcost); [|by inversion Hgc].
    rewrite !Forall_app in Hf. destruct Hf as (? & ? & ?).
    rewrite pcost_app. split; [|unfold bcost in *; simpl in *; lia]. constructor; simpl.
    + rewrite !Forall_app. auto 10.
    + intros i. rewrite <- Hc, !covers_app. specialize (Hi i). simpl in *. lia.
    + rewrite length_app. lia.
  - destruct (p !! k) as [r|] eqn:Ek; simpl in H; [|done]. injection H as <-. simpl.
    assert (Hr : good r) by exact (Forall_lookup_1 good p k r Hgp Ek).
    rewrite (pcost_delete _ _ _ Ek). split; [|unfold bcost; simpl; lia]. constructor; simpl.
    + rewrite !Forall_app, Forall_cons, Forall_app. split_and!; try done. by apply Forall_delete.
    + intros i. rewrite <- Hc, (covers_delete i _ _ _ Ek). simpl. lia.
    + apply delete_Permutation in Ek. apply Permutation_length in Ek. simpl in Ek. lia.
  - destruct (b !! k) as [r|] eqn:Ek; simpl in H; [|done].
    destruct (rec_step grain alloc r) as [[[r' sp] l]|] eqn:E; [|done]. injection H as <-. simpl.
    assert (Hr : good r) by exact (Forall_lookup_1 good b k r Hgb Ek).
    apply rec_step_spec in E as (Hf & Hi & Hcost); [|done].
    rewrite !Forall_app in Hf. destruct Hf as (Hr' & ? & ?).
    pose proof (delete_Permutation _ _ _ Ek) as Hlen%Permutation_length. simpl in Hlen.
    rewrite pcost_app. destruct r' as [r'|]; simpl in *.
    + rewrite (bcost_insert _ _ _ r' Ek). split; [|unfold bcost in *; simpl in *; lia].
      constructor; simpl.
      * rewrite !Forall_app. split_and!; try done. apply Forall_insert; [done|by inversion Hr'].
      * intros i. rewrite <- Hc, !covers_app. specialize (Hi i).
        pose proof (covers_insert i _ _ _ r' Ek). simpl in *. lia.
      * rewrite length_app, length_insert. lia.
    + rewrite (bcost_delete _ _ _ Ek). split; [|unfold bcost in *; simpl in *; lia].
      constructor; simpl.
      * rewrite !Forall_app. split_and!; try done. by apply Forall_delete.
      * intros i. rewrite <- Hc, !covers_app. specialize (Hi i).
        pose proof (covers_delete i _ _ _ Ek). simpl in *. lia.
      * rewrite length_app. lia.
Qed.

Lemma J_run l s s' : J s -> run (fj_exec grain) l s = Some s' ->
  J s' /\ fj_cost s' + Z.of_nat (length l) <= fj_cost s.
Proof.
  revert s. induction l as [|x l IH]; intros s HJ; cbn [run length]; [intros [= ->]; split; [done|lia]|].
  destruct (fj_exec grain x s) as [s1|] eqn:E; simpl; [|done]. intros H.
  destruct (J_step _ _ _ HJ E) as [HJ1 Hlt]. destruct (IH _ HJ1 H) as [? ?]. split; [done|lia].
Qed.

End RecStep.

Lemma J_init start stop grain s :
  0 < stop - start <= INT_MAX -> ParallelForFJ start stop grain = Some s ->
  exists s0, s = Some s0 /\ J start stop s0 /\ fj_cost s0 <= 3 * (stop - start) - 2.
Proof.
  intros Hlt. unfold ParallelForFJ. rewrite int_ok_some by (unfold in_int, INT_MIN, INT_MAX in *; lia). simpl.
  intros [= <-]. destruct (Z.leb_spec (stop - start) 0); [lia|].
  unfold fj_cost, pcost, bcost, cost.
  destruct (Z.leb_spec (stop - start) (Z.max 1 grain)); (eexists; split; [done|]); (split; [constructor|]); simpl;
    try lia; try (rewrite ?Forall_cons, ?Forall_nil; unfold good; simpl; lia);
    intros i; unfold indicator; simpl; lia.
Qed.

Lemma good_uncovered start stop l : Forall (good start stop) l -> (forall i, covers i l = 0%nat) -> l = [].
Proof.
  destruct l as [|[a b] l]; [done|]. intros [Hg _]%Forall_cons H. specialize (H a). exfalso.
  unfold good in Hg. simpl in *. unfold within in H. simpl in H.
  destruct (Z.leb_spec a a), (Z.ltb_spec a b); simpl in H; lia.
Qed.

(** A call has returned when, and only when, its calls cover the range. *)
Lemma J_returned start stop s : J start stop s ->
  returned s <-> forall i, covers i (called s) = indicator i start stop.
Proof.
  intros [Hg Hc Hw]. rewrite !Forall_app in Hg. destruct Hg as (Hgc & Hgp & Hgb & _). split.
  - intros [E Hw0] i. rewrite <- Hc, E. destruct (pend s), (busy s); simpl in *; try lia.
  - intros Hall. assert (H0 : forall i, covers i (option_list (caller s)) = 0%nat /\ covers i (pend s) = 0%nat /\ covers i (busy s) = 0%nat)
      by (intros i; specialize (Hc i); rewrite Hall in Hc; lia).
    apply good_uncovered in Hgc, Hgp, Hgb; try (intros i; apply H0).
    split; [by destruct (caller s)|]. by rewrite Hw, Hgp, Hgb.
Qed.

Lemma J_progress start stop grain s : 1 <= grain -> in_int start -> in_int stop -> stop - start <= INT_MAX ->
  J start stop s -> ~ returned s -> exists x s', fj_exec grain x s = Some s'.
Proof.
  intros Hgr H1 H2 H3 [Hg _ Hw] Hn. rewrite !Forall_app in Hg. destruct Hg as (Hgc & _ & Hgb & _).
  destruct s as [c p b w ca]; simpl in *. destruct c as [r|].
  { apply Forall_cons in Hgc as [Hr _]. destruct (rec_step_ok start stop grain true r Hr H1 H2 H3) as [[[r' sp] l] E].
    exists (Caller true). simpl. rewrite E. by eexists. }
  destruct p as [|r p]; [|exists (Start 0); by eexists].
  destruct b as [|r b]; [by destruct Hn|].
  apply Forall_cons in Hgb as [Hr _]. destruct (rec_step_ok start stop grain true r Hr H1 H2 H3) as [[[r' sp] l] E].
  exists (TaskStep 0 true). simpl. rewrite E. by eexists.
Qed.

(** ** The properties *)

(** [C11] [ParallelForFJ] on a non-empty range [start, end) whose bounds and size
    are [int]s: however workers take the pushed halves and whatever tasks cannot be
    created, no arithmetic of the splitter overflows, no index is processed twice,
    every execution ends after at most [3 * items] steps, some thread can step until
    the call returns, and the call returns exactly when every index has been
    processed exactly once; then no task is left. *)
Theorem parallel_for_fj_covers start stop grain :
  in_int start -> in_int stop -> 0 < stop - start <= INT_MAX ->
  exists s0, ParallelForFJ start stop grain = Some (Some s0) /\
  forall l s, run (fj_exec (Z.max 1 grain)) l s0 = Some s ->
  Z.of_nat (length l) <= 3 * (stop - start) /\
  Forall (fun r => start <= r.1 < r.2 /\ r.2 <= stop) (called s) /\
  (forall i, Nat.le (covers i (called s)) (if decide (start <= i < stop) then 1 else 0)) /\
  (forall r alloc, r ∈ option_list (caller s) ++ busy s -> is_Some (rec_step (Z.max 1 grain) alloc r)) /\
  (returned s <-> forall i, covers i (called s) = if decide (start <= i < stop) then 1%nat else 0%nat) /\
  (returned s -> pend s = [] /\ busy s = []) /\
  (~ returned s -> exists x s', fj_exec (Z.max 1 grain) x s = Some s').
Proof.
  intros H1 H2 H3. destruct (ParallelForFJ start stop grain) as [s00|] eqn:E0.
  2: { unfold ParallelForFJ in E0. rewrite int_ok_some in E0; [done|]. unfold in_int, INT_MIN, INT_MAX in *. lia. }
  destruct (J_init _ _ _ _ H3 E0) as (s0 & -> & HJ0 & Hc0). exists s0. split; [done|]. intros l s Hrun.
  destruct (J_run _ _ (Z.max 1 grain) ltac:(lia) _ _ _ HJ0 Hrun) as [HJ Hc].
  pose proof (fj_cost_nonneg _ _ _ HJ). pose proof HJ as [Hg Hcov Hw].
  rewrite !Forall_app in Hg. destruct Hg as (Hgc & _ & Hgb & Hg).
  split; [lia|]. split; [done|]. split; [intros i; rewrite <- indicator_decide, <- Hcov; lia|]. split_and!.
  - intros r alloc [Hr|Hr]%elem_of_app; (apply (rec_step_ok start stop); [|done..|lia]);
      [by apply (proj1 (Forall_forall _ _) Hgc)|by apply (proj1 (Forall_forall _ _) Hgb)].
  - rewrite (J_returned start stop s HJ). by setoid_rewrite indicator_decide.
  - intros [_ Hw0]. destruct (pend s), (busy s); simpl in *; (done || lia).
  - apply (J_progress start stop); (done || lia).
Qed.

(** Splitting 10 indices down to 4, the last half's task cannot be created. *)
Definition fj_script : list fj_action :=
  [Caller true; Start 0; Caller false; TaskStep 0 true; Caller true; TaskStep 0 true;
   Start 0; TaskStep 0 true].

Lemma parallel_for_fj_covers_witness :
  exists s0 s, ParallelForFJ 0 10 4 = Some (Some s0) /\ run (fj_exec 4) fj_script s0 = Some s /\
    called s = [(7, 10); (5, 7); (0, 2); (2, 5)] /\ returned s /\ pend s = [] /\ busy s = [].
Proof.
  destruct (parallel_for_fj_covers 0 10 4) as (s0 & E0 & H); [unfold in_int, INT_MIN, INT_MAX; lia..|].
  exists s0. injection E0 as <-.
  destruct (run (fj_exec 4) fj_script (mk_fj (Some (0, 10)) [] [] 0 [])) as [s|] eqn:E;
    [|vm_compute in E; discriminate E].
  exists s. assert (called s = [(7, 10); (5, 7); (0, 2); (2, 5)] /\ returned s) as [Hc Hr].
  { vm_compute in E. injection E as <-. done. }
  destruct (H _ s E) as (_ & _ & _ & _ & _ & Hr' & _). destruct (Hr' Hr). split_and!; done.
Defined.

(** [C14] [ParallelFor] over sizes for which the [int] arithmetic does not overflow
    ([sizes_ok]) calls the function on every index of [start, end) exactly once,
    whatever tasks cannot be created: by one call when there are at most 10000
    items; otherwise, when there are at most two chunks per worker, by
    [ceil(items / chunkSize)] non-empty calls, the caller making only the first one
    if every task is created; and when there are more, by [ParallelForFJ], which
    every schedule brings to its return in at most [3 * items] steps, each index
    having been processed exactly once. *)
Theorem parallel_for_covers start stop chunkSize (n : nat) alloc :
  sizes_ok start stop (Z.max 1 chunkSize) ->
  let c := Z.max 1 chunkSize in
  let items := stop - start in
  let once l := forall i, covers i l = if decide (start <= i < stop) then 1%nat else 0%nat in
  match ParallelFor start stop chunkSize n alloc with
  | None | Some Nothing | Some (ForkJoin _ None) => False
  | Some (Whole r) => items <= 10000 /\ r = (start, stop)
  | Some (Flat p) => 10000 < items /\
      (exists k, k = Z.of_nat (length (inline p) + length (spawned p)) /\
         (k - 1) * c < items <= k * c /\ k <= 2 * Z.of_nat n /\
         ((forall i, 1 <= i < k -> alloc i = true) -> inline p = [(start, Z.min (start + c) stop)])) /\
      Forall (fun r => start <= r.1 < r.2 /\ r.2 <= stop) (inline p ++ spawned p) /\
      once (inline p ++ spawned p)
  | Some (ForkJoin grain (Some s0)) => 10000 < items /\ grain = c /\ 2 * Z.of_nat n * c < items /\
      forall l s, run (fj_exec grain) l s0 = Some s ->
        Z.of_nat (length l) <= 3 * items /\ (returned s -> once (called s)) /\
        (~ returned s -> exists x s', fj_exec grain x s = Some s')
  end.
Proof.
  intros Hs. pose proof Hs as [Ha Hb Ht Hc Hr Hl]. simpl.
  destruct (num_tasks_spec _ _ _ Hs) as (k & Hk & Hk1 & Hk2).
  unfold ParallelFor. rewrite int_ok_some by (unfold in_int, INT_MIN, INT_MAX in *; lia). simpl.
  destruct (Z.leb_spec (stop - start) 0); [lia|].
  destruct (Z.ltb_spec 10000 (stop - start)); [|auto].
  rewrite Hk. simpl. rewrite u64_small by (unfold INT_MAX in *; lia).
  destruct (Z.ltb_spec (2 * Z.of_nat n) k).
  - destruct (ParallelForFJ start stop (Z.max 1 chunkSize)) as [s00|] eqn:E.
    2: { unfold ParallelForFJ in E. rewrite int_ok_some in E; [done|]. unfold in_int, INT_MIN, INT_MAX in *. lia. }
    destruct (J_init _ _ _ _ Ht E) as (s0 & -> & HJ0 & Hc0). simpl. split_and!; [done|done|nia|]. intros l s Hrun.
    destruct (J_run _ _ (Z.max 1 chunkSize) ltac:(lia) _ _ _ HJ0 Hrun) as [HJ Hcost].
    pose proof (fj_cost_nonneg _ _ _ HJ). split; [lia|]. split.
    + rewrite (J_returned start stop s HJ). by setoid_rewrite indicator_decide.
    + apply (J_progress start stop); (done || lia).
  - destruct (flat_spec _ _ _ k alloc Hs Hk) as (p & -> & Hlen & Hf & Hi & Hcov). simpl.
    split_and!; [done| |done|].
    + exists k. split_and!; (done || lia).
    + intros i. rewrite Hcov, indicator_decide. done.
Qed.

(** A flat dispatch whose second task cannot be created, and a range that is split. *)
Lemma parallel_for_covers_witness :
  sizes_ok 0 20000 (Z.max 1 6000) /\
  let p := mk_plan [(12000, 18000); (0, 6000)] [(6000, 12000); (18000, 20000)] in
  ParallelFor 0 20000 6000 4 (fun i => negb (i =? 2)) = Some (Flat p) /\
  (forall i, covers i (inline p ++ spawned p) = if decide (0 <= i < 20000) then 1%nat else 0%nat) /\
  exists s0, ParallelFor 0 20000 6000 1 (fun _ => true) = Some (ForkJoin 6000 (Some s0)) /\
    (~ returned s0 -> exists x s', fj_exec 6000 x s0 = Some s').
Proof.
  assert (H : sizes_ok 0 20000 (Z.max 1 6000)).
  { constructor; unfold in_int, INT_MIN, INT_MAX; simpl; lia. }
  split; [done|]. intros p.
  assert (Hp : ParallelFor 0 20000 6000 4 (fun i => negb (i =? 2)) = Some (Flat p)) by (vm_compute; reflexivity).
  split; [done|]. split.
  - pose proof (parallel_for_covers 0 20000 6000 4 (fun i => negb (i =? 2)) H) as Hc.
    cbv zeta in Hc. rewrite Hp in Hc. apply Hc.
  - pose proof (parallel_for_covers 0 20000 6000 1 (fun _ => true) H) as Hc. eexists. split; [vm_compute; reflexivity|].
    vm_compute ParallelFor in Hc. destruct Hc as (_ & _ & _ & Hc). exact (proj2 (proj2 (Hc [] _ eq_refl))).
Defined.
