(* ===== verification/Topology.v ===== *)
(** * The cores' topology ([GetGroupMasksForRelation], [BuildTopology] of
      [src/TaskScheduler.cpp])

    The buffer the operating system fills is an argument: a function from byte
    offsets to the record that starts there.  [ULONG_PTR] masks are 64-bit, the
    offset is a [DWORD].  Worker [q] is pinned to logical CPU [q + 1]. *)
From S2P Require Import Prelude Scheduler Pool.

(** ** What the operating system reports *)

Record group_affinity := mk_affinity { Mask : Z; Group : Z }.
Record info := mk_info { Relationship : Z; GroupMask : list group_affinity; Size : Z }.

(** The masks of group 0 of one record, if it has the relation asked for. *)
Definition masks_of (relation : Z) (r : info) : list Z :=
  if Relationship r =? relation
  then Mask <$> filter (fun g => Group g = 0) (GroupMask r) else [].

(** The walk over the buffer: [Blocked] when the fuel ends (a record of size 0
    makes the code loop), [Stuck] when no record starts at the offset. *)
Fixpoint walk (fuel : nat) (relation len offset : Z) (at_off : Z -> option info) : outcome (list Z) :=
  if decide (offset < len) then
    match fuel with
    | O => Blocked
    | S fuel =>
        match at_off offset with
        | None => Stuck
        | Some r =>
            rest ← walk fuel relation len (u32 (offset + Size r)) at_off;
            Ok (masks_of relation r ++ rest)
        end
    end
  else Ok [].

(** [len0] is the length the first call reports, [second] what the second call
    leaves in [len] and the buffer ([None]: it failed).  [None]: [return false]. *)
Definition GetGroupMasksForRelation (fuel : nat) (relation len0 : Z)
    (second : option (Z * (Z -> option info))) : outcome (option (list Z)) :=
  if len0 =? 0 then Ok None
  else match second with
       | None => Ok None
       | Some (len, at_off) => m ← walk fuel relation len 0 at_off; Ok (Some m)
       end.

(** ** From masks to workers *)

Definition qIndexOf (num_workers : nat) (logicalCpu : Z) : Z :=
  if logicalCpu <? 1 then -1
  else let q := u32 (logicalCpu - 1) in if q <? Z.of_nat num_workers then q else -1.

(** [qsInGroup]: the workers of a mask, in order. *)
Definition qsInGroup (num_workers : nat) (mask : Z) : list nat :=
  omap (fun cpu =>
    if Z.testbit mask cpu then
      let q := qIndexOf num_workers cpu in if 0 <=? q then Some (Z.to_nat q) else None
    else None) (seqZ 0 64).

(** One core of the sibling loop. *)
Definition core_step (num_workers : nat) (sib : list Z) (mask : Z) : list Z :=
  match qsInGroup num_workers mask with
  | [q0; q1] => <[q1 := Z.of_nat q0]> (<[q0 := Z.of_nat q1]> sib)
  | _ => sib
  end.

Definition sibling (sib : list Z) (q : nat) : Z := default (-1) (sib !! q).
Definition mates_at (mates : list (list nat)) (q : nat) : list nat := default [] (mates !! q).

(** [g] without [q] and its sibling. *)
Definition others (sib : list Z) (q : nat) (g : list nat) : list nat :=
  filter (fun other => other <> q /\ Z.of_nat other <> sibling sib q) g.

Definition mate_step (sib : list Z) (g : list nat) (mates : list (list nat)) (q : nat) : list (list nat) :=
  if decide (length (mates_at mates q) + 1 < length g)%nat
  then <[q := others sib q g]> mates else mates.

(** One cache of the cluster loop. *)
Definition cache_step (num_workers : nat) (sib : list Z) (mates : list (list nat)) (mask : Z)
    : list (list nat) :=
  let g := qsInGroup num_workers mask in
  if decide (length g < 2)%nat then mates else foldl (mate_step sib g) mates g.

(** [coreMasks], [cacheMasks]: [None] when the query failed. *)
Definition BuildTopology (num_workers : nat) (coreMasks cacheMasks : option (list Z)) : topology :=
  let sib0 := replicate num_workers (-1) in
  let sib := match coreMasks with
             | Some ms => foldl (core_step num_workers) sib0 ms
             | None => sib0
             end in
  let mates0 := replicate num_workers [] in
  let mates := match cacheMasks with
               | Some ms => foldl (cache_step num_workers sib) mates0 ms
               | None => (fun q => others sib q (seq 0 num_workers)) <$> seq 0 num_workers
               end in
  mk_topology sib mates.

(** ** The buffer *)

(** The records lie one behind the other from [offset] to [len]. *)
Fixpoint laid_out (at_off : Z -> option info) (offset len : Z) (l : list info) : Prop :=
  match l with
  | [] => offset = len
  | r :: l => 0 < Size r /\ offset + Size r <= len /\ at_off offset = Some r /\
      laid_out at_off (offset + Size r) len l
  end.

Lemma buffer_walk_spec relation len at_off l : forall offset fuel,
  0 <= offset -> len < 2 ^ 32 -> laid_out at_off offset len l -> (length l <= fuel)%nat ->
  walk fuel relation len offset at_off = Ok (l ≫= masks_of relation).
Proof.
  induction l as [|r l IH]; intros offset fuel Ho Hlen Hl Hf.
  - simpl in Hl. subst. destruct fuel; simpl; by rewrite decide_False by lia.
  - destruct fuel as [|fuel]; [simpl in Hf; lia|]. destruct Hl as (Hs & Hle & Hat & Hl).
    simpl. rewrite decide_True by lia. rewrite Hat.
    unfold u32. rewrite Z.mod_small by lia.
    rewrite (IH _ fuel) by (done || lia || (simpl in Hf; lia)). done.
Qed.

(** ** Workers of a mask *)

Lemma elem_qs n mask q :
  q ∈ qsInGroup n mask <-> (q < n)%nat /\ Z.of_nat q + 1 < 64 /\ Z.testbit mask (Z.of_nat q + 1) = true.
Proof.
  unfold qsInGroup. rewrite list_elem_of_omap. split.
  - intros (cpu & Hc%elem_of_seqZ & H). destruct (Z.testbit mask cpu) eqn:Et; [|done].
    unfold qIndexOf in H. destruct (Z.ltb_spec cpu 1); [done|].
    unfold u32 in H. rewrite Z.mod_small in H by lia.
    destruct (Z.ltb_spec (cpu - 1) (Z.of_nat n)); [|done].
    destruct (Z.leb_spec 0 (cpu - 1)); [|done]. injection H as <-.
    rewrite Z2Nat.id by lia. replace (cpu - 1 + 1) with cpu by lia. split_and!; (done || lia).
  - intros (Hq & Hc & Ht). exists (Z.of_nat q + 1). split; [apply elem_of_seqZ; lia|].
    rewrite Ht. unfold qIndexOf. destruct (Z.ltb_spec (Z.of_nat q + 1) 1); [lia|].
    unfold u32. rewrite Z.mod_small by lia. replace (Z.of_nat q + 1 - 1) with (Z.of_nat q) by lia.
    destruct (Z.ltb_spec (Z.of_nat q) (Z.of_nat n)); [|lia].
    destruct (Z.leb_spec 0 (Z.of_nat q)); [|lia]. by rewrite Nat2Z.id.
Qed.

Lemma NoDup_omap_inj {A B} (f : A -> option B) l :
  (forall x y z, x ∈ l -> y ∈ l -> f x = Some z -> f y = Some z -> x = y) -> NoDup l -> NoDup (omap f l).
Proof.
  induction l as [|x l IH]; intros Hf Hn; simpl; [constructor|]. inversion Hn as [|? ? Hx Hn']; subst.
  assert (IH' : NoDup (omap f l)).
  { apply IH; [|done]. intros. eapply Hf; eauto; by right. }
  destruct (f x) as [z|] eqn:E; [|done]. constructor; [|done].
  intros (y & Hy & E')%list_elem_of_omap. apply Hx.
  by rewrite (Hf x y z) by (done || by left || by right).
Qed.

Lemma nodup_qs n mask : NoDup (qsInGroup n mask).
Proof.
  unfold qsInGroup. apply NoDup_omap_inj; [|apply NoDup_seqZ].
  intros x y z Hx%elem_of_seqZ Hy%elem_of_seqZ Ex Ey.
  destruct (Z.testbit mask x); [|done]. destruct (Z.testbit mask y); [|done].
  unfold qIndexOf, u32 in *.
  destruct (Z.ltb_spec x 1); [done|]. destruct (Z.ltb_spec y 1); [done|].
  rewrite !Z.mod_small in * by lia.
  destruct (Z.ltb_spec (x - 1) (Z.of_nat n)); [|done]. destruct (Z.ltb_spec (y - 1) (Z.of_nat n)); [|done].
  destruct (Z.leb_spec 0 (x - 1)); [|done]. destruct (Z.leb_spec 0 (y - 1)); [|done].
  injection Ex as <-. injection Ey. lia.
Qed.

Lemma elem_of_snoc {A} (l : list A) x y : x ∈ l ++ [y] <-> x ∈ l \/ x = y.
Proof. by rewrite elem_of_app, list_elem_of_singleton. Qed.

(** ** Siblings *)

(** The pool's workers on the core [mask] are exactly [q] and [q']. *)
Definition on_core (n : nat) (mask : Z) (q q' : nat) : Prop :=
  qsInGroup n mask = [q; q'] \/ qsInGroup n mask = [q'; q].

Lemma on_core_in n m q q' : on_core n m q q' -> q ∈ qsInGroup n m /\ q' ∈ qsInGroup n m /\ q <> q'.
Proof.
  intros H. assert (Hnd := nodup_qs n m).
  destruct H as [H|H]; rewrite H in *; (split_and!; [set_solver..|]);
    intros ->; inversion Hnd; set_solver.
Qed.

Lemma sibling_insert sib q z q' :
  (q < length sib)%nat -> sibling (<[q := z]> sib) q' = if decide (q = q') then z else sibling sib q'.
Proof.
  intros H. unfold sibling. case_decide; subst.
  - by rewrite list_lookup_insert_eq.
  - by rewrite list_lookup_insert_ne.
Qed.

Definition sib_inv (n : nat) (ms : list Z) (sib : list Z) : Prop :=
  length sib = n /\
  forall q, (q < n)%nat ->
    (sibling sib q = -1 /\ forall m q', m ∈ ms -> ~ on_core n m q q') \/
    (exists m q', m ∈ ms /\ on_core n m q q' /\ sibling sib q = Z.of_nat q').

Lemma core_step_inv n ms m sib : sib_inv n ms sib -> sib_inv n (ms ++ [m]) (core_step n sib m).
Proof.
  intros [Hl H]. unfold core_step.
  assert (Hpair : (exists q0 q1, qsInGroup n m = [q0; q1]) \/ (forall q q', ~ on_core n m q q')).
  { destruct (qsInGroup n m) as [|q0 [|q1 [|]]] eqn:E; [right|right|left; eauto|right];
      intros q q' [Hc|Hc]; congruence. }
  destruct Hpair as [(q0 & q1 & E)|Hno].
  - rewrite E. assert (Hoc : on_core n m q0 q1) by by left.
    pose proof (on_core_in _ _ _ _ Hoc) as (H0 & H1 & Hne). rewrite elem_qs in H0, H1.
    split; [by rewrite !length_insert|]. intros q Hq.
    rewrite sibling_insert by (rewrite length_insert; lia). rewrite sibling_insert by lia.
    destruct (decide (q1 = q)) as [<-|Hq1].
    { right. exists m, q0. split; [set_solver|]. split; [by right|done]. }
    destruct (decide (q0 = q)) as [<-|Hq0].
    { right. exists m, q1. split; [set_solver|done]. }
    destruct (H q Hq) as [[? Hn]|(m' & q' & ? & ? & ?)]; [left|right; exists m', q'; set_solver].
    split; [done|]. intros m' q' [Hm'| ->]%elem_of_snoc; [by apply Hn|].
    intros [Hc|Hc]; rewrite E in Hc; injection Hc as -> ->; done.
  - assert (Hs : match qsInGroup n m with [q0; q1] => <[q1:=Z.of_nat q0]> (<[q0:=Z.of_nat q1]> sib) | _ => sib end = sib).
    { destruct (qsInGroup n m) as [|q0 [|q1 [|]]] eqn:E; try done. destruct (Hno q0 q1). by left. }
    rewrite Hs. split; [done|]. intros q Hq.
    destruct (H q Hq) as [[? Hn]|(m' & q' & ? & ? & ?)]; [left|right; exists m', q'; set_solver].
    split; [done|]. intros m' q' [Hm'| ->]%elem_of_snoc; [by apply Hn|apply Hno].
Qed.

Lemma siblings_fold n ms : sib_inv n ms (foldl (core_step n) (replicate n (-1)) ms).
Proof.
  induction ms as [|m ms IH] using rev_ind.
  - split; [apply length_replicate|]. intros q Hq. left. split; [|set_solver].
    unfold sibling. simpl. by rewrite lookup_replicate_2.
  - rewrite foldl_app. simpl. by apply core_step_inv.
Qed.

(** ** Clusters *)

Lemma mates_insert mates q l q' :
  (q < length mates)%nat -> mates_at (<[q := l]> mates) q' = if decide (q = q') then l else mates_at mates q'.
Proof.
  intros H. unfold mates_at. case_decide; subst.
  - by rewrite list_lookup_insert_eq.
  - by rewrite list_lookup_insert_ne.
Qed.

Lemma mate_step_at sib g mates q q' :
  (q < length mates)%nat ->
  mates_at (mate_step sib g mates q) q' =
    if decide (q = q' /\ (length (mates_at mates q) + 1 < length g)%nat) then others sib q' g else mates_at mates q'.
Proof.
  intros H. unfold mate_step. case_decide as Hc.
  - rewrite mates_insert by done. repeat case_decide; subst; (done || tauto).
  - case_decide; [|done]. tauto.
Qed.

Lemma length_mate_step sib g mates q : length (mate_step sib g mates q) = length mates.
Proof. unfold mate_step. case_decide; [apply length_insert|done]. Qed.

Lemma mate_fold sib g l mates q :
  NoDup l -> Forall (fun x => x < length mates)%nat l ->
  length (foldl (mate_step sib g) mates l) = length mates /\
  mates_at (foldl (mate_step sib g) mates l) q =
    if decide (q ∈ l /\ (length (mates_at mates q) + 1 < length g)%nat)
    then others sib q g else mates_at mates q.
Proof.
  revert mates. induction l as [|x l IH]; intros mates Hnd Hf.
  { split; [done|]. rewrite decide_False; [done|]. set_solver. }
  inversion Hnd as [|? ? Hx Hnd']; subst. inversion Hf as [|? ? Hxl Hf']; subst.
  cbn [foldl]. destruct (IH (mate_step sib g mates x) Hnd') as [Hlen ->].
  { by rewrite length_mate_step. }
  rewrite length_mate_step in Hlen. split; [done|].
  rewrite mate_step_at by done. destruct (decide (x = q)) as [->|Hne].
  - destruct (decide ((length (mates_at mates q) + 1 < length g)%nat)) as [Hc|Hc].
    + rewrite (decide_True (P := q = q /\ _)) by done.
      rewrite (decide_False (P := q ∈ l /\ _)) by tauto.
      rewrite decide_True; [done|]. split; [by left|done].
    + rewrite (decide_False (P := q = q /\ _)) by tauto.
      rewrite !decide_False by tauto. done.
  - rewrite (decide_False (P := x = q /\ _)) by tauto.
    repeat case_decide; try done; set_solver.
Qed.

Lemma others_length sib q g :
  NoDup g -> q ∈ g -> (length (others sib q g) + 1 <= length g <= length (others sib q g) + 2)%nat.
Proof.
  intros Hnd Hq. unfold others.
  set (P := fun other : nat => other <> q /\ Z.of_nat other <> sibling sib q).
  pose proof (filter_app_complement P g) as Hp%Permutation_length. rewrite length_app in Hp.
  assert (H1 : (1 <= length (filter (fun x => ~ P x) g))%nat).
  { assert (q ∈ filter (fun x => ~ P x) g) by (apply list_elem_of_filter; unfold P; tauto).
    destruct (filter (fun x => ~ P x) g); [set_solver|simpl; lia]. }
  assert (H2 : (length (filter (fun x => ~ P x) g) <= 2)%nat).
  { apply (submseteq_length _ [q; Z.to_nat (sibling sib q)]), NoDup_submseteq; [by apply NoDup_filter|].
    intros x [Hx _]%list_elem_of_filter. unfold P in Hx.
    destruct (decide (x = q)) as [->|]; [by left|]. right.
    destruct (decide (Z.of_nat x = sibling sib q)) as [<-|]; [|tauto]. rewrite Nat2Z.id. by left. }
  lia.
Qed.

Definition cluster_inv (n : nat) (sib : list Z) (ms : list Z) (mates : list (list nat)) : Prop :=
  length mates = n /\
  forall q, (q < n)%nat ->
    (mates_at mates q = [] /\ forall m, m ∈ ms -> q ∈ qsInGroup n m -> (length (qsInGroup n m) < 2)%nat) \/
    (exists m, m ∈ ms /\ q ∈ qsInGroup n m /\ mates_at mates q = others sib q (qsInGroup n m) /\
       (2 <= length (qsInGroup n m))%nat /\
       forall m', m' ∈ ms -> q ∈ qsInGroup n m' -> (length (qsInGroup n m') <= length (qsInGroup n m))%nat).

Lemma cache_step_inv n sib ms m mates :
  cluster_inv n sib ms mates -> cluster_inv n sib (ms ++ [m]) (cache_step n sib mates m).
Proof.
  intros [Hl H]. unfold cache_step. set (g := qsInGroup n m).
  assert (Hg : Forall (fun x => x < length mates)%nat g).
  { apply Forall_forall. intros x Hx. rewrite Hl. by apply elem_qs in Hx as [? _]. }
  assert (Hmono : forall q, mates_at (if decide (length g < 2)%nat then mates else foldl (mate_step sib g) mates g) q =
    if decide (q ∈ g /\ (2 <= length g /\ length (mates_at mates q) + 1 < length g)%nat)
    then others sib q g else mates_at mates q).
  { intros q. destruct (decide (length g < 2)%nat).
    - rewrite decide_False by lia. done.
    - destruct (mate_fold sib g g mates q (nodup_qs _ _) Hg) as [_ ->]. apply decide_ext. intuition lia. }
  split.
  { case_decide; [done|]. by destruct (mate_fold sib g g mates 0%nat (nodup_qs _ _) Hg) as [-> _]. }
  intros q Hq. rewrite Hmono. clear Hmono.
  destruct (decide (q ∈ g)) as [Hin|Hout].
  - pose proof (others_length sib q g (nodup_qs _ _) Hin) as Hog.
    destruct (H q Hq) as [[He Hn]|(m' & Hm' & Hq' & He & H2 & Hmax)].
    + rewrite He. case_decide as Hc.
      * right. destruct Hc as (_ & ? & ?). exists m. split_and!; [set_solver|done|done|done|].
        intros m1 [Hm1| ->]%elem_of_snoc Hq1; [|done]. specialize (Hn _ Hm1 Hq1). fold g. lia.
      * left. split; [done|]. intros m1 [Hm1| ->]%elem_of_snoc Hq1; [by apply Hn|].
        fold g. destruct (decide (length g < 2)%nat); [done|]. exfalso. apply Hc. split; [done|simpl; lia].
    + pose proof (others_length sib q _ (nodup_qs n m') Hq') as Hom. rewrite <- He in Hom. case_decide as Hc.
      * right. destruct Hc as (_ & ? & ?). exists m. split_and!; [set_solver|done|done|done|].
        intros m1 [Hm1| ->]%elem_of_snoc Hq1; [|done]. specialize (Hmax _ Hm1 Hq1). fold g. lia.
      * right. exists m'. split_and!; [set_solver|done|done|done|].
        intros m1 [Hm1| ->]%elem_of_snoc Hq1; [by apply Hmax|].
        fold g. destruct (decide (length g <= 1)%nat); [lia|].
        assert (~ (length (mates_at mates q) + 1 < length g)%nat) by (intros ?; apply Hc; split; [done|lia]). lia.
  - rewrite decide_False by tauto.
    destruct (H q Hq) as [[He Hn]|(m' & Hm' & Hq' & He & H2 & Hmax)].
    + left. split; [done|]. intros m1 [Hm1| ->]%elem_of_snoc Hq1; [by apply Hn|done].
    + right. exists m'. split_and!; [set_solver|done|done|done|].
      intros m1 [Hm1| ->]%elem_of_snoc Hq1; [by apply Hmax|done].
Qed.

Lemma clusters_fold n sib ms : cluster_inv n sib ms (foldl (cache_step n sib) (replicate n []) ms).
Proof.
  induction ms as [|m ms IH] using rev_ind.
  - split; [apply length_replicate|]. intros q Hq. left. split; [|set_solver].
    unfold mates_at. simpl. by rewrite lookup_replicate_2.
  - rewrite foldl_app. simpl. by apply cache_step_inv.
Qed.

(** ** Properties *)

Lemma sib_inv_bounded n ms sib : sib_inv n ms sib -> Forall (fun x => x < Z.of_nat n) sib.
Proof.
  intros [Hl H]. apply Forall_lookup. intros q x Hx.
  assert (Hq : (q < n)%nat) by (rewrite <- Hl; by eapply lookup_lt_Some).
  assert (Hs : sibling sib q = x) by (unfold sibling; by rewrite Hx).
  destruct (H q Hq) as [[? _]|(m & q' & _ & Hc & ?)]; [lia|].
  apply on_core_in in Hc as (_ & Hq' & _). apply elem_qs in Hq'. lia.
Qed.

Lemma others_subset sib q g x : x ∈ others sib q g -> x ∈ g.
Proof. intros [_ ?]%list_elem_of_filter. done. Qed.

Lemma cluster_inv_bounded n sib ms mates :
  cluster_inv n sib ms mates -> Forall (Forall (fun i => i < n)%nat) mates.
Proof.
  intros [Hl H]. apply Forall_lookup. intros q l Hx.
  assert (Hq : (q < n)%nat) by (rewrite <- Hl; by eapply lookup_lt_Some).
  assert (Hs : mates_at mates q = l) by (unfold mates_at; by rewrite Hx).
  apply Forall_forall. intros x Hin. rewrite <- Hs in Hin.
  destruct (H q Hq) as [[He _]|(m & _ & _ & He & _)]; rewrite He in Hin; [set_solver|].
  apply others_subset, elem_qs in Hin. tauto.
Qed.

Lemma fallback_at sib n q :
  (q < n)%nat -> mates_at ((fun q => others sib q (seq 0 n)) <$> seq 0 n) q = others sib q (seq 0 n).
Proof. intros H. unfold mates_at. rewrite list_lookup_fmap, lookup_seq_lt by done. done. Qed.

Lemma sibs_inv n cores :
  sib_inv n (default [] cores)
    (match cores with Some ms => foldl (core_step n) (replicate n (-1)) ms | None => replicate n (-1) end).
Proof. destruct cores as [ms|]; [apply siblings_fold|apply (siblings_fold n [])]. Qed.

(** Distinct cores share no logical CPU. *)
Definition disjoint_masks (ms : list Z) : Prop :=
  forall m m', m ∈ ms -> m' ∈ ms -> m <> m' -> Z.land m m' = 0.

Lemma disjoint_same n ms m m' q :
  disjoint_masks ms -> m ∈ ms -> m' ∈ ms -> q ∈ qsInGroup n m -> q ∈ qsInGroup n m' -> m = m'.
Proof.
  intros Hd Hm Hm' (_ & _ & H1)%elem_qs (_ & _ & H2)%elem_qs.
  destruct (decide (m = m')) as [->|Hne]; [done|].
  assert (Hb : Z.testbit (Z.land m m') (Z.of_nat q + 1) = true) by (by rewrite Z.land_spec, H1, H2).
  by rewrite (Hd _ _ Hm Hm' Hne), Z.testbit_0_l in Hb.
Qed.

(** [C40] Whatever masks the operating system reports, [BuildTopology] fills in
    indices of existing workers only.  A sibling is a worker whose core's pool
    workers are exactly the two; when cores share no logical CPU every such pair
    are each other's siblings.  A worker's cluster mates are the workers of the
    largest cache group it is in (of two or more), or of the whole pool when the
    cache query failed, each once, without the worker and its sibling; a worker
    in no cache group has none. *)
Theorem build_topology_spec n cores caches :
  let tp := BuildTopology n cores caches in
  let sib := sibling (siblingQIndex tp) in
  let mates := mates_at (clusterMates tp) in
  topology_ok n tp /\
  (forall q q', (q < n)%nat -> sib q = Z.of_nat q' ->
     q <> q' /\ exists m, m ∈ default [] cores /\ on_core n m q q') /\
  (disjoint_masks (default [] cores) -> forall m q q', m ∈ default [] cores -> on_core n m q q' ->
     sib q = Z.of_nat q' /\ sib q' = Z.of_nat q) /\
  (forall q, (q < n)%nat ->
     NoDup (mates q) /\ (forall q', q' ∈ mates q -> q' <> q /\ Z.of_nat q' <> sib q) /\
     match caches with
     | None => forall q', q' ∈ mates q <-> (q' < n)%nat /\ q' <> q /\ Z.of_nat q' <> sib q
     | Some ms =>
         (mates q = [] /\ forall m, m ∈ ms -> q ∈ qsInGroup n m -> qsInGroup n m = [q]) \/
         (exists m, m ∈ ms /\ q ∈ qsInGroup n m /\
            (forall q', q' ∈ mates q <-> q' ∈ qsInGroup n m /\ q' <> q /\ Z.of_nat q' <> sib q) /\
            forall m', m' ∈ ms -> q ∈ qsInGroup n m' -> (length (qsInGroup n m') <= length (qsInGroup n m))%nat)
     end).
Proof.
  unfold BuildTopology. cbv zeta. cbn [siblingQIndex clusterMates].
  pose proof (sibs_inv n cores) as Hs. revert Hs.
  generalize (match cores with Some ms => foldl (core_step n) (replicate n (-1)) ms | None => replicate n (-1) end).
  intros sib Hs. pose proof (sib_inv_bounded _ _ _ Hs) as Hb. destruct Hs as [Hl Hs].
  assert (Hof : forall q g, NoDup g -> NoDup (others sib q g) /\
    (forall q', q' ∈ others sib q g <-> q' ∈ g /\ q' <> q /\ Z.of_nat q' <> sibling sib q)).
  { intros q g Hg. split; [by apply NoDup_filter|]. intros q'. unfold others. rewrite list_elem_of_filter. tauto. }
  split; [|split; [|split]].
  - unfold topology_ok. cbn [siblingQIndex clusterMates]. split_and!; try done.
    + destruct caches as [ms|]; [apply (clusters_fold n sib ms)|by rewrite length_fmap, length_seq].
    + destruct caches as [ms|]; [eapply cluster_inv_bounded, clusters_fold|].
      apply Forall_fmap, Forall_forall. intros q _. apply Forall_forall. intros x Hx%others_subset.
      apply elem_of_seq in Hx. lia.
  - intros q q' Hq E. destruct (Hs q Hq) as [[? _]|(m & q1 & Hm & Hc & E')]; [lia|].
    assert (q1 = q') as -> by lia. split; [by apply on_core_in in Hc as (_ & _ & ?)|eauto].
  - intros Hd m q q' Hm Hc.
    assert (Hone : forall q q', on_core n m q q' -> sibling sib q = Z.of_nat q').
    { clear q q' Hc. intros q q' Hc. pose proof (on_core_in _ _ _ _ Hc) as (Hq & _ & _).
      destruct (Hs q) as [[_ Hn]|(m' & q1 & Hm' & Hc' & ->)]; [by apply elem_qs in Hq as [? _]|by destruct (Hn _ _ Hm Hc)|].
      pose proof (on_core_in _ _ _ _ Hc') as (Hq' & _ & _).
      assert (m = m') as <- by (eapply disjoint_same; eauto).
      f_equal. destruct Hc as [Hc|Hc], Hc' as [Hc'|Hc']; rewrite Hc in Hc'; by simplify_eq. }
    split; apply Hone; [done|]. destruct Hc; [by right|by left].
  - intros q Hq. destruct caches as [ms|].
    + destruct (clusters_fold n sib ms) as [_ H]. destruct (H q Hq) as [[He Hn]|(m & Hm & Hin & He & H2 & Hmax)]; rewrite He.
      * split; [constructor|]. split; [set_solver|]. left. split; [done|]. intros m Hm Hin.
        specialize (Hn m Hm Hin). destruct (qsInGroup n m) as [|x [|]]; [set_solver| |simpl in Hn; lia].
        apply list_elem_of_singleton in Hin. by subst.
      * destruct (Hof q _ (nodup_qs n m)) as [Hnd Hel]. split; [done|]. split; [intros q' Hq'%Hel; tauto|].
        right. exists m. auto.
    + rewrite fallback_at by done. destruct (Hof q _ (NoDup_seq 0 n)) as [Hnd Hel].
      split; [done|]. split; [intros q' Hq'%Hel; tauto|]. intros q'. rewrite Hel, elem_of_seq.
      split; intros (? & ? & ?); split_and!; (done || lia).
Qed.

(** Eight logical CPUs, two per core, one cache for all: main sits on CPU 0, so
    worker 0 has no sibling in the pool. *)
Lemma build_topology_spec_witness :
  let tp := BuildTopology 7 (Some [3; 12; 48; 192]) (Some [3; 12; 48; 192; 255]) in
  disjoint_masks [3; 12; 48; 192] /\
  tp = mk_topology [-1; 2; 1; 4; 3; 6; 5]
    [[1; 2; 3; 4; 5; 6]; [0; 3; 4; 5; 6]; [0; 3; 4; 5; 6]; [0; 1; 2; 5; 6]; [0; 1; 2; 5; 6];
     [0; 1; 2; 3; 4]; [0; 1; 2; 3; 4]]%nat /\
  sibling (siblingQIndex tp) 1 = 2 /\ sibling (siblingQIndex tp) 2 = 1.
Proof.
  intros tp.
  assert (Hd : disjoint_masks [3; 12; 48; 192]).
  { intros m m' Hm Hm' Hne.
    repeat (apply elem_of_cons in Hm as [->|Hm]); try by apply not_elem_of_nil in Hm.
    all: repeat (apply elem_of_cons in Hm' as [->|Hm']); try (by apply not_elem_of_nil in Hm'); done. }
  split; [done|]. split; [vm_compute; reflexivity|].
  refine (proj1 (proj2 (proj2 (build_topology_spec 7 (Some [3; 12; 48; 192]) (Some [3; 12; 48; 192; 255])))) Hd 12 1%nat 2%nat _ _).
  - right. left.
  - left. vm_compute. reflexivity.
Defined.

(** The query returns the masks of the records with the relation, in order. *)
Lemma group_masks_spec relation len at_off l fuel :
  0 < len < 2 ^ 32 -> laid_out at_off 0 len l -> (length l <= fuel)%nat ->
  GetGroupMasksForRelation fuel relation len (Some (len, at_off)) = Ok (Some (l ≫= masks_of relation)).
Proof.
  intros Hlen Hl Hf. unfold GetGroupMasksForRelation. destruct (Z.eqb_spec len 0); [lia|].
  by rewrite (buffer_walk_spec relation len at_off l 0 fuel) by (done || lia).
Qed.
