(* ===== verification/Epochs.v ===== *)
(** * Epoch-based reclamation ([include/Epochs.h])

    Readers inside an [EpochGuard], threads that unlink and retire objects, and
    the reclaimer, one access to a shared location per step.  [GlobalRetired]
    entries are pairs of a pointer and its epoch; [incoming] is drained in any
    order, as the concurrent queue allows.  Which objects a reader may reach is
    over-approximated: everything linked at some moment since its slot was set.

    Two switches widen what a reader can do: [tso] lets it read before its store
    to the slot is visible (the store is [release], not followed by a fence),
    [nesting] lets a guard be opened inside another one on the same slot. *)
From S2P Require Import Prelude.

Definition SIZE_MAX : Z := 2 ^ 64 - 1.

(** [EpochGuard]'s constructor: about to load, loaded, stored but not visible. *)
Inductive reader_pc := RIdle | RLoaded (e : Z) | RBuffered (e : Z).

Record reader := mk_reader {
  rpc : reader_pc;
  depth : nat;               (* guards open on the slot *)
  localEpoch : Z;            (* the slot *)
  seen : list ptr            (* ghost: linked at some moment since the outermost guard *)
}.

(** [TryReclaim] of the thread that won the exchange on [reclaiming]. *)
Inductive reclaim_pc :=
  | CIdle
  | CDrain
  | CScan (k : nat) (minEpoch : Z)
  | CFree (i kept freed : nat) (safeEpoch : Z)
  | CSub (freed : nat)
  | CRelease.

Record state := mk_state {
  globalEpoch : Z;
  participants : list reader;
  linked : list ptr;
  unlinked : list ptr;             (* unlinked, CurrentEpoch not loaded yet *)
  loaded : list (ptr * Z);         (* about to be enqueued by RetirePtr *)
  counting : nat;                  (* enqueued, retiredCount not incremented yet *)
  incoming : list (ptr * Z);
  pending : list (ptr * Z);
  retiredCount : Z;
  reclaiming : bool;
  reclaimer : reclaim_pc;
  live : list ptr;                 (* ghost: allocated *)
  double_free : bool               (* ghost *)
}.

Definition fresh_slot : reader := mk_reader RIdle 0 SIZE_MAX [].

Definition RegisterParticipant (s : state) : state :=
  mk_state (globalEpoch s) (participants s ++ [fresh_slot]) (linked s) (unlinked s) (loaded s)
    (counting s) (incoming s) (pending s) (retiredCount s) (reclaiming s) (reclaimer s) (live s) (double_free s).

Definition empty : state := mk_state 0 [] [] [] [] 0 [] [] 0 false CIdle [] false.

(** [Init], and the fibers' slots ([GlobalFiberPool::Initialize]) after it. *)
Definition Init (maxThreads : nat) (s : state) : state := Nat.iter maxThreads RegisterParticipant s.

Definition set_reader (s : state) (i : nat) (r : reader) : state :=
  mk_state (globalEpoch s) (<[i := r]> (participants s)) (linked s) (unlinked s) (loaded s)
    (counting s) (incoming s) (pending s) (retiredCount s) (reclaiming s) (reclaimer s) (live s) (double_free s).
Definition set_reclaim (s : state) (pend : list (ptr * Z)) (n : Z) (b : bool) (c : reclaim_pc) : state :=
  mk_state (globalEpoch s) (participants s) (linked s) (unlinked s) (loaded s)
    (counting s) (incoming s) pend n b c (live s) (double_free s).
Definition set_retire (s : state) (li un : list ptr) (lo : list (ptr * Z)) (c : nat) (inc : list (ptr * Z))
    (n : Z) : state :=
  mk_state (globalEpoch s) (participants s) li un lo c inc (pending s) n (reclaiming s)
    (reclaimer s) (live s) (double_free s).

Inductive action :=
  | Enter (i : nat) | Store (i : nat) | Flush (i : nat) | Leave (i : nat)
  | Link (p : ptr) | Unlink (j : nat) | LoadEpoch (j : nat) | Enqueue (j : nat) | Count
  | AdvanceEpoch | TryReclaim | Drain (j : nat) | Reclaim.

Section Exec.
Context (tso nesting : bool).

Definition reader_step (x : action) (r : reader) (s : state) : option reader :=
  match x, rpc r with
  | Enter _, RIdle =>
      if decide (depth r = 0%nat \/ nesting = true)
      then Some (mk_reader (RLoaded (globalEpoch s)) (depth r) (localEpoch r) (seen r)) else None
  | Store _, RLoaded e =>
      let sn := if decide (depth r = 0%nat) then linked s else seen r in
      if tso then Some (mk_reader (RBuffered e) (S (depth r)) (localEpoch r) sn)
      else Some (mk_reader RIdle (S (depth r)) e sn)
  | Flush _, RBuffered e => Some (mk_reader RIdle (depth r) e (seen r))
  | Leave _, RIdle =>
      match depth r with
      | O => None
      | S d => Some (mk_reader RIdle d SIZE_MAX (if decide (d = 0%nat) then [] else seen r))
      end
  | _, _ => None
  end.

(** A new object is seen by the readers that are inside. *)
Definition see (p : ptr) (r : reader) : reader :=
  match depth r with O => r | S _ => mk_reader (rpc r) (depth r) (localEpoch r) (p :: seen r) end.

(** One iteration of the loop that frees or keeps [pending[i]]; the end of it. *)
Definition free_step (i kept freed : nat) (safe : Z) (s : state) : state :=
  match pending s !! i with
  | Some (p, e) =>
      if e <? safe then
        mk_state (globalEpoch s) (participants s) (linked s) (unlinked s) (loaded s) (counting s)
          (incoming s) (pending s) (retiredCount s) (reclaiming s) (CFree (S i) kept (S freed) safe)
          (filter (fun q => q <> p) (live s)) (double_free s || bool_decide (p ∉ live s))
      else set_reclaim s (<[kept := (p, e)]> (pending s)) (retiredCount s) (reclaiming s)
             (CFree (S i) (S kept) freed safe)
  | None => set_reclaim s (take kept (pending s)) (retiredCount s) (reclaiming s) (CSub freed)
  end.

(** [MinActiveEpoch]: the loop, one slot per step. *)
Definition scan_step (k : nat) (m : Z) (s : state) : reclaim_pc :=
  match participants s !! k with
  | Some r =>
      let e := localEpoch r in
      CScan (S k) (if negb (e =? SIZE_MAX) && (e <? m) then e else m)
  | None => CFree 0 0 0 m
  end.

Definition reclaim_step (s : state) : option state :=
  let go := set_reclaim s (pending s) in
  match reclaimer s with
  | CIdle => None
  | CDrain => Some (go (retiredCount s) (reclaiming s) (CScan 0 (globalEpoch s)))
  | CScan k m => Some (go (retiredCount s) (reclaiming s) (scan_step k m s))
  | CFree i kept freed safe => Some (free_step i kept freed safe s)
  | CSub freed =>
      Some (go (if decide (freed = 0%nat) then retiredCount s else u64 (retiredCount s - Z.of_nat freed))
              (reclaiming s) CRelease)
  | CRelease => Some (go (retiredCount s) false CIdle)
  end.

Definition exec (x : action) (s : state) : option state :=
  match x with
  | Enter i | Store i | Flush i | Leave i =>
      r ← participants s !! i; r' ← reader_step x r s; Some (set_reader s i r')
  | Link p =>
      if decide (p ∈ live s) then None
      else Some (mk_state (globalEpoch s) (see p <$> participants s) (p :: linked s) (unlinked s) (loaded s)
                   (counting s) (incoming s) (pending s) (retiredCount s) (reclaiming s) (reclaimer s)
                   (p :: live s) (double_free s))
  | Unlink j =>
      p ← linked s !! j;
      Some (set_retire s (delete j (linked s)) (p :: unlinked s) (loaded s) (counting s) (incoming s) (retiredCount s))
  | LoadEpoch j =>
      p ← unlinked s !! j;
      Some (set_retire s (linked s) (delete j (unlinked s)) ((p, globalEpoch s) :: loaded s) (counting s)
              (incoming s) (retiredCount s))
  | Enqueue j =>
      x ← loaded s !! j;
      Some (set_retire s (linked s) (unlinked s) (delete j (loaded s)) (S (counting s)) (incoming s ++ [x])
              (retiredCount s))
  | Count =>
      match counting s with
      | O => None
      | S c => Some (set_retire s (linked s) (unlinked s) (loaded s) c (incoming s) (u64 (retiredCount s + 1)))
      end
  | AdvanceEpoch =>
      Some (mk_state (u64 (globalEpoch s + 1)) (participants s) (linked s) (unlinked s) (loaded s) (counting s)
              (incoming s) (pending s) (retiredCount s) (reclaiming s) (reclaimer s) (live s) (double_free s))
  | TryReclaim =>
      if reclaiming s then Some s
      else Some (set_reclaim s (pending s) (retiredCount s) true CDrain)
  | Drain j =>
      match reclaimer s with
      | CDrain =>
          x ← incoming s !! j;
          Some (mk_state (globalEpoch s) (participants s) (linked s) (unlinked s) (loaded s) (counting s)
                  (delete j (incoming s)) (pending s ++ [x]) (retiredCount s) (reclaiming s) CDrain
                  (live s) (double_free s))
      | _ => None
      end
  | Reclaim => reclaim_step s
  end.
End Exec.

(** ** The invariant of guards that do not nest and fence their store *)

(** The entries of [pending] not freed yet; those freed and not subtracted from
    the count. *)
Definition remaining (s : state) : list (ptr * Z) :=
  match reclaimer s with
  | CFree i kept _ _ => take kept (pending s) ++ drop i (pending s)
  | _ => pending s
  end.
Definition unsubtracted (s : state) : nat :=
  match reclaimer s with CFree _ _ f _ | CSub f => f | _ => 0 end.

Definition retired (s : state) : list (ptr * Z) := loaded s ++ incoming s ++ remaining s.

(** [p] cannot be freed before a reader with epoch [lo] leaves. *)
Definition kept_for (s : state) (lo : Z) (p : ptr) : Prop :=
  p ∈ linked s \/ p ∈ unlinked s \/ exists e, (p, e) ∈ retired s /\ lo <= e.

Record reader_ok (s : state) (r : reader) : Prop := {
  ro_pc : rpc r = RIdle \/ (depth r = 0%nat /\ exists e, rpc r = RLoaded e /\ 0 <= e <= globalEpoch s);
  ro_depth : (depth r <= 1)%nat;
  ro_out : depth r = 0%nat -> localEpoch r = SIZE_MAX;
  ro_in : depth r <> 0%nat -> 0 <= localEpoch r <= globalEpoch s;
  ro_seen : depth r <> 0%nat -> forall p, p ∈ seen r -> kept_for s (localEpoch r) p
}.

(** The reclaimer took the reader's slot into account. *)
Definition covered (l : list (ptr * Z)) (m : Z) (r : reader) : Prop :=
  depth r <> 0%nat -> forall p e, (p, e) ∈ l -> p ∈ seen r -> m <= localEpoch r.

Definition scanned (s : state) : Prop :=
  match reclaimer s with
  | CScan k m => forall i r, (i < k)%nat -> participants s !! i = Some r -> covered (pending s) m r
  | CFree i kept _ m => (kept <= i <= length (pending s))%nat /\
      forall i r, participants s !! i = Some r -> covered (remaining s) m r
  | _ => True
  end.

Record inv (s : state) : Prop := {
  inv_epoch : 0 <= globalEpoch s < SIZE_MAX;
  inv_live : forall p, occ p (live s) =
    (occ p (linked s) + occ p (unlinked s) + occ p (retired s).*1)%nat;
  inv_once : forall p, (occ p (live s) <= 1)%nat;
  inv_readers : forall i r, participants s !! i = Some r -> reader_ok s r;
  inv_scanned : scanned s;
  inv_flag : reclaiming s = match reclaimer s with CIdle => false | _ => true end;
  inv_count : retiredCount s =
    u64 (Z.of_nat (length (incoming s) + length (remaining s) + unsubtracted s) - Z.of_nat (counting s));
  inv_free : double_free s = false
}.

Lemma occ_fst p (l : list (ptr * Z)) e : (p, e) ∈ l -> (0 < occ p l.*1)%nat.
Proof. intros H. apply occ_elem, list_elem_of_fmap. by exists (p, e). Qed.

Lemma occ_fst_unique p (l : list (ptr * Z)) e e' :
  (p, e) ∈ l -> (p, e') ∈ l -> (occ p l.*1 <= 1)%nat -> e = e'.
Proof.
  induction l as [|[q x] l IH]; [by intros ?%not_elem_of_nil|]. rewrite !elem_of_cons, fmap_cons. cbn [occ fst].
  intros [H1|H1] [H2|H2] Hle; simplify_eq; try done.
  - apply occ_fst in H2. rewrite decide_True in Hle by done.
    lia.
  - apply occ_fst in H1. rewrite decide_True in Hle by done. lia.
  - apply IH; try done. lia.
Qed.

Lemma occ_retired s p : occ p (retired s).*1 =
  (occ p (loaded s).*1 + occ p (incoming s).*1 + occ p (remaining s).*1)%nat.
Proof. unfold retired. rewrite !fmap_app, !occ_app. lia. Qed.

Lemma occ_fst_delete p (l : list (ptr * Z)) j q e :
  l !! j = Some (q, e) -> occ p l.*1 = ((if decide (q = p) then 1 else 0) + occ p (delete j l).*1)%nat.
Proof.
  revert j. induction l as [|z l IH]; intros [|j] H; try done.
  - by injection H as ->.
  - change (delete (S j) (z :: l)) with (z :: delete j l). rewrite !fmap_cons. cbn [occ].
    rewrite (IH j H). lia.
Qed.

Lemma elem_delete {A} `{EqDecision A} (l : list A) j x y : l !! j = Some x -> y ∈ l -> y = x \/ y ∈ delete j l.
Proof. intros Hj H. rewrite (delete_Permutation _ _ _ Hj) in H. by apply elem_of_cons in H. Qed.
Lemma elem_delete_in {A} (l : list A) j y : y ∈ delete j l -> y ∈ l.
Proof. intros (i & Hi)%list_elem_of_lookup. rewrite list_lookup_delete in Hi. apply list_elem_of_lookup. case_match; eauto. Qed.

(** A step that does not touch a reader keeps it in order if what the reader has
    seen is still kept for it. *)
Lemma reader_ok_mono s s' r :
  globalEpoch s <= globalEpoch s' ->
  (depth r <> 0%nat -> forall p, p ∈ seen r -> kept_for s (localEpoch r) p -> kept_for s' (localEpoch r) p) ->
  reader_ok s r -> reader_ok s' r.
Proof.
  intros Hg Hk [H1 H2 H3 H4 H5]. constructor; auto.
  - destruct H1 as [?|(? & e & ? & ?)]; [by left|]. right. split; [done|]. exists e. split; [done|lia].
  - intros H. specialize (H4 H). lia.
Qed.

Lemma kept_for_perm s s' lo p :
  (forall p, p ∈ linked s -> p ∈ linked s' \/ p ∈ unlinked s') ->
  (forall p, p ∈ unlinked s -> p ∈ unlinked s' \/ exists e, (p, e) ∈ retired s' /\ lo <= e) ->
  (forall x, x ∈ retired s -> x ∈ retired s') ->
  kept_for s lo p -> kept_for s' lo p.
Proof.
  intros H1 H2 H3 [H|[H|(e & H & Hle)]]; unfold kept_for.
  - destruct (H1 _ H); auto.
  - destruct (H2 _ H) as [?|(e & ? & ?)]; [auto|]. right. right. by exists e.
  - right. right. exists e. auto.
Qed.

(** Where an object in a reader's sight can be. *)
Lemma linked_not_retired s p e : inv s -> p ∈ linked s -> (p, e) ∈ retired s -> False.
Proof.
  intros H Hl Hr. pose proof (inv_live s H p). pose proof (inv_once s H p).
  apply occ_elem in Hl. apply occ_fst in Hr. lia.
Qed.
Lemma not_live_not_retired s p e : inv s -> p ∉ live s -> (p, e) ∈ retired s -> False.
Proof.
  intros H Hl%occ_zero Hr. pose proof (inv_live s H p). apply occ_fst in Hr. lia.
Qed.
Lemma pending_retired s x : x ∈ remaining s -> x ∈ retired s.
Proof. unfold retired. rewrite !elem_of_app. auto. Qed.

Lemma kept_for_live s lo p : inv s -> kept_for s lo p -> p ∈ live s.
Proof.
  intros H Hk. apply occ_elem. rewrite (inv_live s H).
  destruct Hk as [Hk|[Hk|(e & Hk & _)]]; [apply occ_elem in Hk|apply occ_elem in Hk|apply occ_fst in Hk]; lia.
Qed.

Lemma inv_empty : inv empty.
Proof. constructor; unfold empty, retired, remaining; simpl; try done; try lia. Qed.

Lemma inv_register s : inv s -> reclaimer s = CIdle -> inv (RegisterParticipant s).
Proof.
  intros [H1 H2 H3 H4 H5 H6 H7 H8] Hc. constructor; try done.
  - intros i r [Hi|[_ Hi]]%lookup_app_Some.
    + eapply reader_ok_mono; [| |by eapply H4]; [done|]. intros _ p _. exact (fun h => h).
    + apply list_lookup_singleton_Some in Hi as [_ <-]. by constructor; simpl; auto.
  - unfold scanned. simpl. by rewrite Hc.
Qed.

Lemma inv_init n : inv (Init n empty) /\ reclaimer (Init n empty) = CIdle.
Proof.
  unfold Init. induction n as [|n [IH1 IH2]]; simpl; [split; [apply inv_empty|done]|].
  split; [by apply inv_register|done].
Qed.

(** ** Preservation *)

(** Steps that only change which list an object is in. *)
Lemma inv_moved s li un lo c inc n :
  inv s ->
  let s' := set_retire s li un lo c inc n in
  (forall p, (occ p li + occ p un + occ p lo.*1 + occ p inc.*1 =
     occ p (linked s) + occ p (unlinked s) + occ p (loaded s).*1 + occ p (incoming s).*1)%nat) ->
  (forall e p, e <= globalEpoch s -> kept_for s e p -> kept_for s' e p) ->
  n = u64 (Z.of_nat (length inc + length (remaining s) + unsubtracted s) - Z.of_nat c) ->
  inv s'.
Proof.
  intros H s' Hocc Hk Hn. destruct H as [H1 H2 H3 H4 H5 H6 H7 H8]. constructor; try done.
  - intros p. simpl. rewrite H2, !occ_retired. specialize (Hocc p). simpl.
    change (remaining s') with (remaining s). lia.
  - intros i r Hi. eapply reader_ok_mono; [|intros Hd p _ Hp; apply Hk, Hp|by eapply H4]; [done|].
    by apply (ro_in _ _ (H4 _ _ Hi)).
Qed.

Lemma inv_Unlink s j p :
  inv s -> linked s !! j = Some p ->
  inv (set_retire s (delete j (linked s)) (p :: unlinked s) (loaded s) (counting s) (incoming s) (retiredCount s)).
Proof.
  intros H Hj. apply inv_moved; [done| | |apply (inv_count s H)].
  - intros q. rewrite (occ_delete q _ _ _ Hj). simpl. lia.
  - intros e q _. apply kept_for_perm; simpl; [| |done].
    + intros x Hx. destruct (elem_delete _ _ _ _ Hj Hx) as [->|]; [right; by left|by left].
    + intros x Hx. left. by right.
Qed.

Lemma inv_LoadEpoch s j p :
  inv s -> unlinked s !! j = Some p ->
  inv (set_retire s (linked s) (delete j (unlinked s)) ((p, globalEpoch s) :: loaded s) (counting s)
         (incoming s) (retiredCount s)).
Proof.
  intros H Hj. apply inv_moved; [done| | |apply (inv_count s H)].
  - intros q. rewrite fmap_cons. cbn [occ fst]. rewrite (occ_delete q _ _ _ Hj). simpl. lia.
  - intros e q He. apply kept_for_perm; simpl; [by left| |].
    + intros x Hx. destruct (elem_delete _ _ _ _ Hj Hx) as [->|]; [right|by left].
      exists (globalEpoch s). split; [by left|done].
    + intros x Hx. by right.
Qed.

Lemma inv_Enqueue s j x :
  inv s -> loaded s !! j = Some x ->
  inv (set_retire s (linked s) (unlinked s) (delete j (loaded s)) (S (counting s)) (incoming s ++ [x])
         (retiredCount s)).
Proof.
  intros H Hj. apply inv_moved; [done| | |].
  - intros q. destruct x as [p e]. rewrite fmap_app, occ_app, (occ_fst_delete q _ _ _ _ Hj).
    change ([(p, e)].*1) with [p]. cbn [occ]. lia.
  - intros e q _. apply kept_for_perm; simpl; [by left|by left|].
    intros y. unfold retired. simpl. change (remaining (set_retire _ _ _ _ _ _ _)) with (remaining s).
    rewrite !elem_of_app, list_elem_of_singleton.
    intros [Hy|[Hy|Hy]]; [destruct (elem_delete _ _ _ _ Hj Hy)| |]; auto.
  - rewrite (inv_count s H), length_app. f_equal. simpl. lia.
Qed.

Lemma inv_Count s c :
  inv s -> counting s = S c ->
  inv (set_retire s (linked s) (unlinked s) (loaded s) c (incoming s) (u64 (retiredCount s + 1))).
Proof.
  intros H Hc. apply inv_moved; [done|lia|done|].
  rewrite (inv_count s H), Hc. unfold u64. rewrite Zplus_mod_idemp_l. f_equal. lia.
Qed.

Lemma inv_AdvanceEpoch s :
  inv s -> globalEpoch s + 1 < SIZE_MAX ->
  inv (mk_state (u64 (globalEpoch s + 1)) (participants s) (linked s) (unlinked s) (loaded s) (counting s)
         (incoming s) (pending s) (retiredCount s) (reclaiming s) (reclaimer s) (live s) (double_free s)).
Proof.
  intros [H1 H2 H3 H4 H5 H6 H7 H8] Hb. unfold SIZE_MAX in *. rewrite u64_small by lia.
  constructor; try done; simpl; [unfold SIZE_MAX; lia|].
  intros i r Hi. eapply reader_ok_mono; [| |by eapply H4]; [simpl; lia|]. intros _ p _ h. exact h.
Qed.

Lemma see_fields p r : rpc (see p r) = rpc r /\ depth (see p r) = depth r /\ localEpoch (see p r) = localEpoch r.
Proof. unfold see. destruct (depth r) eqn:E; simpl; auto. Qed.

Lemma covered_see l m p r :
  (forall e, (p, e) ∉ l) -> covered l m r -> covered l m (see p r).
Proof.
  intros Hp Hc. destruct (see_fields p r) as (_ & Hd & Hl). unfold covered. rewrite Hd, Hl.
  intros H0 q e Hq Hs. apply (Hc H0 q e Hq). unfold see in Hs. destruct (depth r); [done|]. simpl in Hs.
  apply elem_of_cons in Hs as [->|]; [by apply Hp in Hq|done].
Qed.

Lemma inv_Link s p :
  inv s -> p ∉ live s ->
  inv (mk_state (globalEpoch s) (see p <$> participants s) (p :: linked s) (unlinked s) (loaded s)
         (counting s) (incoming s) (pending s) (retiredCount s) (reclaiming s) (reclaimer s)
         (p :: live s) (double_free s)).
Proof.
  intros H Hp. pose proof H as [H1 H2 H3 H4 H5 H6 H7 H8].
  assert (Hno : forall (l : list (ptr * Z)) e, (forall x, x ∈ l -> x ∈ remaining s) -> (p, e) ∉ l).
  { intros l e Hl Hin. eapply not_live_not_retired; [done|done|]. by apply pending_retired, Hl. }
  constructor; try done.
  - intros q. unfold retired, remaining in *. simpl. rewrite H2. simpl. lia.
  - intros q. simpl. specialize (H3 q). case_decide as E; [subst; rewrite occ_zero by done|]; lia.
  - intros i r Hi. simpl in Hi. rewrite list_lookup_fmap in Hi.
    destruct (participants s !! i) as [r0|] eqn:E; [|done]. injection Hi as <-.
    destruct (H4 _ _ E) as [R1 R2 R3 R4 R5]. destruct (see_fields p r0) as (F1 & F2 & F3).
    constructor; rewrite ?F1, ?F2, ?F3; try done.
    intros Hd q Hq. unfold see in Hq. destruct (depth r0); [done|]. simpl in Hq.
    apply elem_of_cons in Hq as [->|Hq]; [left; by left|].
    destruct (R5 Hd q Hq) as [?|[?|?]]; [left; by right|right; by left|right; by right].
  - unfold scanned in *. simpl. destruct (reclaimer s) as [| |k m|i kept f m| |] eqn:Er; try done.
    + intros i r Hi Hr. rewrite list_lookup_fmap in Hr.
      destruct (participants s !! i) as [r0|] eqn:E; [|done]. injection Hr as <-.
      apply covered_see; [|by eapply H5]. intros e. apply Hno. unfold remaining. by rewrite Er.
    + destruct H5 as [Hle H5]. split; [done|]. intros j r Hr. rewrite list_lookup_fmap in Hr.
      destruct (participants s !! j) as [r0|] eqn:E; [|done]. injection Hr as <-.
      apply covered_see; [intros e; apply Hno; unfold remaining; by rewrite Er|].
      specialize (H5 _ _ E). unfold remaining in *. simpl. by rewrite Er in H5.
Qed.

Lemma inv_reader s i r' :
  inv s -> reader_ok s r' ->
  (depth r' <> 0%nat -> forall p e, (p, e) ∈ remaining s -> p ∉ seen r') ->
  inv (set_reader s i r').
Proof.
  intros [H1 H2 H3 H4 H5 H6 H7 H8] Hr Hc. constructor; try done.
  - intros j r Hj. simpl in Hj. apply list_lookup_insert_Some in Hj as [(-> & -> & _)|[_ Hj]]; [|eapply H4 in Hj].
    + eapply reader_ok_mono; [| |done]; [done|]. intros _ p _ h. exact h.
    + eapply reader_ok_mono; [| |done]; [done|]. intros _ p _ h. exact h.
  - unfold scanned, remaining in *. simpl. destruct (reclaimer s) as [| |k m|i' kept f m| |] eqn:Er; try done.
    + intros j r Hk Hj. apply list_lookup_insert_Some in Hj as [(-> & -> & _)|[_ Hj]]; [|by eapply H5].
      intros Hd p e Hp Hs. by destruct (Hc Hd p e Hp).
    + destruct H5 as [Hle H5]. split; [done|]. intros j r Hj.
      apply list_lookup_insert_Some in Hj as [(-> & -> & _)|[_ Hj]]; [|by eapply H5].
      intros Hd p e Hp Hs. by destruct (Hc Hd p e Hp).
Qed.

Lemma inv_reader_step x s i r r' :
  inv s -> participants s !! i = Some r -> reader_step false false x r s = Some r' -> inv (set_reader s i r').
Proof.
  intros H Hi Hx. pose proof (inv_readers s H i r Hi) as [R1 R2 R3 R4 R5].
  pose proof (inv_epoch s H). apply inv_reader; [done| |].
  - unfold reader_step in Hx.
    destruct x; try done; destruct (rpc r) as [|e|e] eqn:Er; try done;
      (destruct R1 as [R1|(Hd & e' & R1 & He)]; [try discriminate R1|try discriminate R1]).
    + case_decide as Hd; [|done]. destruct Hd as [Hd|]; [|done]. injection Hx as <-.
      constructor; simpl; auto; try lia. right. split; [done|]. exists (globalEpoch s). split; [done|lia].
    + injection Hx as <-. injection R1 as <-. rewrite Hd in *.
      constructor; simpl; try done; auto; try lia. intros _ p Hp. by left.
    + destruct (depth r) as [|d]; [done|]. injection Hx as <-. assert (d = 0%nat) as -> by lia.
      constructor; simpl; auto; lia.
  - unfold reader_step in Hx. intros Hd' p e Hp Hs.
    destruct x; try done; destruct (rpc r) as [|e0|e0] eqn:Er; try done.
    + case_decide as Hd; [|done]. destruct Hd as [Hd|]; [|done]. injection Hx as <-. simpl in *. lia.
    + destruct R1 as [R1|(Hd & _)]; [discriminate R1|]. injection Hx as <-. simpl in Hs.
      rewrite decide_True in Hs by done. by eapply linked_not_retired; [|done|apply pending_retired].
    + destruct R1 as [R1|(_ & e' & R1 & _)]; discriminate R1.
    + destruct (depth r) as [|d]; [done|]. injection Hx as <-. simpl in *. lia.
Qed.

(** Steps of the reclaimer that free nothing. *)
Lemma inv_reclaim s inc pend n b c s' :
  inv s ->
  s' = mk_state (globalEpoch s) (participants s) (linked s) (unlinked s) (loaded s) (counting s)
         inc pend n b c (live s) (double_free s) ->
  (forall x, occ x (inc ++ remaining s') = occ x (incoming s ++ remaining s)) ->
  scanned s' -> b = match c with CIdle => false | _ => true end ->
  n = u64 (Z.of_nat (length (incoming s) + length (remaining s) + unsubtracted s') - Z.of_nat (counting s)) ->
  inv s'.
Proof.
  intros [H1 H2 H3 H4 H5 H6 H7 H8] -> Hocc Hsc Hb Hn. set (s' := mk_state _ _ _ _ _ _ _ _ _ _ _ _ _) in *.
  assert (Hlen : (length inc + length (remaining s') = length (incoming s) + length (remaining s))%nat).
  { rewrite <- !length_app. apply Permutation_length, occ_perm. done. }
  assert (Hin : forall x, x ∈ retired s <-> x ∈ retired s').
  { intros x. unfold retired. simpl. rewrite !(elem_of_app (loaded s)).
    assert (x ∈ incoming s ++ remaining s <-> x ∈ inc ++ remaining s') by (by rewrite !occ_elem, Hocc). tauto. }
  constructor; try done.
  - intros p. rewrite !occ_retired in *. simpl. rewrite H2, occ_retired.
    assert (E : occ p (inc ++ remaining s').*1 = occ p (incoming s ++ remaining s).*1).
    { apply occ_Permutation, fmap_Permutation, occ_perm. done. }
    rewrite !fmap_app, !occ_app in E. lia.
  - intros i r Hi. eapply reader_ok_mono; [| |by eapply H4]; [done|].
    intros _ p _. apply kept_for_perm; [by left|by left|by intros x ?%Hin].
  - simpl. rewrite Hn. f_equal. f_equal. lia.
Qed.

Lemma inv_TryReclaim s :
  inv s -> reclaiming s = false -> inv (set_reclaim s (pending s) (retiredCount s) true CDrain).
Proof.
  intros H Hb. pose proof (inv_flag s H) as Hf. rewrite Hb in Hf.
  destruct (reclaimer s) eqn:Er; try discriminate Hf.
  eapply inv_reclaim; [exact H|reflexivity| |done|done|].
  - intros x. unfold remaining. simpl. by rewrite Er.
  - rewrite (inv_count s H). unfold unsubtracted. simpl. by rewrite Er.
Qed.

Lemma inv_Drain s j x :
  inv s -> reclaimer s = CDrain -> incoming s !! j = Some x ->
  inv (mk_state (globalEpoch s) (participants s) (linked s) (unlinked s) (loaded s) (counting s)
         (delete j (incoming s)) (pending s ++ [x]) (retiredCount s) (reclaiming s) CDrain
         (live s) (double_free s)).
Proof.
  intros H Er Hj. eapply inv_reclaim; [exact H|reflexivity| |done| |].
  - intros y. unfold remaining. simpl. rewrite Er, !occ_app, (occ_delete y _ _ _ Hj). lia.
  - by rewrite (inv_flag s H), Er.
  - rewrite (inv_count s H). unfold unsubtracted. simpl. by rewrite Er.
Qed.

Lemma scan_ok s k m :
  inv s -> reclaimer s = CScan k m ->
  scanned (set_reclaim s (pending s) (retiredCount s) (reclaiming s) (scan_step k m s)).
Proof.
  intros H Er. pose proof (inv_scanned s H) as Hs. unfold scanned in Hs. rewrite Er in Hs.
  unfold scan_step. destruct (participants s !! k) as [r|] eqn:Ek.
  - intros i r' Hi Hr' Hd p e Hp Hse. 
    set (m' := if negb (localEpoch r =? SIZE_MAX) && (localEpoch r <? m) then localEpoch r else m).
    assert (Hm : m' <= m /\ (localEpoch r <> SIZE_MAX -> m' <= localEpoch r)).
    { unfold m'. destruct (Z.eqb_spec (localEpoch r) SIZE_MAX), (Z.ltb_spec (localEpoch r) m); simpl; lia. }
    destruct (decide (i = k)) as [->|Hne].
    + simpl in Hr'. rewrite Ek in Hr'. injection Hr' as <-. apply Hm.
      pose proof (ro_in s r (inv_readers s H k r Ek) Hd). pose proof (inv_epoch s H). lia.
    + assert (m <= localEpoch r') by (eapply (Hs i r'); eauto; lia). lia.
  - split; [lia|]. intros i r' Hr'. change (remaining _) with (drop 0 (pending s)). rewrite drop_0.
    apply (Hs i); [|done]. apply lookup_lt_Some in Hr'. simpl in Hr'. apply lookup_ge_None in Ek. lia.
Qed.

Lemma remaining_step {A} (l : list A) i kept x :
  (kept <= i)%nat -> l !! i = Some x ->
  take kept l ++ drop i l = take kept l ++ x :: drop (S i) l /\
  take (S kept) (<[kept := x]> l) ++ drop (S i) (<[kept := x]> l) = (take kept l ++ [x]) ++ drop (S i) l.
Proof.
  intros Hle Hi. pose proof (lookup_lt_Some _ _ _ Hi). split; [by rewrite (drop_S _ _ _ Hi)|].
  rewrite drop_insert_lt by lia. f_equal.
  rewrite (take_S_r _ _ x) by (by rewrite list_lookup_insert_eq by lia).
  by rewrite take_insert_ge by lia.
Qed.

(** What the reclaimer frees is in no reader's sight. *)
Lemma freed_unseen s i kept f safe p e j r :
  inv s -> reclaimer s = CFree i kept f safe -> pending s !! i = Some (p, e) -> e < safe ->
  participants s !! j = Some r -> depth r <> 0%nat -> p ∉ seen r.
Proof.
  intros H Er Hp He Hj Hd Hs. pose proof (inv_scanned s H) as Hsc. unfold scanned in Hsc. rewrite Er in Hsc.
  destruct Hsc as [Hle Hsc]. destruct (remaining_step _ i kept (p, e) (proj1 Hle) Hp) as [Hrem _].
  assert (Hin : (p, e) ∈ remaining s).
  { unfold remaining. rewrite Er, Hrem. apply elem_of_app. right. by left. }
  pose proof (Hsc j r Hj Hd p e Hin Hs) as Hlo.
  pose proof (inv_once s H p) as H1. rewrite (inv_live s H) in H1.
  pose proof (occ_fst _ _ _ (pending_retired _ _ Hin)) as H2.
  destruct (ro_seen s r (inv_readers s H j r Hj) Hd p Hs) as [Hk|[Hk|(e' & Hk & Hle')]].
  - apply occ_elem in Hk. lia.
  - apply occ_elem in Hk. lia.
  - assert (e = e') as <-; [|lia]. eapply occ_fst_unique; [by apply pending_retired|done|lia].
Qed.

Lemma occ_filter_ne p q (l : list ptr) :
  occ q (filter (fun x => x <> p) l) = (if decide (q = p) then 0 else occ q l)%nat.
Proof.
  induction l as [|x l IH]; [by case_decide|]. rewrite filter_cons. cbn [occ].
  repeat case_decide; subst; cbn [occ]; rewrite ?IH; repeat case_decide; subst; (done || lia).
Qed.

Lemma inv_freed s i kept f safe p e :
  inv s -> reclaimer s = CFree i kept f safe -> pending s !! i = Some (p, e) -> e < safe ->
  inv (mk_state (globalEpoch s) (participants s) (linked s) (unlinked s) (loaded s) (counting s)
         (incoming s) (pending s) (retiredCount s) (reclaiming s) (CFree (S i) kept (S f) safe)
         (filter (fun q => q <> p) (live s)) (double_free s || bool_decide (p ∉ live s))).
Proof.
  intros H Er Hp He. set (s' := mk_state _ _ _ _ _ _ _ _ _ _ _ _ _).
  pose proof (inv_scanned s H) as Hsc. unfold scanned in Hsc. rewrite Er in Hsc. destruct Hsc as [Hle Hsc].
  destruct (remaining_step _ i kept (p, e) (proj1 Hle) Hp) as [Hrem _].
  assert (Hr : remaining s = take kept (pending s) ++ (p, e) :: drop (S i) (pending s)) by (unfold remaining; by rewrite Er).
  assert (Hr' : remaining s' = take kept (pending s) ++ drop (S i) (pending s)) by done.
  assert (Hocc : forall q, occ q (retired s).*1 = ((if decide (p = q) then 1 else 0) + occ q (retired s').*1)%nat).
  { intros q. rewrite !occ_retired, Hr, Hr', !fmap_app, !occ_app, fmap_cons. simpl. lia. }
  assert (Hp1 : occ p (live s) = 1%nat).
  { pose proof (inv_once s H p). pose proof (inv_live s H p). specialize (Hocc p).
    rewrite decide_True in Hocc by done. lia. }
  assert (Hsub : forall x, x ∈ retired s' -> x ∈ retired s).
  { intros x. unfold retired. rewrite Hr, Hr', !elem_of_app, elem_of_cons. tauto. }
  constructor; try done.
  - exact (inv_epoch s H).
  - intros q. unfold s' at 1 2 3. simpl. rewrite occ_filter_ne. specialize (Hocc q).
    pose proof (inv_live s H q). destruct (decide (q = p)) as [->|Hne].
    + rewrite decide_True in Hocc by done. lia.
    + rewrite decide_False in Hocc by done. lia.
  - intros q. unfold s'. simpl. rewrite occ_filter_ne. pose proof (inv_once s H q). case_decide; lia.
  - intros j r Hj. eapply reader_ok_mono; [| |by eapply inv_readers]; [done|].
    intros Hd q Hq [Hk|[Hk|(x & Hk & Hlo)]]; [by left|by (right; left)|]. right. right. exists x. split; [|done].
    assert (Hne : q <> p) by (intros ->; by eapply (freed_unseen s i kept f safe p e j r)).
    revert Hk. unfold retired. rewrite Hr, Hr', !elem_of_app, elem_of_cons.
    intros [?|[?|[?|[?|?]]]]; auto. congruence.
  - unfold scanned, s'. cbn [reclaimer pending participants]. apply lookup_lt_Some in Hp. split; [lia|].
    intros j r Hj Hd q x Hq. apply (Hsc j r Hj Hd q x).
    change (mk_state _ _ _ _ _ _ _ _ _ _ _ _ _) with s' in Hq. revert Hq.
    rewrite Hr, Hr', !elem_of_app, elem_of_cons. tauto.
  - unfold s'. simpl. by rewrite (inv_flag s H), Er.
  - unfold s' at 1. simpl. rewrite (inv_count s H). f_equal. f_equal. rewrite Hr, Hr', !length_app.
    unfold unsubtracted. rewrite Er. simpl. lia.
  - unfold s'. simpl. rewrite (inv_free s H). simpl. apply bool_decide_eq_false. intros Hn. apply Hn, occ_elem. lia.
Qed.

Lemma inv_free_step s i kept f safe :
  inv s -> reclaimer s = CFree i kept f safe -> inv (free_step i kept f safe s).
Proof.
  intros H Er. unfold free_step. pose proof (inv_scanned s H) as Hsc. unfold scanned in Hsc. rewrite Er in Hsc.
  destruct Hsc as [Hle Hsc]. pose proof (inv_flag s H) as Hf. pose proof (inv_count s H) as Hc.
  unfold unsubtracted in Hc. rewrite Er in Hf, Hc.
  assert (Hr : remaining s = take kept (pending s) ++ drop i (pending s)) by (unfold remaining; by rewrite Er).
  destruct (pending s !! i) as [[p e]|] eqn:Hp; [destruct (Z.ltb_spec e safe)|].
  - by eapply inv_freed.
  - destruct (remaining_step _ i kept (p, e) (proj1 Hle) Hp) as [H1 H2].
    assert (Hocc : forall x, occ x (take (S kept) (<[kept:=(p, e)]> (pending s)) ++ drop (S i) (<[kept:=(p, e)]> (pending s)))
      = occ x (remaining s)).
    { intros x. rewrite H2, Hr, H1, !occ_app. simpl. lia. }
    eapply inv_reclaim; [exact H|reflexivity| | |done|done].
    + intros x. rewrite !(occ_app x (incoming s)). f_equal. apply Hocc.
    + split; [simpl; rewrite length_insert; apply lookup_lt_Some in Hp; lia|].
      intros j r Hj Hd q x Hq Hs. apply (Hsc j r Hj Hd q x); [|done].
      apply occ_elem. rewrite <- Hocc. by apply occ_elem.
  - assert (Hd : drop i (pending s) = []) by (apply drop_ge; by apply lookup_ge_None).
    eapply inv_reclaim; [exact H|reflexivity| |done|done|done].
    intros x. unfold remaining at 1. simpl. by rewrite Hr, Hd, app_nil_r.
Qed.

Lemma inv_reclaim_step s s' : inv s -> reclaim_step s = Some s' -> inv s'.
Proof.
  intros H Hx. unfold reclaim_step in Hx. pose proof (inv_flag s H) as Hf. pose proof (inv_count s H) as Hc.
  unfold unsubtracted in Hc.
  destruct (reclaimer s) as [| |k m|i kept f safe|f|] eqn:Er; [done|injection Hx as <-..].
  - eapply inv_reclaim; [exact H|reflexivity| | |done|done].
    + intros x. unfold remaining. simpl. by rewrite Er.
    + intros i r Hi. lia.
  - eapply inv_reclaim; [exact H|reflexivity| |by apply scan_ok| |].
    + intros x. unfold remaining. rewrite Er. simpl. unfold scan_step. destruct (participants s !! k); [done|].
      simpl. by rewrite drop_0.
    + rewrite Hf. unfold scan_step. by destruct (participants s !! k).
    + rewrite Hc. unfold unsubtracted, scan_step. simpl. by destruct (participants s !! k).
  - by apply inv_free_step.
  - eapply inv_reclaim; [exact H|reflexivity| |done|done|].
    + intros x. unfold remaining. simpl. by rewrite Er.
    + unfold unsubtracted. simpl. rewrite Hc. case_decide as E; [subst; f_equal; lia|].
      rewrite u64_sub_u64_l. f_equal. lia.
  - eapply inv_reclaim; [exact H|reflexivity| |done|done|done].
    intros x. unfold remaining. simpl. by rewrite Er.
Qed.

Lemma epochs_inv_exec x s s' :
  inv s -> globalEpoch s + 1 < SIZE_MAX -> exec false false x s = Some s' ->
  inv s' /\ globalEpoch s' <= globalEpoch s + 1.
Proof.
  intros H Hb Hx.
  destruct x as [i|i|i|i|p|j|j|j| | | |j|]; cbn [exec] in Hx.
  1-4: apply bind_Some in Hx as (r & Hi & Hx); apply bind_Some in Hx as (r' & Hr & [= <-]);
    split; [by eapply inv_reader_step|simpl; lia].
  - case_decide; [done|]. injection Hx as <-. split; [by apply inv_Link|simpl; lia].
  - destruct (linked s !! j) eqn:E; simpl in Hx; [|done]. injection Hx as <-. split; [by apply inv_Unlink|simpl; lia].
  - destruct (unlinked s !! j) eqn:E; simpl in Hx; [|done]. injection Hx as <-. split; [by apply inv_LoadEpoch|simpl; lia].
  - destruct (loaded s !! j) eqn:E; simpl in Hx; [|done]. injection Hx as <-. split; [by apply inv_Enqueue|simpl; lia].
  - destruct (counting s) eqn:E; [done|]. injection Hx as <-. split; [by apply inv_Count|simpl; lia].
  - injection Hx as <-. split; [by apply inv_AdvanceEpoch|].
    pose proof (inv_epoch s H). simpl. unfold SIZE_MAX in *. rewrite u64_small by lia. lia.
  - destruct (reclaiming s) eqn:E; injection Hx as <-; [split; [done|lia]|]. split; [by apply inv_TryReclaim|simpl; lia].
  - destruct (reclaimer s) eqn:Er; try done. destruct (incoming s !! j) eqn:E; simpl in Hx; [|done].
    injection Hx as <-. split; [by apply inv_Drain|simpl; lia].
  - split; [by eapply inv_reclaim_step|].
    assert (globalEpoch s' = globalEpoch s); [|lia]. unfold reclaim_step, free_step in Hx.
    destruct (reclaimer s); try done; try by injection Hx as <-.
    injection Hx as <-. destruct (pending s !! i) as [[p e]|]; [destruct (e <? safeEpoch)|]; done.
Qed.

Lemma epochs_inv_run l s s' :
  inv s -> globalEpoch s + Z.of_nat (length l) < SIZE_MAX -> run (exec false false) l s = Some s' -> inv s'.
Proof.
  revert s. induction l as [|x l IH]; intros s H Hb; cbn [run length] in *; [by intros [= <-]|].
  destruct (exec false false x s) as [s1|] eqn:E; simpl; [|done]. intros Hr.
  destruct (epochs_inv_exec x s s1 H) as [H1 Hg]; [lia|done|]. apply (IH s1); [done|lia|done].
Qed.

(** ** Properties *)

(** [C10] When guards do not nest and their store is visible before the first
    read, then however guards, retirement, [Tick] and [TryReclaim] interleave: no
    object is freed twice, none a reader inside a guard may still reach is freed,
    and none is lost - the allocated objects are the linked ones and the retired
    ones, each once; [retiredCount] is the number of retired entries, up to those
    being counted. *)
Theorem epoch_reclamation_safe n l s :
  Z.of_nat (length l) < SIZE_MAX -> run (exec false false) l (Init n empty) = Some s ->
  double_free s = false /\
  (forall i r p, participants s !! i = Some r -> depth r <> 0%nat -> p ∈ seen r -> p ∈ live s) /\
  live s ≡ₚ linked s ++ unlinked s ++ (retired s).*1 /\ NoDup (live s) /\
  retiredCount s = u64 (Z.of_nat (length (incoming s) + length (remaining s) + unsubtracted s) - Z.of_nat (counting s)).
Proof.
  intros Hl Hr. destruct (inv_init n) as [H0 _].
  assert (Hg : globalEpoch (Init n empty) = 0) by (unfold Init; clear; induction n; done).
  assert (H : inv s) by (apply (epochs_inv_run l (Init n empty)); [exact H0|rewrite Hg; lia|done]).
  split_and!; [apply H| | | |apply H].
  - intros i r p Hi Hd Hp. eapply kept_for_live; [done|]. by apply (ro_seen s r (inv_readers s H i r Hi)).
  - apply occ_perm. intros p. rewrite !occ_app, (inv_live s H). lia.
  - apply occ_NoDup, H.
Qed.

(** Object 1 is published, a reader enters, the object is unlinked and retired,
    the epoch advances and a reclaimer runs to the end. *)
Definition retire_under (enter : list action) : list action :=
  [Link 1%positive] ++ enter ++
  [Unlink 0; LoadEpoch 0; Enqueue 0; Count; AdvanceEpoch; TryReclaim; Drain 0;
   Reclaim; Reclaim; Reclaim; Reclaim; Reclaim; Reclaim; Reclaim]%nat.

Definition leave_and_free : list action :=
  retire_under [Enter 0; Store 0]%nat ++
  [Leave 0; TryReclaim; Reclaim; Reclaim; Reclaim; Reclaim; Reclaim; Reclaim; Reclaim]%nat.

Lemma epoch_reclamation_safe_witness :
  (exists s, run (exec false false) (retire_under [Enter 0; Store 0]%nat) (Init 1 empty) = Some s /\
     live s = [1%positive] /\ double_free s = false) /\
  (exists s, run (exec false false) leave_and_free (Init 1 empty) = Some s /\
     live s = [] /\ retiredCount s = 0 /\ reclaiming s = false /\ double_free s = false).
Proof.
  assert (H1 : Z.of_nat (length (retire_under [Enter 0; Store 0]%nat)) < SIZE_MAX) by (vm_compute; reflexivity).
  assert (H2 : Z.of_nat (length leave_and_free) < SIZE_MAX) by (vm_compute; reflexivity).
  split.
  - destruct (run (exec false false) (retire_under [Enter 0; Store 0]%nat) (Init 1 empty)) as [s|] eqn:E;
      [|vm_compute in E; discriminate E].
    destruct (epoch_reclamation_safe 1 _ s H1 E) as (Hd & _).
    exists s. split; [reflexivity|]. split; [|exact Hd]. vm_compute in E. injection E as <-. reflexivity.
  - destruct (run (exec false false) leave_and_free (Init 1 empty)) as [s|] eqn:E;
      [|vm_compute in E; discriminate E].
    destruct (epoch_reclamation_safe 1 _ s H2 E) as (Hd & _).
    exists s. split; [reflexivity|]. vm_compute in E. injection E as <-.
    split; [reflexivity|]. split; [reflexivity|]. split; [reflexivity|exact Hd].
Defined.

(** [C35] Both provisos are needed.  If the guard's store may become visible after
    the reads that follow it (it is [release], and no fence follows), or if a
    guard is opened and closed inside another one on the same slot, a reader that
    is still inside its guard can be left with a freed object. *)
Theorem epoch_guard_hazards :
  (exists s r, run (exec true false) (retire_under [Enter 0; Store 0]%nat) (Init 1 empty) = Some s /\
     participants s !! 0%nat = Some r /\ rpc r = RBuffered 0 /\ depth r = 1%nat /\
     1%positive ∈ seen r /\ live s = []) /\
  (exists s r, run (exec false true) (retire_under [Enter 0; Store 0; Enter 0; Store 0; Leave 0]%nat) (Init 1 empty) = Some s /\
     participants s !! 0%nat = Some r /\ depth r = 1%nat /\ localEpoch r = SIZE_MAX /\
     1%positive ∈ seen r /\ live s = []).
Proof.
  split; eexists _, _; (split; [vm_compute; reflexivity|]); (split; [reflexivity|]);
    split_and!; try reflexivity; simpl; by left.
Qed.
