(* ===== verification/MarkedPointer.v ===== *)
(** * Marked pointers ([LMarkablePointer] of [include/LockFreeList.h])

    A pointer and a mark in one 64-bit word: the packing, the methods access by
    access with any number of threads, and the atomic register of a pointer and a
    mark that they implement.  Pointers are addresses; those of nodes are even. *)
From S2P Require Import Prelude.

(** ** The packing *)

Definition pack (p : Z) (mark : bool) : Z := Z.lor p (if mark then 1 else 0).
Definition unpackPtr (v : Z) : Z := Z.ldiff v 1.
Definition unpackMark (v : Z) : bool := negb (Z.land v 1 =? 0).

(** What the code relies on of the address of a node. *)
Definition aligned (p : Z) : bool := (0 <=? p) && (p <? 2 ^ 64) && (p mod 2 =? 0).
Definition in_word (v : Z) : Prop := 0 <= v < 2 ^ 64.

Lemma bit_of_1 i : 0 <= i -> Z.testbit 1 i = (i =? 0).
Proof.
  intros Hi. destruct (Z.eqb_spec i 0) as [->|Hne]; [done|]. by rewrite Z.bits_above_log2 by (simpl; lia).
Qed.

Lemma pack_bits p mark i : 0 <= i -> Z.testbit (pack p mark) i = Z.testbit p i || (mark && (i =? 0)).
Proof.
  intros Hi. unfold pack. rewrite Z.lor_spec. f_equal. destruct mark; [by rewrite bit_of_1|by rewrite Z.bits_0].
Qed.

Lemma unpackPtr_bits v i : 0 <= i -> Z.testbit (unpackPtr v) i = Z.testbit v i && negb (i =? 0).
Proof. intros Hi. unfold unpackPtr. by rewrite Z.ldiff_spec, bit_of_1. Qed.

Lemma unpackMark_bit v : unpackMark v = Z.testbit v 0.
Proof.
  unfold unpackMark. change 1 with (Z.ones 1). rewrite Z.land_ones by lia. change (2 ^ 1) with 2.
  rewrite Zmod_odd, Z.bit0_odd. by destruct (Z.odd v).
Qed.

Lemma aligned_spec p : aligned p = true <-> in_word p /\ p mod 2 = 0.
Proof. unfold aligned, in_word. rewrite !andb_true_iff, Z.leb_le, Z.ltb_lt, Z.eqb_eq. tauto. Qed.

Lemma aligned_bit p : aligned p = true -> Z.testbit p 0 = false.
Proof. intros [_ H]%aligned_spec. rewrite Z.bit0_odd. rewrite Zmod_odd in H. by destruct (Z.odd p). Qed.

Lemma unpackPtr_pack p mark : aligned p = true -> unpackPtr (pack p mark) = p.
Proof.
  intros Hp. apply Z.bits_inj'. intros i Hi. rewrite unpackPtr_bits, pack_bits by done.
  destruct (Z.eqb_spec i 0) as [->|]; [rewrite (aligned_bit p Hp); by destruct mark|].
  by rewrite andb_false_r, orb_false_r, andb_true_r.
Qed.

Lemma unpackMark_pack p mark : aligned p = true -> unpackMark (pack p mark) = mark.
Proof. intros Hp. rewrite unpackMark_bit, pack_bits, (aligned_bit p Hp) by done. by destruct mark. Qed.

Lemma pack_unpack v : pack (unpackPtr v) (unpackMark v) = v.
Proof.
  apply Z.bits_inj'. intros i Hi. rewrite pack_bits, unpackPtr_bits, unpackMark_bit by done.
  destruct (Z.eqb_spec i 0) as [->|]; simpl; by rewrite ?andb_true_r, ?andb_false_r, ?orb_false_r.
Qed.

Lemma pack_range p mark : aligned p = true -> in_word (pack p mark).
Proof.
  intros [Hp Hev]%aligned_spec. assert (Heq : pack p mark = p + (if mark then 1 else 0)).
  { unfold pack. symmetry. apply Z.add_nocarry_lor. destruct mark; [|apply Z.land_0_r].
    change 1 with (Z.ones 1). by rewrite Z.land_ones by lia. }
  unfold in_word in *. rewrite Heq. assert (p <> 2 ^ 64 - 1) by (intros ->; discriminate Hev). destruct mark; lia.
Qed.

Lemma unpackPtr_aligned v : in_word v -> aligned (unpackPtr v) = true.
Proof.
  intros Hv. apply aligned_spec. unfold in_word, unpackPtr in *. change 1 with (Z.ones 1).
  rewrite Z.ldiff_ones_r, Z.shiftl_mul_pow2, Z.shiftr_div_pow2 by lia. change (2 ^ 1) with 2.
  split; [|apply Z.mod_mul; lia]. pose proof (Z.div_mod v 2). pose proof (Z.mod_pos_bound v 2). lia.
Qed.

(** Comparing words compares pointers and marks. *)
Lemma pack_eq p q m m' : aligned p = true -> aligned q = true -> pack p m = pack q m' <-> p = q /\ m = m'.
Proof.
  intros Hp Hq. split; [|by intros [-> ->]]. intros E.
  split; [rewrite <- (unpackPtr_pack p m), E by done; by apply unpackPtr_pack|].
  rewrite <- (unpackMark_pack p m), E by done. by apply unpackMark_pack.
Qed.

(** ** The methods, an access to [ref_] at a time *)

Inductive op :=
  | GetMark
  | SetRef (p : Z) (mark : bool)
  | AttemptMark (expectedPtr : Z) (newMark : bool)
  | Get
  | GetReference
  | CompareAndSet (expectedPtr newPtr : Z) (expectedMark newMark : bool).

Inductive result := RUnit | RBool (b : bool) | RPtr (p : Z) | RRef (p : Z) (mark : bool).

(** What a thread does next; [Exchange] is at the weak exchange of [attemptMark],
    with its local [curr]. *)
Inductive pc :=
  | Idle
  | Enter (o : op)
  | Exchange (expectedPtr : Z) (newMark : bool) (curr : Z)
  | Done (r : result).

(** [compareAndSet] on the word: the new word and whether it succeeded. *)
Definition compareAndSet (ref expectedPtr newPtr : Z) (expectedMark newMark : bool) : Z * bool :=
  if ref =? pack expectedPtr expectedMark then (pack newPtr newMark, true) else (ref, false).

(** The body of [attemptMark]'s loop up to the exchange, once [curr] is known. *)
Definition mark_loop (expectedPtr : Z) (newMark : bool) (curr : Z) : pc :=
  if unpackPtr curr =? expectedPtr
  then if eqb (unpackMark curr) newMark then Done (RBool true) else Exchange expectedPtr newMark curr
  else Done (RBool false).

(** One access to the word [v]; [spurious]: a weak exchange fails although the
    word is the expected one. *)
Definition access (v : Z) (c : pc) (spurious : bool) : option (Z * pc) :=
  match c with
  | Idle | Done _ => None
  | Enter GetMark => Some (v, Done (RBool (negb (Z.land v 1 =? 0))))
  | Enter (SetRef p mark) => Some (pack p mark, Done RUnit)
  | Enter (AttemptMark p mark) => Some (v, mark_loop p mark v)
  | Enter Get => Some (v, Done (RRef (unpackPtr v) (unpackMark v)))
  | Enter GetReference => Some (v, Done (RPtr (unpackPtr v)))
  | Enter (CompareAndSet p q m m') => let '(v', ok) := compareAndSet v p q m m' in Some (v', Done (RBool ok))
  | Exchange p mark curr =>
      if (v =? curr) && negb spurious then Some (pack (unpackPtr curr) mark, Done (RBool true))
      else Some (v, mark_loop p mark v)
  end.

Definition active (c : pc) : bool := match c with Idle | Done _ => false | _ => true end.

(** The arguments are addresses of nodes, or null. *)
Definition op_ok (o : op) : bool :=
  match o with
  | SetRef p _ | AttemptMark p _ => aligned p
  | CompareAndSet p q _ _ => aligned p && aligned q
  | _ => true
  end.

Record state := mk_state { ref_ : Z; threads : list pc }.

Inductive action := Call (i : nat) (o : op) | Step (i : nat) (spurious : bool).

Definition exec (a : action) (s : state) : option state :=
  match a with
  | Call i o =>
      c ← threads s !! i;
      if active c || negb (op_ok o) then None else Some (mk_state (ref_ s) (<[i := Enter o]> (threads s)))
  | Step i spurious =>
      c ← threads s !! i;
      r ← access (ref_ s) c spurious;
      Some (mk_state r.1 (<[i := r.2]> (threads s)))
  end.

(** The constructor's word, and [n] threads. *)
Definition LMarkablePointer (val : Z) (mark : bool) (n : nat) : state := mk_state (pack val mark) (replicate n Idle).

(** ** The specification: an atomic register of a pointer and a mark *)

Definition atomic (o : op) (r : Z * bool) : (Z * bool) * result :=
  match o with
  | GetMark => (r, RBool r.2)
  | SetRef p mark => ((p, mark), RUnit)
  | AttemptMark p mark => if r.1 =? p then ((p, mark), RBool true) else (r, RBool false)
  | Get => (r, RRef r.1 r.2)
  | GetReference => (r, RPtr r.1)
  | CompareAndSet p q m m' => if (r.1 =? p) && eqb r.2 m then ((q, m'), RBool true) else (r, RBool false)
  end.

Inductive status := SIdle | SPending (o : op) | SDone (r : result).
Record register := mk_register { reg : Z * bool; calls : list status }.
Inductive spec_action := SCall (i : nat) (o : op) | SApply (i : nat).

(** A call takes effect, at once and entirely, at some moment before it returns. *)
Definition spec_exec (a : spec_action) (t : register) : option register :=
  match a with
  | SCall i o =>
      c ← calls t !! i;
      match c with
      | SPending _ => None
      | _ => if op_ok o then Some (mk_register (reg t) (<[i := SPending o]> (calls t))) else None
      end
  | SApply i =>
      c ← calls t !! i;
      match c with
      | SPending o => Some (mk_register (atomic o (reg t)).1 (<[i := SDone (atomic o (reg t)).2]> (calls t)))
      | _ => None
      end
  end.

(** What a state of the code stands for. *)
Definition abs_pc (c : pc) : status :=
  match c with
  | Idle => SIdle
  | Enter o => SPending o
  | Exchange p mark _ => SPending (AttemptMark p mark)
  | Done r => SDone r
  end.
Definition abs_word (v : Z) : Z * bool := (unpackPtr v, unpackMark v).
Definition abs (s : state) : register := mk_register (abs_word (ref_ s)) (abs_pc <$> threads s).

Definition pc_ok (c : pc) : Prop :=
  match c with
  | Enter o => op_ok o = true
  | Exchange p mark curr => aligned p = true /\ in_word curr /\ unpackPtr curr = p /\ unpackMark curr = negb mark
  | _ => True
  end.

Record inv (s : state) : Prop := {
  i_word : in_word (ref_ s);
  i_threads : forall i c, threads s !! i = Some c -> pc_ok c
}.

Lemma abs_word_pack p mark : aligned p = true -> abs_word (pack p mark) = (p, mark).
Proof. intros Hp. unfold abs_word. by rewrite unpackPtr_pack, unpackMark_pack. Qed.

(** Comparing the word is comparing the pointer and the mark. *)
Lemma word_eqb v p m : in_word v -> aligned p = true -> (v =? pack p m) = (unpackPtr v =? p) && eqb (unpackMark v) m.
Proof.
  intros Hv Hp. apply eq_true_iff_eq. rewrite andb_true_iff, !Z.eqb_eq, eqb_true_iff.
  rewrite <- (pack_unpack v) at 1. apply pack_eq; [by apply unpackPtr_aligned|done].
Qed.

Lemma compareAndSet_spec v p q m m' : in_word v -> aligned p = true -> aligned q = true ->
  in_word (compareAndSet v p q m m').1 /\
  atomic (CompareAndSet p q m m') (abs_word v) = (abs_word (compareAndSet v p q m m').1, RBool (compareAndSet v p q m m').2).
Proof.
  intros Hv Hp Hq. unfold compareAndSet, atomic. rewrite word_eqb by done. cbn [abs_word fst snd].
  destruct ((unpackPtr v =? p) && eqb (unpackMark v) m); [|done]. split; [by apply pack_range|]. cbn [fst snd]. by rewrite abs_word_pack.
Qed.

(** The loop decides, or prepares an exchange; either way the word stays. *)
Lemma mark_loop_spec p mark v : in_word v -> aligned p = true -> pc_ok (mark_loop p mark v) /\
  (abs_pc (mark_loop p mark v) = SPending (AttemptMark p mark) \/
   exists r, mark_loop p mark v = Done r /\ atomic (AttemptMark p mark) (abs_word v) = (abs_word v, r)).
Proof.
  intros Hv Hp. unfold mark_loop, atomic, abs_word. cbn [fst snd].
  destruct (Z.eqb_spec (unpackPtr v) p) as [E|E]; [|by split; [|right; eexists]].
  destruct (eqb_spec (unpackMark v) mark) as [Em|Em].
  - split; [done|]. right. eexists. split; [done|]. by rewrite E, Em.
  - split; [|by left]. cbn. split_and!; try done. by destruct (unpackMark v), mark.
Qed.

(** An access keeps the invariant, and either the call takes effect, or nothing
    changes that the specification sees. *)
Lemma access_spec v c spurious v' c' : in_word v -> pc_ok c -> access v c spurious = Some (v', c') ->
  in_word v' /\ pc_ok c' /\
  exists o, abs_pc c = SPending o /\
    (abs_word v' = abs_word v /\ abs_pc c' = SPending o \/
     exists r, c' = Done r /\ atomic o (abs_word v) = (abs_word v', r)).
Proof.
  intros Hv Hc. destruct c as [|o|p mark curr|r]; simpl; try done.
  - destruct o as [|p mark|p mark| | |p q m m']; simpl in Hc.
    + intros [= <- <-]. split_and!; try done. eexists. split; [done|]. right. by eexists.
    + intros [= <- <-]. split_and!; [by apply pack_range|done|]. eexists. split; [done|]. right. eexists. split; [done|].
      by rewrite abs_word_pack.
    + intros [= <- <-]. destruct (mark_loop_spec p mark v Hv Hc) as [H1 H2]. split_and!; try done. eexists. split; [done|].
      destruct H2; [by left|by right].
    + intros [= <- <-]. split_and!; try done. eexists. split; [done|]. right. by eexists.
    + intros [= <- <-]. split_and!; try done. eexists. split; [done|]. right. by eexists.
    + apply andb_true_iff in Hc as [Hp Hq]. pose proof (compareAndSet_spec v p q m m' Hv Hp Hq) as H.
      destruct (compareAndSet v p q m m') as [w ok]. intros [= <- <-]. destruct H as [H1 H2]. cbn [fst snd] in H1, H2.
      split_and!; try done. eexists. split; [done|]. right. by eexists.
  - destruct Hc as (Hp & Hcurr & Hpe & Hm). destruct (Z.eqb_spec v curr) as [->|]; [destruct spurious|]; simpl.
    2: { intros [= <- <-]. rewrite Hpe. split_and!; [by apply pack_range|done|]. eexists. split; [done|]. right. eexists. split; [done|].
         simpl. by rewrite Hpe, Z.eqb_refl, abs_word_pack. }
    all: intros [= <- <-]; match goal with |- in_word ?v /\ _ => destruct (mark_loop_spec p mark v Hv Hp) as [H1 H2] end;
      split_and!; try done; eexists; split; [done|]; destruct H2; [by left|by right].
Qed.

Lemma inv_update s v i c : inv s -> in_word v -> pc_ok c -> inv (mk_state v (<[i := c]> (threads s))).
Proof. intros HI Hv Hc. split; [done|]. intros j d [(_ & <- & _)|[_ Hj]]%list_lookup_insert_Some; [done|by eapply i_threads]. Qed.

(** The two actions of the specification, on what states stand for. *)
Lemma abs_call s i c o : threads s !! i = Some c -> active c = false -> op_ok o = true ->
  spec_exec (SCall i o) (abs s) = Some (abs (mk_state (ref_ s) (<[i := Enter o]> (threads s)))).
Proof.
  intros Hi Ha Ho. unfold abs. simpl. rewrite list_lookup_fmap, Hi. simpl. rewrite Ho, list_fmap_insert. by destruct c.
Qed.

Lemma abs_apply s i c o v r : threads s !! i = Some c -> abs_pc c = SPending o -> atomic o (abs_word (ref_ s)) = (abs_word v, r) ->
  spec_exec (SApply i) (abs s) = Some (abs (mk_state v (<[i := Done r]> (threads s)))).
Proof. intros Hi Hc Hr. unfold abs. simpl. by rewrite list_lookup_fmap, Hi; simpl; rewrite Hc, Hr, list_fmap_insert. Qed.

Lemma abs_stutter s i c c' v : threads s !! i = Some c -> abs_pc c' = abs_pc c -> abs_word v = abs_word (ref_ s) ->
  abs (mk_state v (<[i := c']> (threads s))) = abs s.
Proof.
  intros Hi Hc Hv. unfold abs. simpl. rewrite list_fmap_insert, Hv, Hc, list_insert_id; [done|]. by rewrite list_lookup_fmap, Hi.
Qed.

(** A step of the code is at most one step of the specification. *)
Lemma exec_simulates a s s' : inv s -> exec a s = Some s' ->
  inv s' /\ exists l, run spec_exec l (abs s) = Some (abs s').
Proof.
  intros HI. destruct a as [i o|i spurious]; simpl; destruct (threads s !! i) as [c|] eqn:Hi; simpl; try done.
  - destruct (active c) eqn:Ha; [done|]. destruct (op_ok o) eqn:Ho; [|done]. intros [= <-].
    split; [by apply inv_update; [|apply i_word|]|]. exists [SCall i o]. cbn [run]. by rewrite (abs_call s i c o).
  - destruct (access (ref_ s) c spurious) as [[v' c']|] eqn:E; [|done]. intros [= <-]. cbn [fst snd].
    destruct (access_spec (ref_ s) c spurious v' c' (i_word s HI) (i_threads s HI i c Hi) E) as (H1 & H2 & o & Ho & H3).
    split; [by apply inv_update|]. destruct H3 as [[Hv Hc]|(r & -> & Hr)].
    + exists []. cbn [run]. by rewrite (abs_stutter s i c); [|done|congruence|].
    + exists [SApply i]. cbn [run]. by rewrite (abs_apply s i c o v' r).
Qed.

(** *** A thread alone *)

Definition finishes (n : nat) (s : state) (i : nat) : Prop :=
  exists k s' r, (1 <= k <= n)%nat /\ run exec (replicate k (Step i false)) s = Some s' /\ threads s' !! i = Some (Done r) /\
    spec_exec (SApply i) (abs s) = Some (abs s').

Lemma finishes_now s i c v r n : inv s -> threads s !! i = Some c -> access (ref_ s) c false = Some (v, Done r) -> (1 <= n)%nat ->
  finishes n s i.
Proof.
  intros HI Hi E Hn. exists 1%nat, (mk_state v (<[i := Done r]> (threads s))), r. split; [lia|]. split_and!.
  - cbn [replicate run exec]. by rewrite Hi; simpl; rewrite E.
  - cbn. rewrite list_lookup_insert_eq; [done|by eapply lookup_lt_Some].
  - destruct (access_spec (ref_ s) c false v (Done r) (i_word s HI) (i_threads s HI i c Hi) E) as (_ & _ & o & Ho & [[_ H]|(r' & [= <-] & Hr)]);
      [done|]. by apply (abs_apply s i c o).
Qed.

(** One access that leaves the call pending and the word as it is. *)
Lemma finishes_later s i c c' n : inv s -> threads s !! i = Some c -> access (ref_ s) c false = Some (ref_ s, c') ->
  abs_pc c' = abs_pc c -> finishes n (mk_state (ref_ s) (<[i := c']> (threads s))) i -> finishes (S n) s i.
Proof.
  intros HI Hi E Hc (k & s' & r & Hk & Hrun & Hd & Hsp). exists (S k), s', r. split; [lia|]. split_and!; [|done|].
  - cbn [replicate run exec]. by rewrite Hi; simpl; rewrite E.
  - by rewrite (abs_stutter s i c c') in Hsp.
Qed.

Lemma exchange_finishes s i p mark : inv s -> threads s !! i = Some (Exchange p mark (ref_ s)) -> finishes 1 s i.
Proof. intros HI Hi. eapply finishes_now; try done. simpl. by rewrite Z.eqb_refl. Qed.

Lemma mark_loop_finishes s i c p mark : inv s -> threads s !! i = Some c -> aligned p = true ->
  abs_pc c = SPending (AttemptMark p mark) -> access (ref_ s) c false = Some (ref_ s, mark_loop p mark (ref_ s)) -> finishes 2 s i.
Proof.
  intros HI Hi Hp Hc E. destruct (mark_loop_spec p mark (ref_ s) (i_word s HI) Hp) as [Hok [Hl|(r & Hl & _)]].
  - apply (finishes_later s i c (mark_loop p mark (ref_ s))); try done; [congruence|].
    unfold mark_loop in *. destruct (unpackPtr (ref_ s) =? p); [|done]. destruct (eqb (unpackMark (ref_ s)) mark); [done|].
    apply exchange_finishes with p mark; [by apply inv_update; [|apply i_word|]|].
    cbn. rewrite list_lookup_insert_eq; [done|by eapply lookup_lt_Some].
  - rewrite Hl in E. by eapply finishes_now; [..|lia].
Qed.

Lemma solo s i c : inv s -> threads s !! i = Some c -> active c = true -> finishes 2 s i.
Proof.
  intros HI Hi Ha. pose proof (i_threads s HI i c Hi) as Hok. destruct c as [|o|p mark curr|r]; try done.
  - destruct o; try (eapply finishes_now; [done|done|done|lia]).
    + by eapply mark_loop_finishes.
    + destruct (compareAndSet (ref_ s) expectedPtr newPtr expectedMark newMark) as [v ok] eqn:E.
      eapply finishes_now; [done|done|simpl; by rewrite E|lia].
  - destruct (Z.eqb_spec (ref_ s) curr) as [<-|Hne].
    + destruct (exchange_finishes s i p mark HI Hi) as (k & s' & r & Hk & H). exists k, s', r. split; [lia|done].
    + destruct Hok as (Hp & _). eapply mark_loop_finishes; try done. simpl. by rewrite (proj2 (Z.eqb_neq _ _) Hne).
Qed.

(** Each step of the specification is made by some steps of the code. *)
Lemma spec_simulates a s t : inv s -> spec_exec a (abs s) = Some t ->
  exists l s', run exec l s = Some s' /\ inv s' /\ abs s' = t.
Proof.
  intros HI. destruct a as [i o|i]; simpl; rewrite list_lookup_fmap; destruct (threads s !! i) as [c|] eqn:Hi; simpl; try done.
  - intros Ht. destruct (active c) eqn:Ha; [by destruct c|]. destruct (op_ok o) eqn:Ho; [|by destruct c].
    exists [Call i o]. eexists. simpl. rewrite Hi. simpl. rewrite Ha, Ho. split; [done|].
    split; [by apply inv_update; [|apply i_word|]|]. pose proof (abs_call s i c o Hi Ha Ho) as Hc.
    simpl in Hc. rewrite list_lookup_fmap, Hi in Hc. simpl in Hc. rewrite Ho in Hc. destruct c; congruence.
  - intros Ht. destruct (active c) eqn:Ha; [|by destruct c]. destruct (solo s i c HI Hi Ha) as (k & s' & r & _ & Hrun & _ & Hsp).
    exists (replicate k (Step i false)), s'. split; [done|]. split.
    + by destruct (run_simulation exec spec_exec inv abs _ s s' exec_simulates HI Hrun).
    + simpl in Hsp. rewrite list_lookup_fmap, Hi in Hsp. simpl in Hsp. congruence.
Qed.

Lemma word_inv_start val mark n : aligned val = true -> inv (LMarkablePointer val mark n).
Proof. intros Hv. split; [by apply pack_range|]. cbn. intros i c Hi. by apply lookup_replicate in Hi as [-> _]. Qed.

Lemma abs_start val mark n : aligned val = true -> abs (LMarkablePointer val mark n) = mk_register (val, mark) (replicate n SIdle).
Proof. intros Hv. unfold abs, LMarkablePointer. cbn. by rewrite abs_word_pack, fmap_replicate. Qed.

(** [C19] The word is an atomic register that holds a pointer and a mark: every
    interleaving of the methods' accesses is one of calls that take effect at
    once, each between its call and its return, with the same results and the same
    final contents; every such sequence is one of the code; and a call that runs
    alone, with no spurious failure, returns after at most two more accesses
    ([attemptMark] loops only when another thread has changed the word). *)
Theorem marked_pointer_is_atomic val mark n :
  aligned val = true ->
  let t0 := mk_register (val, mark) (replicate n SIdle) in
  (forall s, reaches exec (LMarkablePointer val mark n) s -> reaches spec_exec t0 (abs s) /\
     forall i c, threads s !! i = Some c -> active c = true -> finishes 2 s i) /\
  (forall t, reaches spec_exec t0 t -> exists s, reaches exec (LMarkablePointer val mark n) s /\ abs s = t).
Proof.
  intros Hv t0. pose proof (word_inv_start val mark n Hv) as HI. unfold t0. rewrite <- (abs_start val mark n Hv). split.
  - intros s [l Hl]. destruct (run_simulation exec spec_exec inv abs l _ s exec_simulates HI Hl) as [HIs Hs].
    split; [done|]. intros i c. by apply solo.
  - intros t [l Hl]. revert HI Hl. generalize (LMarkablePointer val mark n). induction l as [|a l IH]; intros s HI; simpl.
    + intros [= <-]. exists s. split; [apply reaches_refl|done].
    + destruct (spec_exec a (abs s)) as [t1|] eqn:E; [|done]. simpl. intros Hl.
      destruct (spec_simulates a s t1 HI E) as (l1 & s1 & Hr1 & HI1 & <-). destruct (IH s1 HI1 Hl) as (s2 & [l2 Hr2] & H2).
      exists s2. split; [|done]. exists (l1 ++ l2). by rewrite run_app, Hr1.
Qed.

(** Two threads mark the same reference; the exchange of one fails, and it finds
    the mark set: both calls return true. *)
Definition two_marks : list action :=
  [Call 0 (AttemptMark 4096 true); Call 1 (AttemptMark 4096 true); Step 0 false; Step 1 false; Step 0 false; Step 1 false].

Lemma marked_pointer_is_atomic_witness :
  exists s, run exec two_marks (LMarkablePointer 4096 false 2) = Some s /\
    abs s = mk_register (4096, true) [SDone (RBool true); SDone (RBool true)] /\
    reaches spec_exec (mk_register (4096, false) [SIdle; SIdle]) (abs s).
Proof.
  assert (Hf : abs <$> run exec two_marks (LMarkablePointer 4096 false 2) =
    Some (mk_register (4096, true) [SDone (RBool true); SDone (RBool true)])) by (vm_compute; reflexivity).
  destruct (run exec two_marks (LMarkablePointer 4096 false 2)) as [s|] eqn:E; [|discriminate Hf].
  exists s. split; [reflexivity|]. split; [exact (f_equal (from_option id (abs s)) Hf)|].
  exact (proj1 (proj1 (marked_pointer_is_atomic 4096 false 2 eq_refl) s (ex_intro _ _ E))).
Defined.
