(* ===== verification/LockFreeList.v ===== *)
(** * The lock-free ordered list ([include/LockFreeList.h])

    The list's methods, one access to a shared location per step, any number of
    threads.  A reference is a pair of a pointer and its mark, as
    [MarkedPointer.v] shows the words of the code to be; unlinked nodes stay allocated
    ([Epochs.v] says when they are freed); the list's element type is a pointer.
    [Alloc] gives any unused pointer, or null, which [add] does not test. *)
From S2P Require Import Prelude MarkedPointer.

(** ** The list *)

Definition UINT64_MAX : Z := 2 ^ 64 - 1.

(** [LNode<T*>]; [next] is what [LMarkablePointer] holds. *)
Record node := mk_node { key : Z; next : option ptr * bool; data : option ptr }.

Inductive op := Add (k : Z) (item : option ptr) | Remove (k : Z) | Contains (k : Z) | Get (k : Z) | ForEach.

Inductive result :=
  | RBool (b : bool)
  | RNode (p : option ptr)           (* get: the node whose data is pointed to *)
  | RAll (l : list ptr).             (* for_each: the nodes the function was called on *)

(** What a thread does next. *)
Inductive pc :=
  | Idle
  | FHead                                      (* find: read head->next *)
  | FNext (pred curr : ptr)                    (* find: read curr->next, then compare keys *)
  | FSnip (pred curr succ : ptr)               (* find: unlink the marked curr *)
  | AAlloc (pred curr : ptr)
  | Wild                                       (* add: a node is constructed at a null pointer *)
  | ACas (pred curr new : ptr)
  | RRead (pred curr : ptr)                    (* remove: read succ *)
  | RMark (pred curr : ptr) (succ : option ptr)  (* attemptMark: load *)
  | RMarkCas (pred curr : ptr) (succ : option ptr)
  | RSnip (pred curr : ptr) (succ : option ptr)
  | RRetire (curr : ptr)
  | CRef (prev curr : ptr)                     (* contains: read curr->next; prev is ghost *)
  | CMark (prev curr : ptr) (succ : option ptr)
  | GNext (curr : ptr) (marked : bool)
  | EHead
  | EMark (curr : ptr) (acc : list ptr)        (* for_each *)
  | ERef (curr : ptr) (marked : bool) (acc : list ptr)
  | Done (r : result).

(** A call in progress.  [visited], [ever], [always] are ghost: the nodes that
    were linked, the keys that were present, and those that were present all the
    time, since it began. *)
Record thread := mk_thread {
  at_pc : pc;
  call : op;
  visited : gset ptr;
  ever : gset Z;
  always : gset Z
}.

Record state := mk_state {
  heap : gmap ptr node;
  head : ptr;
  tail : ptr;
  chain : list ptr;                  (* ghost: the linked nodes, from head to tail *)
  retired : list ptr;                (* RetirePtr's arguments *)
  threads : nat -> thread
}.

Definition set_next (h : gmap ptr node) (p : ptr) (v : option ptr * bool) : gmap ptr node :=
  alter (fun nd => mk_node (key nd) v (data nd)) p h.

(** [next.compareAndSet] of node [p]. *)
Definition cas (h : gmap ptr node) (p : ptr) (expected new : option ptr * bool) : option (gmap ptr node * bool) :=
  nd ← h !! p;
  Some (if decide (next nd = expected) then (set_next h p new, true) else (h, false)).

Fixpoint insert_after (p new : ptr) (l : list ptr) : list ptr :=
  match l with
  | [] => []
  | q :: l => if decide (q = p) then q :: new :: l else q :: insert_after p new l
  end.
Definition without (p : ptr) (l : list ptr) : list ptr := filter (fun q => q <> p) l.

(** The keys that are present: linked and not marked, without the sentinels. *)
Definition present (h : gmap ptr node) (hd tl : ptr) (p : ptr) : option Z :=
  if decide (p = hd \/ p = tl) then None
  else nd ← h !! p; if snd (next nd) then None else Some (key nd).
Definition members (s : state) : gset Z :=
  list_to_set (omap (present (heap s) (head s) (tail s)) (chain s)).

(** What a step leaves: heap, chain, retired nodes and the thread's [pc]. *)
Abbreviation local := (gmap ptr node * list ptr * list ptr * pc)%type.
Definition stay (s : state) (c : pc) : option local := Some (heap s, chain s, retired s, c).

(** [find] returned [Window(pred, curr)]. *)
Definition found (s : state) (o : op) (pred curr : ptr) (k : Z) : option local :=
  match o with
  | Add k' _ => stay s (if k =? k' then Done (RBool false) else AAlloc pred curr)
  | Remove k' => stay s (if k =? k' then RRead pred curr else Done (RBool false))
  | _ => None
  end.

Definition target (o : op) : Z :=
  match o with Add k _ | Remove k | Contains k | Get k => k | ForEach => 0 end.

(** [attemptMark(succ, true)] once it knows the current reference. *)
Definition mark_test (pred curr : ptr) (succ : option ptr) (v : option ptr * bool) : pc :=
  if decide (fst v = succ) then if snd v then RSnip pred curr succ else RMarkCas pred curr succ
  else FHead.

(** One step of a thread: [x] is what [Alloc] returns ([None]: null), [spurious] whether a weak
    exchange fails although it could succeed. *)
Definition thread_step (s : state) (o : op) (c : pc) (x : option ptr) (spurious : bool) : option local :=
  match c with
  | Idle | Done _ | Wild => None
  | FHead => nd ← heap s !! head s; curr ← fst (next nd); stay s (FNext (head s) curr)
  | FNext pred curr =>
      nd ← heap s !! curr;
      if snd (next nd) then succ ← fst (next nd); stay s (FSnip pred curr succ)
      else if target o <=? key nd then found s o pred curr (key nd)
      else succ ← fst (next nd); stay s (FNext curr succ)
  | FSnip pred curr succ =>
      match cas (heap s) pred (Some curr, false) (Some succ, false) with
      | Some (h, ok) =>
          if ok then Some (h, without curr (chain s), retired s, FNext pred succ) else stay s FHead
      | None => None
      end
  | AAlloc pred curr =>
      match o, x with
      | Add k item, Some x =>
          match heap s !! x with
          | None => Some (<[x := mk_node k (Some curr, false) item]> (heap s), chain s, retired s, ACas pred curr x)
          | Some _ => None
          end
      | Add _ _, None => stay s Wild
      | _, _ => None
      end
  | ACas pred curr new =>
      match cas (heap s) pred (Some curr, false) (Some new, false) with
      | Some (h, ok) =>
          if ok then Some (h, insert_after pred new (chain s), retired s, Done (RBool true)) else stay s FHead
      | None => None
      end
  | RRead pred curr => nd ← heap s !! curr; stay s (RMark pred curr (fst (next nd)))
  | RMark pred curr succ => nd ← heap s !! curr; stay s (mark_test pred curr succ (next nd))
  | RMarkCas pred curr succ =>
      nd ← heap s !! curr;
      if decide (next nd = (succ, false) /\ spurious = false)
      then Some (set_next (heap s) curr (succ, true), chain s, retired s, RSnip pred curr succ)
      else stay s (mark_test pred curr succ (next nd))
  | RSnip pred curr succ =>
      match cas (heap s) pred (Some curr, false) (succ, false) with
      | Some (h, ok) =>
          Some (h, (if ok then without curr (chain s) else chain s), retired s, RRetire curr)
      | None => None
      end
  | RRetire curr => Some (heap s, chain s, curr :: retired s, Done (RBool true))
  | CRef prev curr => nd ← heap s !! curr; stay s (CMark prev curr (fst (next nd)))
  | CMark prev curr succ =>
      nd ← heap s !! curr;
      if target o <=? key nd then stay s (Done (RBool ((key nd =? target o) && negb (snd (next nd)))))
      else succ ← succ; stay s (CRef curr succ)
  | GNext curr marked =>
      nd ← heap s !! curr;
      if key nd <? target o then succ ← fst (next nd); stay s (GNext succ (snd (next nd)))
      else stay s (Done (RNode (if (key nd =? target o) && negb marked then Some curr else None)))
  | EHead =>
      nd ← heap s !! head s; curr ← fst (next nd);
      stay s (if decide (curr = tail s) then Done (RAll []) else EMark curr [])
  | EMark curr acc => nd ← heap s !! curr; stay s (ERef curr (snd (next nd)) acc)
  | ERef curr marked acc =>
      nd ← heap s !! curr; succ ← fst (next nd);
      let acc := if marked then acc else acc ++ [curr] in
      stay s (if decide (succ = tail s) then Done (RAll acc) else EMark succ acc)
  end.

Definition start (s : state) (o : op) : pc :=
  match o with
  | Add _ _ | Remove _ => FHead
  | Contains _ => CRef (head s) (head s)
  | Get _ => GNext (head s) false
  | ForEach => EHead
  end.

Definition active (c : pc) : bool := match c with Idle | Done _ => false | _ => true end.

(** The ghost sets of a call in progress after a step to [s]. *)
Definition refresh (s : state) (t : thread) : thread :=
  if active (at_pc t) then
    mk_thread (at_pc t) (call t) (visited t ∪ list_to_set (chain s)) (ever t ∪ members s) (always t ∩ members s)
  else t.
Definition set_pc (t : thread) (c : pc) : thread := mk_thread c (call t) (visited t) (ever t) (always t).

Definition with_local (s : state) (l : local) : state :=
  let '(h, ch, re, _) := l in mk_state h (head s) (tail s) ch re (threads s).

Inductive action := Call (i : nat) (o : op) | Step (i : nat) (x : option ptr) (spurious : bool).

Definition exec (a : action) (s : state) : option state :=
  match a with
  | Call i o =>
      if active (at_pc (threads s i)) then None
      else Some (mk_state (heap s) (head s) (tail s) (chain s) (retired s)
             (upd (threads s) i (mk_thread (start s o) o (list_to_set (chain s)) (members s) (members s))))
  | Step i x spurious =>
      let t := threads s i in
      l ← thread_step s (call t) (at_pc t) x spurious;
      let s' := with_local s l in
      Some (mk_state (heap s') (head s') (tail s') (chain s') (retired s')
              (upd (fun j => refresh s' (threads s j)) i (set_pc (refresh s' t) l.2)))
  end.

(** The constructor, given the two nodes [Alloc] returns. *)
Definition create (h t : ptr) : state :=
  mk_state (<[h := mk_node 0 (Some t, false) None]> (<[t := mk_node UINT64_MAX (None, false) None]> ∅))
    h t [h; t] [] (fun _ => mk_thread Idle ForEach ∅ ∅ ∅).

(** The destructor: what it passes to [Free], in order; the walk is bounded by
    the number of nodes. *)
Fixpoint free_from (fuel : nat) (s : state) (curr : ptr) : option (list ptr) :=
  if decide (curr = tail s) then Some []
  else match fuel with
       | O => None
       | S fuel => nd ← heap s !! curr; nxt ← fst (next nd); l ← free_from fuel s nxt; Some (curr :: l)
       end.
Definition destroy (s : state) : option (list ptr) :=
  nd ← heap s !! head s; curr ← fst (next nd);
  l ← free_from (size (heap s)) s curr; Some (l ++ [head s; tail s]).

(** ** References are words

    For any placement of nodes at distinct even addresses, the accesses above to a
    reference are those of [LMarkablePointer] to the word that holds it. *)
Section Words.
Context (addr : option ptr -> Z) `{!Inj (=) (=) addr} (addr_aligned : forall p, aligned (addr p) = true).

Definition word (r : option ptr * bool) : Z := pack (addr r.1) r.2.

Lemma word_get r : unpackPtr (word r) = addr r.1 /\ unpackMark (word r) = r.2.
Proof. split; [by apply unpackPtr_pack|by apply unpackMark_pack]. Qed.

#[local] Instance word_inj : Inj (=) (=) word.
Proof. intros [p m] [q m'] H. unfold word in H. cbn in H. apply pack_eq in H as [H%(inj addr) ->]; [by rewrite H|done..]. Qed.

(** [next.compareAndSet]: its result, and the word it leaves. *)
Lemma cas_word h p nd expected new : h !! p = Some nd ->
  exists h', cas h p expected new = Some (h', (compareAndSet (word (next nd)) (addr expected.1) (addr new.1) expected.2 new.2).2) /\
    (word ∘ next) <$> h' !! p = Some (compareAndSet (word (next nd)) (addr expected.1) (addr new.1) expected.2 new.2).1.
Proof.
  intros Hp. unfold cas, compareAndSet. rewrite Hp. cbn [mbind option_bind].
  change (pack (addr expected.1) expected.2) with (word expected). change (pack (addr new.1) new.2) with (word new).
  destruct (Z.eqb_spec (word (next nd)) (word expected)) as [E%(inj word)|E]; case_decide; try congruence; eexists; (split; [done|]).
  - unfold set_next. by rewrite lookup_alter_eq, Hp.
  - by rewrite Hp.
Qed.

(** [attemptMark(succ, true)]: the test after each load, and the weak exchange. *)
Lemma mark_test_word pred curr succ v :
  mark_test pred curr succ v =
    match mark_loop (addr succ) true (word v) with
    | MarkedPointer.Done (MarkedPointer.RBool true) => RSnip pred curr succ
    | MarkedPointer.Exchange _ _ _ => RMarkCas pred curr succ
    | _ => FHead
    end.
Proof.
  unfold mark_test, mark_loop. destruct (word_get v) as [-> ->]. destruct (Z.eqb_spec (addr v.1) (addr succ)) as [E%(inj addr)|E];
    case_decide; try congruence. by destruct (v.2).
Qed.

Lemma mark_exchange_word s o pred curr succ x spurious nd : heap s !! curr = Some nd ->
  exists w c' l, access (word (next nd)) (MarkedPointer.Exchange (addr succ) true (word (succ, false))) spurious = Some (w, c') /\
    thread_step s o (RMarkCas pred curr succ) x spurious = Some l /\
    (word ∘ next) <$> l.1.1.1 !! curr = Some w /\ (c' = MarkedPointer.Done (MarkedPointer.RBool true) <-> l.2 = RSnip pred curr succ).
Proof.
  intros Hc. cbn [thread_step access]. rewrite Hc. cbn [mbind option_bind]. rewrite mark_test_word.
  destruct (word_get (succ, false)) as [-> _]. change (pack (addr succ) true) with (word (succ, true)).
  destruct (Z.eqb_spec (word (next nd)) (word (succ, false))) as [E%(inj word)|E]; [destruct spurious|]; cbn [andb negb];
    case_decide as Hd; try (by destruct Hd as [Hd ?]; rewrite ?Hd in E); try (by destruct Hd).
  2: { do 3 eexists. split; [done|]. split; [done|]. split; [|done]. cbn. unfold set_next. by rewrite lookup_alter_eq, Hc. }
  all: do 3 eexists; (split; [done|]); (split; [done|]); (split; [cbn; by rewrite Hc|]); cbn; unfold mark_loop;
    destruct (unpackPtr _ =? _); [destruct (eqb _ _)|]; by split.
Qed.
End Words.

(** ** The linked nodes *)

Definition kk (h : gmap ptr node) (p : ptr) : Z := match h !! p with Some nd => key nd | None => 0 end.

(** [l] is the path from its first node to [tl]. *)
Fixpoint path (h : gmap ptr node) (tl : ptr) (l : list ptr) : Prop :=
  match l with
  | [] => False
  | p :: l => match l with
              | [] => p = tl
              | q :: _ => (exists nd, h !! p = Some nd /\ fst (next nd) = Some q) /\ path h tl l
              end
  end.

Record shape (h : gmap ptr node) (hd tl : ptr) (ch : list ptr) : Prop := {
  sh_next : forall p nd, h !! p = Some nd -> p <> tl ->
    exists q nd', fst (next nd) = Some q /\ h !! q = Some nd' /\ key nd < key nd';
  sh_tail : exists d, h !! tl = Some (mk_node UINT64_MAX (None, false) d);
  sh_head : exists nd, h !! hd = Some nd /\ key nd = 0 /\ snd (next nd) = false;
  sh_first : exists l, ch = hd :: l;
  sh_path : path h tl ch
}.

Lemma kk_eq h p nd : h !! p = Some nd -> kk h p = key nd.
Proof. intros H. unfold kk. by rewrite H. Qed.

Section Shape.
Context (h : gmap ptr node) (hd tl : ptr) (ch : list ptr) (Hsh : shape h hd tl ch).

Lemma head_not_tail : hd <> tl.
Proof.
  destruct (sh_tail _ _ _ _ Hsh) as [d Ht], (sh_head _ _ _ _ Hsh) as (nd & Hh & Hk & _).
  intros ->. rewrite Ht in Hh. by injection Hh as <-.
Qed.

Lemma path_heap l p : path h tl l -> p ∈ l -> is_Some (h !! p).
Proof.
  induction l as [|a l IH]; [done|]. intros Hp [->|Hin]%elem_of_cons.
  - destruct l; simpl in Hp; [subst; destruct (sh_tail _ _ _ _ Hsh) as [d ->]; done|].
    destruct Hp as [(nd & -> & _) _]. done.
  - destruct l; [by apply not_elem_of_nil in Hin|]. apply IH; [apply Hp|done].
Qed.

Lemma chain_heap p : p ∈ ch -> exists nd, h !! p = Some nd.
Proof. intros Hp. destruct (path_heap ch p (sh_path _ _ _ _ Hsh) Hp) as [nd ?]. eauto. Qed.

(** Keys grow along the chain. *)
Lemma path_sorted l : path h tl l -> StronglySorted (fun p q => kk h p < kk h q) l.
Proof.
  induction l as [|a l IH]; [constructor|]. intros Hp. destruct l as [|b l]; [by repeat constructor|].
  destruct Hp as [(nd & Ha & Hn) Hp]. specialize (IH Hp). constructor; [done|].
  assert (Hab : kk h a < kk h b).
  { assert (a <> tl).
    { intros ->. destruct (sh_tail _ _ _ _ Hsh) as [d Ht]. rewrite Ht in Ha. by injection Ha as <-. }
    destruct (sh_next _ _ _ _ Hsh a nd Ha) as (q & nd' & Hq & Hq' & Hlt); [done|].
    assert (q = b) as -> by congruence. by rewrite (kk_eq _ _ _ Ha), (kk_eq _ _ _ Hq'). }
  inversion IH as [|? ? _ Hall]; subst. constructor; [done|].
  eapply Forall_impl; [done|]. simpl. lia.
Qed.

Lemma chain_sorted : StronglySorted (fun p q => kk h p < kk h q) ch.
Proof. apply path_sorted, Hsh. Qed.

Lemma sorted_split l1 p q l2 x :
  StronglySorted (fun p q => kk h p < kk h q) (l1 ++ p :: q :: l2) -> x ∈ l1 ++ p :: q :: l2 ->
  x = p \/ x = q \/ kk h x < kk h p \/ kk h q < kk h x.
Proof.
  intros Hs Hx. induction l1 as [|a l1 IH]; simpl in *.
  - inversion Hs as [|? ? Hs' Hall]; subst. inversion Hs' as [|? ? _ Hall']; subst.
    apply elem_of_cons in Hx as [->|Hx]; [auto|]. apply elem_of_cons in Hx as [->|Hx]; [auto|].
    rewrite Forall_forall in Hall'. specialize (Hall' _ Hx). simpl in Hall'. lia.
  - inversion Hs as [|? ? Hs' Hall]; subst. apply elem_of_cons in Hx as [->|Hx]; [|auto].
    rewrite Forall_forall in Hall. specialize (Hall p). simpl in Hall.
    assert (p ∈ l1 ++ p :: q :: l2) by (apply elem_of_app; right; by left). specialize (Hall H). lia.
Qed.

(** A linked node's successor is the next linked node. *)
Lemma path_split l p nd q :
  path h tl l -> p ∈ l -> h !! p = Some nd -> fst (next nd) = Some q ->
  exists l1 l2, l = l1 ++ p :: q :: l2.
Proof.
  induction l as [|a l IH]; [done|]. intros Hp Hin Hnd Hq. destruct l as [|b l].
  - apply elem_of_cons in Hin as [->|Hin]; [|by apply not_elem_of_nil in Hin]. simpl in Hp. subst.
    destruct (sh_tail _ _ _ _ Hsh) as [d Ht]. rewrite Ht in Hnd. by injection Hnd as <-.
  - apply elem_of_cons in Hin as [->|Hin].
    + destruct Hp as [(nd' & Ha & Hn) _]. exists [], l. simpl. congruence.
    + destruct IH as (l1 & l2 & E); [apply Hp|done..|]. exists (a :: l1), l2. by rewrite E.
Qed.

Lemma chain_split p nd q :
  p ∈ ch -> h !! p = Some nd -> fst (next nd) = Some q ->
  exists l1 l2, ch = l1 ++ p :: q :: l2 /\
    forall x, x ∈ ch -> x = p \/ x = q \/ kk h x < kk h p \/ kk h q < kk h x.
Proof.
  intros Hin Hnd Hq. destruct (path_split ch p nd q (sh_path _ _ _ _ Hsh) Hin Hnd Hq) as (l1 & l2 & E).
  exists l1, l2. split; [done|]. intros x Hx. pose proof chain_sorted as Hs. rewrite E in Hs, Hx.
  by eapply sorted_split.
Qed.

Lemma sorted_inj l p q :
  StronglySorted (fun p q => kk h p < kk h q) l -> p ∈ l -> q ∈ l -> kk h p = kk h q -> p = q.
Proof.
  intros Hs. induction Hs as [|a l Hs IH Hall]; [by intros ?%not_elem_of_nil|].
  rewrite Forall_forall in Hall.
  intros [->|Hp]%elem_of_cons [->|Hq]%elem_of_cons E; [done| | |auto].
  - specialize (Hall _ Hq). lia.
  - specialize (Hall _ Hp). lia.
Qed.

Lemma chain_inj p q : p ∈ ch -> q ∈ ch -> kk h p = kk h q -> p = q.
Proof. apply sorted_inj, chain_sorted. Qed.

Lemma tail_in_path l : path h tl l -> tl ∈ l.
Proof.
  induction l as [|a l IH]; [done|]. intros Hp. destruct l as [|b l]; [simpl in Hp; subst; by left|].
  right. apply IH, Hp.
Qed.
Lemma tail_in_chain : tl ∈ ch.
Proof. apply tail_in_path, Hsh. Qed.
Lemma head_in_chain : hd ∈ ch.
Proof. destruct (sh_first _ _ _ _ Hsh) as [l ->]. by left. Qed.

Lemma path_max l p :
  path h tl l -> StronglySorted (fun p q => kk h p < kk h q) l -> p ∈ l -> kk h p <= kk h tl.
Proof.
  induction l as [|a l IH]; [done|]. intros Hp Hs Hin. destruct l as [|b l].
  - simpl in Hp. subst. apply list_elem_of_singleton in Hin. by subst.
  - inversion Hs as [|? ? Hs' Hall]; subst. apply elem_of_cons in Hin as [->|Hin].
    + rewrite Forall_forall in Hall. specialize (Hall tl (tail_in_path (b :: l) (proj2 Hp))). lia.
    + apply IH; [apply Hp|done|done].
Qed.

Lemma kk_tail : kk h tl = UINT64_MAX.
Proof. destruct (sh_tail _ _ _ _ Hsh) as [d Ht]. by rewrite (kk_eq _ _ _ Ht). Qed.
Lemma kk_head : kk h hd = 0.
Proof. destruct (sh_head _ _ _ _ Hsh) as (nd & Hh & Hk & _). by rewrite (kk_eq _ _ _ Hh). Qed.

(** The reference of a node that is not the tail, and a marked node is neither
    sentinel. *)
Lemma successor p nd : h !! p = Some nd -> p <> tl -> exists q, fst (next nd) = Some q /\ kk h p < kk h q.
Proof.
  intros Hp Hne. destruct (sh_next _ _ _ _ Hsh p nd Hp Hne) as (q & nd' & Hq & Hq' & Hlt).
  exists q. split; [done|]. by rewrite (kk_eq _ _ _ Hp), (kk_eq _ _ _ Hq').
Qed.
Lemma marked_inner p nd : h !! p = Some nd -> snd (next nd) = true -> p <> tl /\ p <> hd.
Proof.
  intros Hp Hm. split; intros ->.
  - destruct (sh_tail _ _ _ _ Hsh) as [d Ht]. rewrite Ht in Hp. by injection Hp as <-.
  - destruct (sh_head _ _ _ _ Hsh) as (nd' & Hh & _ & Hf). congruence.
Qed.

(** The keys that are present. *)
Definition keys : gset Z := list_to_set (omap (present h hd tl) ch).

Lemma elem_keys k :
  k ∈ keys <-> exists p nd, p ∈ ch /\ p <> hd /\ p <> tl /\ h !! p = Some nd /\ snd (next nd) = false /\ key nd = k.
Proof.
  unfold keys. rewrite elem_of_list_to_set, list_elem_of_omap. split.
  - intros (p & Hp & E). unfold present in E. case_decide as Hs; [done|].
    destruct (h !! p) as [nd|] eqn:En; simpl in E; [|done]. destruct (snd (next nd)) eqn:Em; [done|].
    injection E as <-. exists p, nd. tauto.
  - intros (p & nd & Hp & H1 & H2 & Hnd & Hm & <-). exists p. split; [done|]. unfold present.
    rewrite decide_False by tauto. rewrite Hnd. simpl. by rewrite Hm.
Qed.

Lemma keys_bounds k : k ∈ keys -> 0 < k < UINT64_MAX.
Proof.
  intros (p & nd & Hp & H1 & H2 & Hnd & _ & <-)%elem_keys. rewrite <- (kk_eq _ _ _ Hnd).
  pose proof chain_sorted as Hs. split.
  - rewrite <- kk_head. destruct (sh_first _ _ _ _ Hsh) as [l E]. rewrite E in Hs, Hp.
    inversion Hs as [|? ? _ Hall]; subst. rewrite Forall_forall in Hall. apply Hall.
    apply elem_of_cons in Hp as [?|?]; [done|done].
  - assert (exists q, fst (next nd) = Some q /\ kk h p < kk h q) as (q & Hq & Hlt) by by apply successor.
    destruct (chain_split p nd q Hp Hnd Hq) as (l1 & l2 & E & Hall).
    rewrite <- kk_tail. destruct (Hall tl tail_in_chain) as [?|[->|[?|?]]]; [done|done| |lia].
    pose proof (path_max ch p (sh_path _ _ _ _ Hsh) chain_sorted Hp). lia.
Qed.

(** No key strictly between a linked node and its successor is present, nor is
    the key of a linked marked node. *)
Lemma gap_absent p nd q k : p ∈ ch -> h !! p = Some nd -> fst (next nd) = Some q -> kk h p < k < kk h q -> k ∉ keys.
Proof.
  intros Hp Hnd Hq Hk (x & nx & Hx & _ & _ & Hnx & _ & <-)%elem_keys.
  destruct (chain_split p nd q Hp Hnd Hq) as (_ & _ & _ & Hall).
  rewrite <- (kk_eq _ _ _ Hnx) in Hk. destruct (Hall x Hx) as [->|[->|[?|?]]]; lia.
Qed.

Lemma marked_absent p nd : p ∈ ch -> h !! p = Some nd -> snd (next nd) = true -> key nd ∉ keys.
Proof.
  intros Hp Hnd Hm (x & nx & Hx & _ & _ & Hnx & Hmx & E)%elem_keys.
  assert (x = p); [|congruence]. apply chain_inj; [done|done|].
  by rewrite (kk_eq _ _ _ Hnx), (kk_eq _ _ _ Hnd).
Qed.

Lemma unmarked_present p nd :
  p ∈ ch -> h !! p = Some nd -> snd (next nd) = false -> 0 < key nd < UINT64_MAX -> key nd ∈ keys.
Proof.
  intros Hp Hnd Hm Hk. apply elem_keys. exists p, nd. split_and!; try done; intros ->.
  - pose proof kk_head. rewrite (kk_eq _ _ _ Hnd) in H. lia.
  - pose proof kk_tail. rewrite (kk_eq _ _ _ Hnd) in H. lia.
Qed.
End Shape.

(** ** How a step changes the linked nodes *)

Lemma set_next_eq h p v nd : h !! p = Some nd -> set_next h p v !! p = Some (mk_node (key nd) v (data nd)).
Proof. intros H. unfold set_next. by rewrite lookup_alter_eq, H. Qed.
Lemma set_next_ne h p q v : p <> q -> set_next h p v !! q = h !! q.
Proof. intros H. unfold set_next. by rewrite lookup_alter_ne. Qed.
Lemma set_next_cases h p v q nd' :
  set_next h p v !! q = Some nd' ->
  exists nd, h !! q = Some nd /\ key nd' = key nd /\ ((q = p /\ next nd' = v) \/ (q <> p /\ nd' = nd)).
Proof.
  destruct (decide (p = q)) as [->|Hne].
  - unfold set_next. rewrite lookup_alter_eq. destruct (h !! q) as [nd|]; [|done].
    intros [= <-]. exists nd. auto.
  - rewrite set_next_ne by done. intros H. exists nd'. auto.
Qed.
Lemma kk_set_next h p v q : kk (set_next h p v) q = kk h q.
Proof.
  unfold kk, set_next. destruct (decide (p = q)) as [->|Hne].
  - rewrite lookup_alter_eq. by destruct (h !! q).
  - by rewrite lookup_alter_ne.
Qed.

(** The pointer a node holds. *)
Definition ref (h : gmap ptr node) (p : ptr) : option ptr := nd ← h !! p; fst (next nd).

Lemma path_cons h tl p q l : path h tl (p :: q :: l) <-> ref h p = Some q /\ path h tl (q :: l).
Proof.
  simpl. unfold ref. split; intros [H1 H2]; (split; [|done]).
  - destruct H1 as (nd & -> & Hn). exact Hn.
  - destruct (h !! p) as [nd|]; [|done]. eauto.
Qed.

Lemma path_same h h' tl l : (forall x, x ∈ l -> x <> tl -> ref h' x = ref h x) ->
  ref h tl = None -> path h tl l -> path h' tl l.
Proof.
  intros Hx Ht. induction l as [|a l IH]; [done|]. destruct l as [|b l]; [done|].
  rewrite !path_cons. intros [Ha Hp]. split.
  - rewrite Hx; [done|by left|]. intros ->. congruence.
  - apply IH; [|done]. intros x Hin. apply Hx. by right.
Qed.

Lemma path_app h h' tl l1 p l l' :
  (forall x, x ∈ l1 -> ref h' x = ref h x) -> path h tl (l1 ++ p :: l) -> path h' tl (p :: l') ->
  path h' tl (l1 ++ p :: l').
Proof.
  intros Hx Hp Hp'. induction l1 as [|a l1 IH]; [done|].
  destruct l1 as [|b l1]; cbn [app] in *.
  - apply path_cons in Hp as [Ha _]. apply path_cons. split; [|done]. rewrite Hx; [done|by left].
  - apply path_cons in Hp as [Ha Hp]. apply path_cons. split; [rewrite Hx; [done|by left]|].
    apply IH; [|done]. intros x Hin. apply Hx. by right.
Qed.

Lemma path_drop h tl l1 p l : path h tl (l1 ++ p :: l) -> path h tl (p :: l).
Proof.
  induction l1 as [|a l1 IH]; [done|]. intros Hp. apply IH.
  destruct l1 as [|b l1]; cbn [app] in *; by apply path_cons in Hp as [_ ?].
Qed.

Lemma chain_nodup h hd tl ch : shape h hd tl ch -> NoDup ch.
Proof.
  intros Hsh. pose proof (chain_sorted _ _ _ _ Hsh) as Hs. clear Hsh. induction Hs as [|a l Hs IH Hall]; [constructor|]. constructor; [|done].
  intros Ha. rewrite Forall_forall in Hall. specialize (Hall a Ha). lia.
Qed.

Lemma insert_after_eq p new l1 l2 : p ∉ l1 -> insert_after p new (l1 ++ p :: l2) = l1 ++ p :: new :: l2.
Proof.
  induction l1 as [|a l1 IH]; intros H; cbn [insert_after app].
  - by rewrite decide_True.
  - apply not_elem_of_cons in H as [Hne H]. rewrite decide_False by congruence. by rewrite IH.
Qed.
Lemma without_absent p l : p ∉ l -> without p l = l.
Proof.
  unfold without. induction l as [|a l IH]; [done|]. intros [Hne H]%not_elem_of_cons.
  rewrite filter_cons_True by congruence. by rewrite IH.
Qed.
Lemma without_eq p l1 l2 : p ∉ l1 -> p ∉ l2 -> without p (l1 ++ p :: l2) = l1 ++ l2.
Proof.
  intros H1 H2. unfold without. rewrite filter_app, filter_cons_False by (intros H; by apply H).
  f_equal; by apply without_absent.
Qed.

Section Changes.
Context (h : gmap ptr node) (hd tl : ptr) (ch : list ptr) (Hsh : shape h hd tl ch).

Lemma ref_tail : ref h tl = None.
Proof. unfold ref. by destruct (sh_tail _ _ _ _ Hsh) as [d ->]. Qed.

(** Changing the reference of one node other than the tail. *)
Lemma shape_set_next p nd q m ch' :
  h !! p = Some nd -> p <> tl -> is_Some (h !! q) -> kk h p < kk h q -> (p = hd -> m = false) ->
  (exists l, ch' = hd :: l) -> path (set_next h p (Some q, m)) tl ch' ->
  shape (set_next h p (Some q, m)) hd tl ch'.
Proof.
  intros Hp Hne Hq Hlt Hm Hfst Hpath. pose proof Hsh as [S1 S2 S3 _ _]. constructor; [| | |done|done].
  - intros x nx Hx Hxt. apply set_next_cases in Hx as (nx0 & Hx0 & Hk & Hcase). rewrite Hk.
    assert (Hex : forall y ny, h !! y = Some ny -> exists ny', set_next h p (Some q, m) !! y = Some ny' /\ key ny' = key ny).
    { intros y ny Hy. destruct (decide (p = y)) as [->|Hpy].
      - rewrite (set_next_eq _ _ _ _ Hy). eexists. split; [done|done].
      - rewrite set_next_ne by done. eauto. }
    destruct Hcase as [[-> Hv]|[Hxp ->]].
    + destruct Hq as [nq Hq]. destruct (Hex _ _ Hq) as (nq' & Hq' & Hkq). exists q, nq'.
      rewrite Hv, Hkq. split; [done|]. split; [done|].
      by rewrite (kk_eq _ _ _ Hx0), (kk_eq _ _ _ Hq) in Hlt.
    + destruct (S1 x nx0 Hx0 Hxt) as (y & ny & Hy & Hny & Hl). destruct (Hex _ _ Hny) as (ny' & Hny' & Hky).
      exists y, ny'. rewrite Hky. done.
  - destruct S2 as [d Hd]. exists d. by rewrite set_next_ne by done.
  - destruct S3 as (nh & Hh & Hk & Hf). destruct (decide (p = hd)) as [->|Hph].
    + rewrite (set_next_eq _ _ _ _ Hh). eexists. split; [done|]. split; [done|]. simpl. by apply Hm.
    + rewrite set_next_ne by done. eauto.
Qed.

(** A new node that is not linked. *)
Lemma shape_alloc x k curr d :
  h !! x = None -> is_Some (h !! curr) -> k < kk h curr ->
  shape (<[x := mk_node k (Some curr, false) d]> h) hd tl ch.
Proof.
  intros Hx [nc Hc] Hk. pose proof Hsh as [S1 S2 S3 S4 S5].
  assert (Hold : forall y ny, h !! y = Some ny -> (<[x := mk_node k (Some curr, false) d]> h) !! y = Some ny).
  { intros y ny Hy. rewrite lookup_insert_ne; [done|]. intros ->. congruence. }
  constructor.
  - intros p nd Hp Hne. destruct (decide (x = p)) as [<-|Hxp].
    + rewrite lookup_insert_eq in Hp. injection Hp as <-. exists curr, nc. split; [done|]. split; [by apply Hold|].
      by rewrite (kk_eq _ _ _ Hc) in Hk.
    + rewrite lookup_insert_ne in Hp by done. destruct (S1 p nd Hp Hne) as (q & nd' & ? & ? & ?). exists q, nd'. auto.
  - destruct S2 as [dt Hd]. exists dt. auto.
  - destruct S3 as (nh & ? & ? & ?). exists nh. auto.
  - done.
  - apply (path_same h); [|apply ref_tail|done]. intros y Hy _. unfold ref.
    destruct (chain_heap _ _ _ _ Hsh y Hy) as [ny Hny]. by rewrite Hny, (Hold _ _ Hny).
Qed.

Lemma keys_alloc x nd : h !! x = None -> keys (<[x := nd]> h) hd tl ch = keys h hd tl ch.
Proof.
  intros Hx. apply set_eq. intros k. rewrite !elem_keys.
  assert (Hl : forall p, p ∈ ch -> (<[x := nd]> h) !! p = h !! p).
  { intros p Hp. destruct (chain_heap _ _ _ _ Hsh p Hp) as [np Hnp]. rewrite lookup_insert_ne; [done|].
    intros ->. congruence. }
  split; intros (p & np & Hp & H1 & H2 & Hnp & H3); exists p, np; rewrite (Hl p Hp) in *; tauto.
Qed.

Lemma split_nodup l1 p l2 : ch = (l1 ++ p :: l2) -> (p ∉ l1) /\ (p ∉ l2).
Proof.
  intros E. pose proof (chain_nodup _ _ _ _ Hsh) as Hnd. rewrite E in Hnd.
  apply NoDup_app in Hnd as (_ & H1 & H2). inversion H2; subst. split; [|done].
  intros Hp. apply (H1 _ Hp). by left.
Qed.

(** [add]: the exchange links the new node. *)
Section Link.
Context (pred curr new : ptr) (np nn : node).
Context (Hpred : pred ∈ ch) (Hnp : h !! pred = Some np) (Hnext : next np = (Some curr, false)).
Context (Hnew : h !! new = Some nn) (Hnn : next nn = (Some curr, false)) (Hout : new ∉ ch).
Context (Hk1 : kk h pred < key nn) (Hk2 : key nn < kk h curr).

Lemma link_chain : exists l1 l2, ch = l1 ++ pred :: curr :: l2  /\ insert_after pred new ch = l1 ++ pred :: new :: curr :: l2.
Proof.
  destruct (chain_split _ _ _ _ Hsh pred np curr Hpred Hnp) as (l1 & l2 & E & _); [by rewrite Hnext|].
  exists l1, l2. split; [done|]. rewrite E. apply insert_after_eq. by destruct (split_nodup _ _ _ E).
Qed.

Lemma elem_link x : x ∈ insert_after pred new ch <-> x = new \/ x ∈ ch.
Proof. destruct link_chain as (l1 & l2 & -> & ->). rewrite !elem_of_app, !elem_of_cons. tauto. Qed.

Lemma pred_not_tail : pred <> tl.
Proof. intros ->. destruct (sh_tail _ _ _ _ Hsh) as [d Hd]. rewrite Hd in Hnp. injection Hnp as <-. done. Qed.

Lemma shape_link : shape (set_next h pred (Some new, false)) hd tl (insert_after pred new ch).
Proof.
  assert (Hne : pred <> new) by (intros ->; done).
  eapply shape_set_next; [done|apply pred_not_tail|by eexists| |done| |].
  - by rewrite (kk_eq _ _ _ Hnew).
  - destruct link_chain as (l1 & l2 & E & ->). destruct (sh_first _ _ _ _ Hsh) as [l El].
    rewrite El in E. destruct l1 as [|a l1]; simpl in *; injection E as -> _; eauto.
  - destruct link_chain as (l1 & l2 & E & ->). pose proof (split_nodup _ _ _ E) as [H1 H2].
    pose proof (sh_path _ _ _ _ Hsh) as Hp. rewrite E in Hp.
    eapply (path_app h); [|exact Hp|].
    + intros x Hx. unfold ref. rewrite set_next_ne; [done|]. by intros ->.
    + apply path_drop in Hp as Hp'. apply path_cons. split.
      { unfold ref. by rewrite (set_next_eq _ _ _ _ Hnp). }
      apply path_cons. split.
      { unfold ref. rewrite set_next_ne by done. by rewrite Hnew; simpl; rewrite Hnn. }
      apply path_cons in Hp' as [_ Hp']. apply (path_same h); [|apply ref_tail|done].
      intros x Hx _. unfold ref. rewrite set_next_ne; [done|]. by intros ->.
Qed.

Lemma keys_link : keys (set_next h pred (Some new, false)) hd tl (insert_after pred new ch) = {[key nn]} ∪ keys h hd tl ch.
Proof.
  assert (Hhd : new <> hd) by (intros ->; apply Hout, (head_in_chain _ _ _ _ Hsh)).
  assert (Htl : new <> tl) by (intros ->; apply Hout, (tail_in_chain _ _ _ _ Hsh)).
  apply set_eq. intros k. rewrite elem_of_union, elem_of_singleton, !elem_keys. split.
  - intros (p & nd & Hp & H1 & H2 & Hnd & Hm & <-). apply elem_link in Hp.
    apply set_next_cases in Hnd as (nd0 & Hnd0 & -> & Hc).
    destruct Hp as [->|Hp]; [left; congruence|]. right. exists p, nd0. split_and!; try done.
    destruct Hc as [[-> _]|[_ ->]]; [|done]. rewrite Hnp in Hnd0. injection Hnd0 as <-. by rewrite Hnext.
  - intros [->|(p & nd & Hp & H1 & H2 & Hnd & Hm & <-)].
    + exists new, nn. rewrite set_next_ne by (intros ->; done). rewrite elem_link.
      split_and!; try done; [by left|by rewrite Hnn].
    + destruct (decide (p = pred)) as [->|Hne].
      * exists pred, (mk_node (key np) (Some new, false) (data np)). rewrite elem_link.
        split_and!; try done; [by right|by apply set_next_eq|]. simpl. congruence.
      * exists p, nd. rewrite set_next_ne by done. rewrite elem_link. split_and!; try done. by right.
Qed.
End Link.

(** [find] and [remove]: the exchange unlinks a marked node. *)
Section Snip.
Context (pred curr succ : ptr) (np nc : node).
Context (Hpred : pred ∈ ch) (Hnp : h !! pred = Some np) (Hnext : next np = (Some curr, false)).
Context (Hcurr : h !! curr = Some nc) (Hnc : next nc = (Some succ, true)).

Lemma snip_chain : exists l1 l2, ch = l1 ++ pred :: curr :: succ :: l2  /\ without curr ch = l1 ++ pred :: succ :: l2.
Proof.
  destruct (chain_split _ _ _ _ Hsh pred np curr Hpred Hnp) as (l1 & l2 & E & _); [by rewrite Hnext|].
  assert (Hin : curr ∈ ch) by (rewrite E, elem_of_app, !elem_of_cons; auto).
  destruct (chain_split _ _ _ _ Hsh curr nc succ Hin Hcurr) as (l3 & l4 & E' & _); [by rewrite Hnc|].
  assert (exists l5, l2 = succ :: l5) as [l5 ->].
  { pose proof (sh_path _ _ _ _ Hsh) as Hp. rewrite E in Hp. apply path_drop in Hp. apply path_cons in Hp as [_ Hp].
    destruct l2 as [|a l2].
    - simpl in Hp. subst. destruct (sh_tail _ _ _ _ Hsh) as [d Hd]. rewrite Hd in Hcurr. injection Hcurr as <-. done.
    - apply path_cons in Hp as [Hr _]. unfold ref in Hr. rewrite Hcurr in Hr. simpl in Hr. rewrite Hnc in Hr.
      injection Hr as ->. by eexists. }
  exists l1, l5. split; [done|]. rewrite E. replace (l1 ++ pred :: curr :: succ :: l5) with ((l1 ++ [pred]) ++ curr :: succ :: l5)
    by (rewrite <- app_assoc; done). rewrite without_eq; [by rewrite <- app_assoc| |].
  - apply (split_nodup (l1 ++ [pred]) curr (succ :: l5)). by rewrite <- app_assoc.
  - apply (split_nodup (l1 ++ [pred]) curr (succ :: l5)). by rewrite <- app_assoc.
Qed.

Lemma elem_snip x : x ∈ ch <-> x = curr \/ x ∈ without curr ch.
Proof. destruct snip_chain as (l1 & l2 & -> & ->). rewrite !elem_of_app, !elem_of_cons. tauto. Qed.
Lemma snip_out : curr ∉ without curr ch.
Proof. unfold without. rewrite list_elem_of_filter. tauto. Qed.
Lemma snip_succ : curr ∈ ch /\ succ ∈ without curr ch /\ pred ∈ without curr ch.
Proof. split; [apply elem_snip; by left|]. destruct snip_chain as (l1 & l2 & _ & ->). rewrite !elem_of_app, !elem_of_cons. auto. Qed.

Lemma shape_snip : shape (set_next h pred (Some succ, false)) hd tl (without curr ch).
Proof.
  destruct snip_chain as (l1 & l2 & E & Ew). rewrite Ew. pose proof (split_nodup _ _ _ E) as [H1 H2].
  destruct (marked_inner _ _ _ _ Hsh curr nc Hcurr) as [Hct Hch]; [by rewrite Hnc|].
  assert (Hpt : pred <> tl).
  { intros ->. destruct (sh_tail _ _ _ _ Hsh) as [d Hd]. rewrite Hd in Hnp. injection Hnp as <-. done. }
  destruct (sh_next _ _ _ _ Hsh curr nc Hcurr Hct) as (y & ny & Hy & Hny & Hl1). rewrite Hnc in Hy. injection Hy as <-.
  destruct (sh_next _ _ _ _ Hsh pred np Hnp Hpt) as (z & nz & Hz & Hnz & Hl2). rewrite Hnext in Hz. injection Hz as <-.
  eapply shape_set_next; [done|done|by eexists| |done| |].
  - rewrite (kk_eq _ _ _ Hnp), (kk_eq _ _ _ Hny). rewrite Hcurr in Hnz. injection Hnz as <-. lia.
  - destruct (sh_first _ _ _ _ Hsh) as [l El]. rewrite El in E. destruct l1 as [|a l1]; simpl in *; injection E as -> _; eauto.
  - pose proof (sh_path _ _ _ _ Hsh) as Hp. rewrite E in Hp. eapply (path_app h); [|exact Hp|].
    + intros x Hx. unfold ref. rewrite set_next_ne; [done|]. by intros ->.
    + apply path_drop in Hp. apply path_cons in Hp as [_ Hp]. apply path_cons in Hp as [_ Hp].
      apply path_cons. split; [unfold ref; by rewrite (set_next_eq _ _ _ _ Hnp)|].
      apply (path_same h); [|apply ref_tail|done]. intros x Hx _. unfold ref. rewrite set_next_ne; [done|].
      intros ->. apply H2. by right.
Qed.

Lemma keys_snip : keys (set_next h pred (Some succ, false)) hd tl (without curr ch) = keys h hd tl ch.
Proof.
  apply set_eq. intros k. rewrite !elem_keys. split.
  - intros (p & nd & Hp & H1 & H2 & Hnd & Hm & <-). apply set_next_cases in Hnd as (nd0 & Hnd0 & -> & Hc).
    exists p, nd0. rewrite elem_snip. split_and!; try done; [by right|].
    destruct Hc as [[-> _]|[_ ->]]; [|done]. rewrite Hnp in Hnd0. injection Hnd0 as <-. by rewrite Hnext.
  - intros (p & nd & Hp & H1 & H2 & Hnd & Hm & <-). apply elem_snip in Hp as [->|Hp].
    { rewrite Hcurr in Hnd. injection Hnd as <-. by rewrite Hnc in Hm. }
    destruct (decide (p = pred)) as [->|Hne].
    + exists pred, (mk_node (key np) (Some succ, false) (data np)). split_and!; try done; [by apply set_next_eq|].
      simpl. congruence.
    + exists p, nd. by rewrite set_next_ne by done.
Qed.
End Snip.

(** [remove]: the exchange marks a node. *)
Section Mark.
Context (curr q : ptr) (nc : node).
Context (Hcurr : h !! curr = Some nc) (Hnc : next nc = (Some q, false)) (Hhd : curr <> hd) (Htl : curr <> tl).

Lemma shape_mark : shape (set_next h curr (Some q, true)) hd tl ch.
Proof.
  destruct (sh_next _ _ _ _ Hsh curr nc Hcurr Htl) as (y & ny & Hy & Hny & Hl). rewrite Hnc in Hy. injection Hy as <-.
  eapply shape_set_next; [done|done|by eexists| |done|apply Hsh|].
  - by rewrite (kk_eq _ _ _ Hcurr), (kk_eq _ _ _ Hny).
  - apply (path_same h); [|apply ref_tail|apply Hsh]. intros x _ _. unfold ref.
    destruct (decide (curr = x)) as [<-|Hne]; [|by rewrite set_next_ne].
    rewrite (set_next_eq _ _ _ _ Hcurr), Hcurr. simpl. by rewrite Hnc.
Qed.

Lemma keys_mark : curr ∈ ch ->
  keys (set_next h curr (Some q, true)) hd tl ch = keys h hd tl ch ∖ {[key nc]} /\ key nc ∈ keys h hd tl ch.
Proof.
  intros Hin. assert (Hk : key nc ∈ keys h hd tl ch).
  { apply elem_keys. exists curr, nc. by rewrite Hnc. }
  split; [|done]. apply set_eq. intros k. rewrite elem_of_difference, elem_of_singleton, !elem_keys. split.
  - intros (p & nd & Hp & H1 & H2 & Hnd & Hm & <-). apply set_next_cases in Hnd as (nd0 & Hnd0 & -> & Hc).
    destruct Hc as [[-> Hv]|[Hne ->]]; [by rewrite Hv in Hm|]. split; [by exists p, nd0|].
    intros E. apply Hne, (chain_inj _ _ _ _ Hsh); [done|done|].
    by rewrite (kk_eq _ _ _ Hnd0), (kk_eq _ _ _ Hcurr).
  - intros [(p & nd & Hp & H1 & H2 & Hnd & Hm & <-) Hne]. exists p, nd. rewrite set_next_ne; [done|].
    intros ->. congruence.
Qed.
End Mark.
End Changes.

(** ** What a thread knows *)

(** No key strictly between the two nodes has been present all the time. *)
Definition gap (h : gmap ptr node) (al : gset Z) (p q : ptr) : Prop := forall k, kk h p < k < kk h q -> k ∉ al.

(** The nodes a call may meet: those linked now, and those that were, which are
    marked and still lead to such nodes. *)
Record view (h : gmap ptr node) (hd tl : ptr) (ch : list ptr) (V : gset ptr) (al : gset Z) : Prop := {
  vw_chain : forall p, p ∈ ch -> p ∈ V;
  vw_heap : forall p, p ∈ V -> is_Some (h !! p);
  vw_gone : forall p, p ∈ V -> p ∉ ch -> exists nd q, h !! p = Some nd /\ next nd = (Some q, true) /\ q ∈ V /\
    forall k, key nd <= k < kk h q -> k ∉ al;
  vw_always : al ⊆ keys h hd tl ch
}.

(** Keys never change and marked nodes never change. *)
Definition ext (h h' : gmap ptr node) : Prop :=
  forall p nd, h !! p = Some nd -> exists nd', h' !! p = Some nd' /\ key nd' = key nd /\
    (snd (next nd) = true -> nd' = nd).

Lemma ext_refl h : ext h h.
Proof. intros p nd H. eauto. Qed.
Lemma ext_kk h h' p : ext h h' -> is_Some (h !! p) -> kk h' p = kk h p.
Proof. intros He [nd Hp]. destruct (He p nd Hp) as (nd' & Hp' & Hk & _). by rewrite (kk_eq _ _ _ Hp), (kk_eq _ _ _ Hp'). Qed.
Lemma ext_set_next h p v nd : h !! p = Some nd -> snd (next nd) = false -> ext h (set_next h p v).
Proof.
  intros Hp Hm q nq Hq. destruct (decide (p = q)) as [->|Hne].
  - rewrite (set_next_eq _ _ _ _ Hq). eexists. split; [done|]. split; [done|]. congruence.
  - rewrite set_next_ne by done. eauto.
Qed.
Lemma ext_alloc h x nd : h !! x = None -> ext h (<[x := nd]> h).
Proof. intros Hx p np Hp. exists np. rewrite lookup_insert_ne; [auto|]. congruence. Qed.

Lemma view_step h h' hd tl ch ch' V al :
  ext h h' -> view h hd tl ch V al -> shape h' hd tl ch' ->
  (forall p, p ∈ ch -> p ∉ ch' -> exists nd q, h' !! p = Some nd /\ next nd = (Some q, true) /\ q ∈ ch' /\
     forall k, key nd <= k < kk h' q -> k ∉ keys h' hd tl ch') ->
  view h' hd tl ch' (V ∪ list_to_set ch') (al ∩ keys h' hd tl ch').
Proof.
  intros He [V1 V2 V3 V4] Hsh Hout. constructor.
  - intros p Hp. apply elem_of_union_r, elem_of_list_to_set, Hp.
  - intros p [Hp|Hp%elem_of_list_to_set]%elem_of_union; [|destruct (chain_heap _ _ _ _ Hsh p Hp); eauto].
    destruct (V2 p Hp) as [nd Hnd]. destruct (He p nd Hnd) as (nd' & ? & _). eauto.
  - intros p [Hp|Hp%elem_of_list_to_set]%elem_of_union Hn; [|done].
    destruct (decide (p ∈ ch)) as [Hc|Hc].
    + destruct (Hout p Hc Hn) as (nd & q & ? & ? & ? & Hk). exists nd, q.
      split_and!; try done; [by apply elem_of_union_r, elem_of_list_to_set|].
      intros k Hkb [_ Hi]%elem_of_intersection. by apply (Hk k).
    + destruct (V3 p Hp Hc) as (nd & q & Hnd & Hnx & Hq & Hk). destruct (He p nd Hnd) as (nd' & Hnd' & _ & Hm).
      rewrite Hnx in Hm. specialize (Hm eq_refl). subst nd'. exists nd, q.
      split_and!; try done; [by apply elem_of_union_l|]. rewrite (ext_kk _ _ q He) by auto.
      intros k Hkb [Hi _]%elem_of_intersection. by apply (Hk k).
  - intros k [_ Hk]%elem_of_intersection. done.
Qed.

Section View.
Context (h : gmap ptr node) (hd tl : ptr) (ch : list ptr) (Hsh : shape h hd tl ch).
Context (V : gset ptr) (al : gset Z) (Hv : view h hd tl ch V al).

Lemma view_unmarked p nd : p ∈ V -> h !! p = Some nd -> snd (next nd) = false -> p ∈ ch.
Proof.
  intros Hp Hnd Hm. destruct (decide (p ∈ ch)) as [|Hn]; [done|].
  destruct (vw_gone _ _ _ _ _ _ Hv p Hp Hn) as (nd' & q & Hnd' & Hnx & _).
  rewrite Hnd in Hnd'. injection Hnd' as <-. by rewrite Hnx in Hm.
Qed.

Lemma view_marked p nd : p ∈ V -> h !! p = Some nd -> snd (next nd) = true -> key nd ∉ al.
Proof.
  intros Hp Hnd Hm. destruct (decide (p ∈ ch)) as [Hc|Hn].
  - intros Hk%(vw_always _ _ _ _ _ _ Hv). by eapply (marked_absent h hd tl ch Hsh p nd).
  - destruct (vw_gone _ _ _ _ _ _ Hv p Hp Hn) as (nd' & q & Hnd' & Hnx & Hq & Hk).
    rewrite Hnd in Hnd'. injection Hnd' as <-. apply Hk. split; [lia|].
    destruct (marked_inner _ _ _ _ Hsh p nd Hnd Hm) as [Ht _].
    destruct (successor _ _ _ _ Hsh p nd Hnd Ht) as (q' & Hq' & Hlt). rewrite Hnx in Hq'. injection Hq' as <-.
    by rewrite (kk_eq _ _ _ Hnd) in Hlt.
Qed.

(** Reading the reference of a node that is not the tail. *)
Lemma view_read p nd : p ∈ V -> h !! p = Some nd -> p <> tl ->
  exists q, fst (next nd) = Some q /\ q ∈ V /\ kk h p < kk h q /\ gap h al p q.
Proof.
  intros Hp Hnd Ht. destruct (successor _ _ _ _ Hsh p nd Hnd Ht) as (q & Hq & Hlt). exists q.
  destruct (decide (p ∈ ch)) as [Hc|Hn].
  - destruct (chain_split _ _ _ _ Hsh p nd q Hc Hnd Hq) as (l1 & l2 & E & _).
    split_and!; try done.
    + apply (vw_chain _ _ _ _ _ _ Hv). rewrite E, elem_of_app, !elem_of_cons. auto.
    + intros k Hk Hin%(vw_always _ _ _ _ _ _ Hv). by eapply (gap_absent h hd tl ch Hsh p nd q k).
  - destruct (vw_gone _ _ _ _ _ _ Hv p Hp Hn) as (nd' & q' & Hnd' & Hnx & Hq' & Hk).
    rewrite Hnd in Hnd'. injection Hnd' as <-. rewrite Hnx in Hq. injection Hq as ->.
    split_and!; [by rewrite Hnx|done|done|]. intros k Hkb. apply Hk. rewrite <- (kk_eq _ _ _ Hnd). lia.
Qed.

Lemma view_inner p nd : p ∈ V -> h !! p = Some nd -> snd (next nd) = false -> p <> tl -> 0 < kk h p ->
  key nd ∈ keys h hd tl ch.
Proof.
  intros Hp Hnd Hm Ht Hk. pose proof (view_unmarked p nd Hp Hnd Hm) as Hc.
  apply elem_keys. exists p, nd. split_and!; try done. intros ->. rewrite (kk_head _ _ _ _ Hsh) in Hk. lia.
Qed.

Lemma head_in_view : hd ∈ V.
Proof. apply (vw_chain _ _ _ _ _ _ Hv), (head_in_chain _ _ _ _ Hsh). Qed.
End View.

(** ** The invariant of a thread *)

Definition acc_ok (h : gmap ptr node) (V : gset ptr) (ev : gset Z) (acc : list ptr) : Prop :=
  StronglySorted (fun p q => kk h p < kk h q) acc /\ forall p, p ∈ acc -> p ∈ V /\ kk h p ∈ ev.

(** [p] is marked; its reference no longer changes. *)
Definition marked_to (h : gmap ptr node) (p : ptr) (q : ptr) : Prop :=
  exists nd, h !! p = Some nd /\ next nd = (Some q, true).

Definition result_ok (h : gmap ptr node) (V : gset ptr) (ev al : gset Z) (o : op) (r : result) : Prop :=
  match o, r with
  | Add k _, RBool b => k ∈ ev /\ (b = true -> k ∉ al)
  | Remove k, RBool b => (k ∉ al) /\ (b = true -> k ∈ ev)
  | Contains k, RBool b => if b then k ∈ ev else k ∉ al
  | Get k, RNode p =>
      match p with Some p => p ∈ V /\ kk h p = k | None => k ∈ al -> exists q r, q ∈ V /\ kk h q < k /\ marked_to h q r end
  | ForEach, RAll acc => acc_ok h V ev acc /\ forall k, k ∈ al -> exists p, p ∈ acc /\ kk h p = k
  | _, _ => False
  end.

Definition is_update (o : op) : bool := match o with Add _ _ | Remove _ => true | _ => false end.
Definition is_add (o : op) : bool := match o with Add _ _ => true | _ => false end.
Definition is_remove (o : op) : bool := match o with Remove _ => true | _ => false end.

Definition walked (h : gmap ptr node) (tl : ptr) (V : gset ptr) (ev al : gset Z) (curr : ptr) (acc : list ptr) : Prop :=
  curr ∈ V /\ curr <> tl /\ 0 < kk h curr /\ acc_ok h V ev acc /\ (forall p, p ∈ acc -> kk h p < kk h curr) /\
  forall k, k ∈ al -> k < kk h curr -> exists p, p ∈ acc /\ kk h p = k.

Definition pc_ok (h : gmap ptr node) (tl : ptr) (V : gset ptr) (ev al : gset Z) (o : op) (c : pc) : Prop :=
  match c with
  | Idle | Wild => True
  | FHead => is_update o = true
  | FNext pred curr => is_update o = true /\ pred ∈ V /\ curr ∈ V /\ kk h pred < target o /\ gap h al pred curr
  | FSnip pred curr succ =>
      is_update o = true /\ pred ∈ V /\ curr ∈ V /\ succ ∈ V /\ kk h pred < target o /\ marked_to h curr succ
  | AAlloc pred curr => is_add o = true /\ pred ∈ V /\ curr ∈ V /\ kk h pred < target o < kk h curr
  | ACas pred curr new =>
      is_add o = true /\ pred ∈ V /\ curr ∈ V /\ kk h pred < target o < kk h curr /\
      exists nd, h !! new = Some nd /\ next nd = (Some curr, false) /\ key nd = target o
  | RRead pred curr | RMark pred curr _ | RMarkCas pred curr _ =>
      is_remove o = true /\ pred ∈ V /\ curr ∈ V /\ kk h curr = target o /\ target o ∈ ev
  | RSnip pred curr succ =>
      is_remove o = true /\ pred ∈ V /\ curr ∈ V /\ target o ∈ ev /\ (target o ∉ al) /\
      exists q, succ = Some q /\ marked_to h curr q
  | RRetire curr => is_remove o = true /\ target o ∈ ev /\ target o ∉ al
  | CRef prev curr =>
      (exists k, o = Contains k) /\ prev ∈ V /\ curr ∈ V /\ kk h prev < target o /\ gap h al prev curr
  | CMark prev curr succ =>
      (exists k, o = Contains k) /\ prev ∈ V /\ curr ∈ V /\ kk h prev < target o /\ gap h al prev curr /\
      match succ with Some q => q ∈ V /\ gap h al curr q | None => curr = tl end
  | GNext curr m => (exists k, o = Get k) /\ curr ∈ V /\
      exists prev, prev ∈ V /\ kk h prev < target o /\ gap h al prev curr /\ (m = true -> exists q, marked_to h prev q)
  | EHead => o = ForEach
  | EMark curr acc => o = ForEach /\ walked h tl V ev al curr acc
  | ERef curr marked acc =>
      o = ForEach /\ walked h tl V ev al curr acc /\ if marked then kk h curr ∉ al else kk h curr ∈ ev
  | Done r => result_ok h V ev al o r
  end.

Section Mono.
Context (h h' : gmap ptr node) (tl : ptr) (V V' : gset ptr) (ev ev' al al' : gset Z).
Context (He : ext h h') (Hdom : forall p, p ∈ V -> is_Some (h !! p)) (HV : V ⊆ V') (Hev : ev ⊆ ev') (Hal : al' ⊆ al).

Lemma kk_mono p : p ∈ V -> kk h' p = kk h p.
Proof. intros Hp. by apply ext_kk, Hdom. Qed.
Lemma gap_mono p q : p ∈ V -> q ∈ V -> gap h al p q -> gap h' al' p q.
Proof. intros Hp Hq Hg k. rewrite !kk_mono by done. intros Hk Hin%Hal. by apply (Hg k). Qed.
Lemma marked_to_mono p q : marked_to h p q -> marked_to h' p q.
Proof.
  intros (nd & Hnd & Hn). destruct (He p nd Hnd) as (nd' & Hnd' & _ & Hm).
  rewrite Hn in Hm. rewrite (Hm eq_refl) in Hnd'. by exists nd.
Qed.
Lemma acc_ok_mono acc : acc_ok h V ev acc -> acc_ok h' V' ev' acc.
Proof.
  intros [Hs Ha]. split.
  - assert (Hk : forall p, p ∈ acc -> kk h' p = kk h p) by (intros p Hp; apply kk_mono, Ha, Hp). clear Ha.
    induction Hs as [|a l Hs IH Hall]; [constructor|]. rewrite Forall_forall in Hall.
    constructor; [apply IH; intros p Hp; apply Hk; by right|]. rewrite Forall_forall. intros x Hx.
    rewrite !Hk by (by left || by right). by apply Hall.
  - intros p Hp. destruct (Ha p Hp) as [? ?]. rewrite kk_mono by done. auto.
Qed.
Lemma reached_mono acc k : acc_ok h V ev acc -> (exists p, p ∈ acc /\ kk h p = k) -> exists p, p ∈ acc /\ kk h' p = k.
Proof. intros [_ Ha] (p & Hp & Hk). exists p. split; [done|]. rewrite kk_mono; [done|]. by apply Ha. Qed.
Lemma result_ok_mono o r : result_ok h V ev al o r -> result_ok h' V' ev' al' o r.
Proof.
  destruct o, r; simpl; try done.
  - intros [? ?]. split; [auto|]. intros Hb Hin%Hal. tauto.
  - intros [? ?]. split; [by intros Hin%Hal|]. auto.
  - destruct b; [auto|]. intros Hn Hin%Hal. done.
  - destruct p as [p|]; [intros [? ?]; rewrite kk_mono by done; auto|]. intros H Hin%Hal. destruct (H Hin) as (q & r & Hq & Hk & Hm).
    exists q, r. rewrite kk_mono by done. auto using marked_to_mono.
  - intros [Ha Hk]. split; [by apply acc_ok_mono|]. intros k Hin%Hal. eapply reached_mono; eauto.
Qed.
Lemma walked_mono curr acc : walked h tl V ev al curr acc -> walked h' tl V' ev' al' curr acc.
Proof.
  intros (H1 & H2 & H3 & H4 & H5 & H6). unfold walked. rewrite (kk_mono curr) by done.
  split_and!; auto using acc_ok_mono.
  - intros p Hp. rewrite kk_mono by (by apply H4). auto.
  - intros k Hk%Hal Hlt. eapply reached_mono; eauto.
Qed.

Lemma pc_ok_mono o c :
  (forall a b n, c = ACas a b n -> h' !! n = h !! n) -> pc_ok h tl V ev al o c -> pc_ok h' tl V' ev' al' o c.
Proof.
  intros Hnew. assert (Hn : forall k, k ∉ al -> k ∉ al') by (intros k Hk Hin%Hal; done).
  destruct c; simpl; try done; rewrite ?kk_mono by tauto.
  - intros (? & ? & ? & ? & ?). rewrite kk_mono by done. auto 10 using gap_mono.
  - intros (? & ? & ? & ? & ? & ?). rewrite kk_mono by done. auto 10 using marked_to_mono.
  - intros (? & ? & ? & ?). rewrite !kk_mono by done. auto 10.
  - intros (? & ? & ? & ? & Hnd). rewrite !kk_mono by done. rewrite (Hnew _ _ _ eq_refl). auto 10.
  - intros (? & ? & ? & ? & ?). rewrite kk_mono by done. auto 10.
  - intros (? & ? & ? & ? & ?). rewrite kk_mono by done. auto 10.
  - intros (? & ? & ? & ? & ?). rewrite kk_mono by done. auto 10.
  - intros (? & ? & ? & ? & ? & q & ? & ?). split_and!; auto. exists q. auto using marked_to_mono.
  - intros (? & ? & ?). auto.
  - intros (? & ? & ? & ? & ?). rewrite kk_mono by done. auto 10 using gap_mono.
  - intros (? & ? & ? & ? & ? & Hs). rewrite kk_mono by done. split_and!; auto using gap_mono.
    destruct succ as [q|]; [|done]. destruct Hs. auto using gap_mono.
  - intros (? & ? & prev & ? & ? & ? & Hm). split_and!; auto. exists prev. rewrite kk_mono by done.
    split_and!; auto using gap_mono. intros ->. destruct (Hm eq_refl) as [q ?]. exists q. by apply marked_to_mono.
  - intros [? ?]. auto using walked_mono.
  - intros (? & Hw & Hm). split; [done|]. split; [by apply walked_mono|]. rewrite kk_mono by (by destruct Hw).
    destruct marked; auto.
  - apply result_ok_mono.
Qed.
End Mono.

(** ** Steps that only read *)

Definition op_ok (o : op) : Prop := match o with ForEach => True | _ => 0 < target o < UINT64_MAX end.

Section Reads.
Context (h : gmap ptr node) (hd tl : ptr) (ch : list ptr) (Hsh : shape h hd tl ch).
Context (V : gset ptr) (ev al : gset Z) (Hv : view h hd tl ch V al) (Hev : keys h hd tl ch ⊆ ev).
Context (o : op) (Hop : op_ok o).

Lemma update_target : is_update o = true -> 0 < target o < UINT64_MAX.
Proof. by destruct o. Qed.

Lemma from_head nd curr : h !! hd = Some nd -> fst (next nd) = Some curr ->
  curr ∈ V /\ kk h hd = 0 /\ 0 < kk h curr /\ gap h al hd curr.
Proof.
  intros Hnd Hc. destruct (view_read _ _ _ _ Hsh _ _ Hv hd nd) as (q & Hq & HqV & Hlt & Hg);
    [by eapply head_in_view|done|by eapply head_not_tail|].
  rewrite Hc in Hq. injection Hq as <-. pose proof (kk_head _ _ _ _ Hsh). split_and!; (done || lia).
Qed.

Lemma ok_head nd curr : is_update o = true -> h !! hd = Some nd -> fst (next nd) = Some curr ->
  pc_ok h tl V ev al o (FNext hd curr).
Proof.
  intros Hu Hnd Hc. destruct (from_head _ _ Hnd Hc) as (? & Hk & _ & ?). pose proof (update_target Hu).
  simpl. split_and!; try done; [by eapply head_in_view|lia].
Qed.

(** [find] has its window. *)
Lemma ok_found pred curr nd s c' r :
  pc_ok h tl V ev al o (FNext pred curr) -> h !! curr = Some nd -> snd (next nd) = false ->
  target o <= key nd -> found s o pred curr (key nd) = Some (r, c') ->
  r = (heap s, chain s, retired s) /\ pc_ok h tl V ev al o c' /\ (forall a b n, c' <> ACas a b n).
Proof.
  intros (Hu & Hp & Hc & Hlt & Hg) Hnd Hm Hle Hf. pose proof (update_target Hu) as Ht.
  assert (Hin : key nd = target o -> target o ∈ ev).
  { intros E. apply Hev. rewrite <- E. eapply (view_inner h hd tl ch Hsh V al Hv curr nd); try done.
    - intros ->. pose proof (kk_tail _ _ _ _ Hsh). rewrite (kk_eq _ _ _ Hnd) in *. lia.
    - rewrite (kk_eq _ _ _ Hnd). lia. }
  assert (Hout : key nd <> target o -> target o ∉ al) by (intros Hne; apply Hg; rewrite (kk_eq _ _ _ Hnd); lia).
  unfold found, stay in Hf. destruct o as [k d|k| | |]; try done; simpl in *;
    destruct (Z.eqb_spec (key nd) k) as [E|E]; injection Hf as <- <-; (split; [done|split; [|done]]); simpl.
  - split; [auto|done].
  - rewrite (kk_eq _ _ _ Hnd). split_and!; (done || lia).
  - rewrite (kk_eq _ _ _ Hnd). auto 10.
  - split; [auto|done].
Qed.

Lemma ok_advance pred curr nd succ :
  pc_ok h tl V ev al o (FNext pred curr) -> h !! curr = Some nd -> key nd < target o ->
  fst (next nd) = Some succ -> pc_ok h tl V ev al o (FNext curr succ).
Proof.
  intros (Hu & Hp & Hc & Hlt & Hg) Hnd Hk Hs. pose proof (update_target Hu) as Ht.
  destruct (view_read _ _ _ _ Hsh _ _ Hv curr nd) as (q & Hq & HqV & Hlt' & Hg'); try done.
  { intros ->. pose proof (kk_tail _ _ _ _ Hsh). rewrite (kk_eq _ _ _ Hnd) in *. lia. }
  rewrite Hs in Hq. injection Hq as <-. simpl. rewrite (kk_eq _ _ _ Hnd). auto.
Qed.

Lemma ok_snip pred curr nd succ :
  pc_ok h tl V ev al o (FNext pred curr) -> h !! curr = Some nd -> snd (next nd) = true ->
  fst (next nd) = Some succ -> pc_ok h tl V ev al o (FSnip pred curr succ).
Proof.
  intros (Hu & Hp & Hc & Hlt & Hg) Hnd Hm Hs.
  destruct (marked_inner _ _ _ _ Hsh _ _ Hnd Hm) as [Ht _].
  destruct (view_read _ _ _ _ Hsh _ _ Hv curr nd) as (q & Hq & HqV & _ & _); try done.
  rewrite Hs in Hq. injection Hq as <-. simpl. split_and!; try done. exists nd. split; [done|].
  destruct (next nd) as [a b]. simpl in *. congruence.
Qed.

Lemma ok_mark_test pred curr succ nd :
  pc_ok h tl V ev al o (RMark pred curr succ) -> h !! curr = Some nd ->
  pc_ok h tl V ev al o (mark_test pred curr succ (next nd)).
Proof.
  intros (Hr & Hp & Hc & Hk & Hin) Hnd. assert (Hu : is_update o = true) by by destruct o.
  unfold mark_test. case_decide as Hs; [|done]. destruct (snd (next nd)) eqn:Hm; [|simpl; auto].
  destruct (marked_inner _ _ _ _ Hsh _ _ Hnd Hm) as [Ht _].
  destruct (view_read _ _ _ _ Hsh _ _ Hv curr nd) as (q & Hq & _); try done.
  simpl. split_and!; try done.
  - rewrite <- Hk, (kk_eq _ _ _ Hnd). by eapply view_marked.
  - exists q. split; [congruence|]. exists nd. split; [done|]. destruct (next nd). simpl in *. congruence.
Qed.

Lemma ok_contains_ref prev curr nd :
  pc_ok h tl V ev al o (CRef prev curr) -> h !! curr = Some nd ->
  pc_ok h tl V ev al o (CMark prev curr (fst (next nd))).
Proof.
  intros (Ho & Hp & Hc & Hlt & Hg) Hnd. simpl. split_and!; try done.
  destruct (decide (curr = tl)) as [->|Ht].
  - destruct (sh_tail _ _ _ _ Hsh) as [d Hd]. rewrite Hd in Hnd. by injection Hnd as <-.
  - destruct (view_read _ _ _ _ Hsh _ _ Hv curr nd) as (q & -> & ? & _ & ?); done.
Qed.

Lemma ok_contains_end prev curr succ nd :
  pc_ok h tl V ev al o (CMark prev curr succ) -> h !! curr = Some nd -> target o <= key nd ->
  pc_ok h tl V ev al o (Done (RBool ((key nd =? target o) && negb (snd (next nd))))).
Proof.
  intros ([k ->] & Hp & Hc & Hlt & Hg & _) Hnd Hle. simpl in *.
  destruct (Z.eqb_spec (key nd) k) as [E|E]; simpl.
  - destruct (snd (next nd)) eqn:Hm; simpl.
    + rewrite <- E. by eapply view_marked.
    + apply Hev. rewrite <- E. eapply (view_inner h hd tl ch Hsh V al Hv curr nd); try done.
      * intros ->. pose proof (kk_tail _ _ _ _ Hsh). rewrite (kk_eq _ _ _ Hnd) in *. lia.
      * rewrite (kk_eq _ _ _ Hnd). lia.
  - apply Hg. rewrite (kk_eq _ _ _ Hnd). lia.
Qed.

Lemma ok_contains_next prev curr succ nd :
  pc_ok h tl V ev al o (CMark prev curr succ) -> h !! curr = Some nd -> key nd < target o ->
  exists q, succ = Some q /\ pc_ok h tl V ev al o (CRef curr q).
Proof.
  intros ([k ->] & Hp & Hc & Hlt & Hg & Hs) Hnd Hk. simpl in *. destruct succ as [q|].
  - exists q. split; [done|]. destruct Hs. rewrite (kk_eq _ _ _ Hnd). eauto 10.
  - subst curr. pose proof (kk_tail _ _ _ _ Hsh). rewrite (kk_eq _ _ _ Hnd) in *. lia.
Qed.

Lemma ok_get curr nd m :
  pc_ok h tl V ev al o (GNext curr m) -> h !! curr = Some nd -> key nd < target o ->
  exists q, fst (next nd) = Some q /\ pc_ok h tl V ev al o (GNext q (snd (next nd))).
Proof.
  intros ([k ->] & Hc & _) Hnd Hk. simpl in *. destruct (view_read _ _ _ _ Hsh _ _ Hv curr nd) as (q & Hq & HqV & _ & Hg); try done.
  - intros ->. pose proof (kk_tail _ _ _ _ Hsh). rewrite (kk_eq _ _ _ Hnd) in *. lia.
  - exists q. split; [done|]. split; [by exists k|]. split; [done|]. exists curr. rewrite (kk_eq _ _ _ Hnd). split_and!; try done.
    intros Hm. exists q, nd. split; [done|]. destruct (next nd). simpl in *. congruence.
Qed.

Lemma ok_each_head nd curr :
  o = ForEach -> h !! hd = Some nd -> fst (next nd) = Some curr ->
  pc_ok h tl V ev al o (if decide (curr = tl) then Done (RAll []) else EMark curr []).
Proof.
  intros -> Hnd Hc. destruct (from_head _ _ Hnd Hc) as (HcV & Hk0 & Hk & Hg).
  assert (Ha : acc_ok h V ev []) by (split; [constructor|by intros p ?%not_elem_of_nil]).
  assert (Hn : forall k, k ∈ al -> k < kk h curr -> exists p, p ∈ ([] : list ptr) /\ kk h p = k).
  { intros k Hin Hlt. exfalso. pose proof (keys_bounds _ _ _ _ Hsh k (vw_always _ _ _ _ _ _ Hv k Hin)).
    apply (Hg k); [lia|done]. }
  case_decide as Ht; simpl.
  - split; [done|]. intros k Hin. apply Hn; [done|]. subst. rewrite (kk_tail _ _ _ _ Hsh).
    by apply (keys_bounds _ _ _ _ Hsh k (vw_always _ _ _ _ _ _ Hv k Hin)).
  - unfold walked. split_and!; try done. by intros p ?%not_elem_of_nil.
Qed.

Lemma ok_each_mark curr acc nd :
  pc_ok h tl V ev al o (EMark curr acc) -> h !! curr = Some nd ->
  pc_ok h tl V ev al o (ERef curr (snd (next nd)) acc).
Proof.
  intros [-> Hw] Hnd. simpl. split; [done|]. split; [done|]. destruct Hw as (Hc & Ht & Hk & _).
  rewrite (kk_eq _ _ _ Hnd). destruct (snd (next nd)) eqn:Hm.
  - by eapply view_marked.
  - apply Hev. by eapply view_inner.
Qed.

Lemma sorted_snoc acc p :
  StronglySorted (fun p q => kk h p < kk h q) acc -> (forall q, q ∈ acc -> kk h q < kk h p) ->
  StronglySorted (fun p q => kk h p < kk h q) (acc ++ [p]).
Proof.
  intros Hs Hl. induction Hs as [|a l Hs IH Hall]; simpl; [repeat constructor|].
  constructor; [apply IH; intros q Hq; apply Hl; by right|].
  apply Forall_app. split; [done|]. apply Forall_singleton, Hl. by left.
Qed.

Lemma ok_each_ref curr m acc nd :
  pc_ok h tl V ev al o (ERef curr m acc) -> h !! curr = Some nd ->
  exists succ, fst (next nd) = Some succ /\
    let acc' := if m then acc else acc ++ [curr] in
    pc_ok h tl V ev al o (if decide (succ = tl) then Done (RAll acc') else EMark succ acc').
Proof.
  intros (-> & (Hc & Ht & Hk & [Hs Ha] & Hl & Hal) & Hm) Hnd.
  destruct (view_read _ _ _ _ Hsh _ _ Hv curr nd) as (q & Hq & HqV & Hlt & Hg); try done.
  exists q. split; [done|]. intros acc'.
  assert (Ha' : acc_ok h V ev acc').
  { destruct m; [by split|]. split; [by apply sorted_snoc|].
    intros p [Hp|Hp%list_elem_of_singleton]%elem_of_app; [by apply Ha|by subst]. }
  assert (Hl' : forall p, p ∈ acc' -> kk h p < kk h q).
  { unfold acc'. intros p Hp. destruct m; [specialize (Hl p Hp); lia|].
    apply elem_of_app in Hp as [Hp|Hp%list_elem_of_singleton]; [specialize (Hl p Hp); lia|by subst]. }
  assert (Hal' : forall k, k ∈ al -> k < kk h q -> exists p, p ∈ acc' /\ kk h p = k).
  { intros k Hin Hkq. destruct (Z.lt_trichotomy k (kk h curr)) as [Hlo|[->|Hhi]].
    - destruct (Hal k Hin Hlo) as (p & Hp & E). exists p. split; [|done]. unfold acc'.
      destruct m; [done|]. apply elem_of_app. by left.
    - unfold acc'. destruct m; [done|]. exists curr. split; [|done]. apply elem_of_app. right. by left.
    - exfalso. by apply (Hg k). }
  case_decide as Hqt; simpl.
  - split; [done|]. intros k Hin. apply Hal'; [done|]. subst q. rewrite (kk_tail _ _ _ _ Hsh).
    by apply (keys_bounds _ _ _ _ Hsh k (vw_always _ _ _ _ _ _ Hv k Hin)).
  - unfold walked. split_and!; try done. lia.
Qed.
End Reads.

(** ** One step *)

(** What a step does to the list, and what every other call can rely on. *)
Record effect (h : gmap ptr node) (hd tl : ptr) (ch : list ptr) (V : gset ptr) (o : op) (c : pc)
    (h' : gmap ptr node) (ch' : list ptr) (c' : pc) : Prop := {
  ef_shape : shape h' hd tl ch';
  ef_ext : ext h h';
  ef_out : forall p, p ∈ ch -> p ∉ ch' -> exists nd q, h' !! p = Some nd /\ next nd = (Some q, true) /\ q ∈ ch' /\
    forall k, key nd <= k < kk h' q -> k ∉ keys h' hd tl ch';
  ef_frame : forall n, is_Some (h !! n) -> n ∉ V -> h' !! n = h !! n;
  ef_chain : forall p, p ∈ ch' -> p ∈ ch \/ exists a b, c = ACas a b p;
  ef_new : forall a b n, c' = ACas a b n -> h !! n = None /\ ch' = ch;
  ef_keys : keys h' hd tl ch' = keys h hd tl ch \/
    (is_add o = true /\ (target o ∉ keys h hd tl ch) /\ keys h' hd tl ch' = {[target o]} ∪ keys h hd tl ch /\
       c' = Done (RBool true)) \/
    (is_remove o = true /\ target o ∈ keys h hd tl ch /\ keys h' hd tl ch' = keys h hd tl ch ∖ {[target o]} /\
       exists a b q, c' = RSnip a b q)
}.

Section Step.
Context (h : gmap ptr node) (hd tl : ptr) (ch : list ptr) (Hsh : shape h hd tl ch).
Context (V : gset ptr) (ev al : gset Z) (Hv : view h hd tl ch V al).
Context (o : op) (Hop : op_ok o).

Lemma effect_quiet c c' : (forall a b n, c' <> ACas a b n) -> effect h hd tl ch V o c h ch c'.
Proof.
  intros Hc. constructor; try done; [apply ext_refl|auto|intros a b n E; by apply Hc in E|by left].
Qed.

Lemma effect_snip pred curr succ np c c' :
  pred ∈ V -> h !! pred = Some np -> next np = (Some curr, false) -> marked_to h curr succ ->
  (forall a b n, c' <> ACas a b n) ->
  let h' := set_next h pred (Some succ, false) in let ch' := without curr ch in
  effect h hd tl ch V o c h' ch' c' /\ pred ∈ ch' /\ succ ∈ ch' /\ gap h' (keys h' hd tl ch') pred succ.
Proof.
  intros Hp Hnp Hnx (nc & Hnc & Hcx) Hc' h' ch'.
  assert (Hpch : pred ∈ ch) by (eapply view_unmarked; [done|done|done|by rewrite Hnx]).
  destruct (snip_succ h hd tl ch Hsh pred curr succ np nc Hpch Hnp Hnx Hnc Hcx) as (Hcc & Hs & Hp').
  assert (Hne : pred <> curr) by (intros ->; congruence).
  assert (Hsh' : shape h' hd tl ch') by (by eapply shape_snip).
  assert (Hext : ext h h') by (eapply ext_set_next; [done|by rewrite Hnx]).
  assert (Hg : gap h' (keys h' hd tl ch') pred succ).
  { intros k Hk. eapply (gap_absent h' hd tl ch' Hsh' pred); [done|by apply set_next_eq|done|done]. }
  assert (Hk1 : kk h pred < kk h curr).
  { destruct (successor _ _ _ _ Hsh pred np Hnp) as (q & Hq & Hlt).
    - intros ->. destruct (sh_tail _ _ _ _ Hsh) as [d Hd]. rewrite Hd in Hnp. injection Hnp as <-. done.
    - rewrite Hnx in Hq. by injection Hq as <-. }
  split; [|done]. constructor; try done.
  - intros p Hin Hout. assert (p = curr) as ->.
    { apply (elem_snip h hd tl ch Hsh pred curr succ np nc Hpch Hnp Hnx Hnc Hcx) in Hin as [?|?]; done. }
    exists nc, succ. unfold h'. rewrite set_next_ne by done. split_and!; try done.
    intros k Hk. apply Hg. unfold h' in *. rewrite kk_set_next in *. rewrite kk_set_next.
    rewrite (kk_eq _ _ _ Hnc) in Hk1. lia.
  - intros n _ Hn. unfold h'. rewrite set_next_ne; [done|]. by intros ->.
  - intros p Hin. left. apply (elem_snip h hd tl ch Hsh pred curr succ np nc Hpch Hnp Hnx Hnc Hcx). by right.
  - intros a b n E. by apply Hc' in E.
  - left. by eapply keys_snip.
Qed.

Lemma effect_link pred curr new np :
  is_add o = true -> pred ∈ V -> curr ∈ V -> kk h pred < target o < kk h curr ->
  h !! pred = Some np -> next np = (Some curr, false) ->
  (exists nn, h !! new = Some nn /\ next nn = (Some curr, false) /\ key nn = target o) -> new ∉ ch ->
  effect h hd tl ch V o (ACas pred curr new) (set_next h pred (Some new, false)) (insert_after pred new ch) (Done (RBool true)) /\
  (target o ∉ keys h hd tl ch) /\
  target o ∈ keys (set_next h pred (Some new, false)) hd tl (insert_after pred new ch).
Proof.
  intros Ha Hp Hc Hk Hnp Hnx (nn & Hnn & Hnnx & Hkn) Hout.
  assert (Hpch : pred ∈ ch) by (eapply view_unmarked; [done|done|done|by rewrite Hnx]).
  rewrite <- Hkn in Hk.
  assert (Hno : target o ∉ keys h hd tl ch).
  { apply (gap_absent h hd tl ch Hsh pred np curr (target o) Hpch Hnp); [by rewrite Hnx|by rewrite <- Hkn]. }
  assert (Hkeys := keys_link h hd tl ch Hsh pred curr new np nn Hpch Hnp Hnx Hnn Hnnx Hout (proj1 Hk)).
  split; [|split; [done|rewrite Hkeys, Hkn; set_solver]]. constructor; try done.
  - apply (shape_link h hd tl ch Hsh pred curr new np nn); (done || lia).
  - eapply ext_set_next; [done|by rewrite Hnx].
  - intros p Hin Hn. destruct Hn. rewrite (elem_link h hd tl ch Hsh pred curr new np Hpch Hnp Hnx Hout). by right.
  - intros n _ Hn. rewrite set_next_ne; [done|]. by intros ->.
  - intros p Hin. apply (elem_link h hd tl ch Hsh pred curr new np Hpch Hnp Hnx Hout) in Hin as [->|Hin]; eauto.
  - right. left. rewrite Hkeys, Hkn. done.
Qed.

Lemma effect_mark pred curr succ nc c :
  is_remove o = true -> curr ∈ V -> kk h curr = target o -> h !! curr = Some nc -> next nc = (succ, false) ->
  let h' := set_next h curr (succ, true) in
  effect h hd tl ch V o c h' ch (RSnip pred curr succ) /\ (target o ∉ keys h' hd tl ch) /\
  exists q, succ = Some q /\ marked_to h' curr q.
Proof.
  intros Hr Hc Hk Hnc Hnx h'.
  assert (Hcc : curr ∈ ch) by (eapply view_unmarked; [done|done|done|by rewrite Hnx]).
  assert (Hb : 0 < target o < UINT64_MAX) by (by destruct o).
  assert (Hhd : curr <> hd) by (intros ->; rewrite (kk_head _ _ _ _ Hsh) in Hk; lia).
  assert (Htl : curr <> tl) by (intros ->; rewrite (kk_tail _ _ _ _ Hsh) in Hk; lia).
  destruct (successor _ _ _ _ Hsh curr nc Hnc Htl) as (q & Hq & _). rewrite Hnx in Hq. simpl in Hq. subst succ.
  destruct (keys_mark h hd tl ch Hsh curr q nc Hnc Hnx Hhd Htl Hcc) as [Hkeys Hin].
  rewrite (kk_eq _ _ _ Hnc) in Hk. rewrite Hk in Hkeys, Hin.
  assert (Hext : ext h h') by (eapply ext_set_next; [done|by rewrite Hnx]).
  split; [|split; [unfold h'; rewrite Hkeys; set_solver|]].
  - constructor; try done.
    + by eapply shape_mark.
    + intros n _ Hn. unfold h'. rewrite set_next_ne; [done|]. by intros ->.
    + auto.
    + right. right. split_and!; try done. eauto.
  - exists q. split; [done|]. eexists. split; [by apply set_next_eq|done].
Qed.

Lemma effect_alloc pred curr x item c :
  is_add o = true -> h !! x = None -> curr ∈ V -> target o < kk h curr ->
  effect h hd tl ch V o c (<[x := mk_node (target o) (Some curr, false) item]> h) ch (ACas pred curr x).
Proof.
  intros Ha Hx Hc Hk. assert (Hcs : is_Some (h !! curr)) by (by eapply vw_heap).
  constructor.
  - by apply shape_alloc.
  - by apply ext_alloc.
  - done.
  - intros n [nd Hn] _. rewrite lookup_insert_ne; [done|]. congruence.
  - auto.
  - by intros a b n [= <- <- <-].
  - left. by eapply keys_alloc.
Qed.
End Step.

Lemma cas_cases h p ex nw r :
  cas h p ex nw = Some r ->
  exists nd, h !! p = Some nd /\
    ((next nd = ex /\ r = (set_next h p nw, true)) \/ (next nd <> ex /\ r = (h, false))).
Proof.
  unfold cas. destruct (h !! p) as [nd|]; simpl; [|done]. intros [= <-]. exists nd. split; [done|].
  case_decide; auto.
Qed.

(** ** The thread that steps *)

Lemma add_inv o : is_add o = true -> exists item, o = Add (target o) item.
Proof. destruct o; try done. intros _. by eexists. Qed.
Lemma remove_inv o : is_remove o = true -> o = Remove (target o).
Proof. by destruct o. Qed.

Section Thread.
Context (s : state) (V : gset ptr) (ev al : gset Z) (o : op).
Let h := heap s.
Let hd := head s.
Let tl := tail s.
Let ch := chain s.
Context (Hsh : shape h hd tl ch) (Hv : view h hd tl ch V al) (Hop : op_ok o).

(** The step's outcome, with the ghost sets it leaves. *)
Definition outcome_ok (c : pc) (l : local) : Prop :=
  let '(h', ch', _, c') := l in
  effect h hd tl ch V o c h' ch' c' /\
  pc_ok h' tl (V ∪ list_to_set ch') (ev ∪ keys h' hd tl ch') (al ∩ keys h' hd tl ch') o c'.

Let V1 : gset ptr := V ∪ list_to_set ch.
Let ev1 : gset Z := ev ∪ keys h hd tl ch.
Let al1 : gset Z := al ∩ keys h hd tl ch.

Lemma view_now : view h hd tl ch V1 al1.
Proof. apply (view_step h h hd tl ch ch V al); [apply ext_refl|done..]. Qed.
Lemma ever_now : keys h hd tl ch ⊆ ev1.
Proof. unfold ev1. set_solver. Qed.
Lemma pc_now c : pc_ok h tl V ev al o c -> pc_ok h tl V1 ev1 al1 o c.
Proof.
  intros H. apply (pc_ok_mono h h tl V V1 ev ev1 al al1); try done.
  - apply ext_refl.
  - by eapply vw_heap.
  - unfold V1. set_solver.
  - unfold ev1. set_solver.
  - unfold al1. set_solver.
Qed.

(** A step that changes nothing shared. *)
Lemma quiet_ok c c1 l : (forall a b n, c1 <> ACas a b n) -> pc_ok h tl V1 ev1 al1 o c1 ->
  stay s c1 = Some l -> outcome_ok c l.
Proof. intros Hn Hok [= <-]. split; [by apply effect_quiet|done]. Qed.

(** What the thread knew still holds after its own change. *)
Lemma after_ok c h1 ch1 c2 c3 : effect h hd tl ch V o c h1 ch1 c3 -> pc_ok h tl V ev al o c2 ->
  (forall a b n, c2 <> ACas a b n) ->
  pc_ok h1 tl (V ∪ list_to_set ch1) (ev ∪ keys h1 hd tl ch1) (al ∩ keys h1 hd tl ch1) o c2.
Proof.
  intros He H2 Hn. apply (pc_ok_mono h h1 tl V _ ev _ al _); [by eapply ef_ext|by eapply vw_heap|set_solver..| |done].
  intros a b n E. by apply Hn in E.
Qed.

Lemma find_step_ok c x sp l :
  match c with FHead | FNext _ _ => True | _ => False end ->
  pc_ok h tl V ev al o c -> thread_step s o c x sp = Some l -> outcome_ok c l.
Proof.
  intros Hc Hpc%pc_now Hst. destruct c as [| |pred curr| | | | | | | | | | | | | | | |]; try done; cbn [thread_step] in Hst.
  - apply bind_Some in Hst as (nd & Hnd & Hst). apply bind_Some in Hst as (curr & Hcu & Hst).
    eapply quiet_ok; [| |exact Hst]; [done|].
    by apply (ok_head h hd tl ch Hsh V1 ev1 al1 view_now o Hop nd).
  - apply bind_Some in Hst as (nd & Hnd & Hst). destruct (snd (next nd)) eqn:Hm.
    + apply bind_Some in Hst as (succ & Hs & Hst).
      eapply quiet_ok; [| |exact Hst]; [done|].
      by apply (ok_snip h hd tl ch Hsh V1 ev1 al1 view_now o pred curr nd).
    + destruct (Z.leb_spec (target o) (key nd)) as [Hle|Hlt].
      * destruct l as [r c']. destruct (ok_found h hd tl ch Hsh V1 ev1 al1 view_now ever_now o Hop pred curr nd s c' r)
          as (-> & Hok & Hn); try done. eapply quiet_ok; [exact Hn|exact Hok|done].
      * apply bind_Some in Hst as (succ & Hs & Hst).
        eapply quiet_ok; [| |exact Hst]; [done|].
        by apply (ok_advance h hd tl ch Hsh V1 ev1 al1 view_now o Hop pred curr nd).
Qed.

Lemma snip_step_ok pred curr succ x sp l :
  pc_ok h tl V ev al o (FSnip pred curr succ) -> thread_step s o (FSnip pred curr succ) x sp = Some l ->
  outcome_ok (FSnip pred curr succ) l.
Proof.
  intros Hpc Hst. cbn [thread_step] in Hst. destruct (cas _ _ _ _) as [[h' ok]|] eqn:E; [|done].
  apply cas_cases in E as (np & Hnp & [[Hnx [= -> ->]]|[_ [= -> ->]]]).
  - injection Hst as <-. pose proof Hpc as (Hu & Hp & Hc & Hs & Hk & Hmk).
    destruct (effect_snip h hd tl ch Hsh V al Hv o pred curr succ np (FSnip pred curr succ) (FNext pred succ))
      as (He & Hp' & Hs' & Hg); try done.
    split; [exact He|]. simpl. split_and!; try set_solver.
    + unfold h. by rewrite kk_set_next.
    + intros k Hk' [_ Hin]%elem_of_intersection. by apply (Hg k).
  - eapply quiet_ok; [| |exact Hst]; [done|]. by destruct Hpc.
Qed.

Lemma add_step_ok c x sp l :
  match c with AAlloc _ _ | ACas _ _ _ => True | _ => False end ->
  (forall a b n, c = ACas a b n -> (n ∉ ch) /\ (n ∉ V)) ->
  pc_ok h tl V ev al o c -> thread_step s o c x sp = Some l -> outcome_ok c l.
Proof.
  intros Hc Hpriv Hpc Hst. destruct c as [| | | |pred curr| |pred curr new| | | | | | | | | | | |]; try done; cbn [thread_step] in Hst.
  - pose proof Hpc as (Ha & Hp & Hcu & Hk). destruct (add_inv o Ha) as [item Eo].
    rewrite Eo in Hst. cbn [target] in Hst. destruct x as [x|]; [|by eapply quiet_ok; [..|exact Hst]].
    destruct (heap s !! x) eqn:Hx; [done|]. injection Hst as <-.
    assert (He := effect_alloc h hd tl ch Hsh V al Hv o pred curr x item (AAlloc pred curr) Ha Hx Hcu (proj2 Hk)).
    split; [exact He|]. pose proof (after_ok _ _ _ _ _ He Hpc) as Hok. simpl in Hok |- *.
    destruct Hok as (_ & ? & ? & ?); [done|]. do 4 (split; [done|]).
    eexists. split; [apply lookup_insert_eq|done].
  - destruct (cas _ _ _ _) as [[h' ok]|] eqn:E; [|done]. pose proof Hpc as (Ha & Hp & Hcu & Hk & Hnew).
    apply cas_cases in E as (np & Hnp & [[Hnx [= -> ->]]|[_ [= -> ->]]]).
    + injection Hst as <-. destruct (Hpriv _ _ _ eq_refl) as [Hout _].
      destruct (effect_link h hd tl ch Hsh V al Hv o Hop pred curr new np Ha Hp Hcu Hk Hnp Hnx Hnew Hout) as (He & Hno & Hin).
      split; [exact He|]. destruct (add_inv o Ha) as [item Eo]. cbn [pc_ok]. rewrite Eo. cbn [result_ok].
      split; [set_solver|]. intros _ [Hal _]%elem_of_intersection. by apply Hno, (vw_always _ _ _ _ _ _ Hv).
    + eapply quiet_ok; [| |exact Hst]; [done|]. simpl. destruct (add_inv o Ha) as [item Eo]. by rewrite Eo.
Qed.

Lemma remove_step_ok c x sp l :
  match c with RRead _ _ | RMark _ _ _ | RMarkCas _ _ _ | RRetire _ => True | _ => False end ->
  pc_ok h tl V ev al o c -> thread_step s o c x sp = Some l -> outcome_ok c l.
Proof.
  intros Hc Hpc Hst. pose proof (pc_now _ Hpc) as Hpc1.
  assert (Hmt : forall pred curr succ nd, pc_ok h tl V1 ev1 al1 o (RMark pred curr succ) -> heap s !! curr = Some nd ->
    stay s (mark_test pred curr succ (next nd)) = Some l -> outcome_ok c l).
  { intros pred curr succ nd Hok Hnd Hl. eapply quiet_ok; [| |exact Hl].
    - intros a b n. unfold mark_test. by repeat case_match.
    - by eapply (ok_mark_test h hd tl ch Hsh V1 ev1 al1 view_now o Hop). }
  destruct c as [| | | | | | |pred curr|pred curr succ|pred curr succ| |curr| | | | | | |]; try done; cbn [thread_step] in Hst.
  - apply bind_Some in Hst as (nd & Hnd & Hst). eapply quiet_ok; [| |exact Hst]; [done|exact Hpc1].
  - apply bind_Some in Hst as (nd & Hnd & Hst). by eapply Hmt.
  - apply bind_Some in Hst as (nd & Hnd & Hst). case_decide as Hd; [|by eapply Hmt].
    destruct Hd as [Hnx _]. injection Hst as <-. pose proof Hpc as (Hr & Hp & Hcu & Hk & Hin).
    destruct (effect_mark h hd tl ch Hsh V al Hv o Hop pred curr succ nd (RMarkCas pred curr succ) Hr Hcu Hk Hnd Hnx)
      as (He & Hno & Hq).
    split; [exact He|]. simpl. rewrite !elem_of_union, elem_of_intersection. tauto.
  - injection Hst as <-. split; [by apply effect_quiet|]. destruct Hpc1 as (Hr & Hin & Hno).
    cbn [pc_ok]. rewrite (remove_inv o Hr). done.
Qed.

Lemma unlink_step_ok pred curr succ x sp l :
  pc_ok h tl V ev al o (RSnip pred curr succ) -> thread_step s o (RSnip pred curr succ) x sp = Some l ->
  outcome_ok (RSnip pred curr succ) l.
Proof.
  intros Hpc Hst. pose proof Hpc as (Hr & Hp & Hc & Hin & Hno & q & -> & Hmk). cbn [thread_step] in Hst.
  destruct (cas _ _ _ _) as [[h' ok]|] eqn:E; [|done]. injection Hst as <-.
  assert (Hret : pc_ok h tl V ev al o (RRetire curr)) by done.
  apply cas_cases in E as (np & Hnp & [[Hnx [= -> ->]]|[_ [= -> ->]]]).
  - destruct (effect_snip h hd tl ch Hsh V al Hv o pred curr q np (RSnip pred curr (Some q)) (RRetire curr))
      as (He & _); try done.
    split; [exact He|]. by apply (after_ok _ _ _ _ _ He Hret).
  - split; [by apply effect_quiet|]. by apply pc_now in Hret.
Qed.

Lemma traverse_step_ok c x sp l :
  match c with CRef _ _ | CMark _ _ _ | GNext _ _ | EHead | EMark _ _ | ERef _ _ _ => True | _ => False end ->
  pc_ok h tl V ev al o c -> thread_step s o c x sp = Some l -> outcome_ok c l.
Proof.
  intros Hc Hpc%pc_now Hst. pose proof view_now as Hv1. pose proof ever_now as Hev1.
  destruct c as [| | | | | | | | | | | |prev curr|prev curr succ|curr m| |curr acc|curr m acc|]; try done;
    cbn [thread_step] in Hst; apply bind_Some in Hst as (nd & Hnd & Hst).
  - eapply quiet_ok; [|by eapply ok_contains_ref|exact Hst]. done.
  - destruct (Z.leb_spec (target o) (key nd)) as [Hle|Hlt].
    + eapply quiet_ok; [|by eapply ok_contains_end|exact Hst]. done.
    + edestruct (ok_contains_next h hd tl ch Hsh V1 ev1 al1 o Hop) as (q & Hq & Hok); [exact Hpc|exact Hnd|done|].
      rewrite Hq in Hst.
      eapply quiet_ok; [|exact Hok|exact Hst]. done.
  - destruct (Z.ltb_spec (key nd) (target o)) as [Hlt|Hle].
    + edestruct (ok_get h hd tl ch Hsh V1 ev1 al1 Hv1 o Hop) as (q & Hq & Hok); [exact Hpc|exact Hnd|done|].
      rewrite Hq in Hst. eapply quiet_ok; [|exact Hok|exact Hst]. done.
    + eapply quiet_ok; [| |exact Hst]; [done|]. destruct Hpc as ([k Eo] & HcV & prev & HpV & Hpk & Hg & Hm).
      cbn [pc_ok]. rewrite Eo in *. cbn [target result_ok] in *.
      destruct (Z.eqb_spec (key nd) k), m; simpl.
      * destruct (Hm eq_refl) as [q ?]. by exists prev, q.
      * split; [done|]. by rewrite (kk_eq h _ _ Hnd).
      * destruct (Hm eq_refl) as [q ?]. by exists prev, q.
      * intros Hin. destruct (Hg k); [|done]. rewrite (kk_eq h _ _ Hnd). lia.
  - apply bind_Some in Hst as (curr & Hcu & Hst).
    eapply quiet_ok; [| |exact Hst]; [by case_decide|]. by eapply ok_each_head.
  - eapply quiet_ok; [|by eapply ok_each_mark|exact Hst]. done.
  - edestruct (ok_each_ref h hd tl ch Hsh V1 ev1 al1 Hv1 o Hop) as (q & Hq & Hok); [exact Hpc|exact Hnd|].
    rewrite Hq in Hst. eapply quiet_ok; [|exact Hok|exact Hst]. by case_decide.
Qed.

Lemma thread_step_ok c x sp l :
  pc_ok h tl V ev al o c -> (forall a b n, c = ACas a b n -> (n ∉ ch) /\ (n ∉ V)) ->
  thread_step s o c x sp = Some l -> outcome_ok c l.
Proof.
  intros Hpc Hpriv Hst. destruct c; try done;
    first [by eapply find_step_ok|by eapply snip_step_ok|by eapply add_step_ok|by eapply remove_step_ok
          |by eapply unlink_step_ok|by eapply traverse_step_ok].
Qed.
End Thread.

(** ** All threads *)

Definition thread_ok (s : state) (t : thread) : Prop :=
  op_ok (call t) /\ (forall p, p ∈ visited t -> is_Some (heap s !! p)) /\
  pc_ok (heap s) (tail s) (visited t) (ever t) (always t) (call t) (at_pc t) /\
  (active (at_pc t) = true -> view (heap s) (head s) (tail s) (chain s) (visited t) (always t)).

Record inv (s : state) : Prop := {
  inv_shape : shape (heap s) (head s) (tail s) (chain s);
  inv_thread : forall i, thread_ok s (threads s i);
  inv_private : forall i a b n, at_pc (threads s i) = ACas a b n ->
    (n ∉ chain s) /\ (forall j, n ∉ visited (threads s j)) /\
    forall j a' b', at_pc (threads s j) = ACas a' b' n -> j = i
}.

Definition action_ok (a : action) : Prop := match a with Call _ o => op_ok o | Step _ _ _ => True end.

(** A thread that does not step. *)
Lemma thread_ok_frame s s' t :
  ext (heap s) (heap s') -> tail s' = tail s -> head s' = head s ->
  shape (heap s') (head s) (tail s) (chain s') ->
  (forall p, p ∈ chain s -> p ∉ chain s' -> exists nd q, heap s' !! p = Some nd /\ next nd = (Some q, true) /\
     q ∈ chain s' /\ forall k, key nd <= k < kk (heap s') q -> k ∉ keys (heap s') (head s) (tail s) (chain s')) ->
  (forall a b n, at_pc t = ACas a b n -> heap s' !! n = heap s !! n) ->
  thread_ok s t -> thread_ok s' (refresh s' t).
Proof.
  intros He Ht Hh Hsh Hout Hn (H1 & H2 & H3 & H4).
  assert (Hdom : forall p, p ∈ visited t -> is_Some (heap s' !! p)).
  { intros p Hp. destruct (H2 p Hp) as [nd Hnd]. destruct (He p nd Hnd) as (nd' & ? & _). by exists nd'. }
  unfold refresh. destruct (active (at_pc t)) eqn:Ea.
  - assert (Hv : view (heap s') (head s) (tail s) (chain s') (visited t ∪ list_to_set (chain s'))
        (always t ∩ keys (heap s') (head s) (tail s) (chain s'))) by (apply (view_step (heap s) _ _ _ (chain s)); auto).
    unfold thread_ok. simpl. unfold members. rewrite Ht, Hh.
    split; [done|]. split; [by eapply vw_heap|]. split; [|done].
    apply (pc_ok_mono (heap s) (heap s') (tail s) (visited t) _ (ever t) _ (always t) _); [done|exact H2|set_solver..|exact Hn|exact H3].
  - unfold thread_ok. rewrite Ht, Hh, Ea. split; [done|]. split; [done|]. split; [|done].
    apply (pc_ok_mono (heap s) (heap s') (tail s) (visited t) _ (ever t) _ (always t) _); [done|exact H2|set_solver..|exact Hn|exact H3].
Qed.

Lemma visited_refresh s t n :
  n ∉ chain s -> n ∉ visited t -> n ∉ visited (refresh s t).
Proof. intros H1 H2. unfold refresh. destruct (active _); [|done]. simpl. rewrite elem_of_union, elem_of_list_to_set. tauto. Qed.
Lemma at_pc_refresh s t : at_pc (refresh s t) = at_pc t.
Proof. unfold refresh. by destruct (active _). Qed.

Lemma inv_Call s i o : inv s -> op_ok o -> active (at_pc (threads s i)) = false ->
  inv (mk_state (heap s) (head s) (tail s) (chain s) (retired s)
         (upd (threads s) i (mk_thread (start s o) o (list_to_set (chain s)) (members s) (members s)))).
Proof.
  intros [H1 H2 H3] Ho Ha.
  assert (Hv : view (heap s) (head s) (tail s) (chain s) (list_to_set (chain s)) (members s)).
  { constructor.
    - intros p Hp. by apply elem_of_list_to_set.
    - intros p Hp%elem_of_list_to_set. destruct (chain_heap _ _ _ _ H1 p Hp). eauto.
    - intros p Hp%elem_of_list_to_set Hn. done.
    - done. }
  assert (Hst : forall a b n, start s o <> ACas a b n) by (by destruct o).
  constructor; [done| |].
  - intros j. simpl. destruct (upd_cases (threads s) i j (mk_thread (start s o) o (list_to_set (chain s)) (members s) (members s)))
      as [[-> ->]|[_ ->]]; [|apply H2].
    unfold thread_ok. simpl. split; [done|]. split; [by eapply vw_heap|]. split; [|done].
    assert (Hh : head s ∈ (list_to_set (chain s) : gset ptr)) by (by eapply head_in_view).
    pose proof (kk_head _ _ _ _ H1) as Hk.
    destruct o; simpl in *; try done; [split_and!; eauto; try lia; intros k' Hk'; lia|].
    split_and!; [eauto|done|]. exists (head s). split_and!; [done|lia|intros k' Hk'; lia|done].
  - intros j a b n. simpl.
    destruct (upd_cases (threads s) i j (mk_thread (start s o) o (list_to_set (chain s)) (members s) (members s)))
      as [[-> ->]|[_ ->]]; simpl; intros Hj; [by apply Hst in Hj|].
    destruct (H3 j a b n Hj) as (G1 & G2 & G3). split; [done|]. split.
    + intros j'. destruct (upd_cases (threads s) i j' (mk_thread (start s o) o (list_to_set (chain s)) (members s) (members s)))
        as [[-> ->]|[_ ->]]; [|done]. simpl. by rewrite elem_of_list_to_set.
    + intros j' a' b'. destruct (upd_cases (threads s) i j' (mk_thread (start s o) o (list_to_set (chain s)) (members s) (members s)))
        as [[-> ->]|[_ ->]]; simpl; [intros E; by apply Hst in E|]. by apply G3.
Qed.

(** A node that a thread is about to link: an unlinked one that it alone knows. *)
Definition private (s : state) (i : nat) (n : ptr) : Prop :=
  (n ∉ chain s) /\ (forall j, n ∉ visited (threads s j)) /\ forall j a b, at_pc (threads s j) = ACas a b n -> j = i.

(** The threads after a step of thread [i]. *)
Lemma stepped_thread s s' i t' j :
  let th' := upd (fun j => refresh s' (threads s j)) i t' in
  (j = i /\ th' j = t') \/ (j <> i /\ th' j = refresh s' (threads s j)).
Proof.
  intros th'. destruct (upd_cases (fun j => refresh s' (threads s j)) i j t') as [[-> E]|[Hne E]]; [left|right];
    split; (done || congruence).
Qed.

Section Step.
Context (s : state) (i : nat) (HI : inv s).
Let t := threads s i.

Lemma private_live j a b n : at_pc (threads s j) = ACas a b n -> is_Some (heap s !! n) /\ private s j n.
Proof.
  intros Hj. destruct HI as [_ H2 H3]. split; [|exact (H3 j a b n Hj)].
  destruct (H2 j) as (_ & _ & Hpj & _). rewrite Hj in Hpj. destruct Hpj as (_ & _ & _ & _ & nd & Hnd & _). by exists nd.
Qed.

Context (h' : gmap ptr node) (ch' : list ptr) (c' : pc)
  (E : effect (heap s) (head s) (tail s) (chain s) (visited t) (call t) (at_pc t) h' ch' c').

(** The other threads' private nodes stay as they are. *)
Lemma private_frame j a b n : j <> i -> at_pc (threads s j) = ACas a b n -> (n ∉ ch') /\ h' !! n = heap s !! n.
Proof.
  intros Hji Hj. destruct (private_live j a b n Hj) as [Hlive (G1 & G2 & G3)]. destruct E as [_ _ _ E4 E5 _ _]. split.
  - intros Hin. destruct (E5 n Hin) as [?|(a' & b' & Ei)]; [done|]. by rewrite (G3 i a' b' Ei) in Hji.
  - apply E4; [done|apply G2].
Qed.

(** A node that the step allocates is known to nobody. *)
Lemma private_new a b n : c' = ACas a b n -> (n ∉ ch') /\ (forall j, n ∉ visited (threads s j)) /\
  forall j a' b', at_pc (threads s j) <> ACas a' b' n.
Proof.
  intros Ec. destruct HI as [H1 H2 _]. destruct E as [_ _ _ _ _ E6 _]. destruct (E6 a b n Ec) as [Hn ->]. split_and!.
  - intros Hin. destruct (chain_heap _ _ _ _ H1 n Hin) as [nd Hnd]. congruence.
  - intros j Hj. destruct (H2 j) as (_ & Hd & _). destruct (Hd n Hj) as [nd Hnd]. congruence.
  - intros j a' b' Hj. destruct (private_live j a' b' n Hj) as [[nd Hnd] _]. congruence.
Qed.

Lemma private_step s' t' : chain s' = ch' -> threads s' = upd (fun j => refresh s' (threads s j)) i t' ->
  at_pc t' = c' -> visited t' = visited (refresh s' t) ->
  forall j a b n, at_pc (threads s' j) = ACas a b n -> private s' j n.
Proof.
  intros Hch Hth Hc Hv.
  assert (Hvis : forall n, (n ∉ ch') -> (forall j, n ∉ visited (threads s j)) -> forall j, n ∉ visited (threads s' j)).
  { intros n Hn Hall j. rewrite Hth. destruct (stepped_thread s s' i t' j) as [[-> ->]|[_ ->]]; rewrite ?Hv;
      (apply visited_refresh; [by rewrite Hch|apply Hall]). }
  intros j a b n. unfold private. rewrite Hch, Hth. destruct (stepped_thread s s' i t' j) as [[-> ->]|[Hji ->]]; intros Hj.
  - destruct (private_new a b n ltac:(congruence)) as (G1 & G2 & G3). rewrite <- Hth. split_and!; [done|by apply Hvis|].
    intros j' a' b'. rewrite Hth. destruct (stepped_thread s s' i t' j') as [[-> _]|[_ ->]]; [done|].
    rewrite at_pc_refresh. intros Hj'. by apply G3 in Hj'.
  - rewrite at_pc_refresh in Hj. destruct (private_frame j a b n Hji Hj) as [G1 _].
    destruct (private_live j a b n Hj) as [_ (_ & G2 & G3)]. rewrite <- Hth. split_and!; [done|by apply Hvis|].
    intros j' a' b'. rewrite Hth. destruct (stepped_thread s s' i t' j') as [[-> ->]|[_ ->]].
    + rewrite Hc. intros Ec. exfalso. by eapply private_new.
    + rewrite at_pc_refresh. by apply G3.
Qed.
End Step.

Lemma inv_Step s i x sp l : inv s ->
  thread_step s (call (threads s i)) (at_pc (threads s i)) x sp = Some l ->
  let s' := with_local s l in
  inv (mk_state (heap s') (head s') (tail s') (chain s') (retired s')
         (upd (fun j => refresh s' (threads s j)) i (set_pc (refresh s' (threads s i)) l.2))).
Proof.
  intros HI Hst s'. pose proof HI as [H1 H2 H3]. set (t := threads s i) in *.
  destruct (H2 i) as (Hop & Hdom & Hpc & Hvw). fold t in Hop, Hdom, Hpc, Hvw.
  assert (Ha : active (at_pc t) = true) by (by destruct (at_pc t)). specialize (Hvw Ha).
  assert (Hpriv : forall a b n, at_pc t = ACas a b n -> (n ∉ chain s) /\ (n ∉ visited t)).
  { intros a b n E. destruct (H3 i a b n E) as (? & Hn & _). split; [done|apply Hn]. }
  pose proof (thread_step_ok s (visited t) (ever t) (always t) (call t) H1 Hvw Hop (at_pc t) x sp l Hpc Hpriv Hst) as Hok.
  destruct l as [[[h' ch'] re'] c']. destruct Hok as [E Hpc']. pose proof E as [E1 E2 E3 E4 _ _ _].
  set (th' := upd _ _ _). constructor; [exact E1| |].
  - intros j. cbn [threads]. pose proof (stepped_thread s s' i (set_pc (refresh s' t) c') j) as Hth. change (upd _ _ _) with th' in Hth.
    cbn zeta in Hth. destruct Hth as [[-> ->]|[Hji ->]].
    + assert (Hr : refresh s' t = mk_thread (at_pc t) (call t) (visited t ∪ list_to_set ch') (ever t ∪ members s')
        (always t ∩ members s')) by (unfold refresh; by rewrite Ha).
      rewrite Hr. unfold thread_ok, set_pc. simpl.
      assert (Hv' : view h' (head s) (tail s) ch' (visited t ∪ list_to_set ch') (always t ∩ keys h' (head s) (tail s) ch'))
        by (by apply (view_step (heap s) _ _ _ (chain s))).
      split; [done|]. split; [by eapply vw_heap|]. split; [exact Hpc'|]. intros _. exact Hv'.
    + apply (thread_ok_frame s s'); try done. intros a b n Hj. by destruct (private_frame s i HI h' ch' c' E j a b n Hji Hj).
  - intros j a b n Hj.
    exact (private_step s i HI h' ch' c' E (mk_state h' (head s) (tail s) ch' re' th') (set_pc (refresh s' t) c')
      eq_refl eq_refl eq_refl eq_refl j a b n Hj).
Qed.

Lemma list_inv_exec a s s' : inv s -> action_ok a -> exec a s = Some s' -> inv s'.
Proof.
  intros H Ha. destruct a as [i o|i x sp]; simpl.
  - destruct (active _) eqn:E; [done|]. intros [= <-]. by apply inv_Call.
  - intros (l & Hl & [= <-])%bind_Some. by eapply inv_Step.
Qed.

Lemma list_inv_run l s s' : inv s -> Forall action_ok l -> run exec l s = Some s' -> inv s'.
Proof.
  revert s. induction l as [|a l IH]; intros s H Hl; simpl; [by intros [= <-]|].
  inversion Hl as [|? ? Ha Hl']; subst. intros (s1 & H1 & H2)%bind_Some.
  eapply IH; [by eapply list_inv_exec|done|done].
Qed.

Lemma inv_create h t : h <> t -> inv (create h t).
Proof.
  intros Hne. constructor; simpl.
  - constructor.
    + intros p nd Hp Hpt. apply lookup_insert_Some in Hp as [[<- <-]|[Hph Hp]].
      * exists t, (mk_node UINT64_MAX (None, false) None). rewrite lookup_insert_ne, lookup_insert_eq by done. done.
      * apply lookup_insert_Some in Hp as [[<- _]|[_ Hp]]; [done|]. by rewrite lookup_empty in Hp.
    + exists None. by rewrite lookup_insert_ne, lookup_insert_eq by done.
    + eexists. rewrite lookup_insert_eq. done.
    + by eexists.
    + split; [|done]. eexists. rewrite lookup_insert_eq. done.
  - intros i. unfold thread_ok. simpl. split; [done|]. split; [set_solver|]. done.
  - done.
Qed.

(** No step of an active thread meets a null or unknown pointer. *)
Lemma thread_progress s i : inv s -> active (at_pc (threads s i)) = true -> at_pc (threads s i) <> Wild ->
  exists x l, thread_step s (call (threads s i)) (at_pc (threads s i)) (Some x) false = Some l.
Proof.
  intros [H1 H2 _] Ha Hw. destruct (H2 i) as (Hop & Hdom & Hpc & Hvw). specialize (Hvw Ha).
  set (o := call (threads s i)) in *. destruct (sh_head _ _ _ _ H1) as (nh & Hh & _).
  destruct (successor _ _ _ _ H1 _ _ Hh (head_not_tail _ _ _ _ H1)) as (hn & Hhn & _).
  assert (Hcas : forall p ex nw, p ∈ visited (threads s i) -> exists h' ok, cas (heap s) p ex nw = Some (h', ok)).
  { intros p ex nw Hp. destruct (Hdom p Hp) as [nd Hnd]. unfold cas. rewrite Hnd. simpl. case_decide; eauto. }
  assert (Hsucc : forall p nd, heap s !! p = Some nd -> p <> tail s -> exists q, fst (next nd) = Some q).
  { intros p nd Hp Hne. destruct (successor _ _ _ _ H1 p nd Hp Hne) as (q & ? & _). eauto. }
  assert (Hbelow : forall p nd, heap s !! p = Some nd -> key nd < UINT64_MAX -> p <> tail s).
  { intros p nd Hp Hlt ->. destruct (sh_tail _ _ _ _ H1) as [d Hd]. rewrite Hd in Hp. injection Hp as <-. simpl in Hlt. lia. }
  destruct (at_pc (threads s i)) as [| |pred curr|pred curr succ|pred curr| |pred curr new|pred curr|pred curr succ|pred curr succ
    |pred curr succ|curr|prev curr|prev curr succ|curr m| |curr acc|curr m acc|r]; try done; cbn [thread_step].
  - exists 1%positive. rewrite Hh. simpl. rewrite Hhn. eauto.
  - destruct Hpc as (Hu & Hp & Hc & Hk & _). destruct (Hdom _ Hc) as [nd Hnd]. exists 1%positive. rewrite Hnd. simpl.
    pose proof (update_target o Hop Hu). destruct (snd (next nd)) eqn:Hm.
    { destruct (Hsucc _ _ Hnd) as [q ->]; [by destruct (marked_inner _ _ _ _ H1 _ _ Hnd Hm)|]. eauto. }
    destruct (Z.leb_spec (target o) (key nd)).
    + unfold found. destruct o; try done; eauto.
    + destruct (Hsucc _ _ Hnd) as [q ->]; [eapply Hbelow; [done|lia]|]. eauto.
  - destruct Hpc as (_ & Hp & _). destruct (Hcas pred (Some curr, false) (Some succ, false) Hp) as (h' & ok & ->).
    exists 1%positive. destruct ok; eauto.
  - destruct Hpc as (Hadd & _). destruct (add_inv o Hadd) as [item ->]. exists (fresh (dom (heap s))).
    assert (heap s !! fresh (dom (heap s)) = None) as -> by (apply not_elem_of_dom, is_fresh). eauto.
  - destruct Hpc as (_ & Hp & _). destruct (Hcas pred (Some curr, false) (Some new, false) Hp) as (h' & ok & ->).
    exists 1%positive. destruct ok; eauto.
  - destruct Hpc as (_ & _ & Hc & _). destruct (Hdom _ Hc) as [nd ->]. exists 1%positive. simpl. eauto.
  - destruct Hpc as (_ & _ & Hc & _). destruct (Hdom _ Hc) as [nd ->]. exists 1%positive. simpl. eauto.
  - destruct Hpc as (_ & _ & Hc & _). destruct (Hdom _ Hc) as [nd ->]. exists 1%positive. simpl. case_decide; eauto.
  - destruct Hpc as (_ & Hp & _). destruct (Hcas pred (Some curr, false) (succ, false) Hp) as (h' & ok & ->).
    exists 1%positive. eauto.
  - exists 1%positive. eauto.
  - destruct Hpc as (_ & _ & Hc & _). destruct (Hdom _ Hc) as [nd ->]. exists 1%positive. simpl. eauto.
  - destruct (Hdom curr) as [nd Hnd]; [apply Hpc|]. exists 1%positive. rewrite Hnd. simpl.
    destruct (Z.leb_spec (target o) (key nd)); [eauto|].
    destruct (ok_contains_next _ _ _ _ H1 _ _ _ o Hop prev curr succ nd Hpc Hnd H) as (q & -> & _). simpl. eauto.
  - destruct Hpc as ([k Eo] & Hc & _). destruct (Hdom _ Hc) as [nd Hnd]. exists 1%positive. rewrite Hnd. simpl.
    destruct (Z.ltb_spec (key nd) (target o)); [|eauto].
    destruct (Hsucc _ _ Hnd) as [q ->]; [eapply Hbelow; [done|]|simpl; eauto]. rewrite Eo in *. simpl in *. lia.
  - exists 1%positive. rewrite Hh. simpl. rewrite Hhn. simpl. eauto.
  - destruct Hpc as (_ & Hc & _). destruct (Hdom _ Hc) as [nd ->]. exists 1%positive. simpl. eauto.
  - destruct Hpc as (_ & (Hc & Ht & _) & _). destruct (Hdom _ Hc) as [nd Hnd]. exists 1%positive. rewrite Hnd. simpl.
    destruct (Hsucc _ _ Hnd Ht) as [q ->]. simpl. eauto.
Qed.

(** A thread constructs a node at a null pointer only when [Alloc] has returned one. *)
Lemma thread_step_wild s o c x sp l : thread_step s o c x sp = Some l -> l.2 = Wild -> x = None.
Proof.
  intros H Hw. destruct c; cbn [thread_step] in H; unfold stay, found, mark_test in H;
    repeat (match type of H with ?m ≫= _ = Some _ => apply bind_Some in H as (? & ? & H) end || case_match);
    unfold stay in *; simplify_eq; try done; cbn in *; repeat case_match; by simplify_eq.
Qed.
Lemma run_wild l h t s i : run exec l (create h t) = Some s -> at_pc (threads s i) = Wild -> exists sp, Step i None sp ∈ l.
Proof.
  revert s. induction l as [|a l IH] using rev_ind; intros s; [by intros [= <-]|].
  rewrite run_app. destruct (run exec l (create h t)) as [s0|]; [|done]. cbn [mbind option_bind run]. intros (s1 & E & [= <-])%bind_Some Hw.
  assert (Hcase : at_pc (threads s0 i) = Wild \/ exists sp, a = Step i None sp).
  { destruct a as [j o|j x sp]; cbn [exec] in E.
    - destruct (active (at_pc (threads s0 j))); [done|]. injection E as <-. cbn [threads] in Hw. unfold upd in Hw.
      destruct (decide (j = i)) as [->|]; [by destruct o|by left].
    - apply bind_Some in E as (lo & Hlo & [= <-]). cbn [threads] in Hw. unfold upd in Hw. destruct (decide (j = i)) as [->|].
      + right. exists sp. f_equal. by eapply thread_step_wild.
      + left. by rewrite at_pc_refresh in Hw. }
  destruct Hcase as [H|[sp ->]].
  - destruct (IH s0 eq_refl H) as [sp Hsp]. exists sp. apply elem_of_app. by left.
  - exists sp. apply elem_of_app. right. by left.
Qed.

(** The destructor's walk. *)
Lemma free_from_spec s : inv s -> forall l p fuel,
  path (heap s) (tail s) (p :: l) -> NoDup (p :: l) -> (length l <= fuel)%nat ->
  exists l', free_from fuel s p = Some l' /\ l' ++ [tail s] = p :: l.
Proof.
  intros Hinv. induction l as [|q l IH]; intros p fuel Hp Hnd Hf.
  - simpl in Hp. subst p. exists []. split; [|done]. destruct fuel; simpl; by rewrite decide_True.
  - apply path_cons in Hp as [Hr Hp]. inversion Hnd as [|? ? Hn Hnd']; subst.
    assert (Hne : p <> tail s).
    { intros ->. apply Hn. by eapply tail_in_path. }
    destruct fuel as [|fuel]; [simpl in Hf; lia|]. simpl. rewrite decide_False by done.
    unfold ref in Hr. destruct (heap s !! p) as [nd|]; simpl in *; [|done]. rewrite Hr. simpl.
    destruct (IH q fuel Hp Hnd') as (l' & -> & E); [simpl in Hf; lia|]. exists (p :: l'). simpl. by rewrite E.
Qed.

Lemma destroy_spec s : inv s -> exists l, destroy s = Some l /\ l ≡ₚ chain s.
Proof.
  intros Hinv. pose proof (inv_shape s Hinv) as Hsh. pose proof (chain_nodup _ _ _ _ Hsh) as Hnd.
  destruct (sh_first _ _ _ _ Hsh) as [l E]. pose proof (sh_path _ _ _ _ Hsh) as Hp. rewrite E in Hp, Hnd.
  destruct (sh_head _ _ _ _ Hsh) as (nh & Hh & _).
  destruct l as [|q l]; [by destruct (head_not_tail _ _ _ _ Hsh)|].
  apply path_cons in Hp as [Hr Hp]. unfold ref in Hr. rewrite Hh in Hr. simpl in Hr.
  assert (Hlen : (length (q :: l) <= size (heap s))%nat).
  { rewrite <- size_dom. inversion Hnd as [|? ? _ Hnd']; subst.
    rewrite <- (size_list_to_set (C := gset ptr) (q :: l)) by done. apply subseteq_size.
    intros x Hx%elem_of_list_to_set. apply elem_of_dom. destruct (chain_heap _ _ _ _ Hsh x) as [nd Hx']; [|by exists nd].
    rewrite E. by right. }
  inversion Hnd as [|? ? Hn Hnd']; subst.
  destruct (free_from_spec s Hinv l q (size (heap s)) Hp Hnd') as (l' & Hl' & E'); [simpl in Hlen; lia|].
  exists (l' ++ [head s; tail s]). unfold destroy. rewrite Hh. simpl. rewrite Hr. simpl. rewrite Hl'. split; [done|].
  rewrite E, <- E'. solve_Permutation.
Qed.

(** ** Properties *)

(** [C16] Whatever calls with keys between the sentinels' run and however their
    accesses interleave, the linked nodes start at [head], end at [tail] and have
    growing keys; one exchange of an [add] that then returns true makes an absent
    key present, one exchange of a [remove] makes a present key absent, and
    nothing else changes which keys are present; the destructor frees every
    linked node once. *)
Theorem list_updates_are_atomic h t l s a s' :
  h <> t -> Forall action_ok l -> run exec l (create h t) = Some s -> action_ok a -> exec a s = Some s' ->
  StronglySorted (fun p q => kk (heap s) p < kk (heap s) q) (chain s) /\
  hd_error (chain s) = Some (head s) /\ path (heap s) (tail s) (chain s) /\
  (exists fr, destroy s = Some fr /\ fr ≡ₚ chain s) /\
  (members s' = members s \/
   (exists i x sp k item, a = Step i x sp /\ call (threads s i) = Add k item /\ (k ∉ members s) /\
      members s' = {[k]} ∪ members s /\ at_pc (threads s' i) = Done (RBool true)) \/
   (exists i x sp k p q r, a = Step i x sp /\ call (threads s i) = Remove k /\ k ∈ members s /\
      members s' = members s ∖ {[k]} /\ at_pc (threads s' i) = RSnip p q r)).
Proof.
  intros Hne Hl Hr Ha He. assert (H : inv s) by (eapply list_inv_run; [by apply inv_create|done|done]).
  pose proof (inv_shape s H) as Hsh.
  split; [by eapply chain_sorted|]. split; [by destruct (sh_first _ _ _ _ Hsh) as [? ->]|].
  split; [by apply Hsh|]. split; [by apply destroy_spec|].
  destruct a as [i o|i x sp]; simpl in He.
  - destruct (active _); [done|]. injection He as <-. by left.
  - apply bind_Some in He as (lo & Hlo & [= <-]). destruct (inv_thread s H i) as (Hop & Hdom & Hpc & Hvw).
    assert (Hact : active (at_pc (threads s i)) = true) by (by destruct (at_pc (threads s i))).
    pose proof (thread_step_ok s _ (ever (threads s i)) _ (call (threads s i)) Hsh (Hvw Hact) Hop _ x sp lo Hpc) as Hok.
    destruct lo as [[[h' ch'] re'] c']. destruct Hok as [Heff _]; [|done|].
    { intros p q n E. destruct (inv_private s H i p q n E) as (? & Hn & _). split; [done|apply Hn]. }
    destruct (ef_keys _ _ _ _ _ _ _ _ _ _ Heff) as [Hk|[(Hadd & Hno & Hk & Hc)|(Hrem & Hin & Hk & p & q & r & Hc)]].
    + by left.
    + right. left. destruct (add_inv _ Hadd) as [item Eo]. exists i, x, sp, (target (call (threads s i))), item.
      split_and!; try done. simpl. by rewrite upd_eq.
    + right. right. pose proof (remove_inv _ Hrem) as Eo. exists i, x, sp, (target (call (threads s i))), p, q, r.
      split_and!; try done. simpl. by rewrite upd_eq.
Qed.

(** [C18] What the results of the calls say.  A returned [add] found its key present
    at some moment of the call if it returns false, and if it returns true the key
    was absent at some moment and present at some moment; a [remove] that returns
    false saw its key absent, one that returns true saw it present and absent (but
    two overlapping calls may return true for one removal: [list_defects]);
    [contains] is right at some moment of the call; [for_each] visits nodes with
    growing keys, each present at some moment of the call, and every key that was
    present all the time.  [get] promises less: the node it returns has its key and
    was linked during the call, and when it returns null its key was absent at some
    moment or a node with a smaller key that was linked during the call is marked
    (with the key present all the time, as in [list_defects]).  No active call is
    ever at an invalid pointer, except an [add] that was given a null slot. *)
Theorem list_call_results h t l s i :
  h <> t -> Forall action_ok l -> run exec l (create h t) = Some s ->
  let th := threads s i in
  match at_pc th with
  | Idle => True
  | Done r =>
      match call th, r with
      | Add k _, RBool b => k ∈ ever th /\ (b = true -> k ∉ always th)
      | Remove k, RBool b => (k ∉ always th) /\ (b = true -> k ∈ ever th)
      | Contains k, RBool b => if b then k ∈ ever th else k ∉ always th
      | Get k, RNode (Some q) => q ∈ visited th /\ exists nd, heap s !! q = Some nd /\ key nd = k
      | Get k, RNode None => k ∈ always th ->
          exists q nd, q ∈ visited th /\ heap s !! q = Some nd /\ key nd < k /\ snd (next nd) = true
      | ForEach, RAll acc =>
          StronglySorted (fun p q => kk (heap s) p < kk (heap s) q) acc /\
          (forall p, p ∈ acc -> kk (heap s) p ∈ ever th) /\
          (forall k, k ∈ always th -> exists p, p ∈ acc /\ kk (heap s) p = k)
      | _, _ => False
      end
  | Wild => exists sp, Step i None sp ∈ l
  | _ => exists x s', exec (Step i (Some x) false) s = Some s'
  end.
Proof.
  intros Hne Hl Hr th. assert (H : inv s) by (eapply list_inv_run; [by apply inv_create|done|done]).
  destruct (inv_thread s H i) as (Hop & Hdom & Hpc & _). fold th in Hop, Hdom, Hpc.
  assert (Hcase : at_pc th = Wild \/ at_pc th <> Wild) by (destruct (at_pc th); auto).
  destruct Hcase as [Ew|Hw]; [rewrite Ew; by eapply run_wild|].
  destruct (active (at_pc th)) eqn:Ea.
  - destruct (thread_progress s i H Ea Hw) as (x & lo & Hx). fold th in Hx.
    assert (E : exists x s', exec (Step i (Some x) false) s = Some s').
    { exists x. simpl. fold th. rewrite Hx. simpl. eauto. }
    by destruct (at_pc th).
  - destruct (at_pc th) as [| | | | | | | | | | | | | | | | | |r]; try done.
    destruct (call th), r as [|[q|]|]; simpl in Hpc; try done.
    + destruct Hpc as [Hq <-]. split; [done|]. destruct (Hdom q Hq) as [nd Hnd]. exists nd. by rewrite (kk_eq _ _ _ Hnd).
    + intros Hin. destruct (Hpc Hin) as (q & r & Hq & Hk & nd & Hnd & Hnx). exists q, nd. rewrite (kk_eq _ _ _ Hnd) in Hk. by rewrite Hnx.
    + destruct Hpc as [[Hs Ha] Hk]. split; [done|]. split; [|done]. intros p Hp. by apply Ha.
Qed.

(** *** Concrete lists: head 1, tail 2, new nodes from 3 on *)

Definition steps (i n : nat) (x : ptr) : list action := replicate n (Step i (Some x) false).

Definition with_5 : list action := Call 0 (Add 5 None) :: steps 0 4 3.
Definition with_3_5 : list action := with_5 ++ Call 0 (Add 3 None) :: steps 0 4 4.

Lemma with_5_ok l : Forall action_ok l -> Forall action_ok (with_5 ++ l).
Proof. intros H. repeat constructor; done. Qed.

Definition adding_5 : list action := Call 0 (Add 5 None) :: steps 0 3 3.

Lemma list_updates_are_atomic_witness :
  1%positive <> 2%positive /\ Forall action_ok adding_5 /\
  exists s s', run exec adding_5 (create 1 2) = Some s /\
    exec (Step 0 (Some 3%positive) false) s = Some s' /\ chain s' = [1; 3; 2]%positive /\
    hd_error (chain s) = Some (head s) /\
    (members s' = members s \/ at_pc (threads s' 0%nat) = Done (RBool true) \/ exists p q r, at_pc (threads s' 0%nat) = RSnip p q r).
Proof.
  assert (Hl : Forall action_ok adding_5) by (repeat constructor; done).
  split; [done|]. split; [exact Hl|].
  assert (Hf : chain <$> (run exec adding_5 (create 1 2) ≫= exec (Step 0 (Some 3%positive) false)) = Some [1; 3; 2]%positive)
    by (vm_compute; reflexivity).
  destruct (run exec adding_5 (create 1 2)) as [s|] eqn:E; [|discriminate Hf]. cbn [mbind option_bind] in Hf.
  destruct (exec (Step 0 (Some 3%positive) false) s) as [s'|] eqn:E'; [|discriminate Hf].
  pose proof (list_updates_are_atomic 1 2 _ s (Step 0 (Some 3%positive) false) s' ltac:(discriminate) Hl E I E') as (_ & Hh & _ & _ & Hm).
  exists s, s'. split; [reflexivity|]. split; [exact E'|]. split; [by injection Hf|]. split; [exact Hh|].
  destruct Hm as [Hm|[(i & x & sp & k & item & Ha & _ & _ & _ & Hd)|(i & x & sp & k & p & q & r & Ha & _ & _ & _ & Hd)]].
  - by left.
  - injection Ha as <- _ _. right. by left.
  - injection Ha as <- _ _. right. right. by exists p, q, r.
Defined.

(** Thread 1 has marked key 3 and not unlinked it when thread 2 looks for 5. *)
Definition get_past_marked : list action :=
  with_3_5 ++ Call 1 (Remove 3) :: steps 1 5 9 ++ Call 2 (Get 5) :: steps 2 3 9.
Lemma list_call_results_witness :
  1%positive <> 2%positive /\ Forall action_ok get_past_marked /\
  exists s, run exec get_past_marked (create 1 2) = Some s /\
    at_pc (threads s 2%nat) = Done (RNode None) /\ 5 ∈ always (threads s 2%nat) /\
    exists q nd, q ∈ visited (threads s 2%nat) /\ heap s !! q = Some nd /\ key nd < 5 /\ snd (next nd) = true.
Proof.
  assert (Hl : Forall action_ok get_past_marked) by (repeat constructor; done).
  split; [done|]. split; [exact Hl|].
  assert (Hf : (fun s => (at_pc (threads s 2%nat), call (threads s 2%nat), bool_decide (5 ∈ always (threads s 2%nat)))) <$>
    run exec get_past_marked (create 1 2) = Some (Done (RNode None), Get 5, true)) by (vm_compute; reflexivity).
  destruct (run exec get_past_marked (create 1 2)) as [s|] eqn:E; [|discriminate Hf]. injection Hf as Hp Hc Ha.
  apply bool_decide_eq_true in Ha.
  pose proof (list_call_results 1 2 get_past_marked s 2 ltac:(discriminate) Hl E) as H. cbv zeta in H.
  rewrite Hp, Hc in H. exists s. split; [reflexivity|]. split; [exact Hp|]. split; [exact Ha|]. exact (H Ha).
Defined.

(** Two threads find key 5 before either marks it. *)
Definition two_removes : list action :=
  with_5 ++ Call 1 (Remove 5) :: steps 1 3 9 ++ Call 2 (Remove 5) :: steps 2 3 9 ++ steps 1 4 9 ++ steps 2 3 9.
(** An [add] of key 3 comes between the mark of 5 and its unlinking. *)
Definition unlink_fails : list action :=
  with_5 ++ Call 1 (Remove 5) :: steps 1 3 9 ++ Call 2 (Add 3 None) :: steps 2 3 4 ++ steps 1 2 9 ++ steps 2 1 9 ++ steps 1 2 9.

(** Three defects.  [get] tests the mark of the node before the one it
    returns, so it can miss a key that is present all the time.  [attemptMark]
    succeeds on a node that is already marked, so two calls can remove the same
    node, both return true and retire it twice.  And [remove] retires the node
    even when its exchange fails to unlink it: every call has returned, the node
    is in the list and it is handed to the reclaimer. *)
Theorem list_defects :
  (exists s, run exec get_past_marked (create 1 2) = Some s /\ call (threads s 2%nat) = Get 5 /\
     at_pc (threads s 2%nat) = Done (RNode None) /\ 5 ∈ always (threads s 2%nat)) /\
  (exists s, run exec two_removes (create 1 2) = Some s /\
     at_pc (threads s 1%nat) = Done (RBool true) /\ at_pc (threads s 2%nat) = Done (RBool true) /\
     retired s = [3; 3]%positive) /\
  (exists s, run exec unlink_fails (create 1 2) = Some s /\
     at_pc (threads s 1%nat) = Done (RBool true) /\ at_pc (threads s 2%nat) = Done (RBool true) /\
     chain s = [1; 4; 3; 2]%positive /\ retired s = [3%positive]).
Proof.
  split; [|split].
  - assert (Hf : (fun s => (call (threads s 2%nat), at_pc (threads s 2%nat), bool_decide (5 ∈ always (threads s 2%nat)))) <$>
      run exec get_past_marked (create 1 2) = Some (Get 5, Done (RNode None), true)) by (vm_compute; reflexivity).
    destruct (run exec get_past_marked (create 1 2)) as [s|]; [|discriminate Hf]. injection Hf as H1 H2 H3.
    exists s. split_and!; try done. by apply bool_decide_eq_true in H3.
  - assert (Hf : (fun s => (at_pc (threads s 1%nat), at_pc (threads s 2%nat), retired s)) <$>
      run exec two_removes (create 1 2) = Some (Done (RBool true), Done (RBool true), [3; 3]%positive)) by (vm_compute; reflexivity).
    destruct (run exec two_removes (create 1 2)) as [s|]; [|discriminate Hf]. injection Hf as H1 H2 H3. by exists s.
  - assert (Hf : (fun s => (at_pc (threads s 1%nat), at_pc (threads s 2%nat), chain s, retired s)) <$>
      run exec unlink_fails (create 1 2) = Some (Done (RBool true), Done (RBool true), [1; 4; 3; 2]%positive, [3%positive]))
      by (vm_compute; reflexivity).
    destruct (run exec unlink_fails (create 1 2)) as [s|]; [|discriminate Hf]. injection Hf as H1 H2 H3 H4. by exists s.
Qed.
