(* ===== verification/TaskDAG.v ===== *)
(** * Task graphs ([include/TaskNode.h], [include/TaskDAG.h], [src/TaskDAG.cpp])

    The graph is built by one thread: there a node's [dependents] is the list of
    its keys in address order ([LockFreeList.v] is the list itself).  At run time
    every call of [OnTaskFinished] is a thread whose accesses to the counters and
    flags of its dependents interleave with the others'.  Retired nodes stay
    allocated ([Epochs.v]).  What [Alloc] returns and whether a worker accepts a
    task are inputs. *)
From S2P Require Import Prelude.

Inductive logic := AND | OR.

(** A task's [fn] and [data]. *)
Inductive code := Own (fn data : ptr) | OnTaskFinishedWrapper (node : ptr).

Record node := mk_node {
  task : option ptr;
  gateType : logic;
  isGate : bool;
  dependents : list ptr;
  dependencies_left : Z;
  submitted : bool;
  cpuID : Z;
  priority : Z;
  isLocal : bool;
  isFork : bool;
  isMain : bool;
  orig : option code              (* origFn, origData *)
}.

Record dag := mk_dag { heap : gmap ptr node; nodes : list ptr; tasks : gmap ptr code }.

Definition NONE : Z := 255.

(** [TaskNode]'s constructor. *)
Definition TaskNode (t : option ptr) : node :=
  mk_node t AND false [] 0 false 0 0 true false false None.

(** [mem] is what [Alloc] returns for the node; [None]: [return nullptr].  (The
    constructor throws when there is no memory for the list.) *)
Definition CreateNode (g : dag) (t : ptr) (prio cpu_id : Z) (mem : option ptr) : dag * option ptr :=
  match mem with
  | None => (g, None)
  | Some p =>
      let n := mk_node (Some t) AND false [] 0 false (u8 cpu_id)
                 (if prio =? NONE then 0 else prio) (prio =? NONE) false false None in
      (mk_dag (<[p := n]> (heap g)) (nodes g ++ [p]) (tasks g), Some p)
  end.

Definition set_isMain (n : node) : node :=
  mk_node (task n) (gateType n) (isGate n) (dependents n) (dependencies_left n) (submitted n) (cpuID n)
    (priority n) (isLocal n) (isFork n) true (orig n).

Definition CreateMainNode (g : dag) (t : ptr) (prio : Z) (mem : option ptr) : dag * option ptr :=
  match CreateNode g t prio NONE mem with
  | (g, Some p) => (mk_dag (alter set_isMain p (heap g)) (nodes g) (tasks g), Some p)
  | r => r
  end.

Definition CreateGate (g : dag) (type : logic) (mem : option ptr) : dag * option ptr :=
  match mem with
  | None => (g, None)
  | Some p =>
      let n := mk_node None type true [] 0 false 0 0 true false false None in
      (mk_dag (<[p := n]> (heap g)) (nodes g ++ [p]) (tasks g), Some p)
  end.

(** [dependents->add(key, dependent)], the key being the address. *)
Fixpoint add (k : ptr) (l : list ptr) : list ptr :=
  match l with
  | [] => [k]
  | x :: l => if decide (x = k) then x :: l else if (k <? x)%positive then k :: x :: l else x :: add k l
  end.

Definition count_dependency (n : node) : node :=
  mk_node (task n) (gateType n) (isGate n) (dependents n) (dependencies_left n + 1) (submitted n) (cpuID n)
    (priority n) (isLocal n) (isFork n) (isMain n) (orig n).
Definition add_dependent (d : ptr) (n : node) : node :=
  mk_node (task n) (gateType n) (isGate n) (add d (dependents n)) (dependencies_left n) (submitted n) (cpuID n)
    (priority n) (isLocal n) (isFork n) (isMain n) (orig n).

Definition AddDependency (g : dag) (dependent dependency : ptr) : dag :=
  mk_dag (alter (add_dependent dependent) dependency (alter count_dependency dependent (heap g))) (nodes g) (tasks g).

(** ** [HasCycle] *)

Definition succs (h : gmap ptr node) (n : ptr) : list ptr :=
  match h !! n with Some nd => dependents nd | None => [] end.
Definition left_of (h : gmap ptr node) (n : ptr) : Z :=
  match h !! n with Some nd => dependencies_left nd | None => 0 end.

(** [indeg[n]]: a missing key is inserted as 0. *)
Definition indeg_at (m : gmap ptr Z) (n : ptr) : Z := default 0 (m !! n).

(** The visit of one forward edge; [ready]'s back is its first element here. *)
Definition visit (mr : gmap ptr Z * list ptr) (dep : ptr) : gmap ptr Z * list ptr :=
  let x := indeg_at mr.1 dep - 1 in
  (<[dep := x]> mr.1, if x =? 0 then dep :: mr.2 else mr.2).

(** The loop: the number of nodes processed ([None]: out of fuel). *)
Fixpoint kahn (fuel : nat) (h : gmap ptr node) (m : gmap ptr Z) (ready : list ptr) (processed : nat) : option nat :=
  match ready with
  | [] => Some processed
  | n :: ready =>
      match fuel with
      | O => None
      | S fuel =>
          let mr := foldl visit (m, ready) (succs h n) in
          kahn fuel h mr.1 mr.2 (S processed)
      end
  end.

Definition indegrees (g : dag) : gmap ptr Z :=
  foldl (fun m n => <[n := left_of (heap g) n]> m) ∅ (nodes g).
Definition ready_nodes (g : dag) (m : gmap ptr Z) : list ptr :=
  reverse (filter (fun n => indeg_at m n = 0) (nodes g)).

Definition HasCycle (g : dag) : option bool :=
  let m := indegrees g in
  processed ← kahn (S (length (nodes g))) (heap g) m (ready_nodes g m) 0;
  Some (negb (Nat.eqb processed (length (nodes g)))).

(** ** Run time *)

(** Where [Fire] sends a node's task. *)
Inductive destination := ToMain | ToCore (cpu : Z) | ToPool | ToWorker (cpu : Z).

Inductive frame :=
  | Roots (l : list ptr)          (* Submit's loop over the roots *)
  | Finishing (n : ptr).          (* OnTaskFinished(n) *)

#[global] Instance frame_eq_dec : EqDecision frame.
Proof. solve_decision. Defined.

(** A thread inside [Submit] or [OnTaskFinished]: the node it is about to fire,
    and the calls it is in. *)
Record thread := mk_thread { firing : option ptr; stack : list frame }.

Record state := mk_state {
  mem : gmap ptr node;
  code_of : gmap ptr code;                (* the tasks' fn and data *)
  todo : gmap ptr (list ptr);             (* the dependents a node's for_each has not visited *)
  threads : list thread;
  scheduled : list (destination * ptr);   (* tasks handed over, not run yet *)
  refused : list ptr;                     (* tasks Push did not take *)
  unscheduled : list ptr;                 (* nodes Fire did nothing with *)
  fired : list ptr;                       (* ghost: nodes, in order *)
  finished : list ptr;                    (* ghost: nodes whose OnTaskFinished began *)
  ran : list code;                        (* ghost: the functions run by the trampoline *)
  retired : list ptr
}.

(** [Submit] once [HasCycle] is false: the roots. *)
Definition roots (g : dag) : list ptr := filter (fun n => left_of (heap g) n = 0) (nodes g).

Definition todo_of (g : dag) : gmap ptr (list ptr) := list_to_map ((fun n => (n, succs (heap g) n)) <$> nodes g).

Inductive submission := Rejected (freed_nodes freed_tasks : list ptr) | Running (s : state).

(** [None]: [HasCycle] does not return. *)
Definition Submit (g : dag) : option submission :=
  c ← HasCycle g;
  Some (if c : bool then Rejected (nodes g) (omap (fun n => nd ← heap g !! n; task nd) (nodes g))
        else Running (mk_state (heap g) (tasks g) (todo_of g) [mk_thread None [Roots (roots g)]] [] [] [] [] [] [] [])).

Definition set_submitted (n : node) (o : option code) : node :=
  mk_node (task n) (gateType n) (isGate n) (dependents n) (dependencies_left n) true (cpuID n)
    (priority n) (isLocal n) (isFork n) (isMain n) o.
Definition set_left (x : Z) (n : node) : node :=
  mk_node (task n) (gateType n) (isGate n) (dependents n) x (submitted n) (cpuID n)
    (priority n) (isLocal n) (isFork n) (isMain n) (orig n).

Definition route (n : node) : option destination :=
  if isMain n then Some ToMain
  else if isFork n then Some (ToCore (cpuID n))
  else if isLocal n then Some (if cpuID n =? 0 then ToPool else ToWorker (cpuID n))
  else None.

(** [Fire(d)] by a thread whose stack is [st]; [accept]: whether the worker asked
    for by number takes the task. *)
Definition Fire (s : state) (k : nat) (d : ptr) (st : list frame) (accept : bool) : option state :=
  nd ← mem s !! d;
  let back := <[k := mk_thread None st]> (threads s) in
  if submitted nd then
    Some (mk_state (mem s) (code_of s) (todo s) back (scheduled s) (refused s) (unscheduled s)
            (fired s) (finished s) (ran s) (retired s))
  else if isGate nd then
    Some (mk_state (<[d := set_submitted nd (orig nd)]> (mem s)) (code_of s) (todo s)
            (<[k := mk_thread None (Finishing d :: st)]> (threads s)) (scheduled s) (refused s) (unscheduled s)
            (fired s ++ [d]) (finished s ++ [d]) (ran s) (retired s))
  else
    t ← task nd;
    c ← code_of s !! t;
    let mem' := <[d := set_submitted nd (Some c)]> (mem s) in
    let code' := <[t := OnTaskFinishedWrapper d]> (code_of s) in
    Some (match route nd with
          | Some (ToWorker cpu as r) =>
              if accept
              then mk_state mem' code' (todo s) back (scheduled s ++ [(r, t)]) (refused s) (unscheduled s)
                     (fired s ++ [d]) (finished s) (ran s) (retired s)
              else mk_state mem' code' (todo s) back (scheduled s) (refused s ++ [t]) (unscheduled s)
                     (fired s ++ [d]) (finished s) (ran s) (retired s)
          | Some r =>
              mk_state mem' code' (todo s) back (scheduled s ++ [(r, t)]) (refused s) (unscheduled s)
                (fired s ++ [d]) (finished s) (ran s) (retired s)
          | None =>
              mk_state mem' code' (todo s) back (scheduled s) (refused s) (unscheduled s ++ [d])
                (fired s ++ [d]) (finished s) (ran s) (retired s)
          end).

(** One dependent in [OnTaskFinished(n)]'s loop, or its end. *)
Definition OnTaskFinished (s : state) (k : nat) (n : ptr) (st : list frame) : option state :=
  match todo s !! n with
  | None => None
  | Some [] =>
      Some (mk_state (mem s) (code_of s) (todo s) (<[k := mk_thread None st]> (threads s)) (scheduled s)
              (refused s) (unscheduled s) (fired s) (finished s) (ran s) (retired s ++ [n]))
  | Some (d :: ds) =>
      nd ← mem s !! d;
      let '(mem', ready) :=
        match gateType nd with
        | OR => (mem s, true)
        | AND => let x := dependencies_left nd - 1 in (<[d := set_left x nd]> (mem s), x =? 0)
        end in
      Some (mk_state mem' (code_of s) (<[n := ds]> (todo s))
              (<[k := mk_thread (if ready : bool then Some d else None) (Finishing n :: st)]> (threads s))
              (scheduled s) (refused s) (unscheduled s) (fired s) (finished s) (ran s) (retired s))
  end.

Definition thread_step (s : state) (k : nat) (accept : bool) : option state :=
  t ← threads s !! k;
  match firing t, stack t with
  | Some d, st => Fire s k d st accept
  | None, Finishing n :: st => OnTaskFinished s k n st
  | None, Roots (r :: rs) :: st =>
      Some (mk_state (mem s) (code_of s) (todo s) (<[k := mk_thread (Some r) (Roots rs :: st)]> (threads s))
              (scheduled s) (refused s) (unscheduled s) (fired s) (finished s) (ran s) (retired s))
  | None, Roots [] :: st =>
      Some (mk_state (mem s) (code_of s) (todo s) (<[k := mk_thread None st]> (threads s))
              (scheduled s) (refused s) (unscheduled s) (fired s) (finished s) (ran s) (retired s))
  | None, [] => None
  end.

Inductive action := Step (k : nat) (accept : bool) | RunTask (j : nat).

(** [RunTask]: a worker (or the main thread) runs a task's function; the
    trampoline runs the node's own one and then [OnTaskFinished]. *)
Definition exec (a : action) (s : state) : option state :=
  match a with
  | Step k accept => thread_step s k accept
  | RunTask j =>
      x ← scheduled s !! j;
      c ← code_of s !! x.2;
      let rest := delete j (scheduled s) in
      match c with
      | Own _ _ =>
          Some (mk_state (mem s) (code_of s) (todo s) (threads s) rest (refused s) (unscheduled s)
                  (fired s) (finished s) (ran s ++ [c]) (retired s))
      | OnTaskFinishedWrapper n =>
          nd ← mem s !! n;
          o ← orig nd;
          Some (mk_state (mem s) (code_of s) (todo s) (threads s ++ [mk_thread None [Finishing n]]) rest (refused s)
                  (unscheduled s) (fired s) (finished s ++ [n]) (ran s ++ [o]) (retired s))
      end
  end.

Definition quiet (s : state) : Prop :=
  scheduled s = [] /\ Forall (fun t => firing t = None /\ stack t = []) (threads s).

(** ** Counting references *)

Definition bit (b : bool) : Z := if b then 1 else 0.

(** How many nodes of [l] refer to [d] through [f]. *)
Fixpoint refs (f : ptr -> list ptr) (d : ptr) (l : list ptr) : Z :=
  match l with [] => 0 | n :: l => bit (bool_decide (d ∈ f n)) + refs f d l end.

Lemma refs_nonneg f d l : 0 <= refs f d l.
Proof. induction l as [|n l IH]; simpl; [lia|]. unfold bit. case_match; lia. Qed.

Lemma refs_zero f d l : refs f d l = 0 <-> forall n, n ∈ l -> d ∉ f n.
Proof.
  induction l as [|n l IH]; simpl; [split; [by intros _ n ?%not_elem_of_nil|done]|].
  pose proof (refs_nonneg f d l). unfold bit. case_bool_decide as Hd; split.
  - lia.
  - intros Hn. by destruct (Hn n); [left|].
  - intros H0 m [->|Hm]%elem_of_cons; [done|]. apply IH; [lia|done].
  - intros Hn. rewrite Z.add_0_l. apply IH. intros m Hm. apply Hn. by right.
Qed.

Lemma refs_ext f f' d l : (forall n, n ∈ l -> d ∈ f n <-> d ∈ f' n) -> refs f d l = refs f' d l.
Proof.
  induction l as [|n l IH]; intros H; simpl; [done|]. f_equal; [|apply IH; intros m Hm; apply H; by right].
  f_equal. apply bool_decide_ext, H. by left.
Qed.

Lemma refs_update f f' d l n :
  NoDup l -> n ∈ l -> (forall m, m <> n -> f' m = f m) ->
  refs f' d l = refs f d l - bit (bool_decide (d ∈ f n)) + bit (bool_decide (d ∈ f' n)).
Proof.
  intros Hnd Hn Hf. induction l as [|m l IH]; [by apply not_elem_of_nil in Hn|].
  inversion Hnd as [|? ? Hm Hnd']; subst. simpl. apply elem_of_cons in Hn as [->|Hn].
  - rewrite (refs_ext f' f d l); [lia|]. intros x Hx. rewrite Hf; [done|]. by intros ->.
  - rewrite IH by done. rewrite (Hf m) by (by intros ->). lia.
Qed.

(** ** Well-formed graphs, and that building keeps them so *)

Lemma elem_add k l x : x ∈ add k l <-> x = k \/ x ∈ l.
Proof.
  induction l as [|y l IH]; cbn [add]; [rewrite list_elem_of_singleton; set_solver|].
  case_decide; [subst; set_solver|]. destruct (k <? y)%positive; [set_solver|].
  rewrite !elem_of_cons, IH. tauto.
Qed.
Lemma sorted_add k l : StronglySorted Pos.lt l -> StronglySorted Pos.lt (add k l).
Proof.
  induction l as [|y l IH]; intros Hs; cbn [add]; [by repeat constructor|]. case_decide as Hy; [done|].
  apply StronglySorted_inv in Hs as [Hs Hf]. destruct (Pos.ltb_spec k y) as [Hlt|Hge].
  - repeat constructor; try done. eapply Forall_impl; [exact Hf|]. simpl. lia.
  - constructor; [by apply IH|]. rewrite Forall_forall in *. intros x [->|Hx]%elem_add; [lia|auto].
Qed.
Lemma sorted_nodup l : StronglySorted Pos.lt l -> NoDup l.
Proof.
  induction 1 as [|y l Hs IH Hf]; constructor; [|done]. intros Hy. rewrite Forall_forall in Hf. specialize (Hf y Hy). lia.
Qed.

(** The edges of a graph, when [R] relates each node's counter to the number of
    lists it is on: equality, or [>=] if dependencies may be recorded twice. *)
Record edges_ok (R : Z -> Z -> Prop) (g : dag) : Prop := {
  e_nodup : NoDup (nodes g);
  e_dom : forall p, p ∈ nodes g <-> is_Some (heap g !! p);
  e_succ : forall n d, d ∈ succs (heap g) n -> d ∈ nodes g;
  e_sorted : forall n, StronglySorted Pos.lt (succs (heap g) n);
  e_left : forall d, d ∈ nodes g -> R (left_of (heap g) d) (refs (succs (heap g)) d (nodes g))
}.

Record wf (g : dag) : Prop := {
  wf_edges : edges_ok eq g;
  wf_new : forall p nd, heap g !! p = Some nd -> submitted nd = false;
  wf_task : forall p nd, heap g !! p = Some nd -> isGate nd = false ->
    exists t f x, task nd = Some t /\ tasks g !! t = Some (Own f x);
  wf_tasks : forall p q nd nd' t, heap g !! p = Some nd -> heap g !! q = Some nd' ->
    task nd = Some t -> task nd' = Some t -> p = q
}.

Section Wf.
Context (g : dag) (Hwf : wf g).
Lemma wf_nodup : NoDup (nodes g). Proof. apply (e_nodup _ _ (wf_edges g Hwf)). Qed.
Lemma wf_dom p : p ∈ nodes g <-> is_Some (heap g !! p). Proof. apply (e_dom _ _ (wf_edges g Hwf)). Qed.
Lemma wf_succ n d : d ∈ succs (heap g) n -> d ∈ nodes g. Proof. apply (e_succ _ _ (wf_edges g Hwf)). Qed.
Lemma wf_succ_nodup n : NoDup (succs (heap g) n). Proof. apply sorted_nodup, (e_sorted _ _ (wf_edges g Hwf)). Qed.
Lemma wf_left d : d ∈ nodes g -> left_of (heap g) d = refs (succs (heap g)) d (nodes g).
Proof. apply (e_left _ _ (wf_edges g Hwf)). Qed.
End Wf.

Definition empty_dag (ts : gmap ptr code) : dag := mk_dag ∅ [] ts.

Lemma edges_empty R ts : edges_ok R (empty_dag ts).
Proof.
  constructor; simpl; unfold succs.
  - constructor.
  - intros p. rewrite lookup_empty. split; [by intros ?%not_elem_of_nil|by intros [? ?]].
  - intros n d. rewrite lookup_empty. by intros ?%not_elem_of_nil.
  - intros n. rewrite lookup_empty. constructor.
  - by intros d ?%not_elem_of_nil.
Qed.

Lemma wf_empty ts : wf (empty_dag ts).
Proof. constructor; [apply edges_empty|..]; simpl; intros p; [|intros nd|intros q nd nd' t]; by rewrite lookup_empty. Qed.

(** A node without edges comes in. *)
Lemma edges_create (R : Z -> Z -> Prop) g p n :
  R 0 0 -> edges_ok R g -> heap g !! p = None -> dependents n = [] -> dependencies_left n = 0 ->
  edges_ok R (mk_dag (<[p := n]> (heap g)) (nodes g ++ [p]) (tasks g)).
Proof.
  intros HR [H1 H2 H3 H4 H5] Hp Hd Hl.
  assert (Hpn : p ∉ nodes g) by (intros Hin%H2; rewrite Hp in Hin; by destruct Hin).
  assert (Hsu : forall q, succs (<[p := n]> (heap g)) q = succs (heap g) q).
  { intros q. unfold succs. destruct (decide (p = q)) as [<-|Hne]; [|by rewrite lookup_insert_ne].
    by rewrite lookup_insert_eq, Hp, Hd. }
  assert (Hnone : refs (succs (heap g)) p (nodes g) = 0).
  { apply refs_zero. intros q _ Hq%H3. done. }
  assert (Happ : forall f d l m, refs f d (l ++ [m]) = refs f d l + bit (bool_decide (d ∈ f m))).
  { intros f d l m. induction l as [|x l IH]; simpl; lia. }
  constructor; simpl.
  - apply NoDup_app. split; [done|]. split; [|apply NoDup_singleton]. intros x Hx Hxp%list_elem_of_singleton. by subst.
  - intros q. rewrite elem_of_app, list_elem_of_singleton, H2. destruct (decide (p = q)) as [<-|Hne].
    + rewrite lookup_insert_eq. split; [by eexists|auto].
    + rewrite lookup_insert_ne by done. split; [intros [?|?]; [done|congruence]|auto].
  - intros q d. rewrite Hsu. intros Hq. apply elem_of_app. left. by eapply H3.
  - intros q. by rewrite Hsu.
  - intros d Hdin. rewrite Happ, (refs_ext _ (succs (heap g))) by (intros; by rewrite Hsu). rewrite Hsu.
    assert (Hpe : succs (heap g) p = []) by (unfold succs; by rewrite Hp). rewrite Hpe. simpl. rewrite Z.add_0_r.
    unfold left_of. apply elem_of_app in Hdin as [Hdin|Hdin%list_elem_of_singleton]; [|subst d].
    + rewrite lookup_insert_ne by (by intros ->). by apply H5.
    + by rewrite lookup_insert_eq, Hl, Hnone.
Qed.

Lemma wf_create g p n :
  wf g -> heap g !! p = None -> dependents n = [] -> dependencies_left n = 0 -> submitted n = false ->
  (isGate n = false -> exists t f x, task n = Some t /\ tasks g !! t = Some (Own f x)) ->
  (forall t q nd, task n = Some t -> heap g !! q = Some nd -> task nd <> Some t) ->
  wf (mk_dag (<[p := n]> (heap g)) (nodes g ++ [p]) (tasks g)).
Proof.
  intros [H1 H6 H7 H8] Hp Hd Hl Hs Ht Hu. constructor; [by apply edges_create|..]; simpl.
  - intros q nd [[_ <-]|[_ Hq]]%lookup_insert_Some; [done|by eapply H6].
  - intros q nd [[_ <-]|[_ Hq]]%lookup_insert_Some; [done|by eapply H7].
  - intros a b nd nd' t [[Ea <-]|[_ Ha]]%lookup_insert_Some [[Eb <-]|[_ Hb]]%lookup_insert_Some Hta Htb.
    + congruence.
    + by destruct (Hu t b nd' Hta Hb).
    + by destruct (Hu t a nd Htb Ha).
    + by eapply H8.
Qed.

(** One edge between existing nodes: what [AddDependency] does to the heap. *)
Section Add.
Context (g : dag) (d n : ptr) (Hnodes : forall p, p ∈ nodes g <-> is_Some (heap g !! p)) (Hd : d ∈ nodes g) (Hn : n ∈ nodes g).
Let h' := heap (AddDependency g d n).
Let upd_node (q : ptr) (nd : node) : node :=
  let nd1 := if decide (q = d) then count_dependency nd else nd in if decide (q = n) then add_dependent d nd1 else nd1.

Lemma add_lookup q : h' !! q = upd_node q <$> heap g !! q.
Proof.
  unfold h', AddDependency. simpl. rewrite !lookup_alter. unfold upd_node.
  repeat case_decide; subst; try done; by destruct (heap g !! _).
Qed.
Lemma add_succs q : succs h' q = if decide (q = n) then add d (succs (heap g) q) else succs (heap g) q.
Proof.
  unfold succs. rewrite add_lookup. destruct (heap g !! q) as [nd|] eqn:E; simpl.
  - unfold upd_node. by repeat case_decide.
  - case_decide; [|done]. subst. apply Hnodes in Hn as [? Hn']. congruence.
Qed.
Lemma add_left q : q ∈ nodes g -> left_of h' q = left_of (heap g) q + bit (bool_decide (q = d)).
Proof.
  intros Hq. unfold left_of. rewrite add_lookup. apply Hnodes in Hq as [nd ->]. simpl. unfold upd_node.
  case_bool_decide; repeat case_decide; simpl; (done || lia).
Qed.
Lemma add_fields q nd : h' !! q = Some nd -> exists nd0, heap g !! q = Some nd0 /\
  submitted nd = submitted nd0 /\ isGate nd = isGate nd0 /\ task nd = task nd0.
Proof.
  rewrite add_lookup. destruct (heap g !! q) as [nd0|]; simpl; [|done]. intros [= <-].
  exists nd0. unfold upd_node. by repeat case_decide.
Qed.

Lemma edges_add (R : Z -> Z -> Prop) :
  (forall x y, R x y -> R (x + 1) (y + 1)) -> (d ∈ succs (heap g) n -> forall x y, R x y -> R (x + 1) y) ->
  edges_ok R g -> edges_ok R (AddDependency g d n).
Proof.
  intros HR1 HR2 [H1 H2 H3 H4 H5]. constructor; try done; change (heap (AddDependency g d n)) with h';
    change (nodes (AddDependency g d n)) with (nodes g).
  - intros q. rewrite H2, add_lookup. destruct (heap g !! q); simpl; split; intros [? ?]; (done || by eexists).
  - intros q x. rewrite add_succs. case_decide; [|by apply H3]. rewrite elem_add. intros [->|Hx]; [done|by eapply H3].
  - intros q. rewrite add_succs. case_decide; [by apply sorted_add|done].
  - intros q Hq. rewrite add_left by done.
    rewrite (refs_update (succs (heap g)) (succs h') q (nodes g) n) by (done || (intros m Hm; by rewrite add_succs, decide_False)).
    rewrite (add_succs n), decide_True by done. specialize (H5 q Hq). unfold bit. destruct (decide (q = d)) as [->|Hqd].
    + rewrite (bool_decide_eq_true_2 (d = d)), (bool_decide_eq_true_2 (d ∈ add d (succs (heap g) n))) by (done || (apply elem_add; by left)).
      case_bool_decide as Hin.
      * replace (refs _ d (nodes g) - 1 + 1) with (refs (succs (heap g)) d (nodes g)) by lia. by apply HR2.
      * replace (refs _ d (nodes g) - 0 + 1) with (refs (succs (heap g)) d (nodes g) + 1) by lia. by apply HR1.
    + rewrite (bool_decide_eq_false_2 (q = d)) by done.
      rewrite (bool_decide_ext (q ∈ add d (succs (heap g) n)) (q ∈ succs (heap g) n)) by (rewrite elem_add; tauto).
      by rewrite Z.add_0_r, Z.sub_add.
Qed.
End Add.

(** A second [AddDependency] of the same edge makes the counter exceed the number
    of lists; see [dag_defects]. *)
Lemma wf_add_dependency g d n :
  wf g -> d ∈ nodes g -> n ∈ nodes g -> d ∉ succs (heap g) n -> wf (AddDependency g d n).
Proof.
  intros [H1 H6 H7 H8] Hd Hn Hnew. pose proof (add_fields g d n Hd Hn) as Hflds. constructor.
  - apply edges_add; try done; [apply H1|]. by intros x y ->.
  - intros q nd Hq. destruct (Hflds q nd Hq) as (nd0 & H0 & -> & _). by eapply H6.
  - intros q nd Hq Hg. destruct (Hflds q nd Hq) as (nd0 & H0 & _ & Eg & ->). rewrite Eg in Hg. by eapply H7.
  - intros a b nd nd' t Ha Hb Hta Htb. destruct (Hflds a nd Ha) as (na & Ha0 & _ & _ & Ea).
    destruct (Hflds b nd' Hb) as (nb & Hb0 & _ & _ & Eb). rewrite Ea in Hta. rewrite Eb in Htb. by eapply H8.
Qed.

(** Any sequence of [CreateNode], [CreateMainNode], [CreateGate] and
    [AddDependency] builds such a graph. *)
Definition built (g : dag) : Prop := edges_ok Z.ge g.

Lemma wf_built g : wf g -> built g.
Proof. intros [[H1 H2 H3 H4 H5] _ _ _]. constructor; try done. intros d Hd. rewrite H5 by done. lia. Qed.
Lemma built_create g p n : built g -> heap g !! p = None -> dependents n = [] -> dependencies_left n = 0 ->
  built (mk_dag (<[p := n]> (heap g)) (nodes g ++ [p]) (tasks g)).
Proof. by apply edges_create. Qed.
Lemma built_add g d n : built g -> d ∈ nodes g -> n ∈ nodes g -> built (AddDependency g d n).
Proof. intros Hb Hd Hn. apply edges_add; try done; [apply Hb|intros; lia|intros _ x y; lia]. Qed.

(** ** Kahn's algorithm *)

(** Every dependency of a node of [l] comes before it in [l]. *)
Definition topological (g : dag) (l : list ptr) : Prop :=
  forall l1 d l2, l = l1 ++ d :: l2 -> forall n, n ∈ nodes g -> d ∈ succs (heap g) n -> n ∈ l1.

Lemma visit_fold m rd l :
  NoDup l ->
  let r := foldl visit (m, rd) l in
  (forall d, indeg_at r.1 d = indeg_at m d - bit (bool_decide (d ∈ l))) /\
  (forall d, d ∈ r.2 <-> d ∈ rd \/ (d ∈ l /\ indeg_at m d = 1)) /\
  (NoDup rd -> (forall d, d ∈ l -> d ∉ rd) -> NoDup r.2).
Proof.
  revert m rd. induction l as [|x l IH]; intros m rd Hnd; cbn [foldl].
  - split; [|split; [|done]].
    + intros d. rewrite bool_decide_eq_false_2 by (by apply not_elem_of_nil). simpl. lia.
    + intros d. split; [auto|]. intros [?|[?%not_elem_of_nil _]]; done.
  - inversion Hnd as [|? ? Hx Hnd']; subst.
    destruct (IH (visit (m, rd) x).1 (visit (m, rd) x).2 Hnd') as (I1 & I2 & I3). clear IH.
    rewrite <- surjective_pairing in I1, I2, I3.
    assert (Hat : forall d, indeg_at (visit (m, rd) x).1 d = if decide (d = x) then indeg_at m x - 1 else indeg_at m d).
    { intros d. unfold visit, indeg_at. simpl. case_decide as E; [subst; by rewrite lookup_insert_eq|].
      by rewrite lookup_insert_ne by done. }
    assert (Hrd : forall d, d ∈ (visit (m, rd) x).2 <-> d ∈ rd \/ (d = x /\ indeg_at m x = 1)).
    { intros d. unfold visit. simpl. destruct (Z.eqb_spec (indeg_at m x - 1) 0).
      - rewrite elem_of_cons. split; [intros [->|?]|intros [?|[-> _]]]; auto. right. split; [done|lia].
      - split; [auto|]. intros [?|[_ ?]]; [done|lia]. }
    split; [|split].
    + intros d. rewrite I1, Hat. unfold bit. case_decide as E.
      * subst. rewrite (bool_decide_eq_false_2 (x ∈ l)), (bool_decide_eq_true_2 (x ∈ x :: l)) by (done || by left). lia.
      * rewrite (bool_decide_ext (d ∈ x :: l) (d ∈ l)) by (rewrite elem_of_cons; tauto). done.
    + intros d. rewrite I2, Hrd, Hat, elem_of_cons. case_decide as E; [subst; tauto|tauto].
    + intros Hn Hout. apply I3.
      * unfold visit. simpl. case_match; [|done]. constructor; [apply Hout; by left|done].
      * intros d Hd. rewrite Hrd. intros [Hr|[-> _]]; [|done]. by destruct (Hout d); [right|].
Qed.

Section Kahn.
Context (g : dag) (Hb : built g).

(** How often dependencies of [d] were recorded a second time. *)
Definition repeated (d : ptr) : Z := left_of (heap g) d - refs (succs (heap g)) d (nodes g).
Lemma repeated_nonneg d : d ∈ nodes g -> 0 <= repeated d.
Proof. intros Hd. pose proof (e_left _ _ Hb d Hd). unfold repeated. lia. Qed.

(** The edges that still count when the nodes of [P] are processed. *)
Definition unprocessed (P : list ptr) (n : ptr) : list ptr := if decide (n ∈ P) then [] else succs (heap g) n.

Record kahn_inv (m : gmap ptr Z) (ready P : list ptr) : Prop := {
  k_nodup : NoDup (P ++ ready);
  k_in : forall x, x ∈ P ++ ready -> x ∈ nodes g;
  k_deg : forall d, d ∈ nodes g -> indeg_at m d = repeated d + refs (unprocessed P) d (nodes g);
  k_zero : forall d, d ∈ nodes g -> indeg_at m d = 0 <-> d ∈ P ++ ready;
  k_topo : topological g P
}.

Lemma kahn_step m n ready P :
  kahn_inv m (n :: ready) P ->
  let r := foldl visit (m, ready) (succs (heap g) n) in kahn_inv r.1 r.2 (P ++ [n]).
Proof.
  intros [K1 K2 K3 K4 K5] r.
  destruct (visit_fold m ready (succs (heap g) n) (sorted_nodup _ (e_sorted _ _ Hb n))) as (V1 & V2 & V3). fold r in V1, V2, V3.
  assert (Hn : n ∈ nodes g) by (apply K2, elem_of_app; right; by left).
  assert (HnP : n ∉ P).
  { intros Hp. apply NoDup_app in K1 as (_ & K1 & _). apply (K1 n Hp). by left. }
  assert (Hzero : forall d, d ∈ nodes g -> indeg_at m d = 0 -> refs (unprocessed P) d (nodes g) = 0).
  { intros d Hd Hz. rewrite K3 in Hz by done. pose proof (repeated_nonneg d Hd). pose proof (refs_nonneg (unprocessed P) d (nodes g)). lia. }
  assert (Hpos : forall d, d ∈ succs (heap g) n -> d ∉ P ++ n :: ready).
  { intros d Hd Hin. pose proof (e_succ _ _ Hb n d Hd) as Hdn. apply K4, Hzero in Hin; [|done..].
    pose proof (proj1 (refs_zero _ _ _) Hin n Hn) as Hno. unfold unprocessed in Hno. by rewrite decide_False in Hno. }
  assert (Hpreds : forall q, q ∈ nodes g -> n ∈ succs (heap g) q -> q ∈ P).
  { intros q Hq Hnq. assert (Hz : indeg_at m n = 0) by (apply K4; [done|]; apply elem_of_app; right; by left).
    apply Hzero in Hz; [|done]. pose proof (proj1 (refs_zero _ _ _) Hz q Hq) as Hno. unfold unprocessed in Hno.
    by destruct (decide (q ∈ P)). }
  assert (Hmem : forall d, d ∈ (P ++ [n]) ++ r.2 <-> d ∈ P ++ n :: ready \/ (d ∈ succs (heap g) n /\ indeg_at m d = 1)).
  { intros d. rewrite !elem_of_app, list_elem_of_singleton, elem_of_cons, V2. tauto. }
  constructor.
  - apply NoDup_app in K1 as (N1 & N2 & N3). inversion N3 as [|? ? N4 N5]; subst.
    apply NoDup_app. split; [|split].
    + apply NoDup_app. split; [done|]. split; [|apply NoDup_singleton].
      intros x Hx Hxn%list_elem_of_singleton. by subst.
    + intros x Hx Hr. apply V2 in Hr as [Hr|[Hs _]].
      * apply elem_of_app in Hx as [Hx|Hx%list_elem_of_singleton]; [apply (N2 x Hx); by right|by subst].
      * apply (Hpos x Hs). rewrite elem_of_app, elem_of_cons. rewrite elem_of_app, list_elem_of_singleton in Hx. tauto.
    + apply V3; [done|]. intros d Hd Hr. apply (Hpos d Hd). rewrite elem_of_app, elem_of_cons. auto.
  - intros x Hx. apply Hmem in Hx as [Hx|[Hx _]]; [by apply K2|by eapply (e_succ _ _ Hb)].
  - intros d Hd. rewrite V1, K3 by done.
    rewrite (refs_update (unprocessed P) (unprocessed (P ++ [n])) d (nodes g) n); [| |done|].
    + unfold unprocessed. rewrite (decide_False (P := n ∈ P)) by done. rewrite decide_True by (apply elem_of_app; right; by left).
      rewrite (bool_decide_eq_false_2 (d ∈ [])) by (by apply not_elem_of_nil). simpl. lia.
    + apply Hb.
    + intros q Hq. unfold unprocessed. rewrite (decide_ext (q ∈ P ++ [n]) (q ∈ P)); [done|].
      rewrite elem_of_app, list_elem_of_singleton. tauto.
  - intros d Hd. rewrite Hmem, V1. unfold bit. case_bool_decide as Hs.
    + assert (~ d ∈ P ++ n :: ready) by by apply Hpos. intuition lia.
    + rewrite Z.sub_0_r, K4 by done. tauto.
  - intros l1 d l2 E q Hq Hdq. destruct l2 as [|x l2] using rev_ind.
    + apply app_inj_tail in E as [-> ->]. by apply Hpreds.
    + rewrite app_comm_cons, app_assoc in E. apply app_inj_tail in E as [-> _]. by eapply (K5 l1 d l2).
Qed.

Lemma kahn_spec fuel m ready P :
  kahn_inv m ready P -> (length (nodes g) <= fuel + length P)%nat ->
  exists m' P', kahn fuel (heap g) m ready (length P) = Some (length P') /\ kahn_inv m' [] P'.
Proof.
  revert m ready P. induction fuel as [|fuel IH]; intros m ready P HK Hf; destruct ready as [|n ready]; cbn [kahn];
    try by exists m, P.
  - exfalso. pose proof (k_nodup _ _ _ HK) as Hnd.
    assert (length (P ++ n :: ready) <= length (nodes g))%nat.
    { apply submseteq_length, NoDup_submseteq; [done|]. apply HK. }
    rewrite length_app in H. simpl in H. lia.
  - pose proof (kahn_step _ _ _ _ HK) as HK'. simpl in HK'.
    destruct (IH _ _ _ HK') as (m' & P' & Hk & HP'); [rewrite length_app; simpl; lia|].
    exists m', P'. split; [|done]. rewrite <- Hk. f_equal. rewrite length_app. simpl. lia.
Qed.

Lemma indegrees_at d : d ∈ nodes g -> indeg_at (indegrees g) d = left_of (heap g) d.
Proof.
  unfold indegrees. assert (H : forall l m, indeg_at (foldl (fun m n => <[n := left_of (heap g) n]> m) m l) d =
    if decide (d ∈ l) then left_of (heap g) d else indeg_at m d).
  { induction l as [|x l IH]; intros m; cbn [foldl]; [by rewrite decide_False by (by apply not_elem_of_nil)|].
    rewrite IH. destruct (decide (d ∈ l)) as [Hl|Hl]; [by rewrite decide_True by (by right)|].
    unfold indeg_at. destruct (decide (x = d)) as [->|Hne].
    - rewrite lookup_insert_eq, decide_True by (by left). done.
    - rewrite lookup_insert_ne by done. rewrite decide_False; [done|]. intros [?|?]%elem_of_cons; congruence. }
  intros Hd. rewrite H. by rewrite decide_True.
Qed.

Lemma kahn_init : kahn_inv (indegrees g) (ready_nodes g (indegrees g)) [].
Proof.
  assert (Hr : forall d, d ∈ ready_nodes g (indegrees g) <-> indeg_at (indegrees g) d = 0 /\ d ∈ nodes g).
  { intros d. unfold ready_nodes. by rewrite elem_of_reverse, list_elem_of_filter. }
  constructor; cbn [app].
  - unfold ready_nodes. rewrite reverse_Permutation. apply NoDup_filter, Hb.
  - intros x Hx. by apply Hr in Hx as [_ ?].
  - intros d Hd. rewrite indegrees_at by done. unfold repeated.
    assert (E : refs (unprocessed []) d (nodes g) = refs (succs (heap g)) d (nodes g)); [|lia].
    apply refs_ext. intros n _. unfold unprocessed. rewrite decide_False; [done|apply not_elem_of_nil].
  - intros d Hd. rewrite Hr. tauto.
  - intros l1 d l2 E. by destruct l1.
Qed.

(** A node with a repeated dependency is left over. *)
Lemma all_counted m P : kahn_inv m [] P -> length P = length (nodes g) -> forall d, d ∈ nodes g -> repeated d = 0.
Proof.
  intros [K1 K2 K3 K4 K5] Hlen d Hd. rewrite app_nil_r in *.
  assert (HdP : d ∈ P).
  { assert (E : P ≡ₚ nodes g) by (apply submseteq_length_Permutation; [by apply NoDup_submseteq|lia]). by rewrite E. }
  apply K4 in HdP; [|done]. rewrite K3 in HdP by done. pose proof (repeated_nonneg d Hd).
  pose proof (refs_nonneg (unprocessed P) d (nodes g)). lia.
Qed.

(** What is left over when the queue runs dry contains no first node. *)
Lemma stuck_not_topological m P l :
  (forall d, d ∈ nodes g -> repeated d = 0) -> kahn_inv m [] P -> length P <> length (nodes g) -> l ≡ₚ nodes g -> topological g l -> False.
Proof.
  intros Hrep [K1 K2 K3 K4 K5] Hlen Hl Ht. rewrite app_nil_r in *.
  assert (Hex : exists x, x ∈ l /\ (x ∉ P)).
  { destruct (decide (Forall (fun x => x ∈ P) l)) as [Hf|Hf].
    - destruct Hlen. rewrite Forall_forall in Hf. apply Permutation_length, NoDup_Permutation; [done|apply Hb|].
      intros x. split; [apply K2|]. intros Hx. apply Hf. by rewrite Hl.
    - apply not_Forall_Exists in Hf; [|apply _]. apply Exists_exists in Hf as (x & ? & ?). eauto. }
  assert (Hfirst : exists l1 x l2, l = l1 ++ x :: l2 /\ (x ∉ P) /\ Forall (fun y => y ∈ P) l1).
  { clear -Hex. destruct Hex as (x & Hx & HxP). induction l as [|a l IH]; [by apply not_elem_of_nil in Hx|].
    destruct (decide (a ∈ P)) as [Ha|Ha].
    - destruct IH as (l1 & y & l2 & -> & ? & ?); [apply elem_of_cons in Hx as [->|?]; done|].
      exists (a :: l1), y, l2. split; [done|]. split; [done|]. by constructor.
    - exists [], a, l. done. }
  destruct Hfirst as (l1 & x & l2 & E & HxP & Hall).
  assert (Hx : x ∈ nodes g) by (rewrite <- Hl, E; apply elem_of_app; right; by left).
  assert (Hz : indeg_at m x <> 0) by (by rewrite K4).
  apply Hz. rewrite K3, Hrep by done. apply refs_zero. intros n Hn. unfold unprocessed. case_decide as Hd; [by apply not_elem_of_nil|].
  intros Hs. specialize (Ht l1 x l2 E n Hn Hs). rewrite Forall_forall in Hall. by destruct Hd; apply Hall.
Qed.
End Kahn.

Lemma has_cycle_built g : built g -> exists b, HasCycle g = Some b /\
  (b = false <-> (forall d, d ∈ nodes g -> repeated g d = 0) /\ exists l, l ≡ₚ nodes g /\ topological g l).
Proof.
  intros Hb. destruct (kahn_spec g Hb (S (length (nodes g))) _ _ [] (kahn_init g Hb)) as (m & P & Hk & HP); [simpl; lia|].
  unfold HasCycle. simpl in Hk |- *. rewrite Hk. simpl. eexists. split; [done|].
  rewrite negb_false_iff, Nat.eqb_eq. split.
  - intros Hlen. split; [by eapply all_counted|]. exists P. split; [|apply HP].
    pose proof (k_nodup _ _ _ _ HP) as Hnd. rewrite app_nil_r in Hnd.
    apply submseteq_length_Permutation; [|lia]. apply NoDup_submseteq; [done|].
    intros x Hx. apply (k_in _ _ _ _ HP). by rewrite app_nil_r.
  - intros (Hrep & l & Hl & Ht). destruct (decide (length P = length (nodes g))) as [|Hne]; [done|].
    exfalso. by eapply stuck_not_topological.
Qed.

Lemma has_cycle_spec g :
  wf g -> exists b, HasCycle g = Some b /\ (b = false <-> exists l, l ≡ₚ nodes g /\ topological g l).
Proof.
  intros Hwf. destruct (has_cycle_built g (wf_built g Hwf)) as (b & Hb & Hiff). exists b. split; [done|]. rewrite Hiff.
  split; [by intros [_ H]|]. intros H. split; [|done]. intros d Hd. unfold repeated. rewrite (wf_left g Hwf d Hd). lia.
Qed.

(** ** Running a graph *)

(** The nodes a thread has still to fire, and those whose dependents it is
    visiting. *)
Definition due_frame (f : frame) : list ptr := match f with Roots l => l | Finishing _ => [] end.
Definition fin_frame (f : frame) : option ptr := match f with Finishing n => Some n | Roots _ => None end.
Definition due (t : thread) : list ptr := option_list (firing t) ++ (stack t ≫= due_frame).
Definition dues (l : list thread) : list ptr := l ≫= due.
Definition fins (l : list thread) : list ptr := l ≫= (fun t => omap fin_frame (stack t)).

(** The node whose completion runs with the task. *)
Definition owner (s : state) (t : ptr) : option ptr :=
  match code_of s !! t with Some (OnTaskFinishedWrapper n) => Some n | _ => None end.
(** Fired nodes whose task has not run. *)
Definition waiting (s : state) : list ptr := omap (owner s) ((scheduled s).*2 ++ refused s) ++ unscheduled s.

(** The function the node's creator gave. *)
Definition work (g : dag) (n : ptr) : option code :=
  nd ← heap g !! n; if isGate nd then None else t ← task nd; tasks g !! t.

Definition td (s : state) (n : ptr) : list ptr := default [] (todo s !! n).

Definition is_ready (g : dag) (s : state) (d : ptr) : Prop :=
  match gateType <$> mem s !! d with
  | Some AND => left_of (mem s) d = 0
  | Some OR => left_of (heap g) d = 0 \/ exists n, n ∈ nodes g /\ d ∈ succs (heap g) n /\ (d ∉ td s n)
  | None => False
  end.

(** What [Fire] and the countdown leave alone. *)
Definition shape (n : node) : node := set_left 0 (set_submitted n None).

Lemma threads_insert (l : list thread) k t :
  l !! k = Some t -> exists rest,
    (forall d, d ∈ dues l <-> d ∈ due t \/ d ∈ dues rest) /\
    (forall t' d, d ∈ dues (<[k := t']> l) <-> d ∈ due t' \/ d ∈ dues rest) /\
    fins l ≡ₚ omap fin_frame (stack t) ++ fins rest /\
    (forall t', fins (<[k := t']> l) ≡ₚ omap fin_frame (stack t') ++ fins rest).
Proof.
  intros Hk. set (rest := take k l ++ drop (S k) l). exists rest.
  assert (E : l ≡ₚ t :: rest) by (unfold rest; rewrite Permutation_middle, take_drop_middle; done).
  assert (E' : forall t', <[k := t']> l ≡ₚ t' :: rest).
  { intros t'. unfold rest. rewrite Permutation_middle, insert_take_drop; [done|]. by eapply lookup_lt_Some. }
  unfold dues, fins. split_and!.
  - intros d. rewrite E. cbn. by rewrite elem_of_app.
  - intros t' d. rewrite E'. cbn. by rewrite elem_of_app.
  - by rewrite E.
  - intros t'. by rewrite E'.
Qed.

Section Run.
Context (g : dag) (Hwf : wf g).

Record inv (s : state) : Prop := {
  i_shape : forall n, shape <$> mem s !! n = shape <$> heap g !! n;
  i_sub : forall n nd, mem s !! n = Some nd -> submitted nd = bool_decide (n ∈ fired s);
  i_code : forall n nd t, mem s !! n = Some nd -> isGate nd = false -> task nd = Some t ->
    if submitted nd then code_of s !! t = Some (OnTaskFinishedWrapper n) /\ orig nd = tasks g !! t
    else code_of s !! t = tasks g !! t;
  i_task : forall t, t ∈ (scheduled s).*2 ++ refused s ->
    exists n nd, mem s !! n = Some nd /\ isGate nd = false /\ task nd = Some t /\ n ∈ fired s;
  i_todo : forall n, n ∈ nodes g -> is_Some (todo s !! n) /\ NoDup (td s n) /\
    (forall d, d ∈ td s n -> d ∈ succs (heap g) n) /\ (n ∉ finished s -> td s n = succs (heap g) n);
  i_left : forall d nd, mem s !! d = Some nd -> gateType nd = AND -> dependencies_left nd = refs (td s) d (nodes g);
  i_ready : forall d, d ∈ nodes g -> is_ready g s d <-> d ∈ fired s \/ d ∈ dues (threads s);
  i_dues : forall d, d ∈ dues (threads s) -> d ∈ nodes g;
  i_nodup : NoDup (fired s);
  i_in : forall d, d ∈ fired s -> d ∈ nodes g;
  i_fired : fired s ≡ₚ finished s ++ waiting s;
  i_fin : finished s ≡ₚ fins (threads s) ++ retired s;
  i_retired : forall n, n ∈ retired s -> td s n = [];
  i_ran : ran s = omap (work g) (finished s)
}.

Lemma inv_node s n : inv s -> n ∈ nodes g -> exists nd, mem s !! n = Some nd.
Proof.
  intros HI Hn. pose proof (i_shape s HI n) as H. apply (wf_dom g Hwf) in Hn as [nd0 Hn]. rewrite Hn in H.
  destruct (mem s !! n) eqn:E; [eauto|done].
Qed.

Lemma inv_static s n nd : inv s -> mem s !! n = Some nd -> n ∈ nodes g /\ exists nd0, heap g !! n = Some nd0 /\
  gateType nd0 = gateType nd /\ isGate nd0 = isGate nd /\ task nd0 = task nd.
Proof.
  intros HI Hn. pose proof (i_shape s HI n) as H. rewrite Hn in H. destruct (heap g !! n) as [nd0|] eqn:E; [|done].
  split; [apply (wf_dom g Hwf); rewrite E; by eexists|]. exists nd0. split; [done|].
  destruct nd, nd0. unfold shape, set_left, set_submitted in H. simpl in H. injection H as. by subst.
Qed.

(** A step that only moves the threads. *)
Lemma inv_control s ths :
  inv s -> fins ths ≡ₚ fins (threads s) ->
  (forall d, d ∈ dues ths -> d ∈ dues (threads s)) ->
  (forall d, d ∈ dues (threads s) -> d ∈ dues ths \/ d ∈ fired s) ->
  inv (mk_state (mem s) (code_of s) (todo s) ths (scheduled s) (refused s) (unscheduled s)
         (fired s) (finished s) (ran s) (retired s)).
Proof.
  intros [] Hf H1 H2. constructor; simpl; try done.
  - intros d Hd. change (is_ready g s d <-> d ∈ fired s \/ d ∈ dues ths). rewrite i_ready0 by done.
    specialize (H1 d). specialize (H2 d). tauto.
  - intros d Hd. apply i_dues0, H1, Hd.
  - by rewrite Hf.
Qed.

(** The moves of a thread that fires nothing new. *)
Lemma inv_move s k t t' :
  inv s -> threads s !! k = Some t ->
  omap fin_frame (stack t') = omap fin_frame (stack t) ->
  (forall d, d ∈ due t' -> d ∈ due t) ->
  (forall d, d ∈ due t -> d ∈ due t' \/ d ∈ fired s) ->
  inv (mk_state (mem s) (code_of s) (todo s) (<[k := t']> (threads s)) (scheduled s) (refused s) (unscheduled s)
         (fired s) (finished s) (ran s) (retired s)).
Proof.
  intros HI Hk Hf H1 H2. destruct (threads_insert _ _ _ Hk) as (rest & D & D' & F & F'). apply inv_control; [done| | |].
  - by rewrite F', F, Hf.
  - intros d. rewrite D', D. intros [?|?]; auto.
  - intros d. rewrite D', D. intros [?|?]; [|auto]. destruct (H2 d); auto.
Qed.

Lemma is_ready_mem s s' d :
  todo s' = todo s -> gateType <$> mem s' !! d = gateType <$> mem s !! d -> left_of (mem s') d = left_of (mem s) d ->
  is_ready g s' d <-> is_ready g s d.
Proof. intros Ht Hg Hl. unfold is_ready, td. by rewrite Ht, Hg, Hl. Qed.

(** [Fire]'s exchange: [d] is now fired. *)
Section Fired.
Context (s : state) (d : ptr) (nd : node).
Context (HI : inv s) (Hd : mem s !! d = Some nd) (Hsub : submitted nd = false).
Context (o : option code).
Let mem' := <[d := set_submitted nd o]> (mem s).

Lemma fired_shape n : shape <$> mem' !! n = shape <$> heap g !! n.
Proof.
  rewrite <- (i_shape s HI n). unfold mem'. destruct (decide (d = n)) as [->|Hne]; [|by rewrite lookup_insert_ne].
  by rewrite lookup_insert_eq, Hd.
Qed.
Lemma fired_fresh : d ∉ fired s.
Proof. pose proof (i_sub s HI d nd Hd) as H. rewrite Hsub in H. symmetry in H. by apply bool_decide_eq_false in H. Qed.
Lemma fired_sub n x : mem' !! n = Some x -> submitted x = bool_decide (n ∈ fired s ++ [d]).
Proof.
  unfold mem'. intros [[<- <-]|[Hne Hn]]%lookup_insert_Some; simpl.
  - symmetry. apply bool_decide_eq_true, elem_of_app. right. by left.
  - rewrite (i_sub s HI n x Hn). apply bool_decide_ext. rewrite elem_of_app, list_elem_of_singleton. intuition congruence.
Qed.
Lemma fired_left n x : mem' !! n = Some x -> gateType x = AND -> dependencies_left x = refs (td s) n (nodes g).
Proof.
  unfold mem'. intros [[<- <-]|[Hne Hn]]%lookup_insert_Some; simpl; intros; by eapply (i_left s HI).
Qed.
Lemma fired_ready n : gateType <$> mem' !! n = gateType <$> mem s !! n /\ left_of mem' n = left_of (mem s) n.
Proof.
  unfold mem', left_of. destruct (decide (d = n)) as [->|Hne]; [|by rewrite lookup_insert_ne].
  by rewrite lookup_insert_eq, Hd.
Qed.
Lemma fired_nodup : NoDup (fired s ++ [d]).
Proof.
  apply NoDup_app. split; [apply (i_nodup s HI)|]. split; [|apply NoDup_singleton].
  intros x Hx Hxd%list_elem_of_singleton. subst. by apply fired_fresh.
Qed.
Lemma fired_in x : x ∈ fired s ++ [d] -> x ∈ nodes g.
Proof.
  intros [?|Hx%list_elem_of_singleton]%elem_of_app; [by apply (i_in s HI)|]. subst. by apply (inv_static s d nd).
Qed.
Lemma fired_unfinished : d ∉ finished s.
Proof. intros H. apply fired_fresh. rewrite (i_fired s HI). apply elem_of_app. by left. Qed.
End Fired.

Lemma inv_fire_gate s k d nd st :
  inv s -> threads s !! k = Some (mk_thread (Some d) st) -> mem s !! d = Some nd ->
  submitted nd = false -> isGate nd = true ->
  inv (mk_state (<[d := set_submitted nd (orig nd)]> (mem s)) (code_of s) (todo s)
         (<[k := mk_thread None (Finishing d :: st)]> (threads s)) (scheduled s) (refused s) (unscheduled s)
         (fired s ++ [d]) (finished s ++ [d]) (ran s) (retired s)).
Proof.
  intros HI Hk Hd Hsub Hg. destruct (threads_insert _ _ _ Hk) as (rest & D & D' & F & F').
  constructor; simpl.
  - by apply fired_shape.
  - intros n x. by apply fired_sub.
  - intros n x t [[<- <-]|[Hne Hn]]%lookup_insert_Some; simpl; [congruence|]. by apply (i_code s HI n).
  - intros t Ht. destruct (i_task s HI t Ht) as (n & x & Hn & Hx1 & Hx2 & Hx3). exists n.
    assert (d <> n) by congruence. exists x. rewrite lookup_insert_ne by done. rewrite elem_of_app. auto.
  - intros n Hn. destruct (i_todo s HI n Hn) as (T1 & T2 & T3 & T4).
    split_and!; try done. intros Hnf. apply T4. intros ?. apply Hnf, elem_of_app. by left.
  - exact (fired_left s d nd HI Hd (orig nd)).
  - intros n Hn. destruct (fired_ready s d nd Hd (orig nd) n) as [F1 F2]. etrans; [by apply (is_ready_mem s)|].
    rewrite (i_ready s HI), D, D' by done. unfold due. simpl.
    rewrite !elem_of_app, elem_of_cons, list_elem_of_singleton. tauto.
  - intros n Hn. apply (i_dues s HI), D. apply D' in Hn. unfold due in *. simpl in *.
    destruct Hn; auto. left. by right.
  - by eapply fired_nodup.
  - by eapply fired_in.
  - unfold waiting. simpl. change (fired s ++ [d] ≡ₚ (finished s ++ [d]) ++ waiting s). rewrite (i_fired s HI). solve_Permutation.
  - rewrite F', (i_fin s HI), F. simpl. solve_Permutation.
  - by apply (i_retired s HI).
  - rewrite omap_app, (i_ran s HI). simpl. unfold work.
    destruct (inv_static s d nd HI Hd) as (_ & nd0 & -> & _ & Eg & _). simpl. by rewrite Eg, Hg, app_nil_r.
Qed.

(** The tasks of different nodes are different. *)
Lemma inv_task_inj s n n' nd nd' t :
  inv s -> mem s !! n = Some nd -> mem s !! n' = Some nd' -> task nd = Some t -> task nd' = Some t -> n = n'.
Proof.
  intros HI Hn Hn' Ht Ht'. destruct (inv_static s n nd HI Hn) as (_ & x & Hx & _ & _ & Ex).
  destruct (inv_static s n' nd' HI Hn') as (_ & x' & Hx' & _ & _ & Ex').
  apply (wf_tasks g Hwf n n' x x' t); congruence.
Qed.

Section FireTask.
Context (s : state) (d t : ptr) (nd : node) (c : code).
Context (HI : inv s) (Hd : mem s !! d = Some nd) (Hsub : submitted nd = false) (Hg : isGate nd = false).
Context (Ht : task nd = Some t) (Hc : code_of s !! t = Some c).
Let mem' := <[d := set_submitted nd (Some c)]> (mem s).
Let code' := <[t := OnTaskFinishedWrapper d]> (code_of s).

Lemma fire_code n x t' : mem' !! n = Some x -> isGate x = false -> task x = Some t' ->
  if submitted x then code' !! t' = Some (OnTaskFinishedWrapper n) /\ orig x = tasks g !! t'
  else code' !! t' = tasks g !! t'.
Proof.
  unfold mem', code'. intros [[<- <-]|[Hne Hn]]%lookup_insert_Some; simpl.
  - rewrite Ht. intros _ [= <-]. rewrite lookup_insert_eq. split; [done|].
    pose proof (i_code s HI d nd t Hd Hg Ht) as H. rewrite Hsub in H. congruence.
  - intros Hgx Htx. rewrite lookup_insert_ne; [by eapply i_code|]. intros <-. apply Hne. by apply (inv_task_inj s d n nd x t).
Qed.

Lemma fire_other t' : t' ∈ (scheduled s).*2 ++ refused s -> t' <> t.
Proof.
  intros H ->. destruct (i_task s HI t H) as (n & x & Hn & _ & Hx & Hf).
  assert (n = d) as -> by by apply (inv_task_inj s n d x nd t). by apply (fired_fresh s d nd HI Hd Hsub).
Qed.

Lemma fire_task_in t' : t' = t \/ t' ∈ (scheduled s).*2 ++ refused s ->
  exists n x, mem' !! n = Some x /\ isGate x = false /\ task x = Some t' /\ n ∈ fired s ++ [d].
Proof.
  intros [->|H].
  - exists d, (set_submitted nd (Some c)). unfold mem'. rewrite lookup_insert_eq, elem_of_app, list_elem_of_singleton. auto.
  - destruct (i_task s HI t' H) as (n & x & Hn & Hx1 & Hx2 & Hx3). exists n, x. unfold mem'.
    rewrite lookup_insert_ne, elem_of_app; [auto|]. intros <-. by apply (fired_fresh s d nd HI Hd Hsub).
Qed.

Lemma fire_waiting (l : list ptr) : (forall t', t' ∈ l -> t' <> t) ->
  omap (fun t => match code' !! t with Some (OnTaskFinishedWrapper n) => Some n | _ => None end) l = omap (owner s) l.
Proof.
  intros Hl. induction l as [|x l IH]; [done|]. cbn [omap list_omap].
  rewrite IH by (intros t' Ht'; apply Hl; by right). unfold owner at 2, code' at 1.
  by rewrite lookup_insert_ne by (symmetry; apply Hl; by left).
Qed.

(** What becomes of the task: handed over or refused, or nothing. *)
Definition disposed (sch : list (destination * ptr)) (ref uns : list ptr) : Prop :=
  (sch.*2 ++ ref ≡ₚ t :: (scheduled s).*2 ++ refused s /\ uns = unscheduled s) \/
  (sch = scheduled s /\ ref = refused s /\ uns = unscheduled s ++ [d]).

Lemma disposed_in sch ref uns t' :
  disposed sch ref uns -> t' ∈ sch.*2 ++ ref -> t' = t \/ t' ∈ (scheduled s).*2 ++ refused s.
Proof. intros [[HP _]|(-> & -> & _)] H; [|auto]. rewrite HP in H. by apply elem_of_cons in H. Qed.

Lemma disposed_waiting sch ref uns ths fi fn ra re :
  disposed sch ref uns ->
  waiting (mk_state mem' code' (todo s) ths sch ref uns fi fn ra re) ≡ₚ d :: waiting s.
Proof.
  assert (Hold := fire_waiting _ fire_other). unfold waiting. simpl.
  intros [[HP ->]|(-> & -> & ->)].
  - rewrite HP. simpl. unfold owner at 1. simpl. unfold code' at 1. rewrite lookup_insert_eq. simpl.
    constructor. apply Permutation_app; [|done]. by rewrite <- Hold.
  - rewrite <- Hold. rewrite app_assoc, (Permutation_app_comm _ [d]). done.
Qed.

Lemma inv_fire_task k st sch ref uns :
  threads s !! k = Some (mk_thread (Some d) st) -> disposed sch ref uns ->
  inv (mk_state mem' code' (todo s) (<[k := mk_thread None st]> (threads s)) sch ref uns
         (fired s ++ [d]) (finished s) (ran s) (retired s)).
Proof.
  intros Hk HD. destruct (threads_insert _ _ _ Hk) as (rest & D & D' & F & F').
  constructor; simpl.
  - by apply fired_shape.
  - intros n x. by apply fired_sub.
  - apply fire_code.
  - intros t' H. by apply fire_task_in, (disposed_in _ _ _ _ HD).
  - apply (i_todo s HI).
  - exact (fired_left s d nd HI Hd (Some c)).
  - intros n Hn. destruct (fired_ready s d nd Hd (Some c) n) as [F1 F2]. etrans; [by apply (is_ready_mem s)|].
    rewrite (i_ready s HI), D, D' by done. unfold due. simpl.
    rewrite !elem_of_app, elem_of_cons, list_elem_of_singleton. tauto.
  - intros n Hn. apply (i_dues s HI), D. apply D' in Hn. unfold due in *. simpl in *.
    destruct Hn; auto. left. by right.
  - by eapply fired_nodup.
  - by eapply fired_in.
  - rewrite (disposed_waiting _ _ _ _ _ _ _ _ HD), (i_fired s HI). solve_Permutation.
  - rewrite F', (i_fin s HI), F. simpl. solve_Permutation.
  - apply (i_retired s HI).
  - apply (i_ran s HI).
Qed.
End FireTask.
(** One dependent of the loop in [OnTaskFinished]. *)
Section Visit.
Context (s : state) (k : nat) (n d : ptr) (ds : list ptr) (st : list frame) (nd : node).
Context (HI : inv s) (Hk : threads s !! k = Some (mk_thread None (Finishing n :: st))).
Context (Htd : todo s !! n = Some (d :: ds)) (Hd : mem s !! d = Some nd).
Let x := dependencies_left nd - 1.
Let mem' := match gateType nd with OR => mem s | AND => <[d := set_left x nd]> (mem s) end.
Let ready := match gateType nd with OR => true | AND => x =? 0 end.
Let td' := fun m => default [] (<[n := ds]> (todo s) !! m).

Lemma visit_n : n ∈ finished s /\ n ∈ nodes g.
Proof.
  destruct (threads_insert _ _ _ Hk) as (rest & D & D' & F & F').
  assert (Hf : n ∈ finished s) by (rewrite (i_fin s HI), F; simpl; by left).
  split; [done|]. apply (i_in s HI). rewrite (i_fired s HI). apply elem_of_app. by left.
Qed.

Lemma visit_list : NoDup (d :: ds) /\ (forall y, y ∈ d :: ds -> y ∈ succs (heap g) n).
Proof.
  destruct (i_todo s HI n (proj2 visit_n)) as (_ & H2 & H3 & _). unfold td in H2, H3. by rewrite Htd in H2, H3.
Qed.

Lemma visit_td_n : td' n = ds /\ td s n = d :: ds.
Proof. unfold td', td. by rewrite lookup_insert_eq, Htd. Qed.
Lemma visit_td_ne m : m <> n -> td' m = td s m.
Proof. intros H. unfold td', td. by rewrite lookup_insert_ne. Qed.
Lemma visit_notin : d ∉ td' n.
Proof. destruct visit_list as [H _]. rewrite (proj1 visit_td_n). by inversion H. Qed.
Lemma visit_td_other m e : e <> d -> e ∈ td' m <-> e ∈ td s m.
Proof.
  intros H. destruct (decide (m = n)) as [->|Hm]; [|by rewrite visit_td_ne].
  destruct visit_td_n as [-> ->]. rewrite elem_of_cons. intuition.
Qed.

Lemma visit_refs e : refs td' e (nodes g) = refs (td s) e (nodes g) - bit (bool_decide (e = d)).
Proof.
  rewrite (refs_update (td s) td' e (nodes g) n (wf_nodup g Hwf) (proj2 visit_n)) by apply visit_td_ne.
  unfold bit. case_bool_decide as H1; case_bool_decide as H2; case_bool_decide as H3; subst; try lia; exfalso.
  all: first [by apply visit_notin|by apply H1, visit_td_other|by apply H2, visit_td_other
             |apply H1; rewrite (proj2 visit_td_n); by left].
Qed.

Lemma visit_lookup e y : mem' !! e = Some y -> exists y0, mem s !! e = Some y0 /\ shape y = shape y0 /\
  gateType y = gateType y0 /\ isGate y = isGate y0 /\ task y = task y0 /\ submitted y = submitted y0 /\ orig y = orig y0 /\
  (gateType y = AND -> dependencies_left y = dependencies_left y0 - bit (bool_decide (e = d))).
Proof.
  unfold mem'. destruct (gateType nd) eqn:Eg.
  - intros [[<- <-]|[Hne He]]%lookup_insert_Some.
    + exists nd. rewrite bool_decide_eq_true_2 by done. done.
    + exists y. rewrite bool_decide_eq_false_2 by done. split_and!; try done. simpl. lia.
  - intros He. exists y. split_and!; try done. case_bool_decide; [subst|simpl; lia]. congruence.
Qed.

Lemma visit_other e : e <> d -> mem' !! e = mem s !! e.
Proof. intros H. unfold mem'. destruct (gateType nd); [by rewrite lookup_insert_ne|done]. Qed.

Lemma visit_shape e : shape <$> mem' !! e = shape <$> heap g !! e.
Proof.
  rewrite <- (i_shape s HI e). destruct (decide (e = d)) as [->|He]; [|by rewrite visit_other].
  unfold mem'. destruct (gateType nd); [|done]. by rewrite lookup_insert_eq, Hd.
Qed.

(** Before the visit an AND dependent is not ready; after it [d] is exactly when
    the thread goes on to fire it. *)
Lemma visit_unready : gateType nd = AND -> dependencies_left nd <> 0.
Proof.
  intros Ea H0.
  rewrite (i_left s HI d nd Hd Ea) in H0. apply (proj1 (refs_zero _ _ _) H0 n (proj2 visit_n)).
  rewrite (proj2 visit_td_n). by left.
Qed.

Lemma visit_ready y ths :
  is_ready g (mk_state mem' (code_of s) (<[n := ds]> (todo s)) ths (scheduled s) (refused s) (unscheduled s)
    (fired s) (finished s) (ran s) (retired s)) y <->
  is_ready g s y \/ (y = d /\ ready = true).
Proof.
  unfold is_ready. simpl. destruct (decide (y = d)) as [->|Hy].
  - unfold left_of, mem', ready. rewrite Hd. simpl.
    destruct (gateType nd) eqn:Eg.
    + rewrite lookup_insert_eq. simpl. rewrite Eg. pose proof (visit_unready Eg). rewrite Z.eqb_eq. intuition.
    + rewrite Hd. simpl. rewrite Eg. split; [auto|]. intros _. right. exists n.
      split; [apply visit_n|]. split; [apply visit_list; by left|apply visit_notin].
  - assert (Hm : mem' !! y = mem s !! y) by by apply visit_other.
    unfold left_of. rewrite Hm. destruct (gateType <$> mem s !! y) as [[]|]; [| |tauto].
    + split; [auto|]. by intros [?|[? _]].
    + split.
      * intros [?|(m & H1 & H2 & H3)]; [by left; left|]. left. right. exists m. split_and!; try done.
        intros H. apply H3. by apply visit_td_other.
      * intros [[?|(m & H1 & H2 & H3)]|[? _]]; [by left| |done]. right. exists m. split_and!; try done.
        intros H. apply H3. by apply visit_td_other in H.
Qed.

Lemma inv_visit :
  inv (mk_state mem' (code_of s) (<[n := ds]> (todo s))
         (<[k := mk_thread (if ready then Some d else None) (Finishing n :: st)]> (threads s))
         (scheduled s) (refused s) (unscheduled s) (fired s) (finished s) (ran s) (retired s)).
Proof.
  destruct (threads_insert _ _ _ Hk) as (rest & D & D' & F & F').
  assert (Hd_in : d ∈ nodes g) by (eapply wf_succ; [done|]; apply visit_list; by left).
  constructor; simpl.
  - apply visit_shape.
  - intros e y (y0 & H0 & _ & _ & _ & _ & -> & _)%visit_lookup. by apply (i_sub s HI).
  - intros e y t (y0 & H0 & _ & _ & -> & -> & -> & -> & _)%visit_lookup. by apply (i_code s HI).
  - intros t Ht. destruct (i_task s HI t Ht) as (m & y & Hm & Hy). destruct (decide (m = d)) as [->|Hne].
    + exists d. unfold mem'. rewrite Hd in Hm. injection Hm as <-.
      destruct (gateType nd); [rewrite lookup_insert_eq|rewrite Hd]; eauto.
    + exists m, y. by rewrite visit_other.
  - intros m Hm. destruct (i_todo s HI m Hm) as (T1 & T2 & T3 & T4). destruct (decide (m = n)) as [->|Hne].
    + destruct visit_list as [L1 L2]. inversion L1; subst. unfold td. simpl. rewrite lookup_insert_eq. simpl.
      split_and!; [by eexists|done|intros y Hy; apply L2; by right|]. intros Hno. by destruct Hno; apply visit_n.
    + unfold td. simpl. by rewrite lookup_insert_ne.
  - intros e y He Hg. apply visit_lookup in He as (y0 & H0 & _ & Eg & _ & _ & _ & _ & El).
    rewrite (El Hg), (i_left s HI e y0 H0) by congruence. symmetry. apply visit_refs.
  - intros y Hy. etrans; [by apply visit_ready|]. rewrite (i_ready s HI), D, D' by done.
    unfold due. simpl. rewrite elem_of_app. destruct ready; simpl; rewrite ?list_elem_of_singleton, ?elem_of_nil; intuition done.
  - intros y Hy%D'. unfold due in Hy. simpl in Hy. rewrite elem_of_app in Hy.
    destruct Hy as [[Hy|Hy]|Hy].
    + destruct ready; simpl in Hy; [by apply list_elem_of_singleton in Hy as ->|by apply not_elem_of_nil in Hy].
    + apply (i_dues s HI), D. left. apply elem_of_app. by right.
    + apply (i_dues s HI), D. by right.
  - apply (i_nodup s HI).
  - apply (i_in s HI).
  - apply (i_fired s HI).
  - rewrite F', (i_fin s HI), F. done.
  - intros m Hm. pose proof (i_retired s HI m Hm) as H. unfold td in *. simpl.
    rewrite lookup_insert_ne; [done|]. intros <-. by rewrite Htd in H.
  - apply (i_ran s HI).
Qed.
End Visit.

(** The end of the loop: the node is retired. *)
Lemma dag_inv_finish s k n st :
  inv s -> threads s !! k = Some (mk_thread None (Finishing n :: st)) -> todo s !! n = Some [] ->
  inv (mk_state (mem s) (code_of s) (todo s) (<[k := mk_thread None st]> (threads s)) (scheduled s)
         (refused s) (unscheduled s) (fired s) (finished s) (ran s) (retired s ++ [n])).
Proof.
  intros HI Hk Htd. destruct (threads_insert _ _ _ Hk) as (rest & D & D' & F & F').
  constructor; simpl; try apply HI.
  - intros y Hy. etrans; [by apply (is_ready_mem s)|]. rewrite (i_ready s HI), D, D' by done. done.
  - intros y Hy. apply (i_dues s HI), D. by apply D' in Hy.
  - rewrite F', (i_fin s HI), F. simpl. solve_Permutation.
  - intros m [Hm|Hm%list_elem_of_singleton]%elem_of_app; [by apply (i_retired s HI)|]. subst.
    unfold td. simpl. by rewrite Htd.
Qed.

(** A worker runs a task of the graph. *)
Lemma scheduled_owner s t :
  inv s -> t ∈ (scheduled s).*2 ++ refused s -> exists n nd f x,
    mem s !! n = Some nd /\ code_of s !! t = Some (OnTaskFinishedWrapper n) /\ orig nd = Some (Own f x) /\
    work g n = Some (Own f x) /\ n ∈ fired s.
Proof.
  intros HI Ht. destruct (i_task s HI t Ht) as (n & nd & Hn & Hg & Htask & Hf).
  pose proof (i_code s HI n nd t Hn Hg Htask) as Hc. rewrite (i_sub s HI n nd Hn), bool_decide_eq_true_2 in Hc by done.
  destruct (inv_static s n nd HI Hn) as (_ & nd0 & H0 & _ & Eg & Et).
  destruct (wf_task g Hwf n nd0 H0) as (t' & f & x & Ht' & Hw); [congruence|].
  assert (t' = t) as -> by congruence. exists n, nd, f, x. destruct Hc as [Hc1 Hc2]. split_and!; try done; [congruence|].
  unfold work. rewrite H0. simpl. rewrite Eg, Hg, Ht'. done.
Qed.

Lemma waiting_delete s j r t n :
  scheduled s !! j = Some (r, t) -> owner s t = Some n ->
  waiting s ≡ₚ n :: omap (owner s) ((delete j (scheduled s)).*2 ++ refused s) ++ unscheduled s.
Proof.
  intros Hj Ho. unfold waiting. rewrite (delete_Permutation _ _ _ Hj) at 1. cbn. by rewrite Ho.
Qed.

Lemma inv_run_task s j r t n nd o :
  inv s -> scheduled s !! j = Some (r, t) -> code_of s !! t = Some (OnTaskFinishedWrapper n) ->
  mem s !! n = Some nd -> orig nd = Some o -> work g n = Some o ->
  inv (mk_state (mem s) (code_of s) (todo s) (threads s ++ [mk_thread None [Finishing n]]) (delete j (scheduled s))
         (refused s) (unscheduled s) (fired s) (finished s ++ [n]) (ran s ++ [o]) (retired s)).
Proof.
  intros HI Hj Hc Hn Ho Hw.
  assert (Hown : owner s t = Some n) by (unfold owner; by rewrite Hc).
  assert (Hdues : forall d, d ∈ dues (threads s ++ [mk_thread None [Finishing n]]) <-> d ∈ dues (threads s)).
  { intros d. unfold dues. rewrite bind_app, elem_of_app. cbn. rewrite elem_of_nil. tauto. }
  constructor; simpl; try apply HI.
  - intros t' Ht'. apply (i_task s HI). rewrite elem_of_app in *. destruct Ht' as [Ht'|]; [|auto]. left.
    apply list_elem_of_fmap in Ht' as (y & -> & Hy). apply list_elem_of_fmap. exists y. split; [done|].
    eapply elem_of_submseteq; [exact Hy|]. apply submseteq_delete.
  - intros m Hm. destruct (i_todo s HI m Hm) as (T1 & T2 & T3 & T4). split_and!; try done.
    intros Hnf. apply T4. intros ?. apply Hnf, elem_of_app. by left.
  - intros d Hd. etrans; [by apply (is_ready_mem s)|]. rewrite (i_ready s HI), Hdues by done. done.
  - intros d Hd. apply (i_dues s HI). by apply Hdues.
  - change (waiting (mk_state _ _ _ _ _ _ _ _ _ _ _)) with
      (omap (owner s) ((delete j (scheduled s)).*2 ++ refused s) ++ unscheduled s).
    rewrite (i_fired s HI), (waiting_delete s j r t n Hj Hown). solve_Permutation.
  - unfold fins. rewrite bind_app. cbn. change (threads s ≫= _) with (fins (threads s)). rewrite (i_fin s HI). solve_Permutation.
  - rewrite omap_app, (i_ran s HI). cbn. by rewrite Hw.
Qed.

Lemma dag_inv_start s0 : Submit g = Some (Running s0) -> inv s0.
Proof.
  unfold Submit. destruct (HasCycle g) as [[]|]; simpl; try done. intros [= <-].
  assert (Htd : forall n, n ∈ nodes g -> todo_of g !! n = Some (succs (heap g) n)).
  { intros n Hn. apply elem_of_list_to_map.
    - rewrite <- list_fmap_compose. unfold compose. simpl. rewrite list_fmap_id. apply (wf_nodup g Hwf).
    - apply list_elem_of_fmap. by exists n. }
  constructor; simpl; try done; try by intros ? ?%not_elem_of_nil.
  - intros n nd Hn. by rewrite (wf_new g Hwf n nd Hn).
  - intros n nd t Hn Hgt Ht. by rewrite (wf_new g Hwf n nd Hn).
  - intros n Hn. unfold td. simpl. rewrite Htd by done. simpl.
    split_and!; [by eexists|apply (wf_succ_nodup g Hwf)|done|done].
  - intros d nd Hd Ha. pose proof (wf_left g Hwf d) as Hl. unfold left_of in Hl. rewrite Hd in Hl. rewrite Hl.
    + apply refs_ext. intros n Hn. unfold td. simpl. by rewrite Htd.
    + apply (wf_dom g Hwf). rewrite Hd. by eexists.
  - intros d Hd. unfold is_ready, dues, due, roots. simpl. rewrite !app_nil_r, list_elem_of_filter, elem_of_nil.
    pose proof Hd as Hd'. apply (wf_dom g Hwf) in Hd' as [nd E]. rewrite E. simpl. destruct (gateType nd); [tauto|].
    split; [intros [?|(n & Hn & Hs & Hno)]|tauto]; [tauto|]. destruct Hno. unfold td. simpl. by rewrite Htd.
  - intros d. unfold dues, due, roots. simpl. rewrite !app_nil_r. by intros [_ ?]%list_elem_of_filter.
  - constructor.
Qed.

Lemma inv_Fire s s' k d st accept :
  inv s -> threads s !! k = Some (mk_thread (Some d) st) -> Fire s k d st accept = Some s' -> inv s'.
Proof.
  intros HI Hk. unfold Fire. destruct (mem s !! d) as [nd|] eqn:Hd; [|done]. simpl.
  destruct (submitted nd) eqn:Hsub.
  - intros [= <-]. eapply inv_move; [done|done|done| |]; unfold due; simpl.
    + intros y Hy. by right.
    + intros y [->|Hy]%elem_of_cons; [right|by left]. pose proof (i_sub s HI d nd Hd) as H. rewrite Hsub in H.
      symmetry in H. by apply bool_decide_eq_true in H.
  - destruct (isGate nd) eqn:Hg.
    + intros [= <-]. by eapply inv_fire_gate.
    + destruct (task nd) as [t|] eqn:Ht; [|done]. simpl. destruct (code_of s !! t) as [c|] eqn:Hc; [|done]. simpl.
      intros [= <-]. repeat case_match; (eapply inv_fire_task; [done..|]); unfold disposed; rewrite ?fmap_app; simpl;
        first [by right|left; split; [solve_Permutation|done]].
Qed.

Lemma dag_inv_step a s s' : inv s -> exec a s = Some s' -> inv s'.
Proof.
  intros HI. destruct a as [k accept|j]; simpl.
  - unfold thread_step. destruct (threads s !! k) as [[[d|] st]|] eqn:Hk; [| |done]; simpl; [by apply inv_Fire|].
    destruct st as [|[[|r rs]|n] st]; [done| | |].
    + intros [= <-]. by eapply inv_move; [done|done|done| |]; unfold due; simpl; auto.
    + intros [= <-]. eapply inv_move; [done|done|done| |]; unfold due; cbn; intros y; rewrite ?elem_of_cons, ?elem_of_app; tauto.
    + unfold OnTaskFinished. destruct (todo s !! n) as [[|d ds]|] eqn:Htd; [| |done].
      * intros [= <-]. by apply dag_inv_finish.
      * destruct (mem s !! d) as [nd|] eqn:Hd; [|done]. cbn. pose proof (inv_visit s k n d ds st nd HI Hk Htd Hd) as HV.
        by destruct (gateType nd); intros [= <-].
  - destruct (scheduled s !! j) as [[r t]|] eqn:Hj; [|done]. cbn.
    destruct (scheduled_owner s t HI) as (n & nd & f & x & Hn & Hc & Ho & Hw & _).
    { apply elem_of_app. left. apply list_elem_of_fmap. exists (r, t). split; [done|]. by eapply list_elem_of_lookup_2. }
    rewrite Hc. cbn. rewrite Hn. cbn. rewrite Ho. cbn. intros [= <-]. by eapply inv_run_task.
Qed.

Lemma dag_inv_run s0 l s : Submit g = Some (Running s0) -> run exec l s0 = Some s -> inv s.
Proof.
  intros H0 Hl. apply (reaches_invariant exec inv s0); [by intros; eapply dag_inv_step|by apply dag_inv_start|by exists l].
Qed.

(** *** No thread is stuck *)

Lemma idle_or_enabled s k t :
  inv s -> threads s !! k = Some t -> firing t = None /\ stack t = [] \/ is_Some (thread_step s k true).
Proof.
  intros HI Hk. destruct (threads_insert _ _ _ Hk) as (rest & D & _ & F & _). unfold thread_step. rewrite Hk. simpl.
  destruct t as [[d|] st]; simpl in *.
  - right. assert (Hdn : d ∈ nodes g) by (apply (i_dues s HI), D; left; by left).
    destruct (inv_node s d HI Hdn) as [nd Hd]. unfold Fire. rewrite Hd. simpl.
    destruct (submitted nd) eqn:Hsub; [by eexists|]. destruct (isGate nd) eqn:Hg; [by eexists|].
    destruct (inv_static s d nd HI Hd) as (_ & nd0 & H0 & _ & Eg & Et).
    destruct (wf_task g Hwf d nd0 H0) as (t & f & x & Ht & Hw); [congruence|]. rewrite <- Et, Ht. simpl.
    pose proof (i_code s HI d nd t Hd Hg) as Hc. rewrite Hsub in Hc. rewrite Hc, Hw by congruence. by eexists.
  - destruct st as [|[[|r rs]|n] st]; [by left|right; by eexists..|right].
    unfold OnTaskFinished. assert (Hn : n ∈ nodes g).
    { apply (i_in s HI). rewrite (i_fired s HI), (i_fin s HI), F. simpl. by left. }
    destruct (i_todo s HI n Hn) as ([[|d ds] E] & _ & Hs & _); rewrite E; [by eexists|].
    assert (Hd : d ∈ nodes g) by (eapply wf_succ; [done|]; apply Hs; unfold td; rewrite E; by left).
    destruct (inv_node s d HI Hd) as [nd ->]. simpl. by destruct (gateType nd); eexists.
Qed.

Lemma task_enabled s x : inv s -> scheduled s !! 0%nat = Some x -> is_Some (exec (RunTask 0) s).
Proof.
  intros HI Hx. simpl. rewrite Hx. cbn. destruct (scheduled_owner s x.2 HI) as (n & nd & f & y & Hn & Hc & Ho & _).
  { apply elem_of_app. left. apply list_elem_of_fmap. exists x. split; [done|]. by eapply list_elem_of_lookup_2. }
  rewrite Hc. cbn. rewrite Hn. cbn. rewrite Ho. by eexists.
Qed.

Lemma no_action_quiet s : inv s -> (forall a, exec a s = None) -> quiet s.
Proof.
  intros HI Hno. split.
  - destruct (scheduled s) as [|x l] eqn:E; [done|]. destruct (task_enabled s x HI) as [s' Hs']; [by rewrite E|].
    by rewrite Hno in Hs'.
  - apply Forall_lookup_2. intros k t Hk. destruct (idle_or_enabled s k t HI Hk) as [?|[s' Hs']]; [done|].
    specialize (Hno (Step k true)). simpl in Hno. congruence.
Qed.

(** *** Every interleaving is finite *)

Definition frame_work (f : frame) : nat := match f with Roots l => S (2 * length l) | Finishing _ => 1 end.
Definition thread_work (t : thread) : nat := length (option_list (firing t)) + sum_list (frame_work <$> stack t).
Definition edges (s : state) : nat := sum_list ((fun n => length (td s n)) <$> nodes g).
Definition work_left (s : state) : nat :=
  sum_list (thread_work <$> threads s) + 2 * length (scheduled s) + 2 * edges s + 3 * (length (nodes g) - length (fired s)).

Lemma thread_work_insert l k t t' :
  l !! k = Some t ->
  (sum_list (thread_work <$> <[k := t']> l) + thread_work t = sum_list (thread_work <$> l) + thread_work t')%nat.
Proof.
  revert k. induction l as [|y l IH]; intros [|k] H; simpl in H; try done.
  - injection H as ->. cbn. lia.
  - specialize (IH _ H). change (<[S k := t']> (y :: l)) with (y :: <[k := t']> l).
    rewrite !fmap_cons. cbn [sum_list_with]. lia.
Qed.

Lemma fired_bound s : inv s -> (length (fired s) <= length (nodes g))%nat.
Proof. intros HI. apply submseteq_length, NoDup_submseteq; [apply (i_nodup s HI)|apply (i_in s HI)]. Qed.

Lemma sum_list_change {X} (f f' : X -> nat) (l : list X) x :
  NoDup l -> x ∈ l -> (forall y, y <> x -> f' y = f y) ->
  (sum_list (f' <$> l) + f x = sum_list (f <$> l) + f' x)%nat.
Proof.
  induction l as [|y l IH]; intros Hnd Hx Hf; [by apply not_elem_of_nil in Hx|].
  inversion Hnd as [|? ? Hy Hnd']; subst. cbn. apply elem_of_cons in Hx as [->|Hx].
  - assert (f' <$> l = f <$> l) as ->; [|lia]. apply list_fmap_ext. intros i z Hz. apply Hf. intros ->.
    apply Hy. by eapply list_elem_of_lookup_2.
  - specialize (IH Hnd' Hx Hf). assert (f' y = f y) by (apply Hf; by intros ->). cbn in IH. lia.
Qed.

Lemma edges_visit s n d ds s' :
  n ∈ nodes g -> todo s !! n = Some (d :: ds) -> todo s' = <[n := ds]> (todo s) -> (edges s' + 1 = edges s)%nat.
Proof.
  intros Hn E E'. unfold edges, td. rewrite E'.
  pose proof (sum_list_change (fun n => length (default [] (todo s !! n)))
    (fun m => length (default [] (<[n := ds]> (todo s) !! m))) (nodes g) n (wf_nodup g Hwf) Hn) as H.
  cbv beta in H. rewrite lookup_insert_eq, E in H. simpl in H. specialize (H ltac:(intros y Hy; by rewrite lookup_insert_ne)). lia.
Qed.

Lemma edges_same s s' : todo s' = todo s -> edges s' = edges s.
Proof. intros E. unfold edges, td. by rewrite E. Qed.

Lemma work_lt s s' k t t' :
  inv s' -> threads s !! k = Some t -> threads s' = <[k := t']> (threads s) ->
  (length (fired s) <= length (fired s'))%nat ->
  (thread_work t' + 2 * length (scheduled s') + 2 * edges s' + 3 * length (fired s) <
   thread_work t + 2 * length (scheduled s) + 2 * edges s + 3 * length (fired s'))%nat ->
  (work_left s' < work_left s)%nat.
Proof.
  intros HI Hk Ht Hf Hlt. pose proof (fired_bound s' HI). pose proof (thread_work_insert _ _ _ t' Hk).
  unfold work_left. rewrite Ht. lia.
Qed.

Lemma work_Fire s s' k d st accept :
  inv s -> threads s !! k = Some (mk_thread (Some d) st) -> Fire s k d st accept = Some s' -> (work_left s' < work_left s)%nat.
Proof.
  intros HI Hk HF. pose proof (inv_Fire s s' k d st accept HI Hk HF) as HI'. revert HF. unfold Fire.
  destruct (mem s !! d) as [nd|] eqn:Hd; [|done]. simpl. destruct (submitted nd).
  { intros [= <-]. eapply work_lt; [done|done|done|done|]. rewrite (edges_same s) by done. unfold thread_work. cbn. lia. }
  destruct (isGate nd).
  { intros [= <-]. eapply work_lt; [done|done|done|cbn; rewrite length_app; lia|].
    rewrite (edges_same s) by done. cbn. rewrite length_app. unfold thread_work. cbn. lia. }
  destruct (task nd) as [t|]; [|done]. simpl. destruct (code_of s !! t) as [c|]; [|done]. simpl.
  intros [= <-]. repeat case_match; (eapply work_lt; [done|done|done|cbn; rewrite length_app; lia|]);
    rewrite (edges_same s) by done; cbn; rewrite ?length_app; unfold thread_work; cbn; lia.
Qed.

Lemma work_step a s s' : inv s -> exec a s = Some s' -> (work_left s' < work_left s)%nat.
Proof.
  intros HI He. pose proof (dag_inv_step a s s' HI He) as HI'. revert He. destruct a as [k accept|j]; simpl.
  - unfold thread_step. destruct (threads s !! k) as [[[d|] st]|] eqn:Hk; [| |done]; simpl; [by apply work_Fire|].
    destruct st as [|[[|r rs]|n] st]; [done| | |].
    1,2: intros [= <-]; (eapply work_lt; [done|done|done|done|]); rewrite (edges_same s) by done; unfold thread_work; cbn; lia.
    unfold OnTaskFinished. destruct (todo s !! n) as [[|d ds]|] eqn:Htd; [| |done].
    + intros [= <-]. eapply work_lt; [done|done|done|done|]. rewrite (edges_same s) by done. unfold thread_work. cbn. lia.
    + destruct (mem s !! d) as [nd|] eqn:Hd; [|done]. cbn.
      destruct (visit_n s k n st HI Hk) as [_ Hn].
      destruct (gateType nd); intros [= <-]; (eapply work_lt; [done|done|done|done|]);
        match goal with |- context [edges (mk_state ?a ?b ?c ?d ?e ?f ?g ?h ?i ?j ?k)] =>
          pose proof (edges_visit s n _ ds (mk_state a b c d e f g h i j k) Hn Htd eq_refl) end;
        unfold thread_work; cbn in *; repeat case_match; cbn; lia.
  - destruct (scheduled s !! j) as [[r t]|] eqn:Hj; [|done]. cbn.
    assert (Hlen : length (scheduled s) = S (length (delete j (scheduled s)))).
    { pose proof (length_delete (scheduled s) j) as H. pose proof (lookup_lt_Some _ _ _ Hj). rewrite H by done. lia. }
    destruct (code_of s !! t) as [[f x|n]|]; [| |done]; cbn.
    + intros [= <-]. unfold work_left. cbn. rewrite (edges_same s) by done. lia.
    + destruct (mem s !! n) as [nd|]; [|done]. cbn. destruct (orig nd); [|done]. cbn. intros [= <-].
      unfold work_left. cbn. rewrite (edges_same s), fmap_app by done. rewrite sum_list_with_app. cbn. lia.
Qed.

Lemma work_run l s s' : inv s -> run exec l s = Some s' -> (length l + work_left s' <= work_left s)%nat.
Proof.
  revert s. induction l as [|a l IH]; intros s HI Hl; simpl in Hl.
  - injection Hl as ->. simpl. lia.
  - destruct (exec a s) as [s1|] eqn:E; [|done]. simpl in Hl. pose proof (work_step a s s1 HI E).
    specialize (IH s1 (dag_inv_step a s s1 HI E) Hl). simpl. lia.
Qed.
End Run.

(** *** What a run does *)

(** The number of dependencies recorded in the graph. *)
Definition edge_count (g : dag) : nat := sum_list ((fun n => length (succs (heap g) n)) <$> nodes g).

Lemma work_start g s0 : wf g -> Submit g = Some (Running s0) ->
  work_left g s0 = (1 + 2 * length (roots g) + 2 * edge_count g + 3 * length (nodes g))%nat.
Proof.
  intros Hwf H0. pose proof (dag_inv_start g Hwf s0 H0) as HI. revert H0. unfold Submit.
  destruct (HasCycle g) as [[]|]; simpl; try done. intros [= <-].
  assert (He : edges g (mk_state (heap g) (tasks g) (todo_of g) [mk_thread None [Roots (roots g)]] [] [] [] [] [] [] []) = edge_count g).
  { unfold edges, edge_count. f_equal. apply list_fmap_ext. intros i n Hn. f_equal.
    eapply (i_todo g _ HI); [by eapply list_elem_of_lookup_2|]. by apply not_elem_of_nil. }
  unfold work_left. rewrite He. cbn. lia.
Qed.

(** When everything has come to rest, a node is ready once all its dependencies
    have fired. *)
Lemma ready_after_deps g s d :
  inv g s -> wf g -> d ∈ nodes g -> (forall n, n ∈ fired s -> td s n = []) ->
  (forall n, n ∈ nodes g -> d ∈ succs (heap g) n -> n ∈ fired s) -> is_ready g s d.
Proof.
  intros HI Hwf Hd Hdone Hdeps. destruct (inv_node g Hwf s d HI Hd) as [nd Hnd]. unfold is_ready. rewrite Hnd. simpl.
  assert (Hno : forall n, n ∈ nodes g -> d ∉ td s n).
  { intros n Hn Hdn. destruct (i_todo g s HI n Hn) as (_ & _ & Hs & _).
    rewrite (Hdone n (Hdeps n Hn (Hs d Hdn))) in Hdn. by apply not_elem_of_nil in Hdn. }
  destruct (gateType nd) eqn:Eg.
  - unfold left_of. rewrite Hnd, (i_left g s HI d nd Hnd Eg). by apply refs_zero.
  - destruct (decide (left_of (heap g) d = 0)) as [|Hne]; [by left|right].
    destruct (decide (Exists (fun n => d ∈ succs (heap g) n) (nodes g))) as [(n & Hn & Hs)%Exists_exists|Hnot].
    + exists n. auto.
    + destruct Hne. rewrite (wf_left g Hwf d Hd). apply refs_zero. intros n Hn Hs. apply Hnot, Exists_exists. eauto.
Qed.

Lemma quiet_lists g s : inv g s -> quiet s -> refused s = [] -> unscheduled s = [] ->
  dues (threads s) = [] /\ fired s ≡ₚ finished s /\ finished s ≡ₚ retired s.
Proof.
  intros HI [Hsch Hq] Hr Hu.
  assert (H : dues (threads s) = [] /\ fins (threads s) = []).
  { clear -Hq. induction (threads s) as [|t l IH]; [done|]. inversion Hq as [|? ? [H1 H2] H3]; subst.
    destruct (IH H3) as [I1 I2]. unfold dues, fins, due in *. cbn. by rewrite H1, H2, I1, I2. }
  destruct H as [H1 H2]. split; [done|]. split.
  - rewrite (i_fired g s HI). unfold waiting. by rewrite Hsch, Hr, Hu, app_nil_r.
  - by rewrite (i_fin g s HI), H2.
Qed.

Lemma all_fired g s :
  wf g -> inv g s -> HasCycle g = Some false -> quiet s -> refused s = [] -> unscheduled s = [] ->
  fired s ≡ₚ nodes g.
Proof.
  intros Hwf HI Hc Hq Hr Hu. destruct (quiet_lists g s HI Hq Hr Hu) as (Hdues & Hfi & Hre).
  destruct (has_cycle_spec g Hwf) as (b & Hb & Hiff). rewrite Hc in Hb. injection Hb as <-.
  destruct (proj1 Hiff eq_refl) as (l & Hl & Ht).
  assert (Hdone : forall n, n ∈ fired s -> td s n = []).
  { intros n Hn. apply (i_retired g s HI). by rewrite <- Hre, <- Hfi. }
  assert (Hall : forall l1 l2, l = l1 ++ l2 -> forall d, d ∈ l1 -> d ∈ fired s).
  { induction l1 as [|x l1 IH] using rev_ind; intros l2 E d Hd; [by apply not_elem_of_nil in Hd|].
    rewrite <- app_assoc in E. apply elem_of_app in Hd as [Hd|Hd%list_elem_of_singleton]; [by eapply IH|]. subst d.
    assert (Hx : x ∈ nodes g) by (rewrite <- Hl, E; apply elem_of_app; right; by left).
    destruct (proj1 (i_ready g s HI x Hx)) as [|Hin]; [|done|].
    - apply ready_after_deps; try done. intros n Hn Hs. eapply IH; [done|]. by eapply (Ht l1 x l2).
    - rewrite Hdues in Hin. by apply not_elem_of_nil in Hin. }
  apply NoDup_Permutation; [apply (i_nodup g s HI)|apply (wf_nodup g Hwf)|]. intros d. split; [apply (i_in g s HI)|].
  rewrite <- Hl. apply (Hall l []). by rewrite app_nil_r.
Qed.

(** The dependencies of a fired node. *)
Definition deps_finished (g : dag) (s : state) (d : ptr) : Prop :=
  match gateType <$> heap g !! d with
  | Some AND => forall n, n ∈ nodes g -> d ∈ succs (heap g) n -> n ∈ finished s
  | Some OR => (forall n, n ∈ nodes g -> d ∉ succs (heap g) n) \/
               exists n, n ∈ nodes g /\ d ∈ succs (heap g) n /\ n ∈ finished s
  | None => False
  end.

Lemma fired_deps g s d : wf g -> inv g s -> d ∈ fired s -> deps_finished g s d.
Proof.
  intros Hwf HI Hd. pose proof (i_in g s HI d Hd) as Hdn. destruct (inv_node g Hwf s d HI Hdn) as [nd Hnd].
  destruct (inv_static g Hwf s d nd HI Hnd) as (_ & nd0 & H0 & Eg & _). unfold deps_finished. rewrite H0. simpl. rewrite Eg.
  assert (Hfin : forall n, n ∈ nodes g -> d ∈ succs (heap g) n -> d ∉ td s n -> n ∈ finished s).
  { intros n Hn Hs Hno. destruct (decide (n ∈ finished s)) as [|Hnf]; [done|]. destruct Hno.
    destruct (i_todo g s HI n Hn) as (_ & _ & _ & ->); done. }
  pose proof (proj2 (i_ready g s HI d Hdn) (or_introl Hd)) as Hr. unfold is_ready in Hr. rewrite Hnd in Hr. simpl in Hr.
  destruct (gateType nd) eqn:Et.
  - intros n Hn Hs. apply Hfin; [done..|]. unfold left_of in Hr. rewrite Hnd, (i_left g s HI d nd Hnd Et) in Hr.
    by apply (proj1 (refs_zero _ _ _) Hr).
  - destruct Hr as [Hr|(n & Hn & Hs & Hno)]; [left|right; eauto].
    rewrite (wf_left g Hwf d Hdn) in Hr. by apply refs_zero.
Qed.

(** ** Building keeps graphs well-formed *)

(** [t] is a task that no node has yet. *)
Definition fresh_task (g : dag) (t : ptr) : Prop :=
  (exists f x, tasks g !! t = Some (Own f x)) /\ forall q nd, heap g !! q = Some nd -> task nd <> Some t.

Lemma wf_CreateNode g t prio cpu p :
  wf g -> heap g !! p = None -> fresh_task g t -> wf (CreateNode g t prio cpu (Some p)).1.
Proof.
  intros Hwf Hp [(f & x & Ht) Hu]. apply wf_create; try done; simpl.
  - intros _. exists t, f, x. done.
  - intros t' q nd [= <-]. apply Hu.
Qed.

Lemma CreateMainNode_eq g t prio p :
  (CreateMainNode g t prio (Some p)).1 =
  mk_dag (<[p := set_isMain (mk_node (Some t) AND false [] 0 false (u8 NONE) (if prio =? NONE then 0 else prio)
                   (prio =? NONE) false false None)]> (heap g)) (nodes g ++ [p]) (tasks g).
Proof. unfold CreateMainNode, CreateNode. simpl. by rewrite alter_insert_eq. Qed.

Lemma wf_CreateMainNode g t prio p :
  wf g -> heap g !! p = None -> fresh_task g t -> wf (CreateMainNode g t prio (Some p)).1.
Proof.
  intros Hwf Hp [(f & x & Ht) Hu]. rewrite CreateMainNode_eq. apply wf_create; try done; simpl.
  - intros _. exists t, f, x. done.
  - intros t' q nd [= <-]. apply Hu.
Qed.

Lemma wf_CreateGate g type p : wf g -> heap g !! p = None -> wf (CreateGate g type (Some p)).1.
Proof. intros Hwf Hp. by apply wf_create. Qed.

(** ** An example: (1 and 2) or 3, then 4 *)

Definition example_tasks : gmap ptr code :=
  {[ 11%positive := Own 21 31; 12%positive := Own 22 32; 13%positive := Own 23 33; 14%positive := Own 24 34 ]}.
Definition example_nodes : dag :=
  let g1 := (CreateNode (empty_dag example_tasks) 11 NONE NONE (Some 1%positive)).1 in
  let g2 := (CreateNode g1 12 NONE NONE (Some 2%positive)).1 in
  let g3 := (CreateNode g2 13 NONE 0 (Some 3%positive)).1 in
  let g4 := (CreateMainNode g3 14 NONE (Some 4%positive)).1 in
  (CreateGate (CreateGate g4 AND (Some 5%positive)).1 OR (Some 6%positive)).1.
Definition example : dag :=
  AddDependency (AddDependency (AddDependency (AddDependency (AddDependency example_nodes 5 1) 5 2) 6 5) 6 3) 4 6.

Definition example_start : option state :=
  match Submit example with Some (Running s) => Some s | _ => None end.
Definition example_run : list action :=
  replicate 7 (Step 0 true) ++ [RunTask 0] ++ replicate 2 (Step 1 true) ++ [RunTask 0] ++ replicate 9 (Step 2 true) ++
  [RunTask 0] ++ replicate 3 (Step 3 true) ++ [RunTask 0; Step 4 true].

Lemma fresh_task_check g t f x :
  tasks g !! t = Some (Own f x) -> bool_decide (map_Forall (fun _ nd => task nd <> Some t) (heap g)) = true -> fresh_task g t.
Proof. intros Ht H. apply bool_decide_eq_true in H. split; [eauto|]. intros q nd Hq. by apply (H q nd). Qed.

Lemma wf_dependency_check g d n :
  wf g -> bool_decide (d ∈ nodes g /\ n ∈ nodes g /\ (d ∉ succs (heap g) n)) = true -> wf (AddDependency g d n).
Proof. intros Hwf (H1 & H2 & H3)%bool_decide_eq_true. by apply wf_add_dependency. Qed.

Lemma example_wf : wf example.
Proof.
  unfold example. do 5 (apply wf_dependency_check; [|vm_compute; reflexivity]).
  unfold example_nodes. do 2 (apply wf_CreateGate; [|vm_compute; reflexivity]).
  apply wf_CreateMainNode; [|vm_compute; reflexivity|by eapply fresh_task_check; vm_compute; reflexivity].
  do 3 (apply wf_CreateNode; [|vm_compute; reflexivity|by eapply fresh_task_check; vm_compute; reflexivity]).
  apply wf_empty.
Qed.

(** ** Properties *)

(** [C32] On every graph that the creating functions and [AddDependency] can build,
    [HasCycle] returns, and returns false exactly when no dependency was recorded
    twice (each node's counter is the number of lists it is on) and the nodes can be
    put in an order in which every node comes after all its dependencies. *)
Theorem has_cycle_correct g :
  built g -> exists b, HasCycle g = Some b /\
  (b = false <-> (forall d, d ∈ nodes g -> left_of (heap g) d = refs (succs (heap g)) d (nodes g)) /\
     exists l, l ≡ₚ nodes g /\ topological g l).
Proof.
  intros Hb. destruct (has_cycle_built g Hb) as (b & Hc & Hiff). exists b. split; [done|]. rewrite Hiff. unfold repeated.
  split; intros [H1 H2]; (split; [|done]); intros d Hd; specialize (H1 d Hd); lia.
Qed.

(** The example, which has an order, and the example with one of its dependencies
    recorded again, which is rejected although it has the same one. *)
Lemma has_cycle_correct_witness :
  built example /\ HasCycle example = Some false /\ (exists l, l ≡ₚ nodes example /\ topological example l) /\
  built (AddDependency example 4 6) /\ HasCycle (AddDependency example 4 6) = Some true /\
  exists b, HasCycle (AddDependency example 4 6) = Some b.
Proof.
  pose proof (wf_built example example_wf) as Hb. split; [exact Hb|].
  assert (Hc : HasCycle example = Some false) by (vm_compute; reflexivity). split; [exact Hc|].
  assert (Hb2 : built (AddDependency example 4 6)).
  { apply built_add; [exact Hb|apply (bool_decide_unpack _); vm_compute; exact I..]. }
  destruct (has_cycle_correct example Hb) as (b & Hb' & Hiff). destruct (has_cycle_correct _ Hb2) as (b2 & Hb2' & _).
  split; [apply Hiff; rewrite Hc in Hb'; by injection Hb'|]. split; [exact Hb2|]. split; [vm_compute; reflexivity|eauto].
Defined.

(** [C12] At every moment of every interleaving of the threads that fire and
    finish the nodes of a submitted graph: no node fires, finishes or is retired
    twice; an AND node has fired only after all its dependencies finished, an OR
    node after one of them (or it has none); a fired node's task has run exactly
    once, with the function its creator gave it, or is with the scheduler,
    refused by it, or left out by [Fire]. *)
Theorem dag_runs_each_node_once g s0 l s :
  wf g -> Submit g = Some (Running s0) -> run exec l s0 = Some s ->
  (NoDup (fired s) /\ NoDup (finished s) /\ NoDup (retired s)) /\
  (forall d, d ∈ fired s -> d ∈ nodes g /\ deps_finished g s d) /\
  fired s ≡ₚ finished s ++ waiting s /\
  ran s = omap (work g) (finished s) /\
  (forall t, t ∈ (scheduled s).*2 -> exists n nd o, mem s !! n = Some nd /\
     code_of s !! t = Some (OnTaskFinishedWrapper n) /\ orig nd = Some o /\ work g n = Some o).
Proof.
  intros Hwf H0 Hl. pose proof (dag_inv_run g Hwf s0 l s H0 Hl) as HI. pose proof (i_nodup g s HI) as Hnd.
  assert (Hnf : NoDup (finished s)) by (rewrite (i_fired g s HI) in Hnd; by apply NoDup_app in Hnd as [? _]).
  split; [split; [done|split; [done|]]|split; [|split; [apply HI|split; [apply HI|]]]].
  - rewrite (i_fin g s HI) in Hnf. by apply NoDup_app in Hnf as (_ & _ & ?).
  - intros d Hd. split; [by apply (i_in g s HI)|by apply fired_deps].
  - intros t Ht. destruct (scheduled_owner g Hwf s t HI) as (n & nd & f & x & ?); [apply elem_of_app; by left|].
    exists n, nd, (Own f x). tauto.
Qed.

Lemma dag_runs_each_node_once_witness : exists s0 s,
  wf example /\ Submit example = Some (Running s0) /\ run exec (take 12 example_run) s0 = Some s /\
  fired s = [1; 2; 3]%positive /\ finished s = [1; 2]%positive /\ fired s ≡ₚ finished s ++ waiting s.
Proof.
  assert (Hf : (s0 ← example_start; s ← run exec (take 12 example_run) s0; Some (fired s, finished s)) =
    Some ([1; 2; 3]%positive, [1; 2]%positive)) by (vm_compute; reflexivity).
  unfold example_start in Hf. destruct (Submit example) as [[|s0]|] eqn:E0; [simpl in Hf; discriminate Hf| |simpl in Hf; discriminate Hf].
  unfold mbind, option_bind in Hf. destruct (run exec (take 12 example_run) s0) as [s|] eqn:E; [|discriminate Hf].
  injection Hf as Hf1 Hf2. exists s0, s. split; [apply example_wf|]. split; [reflexivity|]. split; [exact E|].
  split; [exact Hf1|]. split; [exact Hf2|].
  exact (proj1 (proj2 (proj2 (dag_runs_each_node_once example s0 (take 12 example_run) s example_wf E0 E)))).
Defined.

(** [C15] Every interleaving ends, within a bound that grows with the nodes and
    dependencies; and when nothing can move any more, and the scheduler refused
    no task and [Fire] left none out, every node has fired, finished and been
    retired, and each task's own function ran once. *)
Theorem dag_all_nodes_run g s0 l s :
  wf g -> Submit g = Some (Running s0) -> run exec l s0 = Some s ->
  (length l <= 1 + 2 * length (roots g) + 2 * edge_count g + 3 * length (nodes g))%nat /\
  ((forall a, exec a s = None) -> refused s = [] -> unscheduled s = [] ->
   quiet s /\ fired s ≡ₚ nodes g /\ finished s ≡ₚ nodes g /\ retired s ≡ₚ nodes g /\ ran s ≡ₚ omap (work g) (nodes g)).
Proof.
  intros Hwf H0 Hl. pose proof (dag_inv_run g Hwf s0 l s H0 Hl) as HI. split.
  - rewrite <- (work_start g s0 Hwf H0). pose proof (work_run g Hwf l s0 s (dag_inv_start g Hwf s0 H0) Hl). lia.
  - intros Hno Hr Hu. pose proof (no_action_quiet g Hwf s HI Hno) as Hq.
    assert (Hc : HasCycle g = Some false) by (unfold Submit in H0; by destruct (HasCycle g) as [[]|]).
    pose proof (all_fired g s Hwf HI Hc Hq Hr Hu) as Hall. destruct (quiet_lists g s HI Hq Hr Hu) as (_ & H1 & H2).
    rewrite (i_ran g s HI), <- H2, <- H1, Hall. done.
Qed.

(** The example's run ends with all six nodes done. *)
Lemma dag_all_nodes_run_witness : exists s0 s,
  wf example /\ Submit example = Some (Running s0) /\ run exec example_run s0 = Some s /\
  length (retired s) = 6%nat /\ ran s = [Own 21 31; Own 22 32; Own 23 33; Own 24 34] /\ (length example_run <= 37)%nat.
Proof.
  assert (Hf : (s0 ← example_start; s ← run exec example_run s0; Some (length (retired s), ran s)) =
    Some (6%nat, [Own 21 31; Own 22 32; Own 23 33; Own 24 34])) by (vm_compute; reflexivity).
  unfold example_start in Hf. destruct (Submit example) as [[|s0]|] eqn:E0; [simpl in Hf; discriminate Hf| |simpl in Hf; discriminate Hf].
  unfold mbind, option_bind in Hf. destruct (run exec example_run s0) as [s|] eqn:E; [|discriminate Hf].
  injection Hf as Hf1 Hf2. exists s0, s. split; [apply example_wf|]. split; [reflexivity|]. split; [exact E|].
  split; [exact Hf1|]. split; [exact Hf2|].
  assert (Hb : (1 + 2 * length (roots example) + 2 * edge_count example + 3 * length (nodes example) = 35)%nat) by (vm_compute; reflexivity).
  pose proof (proj1 (dag_all_nodes_run example s0 example_run s example_wf E0 E)) as H. rewrite Hb in H. lia.
Defined.

(** A node created with a priority is never handed to the scheduler. *)
Lemma explicit_priority_not_scheduled g t prio cpu p nd :
  prio <> NONE -> heap (CreateNode g t prio cpu (Some p)).1 !! p = Some nd -> route nd = None.
Proof.
  intros Hp. simpl. rewrite lookup_insert_eq. intros [= <-]. unfold route. simpl. by rewrite (proj2 (Z.eqb_neq _ _) Hp).
Qed.

(** Two nodes, the second after the first; the first with a priority or with a
    core. *)
Definition two_nodes (prio cpu : Z) : dag :=
  let g1 := (CreateNode (empty_dag example_tasks) 11 prio cpu (Some 1%positive)).1 in
  AddDependency (CreateNode g1 12 NONE NONE (Some 2%positive)).1 2 1.
Definition two_nodes_end (prio cpu : Z) (accept : bool) : option (list ptr * list ptr * list ptr * bool) :=
  x ← Submit (two_nodes prio cpu);
  match x with
  | Running s0 => s ← run exec [Step 0 accept; Step 0 accept; Step 0 accept] s0;
                  Some (fired s, refused s, unscheduled s,
                        match threads s, scheduled s with [t], [] => bool_decide (stack t = []) | _, _ => false end)
  | Rejected _ _ => None
  end.
(** Three ways a graph goes wrong.  A dependency recorded twice counts twice
    but is listed once, so an acyclic graph is rejected.  A node with an explicit
    priority is marked fired and handed to nobody: the graph comes to rest without
    its task or anything after it.  The same when the worker asked for refuses the
    task, because it is pinned to a forked one. *)
Theorem dag_defects :
  HasCycle (two_nodes NONE NONE) = Some false /\
  HasCycle (AddDependency (two_nodes NONE NONE) 2 1) = Some true /\
  two_nodes_end 3 0 true = Some ([1%positive], [], [1%positive], true) /\
  two_nodes_end NONE 1 false = Some ([1%positive], [11%positive], [], true).
Proof. vm_compute. split_and!; reflexivity. Qed.
