(* ===== verification/DagReclaim.v ===== *)
(** * Reclamation of graph nodes ([src/TaskDAG.cpp] with [include/Epochs.h])

    [TaskDAG.v] keeps retired nodes allocated.  Here [NodeDeleter] frees them while
    the graph runs: the machine of [TaskDAG.v] with a reclaimer beside it, and for
    each of its steps the nodes it reads or writes.  With [grace] the reclaimer
    keeps the promise of [Epochs.v]: a node is freed only when every [for_each]
    that was running when the node was retired has ended; without it, a retired
    node may be freed at once. *)
From S2P Require Import Prelude TaskDAG.

(** The node whose list, counter, flags or saved code the next step of a call
    accesses. *)
Definition touches (s : state) (t : thread) : list ptr :=
  match firing t, stack t with
  | Some d, _ => [d]
  | None, Finishing n :: _ => n :: take 1 (td s n)
  | None, _ => []
  end.
Definition accesses (s : state) (a : action) : list ptr :=
  match a with
  | Step k _ => match threads s !! k with Some t => touches s t | None => [] end
  | RunTask j => match scheduled s !! j with Some x => option_list (owner s x.2) | None => [] end
  end.

(** The call is inside a [for_each], whose guard it holds. *)
Definition guarded (t : thread) : bool := existsb (fun f => match f with Finishing _ => true | Roots _ => false end) (stack t).

(** [freed]: the nodes [NodeDeleter] has freed; [since k], ghost: how many nodes
    were retired when the guard of call [k] began. *)
Record memory := mk_memory { graph : state; freed : list ptr; since : nat -> nat }.

Definition start (s : state) : memory := mk_memory s [] (fun _ => 0%nat).

Definition holds_guard (s : state) (k : nat) : bool :=
  match threads s !! k with Some t => guarded t | None => false end.

Definition track (s s' : state) (since : nat -> nat) (k : nat) : nat :=
  if holds_guard s' k && negb (holds_guard s k) then length (retired s') else since k.

(** Every guard that is held began after [n] was retired. *)
Definition grace_over (m : memory) (n : ptr) : bool :=
  forallb (fun k => negb (holds_guard (graph m) k) || bool_decide (n ∈ take (since m k) (retired (graph m))))
    (seq 0 (length (threads (graph m)))).

(** [pending[i].deleter(pending[i].ptr)] in [TryReclaim]. *)
Definition NodeDeleter (grace : bool) (n : ptr) (m : memory) : option memory :=
  if decide (n ∈ retired (graph m) /\ (n ∉ freed m) /\ (grace = true -> grace_over m n = true))
  then Some (mk_memory (graph m) (n :: freed m) (since m)) else None.

Inductive event := Run (a : action) | Reclaim (n : ptr).

(** An access to a freed node is where the behaviour ends to be defined: the
    machine has no such step. *)
Definition exec (grace : bool) (e : event) (m : memory) : option memory :=
  match e with
  | Run a =>
      if decide (Forall (fun d => d ∉ freed m) (accesses (graph m) a)) then
        s ← TaskDAG.exec a (graph m);
        Some (mk_memory s (freed m) (track (graph m) s (since m)))
      else None
  | Reclaim n => NodeDeleter grace n m
  end.

(** ** What is freed is no longer used *)

(** At most one completion fires [d]. *)
Definition fired_once (g : dag) (d : ptr) : Prop :=
  gateType <$> TaskDAG.heap g !! d = Some AND \/ left_of (TaskDAG.heap g) d <= 1.

Section Reclaim.
Context (g : dag) (Hwf : wf g) (grace : bool).
Abbreviation next_of := (succs (TaskDAG.heap g)).

Definition firings (s : state) (d : ptr) : nat := (occ d (fired s) + occ d (dues (threads s)))%nat.

(** Where a thread has the node it is about to fire from. *)
Record sourced (t : thread) : Prop := {
  so_roots : forall l x, Roots l ∈ stack t -> x ∈ l -> left_of (TaskDAG.heap g) x = 0;
  so_top : forall d, firing t = Some d ->
    (exists n st, stack t = Finishing n :: st /\ d ∈ next_of n) \/ left_of (TaskDAG.heap g) d = 0
}.

Record kept (m : memory) : Prop := {
  k_inv : inv g (graph m);
  k_freed : forall d, d ∈ freed m -> d ∈ retired (graph m);
  k_once : forall d, fired_once g d -> (firings (graph m) d <= 1)%nat;
  k_sourced : Forall sourced (threads (graph m));
  k_grace : grace = true -> forall d k, d ∈ freed m -> holds_guard (graph m) k = true ->
    d ∈ take (since m k) (retired (graph m))
}.

(** A node that only one completion fires is not ready before that one visits
    it. *)
Lemma unvisited_unready s n d : inv g s -> fired_once g d -> n ∈ nodes g -> d ∈ td s n -> ~ is_ready g s d.
Proof.
  intros HI Hd Hn Hin. pose proof (i_todo g s HI n Hn) as (_ & _ & Hs & _). pose proof (Hs d Hin) as Hdn.
  pose proof (wf_succ g Hwf n d Hdn) as Hdg. destruct (inv_node g Hwf s d HI Hdg) as [nd Hnd].
  destruct (inv_static g Hwf s d nd HI Hnd) as (_ & nd0 & H0 & Eg & _).
  pose proof (proj1 (refs_zero (td s) d (nodes g))) as Hz. pose proof (proj1 (refs_zero next_of d (nodes g))) as Hz0.
  unfold is_ready. rewrite Hnd. simpl. destruct (gateType nd) eqn:E.
  - unfold left_of. rewrite Hnd, (i_left g s HI d nd Hnd E). intros H. by apply (Hz H n Hn).
  - destruct Hd as [Hd|Hd]; [rewrite H0 in Hd; simpl in Hd; congruence|].
    rewrite (wf_left g Hwf d Hdg) in *. intros [H|(n' & Hn' & Hs' & Hno)]; [by apply (Hz0 H n Hn)|].
    set (others := fun x => if decide (x = n) then [] else next_of x).
    assert (Hr : refs others d (nodes g) = 0).
    { pose proof (refs_update next_of others d (nodes g) n (wf_nodup g Hwf) Hn
        ltac:(intros x Hx; unfold others; by rewrite decide_False)) as Hu. pose proof (refs_nonneg others d (nodes g)).
      rewrite (bool_decide_eq_true_2 _ Hdn) in Hu. rewrite bool_decide_eq_false_2 in Hu by
        (unfold others; rewrite decide_True by done; apply not_elem_of_nil).
      cbn [bit] in Hu. lia. }
    apply (proj1 (refs_zero _ _ _) Hr n' Hn'). unfold others. rewrite decide_False; [done|]. by intros ->.
Qed.

Lemma unfired s n d : inv g s -> fired_once g d -> n ∈ nodes g -> d ∈ td s n -> firings s d = 0%nat.
Proof.
  intros HI Hd Hn Hin. assert (Hno : ~ (d ∈ fired s \/ d ∈ dues (threads s))).
  { intros H. apply (unvisited_unready s n d); try done. apply (i_ready g s HI); [|done].
    eapply (wf_succ g Hwf n). pose proof (i_todo g s HI n Hn) as (_ & _ & Hs & _). auto. }
  unfold firings. rewrite !occ_zero; tauto.
Qed.

(** *** Preservation *)

Lemma firings_move s s' k t t' d : threads s !! k = Some t -> threads s' = <[k := t']> (threads s) ->
  (firings s' d + occ d (due t) + occ d (fired s) = firings s d + occ d (due t') + occ d (fired s'))%nat.
Proof. intros Hk E. unfold firings, dues. rewrite E. pose proof (occ_bind_insert d due (threads s) k t t' Hk). lia. Qed.

#[local] Ltac count_firings Hk x :=
  match goal with |- (firings ?s' _ <= _)%nat =>
    let H := fresh "H" in let N := fresh "N" in pose proof (firings_move _ s' _ _ _ x Hk eq_refl) as H;
    set (N := firings s' x) in *; clearbody N; unfold due in H; cbn in H; rewrite ?occ_app in H; cbn in H
  end.

Lemma once_Fire s s' k d st accept x : threads s !! k = Some (mk_thread (Some d) st) -> Fire s k d st accept = Some s' ->
  (firings s' x <= firings s x)%nat.
Proof.
  intros Hk. unfold Fire. destruct (mem s !! d) as [nd|]; [|done]. simpl.
  destruct (submitted nd); [|destruct (isGate nd); [|destruct (task nd) as [t|]; [|done]; simpl; destruct (code_of s !! t); [|done]]];
    intros [= <-]; repeat case_match.
  all: count_firings Hk x; lia.
Qed.

Lemma once_step a s s' : inv g s -> (forall d, fired_once g d -> (firings s d <= 1)%nat) -> TaskDAG.exec a s = Some s' ->
  forall d, fired_once g d -> (firings s' d <= 1)%nat.
Proof.
  intros HI HO Hs x Hx. specialize (HO x Hx). destruct a as [k accept|j]; simpl in Hs.
  - unfold thread_step in Hs. destruct (threads s !! k) as [[[d|] st]|] eqn:Hk; [| |done]; simpl in Hs.
    { pose proof (once_Fire s s' k d st accept x Hk Hs). lia. }
    destruct st as [|[[|r rs]|n] st]; [done|injection Hs as <-; count_firings Hk x; lia..|].
    unfold OnTaskFinished in Hs. destruct (todo s !! n) as [[|d ds]|] eqn:Htd; [| |done].
    { injection Hs as <-. count_firings Hk x. lia. }
    destruct (visit_n g s k n st HI Hk) as [_ Hn].
    destruct (decide (x = d)) as [->|Hne].
    + assert (H0 : firings s d = 0%nat) by (apply (unfired s n d); try done; unfold td; rewrite Htd; by left).
      destruct (mem s !! d) as [nd|]; [|done]. cbn in Hs.
      destruct (gateType nd); injection Hs as <-; count_firings Hk d; repeat case_match; cbn in *; repeat case_decide; lia.
    + destruct (mem s !! d) as [nd|]; [|done]. cbn in Hs.
      destruct (gateType nd); injection Hs as <-; count_firings Hk x; repeat case_match; cbn in *; repeat case_decide; congruence || lia.
  - destruct (scheduled s !! j) as [[r t]|]; [|done]. cbn in Hs.
    assert (Hd : forall th, dues (threads s ++ [mk_thread None [Finishing th]]) = dues (threads s)).
    { intros th. unfold dues. rewrite bind_app. cbn. by rewrite app_nil_r. }
    destruct (code_of s !! t) as [[f y|n]|]; [| |done]; cbn in Hs; [by injection Hs as <-|].
    destruct (mem s !! n) as [nd|]; [|done]. cbn in Hs. destruct (orig nd); [|done]. cbn in Hs. injection Hs as <-.
    unfold firings in *. cbn. by rewrite Hd.
Qed.

Lemma sourced_tail f st : sourced (mk_thread None (f :: st)) -> sourced (mk_thread None st).
Proof. intros [H _]. constructor; [|done]. simpl in *. intros l x Hl. apply H. by right. Qed.
Lemma sourced_fired d st : sourced (mk_thread (Some d) st) -> sourced (mk_thread None st).
Proof. intros [H _]. by constructor. Qed.
Lemma sourced_push n st : sourced (mk_thread None st) -> sourced (mk_thread None (Finishing n :: st)).
Proof. intros [H _]. constructor; [|done]. simpl in *. intros l x [?|Hl]%elem_of_cons; [done|]. by apply H. Qed.

Lemma sourced_step a s s' : inv g s -> Forall sourced (threads s) -> TaskDAG.exec a s = Some s' -> Forall sourced (threads s').
Proof.
  intros HI HS Hs. destruct a as [k accept|j]; simpl in Hs.
  - unfold thread_step in Hs. destruct (threads s !! k) as [[[d|] st]|] eqn:Hk; [| |done]; simpl in Hs;
      pose proof (Forall_lookup_1 _ _ _ _ HS Hk) as Ht.
    { pose proof (sourced_fired d st Ht) as Ht'. unfold Fire in Hs. destruct (mem s !! d) as [nd|]; [|done]. simpl in Hs.
      destruct (submitted nd); [|destruct (isGate nd); [|destruct (task nd) as [t|]; [|done]; simpl in Hs; destruct (code_of s !! t); [|done]]];
        injection Hs as <-; repeat case_match; apply Forall_insert; try done; by apply sourced_push. }
    destruct st as [|[[|r rs]|n] st]; [done| | |].
    + injection Hs as <-. apply Forall_insert; [done|]. by eapply sourced_tail.
    + injection Hs as <-. apply Forall_insert; [done|]. destruct Ht as [Hr _]. constructor; simpl in *.
      * intros l x [[= ->]|Hl]%elem_of_cons Hx; [apply (Hr (r :: rs)); [by left|by right]|]. apply (Hr l); [by right|done].
      * intros d [= <-]. right. apply (Hr (r :: rs)); by left.
    + unfold OnTaskFinished in Hs. destruct (todo s !! n) as [[|d ds]|] eqn:Htd; [| |done].
      { injection Hs as <-. apply Forall_insert; [done|]. by eapply sourced_tail. }
      destruct (mem s !! d) as [nd|]; [|done]. cbn in Hs.
      assert (Hd : d ∈ next_of n).
      { destruct (visit_n g s k n st HI Hk) as [_ Hn]. pose proof (i_todo g s HI n Hn) as (_ & _ & Hsub & _).
        apply Hsub. unfold td. rewrite Htd. by left. }
      destruct (gateType nd); injection Hs as <-; (apply Forall_insert; [done|]); (constructor; [apply Ht|]);
        simpl; intros x Hx; repeat case_match; simplify_eq; eauto.
  - destruct (scheduled s !! j) as [[r t]|]; [|done]. cbn in Hs.
    destruct (code_of s !! t) as [[f y|n]|]; [| |done]; cbn in Hs; [by injection Hs as <-|].
    destruct (mem s !! n) as [nd|]; [|done]. cbn in Hs. destruct (orig nd); [|done]. cbn in Hs. injection Hs as <-.
    apply Forall_app. split; [done|]. repeat constructor; simpl; [|done]. by intros l x ?%list_elem_of_singleton.
Qed.

Lemma retired_grows a s s' : TaskDAG.exec a s = Some s' -> exists l, retired s' = retired s ++ l.
Proof.
  intros Hs. destruct a as [k accept|j]; simpl in Hs.
  - unfold thread_step, OnTaskFinished, Fire in Hs. repeat (case_match || simplify_option_eq); eexists; first [done|symmetry; apply app_nil_r].
  - repeat (case_match || simplify_option_eq); exists []; by rewrite app_nil_r.
Qed.

Lemma kept_exec e m m' : kept m -> exec grace e m = Some m' -> kept m'.
Proof.
  intros [HI HF HO HS HG]. destruct e as [a|n]; simpl.
  - case_decide; [|done]. destruct (TaskDAG.exec a (graph m)) as [s|] eqn:Hs; [|done]. intros [= <-].
    destruct (retired_grows a _ _ Hs) as [l Hl]. constructor; simpl.
    + by eapply dag_inv_step.
    + intros d Hd. rewrite Hl. apply elem_of_app. auto.
    + by eapply once_step.
    + by eapply sourced_step.
    + intros Hgr d k Hd Hk. unfold track. rewrite Hk. simpl. destruct (holds_guard (graph m) k) eqn:E; simpl.
      * rewrite Hl, take_app. apply elem_of_app. left. auto.
      * rewrite firstn_all, Hl. apply elem_of_app. auto.
  - unfold NodeDeleter. case_decide as Hn; [|done]. intros [= <-]. destruct Hn as (Hr & Hnf & Hgr). constructor; simpl; try done.
    + intros d [->|Hd]%elem_of_cons; auto.
    + intros Htrue d k [->|Hd]%elem_of_cons Hk; [|auto]. specialize (Hgr Htrue). unfold grace_over in Hgr.
      rewrite forallb_forall in Hgr. specialize (Hgr k). rewrite Hk in Hgr. apply (bool_decide_eq_true_1 _), Hgr, in_seq.
      unfold holds_guard in Hk. destruct (threads (graph m) !! k) eqn:E; [|done]. apply lookup_lt_Some in E. lia.
Qed.

Lemma kept_start s0 : Submit g = Some (Running s0) -> kept (start s0).
Proof.
  intros H0. pose proof (dag_inv_start g Hwf s0 H0) as HI. revert H0 HI. unfold Submit. destruct (HasCycle g) as [[]|]; simpl; try done.
  intros [= <-] HI. constructor; simpl; [done|by intros d ?%not_elem_of_nil|..].
  - intros d _. unfold firings, dues, due. cbn. rewrite !app_nil_r. apply NoDup_occ. unfold roots. apply NoDup_filter, (wf_nodup g Hwf).
  - repeat constructor; simpl; [|done]. intros l x [= ->]%list_elem_of_singleton. unfold roots. by intros [? _]%list_elem_of_filter.
  - by intros _ d k ?%not_elem_of_nil.
Qed.

Lemma kept_run s0 l m : Submit g = Some (Running s0) -> run (exec grace) l (start s0) = Some m -> kept m.
Proof.
  intros H0 Hl. apply (reaches_invariant (exec grace) kept (start s0)); [intros; by eapply kept_exec|by apply kept_start|by exists l].
Qed.

(** When a graph is at rest no guard is held, and every retired node can be
    freed. *)
Lemma rest_reclaims m n : quiet (graph m) -> n ∈ retired (graph m) -> n ∉ freed m -> is_Some (NodeDeleter grace n m).
Proof.
  intros [_ Hq] Hr Hn. unfold NodeDeleter. rewrite decide_True; [by eexists|]. split_and!; try done. intros _.
  apply forallb_forall. intros k _. unfold holds_guard, guarded. destruct (threads (graph m) !! k) as [t|] eqn:Hk; [|done].
  destruct (Forall_lookup_1 _ _ _ _ Hq Hk) as [_ ->]. done.
Qed.

(** *** Accesses *)

Section Access.
Context (m : memory) (d : ptr) (HK : kept m) (Hd : d ∈ freed m).
Let s := graph m.

Lemma freed_fired : d ∈ nodes g /\ d ∈ fired s /\ d ∈ retired s /\ d ∈ finished s.
Proof.
  pose proof (k_inv m HK) as HI. pose proof (k_freed m HK d Hd) as Hr.
  assert (Hf : d ∈ finished s) by (rewrite (i_fin g s HI); apply elem_of_app; by right).
  assert (Hf' : d ∈ fired s) by (rewrite (i_fired g s HI); apply elem_of_app; by left).
  split_and!; try done. by apply (i_in g s HI).
Qed.

(** A node that is being visited, or whose task is still to run, is not freed. *)
Lemma freed_not_finishing k fi n st : threads s !! k = Some (mk_thread fi (Finishing n :: st)) -> d <> n.
Proof.
  intros Hk ->. pose proof (k_inv m HK) as HI. destruct (threads_insert _ _ _ Hk) as (rest & _ & _ & F & _).
  pose proof (i_nodup g s HI) as Hnd. rewrite (i_fired g s HI), (i_fin g s HI), F in Hnd. simpl in Hnd.
  apply NoDup_cons_1_1 in Hnd. apply Hnd. apply elem_of_app. left. apply elem_of_app. right. apply (k_freed m HK n Hd).
Qed.
Lemma freed_not_waiting x : x ∈ scheduled s -> owner s x.2 <> Some d.
Proof.
  intros Hx Ho. pose proof (k_inv m HK) as HI. destruct freed_fired as (_ & _ & _ & Hf).
  pose proof (i_nodup g s HI) as Hnd. rewrite (i_fired g s HI) in Hnd. apply NoDup_app in Hnd as (_ & Hdis & _).
  apply (Hdis d Hf). unfold waiting. apply elem_of_app. left. apply list_elem_of_omap. exists x.2. split; [|done].
  apply elem_of_app. left. by apply list_elem_of_fmap_2.
Qed.

Lemma freed_twice : fired_once g d -> (d ∉ dues (threads s)) /\ forall n, n ∈ nodes g -> d ∉ td s n.
Proof.
  intros Ho. pose proof (k_once m HK d Ho) as H. destruct freed_fired as (_ & Hf & _). fold s in H. split.
  - intros Hdu. apply occ_elem in Hf, Hdu. unfold firings in H. lia.
  - intros n Hn Htd. pose proof (unfired s n d (k_inv m HK) Ho Hn Htd) as H0. apply occ_elem in Hf. unfold firings in H0. lia.
Qed.

Lemma several_predecessors : ~ fired_once g d -> gateType <$> TaskDAG.heap g !! d = Some OR /\ 2 <= left_of (TaskDAG.heap g) d.
Proof.
  intros Hno. destruct freed_fired as (Hn & _). apply (wf_dom g Hwf) in Hn as [nd Hn]. unfold fired_once in Hno. rewrite Hn in *.
  simpl in *. destruct (gateType nd); [tauto|]. split; [done|lia].
Qed.

(** The step that accesses a freed node. *)
Lemma freed_access a s' : TaskDAG.exec a s = Some s' -> d ∈ accesses s a ->
  ~ fired_once g d /\ exists k acc fi n st, a = Step k acc /\ threads s !! k = Some (mk_thread fi (Finishing n :: st)) /\ d ∈ next_of n.
Proof.
  intros Hs Ha. pose proof (k_inv m HK) as HI. destruct a as [k acc|j]; cbn in Ha.
  - destruct (threads s !! k) as [[fi st]|] eqn:Hk; [|by apply not_elem_of_nil in Ha]. unfold touches in Ha. cbn in Ha.
    pose proof (Forall_lookup_1 _ _ _ _ (k_sourced m HK) Hk) as [_ Htop]. cbn in Htop. destruct fi as [x|].
    + apply list_elem_of_singleton in Ha as <-.
      assert (Hno : ~ fired_once g d).
      { intros Ho. destruct (freed_twice Ho) as [Hdu _]. apply Hdu. destruct (threads_insert _ _ _ Hk) as (rest & D & _).
        apply D. left. by left. }
      split; [done|]. destruct (Htop d eq_refl) as [(n & st' & -> & Hx)|H0]; [eauto 10|]. destruct Hno. right. lia.
    + destruct st as [|[l|n] st]; [by apply not_elem_of_nil in Ha..|].
      apply elem_of_cons in Ha as [Ha|Ha]; [by destruct (freed_not_finishing k None n st Hk)|].
      assert (Htd : d ∈ td s n) by (destruct (td s n) as [|y ?]; cbn in Ha; [done|apply list_elem_of_singleton in Ha as ->; by left]).
      destruct (visit_n g s k n st HI Hk) as [_ Hn]. pose proof (i_todo g s HI n Hn) as (_ & _ & Hsub & _).
      split; [|eauto 10]. intros Ho. by apply (proj2 (freed_twice Ho) n Hn).
  - destruct (scheduled s !! j) as [x|] eqn:Hj; [|by apply not_elem_of_nil in Ha].
    destruct (owner s x.2) eqn:Ho; [|by apply not_elem_of_nil in Ha]. apply list_elem_of_singleton in Ha as <-.
    by destruct (freed_not_waiting x (list_elem_of_lookup_2 _ _ _ Hj)).
Qed.
End Access.
End Reclaim.

(** ** Properties *)

(** [C13] Whatever the reclaimer frees, a node that is only fired by one completion
    (an AND node, or one with at most one dependency) is never accessed once it is
    freed.  A freed node that a step does access is an OR node with two dependencies
    or more; the step belongs to the completion of one of them; and if the
    reclaimer waits for the guards, that completion entered its guard after the
    node was retired, so no reclaimer that waits for guards could have kept it. *)
Theorem dag_freed_nodes_unused g s0 grace l m a s' d :
  wf g -> Submit g = Some (Running s0) -> run (exec grace) l (start s0) = Some m ->
  TaskDAG.exec a (graph m) = Some s' -> d ∈ accesses (graph m) a -> d ∈ freed m ->
  gateType <$> TaskDAG.heap g !! d = Some OR /\ 2 <= left_of (TaskDAG.heap g) d /\
  exists k acc fi n st, a = Step k acc /\ threads (graph m) !! k = Some (mk_thread fi (Finishing n :: st)) /\
    d ∈ succs (TaskDAG.heap g) n /\ (grace = true -> d ∈ take (since m k) (retired (graph m))).
Proof.
  intros Hwf H0 Hl Hs Ha Hd. pose proof (kept_run g Hwf grace s0 l m H0 Hl) as HK.
  destruct (freed_access g Hwf grace m d HK Hd a s' Hs Ha) as (Hno & k & acc & fi & n & st & -> & Hk & Hdn).
  destruct (several_predecessors g Hwf grace m d HK Hd Hno) as [H1 H2]. split_and!; try done.
  exists k, acc, fi, n, st. split_and!; try done. intros Hg. apply (k_grace g grace m HK Hg d k Hd).
  unfold holds_guard. by rewrite Hk.
Qed.

(** Two nodes with a task, and an OR gate after both. *)
Definition or_gate : TaskDAG.dag :=
  let g1 := (CreateNode (empty_dag example_tasks) 11 NONE 0 (Some 1%positive)).1 in
  let g2 := (CreateNode g1 12 NONE 0 (Some 2%positive)).1 in
  AddDependency (AddDependency (CreateGate g2 OR (Some 3%positive)).1 3 1) 3 2.
(** Both are fired, the first runs, the gate fires, completes and is retired; with
    no guard held it is freed; then the second node's task runs. *)
Definition or_gate_run : list event :=
  replicate 5 (Run (Step 0 true)) ++ [Run (RunTask 0)] ++ replicate 4 (Run (Step 1 true)) ++ [Reclaim 3; Run (RunTask 0)].

Lemma or_gate_wf : wf or_gate.
Proof.
  unfold or_gate. do 2 (apply wf_dependency_check; [|vm_compute; reflexivity]).
  apply wf_CreateGate; [|vm_compute; reflexivity].
  do 2 (apply wf_CreateNode; [|vm_compute; reflexivity|by eapply fresh_task_check; vm_compute; reflexivity]).
  apply wf_empty.
Qed.

Lemma dag_freed_nodes_unused_witness : exists s0 m s',
  wf or_gate /\ Submit or_gate = Some (Running s0) /\ run (exec true) or_gate_run (start s0) = Some m /\
  TaskDAG.exec (Step 2 true) (graph m) = Some s' /\ 3%positive ∈ accesses (graph m) (Step 2 true) /\ 3%positive ∈ freed m /\
  2 <= left_of (TaskDAG.heap or_gate) 3.
Proof.
  destruct (Submit or_gate) as [[|s0]|] eqn:E0; [by vm_compute in E0| |by vm_compute in E0]. exists s0.
  assert (Hf : (m ← run (exec true) or_gate_run (start s0); s' ← TaskDAG.exec (Step 2 true) (graph m);
    Some (accesses (graph m) (Step 2 true), freed m)) = Some ([2; 3]%positive, [3%positive])).
  { vm_compute in E0. injection E0 as <-. vm_compute. reflexivity. }
  unfold mbind, option_bind in Hf. destruct (run (exec true) or_gate_run (start s0)) as [m|] eqn:Em; [|discriminate Hf].
  destruct (TaskDAG.exec (Step 2 true) (graph m)) as [s'|] eqn:Es; [|discriminate Hf]. injection Hf as Ha Hd.
  exists m, s'. pose proof or_gate_wf as Hwf.
  assert (Hin : forall (l k : list ptr) x, l = k -> x ∈ k -> x ∈ l) by (by intros l k x ->).
  assert (H3 : 3%positive ∈ accesses (graph m) (Step 2 true)) by (apply (Hin _ _ 3%positive Ha); right; by left).
  assert (H3' : 3%positive ∈ freed m) by (apply (Hin _ _ 3%positive Hd); by left).
  destruct (dag_freed_nodes_unused or_gate s0 true or_gate_run m (Step 2 true) s' 3 Hwf E0 Em Es H3 H3') as (_ & H & _).
  split_and!; first [assumption|reflexivity].
Defined.

(** [C28] An OR node is used after it is freed although the reclaimer waits for every
    guard: it stays on the lists of its other dependencies, which reach it through
    a guard they enter after it was retired.  In the run below the gate is freed
    while no guard is held, and the next step of the only call in progress reads
    it. *)
Theorem dag_or_node_used_after_free : exists s0 m,
  wf or_gate /\ Submit or_gate = Some (Running s0) /\ run (exec true) or_gate_run (start s0) = Some m /\
  freed m = [3%positive] /\ is_Some (TaskDAG.exec (Step 2 true) (graph m)) /\ accesses (graph m) (Step 2 true) = [2; 3]%positive /\
  (forall e m', exec true e m = Some m' -> exists n, e = Reclaim n).
Proof.
  destruct (Submit or_gate) as [[|s0]|] eqn:E0; [by vm_compute in E0| |by vm_compute in E0].
  exists s0. vm_compute in E0. injection E0 as <-. eexists. split; [apply or_gate_wf|].
  split; [vm_compute; reflexivity|]. split; [vm_compute; reflexivity|]. split; [reflexivity|].
  split; [vm_compute; by eexists|]. split; [vm_compute; reflexivity|].
  intros [a|n] m' H; [|eauto]. exfalso. destruct a as [[|[|[|k]]] acc|j]; vm_compute in H; done.
Qed.
