(* ===== verification/DagMemory.v ===== *)
(** * The memory of task graphs ([src/TaskDAG.cpp], [include/TaskNode.h],
      [include/LockFreeList.h] on [include/TaskAllocator.h])

    A task, a node, a node's list and every entry of the list live in slots of one
    allocator.  Here a slot that is in use holds an object of one of these types,
    and building a graph, firing its nodes, [NodeDeleter] and the rejection of a
    cyclic graph are followed allocation by allocation and free by free, and
    [OnTaskFinished] entry by entry, with what its callback does to the dependent,
    on any number of threads.  An access that does not find an object of the type
    the code expects is undefined ([Stuck]).  A retired node may be freed at any
    time: no reclaimer is assumed.  Inputs: whether [HasCycle] rejects the graph,
    and when the task of a node that was fired has run. *)
From S2P Require Import Prelude TaskAllocator Slots.

Definition UINT64_MAX : Z := 2 ^ 64 - 1.

(** [TaskNode]; a node without a task is a gate. *)
Record node := mk_node {
  task : option ptr;
  dependents : option ptr;
  gateOR : bool;                  (* gateType == OR *)
  dependencies_left : Z;
  submitted : bool
}.
Definition set_left (x : node) (k : Z) : node := mk_node (task x) (dependents x) (gateOR x) k (submitted x).
Definition set_submitted (x : node) : node := mk_node (task x) (dependents x) (gateOR x) (dependencies_left x) true.

(** What a slot holds. *)
Inductive object :=
  | OTask                                               (* Task, or a class derived from it *)
  | ONode (x : node)                                    (* TaskNode *)
  | OList (head tail : ptr)                             (* LockFreeList<TaskNode*> *)
  | OEntry (key : Z) (next : option ptr) (data : option ptr).   (* LNode<TaskNode*> *)

(** What [~TaskNode] and [Free] of a node are followed by: nothing, or [Submit]'s
    loop: the node's task, and the nodes that are left. *)
Definition rest := option (option ptr * list ptr).

(** What a node is created with: its task, or the type of a gate. *)
Definition spec : Type := option ptr * bool.
Definition new_node (k : spec) (l : option ptr) : node := mk_node k.1 l k.2 0 false.

(** Where a thread is. *)
Inductive pc :=
  | Idle
  | NList (n : ptr) (k : spec)                           (* TaskNode(k): about to allocate the list *)
  | NHead (n l : ptr) (k : spec)                         (* LockFreeList: the first sentinel *)
  | NTail (n l : ptr) (mem : option ptr) (k : spec)  (* the second one *)
  | Roots (ns : list ptr)                                (* Submit: the roots to fire *)
  | Loop (ns : list ptr)                                 (* Submit, rejected: nodes to destroy *)
  | DWalk (n l h tl curr : ptr) (r : rest)               (* ~LockFreeList *)
  | DTail (n l tl : ptr) (r : rest)
  | DList (n l : ptr) (r : rest)                         (* ~TaskNode: Free(dependents) *)
  | DNode (n : ptr) (r : rest)                           (* Free(n) *)
  | DTask (k : ptr) (ns : list ptr).

(** [nodes]: the graph the thread builds. *)
Record thread := mk_thread { nodes : list ptr; at_pc : pc }.

Definition of_option {B} (o : option B) : outcome B := match o with Some x => Ok x | None => Stuck end.
Definition as_task (h : gmap ptr object) (p : ptr) : outcome unit :=
  match h !! p with Some OTask => Ok tt | _ => Stuck end.
Definition as_node (h : gmap ptr object) (p : ptr) : outcome node :=
  match h !! p with Some (ONode x) => Ok x | _ => Stuck end.
Definition as_list (h : gmap ptr object) (p : ptr) : outcome (ptr * ptr) :=
  match h !! p with Some (OList hd tl) => Ok (hd, tl) | _ => Stuck end.
Definition as_entry (h : gmap ptr object) (p : ptr) : outcome (Z * option ptr * option ptr) :=
  match h !! p with Some (OEntry k n d) => Ok (k, n, d) | _ => Stuck end.

(** [Window::find] from [pred], when nobody else touches the list. *)
Fixpoint find (h : gmap ptr object) (fuel : nat) (pred curr : ptr) (key : Z) : outcome (ptr * ptr * Z) :=
  match fuel with
  | O => Stuck
  | S fuel =>
      '(k, next, _) ← as_entry h curr;
      if key <=? k then Ok (pred, curr, k) else succ ← of_option next; find h fuel curr succ key
  end.

(** The nodes [Submit] fires. *)
Fixpoint roots (h : gmap ptr object) (ns : list ptr) : outcome (list ptr) :=
  match ns with
  | [] => Ok []
  | n :: ns => x ← as_node h n; rs ← roots h ns; Ok (if dependencies_left x =? 0 then n :: rs else rs)
  end.

Inductive action :=
  | CreateTask (t : nat) (v : option ptr)
  | CreateNode (t : nat) (k : spec) (v : option ptr)         (* no task: CreateGate *)
  | AddDependency (t : nat) (dependent dependency : ptr)
  | Submit (t : nat) (acyclic : bool)
  | OnTaskFinished (n : ptr)                            (* by the trampoline *)
  | Visit (i : nat)                                     (* the next entry of a for_each *)
  | RunTask (t : nat) (k : ptr)
  | NodeDeleter (t : nat) (n : ptr)
  | Continue (t : nat) (v : option ptr).

Section Machine.
Context {A : Type} {SA : SlotAllocator A}.

(** [tasks]: the tasks that no unfinished node has; [lost], history: slots that
    nobody will free. *)
Record state := mk_state {
  slots : A;
  heap : gmap ptr object;
  tasks : list ptr;
  threads : list thread;
  running : list ptr;       (* Submit has accepted them; not completed *)
  walks : list (ptr * ptr); (* OnTaskFinished's for_each: the node, and curr *)
  retired : list ptr;
  lost : list ptr
}.

Definition set_mem (s : state) (a : A) (h : gmap ptr object) : state :=
  mk_state a h (tasks s) (threads s) (running s) (walks s) (retired s) (lost s).
Definition set_thread (s : state) (t : nat) (th : thread) : state :=
  mk_state (slots s) (heap s) (tasks s) (<[t := th]> (threads s)) (running s) (walks s) (retired s) (lost s).
Definition set_tasks (s : state) (l : list ptr) : state :=
  mk_state (slots s) (heap s) l (threads s) (running s) (walks s) (retired s) (lost s).
Definition set_nodes (s : state) (ru : list ptr) (wa : list (ptr * ptr)) (re : list ptr) : state :=
  mk_state (slots s) (heap s) (tasks s) (threads s) ru wa re (lost s).

(** [Alloc()] by thread [t]. *)
Definition new_slot (s : state) (t : nat) : outcome (state * option ptr) :=
  '(a, r) ← of_option (sa_alloc t (slots s)); Ok (set_mem s a (heap s), r).
(** The object at [p] becomes [o]; [v]: its first word. *)
Definition put (s : state) (p : ptr) (o : object) (v : option ptr) : outcome state :=
  a ← of_option (sa_write p v (slots s)); Ok (set_mem s a (<[p := o]> (heap s))).
(** The object at [p] changes, its first word excepted. *)
Definition change (s : state) (p : ptr) (o : object) : state := set_mem s (slots s) (<[p := o]> (heap s)).
(** The end of an object and [Free] of its slot. *)
Definition release (s : state) (t : nat) (p : ptr) : outcome state :=
  a ← of_option (sa_free t p (slots s)); Ok (set_mem s a (delete p (heap s))).

Definition without (p : ptr) (l : list ptr) : list ptr := filter (fun q => q <> p) l.
Definition take_task (k : option ptr) (l : list ptr) : list ptr :=
  match k with Some k => without k l | None => l end.

(** The beginning of [~TaskNode]: [~LockFreeList] reads its first entry. *)
Definition destroy (h : gmap ptr object) (n : ptr) (r : rest) : outcome pc :=
  x ← as_node h n; l ← of_option (dependents x); '(hd, tl) ← as_list h l;
  '(_, next, _) ← as_entry h hd; curr ← of_option next; Ok (DWalk n l hd tl curr r).

(** [LockFreeList]'s constructor from the second allocation on, and what is left of
    [TaskNode]'s and [CreateNode]. *)
Definition finish_node (s : state) (t : nat) (ns : list ptr) (n l : ptr) (hd tl : option ptr) (k : spec) (v : option ptr)
    : outcome state :=
  hd ← of_option hd;
  s ← put s hd (OEntry 0 None None) v;
  tl ← of_option tl;
  s ← put s tl (OEntry UINT64_MAX None None) v;
  s ← put s hd (OEntry 0 (Some tl) None) (Some tl);
  s ← put s l (OList hd tl) v;
  s ← put s n (ONode (new_node k (Some l))) v;
  Ok (set_thread s t (mk_thread (ns ++ [n]) Idle)).

(** [dependency->dependents->add(key, dependent)]. *)
Definition add (s : state) (t : nat) (l d : ptr) : outcome state :=
  '(hd, tl) ← as_list (heap s) l;
  '(_, first, _) ← as_entry (heap s) hd;
  first ← of_option first;
  '(pred, curr, k) ← find (heap s) (size (heap s)) hd first (Z.pos d);
  if k =? Z.pos d then Ok s
  else
    '(s, r) ← new_slot s t;
    p ← of_option r;
    s ← put s p (OEntry (Z.pos d) (Some curr) (Some d)) (Some curr);
    '(kp, _, dp) ← as_entry (heap s) pred;
    put s pred (OEntry kp (Some p) dp) (Some p).

(** The beginning of [OnTaskFinished(n)]: [for_each] reads the first entry. *)
Definition begin_walk (s : state) (n : ptr) : outcome state :=
  x ← as_node (heap s) n; l ← of_option (dependents x); '(hd, _) ← as_list (heap s) l;
  '(_, first, _) ← as_entry (heap s) hd; first ← of_option first;
  Ok (set_nodes s (without n (running s)) (walks s ++ [(n, first)]) (retired s)).

(** [Fire(n)]: the task's [fn] and [data] are overwritten; a gate completes at once
    (on the stack of its predecessor's [for_each]; here its own [for_each] may take
    turns with any other). *)
Definition fire (s : state) (n : ptr) : outcome state :=
  x ← as_node (heap s) n;
  if submitted x then Ok s
  else
    let s := change s n (ONode (set_submitted x)) in
    match task x with
    | None => begin_walk s n
    | Some k => _ ← as_task (heap s) k; Ok s
    end.

(** The callback of [OnTaskFinished] on the dependent [d]. *)
Definition trigger (s : state) (d : ptr) : outcome state :=
  x ← as_node (heap s) d;
  if gateOR x then fire s d
  else
    let left := dependencies_left x - 1 in
    let s := change s d (ONode (set_left x left)) in
    if left =? 0 then fire s d else Ok s.

(** The next allocation or [Free] of an operation in progress. *)
Definition continue (s : state) (t : nat) (ns : list ptr) (c : pc) (v : option ptr) : outcome state :=
  let go (s : state) c := set_thread s t (mk_thread ns c) in
  match c with
  | Idle => Blocked
  | NList n k =>
      '(s, r) ← new_slot s t;
      match r with
      | Some l => Ok (go s (NHead n l k))
      | None =>                          (* throw: the node's slot is not freed *)
          Ok (go (mk_state (slots s) (delete n (heap s)) (tasks s ++ option_list k.1) (threads s) (running s)
                    (walks s) (retired s) (n :: lost s)) Idle)
      end
  | NHead n l k => '(s, r) ← new_slot s t; Ok (go s (NTail n l r k))
  | NTail n l mem k => '(s, r) ← new_slot s t; finish_node s t ns n l mem r k v
  | Roots [] => Ok (go s Idle)
  | Roots (n :: ms) => fire (go s (Roots ms)) n
  | Loop [] => Ok (go s Idle)
  | Loop (n :: ms) => x ← as_node (heap s) n; c ← destroy (heap s) n (Some (task x, ms)); Ok (go s c)
  | DWalk n l h tl curr r =>
      if decide (curr = tl) then s ← release s t h; Ok (go s (DTail n l tl r))
      else
        '(_, next, _) ← as_entry (heap s) curr;
        s ← release s t curr;
        next ← of_option next;
        Ok (go s (DWalk n l h tl next r))
  | DTail n l tl r => s ← release s t tl; Ok (go s (DList n l r))
  | DList n l r => s ← release s t l; Ok (go s (DNode n r))
  | DNode n r =>
      s ← release s t n;
      Ok (go s match r with None => Idle | Some (Some k, ms) => DTask k ms | Some (None, ms) => Loop ms end)
  | DTask k ms => _ ← as_task (heap s) k; s ← release s t k; Ok (go s (Loop ms))
  end.

(** The operations that start on a thread with nothing in progress. *)
Definition begin (s : state) (t : nat) (ns : list ptr) (x : action) : outcome state :=
  match x with
  | CreateTask _ v =>
      '(s, r) ← new_slot s t;
      match r with None => Ok s | Some p => s ← put s p OTask v; Ok (set_tasks s (tasks s ++ [p])) end
  | CreateNode _ k v =>
      if decide (Forall (fun p => p ∈ tasks s) (option_list k.1)) then
        '(s, r) ← new_slot s t;
        match r with
        | None => Ok s
        | Some n => s ← put s n (ONode (new_node k None)) v;
                    Ok (set_thread (set_tasks s (take_task k.1 (tasks s))) t (mk_thread ns (NList n k)))
        end
      else Blocked
  | AddDependency _ d n =>
      if decide (d ∈ ns /\ n ∈ ns) then
        y ← as_node (heap s) d;
        let s := change s d (ONode (set_left y (dependencies_left y + 1))) in
        x ← as_node (heap s) n; l ← of_option (dependents x); add s t l d
      else Blocked
  | Submit _ acyclic =>
      if acyclic : bool then
        rs ← roots (heap s) ns;
        Ok (set_thread (set_nodes s (running s ++ ns) (walks s) (retired s)) t (mk_thread [] (Roots rs)))
      else Ok (set_thread s t (mk_thread [] (Loop ns)))
  | RunTask _ k =>
      if decide (k ∈ tasks s) then
        _ ← as_task (heap s) k; s ← release s t k; Ok (set_tasks s (without k (tasks s)))
      else Blocked
  | NodeDeleter _ n =>
      if decide (n ∈ retired s) then
        c ← destroy (heap s) n None;
        Ok (set_thread (set_nodes s (running s) (walks s) (without n (retired s))) t (mk_thread ns c))
      else Blocked
  | OnTaskFinished _ | Visit _ | Continue _ _ => Blocked
  end.

(** The trampoline of a fired node whose task has run. *)
Definition finish (s : state) (n : ptr) : outcome state :=
  if decide (n ∈ running s) then
    x ← as_node (heap s) n;
    if submitted x && bool_decide (is_Some (task x)) then begin_walk s n else Blocked
  else Blocked.

(** An iteration of the loop: the successor is read before the callback.  At the
    tail the node is retired, and its task is now only its runner's. *)
Definition visit (s : state) (i : nat) : outcome state :=
  match walks s !! i with
  | None => Blocked
  | Some (n, curr) =>
      x ← as_node (heap s) n; l ← of_option (dependents x); '(_, tl) ← as_list (heap s) l;
      if decide (curr = tl) then
        Ok (set_tasks (set_nodes s (running s) (delete i (walks s)) (retired s ++ [n])) (tasks s ++ option_list (task x)))
      else
        '(_, next, d) ← as_entry (heap s) curr; next ← of_option next; d ← of_option d;
        trigger (set_nodes s (running s) (<[i := (n, next)]> (walks s)) (retired s)) d
  end.

Definition step (x : action) (s : state) : outcome state :=
  match x with
  | OnTaskFinished n => finish s n
  | Visit i => visit s i
  | CreateTask t _ | CreateNode t _ _ | AddDependency t _ _ | Submit t _ | RunTask t _ | NodeDeleter t _
  | Continue t _ =>
      match threads s !! t with
      | Some th =>
          match x, at_pc th with
          | Continue _ v, c => continue s t (nodes th) c v
          | _, Idle => begin s t (nodes th) x
          | _, _ => Blocked
          end
      | None => Blocked
      end
  end.

Definition start (a : A) : state := mk_state a ∅ [] (replicate (sa_threads a) (mk_thread [] Idle)) [] [] [] [].

(** No [OR] node is given a second dependency: [dag_or_node_used_after_free] of
    [DagReclaim.v] shows what happens to one that has two. *)
Definition ordinary (s : state) (x : action) : Prop :=
  match x with
  | AddDependency _ d _ =>
      match heap s !! d with Some (ONode y) => gateOR y = true -> dependencies_left y = 0 | _ => True end
  | _ => True
  end.
#[global] Instance ordinary_dec s x : Decision (ordinary s x).
Proof. unfold ordinary. repeat case_match; apply _. Defined.
End Machine.
