(* ===== verification/DagSlots.v ===== *)
(** * The slots of task graphs: types, ownership, capacity

    The theorems about the machine of [DagMemory.v].  At every moment the slots in
    use are divided into pieces, each with one owner (a task to be run, a node that
    is built, running, retired or being destroyed, an operation in progress) and
    each described by what its owner relies on; an operation exchanges its own
    pieces and leaves the others alone. *)
From S2P Require Import Prelude TaskAllocator Slots TaskCanary DagMemory.

(** ** Who holds which slot *)

(** An entry and the dependent it is for. *)
Abbreviation entry := (ptr * option ptr)%type.

(** Pieces of the heap with one owner: a slot with nothing to rely on, an object,
    and the entries [es] linked from [p] up to [q]. *)
Inductive item := IRaw (p : ptr) | IObj (p : ptr) (o : object) | ISeg (p : ptr) (es : list entry) (q : ptr).

Definition islots (i : item) : list ptr :=
  match i with IRaw p | IObj p _ => [p] | ISeg _ es _ => es.*1 end.

Fixpoint lseg (h : gmap ptr object) (p : ptr) (es : list entry) (q : ptr) : Prop :=
  match es with
  | [] => p = q
  | e :: es => p = e.1 /\ exists k n, h !! e.1 = Some (OEntry k (Some n) e.2) /\ lseg h n es q
  end.
Definition rep (h : gmap ptr object) (i : item) : Prop :=
  match i with IRaw _ => True | IObj p o => h !! p = Some o | ISeg p es q => lseg h p es q end.

Lemma lseg_frame h h' p es q : (forall x, x ∈ es.*1 -> h' !! x = h !! x) -> lseg h p es q -> lseg h' p es q.
Proof.
  revert p. induction es as [|e es IH]; intros p Hh; [done|]. intros [-> (k & n & He & Hs)].
  split; [done|]. exists k, n. rewrite Hh by (by left). split; [done|]. apply IH; [|done]. intros x Hx. apply Hh. by right.
Qed.
Lemma lseg_app h p es1 es2 q : lseg h p (es1 ++ es2) q <-> exists m, lseg h p es1 m /\ lseg h m es2 q.
Proof.
  revert p. induction es1 as [|e es1 IH]; intros p; simpl.
  - split; [by exists p|by intros (m & -> & H)].
  - split.
    + intros (-> & k & n & He & (m & H1 & H2)%IH). exists m. split; [|done]. split; [done|]. by exists k, n.
    + intros (m & (-> & k & n & He & H1) & H2). split; [done|]. exists k, n. split; [done|]. apply IH. by exists m.
Qed.
Lemma rep_frame h h' i : (forall x, x ∈ islots i -> h' !! x = h !! x) -> rep h i -> rep h' i.
Proof. destruct i; simpl; intros Hh; [done| |by apply lseg_frame]. rewrite Hh; [done|by left]. Qed.

(** The pieces [I] are the slots [L], each once, and they are as they say. *)
Definition owns (h : gmap ptr object) (L : list ptr) (I : list item) : Prop := (I ≫= islots) ≡ₚ L /\ Forall (rep h) I.

#[global] Instance owns_proper h L : Proper ((≡ₚ) ==> iff) (owns h L).
Proof. intros I I' E. unfold owns. by rewrite E. Qed.

(** Some pieces are exchanged; the rest is not touched. *)
Lemma owns_update h h' L L' x x' I :
  owns h L (x ++ I) -> NoDup L -> (x' ≫= islots) ++ (I ≫= islots) ≡ₚ L' -> NoDup L' ->
  (forall p, p ∉ (x ≫= islots) -> p ∉ (x' ≫= islots) -> h' !! p = h !! p) -> Forall (rep h') x' -> owns h' L' (x' ++ I).
Proof.
  intros [Hp Hr] Hnd Hp' Hnd' Hh Hx. split; [by rewrite bind_app|]. apply Forall_app. split; [done|].
  apply Forall_app in Hr as [_ Hr]. rewrite <- Hp, bind_app in Hnd. rewrite <- Hp' in Hnd'.
  apply NoDup_app in Hnd as (_ & Hd & _). apply NoDup_app in Hnd' as (_ & Hd' & _).
  rewrite Forall_forall in *. intros i Hi. apply (rep_frame h); [|auto]. intros p Hpi.
  assert (Hin : p ∈ I ≫= islots) by (apply list_elem_of_bind; eauto). apply Hh; intros ?; [by apply (Hd p)|by apply (Hd' p)].
Qed.

Lemma owns_seg h L p e es q I :
  owns h L (ISeg p (e :: es) q :: I) <-> p = e.1 /\ exists k n, owns h L (IObj e.1 (OEntry k (Some n) e.2) :: ISeg n es q :: I).
Proof.
  unfold owns. cbn. rewrite Forall_cons. cbn. split.
  - intros (Hp & (-> & k & n & He & Hs) & Hr). split; [done|]. exists k, n. rewrite !Forall_cons. done.
  - intros (-> & k & n & Hp & Hr). rewrite !Forall_cons in Hr. destruct Hr as (He & Hs & Hr). split_and!; try done. by exists k, n.
Qed.
(** A walk that has come to [m]. *)
Lemma owns_seg_app h L p es1 es2 q I :
  owns h L (ISeg p (es1 ++ es2) q :: I) <-> exists m, owns h L (ISeg p es1 m :: ISeg m es2 q :: I).
Proof.
  assert (E : forall m, [ISeg p es1 m; ISeg m es2 q] ≫= islots = [ISeg p (es1 ++ es2) q] ≫= islots).
  { intros m. cbn. by rewrite !app_nil_r, fmap_app. }
  unfold owns. setoid_rewrite Forall_cons. setoid_rewrite Forall_cons. setoid_rewrite lseg_app. split.
  - intros (Hp & (m & H1 & H2) & Hr). exists m. split_and!; try done. rewrite <- Hp.
    change (ISeg p es1 m :: ISeg m es2 q :: I) with ([ISeg p es1 m; ISeg m es2 q] ++ I).
    change (ISeg p (es1 ++ es2) q :: I) with ([ISeg p (es1 ++ es2) q] ++ I). by rewrite !bind_app, E.
  - intros (m & Hp & H1 & H2 & Hr). split_and!; try done; [|by exists m]. rewrite <- Hp.
    change (ISeg p es1 m :: ISeg m es2 q :: I) with ([ISeg p es1 m; ISeg m es2 q] ++ I).
    change (ISeg p (es1 ++ es2) q :: I) with ([ISeg p (es1 ++ es2) q] ++ I). by rewrite !bind_app, E.
Qed.
Lemma owns_weaken h L p o I : owns h L (IObj p o :: I) -> owns h L (IRaw p :: I).
Proof. intros [Hp Hr]. split; [done|]. apply Forall_cons in Hr as [_ Hr]. by constructor. Qed.
Lemma owns_lookup h L p o I : owns h L (IObj p o :: I) -> h !! p = Some o.
Proof. by intros [_ [H _]%Forall_cons]. Qed.

Lemma owns_split h L x es1 p es2 q k c I :
  lseg h x es1 p.1 -> h !! p.1 = Some (OEntry k (Some c) p.2) -> lseg h c es2 q ->
  owns h L (ISeg x (es1 ++ p :: es2) q :: I) -> owns h L (IObj p.1 (OEntry k (Some c) p.2) :: ISeg x es1 p.1 :: ISeg c es2 q :: I).
Proof.
  intros H1 Hp H2 [HP HR]. apply Forall_cons in HR as [_ HR]. split; [|by repeat constructor].
  cbn in *. rewrite <- HP, fmap_app. cbn. solve_Permutation.
Qed.
Lemma owns_join h L x es1 p k q kq c es2 tl I :
  owns h L (IObj p.1 (OEntry k (Some q.1) p.2) :: IObj q.1 (OEntry kq (Some c) q.2) :: ISeg x es1 p.1 :: ISeg c es2 tl :: I) ->
  owns h L (ISeg x (es1 ++ p :: q :: es2) tl :: I).
Proof.
  intros [HP HR]. rewrite !Forall_cons in HR. destruct HR as (Hp & Hq & H1 & H2 & HR).
  split; [cbn in *; rewrite <- HP, fmap_app; cbn; solve_Permutation|]. constructor; [|done]. apply lseg_app. exists p.1. split; [done|].
  split; [done|]. exists k, q.1. split; [done|]. split; [done|]. by exists kq, c.
Qed.

(** [find] ends at the tail or before. *)
Lemma find_ok h x pred es tl key fuel :
  lseg h x (pred :: es) tl -> h !! tl = Some (OEntry UINT64_MAX None None) -> key <= UINT64_MAX -> (length es < fuel)%nat ->
  exists k0 first p c k kp es1 es2, h !! pred.1 = Some (OEntry k0 (Some first) pred.2) /\
    find h fuel pred.1 first key = Ok (p.1, c, k) /\ pred :: es = es1 ++ p :: es2 /\ lseg h x es1 p.1 /\
    h !! p.1 = Some (OEntry kp (Some c) p.2) /\ lseg h c es2 tl.
Proof.
  intros [-> (k0 & first & Hp & Hs)] Htl Hkey. revert fuel pred k0 first Hp Hs.
  induction es as [|e es IH]; intros [|fuel] pred k0 first Hp Hs Hf; simpl in Hf; try lia.
  - simpl in Hs. subst first. exists k0, tl, pred, tl, UINT64_MAX, k0, [], []. split; [done|]. split; [|done].
    simpl. unfold as_entry. rewrite Htl. cbn [mbind outcome_bind]. by rewrite (proj2 (Z.leb_le _ _) Hkey).
  - destruct Hs as [-> (k1 & n1 & He & Hs)].
    destruct (Z.leb_spec key k1) as [Hle|Hlt].
    + exists k0, e.1, pred, e.1, k1, k0, [], (e :: es). split; [done|]. split; [|split_and!; try done; split; [done|by exists k1, n1]].
      simpl. unfold as_entry. rewrite He. cbn [mbind outcome_bind]. by rewrite (proj2 (Z.leb_le _ _) Hle).
    + destruct (IH fuel e k1 n1 He Hs) as (k2 & f2 & p & c & k & kp & es1 & es2 & He' & Hfind & E & H1 & H2 & H3); [lia|].
      assert (f2 = n1) as -> by congruence. exists k0, e.1, p, c, k, kp, (pred :: es1), es2. split; [done|].
      split; [|split; [by rewrite E|]; split; [split; [done|by exists k0, e.1]|done]].
      simpl. unfold as_entry. rewrite He. cbn [mbind outcome_bind of_option]. by rewrite (proj2 (Z.leb_gt _ _) Hlt).
Qed.

(** A node: its task, the slots of its list, and where its countdown is. *)
Record node_slots := mk_node_slots {
  x_task : option ptr; x_list : ptr; x_head : ptr; x_tail : ptr; x_entries : list entry;
  x_or : bool; x_left : Z; x_sub : bool }.
Definition x_node (X : node_slots) : node := mk_node (x_task X) (Some (x_list X)) (x_or X) (x_left X) (x_sub X).
Definition with_entries (X : node_slots) (es : list entry) : node_slots :=
  mk_node_slots (x_task X) (x_list X) (x_head X) (x_tail X) es (x_or X) (x_left X) (x_sub X).
Definition with_state (X : node_slots) (k : Z) (b : bool) : node_slots :=
  mk_node_slots (x_task X) (x_list X) (x_head X) (x_tail X) (x_entries X) (x_or X) k b.

Definition owned_task (k : option ptr) : list item := (fun p => IObj p OTask) <$> option_list k.
Definition sentinel (p : ptr) : item := IObj p (OEntry UINT64_MAX None None).
Definition body (x : ptr * node_slots) : list item :=
  [IObj x.1 (ONode (x_node x.2)); IObj (x_list x.2) (OList (x_head x.2) (x_tail x.2));
   ISeg (x_head x.2) ((x_head x.2, None) :: x_entries x.2) (x_tail x.2); sentinel (x_tail x.2)].
Definition full (x : ptr * node_slots) : list item := body x ++ owned_task (x_task x.2).

(** A node in its [for_each]: the entries behind and those to come. *)
Record walk := mk_walk { w_node : ptr * node_slots; w_curr : ptr; w_todo : list entry }.
Definition w_at (w : walk) : ptr * ptr := ((w_node w).1, w_curr w).
Definition w_items (w : walk) : list item :=
  let '(n, X) := w_node w in
  [IObj n (ONode (x_node X)); IObj (x_list X) (OList (x_head X) (x_tail X));
   ISeg (x_head X) ((x_head X, None) :: x_entries X) (w_curr w); ISeg (w_curr w) (w_todo w) (x_tail X);
   sentinel (x_tail X)] ++ owned_task (x_task X).

(** *** Graphs

    [ts]: the dependents that visits to come are for. *)
Definition targets (x : ptr * node_slots) : list (option ptr) := (x_entries x.2).*2.
Definition fits (ts : list (option ptr)) (x : ptr * node_slots) : Prop :=
  if x_sub x.2 then occ (Some x.1) ts = 0%nat
  else Z.of_nat (occ (Some x.1) ts) <= x_left x.2 /\ (x_or x.2 = true -> x_left x.2 <= 1).
Definition closed (ts : list (option ptr)) (G : list (ptr * node_slots)) : Prop :=
  Forall (fits ts) G /\ Forall (fun d => d ∈ Some <$> G.*1) ts.
(** A graph that is being built. *)
Definition building (N : list (ptr * node_slots)) : Prop :=
  closed (N ≫= targets) N /\ Forall (fun x => x_sub x.2 = false) N.

Definition rest_items (r : rest) (l : list item) : Prop :=
  match r with None => l = [] | Some (k, ms) => exists M, M.*1 = ms /\ l = owned_task k ++ (M ≫= full) end.

Definition pc_items (c : pc) (l : list item) : Prop :=
  match c with
  | Idle | Roots _ => l = []
  | NList n k => l = IObj n (ONode (new_node k None)) :: owned_task k.1
  | NHead n i k => l = IObj n (ONode (new_node k None)) :: IRaw i :: owned_task k.1
  | NTail n i mem k => l = IObj n (ONode (new_node k None)) :: IRaw i :: (IRaw <$> option_list mem) ++ owned_task k.1
  | Loop ns => exists M, M.*1 = ns /\ l = M ≫= full
  | DWalk n i hd tl curr r => exists es R, rest_items r R /\ l = IRaw n :: IRaw i :: IRaw hd :: ISeg curr es tl :: sentinel tl :: R
  | DTail n i tl r => exists R, rest_items r R /\ l = IRaw n :: IRaw i :: IRaw tl :: R
  | DList n i r => exists R, rest_items r R /\ l = IRaw n :: IRaw i :: R
  | DNode n r => exists R, rest_items r R /\ l = IRaw n :: R
  | DTask k ms => exists M, M.*1 = ms /\ l = IObj k OTask :: (M ≫= full)
  end.
Definition thread_items (th : thread) (l : list item) : Prop :=
  exists N P, N.*1 = nodes th /\ building N /\ pc_items (at_pc th) P /\ l = (N ≫= full) ++ P.

(** The visits to come of the nodes [R] and of the walks [W]. *)
Definition due (R : list (ptr * node_slots)) (W : list walk) : list (option ptr) :=
  (R ≫= targets) ++ (W ≫= fun w => (w_todo w).*2).
(** The roots that threads in [Submit] are about to fire. *)
Definition pc_roots (c : pc) : list ptr := match c with Roots ns => ns | _ => [] end.
Definition root_of (R : list (ptr * node_slots)) (p : ptr) : Prop :=
  exists X, (p, X) ∈ R /\ x_sub X = false /\ x_left X = 0.
Definition roots_ok (R : list (ptr * node_slots)) (ths : list thread) : Prop :=
  let ps := ths ≫= fun th => pc_roots (at_pc th) in NoDup ps /\ Forall (root_of R) ps.

Section Safety.
Context {A : Type} {SA : SlotAllocator A} (cap : Z) (n_threads : nat).
Abbreviation state := (@state A).

Definition mem_ok (a : A) (h : gmap ptr object) (I : list item) : Prop :=
  sa_ok a /\ sa_capacity a = cap /\ sa_threads a = n_threads /\ owns h (sa_held a) I.

#[global] Instance mem_ok_proper a h : Proper ((≡ₚ) ==> iff) (mem_ok a h).
Proof. intros I I' E. unfold mem_ok. by rewrite E. Qed.

Lemma mem_ok_held a h I : mem_ok a h I -> NoDup (I ≫= islots) /\ (forall p, p ∈ I ≫= islots -> Z.pos p < 2 ^ 64).
Proof.
  intros (Ha & _ & _ & Hp & _). split; [rewrite Hp; by apply sa_nodup|]. intros p Hin. rewrite Hp in Hin. by eapply sa_address.
Qed.

(** *** The operations on slots *)

Definition few_free (a : A) : Prop := cap - Z.of_nat (length (sa_held a)) <= 64 * (Z.of_nat n_threads - 1).

Lemma new_slot_ok (s : state) t I : mem_ok (slots s) (heap s) I -> (t < n_threads)%nat ->
  exists a r, new_slot s t = Ok (set_mem s a (heap s), r) /\
    match r with Some p => mem_ok a (heap s) (IRaw p :: I) /\ length (sa_held a) = S (length (sa_held (slots s)))
               | None => mem_ok a (heap s) I /\ few_free (slots s) /\ length (sa_held a) = length (sa_held (slots s)) end.
Proof.
  intros (Ha & Hc & Hn & Hp & Hr) Ht. unfold new_slot, few_free.
  destruct (sa_alloc_ok (slots s) t Ha) as (a & r & E & Ha' & Hc' & Hn' & H); [lia|]. rewrite E. exists a, r. split; [done|].
  destruct r as [p|]; destruct H as [H1 H2].
  - unfold mem_ok. rewrite H2. split; [|done]. split_and!; try congruence. split; [cbn; by rewrite Hp|by constructor].
  - rewrite H1. split_and!; [split_and!; [done|congruence..|split; by rewrite ?H1]|congruence|done].
Qed.

Lemma put_ok (s : state) i p o v I : islots i = [p] -> mem_ok (slots s) (heap s) (i :: I) ->
  exists a, put s p o v = Ok (set_mem s a (<[p := o]> (heap s))) /\ mem_ok a (<[p := o]> (heap s)) (IObj p o :: I) /\
    sa_held a = sa_held (slots s).
Proof.
  intros Hi (Ha & Hc & Hn & Ho). pose proof Ho as [Hp Hr]. cbn in Hp. rewrite Hi in Hp. unfold put.
  destruct (sa_write_ok (slots s) p v Ha) as (a & E & Ha' & Hc' & Hn' & Hh); [rewrite <- Hp; by left|].
  rewrite E. exists a. split; [done|]. split; [|done]. split_and!; [done|congruence..|]. rewrite Hh. pose proof (sa_nodup _ Ha) as Hnd.
  apply (owns_update (heap s) _ (sa_held (slots s)) _ [i] [IObj p o] I); try done.
  - intros q _ Hq. apply lookup_insert_ne. intros ->. apply Hq. by left.
  - repeat constructor. simpl. by rewrite lookup_insert_eq.
Qed.

Lemma release_ok (s : state) t i p I : islots i = [p] -> mem_ok (slots s) (heap s) (i :: I) -> (t < n_threads)%nat ->
  exists a, release s t p = Ok (set_mem s a (delete p (heap s))) /\ mem_ok a (delete p (heap s)) I /\
    length (sa_held (slots s)) = S (length (sa_held a)).
Proof.
  intros Hi (Ha & Hc & Hn & Ho) Ht. pose proof Ho as [Hp Hr]. cbn in Hp. rewrite Hi in Hp. unfold release.
  destruct (sa_free_ok (slots s) t p Ha) as (a & E & Ha' & Hc' & Hn' & Hh); [lia|rewrite <- Hp; by left|].
  rewrite E. exists a. split; [done|]. split; [|by rewrite Hh]. split_and!; [done|congruence..|]. pose proof (sa_nodup _ Ha) as Hnd.
  pose proof (sa_nodup _ Ha') as Hnd'. rewrite Hh in Hp. apply (Permutation_app_inv_l [p]) in Hp.
  apply (owns_update (heap s) _ (sa_held (slots s)) _ [i] [] I); try done.
  intros q Hq _. apply lookup_delete_ne. intros ->. apply Hq. cbn. rewrite Hi. by left.
Qed.

(** *** Where the pieces are *)

Definition task_items (l : list ptr) : list item := (fun p => IObj p OTask) <$> l.

(** The pieces: of the tasks, the threads, the running nodes [R], the walks [W] and
    the retired nodes [Q].  [xs]: visits that have begun. *)
Definition pieces (s : state) (T : list (list item)) R W Q : list item :=
  task_items (tasks s) ++ concat T ++ (R ≫= full) ++ (W ≫= w_items) ++ (Q ≫= body) ++ (IRaw <$> lost s).

Definition shape (xs : list (option ptr)) (s : state) (T : list (list item)) R W (Q : list (ptr * node_slots)) : Prop :=
  length (threads s) = n_threads /\ Forall2 thread_items (threads s) T /\
  R.*1 = running s /\ w_at <$> W = walks s /\ Q.*1 = retired s /\
  closed (xs ++ due R W) R /\ roots_ok R (threads s).

Definition layout (s : state) (I : list item) : Prop := exists T R W Q, shape [] s T R W Q /\ I ≡ₚ pieces s T R W Q.

#[global] Instance layout_proper s : Proper ((≡ₚ) ==> iff) (layout s).
Proof. intros I I' E. unfold layout. by setoid_rewrite E. Qed.

Lemma layout_length s I : layout s I -> length (threads s) = n_threads.
Proof. by intros (T & R & W & Q & (H & _) & _). Qed.

Lemma roots_insert R ths t th th' :
  ths !! t = Some th -> pc_roots (at_pc th') = pc_roots (at_pc th) -> roots_ok R ths -> roots_ok R (<[t := th']> ths).
Proof.
  intros Ht E. unfold roots_ok.
  assert (EP : (<[t := th']> ths ≫= fun th => pc_roots (at_pc th)) = (ths ≫= fun th => pc_roots (at_pc th))); [|by rewrite EP].
  revert t Ht. induction ths as [|u ths IH]; intros [|t] Ht; [done|done| |].
  - injection Ht as ->. change (<[0%nat := th']> (th :: ths)) with (th' :: ths). by rewrite !bind_cons, E.
  - change (<[S t := th']> (u :: ths)) with (u :: <[t := th']> ths). rewrite !bind_cons. f_equal. by apply IH.
Qed.

Lemma layout_thread (s : state) t th I : threads s !! t = Some th -> layout s I ->
  exists l rest, thread_items th l /\ I ≡ₚ l ++ rest /\
    forall th' l', thread_items th' l' -> pc_roots (at_pc th') = pc_roots (at_pc th) ->
      layout (set_thread s t th') (l' ++ rest).
Proof.
  intros Ht (T & R & W & Q & (Hn & HT & HR & HW & HQ & Hg & Hrt) & HI). destruct (Forall2_lookup_l _ _ _ _ _ HT Ht) as (l & Hl & Hth).
  set (others := concat (take t T ++ drop (S t) T)).
  assert (E : forall l', concat (<[t := l']> T) ≡ₚ l' ++ others) by (intros l'; apply (concat_split T t l l' Hl)).
  pose proof (E l) as El. rewrite list_insert_id in El by done.
  exists l, (task_items (tasks s) ++ others ++ (R ≫= full) ++ (W ≫= w_items) ++ (Q ≫= body) ++ (IRaw <$> lost s)). split; [done|].
  split; [rewrite HI; unfold pieces; rewrite El; solve_Permutation|]. intros th' l' Hl' Hro.
  exists (<[t := l']> T), R, W, Q. split; [split_and!; simpl; try done|].
  - by rewrite length_insert.
  - by apply Forall2_insert.
  - by eapply roots_insert.
  - unfold pieces. rewrite E. simpl. solve_Permutation.
Qed.

Lemma layout_same (s : state) t th I : threads s !! t = Some th -> layout (set_thread s t th) I -> layout s I.
Proof.
  intros Ht (T & R & W & Q & (Hn & HT & HR & HW & HQ & Hg & Hrt) & HI). simpl in *. rewrite list_insert_id in Hn, HT, Hrt by done.
  by exists T, R, W, Q.
Qed.

Lemma layout_more_tasks (s : state) l I : layout s I -> layout (set_tasks s (tasks s ++ l)) (task_items l ++ I).
Proof.
  intros (T & R & W & Q & HS & HI). exists T, R, W, Q. split; [done|].
  unfold pieces, task_items in *. simpl. rewrite HI, fmap_app, <- app_assoc. by rewrite (Permutation_app_swap_app (_ <$> l)).
Qed.
(** Removing one of the items of a list without duplicates. *)
Lemma without_split {B} (f : B -> ptr) (l : list B) p : NoDup (f <$> l) -> p ∈ f <$> l ->
  exists x k, f x = p /\ l ≡ₚ x :: k /\ f <$> k = without p (f <$> l).
Proof.
  induction l as [|y l IH]; intros Hnd Hp; [by apply not_elem_of_nil in Hp|]. cbn in *. apply NoDup_cons in Hnd as [Hy Hnd].
  apply elem_of_cons in Hp as [->|Hp].
  - exists y, l. split_and!; try done. unfold without. rewrite decide_False by tauto. symmetry.
    by apply filter_absent.
  - destruct (IH Hnd Hp) as (x & k & Hx & HP & Hk). exists x, (y :: k). split_and!; [done|by rewrite HP, Permutation_swap|].
    unfold without in *. cbn. rewrite decide_True by congruence. by rewrite Hk.
Qed.

(** The nodes of pieces that are all different are different. *)
Lemma nodes_nodup (F : ptr * node_slots -> list item) M :
  (forall x, exists l, F x ≫= islots = x.1 :: l) -> NoDup ((M ≫= F) ≫= islots) -> NoDup M.*1.
Proof.
  intros HF. induction M as [|x M IH]; [constructor|]. rewrite bind_cons, bind_app. intros (_ & Hd & Hnd)%NoDup_app.
  cbn. constructor; [|by apply IH]. destruct (HF x) as [l Hl]. intros (y & E & Hy)%list_elem_of_fmap. apply (Hd x.1).
  - rewrite Hl. by left.
  - destruct (HF y) as [k Hk]. rewrite E. apply list_elem_of_bind.
    assert (Hin : y.1 ∈ F y ≫= islots) by (rewrite Hk; by left). apply list_elem_of_bind in Hin as (i & Hi & HiF).
    exists i. split; [done|]. apply list_elem_of_bind. by exists y.
Qed.

Lemma pieces_nodup xs s T R W Q : shape xs s T R W Q -> NoDup (pieces s T R W Q ≫= islots) ->
  NoDup (tasks s) /\ NoDup R.*1 /\ NoDup Q.*1 /\ (forall p, p ∈ tasks s -> p ∈ pieces s T R W Q ≫= islots).
Proof.
  intros _ Hnd. unfold pieces in *. rewrite !bind_app in *.
  assert (Ht : task_items (tasks s) ≫= islots = tasks s) by (clear; induction (tasks s) as [|x l IH]; cbn; [done|by f_equal]).
  rewrite Ht in *. apply NoDup_app in Hnd as (H1 & _ & Hnd). apply NoDup_app in Hnd as (_ & _ & Hnd).
  apply NoDup_app in Hnd as (H2 & _ & Hnd). apply NoDup_app in Hnd as (_ & _ & Hnd). apply NoDup_app in Hnd as (H3 & _ & _).
  split_and!; try done; [| |intros p Hp; apply elem_of_app; by left].
  - eapply (nodes_nodup full); [|done]. by eexists.
  - eapply (nodes_nodup body); [|done]. by eexists.
Qed.
Lemma thread_slots (s : state) I t th p : layout s I -> threads s !! t = Some th -> p ∈ nodes th -> p ∈ I ≫= islots.
Proof.
  intros HL Ht Hp. destruct (layout_thread s t th I Ht HL) as (l & r & (N & P & HN & _ & _ & ->) & -> & _).
  rewrite !bind_app, !elem_of_app. left. left. rewrite <- HN in Hp. apply list_elem_of_fmap in Hp as (x & -> & Hx).
  apply list_elem_of_bind. exists (IObj x.1 (ONode (x_node x.2))). split; [by left|].
  apply list_elem_of_bind. exists x. split; [by left|done].
Qed.

Section Take.
Context (s : state) (I : list item) (HL : layout s I) (Hnd : NoDup (I ≫= islots)).

Lemma layout_take_task k : Forall (fun p => p ∈ tasks s) (option_list k) ->
  exists rest, I ≡ₚ owned_task k ++ rest /\ layout (set_tasks s (take_task k (tasks s))) rest.
Proof.
  pose proof HL as (T & R & W & Q & HS & HI). pose proof Hnd as Hnd'. rewrite HI in Hnd'.
  destruct (pieces_nodup _ _ _ _ _ _ HS Hnd') as (Ht & _). destruct k as [k|]; cbn;
    [|exists I; split; [done|by destruct s]].
  intros [Hk _]%Forall_cons. destruct (without_split id (tasks s) k) as (x & l & Hx & Hp & Hl); [by rewrite list_fmap_id|by rewrite list_fmap_id|].
  rewrite !list_fmap_id in Hl. cbn in Hx. subst x l.
  exists (pieces (set_tasks s (without k (tasks s))) T R W Q). split; [|by exists T, R, W, Q].
  rewrite HI. unfold pieces, task_items. simpl. generalize dependent (without k (tasks s)). intros l Hp. by rewrite Hp.
Qed.
Lemma layout_take_retired n : n ∈ retired s ->
  exists X rest, I ≡ₚ body (n, X) ++ rest /\ layout (set_nodes s (running s) (walks s) (without n (retired s))) rest.
Proof.
  pose proof HL as (T & R & W & Q & HS & HI). pose proof Hnd as Hnd'. rewrite HI in Hnd'.
  destruct (pieces_nodup _ _ _ _ _ _ HS Hnd') as (_ & _ & Ht & _). destruct HS as (Hn & HT & HR & HW & HQ & Hg & Hrt). rewrite <- HQ in *. intros Hin.
  destruct (without_split fst Q n Ht Hin) as ([n' X] & l & Hx & Hp & Hl). cbn in Hx. subst n'.
  exists X, (pieces (set_nodes s (running s) (walks s) (without n Q.*1)) T R W l).
  split; [|exists T, R, W, l; split; [by split_and!|done]].
  assert (E : Q ≫= body ≡ₚ body (n, X) ++ (l ≫= body)) by (by rewrite Hp, bind_cons).
  rewrite HI. unfold pieces. rewrite E. cbn [tasks lost set_nodes]. generalize (body (n, X)), (l ≫= body), (Q ≫= body). intros.
  solve_Permutation.
Qed.
End Take.

(** *** Graphs *)

Lemma fits_perm ts ts' x : ts ≡ₚ ts' -> fits ts x -> fits ts' x.
Proof. intros H. unfold fits. by rewrite (occ_Permutation _ _ _ H). Qed.
Lemma closed_perm ts ts' G G' : ts ≡ₚ ts' -> G ≡ₚ G' -> closed ts G -> closed ts' G'.
Proof.
  intros Ht HG [H1 H2]. split.
  - rewrite <- HG. eapply Forall_impl; [exact H1|]. intros x. by apply fits_perm.
  - rewrite <- Ht. eapply Forall_impl; [exact H2|]. intros d. cbn. by rewrite HG.
Qed.
#[global] Instance closed_proper : Proper ((≡ₚ) ==> (≡ₚ) ==> iff) closed.
Proof. intros ts ts' Ht G G' HG. split; by apply closed_perm. Qed.
Lemma fits_visit o ts x : fits (o :: ts) x -> fits ts x.
Proof. unfold fits. cbn. destruct (x_sub x.2); [lia|]. intros [H1 H2]. split; [lia|done]. Qed.
Lemma closed_visit o ts G : closed (o :: ts) G -> closed ts G.
Proof.
  intros [H1 H2]. apply Forall_cons in H2 as [_ H2]. split; [|done].
  eapply Forall_impl; [exact H1|]. intros x. by apply fits_visit.
Qed.
(** One node changes; another leaves. *)
Lemma closed_update ts x X' G : closed ts (x :: G) -> fits ts (x.1, X') -> closed ts ((x.1, X') :: G).
Proof. intros [[_ H1]%Forall_cons H2] H. split; [by constructor|done]. Qed.
Lemma closed_leave ts x G : closed ts (x :: G) -> occ (Some x.1) ts = 0%nat -> closed ts G.
Proof.
  intros [[_ H1]%Forall_cons H2] H. split; [done|]. rewrite Forall_forall in *. intros o Ho. specialize (H2 o Ho).
  cbn in H2. apply elem_of_cons in H2 as [->|?]; [|done]. apply occ_elem in Ho. lia.
Qed.
Lemma closed_target ts o G : closed (o :: ts) G -> exists d X G1 G2, o = Some d /\ G = G1 ++ (d, X) :: G2.
Proof.
  intros [_ [(d & -> & Hd)%list_elem_of_fmap _]%Forall_cons]. apply list_elem_of_fmap in Hd as ([d' X] & -> & Hd).
  apply list_elem_of_split in Hd as (G1 & G2 & ->). by exists d', X, G1, G2.
Qed.
(** Two graphs with different nodes. *)
Lemma closed_app ts1 ts2 G1 G2 : NoDup (G1 ++ G2).*1 -> closed ts1 G1 -> closed ts2 G2 -> closed (ts1 ++ ts2) (G1 ++ G2).
Proof.
  rewrite fmap_app. intros (_ & Hd & _)%NoDup_app [H1 H2] [H3 H4].
  assert (Hz : forall ts (G : list (ptr * node_slots)) p, Forall (fun d => d ∈ Some <$> G.*1) ts -> (p ∉ G.*1) -> occ (Some p) ts = 0%nat).
  { intros ts G p Hts Hp. apply occ_zero. intros Hin. rewrite Forall_forall in Hts. apply Hts in Hin.
    apply list_elem_of_fmap in Hin as (q & [= <-] & Hq). done. }
  assert (Hin : forall (G : list (ptr * node_slots)) x, x ∈ G -> x.1 ∈ G.*1) by (intros G x Hx; by apply list_elem_of_fmap_2).
  split; apply Forall_app; split; apply Forall_forall; rewrite Forall_forall in H1, H3.
  - intros x Hx. unfold fits. rewrite occ_app, (Hz ts2 G2 x.1 H4), Nat.add_0_r; [by apply H1|by apply Hd, Hin].
  - intros x Hx. unfold fits. rewrite occ_app, (Hz ts1 G1 x.1 H2), Nat.add_0_l; [by apply H3|].
    intros Hx1. by apply (Hd x.1); auto.
  - rewrite Forall_forall in H2. intros o Ho. rewrite !fmap_app, elem_of_app. left. by apply H2.
  - rewrite Forall_forall in H4. intros o Ho. rewrite !fmap_app, elem_of_app. right. by apply H4.
Qed.

Lemma due_middle R1 x R2 W : due (R1 ++ x :: R2) W ≡ₚ targets x ++ due (R1 ++ R2) W.
Proof. unfold due. rewrite !bind_app, bind_cons. solve_Permutation. Qed.
Lemma middle_perm {B} (l1 : list B) x l2 : l1 ++ x :: l2 ≡ₚ x :: l1 ++ l2.
Proof. by rewrite Permutation_middle. Qed.

(** *** Nodes *)

Lemma mem_ok_map a h I I' : (forall L, owns h L I -> owns h L I') -> mem_ok a h I -> mem_ok a h I'.
Proof. intros H (? & ? & ? & ?). split_and!; auto. Qed.
Lemma mem_ok_weaken a h p o I : mem_ok a h (IObj p o :: I) -> mem_ok a h (IRaw p :: I).
Proof. apply mem_ok_map. intros L. apply owns_weaken. Qed.
Lemma mem_ok_lookup a h p o I : mem_ok a h (IObj p o :: I) -> h !! p = Some o.
Proof. intros (_ & _ & _ & H). by eapply owns_lookup. Qed.
Lemma mem_ok_nil a h p q I : mem_ok a h (ISeg p [] q :: I) -> mem_ok a h I.
Proof. apply mem_ok_map. intros L [HP HR]. split; [done|]. by apply Forall_cons in HR as [_ HR]. Qed.
Lemma mem_ok_seg a h p e es q I : mem_ok a h (ISeg p (e :: es) q :: I) ->
  p = e.1 /\ exists k n, mem_ok a h (IObj e.1 (OEntry k (Some n) e.2) :: ISeg n es q :: I).
Proof. intros (H1 & H2 & H3 & [-> (k & n & H)]%owns_seg). split; [done|]. by exists k, n. Qed.
Lemma mem_ok_seg_app a h p es1 es2 q I :
  mem_ok a h (ISeg p (es1 ++ es2) q :: I) <-> exists m, mem_ok a h (ISeg p es1 m :: ISeg m es2 q :: I).
Proof.
  unfold mem_ok. setoid_rewrite owns_seg_app. split; [intros (? & ? & ? & m & ?); by exists m|intros (m & ? & ? & ? & ?); split_and!; try done; by exists m].
Qed.
Lemma mem_ok_change a h p o o' I : mem_ok a h (IObj p o :: I) -> mem_ok a (<[p := o']> h) (IObj p o' :: I).
Proof.
  intros (Ha & Hc & Hn & Ho). split_and!; try done. pose proof Ho as [HP _]. pose proof (sa_nodup a Ha) as Hnd.
  apply (owns_update h _ (sa_held a) _ [IObj p o] [IObj p o'] I); try done.
  - intros q Hq _. apply lookup_insert_ne. intros ->. apply Hq. by left.
  - repeat constructor. simpl. by rewrite lookup_insert_eq.
Qed.
Lemma mem_ok_forget a h p o I : mem_ok a h (IObj p o :: I) -> mem_ok a (delete p h) (IRaw p :: I).
Proof.
  intros (Ha & Hc & Hn & Ho). split_and!; try done. pose proof Ho as [HP _]. pose proof (sa_nodup a Ha) as Hnd.
  apply (owns_update h _ (sa_held a) _ [IObj p o] [IRaw p] I); try done.
  - intros q Hq _. apply lookup_delete_ne. intros ->. apply Hq. by left.
  - by repeat constructor.
Qed.

Lemma mem_ok_perm a h I I' : I ≡ₚ I' -> mem_ok a h I -> mem_ok a h I'.
Proof. by intros ->. Qed.

(** The next [put] of the goal, at the first of the pieces [piece :: I]. *)
#[local] Ltac put_at HM piece I :=
  apply (mem_ok_perm _ _ _ (piece :: I)) in HM; [|solve_Permutation];
  match goal with |- context [put ?s ?p ?o ?v] =>
    let a := fresh "a" in let E := fresh "E" in let H := fresh "H" in let Eh := fresh "Eh" in
    destruct (put_ok s piece p o v I eq_refl HM) as (a & E & H & Eh); rewrite E; clear E HM; rename H into HM; cbn [mbind outcome_bind]
  end.

(** The constructors of a list and of its node, once all slots are there. *)
Lemma finish_node_ok (s : state) t ns n i hd tl k v I :
  mem_ok (slots s) (heap s) (IObj n (ONode (new_node k None)) :: IRaw i :: IRaw hd :: IRaw tl :: I) ->
  exists a h, finish_node s t ns n i (Some hd) (Some tl) k v = Ok (set_thread (set_mem s a h) t (mk_thread (ns ++ [n]) Idle)) /\
    mem_ok a h (body (n, mk_node_slots k.1 i hd tl [] k.2 0 false) ++ I) /\ sa_held a = sa_held (slots s).
Proof.
  intros HM. unfold finish_node. cbn [of_option mbind outcome_bind].
  put_at HM (IRaw hd) (IObj n (ONode (new_node k None)) :: IRaw i :: IRaw tl :: I).
  put_at HM (IRaw tl) (IObj hd (OEntry 0 None None) :: IObj n (ONode (new_node k None)) :: IRaw i :: I).
  put_at HM (IObj hd (OEntry 0 None None)) (sentinel tl :: IObj n (ONode (new_node k None)) :: IRaw i :: I).
  put_at HM (IRaw i) (IObj hd (OEntry 0 (Some tl) None) :: sentinel tl :: IObj n (ONode (new_node k None)) :: I).
  put_at HM (IObj n (ONode (new_node k None))) (IObj i (OList hd tl) :: IObj hd (OEntry 0 (Some tl) None) :: sentinel tl :: I).
  eexists _, _. split; [reflexivity|]. split; [|cbn in *; congruence].
  apply (mem_ok_perm _ _ (ISeg hd [(hd, None)] tl :: IObj n (ONode (new_node k (Some i))) :: IObj i (OList hd tl) :: sentinel tl :: I)); [unfold body; cbn; solve_Permutation|].
  revert HM. apply mem_ok_map. intros L HO. apply owns_seg. split; [done|]. exists 0, tl.
  destruct HO as [HP HR]. rewrite !Forall_cons in HR. destruct HR as (H1 & H2 & H3 & H4 & HR). split; [cbn in *; rewrite <- HP; solve_Permutation|].
  by repeat constructor.
Qed.

(** [add] of a key that is an address: one more entry, or none. *)
Lemma add_ok (s : state) t n X d R :
  mem_ok (slots s) (heap s) (body (n, X) ++ R) -> Z.pos d <= UINT64_MAX -> (t < n_threads)%nat ->
  (length (x_entries X) < size (heap s))%nat ->
  match add s t (x_list X) d with
  | Ok s' => exists a h es, s' = set_mem s a h /\ mem_ok a h (body (n, with_entries X es) ++ R) /\
      (es.*2 = (x_entries X).*2 \/ es.*2 ≡ₚ Some d :: (x_entries X).*2) /\
      (length (sa_held a) <= length (sa_held (slots s)) + 1)%nat
  | Blocked => False
  | Stuck => few_free (slots s)
  end.
Proof.
  destruct X as [k i hd tl es o lf sb]. intros HM Hd Ht Hsize. unfold body in *. cbn [x_list x_head x_tail x_entries fst snd app with_entries x_task x_or x_left x_sub] in *.
  set (nd := x_node _) in HM.
  set (R0 := IObj n (ONode nd) :: IObj i (OList hd tl) :: sentinel tl :: R) in *.
  apply (mem_ok_perm _ _ _ (ISeg hd ((hd, None) :: es) tl :: R0)) in HM; [|unfold R0; solve_Permutation].
  pose proof HM as (_ & _ & _ & _ & HR). unfold R0 in HR. rewrite !Forall_cons in HR. destruct HR as (Hseg & _ & Hi & Htl & _). simpl in Hi.
  destruct (find_ok _ _ _ _ _ (Z.pos d) (size (heap s)) Hseg Htl Hd Hsize)
    as (k0 & first & p & c & kc & kp & es1 & es2 & Hh & Hf & E & H1 & Hp & H2). cbn [fst snd] in Hh, Hf.
  unfold add, as_list, as_entry. rewrite Hi. cbn [mbind outcome_bind]. rewrite Hh. cbn [mbind outcome_bind of_option]. rewrite Hf.
  cbn [mbind outcome_bind]. case (kc =? Z.pos d).
  { exists (slots s), (heap s), es. split; [by destruct s|]. split; [|split; [by left|lia]].
    revert HM. apply mem_ok_perm. unfold R0. solve_Permutation. }
  destruct (new_slot_ok s t _ HM Ht) as (a & r & -> & Hr). cbn [mbind outcome_bind]. destruct r as [q|]; [|apply Hr].
  destruct Hr as [HM' Hlen]. cbn [of_option mbind outcome_bind]. clear HM.
  apply (mem_ok_perm _ _ _ (ISeg hd ((hd, None) :: es) tl :: IRaw q :: R0)) in HM'; [|solve_Permutation]. rewrite E in HM'.
  assert (HM : mem_ok a (heap s) (IObj p.1 (OEntry kp (Some c) p.2) :: ISeg hd es1 p.1 :: ISeg c es2 tl :: IRaw q :: R0)).
  { revert HM'. apply mem_ok_map. intros L. by apply owns_split. }
  put_at HM (IRaw q) (IObj p.1 (OEntry kp (Some c) p.2) :: ISeg hd es1 p.1 :: ISeg c es2 tl :: R0).
  set (eq := OEntry (Z.pos d) (Some c) (Some d)) in *.
  apply (mem_ok_perm _ _ _ (IObj p.1 (OEntry kp (Some c) p.2) :: IObj q eq :: ISeg hd es1 p.1 :: ISeg c es2 tl :: R0)) in HM; [|solve_Permutation].
  pose proof (mem_ok_lookup _ _ _ _ _ HM) as Hp'. simpl in Hp'. cbn [heap set_mem]. rewrite Hp'. cbn [mbind outcome_bind].
  put_at HM (IObj p.1 (OEntry kp (Some c) p.2)) (IObj q eq :: ISeg hd es1 p.1 :: ISeg c es2 tl :: R0).
  assert (exists es', es1 ++ p :: (q, Some d) :: es2 = (hd, None) :: es' /\ es'.*2 ≡ₚ Some d :: es.*2) as (es' & E' & Et).
  { destruct es1 as [|y es1]; simpl in E |- *; injection E as -> E.
    - eexists. split; [reflexivity|]. by rewrite E.
    - eexists. split; [reflexivity|]. rewrite E, !fmap_app. cbn. solve_Permutation. }
  eexists _, _, es'. split; [reflexivity|]. split; [|split; [by right|cbn in *; rewrite Eh0, Eh; lia]].
  apply (mem_ok_perm _ _ (ISeg hd ((hd, None) :: es') tl :: R0)); [unfold R0; solve_Permutation|]. rewrite <- E'.
  revert HM. apply mem_ok_map. intros L. apply (owns_join _ _ _ _ p kp (q, Some d) (Z.pos d)).
Qed.

(** What [~LockFreeList] finds. *)
Lemma destroy_ok a h x r I : mem_ok a h (body x ++ I) -> exists curr,
  destroy h x.1 r = Ok (DWalk x.1 (x_list x.2) (x_head x.2) (x_tail x.2) curr r) /\
  mem_ok a h (IRaw x.1 :: IRaw (x_list x.2) :: IRaw (x_head x.2) :: ISeg curr (x_entries x.2) (x_tail x.2) :: sentinel (x_tail x.2) :: I).
Proof.
  destruct x as [n [k i hd tl es o lf sb]]. unfold body. cbn. intros HM. pose proof HM as (_ & _ & _ & _ & HR).
  rewrite !Forall_cons in HR. destruct HR as (Hn & Hi & [_ (k0 & curr & Hh & Hs)] & Htl & HR). cbn in Hh.
  exists curr. unfold destroy, as_node, as_list, as_entry. rewrite Hn. cbn. rewrite Hi. cbn. rewrite Hh. cbn. split; [done|].
  revert HM. apply mem_ok_map. intros L [HP _]. split; [done|]. by repeat constructor.
Qed.

(** The end of a walk is its last piece. *)
Lemma seg_end a h p es tl I : mem_ok a h (ISeg p es tl :: sentinel tl :: I) -> p = tl -> es = [].
Proof.
  intros HM Hp. destruct es as [|e es]; [done|exfalso]. destruct (mem_ok_held _ _ _ HM) as [Hnd _].
  destruct HM as (_ & _ & _ & _ & HR). apply Forall_cons in HR as [[E _] _]. cbn in Hnd.
  apply NoDup_cons in Hnd as [Hn _]. apply Hn. apply elem_of_app. right. rewrite <- E, Hp. by left.
Qed.

(** *** What a step does *)

Definition inv (s : state) : Prop := exists I, layout s I /\ mem_ok (slots s) (heap s) I.

(** How many slots an operation in progress has still to allocate; how many an
    operation takes. *)
Definition need (c : pc) : nat := match c with NList _ _ => 3 | NHead _ _ _ => 2 | NTail _ _ _ _ => 1 | _ => 0 end.
Definition cost (x : action) : nat := match x with CreateTask _ _ | AddDependency _ _ _ => 1 | CreateNode _ _ _ => 4 | _ => 0 end.
Definition used (s : state) : nat := (length (sa_held (slots s)) + sum_list_with (fun th => need (at_pc th)) (threads s))%nat.

Definition null_sentinel (c : pc) : bool := match c with NTail _ _ None _ => true | _ => false end.
(** No allocation has failed. *)
Definition no_null (s : state) : Prop := lost s = [] /\ Forall (fun th => null_sentinel (at_pc th) = false) (threads s).

(** [s'] after a step from [s] that takes [c] slots at most. *)
Definition after (s : state) (c : nat) (s' : state) : Prop :=
  inv s' /\ (used s' <= used s + c)%nat /\ (~ few_free (slots s) -> no_null s -> no_null s').

(** The step goes on, or stops for want of a slot at one of the two allocations
    whose result is not tested. *)
Definition safe (s : state) (c : nat) (failing : Prop) (r : outcome state) : Prop :=
  match r with Ok s' => after s c s' | Blocked => True | Stuck => failing end.

Lemma thread_after s s1 t th th' c I : threads s !! t = Some th -> threads s1 = threads s ->
  layout (set_thread s1 t th') I -> mem_ok (slots s1) (heap s1) I ->
  (length (sa_held (slots s1)) + need (at_pc th') <= length (sa_held (slots s)) + need (at_pc th) + c)%nat ->
  (~ few_free (slots s) -> no_null s -> lost s1 = lost s /\ null_sentinel (at_pc th') = false) ->
  after s c (set_thread s1 t th').
Proof.
  intros Ht E HL HM Hc Hl. split; [by exists I|]. split.
  - unfold used. simpl. rewrite E.
    pose proof (sum_with_insert (fun th => need (at_pc th)) (threads s) t th th' Ht) as H. cbv beta in H. lia.
  - intros Hr [H1 H2]. destruct (Hl Hr (conj H1 H2)) as [H3 H4]. split; simpl; [congruence|]. rewrite E. by apply Forall_insert.
Qed.

Lemma plain_after s s1 c I : threads s1 = threads s -> lost s1 = lost s -> layout s1 I -> mem_ok (slots s1) (heap s1) I ->
  (length (sa_held (slots s1)) <= length (sa_held (slots s)) + c)%nat -> after s c s1.
Proof.
  intros E E' HL HM Hc. split; [by exists I|]. unfold used, no_null. rewrite E, E'. split; [lia|done].
Qed.

(** A new node is not one of the graph's. *)
Lemma building_new N x : building N -> (x.1 ∉ N.*1) -> x_entries x.2 = [] -> x_left x.2 = 0 -> x_sub x.2 = false ->
  building (N ++ [x]).
Proof.
  intros [[H1 H2] H3] Hx E1 E2 E3. unfold building, closed. rewrite bind_app. cbn [mbind list_bind].
  change (targets x) with ((x_entries x.2).*2). rewrite E1, !app_nil_r. split; [split|].
  - apply Forall_app. split; [done|]. repeat constructor. unfold fits. rewrite E3, E2.
    rewrite occ_zero; [split; [done|lia]|]. intros Hin. rewrite Forall_forall in H2.
    by apply H2, list_elem_of_fmap in Hin as (y & [= <-] & ?).
  - eapply Forall_impl; [exact H2|]. intros d. cbn. rewrite !fmap_app, elem_of_app. by left.
  - apply Forall_app. split; [done|]. by repeat constructor.
Qed.
Lemma new_absent a h p o (N : list (ptr * node_slots)) I : mem_ok a h (IObj p o :: (N ≫= full) ++ I) -> p ∉ N.*1.
Proof.
  intros HM Hp. destruct (mem_ok_held _ _ _ HM) as [Hnd _]. cbn in Hnd. apply NoDup_cons in Hnd as [Hn _]. apply Hn.
  apply list_elem_of_fmap in Hp as (x & -> & Hx). rewrite bind_app, elem_of_app. left. apply list_elem_of_bind.
  exists (IObj x.1 (ONode (x_node x.2))). split; [by left|]. apply list_elem_of_bind. exists x. split; [by left|done].
Qed.

(** What is known of the thread that moves. *)
Section Thread.
Context (s : state) (t : nat) (ns : list ptr) (c : pc) (N : list (ptr * node_slots)) (rest : list item).
Context (Ht : threads s !! t = Some (mk_thread ns c)) (HN : N.*1 = ns) (HB : building N) (Hro : pc_roots c = []) (Hlt : (t < n_threads)%nat).
Context (HL : forall th' l', thread_items th' l' -> pc_roots (at_pc th') = [] -> layout (set_thread s t th') (l' ++ rest)).
Let others := (N ≫= full) ++ rest.

Lemma thread_layout c' P' : pc_items c' P' -> pc_roots c' = [] -> layout (set_thread s t (mk_thread ns c')) (P' ++ others).
Proof. intros H Hp. unfold others. rewrite app_assoc, (Permutation_app_comm P'). apply HL; [by exists N, P'|done]. Qed.

(** The thread moves and the memory is another one. *)
Lemma go_after a h c' P' k : pc_items c' P' -> mem_ok a h (P' ++ others) ->
  (length (sa_held a) + need c' <= length (sa_held (slots s)) + need c + k)%nat ->
  (~ few_free (slots s) -> null_sentinel c' = false) -> pc_roots c' = [] ->
  after s k (set_thread (set_mem s a h) t (mk_thread ns c')).
Proof. intros Hc HM Hk Hn Hp. eapply (thread_after s (set_mem s a h)); [exact Ht|done|by apply (thread_layout c' P')|done|done|auto]. Qed.

(** [Free] of the slot of one piece. *)
Lemma release_after i p P' c' k : mem_ok (slots s) (heap s) (i :: P' ++ others) -> islots i = [p] -> pc_items c' P' ->
  (need c' <= need c + k)%nat -> null_sentinel c' = false -> pc_roots c' = [] ->
  safe s k False (s1 ← release s t p; Ok (set_thread s1 t (mk_thread ns c'))).
Proof.
  intros HM Hi Hc Hn Hnull Hp. destruct (release_ok s t i p (P' ++ others) Hi HM Hlt) as (a & -> & HM' & Hlen).
  cbn [mbind outcome_bind]. eapply (go_after a _ c' P'); [done|exact HM'|lia|done|done].
Qed.

Definition failing : Prop := exists n i mem k, c = NTail n i mem k /\ (mem = None \/ few_free (slots s)).

Lemma list_after n k v : c = NList n k -> mem_ok (slots s) (heap s) (IObj n (ONode (new_node k None)) :: owned_task k.1 ++ others) ->
  safe s 0 False (continue s t ns (NList n k) v).
Proof.
  intros Hc HM. destruct (new_slot_ok s t _ HM Hlt) as (a & r & E & Hr). unfold continue. rewrite E. cbn [mbind outcome_bind].
  destruct r as [i|]; destruct Hr as [HM' Hlen].
  - apply (mem_ok_perm _ _ _ ((IObj n (ONode (new_node k None)) :: IRaw i :: owned_task k.1) ++ others)) in HM'; [|cbn; solve_Permutation].
    eapply (go_after a _ (NHead n i k)); [done|exact HM'|rewrite Hc; simpl; lia|done|done].
  - destruct Hlen as [Hf Hlen]. apply mem_ok_forget in HM'. simpl.
    eapply (thread_after s (mk_state a (delete n (heap s)) (tasks s ++ option_list k.1) (threads s) (running s) (walks s) (retired s) (n :: lost s)));
      [exact Ht|done| |exact HM'|rewrite Hc; simpl; lia|done].
    pose proof (layout_more_tasks _ (option_list k.1) _ (thread_layout Idle [] eq_refl eq_refl)) as (T & R & W & Q & HS & H5).
    exists T, R, W, Q. split; [exact HS|]. unfold pieces in *. cbn in H5 |- *. rewrite H5. solve_Permutation.
Qed.

Lemma head_after n i k v : c = NHead n i k -> mem_ok (slots s) (heap s) (IObj n (ONode (new_node k None)) :: IRaw i :: owned_task k.1 ++ others) ->
  safe s 0 False (continue s t ns (NHead n i k) v).
Proof.
  intros Hc HM. destruct (new_slot_ok s t _ HM Hlt) as (a & r & E & Hr). unfold continue. rewrite E. cbn [mbind outcome_bind].
  destruct r as [m|].
  - destruct Hr as [HM' Hlen].
    apply (mem_ok_perm _ _ _ ((IObj n (ONode (new_node k None)) :: IRaw i :: IRaw m :: owned_task k.1) ++ others)) in HM'; [|cbn; solve_Permutation].
    eapply (go_after a _ (NTail n i (Some m) k)); [done|exact HM'|rewrite Hc; simpl; lia|done|done].
  - destruct Hr as (HM' & Hf & Hlen). eapply (go_after a _ (NTail n i None k)); [done|exact HM'|rewrite Hc; simpl; lia|done|done].
Qed.

Lemma tail_after n i mem k v : c = NTail n i mem k ->
  mem_ok (slots s) (heap s) (IObj n (ONode (new_node k None)) :: IRaw i :: (IRaw <$> option_list mem) ++ owned_task k.1 ++ others) ->
  safe s 0 failing (continue s t ns (NTail n i mem k) v).
Proof.
  intros Hc HM. destruct (new_slot_ok s t _ HM Hlt) as (a & r & E & Hr). unfold continue. rewrite E. cbn [mbind outcome_bind].
  destruct mem as [hd|]; [|simpl; by exists n, i, None, k; split; [|left]].
  destruct r as [tl|]; [destruct Hr as [HM' Hlen]|destruct Hr as (HM' & Hf & Hlen)].
  - apply (mem_ok_perm _ _ _ (IObj n (ONode (new_node k None)) :: IRaw i :: IRaw hd :: IRaw tl :: owned_task k.1 ++ others)) in HM'; [|cbn; solve_Permutation].
    destruct (finish_node_ok (set_mem s a (heap s)) t ns n i hd tl k v _ HM') as (a' & h' & -> & HM2 & Eh). simpl in Eh |- *.
    eapply (thread_after s (set_mem s a' h')); [exact Ht|done| |exact HM2|rewrite Hc; simpl; rewrite Eh; lia|done].
    set (x := (n, mk_node_slots k.1 i hd tl [] k.2 0 false)).
    assert (EP : body x ++ owned_task k.1 ++ others ≡ₚ ((N ++ [x]) ≫= full) ++ rest).
    { unfold others. rewrite bind_app, bind_cons. change (full x) with (body x ++ owned_task k.1). cbn [mbind list_bind]. solve_Permutation. }
    rewrite EP. apply HL; [|done]. exists (N ++ [x]), []. rewrite fmap_app, HN, app_nil_r. split_and!; try done.
    apply building_new; try done. apply (new_absent (slots s) (heap s) n (ONode (new_node k None)) N (IRaw i :: IRaw hd :: owned_task k.1 ++ rest)).
    revert HM. apply mem_ok_perm. unfold others. cbn. solve_Permutation.
  - unfold finish_node. cbn [of_option mbind outcome_bind]. destruct (put _ hd _ v); cbn; [|done|];
      exists n, i, (Some hd), k; split; [done|by right|done|by right].
Qed.

Lemma loop_after ms v M : c = Loop ms -> M.*1 = ms -> mem_ok (slots s) (heap s) ((M ≫= full) ++ others) ->
  safe s 0 False (continue s t ns (Loop ms) v).
Proof.
  intros Hc HM0 HM. destruct ms as [|n ms]; simpl.
  - destruct M; [|done]. eapply (thread_after s s); [exact Ht|done|by apply (thread_layout Idle [])|exact HM|rewrite Hc; simpl; lia|done].
  - destruct M as [|[n' X] M]; [done|]. injection HM0 as -> HM0. rewrite bind_cons, <- app_assoc in HM.
    unfold full in HM at 1. rewrite <- app_assoc in HM.
    pose proof (mem_ok_lookup _ _ _ _ _ HM) as Hn. simpl in Hn. unfold as_node. rewrite Hn. cbn [mbind outcome_bind].
    destruct (destroy_ok _ _ (n, X) (Some (x_task X, ms)) _ HM) as (curr & E & HM'). simpl in E.
    change (task (x_node X)) with (x_task X). rewrite E. cbn [mbind outcome_bind].
    set (R := owned_task (x_task X) ++ (M ≫= full)).
    assert (HR : rest_items (Some (x_task X, ms)) R) by (by exists M).
    apply (mem_ok_perm _ _ _ ((IRaw n :: IRaw (x_list X) :: IRaw (x_head X) :: ISeg curr (x_entries X) (x_tail X) :: sentinel (x_tail X) :: R)
      ++ others)) in HM'; [|unfold R; cbn; by rewrite <- app_assoc].
    eapply (go_after (slots s) (heap s)); [by exists (x_entries X), R|exact HM'|rewrite Hc; simpl; lia|done|done].
Qed.

Lemma walk_after n i hd tl curr r v es R : c = DWalk n i hd tl curr r -> rest_items r R ->
  mem_ok (slots s) (heap s) (IRaw n :: IRaw i :: IRaw hd :: ISeg curr es tl :: sentinel tl :: R ++ others) ->
  safe s 0 False (continue s t ns (DWalk n i hd tl curr r) v).
Proof.
  intros Hc HR HM. simpl.
  apply (mem_ok_perm _ _ _ (ISeg curr es tl :: sentinel tl :: IRaw hd :: IRaw n :: IRaw i :: R ++ others)) in HM; [|solve_Permutation].
  pose proof (seg_end _ _ _ _ _ _ HM) as Hend. case_decide as Hcurr.
  - rewrite (Hend Hcurr) in HM. eapply (release_after (IRaw hd) hd (IRaw n :: IRaw i :: IRaw tl :: R)); [|done|by exists R|rewrite Hc; simpl; lia|done|done].
    apply mem_ok_nil, mem_ok_weaken in HM. revert HM. apply mem_ok_perm. cbn. solve_Permutation.
  - destruct es as [|e es]; [by destruct HM as (_ & _ & _ & _ & [E _]%Forall_cons)|].
    apply mem_ok_seg in HM as (-> & k & next & HM). unfold as_entry. rewrite (mem_ok_lookup _ _ _ _ _ HM). cbn [mbind outcome_bind].
    apply (mem_ok_perm _ _ _ (IObj e.1 (OEntry k (Some next) e.2) :: (IRaw n :: IRaw i :: IRaw hd :: ISeg next es tl :: sentinel tl :: R) ++ others)) in HM;
      [|cbn; solve_Permutation].
    eapply (release_after _ e.1); [exact HM|done|by exists es, R|rewrite Hc; simpl; lia|done|done].
Qed.

Lemma tail_free_after n i tl r v R : c = DTail n i tl r -> rest_items r R ->
  mem_ok (slots s) (heap s) (IRaw n :: IRaw i :: IRaw tl :: R ++ others) -> safe s 0 False (continue s t ns (DTail n i tl r) v).
Proof.
  intros Hc HR HM. eapply (release_after (IRaw tl) tl (IRaw n :: IRaw i :: R)); [|done|by exists R|rewrite Hc; simpl; lia|done|done].
  revert HM. apply mem_ok_perm. cbn. solve_Permutation.
Qed.
Lemma list_free_after n i r v R : c = DList n i r -> rest_items r R ->
  mem_ok (slots s) (heap s) (IRaw n :: IRaw i :: R ++ others) -> safe s 0 False (continue s t ns (DList n i r) v).
Proof.
  intros Hc HR HM. eapply (release_after (IRaw i) i (IRaw n :: R)); [|done|by exists R|rewrite Hc; simpl; lia|done|done].
  revert HM. apply mem_ok_perm. cbn. solve_Permutation.
Qed.
Lemma node_free_after n r v R : c = DNode n r -> rest_items r R ->
  mem_ok (slots s) (heap s) (IRaw n :: R ++ others) -> safe s 0 False (continue s t ns (DNode n r) v).
Proof.
  intros Hc HR HM. eapply (release_after (IRaw n) n R); [exact HM|done|..].
  - destruct r as [[[k|] ms]|]; simpl in *; [|destruct HR as (M & ? & ->); by exists M|done].
    destruct HR as (M & ? & ->). by exists M.
  - rewrite Hc. destruct r as [[[k|] ms]|]; simpl; lia.
  - by destruct r as [[[k|] ms]|].
  - by destruct r as [[[k|] ms]|].
Qed.
Lemma task_free_after k ms v M : c = DTask k ms -> M.*1 = ms ->
  mem_ok (slots s) (heap s) (IObj k OTask :: (M ≫= full) ++ others) -> safe s 0 False (continue s t ns (DTask k ms) v).
Proof.
  intros Hc HR HM. simpl. unfold as_task. rewrite (mem_ok_lookup _ _ _ _ _ HM). cbn [mbind outcome_bind].
  eapply (release_after _ k); [exact HM|done|by exists M|rewrite Hc; simpl; lia|done|done].
Qed.

Lemma continue_after v P : pc_items c P -> mem_ok (slots s) (heap s) (P ++ others) -> safe s 0 failing (continue s t ns c v).
Proof.
  assert (Hweak : forall r, safe s 0 False r -> safe s 0 failing r) by (intros []; simpl; tauto).
  intros HP HM. assert (exists c0, c = c0) as [c0 Hc] by eauto. rewrite Hc in HP |- *. destruct c0; simpl in HP.
  - done.
  - subst P. by apply Hweak, list_after.
  - subst P. by apply Hweak, head_after.
  - subst P. apply tail_after; [done|]. revert HM. apply mem_ok_perm. cbn. solve_Permutation.
  - subst P. pose proof Hro as Hr. rewrite Hc in Hr. simpl in Hr. rewrite Hr. apply Hweak. simpl.
    eapply (thread_after s s); [exact Ht|done|by apply (thread_layout Idle [])|exact HM|rewrite Hc; simpl; lia|done].
  - destruct HP as (M & HM0 & ->). eapply Hweak, loop_after; [done|exact HM0|exact HM].
  - destruct HP as (es & R & HR & ->). eapply Hweak, walk_after; [done|exact HR|exact HM].
  - destruct HP as (R & HR & ->). eapply Hweak, tail_free_after; [done|exact HR|exact HM].
  - destruct HP as (R & HR & ->). eapply Hweak, list_free_after; [done|exact HR|exact HM].
  - destruct HP as (R & HR & ->). eapply Hweak, node_free_after; [done|exact HR|exact HM].
  - destruct HP as (M & HR & ->). eapply Hweak, task_free_after; [done|exact HR|exact HM].
Qed.
End Thread.

(** *** Operations that begin *)

(** The fuel of the walks: the entries and the tail are different slots. *)
Lemma seg_size a h x es tl I : mem_ok a h (ISeg x es tl :: sentinel tl :: I) -> (length es < size h)%nat.
Proof.
  intros HM. pose proof (mem_ok_held _ _ _ HM) as [Hnd _]. destruct HM as (_ & _ & _ & _ & HR).
  rewrite !Forall_cons in HR. destruct HR as (Hs & Htl & _). cbn in Hnd.
  assert (Hin : forall e, e ∈ es.*1 -> is_Some (h !! e)).
  { clear -Hs. revert x Hs. induction es as [|y es IH]; intros x; [by intros _ e ?%not_elem_of_nil|].
    intros [_ (k & n & Hy & Hs)] e [->|He]%elem_of_cons; eauto. }
  assert (Hnd' : NoDup (tl :: es.*1)).
  { apply NoDup_app in Hnd as (H1 & H2 & _). constructor; [|done]. intros He. apply (H2 tl He). by left. }
  assert (Hle : (length (tl :: es.*1) <= size h)%nat); [|simpl in Hle; rewrite length_fmap in Hle; lia].
  rewrite <- (size_list_to_set (C := gset ptr)), <- size_dom by done. apply subseteq_size. intros e.
  rewrite elem_of_list_to_set, elem_of_dom. intros [->|He]%elem_of_cons; [simpl in Htl; rewrite Htl; by eexists|auto].
Qed.

(** A new list of roots. *)
Lemma roots_submit R N ths t ns : NoDup (R ++ N).*1 -> building N -> ths !! t = Some (mk_thread ns Idle) ->
  roots_ok R ths -> roots_ok (R ++ N) (<[t := mk_thread [] (Roots (filter (fun x => x_left x.2 = 0) N).*1)]> ths).
Proof.
  intros Hnd [_ Hsub] Ht [H1 H2]. unfold roots_ok. set (rs := (filter _ N).*1). set (f := fun th : thread => pc_roots (at_pc th)) in *.
  assert (EP : <[t := mk_thread [] (Roots rs)]> ths ≫= f ≡ₚ rs ++ (ths ≫= f)).
  { clear -Ht. revert t Ht. induction ths as [|u ths IH]; intros [|t] Ht; [done|done| |].
    - injection Ht as ->. change (<[0%nat := ?x]> (?y :: ths)) with (x :: ths). done.
    - change (<[S t := ?x]> (u :: ths)) with (u :: <[t := x]> ths). rewrite !bind_cons, (IH t Ht). solve_Permutation. }
  rewrite EP. rewrite fmap_app in Hnd. apply NoDup_app in Hnd as (_ & Hd & HN).
  assert (Hin : forall p, p ∈ rs -> exists X, (p, X) ∈ N /\ x_left X = 0).
  { intros p ([p' X] & -> & [Hx Hp]%list_elem_of_filter)%list_elem_of_fmap. by exists X. }
  split.
  - apply NoDup_app. split_and!; [|intros p Hp1 Hp2|done].
    + eapply sublist_NoDup; [exact HN|]. by apply fmap_sublist, sublist_filter.
    + rewrite Forall_forall in H2. destruct (H2 p Hp2) as (X & HX & _). destruct (Hin p Hp1) as (Y & HY & _).
      apply (Hd p); apply list_elem_of_fmap; [by exists (p, X)|by exists (p, Y)].
  - apply Forall_app. split; apply Forall_forall; intros p Hp.
    + destruct (Hin p Hp) as (X & HX & E). exists X. rewrite elem_of_app. rewrite Forall_forall in Hsub. split_and!; [by right|by apply (Hsub (p, X))|done].
    + rewrite Forall_forall in H2. destruct (H2 p Hp) as (X & HX & E). exists X. rewrite elem_of_app. split; [by left|done].
Qed.

(** A node of a graph. *)
Lemma find_node a h (N : list (ptr * node_slots)) R p : mem_ok a h ((N ≫= full) ++ R) -> p ∈ N.*1 ->
  exists N1 X N2, N = N1 ++ (p, X) :: N2 /\ h !! p = Some (ONode (x_node X)).
Proof.
  intros HN Hp. apply list_elem_of_fmap in Hp as ([p' X] & -> & Hp). apply list_elem_of_split in Hp as (N1 & N2 & ->).
  exists N1, X, N2. split; [done|]. rewrite bind_app, bind_cons in HN. cbn [fst].
  apply (mem_ok_perm _ _ _ (full (p', X) ++ (N1 ≫= full) ++ (N2 ≫= full) ++ R)) in HN; [|solve_Permutation].
  apply (mem_ok_lookup _ _ _ _ _ HN).
Qed.
(** Its countdown changes. *)
Lemma update_node a h N1 d X N2 I k b : mem_ok a h (((N1 ++ (d, X) :: N2) ≫= full) ++ I) ->
  mem_ok a (<[d := ONode (x_node (with_state X k b))]> h) (((N1 ++ (d, with_state X k b) :: N2) ≫= full) ++ I).
Proof.
  assert (EP : forall Y, ((N1 ++ (d, Y) :: N2) ≫= full) ++ I ≡ₚ full (d, Y) ++ (N1 ≫= full) ++ (N2 ≫= full) ++ I).
  { intros Y. rewrite bind_app, bind_cons. generalize (full (d, Y)), (N1 ≫= full), (N2 ≫= full). intros. solve_Permutation. }
  rewrite !EP. unfold full at 1, body. cbn [fst snd app]. intros H.
  apply (mem_ok_change _ _ _ _ (ONode (x_node (with_state X k b)))) in H. exact H.
Qed.
(** A new dependency of [d]. *)
Lemma building_more N1 d Y N2 : building (N1 ++ (d, Y) :: N2) -> (x_or Y = true -> x_left Y = 0) -> NoDup (N1 ++ (d, Y) :: N2).*1 ->
  let N' := N1 ++ (d, with_state Y (x_left Y + 1) (x_sub Y)) :: N2 in
  closed (Some d :: (N' ≫= targets)) N' /\ Forall (fun x => x_sub x.2 = false) N'.
Proof.
  intros [Hcl Hsub] Hor Hnd N'. apply Forall_app in Hsub as [S1 [S2 S3]%Forall_cons]. cbn in S2.
  assert (ET : N' ≫= targets = (N1 ++ (d, Y) :: N2) ≫= targets) by (unfold N'; by rewrite !bind_app).
  assert (EF : N'.*1 = (N1 ++ (d, Y) :: N2).*1) by (unfold N'; by rewrite !fmap_app).
  rewrite ET. destruct Hcl as [H1 H2]. rewrite fmap_app in Hnd. cbn in Hnd. apply NoDup_app in Hnd as (_ & Hd1 & [Hd2 _]%NoDup_cons).
  apply Forall_app in H1 as [F1 [F2 F3]%Forall_cons].
  assert (Hfit : forall x, x.1 <> d -> fits ((N1 ++ (d, Y) :: N2) ≫= targets) x -> fits (Some d :: ((N1 ++ (d, Y) :: N2) ≫= targets)) x).
  { intros x Hx. unfold fits. cbn [occ]. by rewrite decide_False by congruence. }
  split; [split|].
  - unfold N'. apply Forall_app. split; [|constructor].
    + rewrite Forall_forall in F1 |- *. intros x Hx. apply Hfit; [|by apply F1]. intros E. apply (Hd1 x.1); [by apply list_elem_of_fmap_2|].
      rewrite E. by left.
    + revert F2. unfold fits. cbn [x_sub x_or x_left with_state fst snd occ]. rewrite S2, decide_True by done.
      intros [F2 F2']. split; [lia|]. intros Ho. specialize (Hor Ho). lia.
    + rewrite Forall_forall in F3 |- *. intros x Hx. apply Hfit; [|by apply F3]. intros E. apply Hd2. rewrite <- E. by apply list_elem_of_fmap_2.
  - rewrite EF. constructor; [|done]. apply list_elem_of_fmap. exists d. split; [done|]. rewrite fmap_app. apply elem_of_app. right. by left.
  - unfold N'. apply Forall_app. split; [done|]. by constructor.
Qed.
(** The list of [n] has the new entry, or had it. *)
Lemma building_entries M1 n X M2 es d : let M := M1 ++ (n, X) :: M2 in
  closed (Some d :: (M ≫= targets)) M /\ Forall (fun x => x_sub x.2 = false) M ->
  es.*2 = (x_entries X).*2 \/ es.*2 ≡ₚ Some d :: (x_entries X).*2 -> building (M1 ++ (n, with_entries X es) :: M2).
Proof.
  intros M [Hcl Hsub] Hes. unfold M in *. apply Forall_app in Hsub as [S1 [S2 S3]%Forall_cons].
  set (M' := M1 ++ (n, with_entries X es) :: M2).
  assert (Hany : forall ts, closed ts (M1 ++ (n, X) :: M2) -> closed ts M').
  { intros ts [[F1 [F2 F3]%Forall_cons]%Forall_app H2]. split.
    - apply Forall_app. split; [done|]. by constructor.
    - unfold M'. rewrite fmap_app in *. exact H2. }
  split; [|unfold M'; apply Forall_app; split; [done|by constructor]].
  assert (EM : forall Y, (M1 ++ (n, Y) :: M2) ≫= targets ≡ₚ (x_entries Y).*2 ++ (M1 ≫= targets) ++ (M2 ≫= targets)).
  { intros Y. rewrite bind_app, bind_cons. change (targets (n, Y)) with ((x_entries Y).*2). solve_Permutation. }
  unfold M' at 1. rewrite EM. cbn [x_entries with_entries]. rewrite (EM X) in Hcl. destruct Hes as [->|Hes].
  - by apply closed_visit, Hany in Hcl.
  - rewrite Hes. by apply Hany in Hcl.
Qed.

Section Begin.
Context (s : state) (t : nat) (ns : list ptr) (I : list item).
Context (Ht : threads s !! t = Some (mk_thread ns Idle)) (Hlt : (t < n_threads)%nat).
Context (HL : layout s I) (HM : mem_ok (slots s) (heap s) I).

Lemma create_task_after t' v : safe s 1 False (begin s t ns (CreateTask t' v)).
Proof.
  unfold begin. destruct (new_slot_ok s t I HM Hlt) as (a & r & -> & Hr). cbn [mbind outcome_bind]. destruct r as [p|].
  - destruct Hr as [HM' Hlen]. destruct (put_ok (set_mem s a (heap s)) (IRaw p) p OTask v I eq_refl HM') as (a' & -> & HM2 & Eh).
    cbn [mbind outcome_bind]. eapply (plain_after s); [done|done|apply (layout_more_tasks s [p] I HL)|exact HM2|cbn in *; rewrite Eh; lia].
  - destruct Hr as (HM' & _ & Hlen). by eapply (plain_after s); [..|simpl; lia].
Qed.

Lemma create_node_after t' k v : safe s 4 False (begin s t ns (CreateNode t' k v)).
Proof.
  unfold begin. case_decide as Hk; [|done]. destruct (new_slot_ok s t I HM Hlt) as (a & r & -> & Hr). cbn [mbind outcome_bind]. destruct r as [n|].
  - destruct Hr as [HM' Hlen]. destruct (put_ok (set_mem s a (heap s)) (IRaw n) n (ONode (new_node k None)) v I eq_refl HM') as (a' & -> & HM2 & Eh).
    cbn [mbind outcome_bind].
    destruct (layout_take_task s I HL (proj1 (mem_ok_held _ _ _ HM)) k.1 Hk) as (I1 & E1 & HL1).
    destruct (layout_thread (set_tasks s (take_task k.1 (tasks s))) t _ I1 Ht HL1) as (l & I2 & (N & P & HN & HB & HP & ->) & E2 & HT).
    simpl in HP. subst P. set (l' := (N ≫= full) ++ IObj n (ONode (new_node k None)) :: owned_task k.1).
    eapply (thread_after s (set_tasks (set_mem s a' _) _) t _ _ _ (l' ++ I2)); [exact Ht|done| | |cbn in *; rewrite Eh; lia|done].
    + apply (HT (mk_thread ns (NList n k))); [|done]. by exists N, (IObj n (ONode (new_node k None)) :: owned_task k.1).
    + revert HM2. apply mem_ok_perm. rewrite E1, E2. unfold l'. solve_Permutation.
  - destruct Hr as (HM' & _ & Hlen). by eapply (plain_after s); [..|simpl; lia].
Qed.

Lemma roots_read h M R : Forall (rep h) ((M ≫= full) ++ R) ->
  roots h M.*1 = Ok (filter (fun x => x_left x.2 = 0) M).*1.
Proof.
  induction M as [|x M IH]; intros HR; [done|]. rewrite bind_cons, <- app_assoc in HR. pose proof HR as HR'.
  apply Forall_cons in HR' as [Hx _]. apply Forall_app in HR as [_ HR]. simpl in Hx. rewrite fmap_cons. simpl.
  unfold as_node. rewrite Hx. cbn [mbind outcome_bind]. rewrite (IH HR). cbn [mbind outcome_bind]. rewrite filter_cons.
  change (dependencies_left (x_node x.2)) with (x_left x.2).
  case_decide as E; [by rewrite E|]. by rewrite (proj2 (Z.eqb_neq _ _) E).
Qed.

Lemma submit_after t' acyclic : safe s 0 False (begin s t ns (Submit t' acyclic)).
Proof.
  unfold begin. destruct acyclic.
  - destruct HL as (T & R & W & Q & (Hn & HT & HR & HW & HQ & Hg & Hrt) & HI).
    destruct (Forall2_lookup_l _ _ _ _ _ HT Ht) as (l & Hl & (N & P & HN & HB & HP & ->)). simpl in HN, HP. subst P.
    rewrite app_nil_r in Hl.
    set (others := concat (take t T ++ drop (S t) T)).
    assert (E : forall l', concat (<[t := l']> T) ≡ₚ l' ++ others) by (intros l'; apply (concat_split T t _ l' Hl)).
    pose proof (E (N ≫= full)) as El. rewrite list_insert_id in El by done.
    assert (EI : I ≡ₚ (N ≫= full) ++ task_items (tasks s) ++ others ++ (R ≫= full) ++ (W ≫= w_items) ++ (Q ≫= body) ++ (IRaw <$> lost s)).
    { rewrite HI. unfold pieces. rewrite El. generalize (N ≫= full), (R ≫= full), (W ≫= w_items), (Q ≫= body). intros. solve_Permutation. }
    pose proof HM as HM1. rewrite EI in HM1. rewrite <- HN. pose proof HM1 as (_ & _ & _ & _ & Hrep). rewrite (roots_read _ _ _ Hrep).
    cbn [mbind outcome_bind].
    assert (HND : NoDup (R ++ N).*1).
    { eapply (nodes_nodup full); [by eexists|]. destruct (mem_ok_held _ _ _ HM1) as [Hnd _].
      assert (EP : ((R ++ N) ≫= full) ++ task_items (tasks s) ++ others ++ (W ≫= w_items) ++ (Q ≫= body) ++ (IRaw <$> lost s) ≡ₚ I).
      { rewrite EI, bind_app. generalize (N ≫= full), (R ≫= full), (W ≫= w_items), (Q ≫= body). intros. solve_Permutation. }
      rewrite <- EI, <- EP, bind_app in Hnd. by apply NoDup_app in Hnd as [? _]. }
    eapply (thread_after s (set_nodes s (running s ++ N.*1) (walks s) (retired s)) t _ (mk_thread [] (Roots (filter (fun x => x_left x.2 = 0) N).*1)));
      [exact Ht|done| |exact HM|simpl; lia|done].
    exists (<[t := []]> T), (R ++ N), W, Q. split; [split_and!|]; simpl.
    + by rewrite length_insert.
    + apply Forall2_insert; [done|]. exists [], []. by split_and!.
    + by rewrite fmap_app, HR.
    + done.
    + done.
    + change ([] ++ due R W) with (due R W) in Hg.
      assert (ED : due (R ++ N) W ≡ₚ due R W ++ (N ≫= targets)) by (unfold due; rewrite bind_app; solve_Permutation).
      rewrite ED. apply closed_app; [done|done|apply HB].
    + by eapply roots_submit.
    + rewrite HI. unfold pieces. simpl. rewrite El, E, bind_app. simpl.
      generalize (N ≫= full), (R ≫= full), (W ≫= w_items), (Q ≫= body). intros. solve_Permutation.
  - destruct (layout_thread s t _ I Ht HL) as (l & I1 & (N & P & HN & HB & HP & ->) & E1 & HT). simpl in HP. subst P. simpl in HN.
    rewrite app_nil_r in E1. eapply (thread_after s s); [exact Ht|done|apply (HT (mk_thread [] (Loop ns)) (N ≫= full)); [|done]|by rewrite E1 in HM|simpl; lia|done].
    exists [], (N ≫= full). split_and!; try done. by exists N.
Qed.

Lemma run_task_after t' k : safe s 0 False (begin s t ns (RunTask t' k)).
Proof.
  unfold begin. case_decide as Hk; [|done].
  destruct (layout_take_task s I HL (proj1 (mem_ok_held _ _ _ HM)) (Some k)) as (I1 & E1 & HL1); [by repeat constructor|].
  pose proof HM as HM1. rewrite E1 in HM1. unfold as_task. rewrite (mem_ok_lookup _ _ _ _ _ HM1). cbn [mbind outcome_bind].
  destruct (release_ok s t (IObj k OTask) k I1 eq_refl HM1 Hlt) as (a & -> & HM2 & Hlen). cbn [mbind outcome_bind].
  eapply (plain_after s (set_tasks (set_mem s a _) _)); [done|done|exact HL1|exact HM2|simpl; lia].
Qed.

Lemma node_deleter_after t' n : safe s 0 False (begin s t ns (NodeDeleter t' n)).
Proof.
  unfold begin. case_decide as Hn; [|done].
  destruct (layout_take_retired s I HL (proj1 (mem_ok_held _ _ _ HM)) n Hn) as (X & I1 & E1 & HL1).
  pose proof HM as HM1. rewrite E1 in HM1. destruct (destroy_ok _ _ (n, X) None I1 HM1) as (curr & E & HM2). simpl in E. rewrite E.
  cbn [mbind outcome_bind].
  destruct (layout_thread (set_nodes s (running s) (walks s) (without n (retired s))) t _ I1 Ht HL1) as (l & I2 & (N & P & HN & HB & HP & ->) & E2 & HT).
  simpl in HP. subst P. set (P' := [IRaw n; IRaw (x_list X); IRaw (x_head X); ISeg curr (x_entries X) (x_tail X); sentinel (x_tail X)]).
  eapply (thread_after s (set_nodes s _ _ _) t _ _ _ (((N ≫= full) ++ P') ++ I2)); [exact Ht|done| | |simpl; lia|done].
  - apply (HT (mk_thread ns (DWalk n _ _ _ curr None))); [|done]. exists N, P'. split_and!; try done. by exists (x_entries X), [].
  - revert HM2. apply mem_ok_perm. rewrite E2. cbn. unfold P'. solve_Permutation.
Qed.

(** [dependencies_left] is incremented, and the entry is added if it is new. *)
Lemma add_dependency_after t' d n : ordinary s (AddDependency t' d n) ->
  safe s 1 (few_free (slots s)) (begin s t ns (AddDependency t' d n)).
Proof.
  intros Hord. unfold begin. case_decide as Hdn; [|done]. destruct Hdn as [Hd Hn].
  destruct (layout_thread s t _ I Ht HL) as (l & I1 & (N & P & HN & HB & HP & ->) & E1 & HT). simpl in HP, HN. subst P.
  rewrite app_nil_r in E1. pose proof HM as HM1. rewrite E1 in HM1.
  assert (Hkey : Z.pos d <= UINT64_MAX).
  { pose proof (proj2 (mem_ok_held _ _ _ HM) d (thread_slots s I t _ d HL Ht Hd)). unfold UINT64_MAX. lia. }
  rewrite <- HN in Hd, Hn.
  destruct (find_node _ _ N I1 d HM1 Hd) as (N1 & Y & N2 & EN & Hd'). unfold as_node. rewrite Hd'. cbn [mbind outcome_bind].
  unfold ordinary in Hord. rewrite Hd' in Hord. change (dependencies_left (x_node Y)) with (x_left Y) in *.
  change (gateOR (x_node Y)) with (x_or Y) in Hord. rewrite EN in HB, HM1, Hn.
  set (Y' := with_state Y (x_left Y + 1) (x_sub Y)). set (N' := N1 ++ (d, Y') :: N2).
  change (set_left (x_node Y) (x_left Y + 1)) with (x_node Y').
  assert (HM2 : mem_ok (slots s) (<[d := ONode (x_node Y')]> (heap s)) ((N' ≫= full) ++ I1)) by (by eapply update_node).
  assert (HB' : closed (Some d :: (N' ≫= targets)) N' /\ Forall (fun x => x_sub x.2 = false) N').
  { apply building_more; [done|done|]. eapply (nodes_nodup full); [by eexists|].
    destruct (mem_ok_held _ _ _ HM1) as [Hnd _]. rewrite bind_app in Hnd. by apply NoDup_app in Hnd as [? _]. }
  destruct (find_node _ _ N' I1 n HM2) as (M1 & X & M2 & EM & Hn'); [unfold N'; by rewrite fmap_app in *|].
  cbn [heap change set_mem]. rewrite Hn'. cbn [mbind outcome_bind of_option dependents x_node].
  set (R := owned_task (x_task X) ++ (M1 ≫= full) ++ (M2 ≫= full) ++ I1).
  assert (EI : forall es, ((M1 ++ (n, with_entries X es) :: M2) ≫= full) ++ I1 ≡ₚ body (n, with_entries X es) ++ R).
  { intros es. rewrite bind_app, bind_cons. unfold full at 2, R. cbn [x_task snd with_entries].
    generalize (body (n, with_entries X es)), (M1 ≫= full), (M2 ≫= full), (owned_task (x_task X)). intros. solve_Permutation. }
  assert (EX : with_entries X (x_entries X) = X) by (by destruct X).
  pose proof (EI (x_entries X)) as EI0. rewrite EX in EI0. rewrite EM, EI0 in HM2.
  set (s1 := change s d _).
  assert (Hsize : (length (x_entries X) < size (heap s1))%nat).
  { pose proof HM2 as H. apply (mem_ok_perm _ _ _ (ISeg (x_head X) ((x_head X, None) :: x_entries X) (x_tail X) :: sentinel (x_tail X) ::
      IObj n (ONode (x_node X)) :: IObj (x_list X) (OList (x_head X) (x_tail X)) :: R)) in H;
      [|unfold body; cbn; solve_Permutation]. apply seg_size in H. cbn [length] in H. unfold s1. cbn [heap change set_mem]. lia. }
  pose proof (add_ok s1 t n X d R HM2 Hkey Hlt Hsize) as Ha. destruct (add s1 t (x_list X) d) as [s'| |]; [|done|done].
  destruct Ha as (a & h & es & -> & HM3 & Hes & Hlen). eapply (plain_after s (set_mem s a h)); [done|done| |exact HM3|exact Hlen].
  apply (layout_same s t _ _ Ht). rewrite <- EI. apply (HT (mk_thread ns Idle)); [|done].
  exists (M1 ++ (n, with_entries X es) :: M2), []. split; [|split; [|split; [done|by rewrite app_nil_r]]].
  - rewrite <- HN, EN. transitivity N'.*1; [by rewrite EM, !fmap_app|by unfold N'; rewrite !fmap_app].
  - rewrite EM in HB'. by apply (building_entries M1 n X M2 es d).
Qed.
End Begin.

(** *** Firing *)

Definition placed (s : state) : Prop :=
  exists T R W Q, shape [] s T R W Q /\ mem_ok (slots s) (heap s) (pieces s T R W Q).
(** Firing allocates nothing. *)
Definition keeps (s s' : state) : Prop := threads s' = threads s /\ lost s' = lost s /\ slots s' = slots s.
Abbreviation pending s := (threads s ≫= fun th => pc_roots (at_pc th)).

Lemma placed_after s s' c : placed s' -> keeps s s' -> after s c s'.
Proof. intros (T & R & W & Q & HS & HM) (E1 & E2 & E3). eapply plain_after; [done|done|by exists T, R, W, Q|done|rewrite E3; lia]. Qed.

Lemma pieces_middle s T R1 x R2 W Q : pieces s T (R1 ++ x :: R2) W Q ≡ₚ full x ++ pieces s T (R1 ++ R2) W Q.
Proof.
  unfold pieces. rewrite !bind_app, bind_cons. generalize (full x), (R1 ≫= full), (R2 ≫= full), (W ≫= w_items), (Q ≫= body).
  intros. solve_Permutation.
Qed.
Lemma pieces_walk s T R w W' W Q : W' ≡ₚ w :: W -> pieces s T R W' Q ≡ₚ w_items w ++ pieces s T R W Q.
Proof.
  intros E. unfold pieces. assert (EW : W' ≫= w_items ≡ₚ w_items w ++ (W ≫= w_items)) by (by rewrite E, bind_cons). rewrite EW.
  generalize (w_items w), (R ≫= full), (W ≫= w_items), (W' ≫= w_items), (Q ≫= body). intros. solve_Permutation.
Qed.
Lemma due_walk R w W' W : W' ≡ₚ w :: W -> due R W' ≡ₚ (w_todo w).*2 ++ due R W.
Proof. intros E. unfold due. rewrite E, bind_cons. solve_Permutation. Qed.

Lemma same_node R1 (d : ptr) (X : node_slots) R2 Y : NoDup (R1 ++ (d, X) :: R2).*1 -> (d, Y) ∈ R1 ++ (d, X) :: R2 -> Y = X.
Proof.
  rewrite fmap_app. cbn. intros (_ & H1 & [H2 _]%NoDup_cons)%NoDup_app [Hin|[[= ->]|Hin]%elem_of_cons]%elem_of_app; [|done|].
  - exfalso. apply (H1 d); [by apply (list_elem_of_fmap_2 fst _ _ Hin)|by left].
  - destruct H2. by apply (list_elem_of_fmap_2 fst _ _ Hin).
Qed.
Lemma without_middle (l1 : list ptr) d l2 : NoDup (l1 ++ d :: l2) -> without d (l1 ++ d :: l2) = l1 ++ l2.
Proof.
  intros (_ & H1 & [H2 _]%NoDup_cons)%NoDup_app. unfold without. rewrite filter_app, filter_cons, decide_False by tauto.
  f_equal; apply filter_absent; [|done]. intros Hd. apply (H1 d Hd). by left.
Qed.
(** Another running node than [d] stays. *)
Lemma roots_other R1 d X R2 R' ths : roots_ok (R1 ++ (d, X) :: R2) ths -> (d ∉ ths ≫= fun th => pc_roots (at_pc th)) ->
  (forall y, y ∈ R1 ++ R2 -> y ∈ R') -> roots_ok R' ths.
Proof.
  intros [H1 H2] Hd HR. split; [done|]. rewrite Forall_forall in *. intros q Hq. destruct (H2 q Hq) as (Y & HY & E).
  exists Y. split; [|done]. apply HR. rewrite !elem_of_app, elem_of_cons in *. destruct HY as [?|[[= -> _]|?]]; auto. done.
Qed.
Lemma pending_root R1 d X R2 ths : NoDup (R1 ++ (d, X) :: R2).*1 -> roots_ok (R1 ++ (d, X) :: R2) ths ->
  x_sub X = true \/ 0 < x_left X -> d ∉ ths ≫= fun th => pc_roots (at_pc th).
Proof.
  intros Hnd [_ H] HX Hd. rewrite Forall_forall in H. destruct (H d Hd) as (Y & HY & E1 & E2).
  rewrite (same_node _ _ _ _ _ Hnd HY) in E1, E2. destruct HX as [E|?]; [congruence|lia].
Qed.

(** What is known when node [d] is visited or fired. *)
Section Fire.
Context (s : state) (T : list (list item)) (R1 : list (ptr * node_slots)) (d : ptr) (X : node_slots)
  (R2 : list (ptr * node_slots)) (W : list walk) (Q : list (ptr * node_slots)).
Context (HM : mem_ok (slots s) (heap s) (pieces s T (R1 ++ (d, X) :: R2) W Q)).

Lemma fire_node : heap s !! d = Some (ONode (x_node X)).
Proof. pose proof HM as H. rewrite pieces_middle in H. apply (mem_ok_lookup _ _ _ _ _ H). Qed.

Lemma begin_walk_ok : shape [] s T (R1 ++ (d, X) :: R2) W Q -> x_sub X = true ->
  exists s', begin_walk s d = Ok s' /\ keeps s s' /\ placed s'.
Proof.
  intros HS Hsub. pose proof (pieces_nodup _ _ _ _ _ _ HS (proj1 (mem_ok_held _ _ _ HM))) as (_ & Hnd & _).
  destruct HS as (Hn & HT & HR & HW & HQ & Hg & Hrt). change ([] ++ due ?R ?W) with (due R W) in Hg.
  pose proof (pending_root _ _ _ _ _ Hnd Hrt (or_introl Hsub)) as Hpe.
  pose proof HM as HM1. rewrite pieces_middle in HM1. set (P := pieces s T (R1 ++ R2) W Q) in *.
  destruct X as [k i hd tl es o lf sb]. cbn in Hsub. subst sb. unfold full, body in HM1. cbn [fst snd x_list x_head x_tail x_entries x_task] in HM1.
  set (nd := x_node _) in HM1.
  apply (mem_ok_perm _ _ _ (ISeg hd ([(hd, None)] ++ es) tl :: IObj d (ONode nd) :: IObj i (OList hd tl) :: sentinel tl :: owned_task k ++ P)) in HM1;
    [|cbn; solve_Permutation].
  apply mem_ok_seg_app in HM1 as [m HM1]. pose proof HM1 as (_ & _ & _ & _ & HR1). rewrite !Forall_cons in HR1.
  destruct HR1 as ([_ (k0 & m' & Hh & Hm)] & _ & Hd & Hi & _). cbn in Hh, Hd, Hi, Hm. subst m'.
  unfold begin_walk, as_node, as_list, as_entry. rewrite Hd. cbn [mbind outcome_bind of_option dependents nd x_node x_list]. rewrite Hi.
  cbn [mbind outcome_bind]. rewrite Hh. cbn [mbind outcome_bind of_option]. eexists. split; [reflexivity|]. split; [done|].
  set (X0 := mk_node_slots k i hd tl es o lf true) in *. set (w := mk_walk (d, with_entries X0 []) m es).
  exists T, (R1 ++ R2), (W ++ [w]), Q. split.
  - split_and!; simpl; try done.
    + rewrite <- HR, !fmap_app. cbn. rewrite without_middle; [done|]. by rewrite fmap_app in Hnd.
    + by rewrite fmap_app, HW.
    + rewrite (due_walk _ w (W ++ [w]) W) by (by rewrite Permutation_app_comm). rewrite due_middle, middle_perm in Hg.
      eapply closed_leave; [exact Hg|]. destruct Hg as [[Hf _]%Forall_cons _]. exact Hf.
    + by eapply roots_other.
  - change (mem_ok (slots s) (heap s) (pieces s T (R1 ++ R2) (W ++ [w]) Q)).
    rewrite (pieces_walk s T _ w (W ++ [w]) W) by (by rewrite Permutation_app_comm). revert HM1. apply mem_ok_perm. unfold w_items. cbn.
    fold P. solve_Permutation.
Qed.

(** The node changes its countdown or is submitted. *)
Lemma node_changes k b : (d ∉ pending s) -> shape [] s T (R1 ++ (d, X) :: R2) W Q \/ shape [Some d] s T (R1 ++ (d, X) :: R2) W Q ->
  fits (due (R1 ++ (d, X) :: R2) W) (d, with_state X k b) -> let s' := change s d (ONode (x_node (with_state X k b))) in
  shape [] s' T (R1 ++ (d, with_state X k b) :: R2) W Q /\
  mem_ok (slots s') (heap s') (pieces s' T (R1 ++ (d, with_state X k b) :: R2) W Q).
Proof.
  intros Hpe HS Hf s'. split.
  - assert (H : shape [] s T (R1 ++ (d, X) :: R2) W Q).
    { destruct HS as [HS|(Hn & HT & HR & HW & HQ & Hg & Hrt)]; [done|]. split_and!; try done. by eapply closed_visit. }
    destruct H as (Hn & HT & HR & HW & HQ & Hg & Hrt). split_and!; simpl; try done.
    + by rewrite <- HR, !fmap_app.
    + change ([] ++ due ?R ?W) with (due R W) in Hg.
      assert (ED : due (R1 ++ (d, with_state X k b) :: R2) W = due (R1 ++ (d, X) :: R2) W) by (unfold due; by rewrite !bind_app, !bind_cons).
      rewrite ED. revert Hg Hf. generalize (due (R1 ++ (d, X) :: R2) W). intros ts Hg Hf. rewrite middle_perm in Hg |- *.
      by apply (closed_update _ (d, X)).
    + eapply roots_other; [exact Hrt|exact Hpe|]. intros y. rewrite !elem_of_app, elem_of_cons. tauto.
  - change (mem_ok (slots s) (heap s') (pieces s T (R1 ++ (d, with_state X k b) :: R2) W Q)).
    rewrite pieces_middle. pose proof HM as H. rewrite pieces_middle in H. unfold full, body. unfold full, body in H. cbn [fst snd app] in H |- *.
    by apply (mem_ok_change _ _ _ _ (ONode (x_node (with_state X k b)))) in H.
Qed.
End Fire.

Lemma fire_ok s T R1 d X R2 W Q : mem_ok (slots s) (heap s) (pieces s T (R1 ++ (d, X) :: R2) W Q) ->
  shape [] s T (R1 ++ (d, X) :: R2) W Q -> x_sub X = false -> occ (Some d) (due (R1 ++ (d, X) :: R2) W) = 0%nat ->
  (d ∉ pending s) -> exists s', fire s d = Ok s' /\ keeps s s' /\ placed s'.
Proof.
  intros HM HS Hsub Ho Hpe. unfold fire, as_node. rewrite (fire_node _ _ _ _ _ _ _ _ HM). cbn [mbind outcome_bind].
  change (submitted (x_node X)) with (x_sub X). change (task (x_node X)) with (x_task X). rewrite Hsub.
  set (X' := with_state X (x_left X) true). change (set_submitted (x_node X)) with (x_node X').
  destruct (node_changes s T R1 d X R2 W Q HM (x_left X) true Hpe (or_introl HS) Ho) as [HS' HM'].
  set (s1 := change s d _) in *. destruct (x_task X) as [k|] eqn:Ek.
  - assert (Hk : heap s1 !! k = Some OTask).
    { pose proof HM' as H. rewrite pieces_middle in H. unfold full in H at 1. cbn [snd x_task with_state] in H. rewrite Ek in H.
      apply (mem_ok_perm _ _ _ (IObj k OTask :: body (d, X') ++ pieces s1 T (R1 ++ R2) W Q)) in H; [|cbn; solve_Permutation].
      apply (mem_ok_lookup _ _ _ _ _ H). }
    unfold as_task. rewrite Hk. exists s1. split; [done|]. split; [done|by exists T, (R1 ++ (d, X') :: R2), W, Q].
  - destruct (begin_walk_ok s1 T R1 d X' R2 W Q HM' HS' eq_refl) as (s' & E & Hk & Hp). exists s'. done.
Qed.

(** The callback finds a running node that nobody has fired. *)
Lemma trigger_ok s T R W Q o : shape [o] s T R W Q -> mem_ok (slots s) (heap s) (pieces s T R W Q) ->
  exists d s', o = Some d /\ trigger s d = Ok s' /\ keeps s s' /\ placed s'.
Proof.
  intros HS HM. pose proof HS as (Hn & HT & HR & HW & HQ & Hg & Hrt).
  destruct (closed_target _ _ _ Hg) as (d & X & R1 & R2 & -> & ->).
  pose proof (pieces_nodup _ _ _ _ _ _ HS (proj1 (mem_ok_held _ _ _ HM))) as (_ & Hnd & _).
  pose proof Hg as [[_ [Hf _]%Forall_cons]%Forall_app _]. unfold fits in Hf. cbn [fst snd app occ] in Hf. rewrite decide_True in Hf by done.
  destruct (x_sub X) eqn:Hsub; [done|]. destruct Hf as [Hf Hor].
  assert (Hpe : d ∉ pending s) by (eapply pending_root; [exact Hnd|exact Hrt|right; lia]).
  exists d. unfold trigger, as_node. rewrite (fire_node _ _ _ _ _ _ _ _ HM). cbn [mbind outcome_bind].
  change (gateOR (x_node X)) with (x_or X). change (dependencies_left (x_node X)) with (x_left X). destruct (x_or X) eqn:Ho.
  - specialize (Hor eq_refl). assert (HS0 : shape [] s T (R1 ++ (d, X) :: R2) W Q) by (split_and!; try done; by eapply closed_visit).
    destruct (fire_ok s T R1 d X R2 W Q HM HS0 Hsub ltac:(lia) Hpe) as (s' & E & Hk & Hp). by exists s'.
  - set (X' := with_state X (x_left X - 1) false). change (set_left (x_node X) (x_left X - 1)) with (mk_node (x_task X) (Some (x_list X)) (x_or X) (x_left X - 1) (x_sub X)).
    rewrite Hsub. change (mk_node _ _ _ _ _) with (x_node X').
    assert (Hfit : fits (due (R1 ++ (d, X) :: R2) W) (d, X')).
    { unfold fits. cbn. split; [lia|]. by rewrite Ho. }
    destruct (node_changes s T R1 d X R2 W Q HM _ _ Hpe (or_intror HS) Hfit) as [HS' HM'].
    set (s1 := change s d _) in *. destruct (Z.eqb_spec (x_left X - 1) 0) as [E0|_].
    + assert (ED : due (R1 ++ (d, X') :: R2) W = due (R1 ++ (d, X) :: R2) W) by (unfold due; by rewrite !bind_app, !bind_cons).
      destruct (fire_ok s1 T R1 d X' R2 W Q HM' HS' eq_refl ltac:(rewrite ED; lia) Hpe) as (s' & E & Hk & Hp). by exists s'.
    + exists s1. split_and!; try done. by exists T, (R1 ++ (d, X') :: R2), W, Q.
Qed.

Lemma layout_placed s I : layout s I -> mem_ok (slots s) (heap s) I -> placed s.
Proof. intros (T & R & W & Q & HS & HI) HM. exists T, R, W, Q. split; [done|]. by rewrite <- HI. Qed.

Lemma finish_after s n : placed s -> safe s 0 False (finish s n).
Proof.
  intros (T & R & W & Q & HS & HM). unfold finish. case_decide as Hn; [|done].
  pose proof HS as (_ & _ & HR & _). rewrite <- HR in Hn. apply list_elem_of_fmap in Hn as ([n' X] & -> & Hn).
  apply list_elem_of_split in Hn as (R1 & R2 & ->). cbn [fst]. unfold as_node. rewrite (fire_node _ _ _ _ _ _ _ _ HM). cbn [mbind outcome_bind].
  change (submitted (x_node X)) with (x_sub X). destruct (x_sub X) eqn:Hsub; [|done]. simpl. case_bool_decide; [|done].
  destruct (begin_walk_ok _ _ _ _ _ _ _ _ HM HS Hsub) as (s' & -> & Hk & Hp). by apply placed_after.
Qed.

(** The next iteration of a walk. *)
Lemma advance w e todo : w_todo w = e :: todo -> forall a h P, mem_ok a h (w_items w ++ P) ->
  w_curr w = e.1 /\ e.1 <> x_tail (w_node w).2 /\ exists k next, h !! e.1 = Some (OEntry k (Some next) e.2) /\
    mem_ok a h (w_items (mk_walk ((w_node w).1, with_entries (w_node w).2 (x_entries (w_node w).2 ++ [e])) next todo) ++ P).
Proof.
  destruct w as [[n [k i hd tl es o lf sb]] curr td]. cbn. intros -> a h P HM. set (nd := x_node _) in HM.
  apply (mem_ok_perm _ _ _ (ISeg curr ([e] ++ todo) tl :: sentinel tl :: ISeg hd ((hd, None) :: es) curr ::
    IObj n (ONode nd) :: IObj i (OList hd tl) :: owned_task k ++ P)) in HM; [|cbn; solve_Permutation].
  pose proof (seg_end _ _ _ _ _ _ HM) as Hend. apply mem_ok_seg_app in HM as [next HM].
  pose proof HM as (_ & _ & _ & _ & HR). apply Forall_cons in HR as [[-> (k0 & m & He & Hm)] _]. cbn in Hm. subst m.
  split; [done|]. split; [intros E; by apply Hend in E|]. exists k0, next. split; [done|].
  apply (mem_ok_perm _ _ _ (ISeg hd ((hd, None) :: es) e.1 :: ISeg e.1 [e] next :: ISeg next todo tl :: sentinel tl ::
    IObj n (ONode nd) :: IObj i (OList hd tl) :: owned_task k ++ P)) in HM; [|cbn; solve_Permutation].
  assert (HM' : mem_ok a h (ISeg hd (((hd, None) :: es) ++ [e]) next :: ISeg next todo tl :: sentinel tl ::
    IObj n (ONode nd) :: IObj i (OList hd tl) :: owned_task k ++ P)) by (apply mem_ok_seg_app; by exists e.1).
  revert HM'. apply mem_ok_perm. cbn. solve_Permutation.
Qed.
(** At the tail the node is whole again. *)
Lemma walk_over w a h P : w_todo w = [] -> mem_ok a h (w_items w ++ P) ->
  w_curr w = x_tail (w_node w).2 /\ mem_ok a h (full (w_node w) ++ P).
Proof.
  destruct w as [[n [k i hd tl es o lf sb]] curr td]. cbn. intros -> HM. set (nd := x_node _) in HM.
  pose proof HM as (_ & _ & _ & _ & HR). rewrite !Forall_cons in HR. destruct HR as (_ & _ & _ & Hc & _). cbn in Hc. subst curr.
  split; [done|]. apply (mem_ok_perm _ _ _ (ISeg tl [] tl :: ISeg hd ((hd, None) :: es) tl :: sentinel tl ::
    IObj n (ONode nd) :: IObj i (OList hd tl) :: owned_task k ++ P)) in HM; [|cbn; solve_Permutation].
  apply mem_ok_nil in HM. revert HM. apply mem_ok_perm. unfold full, body. cbn. solve_Permutation.
Qed.
Lemma walk_reads w a h P : mem_ok a h (w_items w ++ P) ->
  h !! (w_node w).1 = Some (ONode (x_node (w_node w).2)) /\
  h !! x_list (w_node w).2 = Some (OList (x_head (w_node w).2) (x_tail (w_node w).2)).
Proof.
  destruct w as [[n X] curr td]. cbn. intros (_ & _ & _ & _ & HR). rewrite !Forall_cons in HR. by destruct HR as (? & ? & _).
Qed.

Lemma insert_perm {B} (l : list B) i x y : l !! i = Some x -> <[i := y]> l ≡ₚ y :: delete i l.
Proof.
  intros H. rewrite insert_take_drop, delete_take_drop by (by eapply lookup_lt_Some). by rewrite Permutation_middle.
Qed.

Lemma visit_after s i : placed s -> safe s 0 False (visit s i).
Proof.
  intros (T & R & W & Q & HS & HM). unfold visit. destruct (walks s !! i) as [[n curr]|] eqn:Hi; [|done].
  pose proof HS as (Hn & HT & HR & HW & HQ & Hg & Hrt). change ([] ++ due ?R ?W) with (due R W) in Hg.
  rewrite <- HW, list_lookup_fmap in Hi. destruct (W !! i) as [w|] eqn:Hw; [|done]. injection Hi as <- <-.
  pose proof (delete_Permutation _ _ _ Hw) as EW. pose proof HM as HM1. rewrite (pieces_walk _ _ _ _ _ _ _ EW) in HM1.
  destruct (walk_reads _ _ _ _ HM1) as [Hnd Hls]. unfold as_node, as_list. rewrite Hnd.
  cbn [mbind outcome_bind of_option dependents x_node]. rewrite Hls. cbn [mbind outcome_bind task].
  destruct (w_todo w) as [|e todo] eqn:Et.
  - destruct (walk_over _ _ _ _ Et HM1) as [-> HM2]. rewrite decide_True by done.
    eapply (plain_after _ _ _ (pieces (set_tasks s (tasks s ++ option_list (x_task (w_node w).2))) T R (delete i W) (Q ++ [w_node w])));
      [done|done| | |simpl; lia].
    + exists T, R, (delete i W), (Q ++ [w_node w]). split; [split_and!; simpl; try done|done].
      * by rewrite <- HW, list_fmap_delete.
      * by rewrite fmap_app, HQ.
      * change (closed (due R (delete i W)) R). by rewrite (due_walk _ _ _ _ EW), Et in Hg.
    + revert HM2. apply mem_ok_perm. unfold pieces, full, task_items, owned_task. cbn [tasks lost set_tasks].
      rewrite fmap_app, bind_app. cbn [mbind list_bind]. rewrite app_nil_r.
      generalize (body (w_node w)), (R ≫= full), (delete i W ≫= w_items), (Q ≫= body). intros. solve_Permutation.
  - destruct (advance _ _ _ Et _ _ _ HM1) as (Ec & Hne & k & next & He & HM2). rewrite Ec, decide_False by done.
    unfold as_entry. rewrite He. cbn [mbind outcome_bind of_option].
    set (w' := mk_walk _ next todo) in HM2. set (s1 := set_nodes s _ _ _).
    assert (EW' : <[i := w']> W ≡ₚ w' :: delete i W) by (by eapply insert_perm).
    assert (HS1 : shape [e.2] s1 T R (<[i := w']> W) Q).
    { split_and!; simpl; try done.
      - by rewrite <- HW, list_fmap_insert.
      - rewrite (due_walk _ _ _ _ EW'). by rewrite (due_walk _ _ _ _ EW), Et in Hg. }
    assert (HM3 : mem_ok (slots s1) (heap s1) (pieces s1 T R (<[i := w']> W) Q)).
    { rewrite (pieces_walk _ _ _ _ _ _ _ EW'). exact HM2. }
    destruct (trigger_ok _ _ _ _ _ _ HS1 HM3) as (d & s' & -> & E & Hk & Hp). cbn [mbind outcome_bind of_option]. rewrite E.
    by apply placed_after.
Qed.

Lemma after_trans s s1 s' c : after s c s1 -> slots s1 = slots s -> after s1 0 s' -> after s c s'.
Proof.
  intros (_ & U1 & N1) E (HI & U2 & N2). split_and!; [done|lia|]. rewrite E in N2. auto.
Qed.

Lemma next_root (ths : list thread) t ns r ms : ths !! t = Some (mk_thread ns (Roots (r :: ms))) ->
  (ths ≫= fun th => pc_roots (at_pc th)) ≡ₚ r :: (<[t := mk_thread ns (Roots ms)]> ths ≫= fun th => pc_roots (at_pc th)).
Proof.
  revert t. induction ths as [|u ths IH]; intros [|t] Ht; [done|done| |].
  - injection Ht as ->. change (<[0%nat := ?x]> (?y :: ths)) with (x :: ths). done.
  - change (<[S t := ?x]> (u :: ths)) with (u :: <[t := x]> ths). rewrite !bind_cons, (IH t Ht). solve_Permutation.
Qed.

(** The next root. *)
Lemma roots_after s t ns r ms v : placed s -> threads s !! t = Some (mk_thread ns (Roots (r :: ms))) ->
  safe s 0 False (continue s t ns (Roots (r :: ms)) v).
Proof.
  intros (T & R & W & Q & HS & HM) Ht. pose proof HS as (Hn & HT & HR & HW & HQ & Hg & [Hpn Hpr]).
  set (s1 := set_thread s t (mk_thread ns (Roots ms))).
  assert (EP : pending s ≡ₚ r :: pending s1).
  { by apply next_root. }
  assert (HS1 : shape [] s1 T R W Q).
  { split_and!; simpl; try done.
    - by rewrite length_insert.
    - destruct (Forall2_lookup_l _ _ _ _ _ HT Ht) as (l & Hl & (N & P & HN & HB & HP & ->)).
      rewrite <- (list_insert_id T t _ Hl). apply Forall2_insert; [done|]. by exists N, P.
    - unfold roots_ok. rewrite EP in Hpn, Hpr. apply NoDup_cons in Hpn as [_ Hpn]. by apply Forall_cons in Hpr as [_ Hpr]. }
  rewrite EP in Hpn, Hpr. apply NoDup_cons in Hpn as [Hrp _]. apply Forall_cons in Hpr as [(X & HX & E1 & E2) _].
  apply list_elem_of_split in HX as (R1 & R2 & ->).
  assert (Ho : occ (Some r) (due (R1 ++ (r, X) :: R2) W) = 0%nat).
  { destruct Hg as [[_ [Hf _]%Forall_cons]%Forall_app _]. unfold fits in Hf. cbn [fst snd app] in Hf. rewrite E1 in Hf. lia. }
  destruct (fire_ok s1 T R1 r X R2 W Q HM HS1 E1 Ho Hrp) as (s' & E & Hk & Hp).
  change (continue s t ns (Roots (r :: ms)) v) with (fire s1 r). rewrite E. apply (after_trans s s1); [|done|by apply placed_after].
  eapply (thread_after s s); [exact Ht|done|by exists T, (R1 ++ (r, X) :: R2), W, Q|exact HM|simpl; lia|done].
Qed.

(** The step is at one of the two allocations whose null result is used. *)
Definition unchecked (s : state) (x : action) : Prop :=
  (exists t d n, x = AddDependency t d n /\ few_free (slots s)) \/
  (exists t v ns n i mem k, x = Continue t v /\ threads s !! t = Some (mk_thread ns (NTail n i mem k)) /\
     (mem = None \/ few_free (slots s))).

Lemma safe_weaken s c c' (P Q : Prop) r : (c <= c')%nat -> (P -> Q) -> safe s c P r -> safe s c' Q r.
Proof. intros Hc HPQ. destruct r; simpl; [|done|done]. intros (H1 & H2 & H3). split_and!; [done|lia|done]. Qed.

Lemma step_after x s : inv s -> ordinary s x -> safe s (cost x) (unchecked s x) (step x s).
Proof.
  intros (I & HL & HM) Hord. pose proof (layout_length s I HL) as Hlen. pose proof (layout_placed s I HL HM) as Hplaced.
  assert (Hlt : forall t th, threads s !! t = Some th -> (t < n_threads)%nat) by (intros t th Ht; apply lookup_lt_Some in Ht; lia).
  assert (Hop : forall t th c U, threads s !! t = Some th -> (forall I', layout s I' -> mem_ok (slots s) (heap s) I' -> (t < n_threads)%nat ->
      threads s !! t = Some (mk_thread (nodes th) Idle) -> safe s c U (begin s t (nodes th) x)) ->
    safe s c U match at_pc th with Idle => begin s t (nodes th) x | _ => Blocked end).
  { intros t [ns c] c0 U Ht H. simpl. destruct c; [|done..]. apply (H I); [done|done|by eapply Hlt|done]. }
  destruct x as [t v|t k v|t d n|t b|n|i|t k|t n|t v]; unfold step; try (destruct (threads s !! t) as [th|] eqn:Ht; [|done]).
  - apply Hop; [done|]. intros. eapply (safe_weaken _ 1); [done| |by eapply create_task_after]. done.
  - apply Hop; [done|]. intros. eapply (safe_weaken _ 4); [done| |by eapply create_node_after]. done.
  - apply Hop; [done|]. intros. eapply (safe_weaken _ 1); [done| |by eapply add_dependency_after]. intros Hf. left. by exists t, d, n.
  - apply Hop; [done|]. intros. eapply (safe_weaken _ 0); [done| |by eapply submit_after]. done.
  - eapply (safe_weaken _ 0); [done| |by eapply finish_after]. done.
  - eapply (safe_weaken _ 0); [done| |by eapply visit_after]. done.
  - apply Hop; [done|]. intros. eapply (safe_weaken _ 0); [done| |by eapply run_task_after]. done.
  - apply Hop; [done|]. intros. eapply (safe_weaken _ 0); [done| |by eapply node_deleter_after]. done.
  - destruct (layout_thread s t th I Ht HL) as (l & rest & (N & P & HN & HB & HP & ->) & E & HT). destruct th as [ns c]. simpl in HN, HP.
    destruct (decide (pc_roots c = [])) as [Hro|Hro].
    + eapply (safe_weaken _ 0); [done| |eapply (continue_after s t ns c N rest); [done|done|done|done|by eapply Hlt|intros th1 l1 H1 H2; apply HT; [exact H1|]; simpl; by rewrite H2, Hro|exact HP|]].
      * intros (n & i & mem & k & -> & Hm). right. by exists t, v, ns, n, i, mem, k.
      * rewrite E in HM. revert HM. apply mem_ok_perm. solve_Permutation.
    + destruct c as [| | | |[|r ms]| | | | | |]; try done. eapply (safe_weaken _ 0); [done| |by eapply roots_after]. done.
Qed.
End Safety.

(** ** Runs *)

Section Runs.
Context {A : Type} {SA : SlotAllocator A} (a : A) (Ha : sa_ok a) (Hempty : sa_held a = []).
Abbreviation cap := (sa_capacity a).
Abbreviation n := (sa_threads a).

(** Runs in which no [OR] node is given a second dependency. *)
Definition exec (x : action) (s : @state A) : option state :=
  if decide (ordinary s x) then returns (step x s) else None.

(** The slots a run takes at most. *)
Definition demand (l : list action) : nat := sum_list_with cost l.

Lemma slots_inv_start : inv cap n (start a).
Proof.
  exists []. split.
  - exists (replicate n []), [], [], []. split.
    + assert (Hr : forall k, replicate k (mk_thread [] Idle) ≫= (fun th => pc_roots (at_pc th)) = []) by (induction k; auto).
      split_and!; try done; [apply length_replicate| |unfold roots_ok; simpl; rewrite Hr; by split; constructor].
      apply Forall2_same_length_lookup_2; [simpl; by rewrite !length_replicate|]. intros t th l.
      intros [-> _]%lookup_replicate [-> _]%lookup_replicate. exists [], []. by split_and!.
    + unfold pieces. simpl. clear. induction n; simpl; by rewrite ?app_nil_r in *.
  - split_and!; try done. split; [simpl; by rewrite Hempty|constructor].
Qed.

Lemma exec_after x s s' : inv cap n s -> exec x s = Some s' -> after cap n s (cost x) s'.
Proof.
  intros HI. unfold exec. case_decide as Ho; [|done]. pose proof (step_after cap n x s HI Ho) as H. destruct (step x s) as [s1| |]; [|done|done].
  by intros [= <-].
Qed.

Lemma used_start : used (start a) = 0%nat.
Proof. unfold used. simpl. rewrite Hempty. clear. by induction n. Qed.

Lemma run_after l s : run exec l (start a) = Some s -> inv cap n s /\ (used s <= demand l)%nat.
Proof.
  revert s. induction l as [|x l IH] using rev_ind; intros s.
  - intros [= <-]. split; [apply slots_inv_start|]. rewrite used_start. done.
  - rewrite run_app. destruct (run exec l (start a)) as [s1|]; [|done]. simpl. destruct (exec x s1) as [s2|] eqn:E; [|done].
    intros [= <-]. destruct (IH s1 eq_refl) as [HI Hu]. destruct (exec_after x s1 s2 HI E) as (HI' & Hu' & _).
    split; [done|]. unfold demand. rewrite sum_list_with_app. simpl. fold (demand l). lia.
Qed.

Lemma enough_free (s : @state A) m : (used s <= m)%nat -> Z.of_nat m + 64 * (Z.of_nat n - 1) < cap -> ~ few_free cap n (slots s).
Proof. unfold used, few_free. lia. Qed.

Lemma run_no_null l s : run exec l (start a) = Some s -> Z.of_nat (demand l) + 64 * (Z.of_nat n - 1) < cap -> no_null s.
Proof.
  revert s. induction l as [|x l IH] using rev_ind; intros s.
  - intros [= <-] _. split; [done|]. by apply Forall_replicate.
  - rewrite run_app. destruct (run exec l (start a)) as [s1|] eqn:E1; [|done]. simpl. destruct (exec x s1) as [s2|] eqn:E; [|done].
    intros [= <-]. unfold demand. rewrite sum_list_with_app. fold (demand l). intros Hc.
    destruct (run_after l s1 E1) as [HI Hu]. destruct (exec_after x s1 s2 HI E) as (_ & _ & Hn). apply Hn.
    + apply (enough_free s1 (demand l)); [done|lia].
    + apply IH; [done|lia].
Qed.

(** Nothing is being built, run or destroyed. *)
Definition at_rest (s : @state A) : Prop :=
  running s = [] /\ walks s = [] /\ retired s = [] /\ Forall (fun th => th = mk_thread [] Idle) (threads s).

Lemma rest_held s : inv cap n s -> at_rest s -> sa_held (slots s) ≡ₚ tasks s ++ lost s.
Proof.
  intros (I & (T & R & W & Q & (_ & HT & HR & HW & HQ & _) & HI) & (_ & _ & _ & HP & _)) (E1 & Ew & E2 & E3).
  rewrite E1 in HR. rewrite Ew in HW. rewrite E2 in HQ. destruct R; [|done]. destruct W; [|done]. destruct Q; [|done].
  assert (ET : concat T = []).
  { clear -HT E3. induction HT as [|th l ths T Hl HT IH]; [done|]. inversion E3 as [|? ? -> E]; subst. simpl. rewrite (IH E), app_nil_r.
    destruct Hl as (N & P & HN & _ & -> & ->). by destruct N. }
  rewrite <- HP, HI. unfold pieces. rewrite ET. cbn [app mbind list_bind]. rewrite bind_app.
  assert (Ht : forall l, task_items l ≫= islots = l) by (induction l as [|x l IH]; cbn; [done|by f_equal]).
  assert (Hl : forall l, (IRaw <$> l) ≫= islots = l) by (induction l as [|x l IH]; cbn; [done|by f_equal]).
  by rewrite Ht, Hl.
Qed.

Lemma step_defined l x s : run exec l (start a) = Some s -> ordinary s x -> Z.of_nat (demand (l ++ [x])) + 64 * (Z.of_nat n - 1) < cap ->
  step x s <> Stuck.
Proof.
  intros Hr Ho Hc Hx. unfold demand in Hc. rewrite sum_list_with_app in Hc. fold (demand l) in Hc.
  destruct (run_after l s Hr) as [HI Hu]. pose proof (run_no_null l s Hr) as [_ Hn]; [lia|].
  pose proof (enough_free s (demand l) Hu) as Hf. pose proof (step_after cap n x s HI Ho) as H. rewrite Hx in H. simpl in H.
  assert (Hf' : ~ few_free cap n (slots s)) by (apply Hf; lia).
  destruct H as [(t & d & m & -> & ?)|(t & v & ns & m & i & mem & k & -> & Ht & [->|?])]; [done| |done].
  by pose proof (Forall_lookup_1 _ _ _ _ Hn Ht).
Qed.
End Runs.

(** ** An example: two tasks with their nodes and a gate, run to the end

    One thread builds the graph (the [AND] gate after both nodes, the second node
    after the first), another runs and frees it.  In the end the thread that built
    it fires its one root; a walk visits each dependent and ends at the tail, and
    the second visit of the gate completes it. *)
Definition example_slots (k : nat) : list ptr := Pos.of_nat <$> seq 1 k.
Definition steps (t k : nat) : list action := replicate k (Continue t None).
Definition gate (or : bool) : spec := (None, or).
Definition node_of (k : ptr) : spec := (Some k, false).
Definition example_build : list action :=
  [CreateTask 0 None; CreateTask 0 None; CreateNode 0 (node_of 100) None] ++ steps 0 3 ++
  [CreateNode 0 (node_of 99) None] ++ steps 0 3 ++ [CreateNode 0 (gate false) None] ++ steps 0 3 ++
  [AddDependency 0 90 98; AddDependency 0 90 94; AddDependency 0 94 98].
Definition example_run : list action :=
  example_build ++ [Submit 0 true; Continue 0 None; Continue 0 None; OnTaskFinished 98; Visit 0; Visit 0; Visit 0; RunTask 1 100;
    NodeDeleter 1 98] ++ steps 1 6 ++
  [OnTaskFinished 94; Visit 0; Visit 1; Visit 0; NodeDeleter 1 90; NodeDeleter 0 94] ++ steps 0 5 ++ steps 1 4 ++ [RunTask 1 99].

Lemma example_slots_ok : NoDup (example_slots 100) /\ Z.of_nat (length (example_slots 100)) < 2 ^ 64 /\
  Forall (fun p => Z.pos p < 2 ^ 64) (example_slots 100).
Proof.
  split; [apply (bool_decide_unpack _); vm_compute; exact I|]. split; [vm_compute; reflexivity|].
  apply (bool_decide_unpack _). vm_compute. exact I.
Qed.

(** ** Properties *)

(** [C9] The slots of task graphs are well typed, on any number of threads that
    build, fire, complete, destroy and reject graphs at once, in runs in which no
    [OR] node is given a second dependency (with one, a completion reads a freed
    node: [dag_or_gate_freed], [dag_or_node_used_after_free]): every access, those
    of a completion to its dependents included, finds an object of the type it
    expects, every slot that is freed is held and freed once, and every walk over
    a list ends at its tail; and this with no reclaimer, a retired node being freed
    at any time.  The one exception is the null slot that [add] and
    [LockFreeList]'s constructor use without a test, when at most 64 slots per
    other thread are free.  When nothing is in progress, the slots in use are those
    of the tasks still to be run and those a constructor that threw has left
    behind. *)
Theorem dag_memory_typed slots0 nt l s :
  NoDup slots0 -> Z.of_nat (length slots0) < 2 ^ 64 -> Forall (fun p => Z.pos p < 2 ^ 64) slots0 ->
  run exec l (start (make slots0 nt)) = Some s ->
  (forall x, ordinary s x -> step x s = Stuck -> unchecked (Z.of_nat (length slots0)) nt s x) /\
  (at_rest s -> live (slots s) ≡ₚ tasks s ++ lost s /\
     LiveCount (slots s) = Z.of_nat (length (tasks s)) + Z.of_nat (length (lost s))).
Proof.
  intros Hn Hl Hp Hr. destruct (make_ok slots0 nt Hn Hl Hp) as (Hok & Hh & Ht).
  destruct (run_after _ Hok Hh l s Hr) as [HI _].
  assert (Hc : sa_capacity (make slots0 nt) = Z.of_nat (length slots0)).
  { simpl. unfold Capacity, make. by destruct (link_all slots0 ∅ None). }
  split.
  - intros x Ho Hx. pose proof (step_after _ _ x s HI Ho) as H. rewrite Hx in H. cbn [safe] in H. by rewrite Hc, Ht in H.
  - intros Hrest. pose proof (rest_held _ s HI Hrest) as H. split; [exact H|].
    destruct HI as (I & _ & ([Hi _] & _)). rewrite (live_length _ Hi). simpl in H. rewrite H, length_app. lia.
Qed.

Lemma dag_memory_typed_witness : exists s, run exec example_run (start (make (example_slots 100) 2)) = Some s /\
  at_rest s /\ tasks s = [] /\ lost s = [] /\ live (slots s) ≡ₚ tasks s ++ lost s.
Proof.
  destruct example_slots_ok as (H1 & H2 & H3).
  destruct (run exec example_run (start (make (example_slots 100) 2))) as [s|] eqn:E; [|vm_compute in E; discriminate E].
  assert (Hf : (fun s => (tasks s, lost s, running s, walks s, retired s, threads s)) <$> run exec example_run (start (make (example_slots 100) 2))
    = Some ([], [], [], [], [], replicate 2 (mk_thread [] Idle))) by (vm_compute; reflexivity).
  rewrite E in Hf. injection Hf as F1 F2 F3 Fw F4 F5. exists s. split; [reflexivity|].
  assert (Hrest : at_rest s) by (split; [exact F3|split; [exact Fw|split; [exact F4|rewrite F5; repeat constructor]]]).
  split; [exact Hrest|]. split; [exact F1|]. split; [exact F2|].
  exact (proj1 (proj2 (dag_memory_typed (example_slots 100) 2 example_run s H1 H2 H3 E) Hrest)).
Defined.

(** [C33] Graphs need one slot for every task, four for every node or gate and one for
    every dependency.  As long as what has been asked for since the start, and 64
    slots for each other thread's cache, is less than the slots there are, no
    allocation fails: no step is undefined, no constructor throws, no slot is
    lost.  (As before, no [OR] node is given a second dependency.) *)
Theorem dag_capacity_suffices slots0 nt l x s :
  NoDup slots0 -> Z.of_nat (length slots0) < 2 ^ 64 -> Forall (fun p => Z.pos p < 2 ^ 64) slots0 ->
  run exec l (start (make slots0 nt)) = Some s ->
  Z.of_nat (demand (l ++ [x])) + 64 * (Z.of_nat nt - 1) < Z.of_nat (length slots0) ->
  (ordinary s x -> step x s <> Stuck) /\ no_null s /\ LiveCount (slots s) <= Z.of_nat (demand l).
Proof.
  intros Hn Hl Hp Hr Hd. destruct (make_ok slots0 nt Hn Hl Hp) as (Hok & Hh & Ht).
  assert (Hc : sa_capacity (make slots0 nt) = Z.of_nat (length slots0)).
  { simpl. unfold Capacity, make. by destruct (link_all slots0 ∅ None). }
  destruct (run_after _ Hok Hh l s Hr) as [HI Hu].
  split; [intros Ho; apply (step_defined _ Hok Hh l x s Hr Ho); by rewrite Hc, Ht|]. split.
  - apply (run_no_null _ Hok Hh l s Hr). unfold demand in *. rewrite sum_list_with_app in Hd. rewrite Hc, Ht. lia.
  - destruct HI as (I & _ & ([Hi _] & _)). rewrite (live_length _ Hi). unfold used in Hu. simpl in Hu. lia.
Qed.

Lemma dag_capacity_suffices_witness : exists s, run exec example_build (start (make (example_slots 100) 2)) = Some s /\
  (demand (example_build ++ [Submit 0 true]) = 17)%nat /\ LiveCount (slots s) = 17 /\
  step (Submit 0 true) s <> Stuck /\ LiveCount (slots s) <= 17.
Proof.
  destruct example_slots_ok as (H1 & H2 & H3).
  destruct (run exec example_build (start (make (example_slots 100) 2))) as [s|] eqn:E; [|vm_compute in E; discriminate E].
  assert (Hf : (fun s => LiveCount (slots s)) <$> run exec example_build (start (make (example_slots 100) 2)) = Some 17)
    by (vm_compute; reflexivity).
  rewrite E in Hf. injection Hf as Hf. exists s. split; [reflexivity|]. split; [reflexivity|]. split; [exact Hf|].
  assert (Hd : Z.of_nat (demand (example_build ++ [Submit 0 true])) + 64 * (Z.of_nat 2 - 1) < Z.of_nat (length (example_slots 100)))
    by (vm_compute; reflexivity).
  destruct (dag_capacity_suffices (example_slots 100) 2 example_build (Submit 0 true) s H1 H2 H3 E Hd) as (G1 & _ & G2).
  split; [exact (G1 Logic.I)|exact G2].
Defined.

(** Nor does any step fail in the debug build of the allocator, whatever the
    objects have in their second word: no graph trips the canary. *)
Theorem dag_debug_build second slots0 nt l x s :
  let SA := debug_allocator second in
  NoDup slots0 -> Z.of_nat (length slots0) < 2 ^ 64 -> Forall (fun p => Z.pos p < 2 ^ 64) slots0 ->
  run exec l (start (debug_make slots0 nt)) = Some s ->
  Z.of_nat (demand (l ++ [x])) + 64 * (Z.of_nat nt - 1) < Z.of_nat (length slots0) -> ordinary s x -> step x s <> Stuck.
Proof.
  intros SA Hn Hl Hp Hr Hc Ho. destruct (make_ok slots0 nt Hn Hl Hp) as (_ & Hh & Ht).
  pose proof (debug_make_ok slots0 nt Hn Hl Hp) as Hok.
  assert (Hcap : Capacity (make slots0 nt) = Z.of_nat (length slots0)) by (unfold Capacity, make; by destruct (link_all slots0 ∅ None)).
  apply (step_defined (SA := SA) (debug_make slots0 nt) Hok Hh l x s Hr Ho).
  change (Z.of_nat (demand (l ++ [x])) + 64 * (Z.of_nat (sa_threads (make slots0 nt)) - 1) < Capacity (make slots0 nt)).
  by rewrite Hcap, Ht.
Qed.

Example dag_debug_example : let SA := debug_allocator (fun _ => 0) in
  bool_decide (is_Some (run exec example_run (start (debug_make (example_slots 100) 2)))) = true.
Proof. vm_compute. reflexivity. Qed.

(** What happens when the slots run out, one thread and just too few slots each
    time.  [TaskNode]'s constructor throws and the slot of its node is never freed
    (the task is still its creator's).  [LockFreeList]'s constructor and [add] use
    the null slot. *)
Theorem dag_memory_exhaustion :
  (fun s => (tasks s, lost s, live (slots s))) <$>
    run exec [CreateTask 0 None; CreateNode 0 (node_of 2) None; Continue 0 None; RunTask 0 2] (start (make (example_slots 2) 1))
    = Some ([], [1%positive], [1%positive]) /\
  (step (Continue 0 None) <$>
    run exec [CreateTask 0 None; CreateNode 0 (node_of 4) None; Continue 0 None; Continue 0 None] (start (make (example_slots 4) 1)))
    = Some Stuck /\
  (step (AddDependency 0 4 8) <$>
    run exec ([CreateNode 0 (gate false) None] ++ steps 0 3 ++ [CreateNode 0 (gate false) None] ++ steps 0 3) (start (make (example_slots 8) 1)))
    = Some Stuck.
Proof. vm_compute. split_and!; reflexivity. Qed.

(** An [OR] gate after two nodes: the first to complete fires it, it completes and
    is freed at once, and the second completion reads it. *)
Example dag_or_gate_freed :
  let build := [CreateTask 0 None; CreateTask 0 None; CreateNode 0 (node_of 100) None] ++ steps 0 3 ++
    [CreateNode 0 (node_of 99) None] ++ steps 0 3 ++ [CreateNode 0 (gate true) None] ++ steps 0 3 ++
    [AddDependency 0 90 98; AddDependency 0 90 94; Submit 0 true] ++ steps 0 3 in
  let first := [OnTaskFinished 98; Visit 0; Visit 1; NodeDeleter 1 90] ++ steps 1 4 ++ [OnTaskFinished 94] in
  step (Visit 1) <$> run (fun x s => returns (step x s)) (build ++ first) (start (make (example_slots 100) 2)) = Some Stuck.
Proof. vm_compute. reflexivity. Qed.
