(* ===== verification/FiberStack.v ===== *)
(** * Fiber stacks and context switches ([src/ContextSwitch.asm], [Fiber::Init] of
      [src/Fiber.cpp], [include/FiberStackArena.h], the constructor of
      [src/GlobalFiberPool.cpp])

    The assembly is a list of instructions run by a small machine: memory is a
    function from the addresses of 8-byte words, an access that the processor
    would fault on (or that is not aligned to its word) gives [None]. *)
From S2P Require Import Prelude.

#[local] Ltac Zify.zify_post_hook ::= Z.to_euclidean_division_equations.

(** ** Memory *)

Definition memory := Z -> Z.

(** The words of the program are aligned: an address is a multiple of 8. *)
Definition store (m : memory) (a v : Z) : memory := fun b => if b =? a then v else m b.

(** A field of [bits] bits at byte [a] of a word. *)
Definition word_of (a : Z) : Z := a - a mod 8.
Definition load_field (m : memory) (a bits : Z) : Z := (m (word_of a) / 2 ^ (8 * (a mod 8))) mod 2 ^ bits.
Definition store_field (m : memory) (a bits v : Z) : memory :=
  store m (word_of a) (m (word_of a) + (v - load_field m a bits) * 2 ^ (8 * (a mod 8))).

(** ** The processor *)

Inductive reg := RBX | RBP | RDI | RSI | R12 | R13 | R14 | R15.
#[global] Instance reg_eq_dec : EqDecision reg.
Proof. solve_decision. Defined.

Record cpu := mk_cpu {
  gpr : reg -> Z;
  xmm : nat -> Z * Z;           (* low and high half *)
  mxcsr : Z;
  fcw : Z;
  rsp : Z;
  rcx : Z;                      (* the arguments: from, to *)
  rdx : Z;
  mem : memory
}.

Inductive instr :=
  | Push (r : reg)
  | Pop (r : reg)
  | SubRsp (n : Z)
  | AddRsp (n : Z)
  | StoreXmm (off : Z) (i : nat)       (* movdqa [rsp + off], xmm_i *)
  | LoadXmm (i : nat) (off : Z)
  | Stmxcsr (off : Z)
  | Fnstcw (off : Z)
  | Ldmxcsr (off : Z)
  | Fldcw (off : Z)
  | SaveRsp                            (* mov [rcx], rsp *)
  | LoadRsp                            (* mov rsp, [rdx] *)
  | Ret
  | CallReg (r : reg)
  | Ud2.

Definition with_mem (c : cpu) (m : memory) (sp : Z) : cpu :=
  mk_cpu (gpr c) (xmm c) (mxcsr c) (fcw c) sp (rcx c) (rdx c) m.
Definition with_gpr (c : cpu) (r : reg) (v sp : Z) : cpu :=
  mk_cpu (fun r' => if decide (r' = r) then v else gpr c r') (xmm c) (mxcsr c) (fcw c) sp (rcx c) (rdx c) (mem c).
Definition with_xmm (c : cpu) (i : nat) (v : Z * Z) : cpu :=
  mk_cpu (gpr c) (fun j => if decide (j = i) then v else xmm c j) (mxcsr c) (fcw c) (rsp c) (rcx c) (rdx c) (mem c).
Definition with_fp (c : cpu) (x y : Z) : cpu :=
  mk_cpu (gpr c) (xmm c) x y (rsp c) (rcx c) (rdx c) (mem c).

Definition aligned (n a : Z) : bool := a mod n =? 0.

Definition exec_instr (i : instr) (c : cpu) : option cpu :=
  match i with
  | Push r => if aligned 8 (rsp c) then Some (with_mem c (store (mem c) (rsp c - 8) (gpr c r)) (rsp c - 8)) else None
  | Pop r => if aligned 8 (rsp c) then Some (with_gpr c r (mem c (rsp c)) (rsp c + 8)) else None
  | SubRsp n => Some (with_mem c (mem c) (rsp c - n))
  | AddRsp n => Some (with_mem c (mem c) (rsp c + n))
  | StoreXmm off i =>
      if aligned 16 (rsp c + off)
      then Some (with_mem c (store (store (mem c) (rsp c + off) (xmm c i).1) (rsp c + off + 8) (xmm c i).2) (rsp c))
      else None
  | LoadXmm i off =>
      if aligned 16 (rsp c + off) then Some (with_xmm c i (mem c (rsp c + off), mem c (rsp c + off + 8))) else None
  | Stmxcsr off => Some (with_mem c (store_field (mem c) (rsp c + off) 32 (mxcsr c)) (rsp c))
  | Fnstcw off => Some (with_mem c (store_field (mem c) (rsp c + off) 16 (fcw c)) (rsp c))
  | Ldmxcsr off => Some (with_fp c (load_field (mem c) (rsp c + off) 32) (fcw c))
  | Fldcw off => Some (with_fp c (mxcsr c) (load_field (mem c) (rsp c + off) 16))
  | SaveRsp => if aligned 8 (rcx c) then Some (with_mem c (store (mem c) (rcx c) (rsp c)) (rsp c)) else None
  | LoadRsp => if aligned 8 (rdx c) then Some (with_mem c (mem c) (mem c (rdx c))) else None
  | Ret | CallReg _ | Ud2 => None
  end.

(** How a piece of code ends. *)
Inductive exit := Returned (rip : Z) | Called (target : Z).

(** [next] is the address after a call (what it pushes). *)
Fixpoint exec_code (next : Z) (l : list instr) (c : cpu) : option (cpu * exit) :=
  match l with
  | [] => None
  | Ret :: _ => if aligned 8 (rsp c) then Some (with_mem c (mem c) (rsp c + 8), Returned (mem c (rsp c))) else None
  | CallReg r :: _ =>
      if aligned 8 (rsp c)
      then Some (with_mem c (store (mem c) (rsp c - 8) next) (rsp c - 8), Called (gpr c r)) else None
  | i :: l => c' ← exec_instr i c; exec_code next l c'
  end.

(** ** [src/ContextSwitch.asm] *)

Definition save_code : list instr :=
  [ Push RBX; Push RBP; Push RDI; Push RSI; Push R12; Push R13; Push R14; Push R15;
    SubRsp 168;
    StoreXmm 0 6; StoreXmm 16 7; StoreXmm 32 8; StoreXmm 48 9; StoreXmm 64 10;
    StoreXmm 80 11; StoreXmm 96 12; StoreXmm 112 13; StoreXmm 128 14; StoreXmm 144 15;
    Stmxcsr 160; Fnstcw 164 ].
Definition restore_code : list instr :=
  [ Ldmxcsr 160; Fldcw 164;
    LoadXmm 6 0; LoadXmm 7 16; LoadXmm 8 32; LoadXmm 9 48; LoadXmm 10 64;
    LoadXmm 11 80; LoadXmm 12 96; LoadXmm 13 112; LoadXmm 14 128; LoadXmm 15 144;
    AddRsp 168;
    Pop R15; Pop R14; Pop R13; Pop R12; Pop RSI; Pop RDI; Pop RBP; Pop RBX;
    Ret ].
Definition ContextSwitch : list instr := save_code ++ [SaveRsp; LoadRsp] ++ restore_code.
Definition FiberTrampoline : list instr := [CallReg RBX; Ud2].

(** ** [Fiber::Init] *)

(** [*(--sp) = v] *)
Definition push_word (v : Z) (s : memory * Z) : memory * Z := (store s.1 (s.2 - 8) v, s.2 - 8).

(** The new memory and [ctx.rsp]; [trampoline] is the address of [FiberTrampoline]. *)
Definition Init (m : memory) (stackBase stackSize trampoline entryPoint : Z) : memory * Z :=
  let top := Z.land (u64 (stackBase + stackSize)) (Z.lnot 15) in
  let s := (m, top - 8 * 4) in
  let s := push_word trampoline s in
  let s := push_word entryPoint s in                                 (* rbx *)
  let s := Nat.iter 7 (push_word 0) s in                             (* rbp .. r15 *)
  let s := push_word 0x0000037F00001F80 s in
  Nat.iter 20 (push_word 0) s.

(** ** Stacks *)

(** [FiberStackArena]: [base], [totalSize], [offset]. *)
Record arena := mk_arena { base : Z; totalSize : Z; offset : Z }.

(** [VirtualAlloc(addr, size, MEM_COMMIT, ..)] is the system's: [commit]. *)
Definition AllocateStack (commit : Z -> Z -> bool) (a : arena) (size : Z) : arena * option Z :=
  let current := offset a in
  (mk_arena (base a) (totalSize a) (offset a + size),
   if commit (base a + current) size then Some (base a + current) else None).

Record fiber := mk_fiber { stackBase : Z; stackSize : Z }.

(** A loop of [GlobalFiberPool]'s constructor; [None]: it throws. *)
Fixpoint make_fibers (commit : Z -> Z -> bool) (n : nat) (size : Z) (a : arena) : option (list fiber) :=
  match n with
  | O => Some []
  | S n => let '(a, r) := AllocateStack commit a size in
           mem ← r; l ← make_fibers commit n size a; Some (mk_fiber mem size :: l)
  end.

(** The fibers of a pool, standard ones first; [b1] and [b2] are where the system
    reserved the two arenas. *)
Definition GlobalFiberPool (commit : Z -> Z -> bool) (b1 b2 : Z) (standardCount heavyCount : nat) : option (list fiber) :=
  standard ← make_fibers commit standardCount (64 * 1024) (mk_arena b1 (Z.of_nat standardCount * 64 * 1024) 0);
  heavy ← make_fibers commit heavyCount (512 * 1024) (mk_arena b2 (Z.of_nat heavyCount * 512 * 1024) 0);
  Some (standard ++ heavy).

(** ** The saved frame *)

Definition gpr_off (r : reg) : Z :=
  match r with RBX => 224 | RBP => 216 | RDI => 208 | RSI => 200 | R12 => 192 | R13 => 184 | R14 => 176 | R15 => 168 end.

(** The words at [sp] hold the callee-saved state of [k] and the address to
    return to. *)
Record frame (m : memory) (sp : Z) (k : cpu) (ra : Z) : Prop := {
  f_gpr : forall r, m (sp + gpr_off r) = gpr k r;
  f_xmm : forall i : nat, (6 <= i <= 15)%nat ->
    (m (sp + 16 * (Z.of_nat i - 6)), m (sp + 16 * (Z.of_nat i - 6) + 8)) = xmm k i;
  f_mxcsr : load_field m (sp + 160) 32 = mxcsr k;
  f_fcw : load_field m (sp + 164) 16 = fcw k;
  f_ra : m (sp + 232) = ra
}.

Definition same_on (m m' : memory) (lo hi : Z) : Prop := forall a, lo <= a < hi -> m' a = m a.
Definition same_off (m m' : memory) (lo hi : Z) : Prop := forall a, a < lo \/ hi <= a -> m' a = m a.

Lemma aligned_true n a : a mod n = 0 -> aligned n a = true.
Proof. unfold aligned. lia. Qed.

Lemma store_eq m a v b : b = a -> store m a v b = v.
Proof. intros ->. unfold store. by rewrite Z.eqb_refl. Qed.
Lemma store_ne m a v b : b <> a -> store m a v b = m b.
Proof. intros H. unfold store. by rewrite (proj2 (Z.eqb_neq _ _) H). Qed.

Lemma load_low m a : a mod 8 = 0 -> load_field m a 32 = m a mod 2 ^ 32.
Proof. intros H. unfold load_field, word_of. rewrite H. change (2 ^ (8 * 0)) with 1. by rewrite Z.sub_0_r, Z.div_1_r. Qed.
Lemma load_high m a : a mod 8 = 0 -> load_field m (a + 4) 16 = (m a / 2 ^ 32) mod 2 ^ 16.
Proof.
  intros H. unfold load_field, word_of. assert ((a + 4) mod 8 = 4) as -> by lia.
  replace (a + 4 - 4) with a by lia. done.
Qed.

(** The two stores into the word at [a]: [stmxcsr] and [fnstcw]. *)
Lemma fp_word m a x y : a mod 8 = 0 -> 0 <= x < 2 ^ 32 -> 0 <= y < 2 ^ 16 ->
  let m' := store_field (store_field m a 32 x) (a + 4) 16 y in
  load_field m' a 32 = x /\ load_field m' (a + 4) 16 = y /\ forall b, b <> a -> m' b = m b.
Proof.
  intros Ha Hx Hy m'. unfold m'. rewrite load_low, load_high by done. unfold store_field.
  rewrite load_low, load_high by done. unfold word_of. assert ((a + 4) mod 8 = 4) as -> by lia. rewrite Ha.
  replace (a + 4 - 4) with a by lia. rewrite !Z.sub_0_r. change (2 ^ (8 * 0)) with 1. change (2 ^ (8 * 4)) with (2 ^ 32).
  rewrite !store_eq by done. rewrite Z.mul_1_r.
  set (w := m a + (x - m a mod 2 ^ 32)).
  assert (Hw : w = m a / 2 ^ 32 * 2 ^ 32 + x).
  { unfold w. pose proof (Z.div_mod (m a) (2 ^ 32) ltac:(lia)). lia. }
  assert (Hd : w / 2 ^ 32 = m a / 2 ^ 32) by (rewrite Hw, Z.div_add_l, (Z.div_small x) by lia; lia).
  split_and!.
  - rewrite Z.mod_add by lia. rewrite Hw, Z.add_comm, Z.mod_add by lia. by apply Z.mod_small.
  - rewrite Z.div_add by lia. set (h := w / 2 ^ 32).
    replace (h + (y - h mod 2 ^ 16)) with (y + h / 2 ^ 16 * 2 ^ 16) by (pose proof (Z.div_mod h (2 ^ 16) ltac:(lia)); lia).
    rewrite Z.mod_add by lia. by apply Z.mod_small.
  - intros b Hb. by rewrite !store_ne.
Qed.

(** Runs one instruction whose accesses are aligned. *)
Ltac cpu_one :=
  cbn [exec_code exec_instr app]; unfold with_mem, with_gpr, with_xmm, with_fp;
  cbn [gpr xmm mxcsr fcw rsp rcx rdx mem mbind option_bind];
  try (rewrite aligned_true by lia; cbn [gpr xmm mxcsr fcw rsp rcx rdx mem mbind option_bind]).

(** Reads through a chain of stores. *)
Ltac solve_store := repeat first [rewrite store_eq by lia; reflexivity|rewrite store_ne by lia]; try reflexivity; try (f_equal; lia).

(** The ten saved registers. *)
Ltac xmm_cases i Hi :=
  assert (Hc : (i = 6 \/ i = 7 \/ i = 8 \/ i = 9 \/ i = 10 \/ i = 11 \/ i = 12 \/ i = 13 \/ i = 14 \/ i = 15)%nat) by lia;
  clear Hi; destruct_or! Hc; subst i.

Lemma exec_save next rest c :
  rsp c mod 16 = 8 -> 0 <= mxcsr c < 2 ^ 32 -> 0 <= fcw c < 2 ^ 16 -> exists m',
    exec_code next (save_code ++ rest) c = exec_code next rest (with_mem c m' (rsp c - 232)) /\
    frame m' (rsp c - 232) c (mem c (rsp c)) /\ same_off (mem c) m' (rsp c - 232) (rsp c).
Proof.
  intros Hal Hm Hf. destruct c as [G X M F sp cx dx m]. cbn in *. remember (sp - 232) as p eqn:Hp. assert (sp = p + 232) as -> by lia. clear Hp.
  eexists. split.
  - do 21 cpu_one. replace (p + 232 - 8 - 8 - 8 - 8 - 8 - 8 - 8 - 8 - 168) with p by lia.
    replace (p + 164) with (p + 160 + 4) by lia. reflexivity.
  - match goal with |- frame (store_field (store_field ?m0 _ _ _) _ _ _) _ _ _ /\ _ =>
      destruct (fp_word m0 (p + 160) M F) as (F1 & F2 & F3); [lia|done|done|]; set (m1 := m0) in * end.
    clear Hal Hm Hf. split; [constructor|].
    + intros r. rewrite F3 by (destruct r; cbn; lia). unfold m1. destruct r; cbn [gpr_off]; solve_store.
    + intros i Hi. rewrite !F3 by lia. unfold m1.
      xmm_cases i Hi; apply injective_projections; cbn [fst snd xmm]; solve_store.
    + exact F1.
    + replace (p + 164) with (p + 160 + 4) by lia. exact F2.
    + rewrite F3 by lia. unfold m1. solve_store.
    + intros a Ha. rewrite F3 by lia. unfold m1. solve_store.
Qed.

(** The callee-saved state of [c'] is that of [k]. *)
Definition same_saved (k c' : cpu) : Prop :=
  (forall r, gpr c' r = gpr k r) /\ (forall i : nat, (6 <= i <= 15)%nat -> xmm c' i = xmm k i) /\
  mxcsr c' = mxcsr k /\ fcw c' = fcw k.

Lemma exec_restore next c k ra :
  rsp c mod 16 = 0 -> frame (mem c) (rsp c) k ra -> exists c',
    exec_code next restore_code c = Some (c', Returned ra) /\
    same_saved k c' /\ rsp c' = rsp c + 240 /\ mem c' = mem c.
Proof.
  intros Hal [F1 F2 F3 F4 F5]. destruct c as [G X M F p cx dx m]. cbn in *.
  eexists. split.
  - do 22 cpu_one. replace (p + 168 + 8 + 8 + 8 + 8 + 8 + 8 + 8 + 8) with (p + 232) by lia. rewrite F5. reflexivity.
  - clear Hal. unfold same_saved. cbn. split_and!; [| | | |lia|done].
    + intros r. destruct r; cbn; rewrite <- F1; f_equal; cbn; lia.
    + intros i Hi. rewrite <- F2 by done. xmm_cases i Hi; cbn; repeat f_equal; lia.
    + exact F3.
    + exact F4.
Qed.

Lemma exec_swap next rest c :
  rcx c mod 8 = 0 -> rdx c mod 8 = 0 ->
  exec_code next ([SaveRsp; LoadRsp] ++ rest) c =
  exec_code next rest (with_mem c (store (mem c) (rcx c) (rsp c)) (store (mem c) (rcx c) (rsp c) (rdx c))).
Proof. intros H1 H2. cpu_one. rewrite !aligned_true by done. cpu_one. done. Qed.

(** The frame depends on its own words only. *)
Lemma frame_same m m' p k ra : p mod 16 = 0 -> frame m p k ra -> same_on m m' p (p + 240) -> frame m' p k ra.
Proof.
  intros Hp [F1 F2 F3 F4 F5] Hs. constructor.
  - intros r. rewrite Hs; [done|]. destruct r; cbn; lia.
  - intros i Hi. rewrite !Hs by lia. by apply F2.
  - rewrite load_low in * by lia. rewrite Hs by lia. done.
  - replace (p + 164) with (p + 160 + 4) in * by lia. rewrite load_high in * by lia. rewrite Hs by lia. done.
  - rewrite Hs by lia. done.
Qed.
Lemma frame_saved m p k k' ra : frame m p k ra -> same_saved k k' -> frame m p k' ra.
Proof.
  intros [F1 F2 F3 F4 F5] (S1 & S2 & S3 & S4). constructor; [intros r; by rewrite S1|intros i Hi; rewrite S2; auto|congruence..].
Qed.

(** What a switch needs of the processor when it is called: the stack pointer as
    the calling convention has it, and the cells of the two contexts outside the
    caller's frame. *)
Record callable (c : cpu) : Prop := {
  ca_sp : rsp c mod 16 = 8;
  ca_mxcsr : 0 <= mxcsr c < 2 ^ 32;
  ca_fcw : 0 <= fcw c < 2 ^ 16;
  ca_from : rcx c mod 8 = 0 /\ (rcx c + 8 <= rsp c - 232 \/ rsp c + 8 <= rcx c);
  ca_to : rdx c mod 8 = 0 /\ (rdx c + 8 <= rsp c - 232 \/ rsp c + 8 <= rdx c);
  ca_ne : rdx c <> rcx c
}.

(** The whole switch, when the destination's frame is there. *)
Lemma exec_switch next c k ra :
  callable c ->
  let p := mem c (rdx c) in
  p mod 16 = 0 -> frame (mem c) p k ra ->
  (p + 240 <= rsp c - 232 \/ rsp c <= p) -> (rcx c + 8 <= p \/ p + 240 <= rcx c) ->
  exists c', exec_code next ContextSwitch c = Some (c', Returned ra) /\ same_saved k c' /\ rsp c' = p + 240 /\
    mem c' (rcx c) = rsp c - 232 /\ frame (mem c') (rsp c - 232) c (mem c (rsp c)) /\
    (forall a, (a < rsp c - 232 \/ rsp c <= a) -> a <> rcx c -> mem c' a = mem c a).
Proof.
  intros [C1 C2 C3 [C4 C4'] [C5 C5'] C6] p Hp Hfr Hd Hcx.
  destruct (exec_save next ([SaveRsp; LoadRsp] ++ restore_code) c C1 C2 C3) as (m1 & E1 & F1 & S1).
  unfold ContextSwitch. rewrite E1, exec_swap by done. cbn [with_mem rcx rdx rsp mem].
  set (m2 := store m1 (rcx c) (rsp c - 232)).
  assert (Hto : m2 (rdx c) = p) by (unfold m2; rewrite store_ne by done; apply S1; lia).
  assert (Hm2 : forall a, (a < rsp c - 232 \/ rsp c <= a) -> a <> rcx c -> m2 a = mem c a).
  { intros a Ha Hne. unfold m2. rewrite store_ne by done. by apply S1. }
  destruct (exec_restore next (with_mem c m2 (m2 (rdx c))) k ra) as (c' & E2 & R1 & R2 & R3).
  { cbn. by rewrite Hto. }
  { cbn. rewrite Hto. apply (frame_same (mem c)); [done|done|]. intros a Ha. apply Hm2; lia. }
  exists c'. cbn in E2, R2, R3. rewrite Hto in *. split_and!; try done.
  - rewrite R3. unfold m2. by rewrite store_eq.
  - rewrite R3. apply (frame_same m1); [lia|done|]. intros a Ha. unfold m2. rewrite store_ne by lia. done.
  - intros a Ha Hne. rewrite R3. by apply Hm2.
Qed.

(** ** A fresh fiber's frame *)

(** The registers [Init] prepares. *)
Definition fresh (entry : Z) : cpu :=
  mk_cpu (fun r => if decide (r = RBX) then entry else 0) (fun _ => (0, 0)) 0x1F80 0x37F 0 0 0 (fun _ => 0).

(** The top of the stack, 16-aligned. *)
Definition top_of (stackBase stackSize : Z) : Z := stackBase + stackSize - (stackBase + stackSize) mod 16.

Lemma land_16 x : Z.land x (Z.lnot 15) = x - x mod 16.
Proof.
  assert (H : x = Z.lor (Z.land x (Z.lnot 15)) (Z.land x 15)).
  { apply Z.bits_inj'. intros n Hn. rewrite Z.lor_spec, !Z.land_spec, Z.lnot_spec by done.
    destruct (Z.testbit x n), (Z.testbit 15 n); done. }
  assert (H0 : Z.land (Z.land x (Z.lnot 15)) (Z.land x 15) = 0).
  { apply Z.bits_inj'. intros n Hn. rewrite !Z.land_spec, Z.lnot_spec, Z.testbit_0_l by done.
    destruct (Z.testbit x n), (Z.testbit 15 n); done. }
  rewrite <- Z.add_nocarry_lxor in H || (rewrite <- Z.lxor_lor, <- Z.add_nocarry_lxor in H by done).
  change 15 with (Z.ones 4) in H at 2. rewrite Z.land_ones in H by lia. change (2 ^ 4) with 16 in H. lia.
Qed.

Lemma push_pair v m a : push_word v (m, a) = (store m (a - 8) v, a - 8).
Proof. done. Qed.

Lemma Init_spec m sb sz tr entry :
  0 <= sb -> 0 <= sz -> sb + sz < 2 ^ 64 ->
  let r := Init m sb sz tr entry in
  r.2 = top_of sb sz - 272 /\ r.2 mod 16 = 0 /\ frame r.1 r.2 (fresh entry) tr /\
  same_off m r.1 (top_of sb sz - 272) (top_of sb sz - 32).
Proof.
  intros H1 H2 H3 r. unfold r, Init. rewrite (u64_small (sb + sz)), land_16 by lia. fold (top_of sb sz).
  assert (Hal : top_of sb sz mod 16 = 0) by (unfold top_of; lia). clear H1 H2 H3 r.
  remember (top_of sb sz - 272) as p eqn:Hp. assert (top_of sb sz = p + 272) as E by lia. rewrite E in *. clear Hp E.
  cbn [Nat.iter nat_rect]. rewrite !push_pair. cbn [fst snd].
  split; [lia|]. split; [lia|]. 
  match goal with |- frame ?m0 ?q0 _ _ /\ _ => set (m1 := m0); replace q0 with p by lia end.
  assert (Hfp : m1 (p + 160) = 0x0000037F00001F80) by (unfold m1; clear Hal; solve_store).
  split; [constructor|].
  - intros r. unfold m1. clear Hal. destruct r; cbn [gpr_off fresh gpr]; solve_store.
  - intros i Hi. unfold m1. clear Hal. xmm_cases i Hi; cbn [fresh xmm]; f_equal; solve_store.
  - rewrite load_low, Hfp by lia. done.
  - replace (p + 164) with (p + 160 + 4) by lia. rewrite load_high, Hfp by lia. done.
  - unfold m1. clear Hal. solve_store.
  - intros a Ha. unfold m1. clear Hal. solve_store.
Qed.

(** ** The stacks of a pool *)

Definition stack_end (f : fiber) : Z := stackBase f + stackSize f.

Lemma make_fibers_spec commit n size a l :
  make_fibers commit n size a = Some l ->
  length l = n /\ forall (i : nat) f, l !! i = Some f -> stackBase f = base a + offset a + Z.of_nat i * size /\ stackSize f = size.
Proof.
  revert a l. induction n as [|n IH]; intros a l; cbn; [intros [= <-]; by split|].
  destruct (commit (base a + offset a) size); cbn; [|done].
  destruct (make_fibers _ _ _ _) as [l'|] eqn:E; cbn; [|done]. intros [= <-]. destruct (IH _ _ E) as [H1 H2]. cbn in H2.
  split; [cbn; by rewrite H1|]. intros [|i] f; cbn.
  - intros [= <-]. cbn. lia.
  - intros Hi. destruct (H2 i f Hi). lia.
Qed.

(** What the system promises of the two reservations. *)
Definition reserved (b1 b2 : Z) (n1 n2 : nat) : Prop :=
  let e1 := b1 + Z.of_nat n1 * 65536 in
  let e2 := b2 + Z.of_nat n2 * 524288 in
  0 <= b1 /\ e1 < 2 ^ 64 /\ 0 <= b2 /\ e2 < 2 ^ 64 /\ (e1 <= b2 \/ e2 <= b1).

Lemma pool_fiber commit b1 b2 n1 n2 fs i f :
  GlobalFiberPool commit b1 b2 n1 n2 = Some fs -> fs !! i = Some f ->
  (i < n1)%nat /\ stackBase f = b1 + Z.of_nat i * 65536 /\ stackSize f = 65536 \/
  (n1 <= i < n1 + n2)%nat /\ stackBase f = b2 + Z.of_nat (i - n1) * 524288 /\ stackSize f = 524288.
Proof.
  unfold GlobalFiberPool. destruct (make_fibers _ n1 _ _) as [l1|] eqn:E1; cbn; [|done].
  destruct (make_fibers _ n2 _ _) as [l2|] eqn:E2; cbn; [|done]. intros [= <-].
  apply make_fibers_spec in E1 as [L1 H1], E2 as [L2 H2]. cbn in H1, H2.
  intros [Hi|[Hlen Hi]]%lookup_app_Some.
  - left. destruct (H1 i f Hi). apply lookup_lt_Some in Hi. rewrite Z.add_0_r in *. lia.
  - right. rewrite L1 in *. destruct (H2 _ f Hi). apply lookup_lt_Some in Hi. rewrite Z.add_0_r in *. lia.
Qed.

Lemma pool_disjoint commit b1 b2 n1 n2 fs i j f f' :
  GlobalFiberPool commit b1 b2 n1 n2 = Some fs -> reserved b1 b2 n1 n2 ->
  fs !! i = Some f -> fs !! j = Some f' -> j <> i -> stack_end f <= stackBase f' \/ stack_end f' <= stackBase f.
Proof.
  intros HG (R1 & R2 & R3 & R4 & R5) Hi Hj Hne. unfold stack_end.
  destruct (pool_fiber _ _ _ _ _ _ _ _ HG Hi) as [(A1 & A2 & A3)|(A1 & A2 & A3)],
    (pool_fiber _ _ _ _ _ _ _ _ HG Hj) as [(B1 & B2 & B3)|(B1 & B2 & B3)]; rewrite A2, A3, B2, B3; nia.
Qed.

Lemma pool_bounds commit b1 b2 n1 n2 fs i f :
  GlobalFiberPool commit b1 b2 n1 n2 = Some fs -> reserved b1 b2 n1 n2 -> fs !! i = Some f ->
  0 <= stackBase f /\ 65536 <= stackSize f /\ stack_end f < 2 ^ 64.
Proof.
  intros HG (R1 & R2 & R3 & R4 & R5) Hi. unfold stack_end.
  destruct (pool_fiber _ _ _ _ _ _ _ _ HG Hi) as [(A1 & A2 & A3)|(A1 & A2 & A3)]; rewrite A2, A3; nia.
Qed.

(** Neither the two context cells nor the caller's frame are in [lo .. hi). *)
Definition apart (c : cpu) (lo hi : Z) : Prop :=
  (rcx c + 8 <= lo \/ hi <= rcx c) /\ (rdx c + 8 <= lo \/ hi <= rdx c) /\ (rsp c <= lo \/ hi <= rsp c - 232).

(** The first switch to a fiber: through the trampoline into the entry point. *)
Lemma first_switch m sb sz tr entry next next' c :
  0 <= sb -> 65536 <= sz -> sb + sz < 2 ^ 64 -> callable c -> apart c sb (sb + sz) ->
  mem c = store (Init m sb sz tr entry).1 (rdx c) (Init m sb sz tr entry).2 ->
  exists c1 c2, exec_code next ContextSwitch c = Some (c1, Returned tr) /\
    exec_code next' FiberTrampoline c1 = Some (c2, Called entry) /\ same_saved (fresh entry) c2 /\
    rsp c2 mod 16 = 8 /\ sb + 4096 <= rsp c2 /\ rsp c2 + 8 + 32 <= sb + sz.
Proof.
  intros H1 H2 H3 Hc (A1 & A2 & A3) Hm. destruct (Init_spec m sb sz tr entry) as (I1 & I2 & I3 & I4); [lia..|].
  set (r := Init m sb sz tr entry) in *. assert (Htop : sb + sz - 15 <= top_of sb sz <= sb + sz) by (unfold top_of; lia).
  assert (Hp : mem c (rdx c) = r.2) by (rewrite Hm; by apply store_eq).
  destruct (exec_switch next c (fresh entry) tr Hc) as (c1 & E & S & Hsp & _); rewrite ?Hp; [done| |lia|lia|].
  { rewrite Hm. apply (frame_same r.1); [done|done|]. intros a Ha. rewrite store_ne by lia. done. }
  rewrite Hp, I1 in Hsp. destruct S as (S1 & S2 & S3 & S4).
  exists c1. eexists. split; [exact E|]. split.
  - cbn [FiberTrampoline exec_code]. rewrite aligned_true by lia. rewrite S1. cbn. reflexivity.
  - unfold same_saved. cbn. split_and!; try done; lia.
Qed.

(** ** Properties *)

(** [C20] A switch away and back.  [c] calls [ContextSwitch(&a, &b)] when [b] holds
    a saved frame; whatever runs then, as long as the frame of [c] and the cell
    [a] keep what the switch stored there, a later call [ContextSwitch(&x, &a)]
    from [d] returns to the caller of [c], with its stack pointer, the eight
    callee-saved registers, xmm6 to xmm15 and the floating-point control words as
    they were, and no access faults. *)
Theorem context_switch_roundtrip next next' c k ra c1 e d :
  callable c -> mem c (rdx c) mod 16 = 0 -> frame (mem c) (mem c (rdx c)) k ra ->
  apart c (mem c (rdx c)) (mem c (rdx c) + 240) ->
  exec_code next ContextSwitch c = Some (c1, e) ->
  callable d -> rdx d = rcx c -> apart d (rsp c - 232) (rsp c + 8) ->
  same_on (mem c1) (mem d) (rsp c - 232) (rsp c + 8) -> mem d (rcx c) = mem c1 (rcx c) ->
  e = Returned ra /\ same_saved k c1 /\
  exists d', exec_code next' ContextSwitch d = Some (d', Returned (mem c (rsp c))) /\
    same_saved c d' /\ rsp d' = rsp c + 8.
Proof.
  intros Hc Hal Hfr (A1 & A2 & A3) He Hd Hto (B1 & B2 & B3) Hsame Hcell.
  destruct (exec_switch next c k ra Hc Hal Hfr) as (c1' & E & S & Hsp & Hfrom & Hf & _); [lia..|].
  rewrite He in E. injection E as -> ->. split; [done|]. split; [done|].
  assert (Hp : mem d (rdx d) = rsp c - 232) by (by rewrite Hto, Hcell).
  pose proof (ca_sp c Hc) as Hsp16.
  destruct (exec_switch next' d c (mem c (rsp c)) Hd) as (d' & E' & S' & Hsp' & _); rewrite ?Hp; [lia| |lia|lia|].
  { apply (frame_same (mem c1')); [lia|done|]. intros a Ha. apply Hsame. lia. }
  exists d'. split_and!; try done. rewrite Hsp', Hp. lia.
Qed.

(** [C34] The stacks of a pool's fibers are private, and a fresh fiber starts
    correctly.  [Init] on one fiber leaves every other fiber's stack and its own
    guard page alone; the first switch to it reaches the entry point through the
    trampoline, without a fault, with the stack pointer 8 mod 16 (what a called
    function expects), above the guard page and with 32 bytes of shadow space
    below the end of the stack, the other saved registers zero and the
    floating-point control words at their defaults. *)
Theorem fiber_first_entry commit b1 b2 n1 n2 fs i f m tr entry :
  GlobalFiberPool commit b1 b2 n1 n2 = Some fs -> reserved b1 b2 n1 n2 -> fs !! i = Some f ->
  let r := Init m (stackBase f) (stackSize f) tr entry in
  (forall j f', fs !! j = Some f' -> j <> i -> same_on m r.1 (stackBase f') (stack_end f')) /\
  same_on m r.1 (stackBase f) (stackBase f + 4096) /\
  (forall next next' c, callable c -> apart c (stackBase f) (stack_end f) -> mem c = store r.1 (rdx c) r.2 ->
   exists c1 c2, exec_code next ContextSwitch c = Some (c1, Returned tr) /\
     exec_code next' FiberTrampoline c1 = Some (c2, Called entry) /\ same_saved (fresh entry) c2 /\
     rsp c2 mod 16 = 8 /\ stackBase f + 4096 <= rsp c2 /\ rsp c2 + 8 + 32 <= stack_end f).
Proof.
  intros HG HR Hi r. destruct (pool_bounds _ _ _ _ _ _ _ _ HG HR Hi) as (P1 & P2 & P3).
  destruct (Init_spec m (stackBase f) (stackSize f) tr entry) as (I1 & I2 & I3 & I4); [done|lia|done|].
  fold r in I1, I2, I3, I4. unfold stack_end in *.
  assert (Htop : stackBase f + stackSize f - 15 <= top_of (stackBase f) (stackSize f) <= stackBase f + stackSize f)
    by (unfold top_of; lia).
  split_and!.
  - intros j f' Hj Hne a Ha. apply I4. pose proof (pool_disjoint _ _ _ _ _ _ _ _ _ _ HG HR Hi Hj Hne) as Hdis.
    unfold stack_end in Hdis. lia.
  - intros a Ha. apply I4. lia.
  - intros next next' c Hc Ha Hm. by apply (first_switch m).
Qed.

(** *** Concrete inputs *)

Definition example_pool : option (list fiber) := GlobalFiberPool (fun _ _ => true) (2 ^ 20) (2 ^ 30) 2 1.
Definition example_fibers : list fiber :=
  [mk_fiber (2 ^ 20) 65536; mk_fiber (2 ^ 20 + 65536) 65536; mk_fiber (2 ^ 30) 524288].
Definition example_memory : memory * Z := Init (fun _ => 7) (2 ^ 20) 65536 777 999.
(** A worker about to switch to the first fiber; its context cells are at 4096
    and 4104. *)
Definition example_worker : cpu :=
  mk_cpu (fun r => gpr_off r) (fun i => (Z.of_nat i, 1)) 0x1F80 0x37F 65544 4096 4104
    (store example_memory.1 4104 example_memory.2).
(** The fiber about to switch back. *)
Definition example_back (c1 : cpu) : cpu :=
  mk_cpu (fun _ => 5) (fun _ => (6, 6)) 0x1F80 0x27F (2 ^ 20 + 32768 + 8) 4104 4096 (mem c1).

Lemma example_callable : callable example_worker /\ apart example_worker (2 ^ 20) (2 ^ 20 + 65536).
Proof. split; [constructor; cbn; lia|unfold apart; cbn; lia]. Qed.

Lemma example_mem :
  mem example_worker =
  store (Init (fun _ => 7) (2 ^ 20) 65536 777 999).1 (rdx example_worker) (Init (fun _ => 7) (2 ^ 20) 65536 777 999).2.
Proof. unfold example_worker, example_memory. cbn [mem rdx]. reflexivity. Qed.

Lemma fiber_first_entry_witness :
  example_pool = Some example_fibers /\ exists c1 c2,
    exec_code 0 ContextSwitch example_worker = Some (c1, Returned 777) /\
    exec_code 0 FiberTrampoline c1 = Some (c2, Called 999) /\ rsp c2 mod 16 = 8.
Proof.
  assert (HG : example_pool = Some example_fibers) by (vm_compute; reflexivity). split; [exact HG|].
  assert (HR : reserved (2 ^ 20) (2 ^ 30) 2 1) by (unfold reserved; cbn; lia).
  destruct example_callable as [Hc Ha].
  destruct (fiber_first_entry (fun _ _ => true) (2 ^ 20) (2 ^ 30) 2 1 example_fibers 0 (mk_fiber (2 ^ 20) 65536) (fun _ => 7) 777 999
    HG HR eq_refl) as (_ & _ & H).
  cbn [stackBase stackSize] in H.
  destruct (H 0 0 example_worker Hc Ha example_mem) as (c1 & c2 & E1 & E2 & _ & E3 & _). exists c1, c2. auto.
Defined.

(** The first fiber's frame, as the worker sees it. *)
Lemma example_frame :
  mem example_worker (rdx example_worker) = 2 ^ 20 + 65536 - 272 /\
  frame (mem example_worker) (mem example_worker (rdx example_worker)) (fresh 999) 777.
Proof.
  assert (Hp : mem example_worker (rdx example_worker) = 2 ^ 20 + 65536 - 272) by (vm_compute; reflexivity).
  split; [exact Hp|]. rewrite Hp.
  destruct (Init_spec (fun _ => 7) (2 ^ 20) 65536 777 999) as (I1 & I2 & I3 & I4); [lia..|].
  assert (Htop : (Init (fun _ => 7) (2 ^ 20) 65536 777 999).2 = 2 ^ 20 + 65536 - 272) by (vm_compute; reflexivity).
  rewrite Htop in *.
  apply (frame_same (Init (fun _ => 7) (2 ^ 20) 65536 777 999).1); [lia|exact I3|].
  intros a Ha. rewrite example_mem. apply store_ne. change (rdx example_worker) with 4104. lia.
Qed.

Lemma context_switch_roundtrip_witness : exists c1 d',
  exec_code 0 ContextSwitch example_worker = Some (c1, Returned 777) /\
  exec_code 0 ContextSwitch (example_back c1) = Some (d', Returned (mem example_worker 65544)) /\
  same_saved example_worker d' /\ rsp d' = 65552.
Proof.
  destruct example_callable as [Hc _]. destruct example_frame as [Hp Hfr].
  assert (Hap : apart example_worker (mem example_worker (rdx example_worker)) (mem example_worker (rdx example_worker) + 240)).
  { rewrite Hp. unfold apart. change (rcx example_worker) with 4096. change (rdx example_worker) with 4104.
    change (rsp example_worker) with 65544. lia. }
  assert (Hal : mem example_worker (rdx example_worker) mod 16 = 0) by (rewrite Hp; reflexivity).
  destruct (exec_switch 0 example_worker (fresh 999) 777 Hc Hal Hfr) as (c1 & E1 & _);
    [destruct Hap as (_ & _ & ?); lia|destruct Hap as (? & _); lia|].
  assert (Hd : callable (example_back c1)) by (constructor; cbn [rsp mxcsr fcw rcx rdx example_back]; lia).
  destruct (context_switch_roundtrip 0 0 example_worker (fresh 999) 777 c1 (Returned 777) (example_back c1)
    Hc Hal Hfr Hap E1 Hd eq_refl) as (_ & _ & d' & E2 & E3 & E4).
  - unfold apart, example_back. cbn [rsp rcx rdx]. change (rsp example_worker) with 65544. lia.
  - intros a _. reflexivity.
  - reflexivity.
  - exists c1, d'. split; [exact E1|]. split; [exact E2|split; [exact E3|exact E4]].
Defined.
