(* ===== verification/FiberPool.v ===== *)
(** * The fiber pool ([include/ThreadLocalCache.h], [src/GlobalFiberPool.cpp],
      [AcquireFiber] and [ReleaseFiber] of [src/Thread.cpp])

    Each worker has a stack of fibers that only it touches; the global pool behind
    them is a third-party concurrent queue, of which this uses: [try_dequeue]
    removes some element or fails, [enqueue] adds one, [size_approx] may say
    anything.  An action is one access to that queue, so the workers' accesses
    interleave. *)
From S2P Require Import Prelude.

Definition MaxCapacity : nat := 256.
Definition SIZE_MAX : Z := 2 ^ 64 - 1.

(** [ThreadLocalCache]: [None] in [localFibers] is a slot never written. *)
Record cache := mk_cache { localFibers : list (option ptr); activeCapacity : nat; count : nat }.

Definition Initialize (runtimeCapacity : nat) : cache :=
  let a := if Nat.leb runtimeCapacity MaxCapacity then runtimeCapacity else MaxCapacity in
  mk_cache (replicate MaxCapacity None) (if Nat.ltb a 2 then 2 else a)%nat 0.

(** How many fibers a full cache gives back. *)
Definition half (c : cache) : nat := activeCapacity c / 2.
Arguments half : simpl never.

(** [localFibers[count++] = f] *)
Definition store_top (c : cache) (f : ptr) : option cache :=
  if decide (count c < length (localFibers c))%nat
  then Some (mk_cache (<[count c := Some f]> (localFibers c)) (activeCapacity c) (S (count c))) else None.
(** [localFibers[--count]], when [count] is not 0 *)
Definition take_top (c : cache) : option (cache * ptr) :=
  match count c with
  | O => None
  | S n => x ← localFibers c !! n; f ← x; Some (mk_cache (localFibers c) (activeCapacity c) n, f)
  end.

(** Where a worker is inside [AcquireFiber] or [ReleaseFiber]. *)
Inductive pc :=
  | Idle
  | Size (again : bool) (batch : list ptr)     (* StealBatch: about to read the size; [again]: first Pop *)
  | Dequeue (again : bool) (batch : list ptr)  (* about to dequeue *)
  | Returning (f : ptr) (i : nat).             (* Push(f): ReturnBatch about to return the i-th fiber *)

Record state := mk_state {
  availableFibers : list ptr;
  caches : list cache;
  pcs : list pc;
  held : list ptr;                 (* fibers acquired and not released *)
  epochs : gmap ptr Z;             (* localEpoch, where set *)
  exhausted : nat                  (* how often AcquireFiber returned nullptr *)
}.

Definition set_worker (s : state) (w : nat) (c : cache) (p : pc) (av h : list ptr) (e : nat) : state :=
  mk_state av (<[w := c]> (caches s)) (<[w := p]> (pcs s)) h (epochs s) e.

(** [Pop] after the refill: [f] is returned, or [AcquireFiber] tries once more, or
    it returns nullptr. *)
Definition finish_pop (s : state) (w : nat) (c : cache) (again : bool) : option state :=
  match count c with
  | O => Some (if again then set_worker s w c (Size false []) (availableFibers s) (held s) (exhausted s)
               else set_worker s w c Idle (availableFibers s) (held s) (S (exhausted s)))
  | _ => '(c, f) ← take_top c; Some (set_worker s w c Idle (availableFibers s) (f :: held s) (exhausted s))
  end.

(** [StealInto]'s copy. *)
Definition fill (c : cache) (batch : list ptr) : cache :=
  mk_cache ((Some <$> batch) ++ drop (length batch) (localFibers c)) (activeCapacity c) (length batch).

Inductive action :=
  | AcquireFiber (w : nat)
  | ReleaseFiber (w k : nat)                          (* the k-th held fiber *)
  | Step (w : nat) (nonempty : bool) (deq : option nat).  (* what the queue answers *)

Definition exec (a : action) (s : state) : option state :=
  match a with
  | AcquireFiber w =>
      c ← caches s !! w; p ← pcs s !! w;
      match p with
      | Idle => if Nat.eqb (count c) 0
                then Some (set_worker s w c (Size true []) (availableFibers s) (held s) (exhausted s))
                else finish_pop s w c true
      | _ => None
      end
  | ReleaseFiber w k =>
      c ← caches s !! w; p ← pcs s !! w; f ← held s !! k;
      match p with
      | Idle => if Nat.leb (activeCapacity c) (count c)
                then Some (set_worker s w c (Returning f 0) (availableFibers s) (delete k (held s)) (exhausted s))
                else c ← store_top c f;
                     Some (set_worker s w c Idle (availableFibers s) (delete k (held s)) (exhausted s))
      | _ => None
      end
  | Step w nonempty deq =>
      c ← caches s !! w; p ← pcs s !! w;
      match p with
      | Idle => None
      | Size again batch =>
          if Nat.ltb (length batch) (activeCapacity c) && nonempty
          then Some (set_worker s w c (Dequeue again batch) (availableFibers s) (held s) (exhausted s))
          else finish_pop s w (fill c batch) again
      | Dequeue again batch =>
          match deq with
          | Some j =>
              f ← availableFibers s !! j;
              Some (set_worker s w c (Size again (batch ++ [f])) (delete j (availableFibers s)) (held s) (exhausted s))
          | None => Some (set_worker s w c (Size again batch) (availableFibers s) (held s) (exhausted s))
          end
      | Returning f i =>
          if Nat.ltb i (half c)
          then x ← localFibers c !! (count c - half c + i)%nat; g ← x;
               Some (mk_state (availableFibers s ++ [g]) (caches s) (<[w := Returning f (S i)]> (pcs s)) (held s)
                       (<[g := SIZE_MAX]> (epochs s)) (exhausted s))
          else c ← store_top (mk_cache (localFibers c) (activeCapacity c) (count c - half c)) f;
               Some (set_worker s w c Idle (availableFibers s) (held s) (exhausted s))
      end
  end.

(** The pool when the workers have started. *)
Definition start (fibers : list ptr) (capacities : list nat) : state :=
  mk_state fibers (Initialize <$> capacities) (replicate (length capacities) Idle) [] ∅ 0.

(** ** Where the fibers are *)

Definition kept (c : cache) (lo hi : nat) : list ptr := omap id (take (hi - lo) (drop lo (localFibers c))).

(** What a worker has in its cache and in its hands. *)
Definition owned (c : cache) (p : pc) : list ptr :=
  match p with
  | Idle => kept c 0 (count c)
  | Size _ batch | Dequeue _ batch => batch
  | Returning f i =>
      f :: kept c 0 (count c - half c) ++ kept c (count c - half c + i) (count c)
  end.

Definition places (s : state) : list ptr :=
  availableFibers s ++ held s ++ mjoin (zip_with owned (caches s) (pcs s)).

Record worker_ok (c : cache) (p : pc) : Prop := {
  w_len : length (localFibers c) = MaxCapacity;
  w_cap : (2 <= activeCapacity c <= MaxCapacity)%nat;
  w_count : (count c <= activeCapacity c)%nat;
  w_full : forall k, (k < count c)%nat -> exists f, localFibers c !! k = Some (Some f);
  w_pc : match p with
         | Idle => True
         | Size _ batch => count c = 0%nat /\ (length batch <= activeCapacity c)%nat
         | Dequeue _ batch => count c = 0%nat /\ (length batch < activeCapacity c)%nat
         | Returning f i => count c = activeCapacity c /\ (i <= half c)%nat
         end
}.

(** ** Slices of a cache *)

Lemma kept_nil c lo : kept c lo lo = [].
Proof. unfold kept. by rewrite Nat.sub_diag. Qed.
Lemma kept_cons c lo hi f :
  (lo < hi)%nat -> localFibers c !! lo = Some (Some f) -> kept c lo hi = f :: kept c (S lo) hi.
Proof.
  intros Hlt Hf. unfold kept. rewrite (drop_S _ _ _ Hf). destruct (hi - lo)%nat eqn:E; [lia|].
  cbn. replace (hi - S lo)%nat with n by lia. done.
Qed.
Lemma kept_split c lo mid hi : (lo <= mid <= hi)%nat -> kept c lo hi = kept c lo mid ++ kept c mid hi.
Proof.
  intros H. unfold kept. rewrite <- omap_app. f_equal.
  replace (hi - lo)%nat with ((mid - lo) + (hi - mid))%nat by lia. rewrite <- take_take_drop, drop_drop.
  do 3 f_equal. lia.
Qed.
Lemma kept_snoc c lo hi f :
  (lo <= hi)%nat -> localFibers c !! hi = Some (Some f) -> kept c lo (S hi) = kept c lo hi ++ [f].
Proof.
  intros H Hf. rewrite (kept_split c lo hi (S hi)) by lia. by rewrite (kept_cons c hi (S hi) f), kept_nil by (done || lia).
Qed.
(** Only the slots of the slice matter. *)
Lemma kept_ext c c' lo hi :
  (forall k, (lo <= k < hi)%nat -> localFibers c' !! k = localFibers c !! k) -> kept c' lo hi = kept c lo hi.
Proof.
  intros H. unfold kept. f_equal. apply list_eq. intros i. destruct (decide (i < hi - lo)%nat).
  - rewrite !lookup_take_lt, !lookup_drop by done. apply H. lia.
  - by rewrite !lookup_take_ge by lia.
Qed.

Lemma store_top_spec c f c' :
  store_top c f = Some c' ->
  activeCapacity c' = activeCapacity c /\ count c' = S (count c) /\ length (localFibers c') = length (localFibers c) /\
  localFibers c' !! count c = Some (Some f) /\ (forall k, (k < count c)%nat -> localFibers c' !! k = localFibers c !! k).
Proof.
  unfold store_top. case_decide as Hlt; [|done]. intros [= <-]. cbn. rewrite length_insert. split_and!; try done.
  - by apply list_lookup_insert_eq.
  - intros k Hk. apply list_lookup_insert_ne. lia.
Qed.
Lemma store_top_kept c f c' : store_top c f = Some c' -> kept c' 0 (count c') = kept c 0 (count c) ++ [f].
Proof.
  intros (_ & -> & _ & Hf & Hs)%store_top_spec. rewrite (kept_snoc _ _ _ f) by (done || lia). f_equal.
  apply kept_ext. intros k Hk. apply Hs. lia.
Qed.
Lemma fill_kept c batch : kept (fill c batch) 0 (length batch) = batch.
Proof.
  unfold kept, fill. cbn [localFibers]. rewrite Nat.sub_0_r, drop_0, take_app_length' by (by rewrite length_fmap).
  induction batch as [|x l IH]; cbn; [done|]. f_equal. exact IH.
Qed.

Lemma store_top_ok c f c' p :
  worker_ok c p -> (count c < activeCapacity c)%nat -> store_top c f = Some c' -> worker_ok c' Idle.
Proof.
  intros [W1 W2 W3 W4 W5] Hlt (E1 & E2 & E3 & E4 & E5)%store_top_spec. constructor; rewrite ?E1, ?E2, ?E3; try done.
  intros k Hk. destruct (decide (k = count c)) as [->|]; [eauto|]. rewrite E5 by lia. apply W4. lia.
Qed.
Lemma store_top_total c f p : worker_ok c p -> (count c < activeCapacity c)%nat -> is_Some (store_top c f).
Proof. intros [W1 W2 _ _ _] Hlt. unfold store_top. rewrite decide_True by lia. by eexists. Qed.

Lemma fill_ok c p batch : worker_ok c p -> (length batch <= activeCapacity c)%nat -> worker_ok (fill c batch) Idle.
Proof.
  intros [W1 W2 W3 W4 W5] Hle. constructor; cbn; try done.
  - rewrite length_app, length_fmap, length_drop. lia.
  - intros k Hk. rewrite lookup_app_l by (by rewrite length_fmap). rewrite list_lookup_fmap.
    destruct (lookup_lt_is_Some_2 batch k Hk) as [f ->]. by exists f.
Qed.

Lemma take_top_spec c n : worker_ok c Idle -> count c = S n -> exists f,
  take_top c = Some (mk_cache (localFibers c) (activeCapacity c) n, f) /\
  worker_ok (mk_cache (localFibers c) (activeCapacity c) n) Idle /\ kept c 0 (count c) ≡ₚ f :: kept c 0 n.
Proof.
  intros [W1 W2 W3 W4 W5] E. destruct (W4 n) as [f Hf]; [lia|]. exists f. unfold take_top. rewrite E, Hf. split; [done|]. split.
  - constructor; cbn; try done; [lia|]. intros k Hk. apply W4. lia.
  - rewrite (kept_snoc _ _ _ f) by (done || lia). by rewrite Permutation_app_comm.
Qed.

(** ** The invariant *)

Section Invariant.
Context (fibers : list ptr).

Record inv (s : state) : Prop := {
  i_len : length (caches s) = length (pcs s);
  i_ok : forall w c p, caches s !! w = Some c -> pcs s !! w = Some p -> worker_ok c p;
  i_places : places s ≡ₚ fibers
}.

Lemma join_insert (l : list (list ptr)) w x y : l !! w = Some x -> mjoin (<[w := y]> l) ++ x ≡ₚ mjoin l ++ y.
Proof.
  revert w. induction l as [|z l IH]; intros [|w] H; cbn in *; try done.
  - injection H as ->. solve_Permutation.
  - rewrite <- !app_assoc. by apply Permutation_app_head, IH.
Qed.

(** One worker and the shared lists change. *)
Lemma fpool_inv_update s w c p c' p' av h e :
  inv s -> caches s !! w = Some c -> pcs s !! w = Some p -> worker_ok c' p' ->
  av ++ h ++ owned c' p' ≡ₚ availableFibers s ++ held s ++ owned c p ->
  inv (set_worker s w c' p' av h e).
Proof.
  intros [I1 I2 I3] Hc Hp Hok HP. constructor; cbn.
  - by rewrite !length_insert.
  - intros v c0 p0 [(-> & <- & _)|[Hne Hc0]]%list_lookup_insert_Some Hp0.
    + by apply list_lookup_insert_Some in Hp0 as [(_ & <- & _)|[? _]].
    + rewrite list_lookup_insert_ne in Hp0 by done. by eapply I2.
  - rewrite <- I3. unfold places. cbn. rewrite <- insert_zip_with.
    assert (Hz : zip_with owned (caches s) (pcs s) !! w = Some (owned c p)) by (by rewrite lookup_zip_with, Hc; cbn; rewrite Hp).
    pose proof (join_insert _ _ _ (owned c' p') Hz) as HJ. set (J := mjoin (zip_with owned (caches s) (pcs s))) in *.
    set (J' := mjoin (<[w := owned c' p']> _)) in *.
    apply (Permutation_app_inv_r (owned c p)).
    transitivity (av ++ h ++ J' ++ owned c p); [solve_Permutation|]. rewrite HJ.
    transitivity ((av ++ h ++ owned c' p') ++ J); [solve_Permutation|]. rewrite HP. solve_Permutation.
Qed.

(** The refill is over: what [finish_pop] does with a cache it owns. *)
Lemma fpool_inv_finish s w c p c0 again s' :
  inv s -> caches s !! w = Some c -> pcs s !! w = Some p -> worker_ok c0 Idle ->
  kept c0 0 (count c0) ≡ₚ owned c p -> finish_pop s w c0 again = Some s' -> inv s'.
Proof.
  intros HI Hc Hp Hok Hown. unfold finish_pop. destruct (count c0) as [|n] eqn:E.
  - rewrite kept_nil in Hown. intros H. assert (Hok' : worker_ok c0 (Size false [])).
    { destruct Hok. constructor; cbn; (done || lia). }
    destruct again; injection H as <-; eapply fpool_inv_update; try done; cbn [owned]; rewrite <- Hown, ?E, ?kept_nil; done.
  - destruct (take_top_spec c0 n Hok E) as (f & -> & Hok' & Hk). cbn. intros [= <-].
    eapply fpool_inv_update; try done. cbn [owned]. rewrite <- Hown, <- E, Hk. solve_Permutation.
Qed.

Lemma fpool_inv_return s w c f i s' b d :
  inv s -> caches s !! w = Some c -> pcs s !! w = Some (Returning f i) -> exec (Step w b d) s = Some s' -> inv s'.
Proof.
  intros HI Hc Hp. pose proof (i_ok s HI w c _ Hc Hp) as Hok. destruct Hok as [W1 W2 W3 W4 [W5 W6]] eqn:EW. clear EW.
  cbn [exec]. rewrite Hc, Hp. cbn [mbind option_bind].
  assert (Hhalf : (1 <= half c <= count c)%nat).
  { unfold half. rewrite W5. split; [apply Nat.div_le_lower_bound; lia|apply Nat.Div0.div_le_upper_bound; lia]. }
  destruct (Nat.ltb_spec i (half c)) as [Hlt|Hge].
  - destruct (W4 (count c - half c + i)%nat) as [g Hg]; [lia|]. rewrite Hg. cbn. intros [= <-].
    pose proof (fpool_inv_update s w c (Returning f i) c (Returning f (S i)) (availableFibers s ++ [g]) (held s) (exhausted s) HI Hc Hp) as HU.
    unfold set_worker in HU. rewrite (list_insert_id _ _ _ Hc) in HU.
    destruct HU as [U1 U2 U3]; [by constructor|..|by constructor].
    cbn. rewrite (kept_cons c (count c - half c + i) (count c) g) by (done || lia).
    replace (count c - half c + S i)%nat with (S (count c - half c + i)) by lia. solve_Permutation.
  - set (c0 := mk_cache (localFibers c) (activeCapacity c) (count c - half c)).
    assert (Hok0 : worker_ok c0 Idle) by (constructor; cbn; try done; [lia|intros k Hk; apply W4; lia]).
    destruct (store_top c0 f) as [c'|] eqn:E; cbn; [|done]. intros [= <-].
    eapply fpool_inv_update; try done; [eapply (store_top_ok c0); [done| |done]; cbn; lia|].
    cbn [owned]. rewrite (store_top_kept _ _ _ E). replace i with (half c) by lia.
    replace (count c - half c + half c)%nat with (count c) by lia. rewrite kept_nil, app_nil_r. cbn.
    change (kept c0 0 (count c - half c)) with (kept c 0 (count c - half c)). solve_Permutation.
Qed.

Lemma fpool_inv_step a s s' : inv s -> exec a s = Some s' -> inv s'.
Proof.
  intros HI. destruct a as [w|w k|w b d]; cbn [exec].
  - destruct (caches s !! w) as [c|] eqn:Hc; cbn [mbind option_bind]; [|done]. destruct (pcs s !! w) as [p|] eqn:Hp; cbn [mbind option_bind]; [|done].
    destruct p; try done. pose proof (i_ok s HI w c _ Hc Hp) as Hok. destruct (Nat.eqb_spec (count c) 0) as [E|E].
    + intros [= <-]. eapply fpool_inv_update; try done.
      * destruct Hok. constructor; cbn; (done || lia).
      * cbn. by rewrite E, kept_nil.
    + by apply (fpool_inv_finish s w c Idle).
  - destruct (caches s !! w) as [c|] eqn:Hc; cbn [mbind option_bind]; [|done]. destruct (pcs s !! w) as [p|] eqn:Hp; cbn [mbind option_bind]; [|done].
    destruct (held s !! k) as [f|] eqn:Hf; cbn; [|by destruct p]. destruct p; try done.
    pose proof (i_ok s HI w c _ Hc Hp) as Hok. destruct (Nat.leb_spec (activeCapacity c) (count c)) as [E|E].
    + intros [= <-]. destruct Hok as [W1 W2 W3 W4 W5]. eapply fpool_inv_update; try done.
      * constructor; cbn; (done || lia).
      * rewrite (delete_Permutation _ _ _ Hf) at 2. cbn [owned]. rewrite Nat.add_0_r.
        rewrite (kept_split c 0 (count c - half c) (count c)) by lia. solve_Permutation.
    + destruct (store_top c f) as [c'|] eqn:Es; cbn; [|done]. intros [= <-]. eapply fpool_inv_update; try done.
      * by eapply store_top_ok.
      * cbn [owned]. rewrite (store_top_kept _ _ _ Es). rewrite (delete_Permutation _ _ _ Hf) at 2. solve_Permutation.
  - destruct (caches s !! w) as [c|] eqn:Hc; cbn [mbind option_bind]; [|done]. destruct (pcs s !! w) as [p|] eqn:Hp; cbn [mbind option_bind]; [|done].
    pose proof (i_ok s HI w c _ Hc Hp) as Hok. destruct p as [|again batch|again batch|f i]; [done| | |].
    + destruct Hok as [W1 W2 W3 W4 [W5 W6]] eqn:EW. destruct (Nat.ltb_spec (length batch) (activeCapacity c)); destruct b; cbn [andb];
        [intros [= <-]; eapply fpool_inv_update; try done; by constructor|..];
        (apply (fpool_inv_finish s w c (Size again batch)); try done; [by eapply fill_ok|]; cbn [owned count fill]; by rewrite fill_kept).
    + destruct Hok as [W1 W2 W3 W4 [W5 W6]] eqn:EW. destruct d as [j|].
      * destruct (availableFibers s !! j) as [f|] eqn:Hf; cbn; [|done]. intros [= <-]. eapply fpool_inv_update; try done.
        -- constructor; try done. rewrite length_app. cbn. lia.
        -- cbn [owned]. rewrite (delete_Permutation _ _ _ Hf) at 2. solve_Permutation.
      * intros [= <-]. eapply fpool_inv_update; try done. constructor; (done || lia).
    + intros H. apply (fpool_inv_return s w c f i s' b d HI Hc Hp). cbn [exec]. by rewrite Hc, Hp.
Qed.
End Invariant.

Lemma start_places fibers caps : inv fibers (start fibers caps).
Proof.
  constructor; cbn.
  - by rewrite length_fmap, length_replicate.
  - intros w c p Hc Hp. apply list_lookup_fmap_Some in Hc as (a & -> & _). apply lookup_replicate in Hp as [-> _].
    unfold Initialize. constructor; cbn [localFibers activeCapacity count]; try done.
    + destruct (Nat.leb_spec a MaxCapacity) as [H|H];
        match goal with |- context [(?x <? 2)%nat] => destruct (Nat.ltb_spec x 2) end; unfold MaxCapacity in *; lia.
    + lia.
    + intros k Hk. lia.
  - unfold places, start. cbn [availableFibers held caches pcs app].
    assert (H : mjoin (zip_with owned (Initialize <$> caps) (replicate (length caps) Idle)) = []).
    { induction caps as [|a caps IH]; [done|]. cbn [length replicate]. rewrite fmap_cons.
      change (kept (Initialize a) 0 0 ++ mjoin (zip_with owned (Initialize <$> caps) (replicate (length caps) Idle)) = []).
      by rewrite IH, kept_nil. }
    by rewrite H, app_nil_r.
Qed.

(** An idle worker can call either function; a worker inside one gets on,
    whatever the queue answers (an index it dequeues at exists). *)
Lemma worker_proceeds fibers s w c p :
  inv fibers s -> caches s !! w = Some c -> pcs s !! w = Some p ->
  match p with
  | Idle => is_Some (exec (AcquireFiber w) s) /\ forall k, (k < length (held s))%nat -> is_Some (exec (ReleaseFiber w k) s)
  | _ => forall b j, (forall i, j = Some i -> (i < length (availableFibers s))%nat) -> is_Some (exec (Step w b j) s)
  end.
Proof.
  intros HI Hc Hp. pose proof (i_ok fibers s HI w c p Hc Hp) as Hok.
  assert (Hfin : forall c0 again, worker_ok c0 Idle -> is_Some (finish_pop s w c0 again)).
  { intros c0 again H0. unfold finish_pop. destruct (count c0) eqn:E; [destruct again; by eexists|].
    destruct (take_top_spec c0 n H0 E) as (f & -> & _). cbn. by eexists. }
  destruct p as [|again batch|again batch|f i].
  - split.
    + cbn [exec]. rewrite Hc, Hp. cbn [mbind option_bind]. destruct (count c =? 0)%nat; [by eexists|by apply Hfin].
    + intros k Hk. destruct (lookup_lt_is_Some_2 _ _ Hk) as [f Hf]. cbn [exec]. rewrite Hc, Hp, Hf. cbn [mbind option_bind].
      destruct (Nat.leb_spec (activeCapacity c) (count c)); [by eexists|].
      destruct (store_top_total c f Idle Hok) as [c' ->]; [done|]. by eexists.
  - intros b j _. cbn [exec]. rewrite Hc, Hp. cbn [mbind option_bind]. destruct (_ && b); [by eexists|].
    apply Hfin. eapply fill_ok; [done|]. by destruct Hok as [_ _ _ _ [_ ?]].
  - intros b j Hj. cbn [exec]. rewrite Hc, Hp. cbn [mbind option_bind]. destruct j as [j|]; [|by eexists].
    destruct (lookup_lt_is_Some_2 _ _ (Hj j eq_refl)) as [f ->]. by eexists.
  - intros b j _. cbn [exec]. rewrite Hc, Hp. cbn [mbind option_bind]. destruct Hok as [W1 W2 W3 W4 [W5 W6]].
    assert (Hhalf : (1 <= half c <= count c)%nat).
    { unfold half. rewrite W5. split; [apply Nat.div_le_lower_bound; lia|apply Nat.Div0.div_le_upper_bound; lia]. }
    destruct (Nat.ltb_spec i (half c)).
    + destruct (W4 (count c - half c + i)%nat) as [g ->]; [lia|]. by eexists.
    + destruct (store_top_total (mk_cache (localFibers c) (activeCapacity c) (count c - half c)) f Idle) as [c' ->];
        [constructor; cbn [localFibers activeCapacity count]; try done; [lia|intros k Hk; apply W4; lia]
        |cbn [activeCapacity count]; lia|]. by eexists.
Qed.

(** ** Properties *)

(** [C26] In every interleaving of the workers' accesses to the global pool, each
    fiber is in exactly one place: the global pool, one worker's cache or hands,
    or acquired.  So no fiber is given to two workers.  And nothing goes wrong on
    the way: an idle worker can acquire and release, a worker inside either
    function always gets on, with every array index in range. *)
Theorem fiber_pool_conserves fibers caps l s :
  NoDup fibers -> run exec l (start fibers caps) = Some s ->
  places s ≡ₚ fibers /\ NoDup (places s) /\
  (forall w c p, caches s !! w = Some c -> pcs s !! w = Some p ->
    (count c <= activeCapacity c <= MaxCapacity)%nat /\
    match p with
    | Idle => is_Some (exec (AcquireFiber w) s) /\ forall k, (k < length (held s))%nat -> is_Some (exec (ReleaseFiber w k) s)
    | _ => forall b j, (forall i, j = Some i -> (i < length (availableFibers s))%nat) -> is_Some (exec (Step w b j) s)
    end).
Proof.
  intros Hnd Hl. assert (HI : inv fibers s).
  { apply (reaches_invariant exec (inv fibers) (start fibers caps)); [by intros; eapply fpool_inv_step|apply start_places|by exists l]. }
  pose proof (i_places fibers s HI) as HP. split; [done|]. split; [by rewrite HP|].
  intros w c p Hc Hp. split; [destruct (i_ok fibers s HI w c p Hc Hp); lia|]. by eapply worker_proceeds.
Qed.

(** Two workers; the first takes a fiber and gives three back to a full cache. *)
Definition example_actions : list action :=
  [AcquireFiber 0; Step 0 true None; Step 0 false (Some 2%nat); AcquireFiber 1; Step 0 true None; Step 1 true None;
   Step 0 false (Some 0%nat); Step 1 false (Some 1%nat); Step 0 false None; Step 1 false None; AcquireFiber 0;
   ReleaseFiber 0 0; ReleaseFiber 0 0; ReleaseFiber 0 0; Step 0 false None; Step 0 false None].

Lemma fiber_pool_conserves_witness : exists s,
  run exec example_actions (start [1; 2; 3; 4]%positive [0%nat; 300%nat]) = Some s /\
  availableFibers s = [2; 4]%positive /\ held s = [] /\ places s ≡ₚ [1; 2; 3; 4]%positive.
Proof.
  assert (Hf : (fun s => (availableFibers s, held s)) <$> run exec example_actions (start [1; 2; 3; 4]%positive [0%nat; 300%nat]) =
    Some ([2; 4]%positive, [])) by (vm_compute; reflexivity).
  destruct (run exec example_actions _) as [s|] eqn:E; [|discriminate Hf]. injection Hf as H1 H2.
  exists s. split; [reflexivity|]. split; [exact H1|]. split; [exact H2|].
  assert (Hnd : NoDup [1; 2; 3; 4]%positive) by (apply (bool_decide_unpack _); vm_compute; exact I).
  exact (proj1 (fiber_pool_conserves _ _ _ s Hnd E)).
Defined.
