(* ===== verification/Parking.v ===== *)
(** * Parking a fiber ([Thread::Suspend] and [Thread::Resume] of [src/Thread.cpp])

    What the semaphore and the condition variable share: a fiber that puts itself
    into some queue and then calls [Suspend], the worker that switches back from
    it, the threads that take it out of the queue and call [Resume], and the
    worker that runs its task again.  The status protocol is that of [Fiber.v];
    a fiber has one cell, with where its code is. *)
From S2P Require Import Prelude Fiber.

(** [place]: the worker step the fiber is in, [None] off a worker; [inq]: its task
    is in a run queue. *)
Record cell (C : Type) := mk_cell {
  code : C;
  status : FiberStatus;
  place : option worker_pc;
  inq : bool
}.
Arguments mk_cell {C}.
Arguments code {C}.
Arguments status {C}.
Arguments place {C}.
Arguments inq {C}.

(** A point of the code: elsewhere, in a queue and about to call [Suspend],
    running on after [WANTS_SUSPEND] was stored ([WaitOnEvent] and its variants
    store it first), or inside the switch. *)
Inductive point := Elsewhere | About | Committed | Inside.

Section Parking.
Context {C : Type} (at_point : C -> point).

Definition running (c : cell C) : bool := bool_decide (place c = Some WRunning).

Definition set_code (c : cell C) (p : C) : cell C := mk_cell p (status c) (place c) (inq c).

(** [targetFiber->Suspend()] up to the switch; [p]: the code inside it. *)
Definition suspend (c : cell C) (p : C) : cell C := mk_cell p (leave_status Suspend) (Some WPost) (inq c).

(** The two halves of it in the order of [WaitOnEvent]: the store, and later the
    switch. *)
Definition park (c : cell C) (p : C) : cell C := mk_cell p (leave_status Suspend) (place c) (inq c).
Definition switch_out (c : cell C) (p : C) : cell C := mk_cell p (status c) (Some WPost) (inq c).

(** The next access of the worker that switched back. *)
Definition worker_step (c : cell C) : option (cell C) :=
  match place c with
  | Some WRunning | None => None
  | Some pc =>
      let '(st, pc') := post_step pc (status c) in
      Some (mk_cell (code c) st (if decide (pc' = WDone) then None else Some pc')
              (if decide (pc = WPush) then true else inq c))
  end.

(** A worker takes the fiber's task and switches in; [wake]: the code after
    [Suspend]. *)
Definition dispatch (wake : C -> C) (c : cell C) : option (cell C) :=
  match place c, inq c with
  | None, true => Some (mk_cell (wake (code c)) RUNNING (Some WRunning) false)
  | _, _ => None
  end.

(** The next access of [targetFiber->Resume()]. *)
Definition resume (pc : resume_pc) (c : cell C) : cell C * resume_pc :=
  let '(st, pc') := resume_step pc (status c) in
  (mk_cell (code c) st (place c) (if decide (pc = RRequeue) then true else inq c), pc').

(** The statuses a fiber may have at its point. *)
Definition cell_ok (c : cell C) : Prop :=
  match at_point (code c) with
  | Inside =>
      match place c with
      | Some WPost | Some WPark => (status c = WANTS_SUSPEND \/ status c = SUSPEND_SIGNALED) /\ inq c = false
      | Some WSignaled => status c = SUSPEND_SIGNALED /\ inq c = false
      | Some WPush => status c = READY /\ inq c = false
      | None => (status c = SUSPENDED /\ inq c = false) \/ status c = READY
      | _ => False
      end
  | Committed => (status c = WANTS_SUSPEND \/ status c = SUSPEND_SIGNALED) /\ place c = Some WRunning /\ inq c = false
  | _ => status c = RUNNING /\ place c = Some WRunning /\ inq c = false
  end.

(** Nobody has resumed it since it set out to suspend. *)
Definition unsignaled (c : cell C) : Prop :=
  at_point (code c) = About \/
  (at_point (code c) = Inside \/ at_point (code c) = Committed) /\ (status c = WANTS_SUSPEND \/ status c = SUSPENDED).

(** It cannot run again before somebody who is about to resume it, or to requeue
    it, goes on. *)
Definition needs_resume (c : cell C) : Prop :=
  unsignaled c \/ at_point (code c) = Inside /\ status c = READY /\ place c = None /\ inq c = false.

(** What a thread inside [Resume] may assume of the fiber. *)
Definition resume_ok (pc : resume_pc) (c : cell C) : Prop :=
  match pc with
  | RLoad => unsignaled c
  | RCasWants => unsignaled c /\ at_point (code c) <> About
  | RCasSuspended => at_point (code c) = Inside /\ status c = SUSPENDED
  | RRequeue => at_point (code c) = Inside /\ status c = READY /\ place c = None /\ inq c = false
  | RDone => False
  end.

(** Suspended with nobody left to resume it. *)
Definition asleep (c : cell C) : Prop :=
  at_point (code c) = Inside /\ status c = SUSPENDED /\ place c = None /\ inq c = false.

(** Its code runs and has not set out to suspend. *)
Definition at_large (p : C) : Prop := at_point p = Elsewhere \/ at_point p = About.

Lemma cell_ok_running c : cell_ok c -> at_large (code c) ->
  status c = RUNNING /\ place c = Some WRunning /\ inq c = false.
Proof. unfold cell_ok. by intros H [E|E]; rewrite E in H. Qed.

Lemma cell_ok_set_code c p : cell_ok c -> at_large (code c) -> at_large p -> cell_ok (set_code c p).
Proof. intros H H1 H2. pose proof (cell_ok_running c H H1). unfold cell_ok. cbn. by destruct H2 as [-> | ->]. Qed.

(** Moving between points of the same kind. *)
Lemma same_point_ok c p : at_point p = at_point (code c) ->
  (cell_ok c -> cell_ok (set_code c p)) /\ (unsignaled c <-> unsignaled (set_code c p)) /\
  forall pc, resume_ok pc c <-> resume_ok pc (set_code c p).
Proof.
  intros E. unfold cell_ok, unsignaled. cbn. rewrite E. split; [done|split; [done|]].
  intros []; unfold resume_ok, unsignaled; cbn; by rewrite ?E.
Qed.

Lemma same_point_needs c p : at_point p = at_point (code c) -> needs_resume c <-> needs_resume (set_code c p).
Proof. intros E. unfold needs_resume. rewrite (proj1 (proj2 (same_point_ok c p E))). cbn. by rewrite E. Qed.

Lemma park_ok c p : cell_ok c -> at_point (code c) = Elsewhere -> at_point p = Committed ->
  cell_ok (park c p) /\ unsignaled (park c p).
Proof.
  intros H H1 H2. destruct (cell_ok_running c H) as (_ & H3 & H4); [by left|].
  unfold cell_ok, unsignaled. cbn. rewrite H2, H3, H4. auto.
Qed.

Lemma switch_out_ok c p : cell_ok c -> at_point (code c) = Committed -> at_point p = Inside ->
  cell_ok (switch_out c p) /\ (unsignaled c <-> unsignaled (switch_out c p)) /\
  forall pc, resume_ok pc c -> resume_ok pc (switch_out c p).
Proof.
  unfold cell_ok, unsignaled. cbn. intros H H1 H2. rewrite H1 in *. rewrite H2. destruct H as (H & H3 & H4).
  split; [done|split].
  - split; intros [?|[? ?]]; try done; right; auto.
  - intros []; unfold resume_ok, unsignaled; cbn; rewrite ?H1, ?H2; intuition congruence.
Qed.

Lemma switch_out_needs c p : cell_ok c -> at_point (code c) = Committed -> at_point p = Inside ->
  needs_resume (switch_out c p) -> needs_resume c.
Proof.
  intros Hc H1 H2 [H|(_ & _ & H & _)]; [|done]. left. by apply (switch_out_ok c p Hc H1 H2).
Qed.

Lemma suspend_ok c p : cell_ok c -> at_point (code c) = About -> at_point p = Inside ->
  cell_ok (suspend c p) /\ unsignaled (suspend c p).
Proof.
  intros H H1 H2. destruct (cell_ok_running c H) as (_ & _ & H3); [by right|].
  unfold cell_ok, unsignaled. cbn. rewrite H2, H3. auto.
Qed.

(** The worker's steps change nothing for the queues and the resumers. *)
Lemma worker_step_ok c c' : cell_ok c -> worker_step c = Some c' ->
  code c' = code c /\ at_point (code c) = Inside /\ cell_ok c' /\ (unsignaled c -> unsignaled c') /\
  forall pc, resume_ok pc c -> resume_ok pc c'.
Proof.
  unfold cell_ok, worker_step, resume_ok, unsignaled. intros Hc Hs.
  destruct (place c) as [pc|] eqn:Hp; [|done].
  destruct (at_point (code c)) eqn:Ea; try (destruct Hc as (_ & ? & _); by simplify_eq).
  destruct pc; simpl in Hs; try done; destruct (status c) eqn:Es; simpl in Hs; try (intuition congruence);
    injection Hs as <-; simpl; rewrite ?Ea; (split_and!; try done);
    try (intros rpc; destruct rpc); intuition congruence.
Qed.

Lemma worker_step_needs c c' : cell_ok c -> worker_step c = Some c' -> needs_resume c' -> needs_resume c.
Proof.
  unfold cell_ok, worker_step, needs_resume, unsignaled. intros Hc Hs. destruct (place c) as [pc|] eqn:Hp; [|done].
  destruct pc; simpl in Hs; try done; destruct (status c) eqn:Es; simpl in Hs;
    injection Hs as <-; simpl; destruct (at_point (code c)); intuition congruence.
Qed.

(** Only a fiber that was resumed runs again. *)
Lemma dispatch_ok wake c c' : cell_ok c -> dispatch wake c = Some c' ->
  at_point (code c) = Inside /\ code c' = wake (code c) /\ ~ unsignaled c /\ (forall pc, ~ resume_ok pc c) /\
  (at_large (wake (code c)) -> cell_ok c').
Proof.
  unfold cell_ok, dispatch, resume_ok, unsignaled. intros Hc Hs.
  destruct (place c) eqn:Hp; [done|]. destruct (inq c) eqn:Hq; [|done]. simplify_eq. cbn.
  destruct (at_point (code c)) eqn:Ea; [intuition congruence..|].
  assert (Hst : status c = READY) by (intuition congruence). rewrite Hst. split_and!; try done.
  - intuition congruence.
  - intros []; intuition congruence.
  - by intros [-> | ->].
Qed.

Lemma resume_step_ok pc pc' c c' : cell_ok c -> resume_ok pc c -> resume pc c = (c', pc') ->
  cell_ok c' /\ code c' = code c /\ (pc' <> RDone -> resume_ok pc' c').
Proof.
  unfold resume. intros Hc Hr Hs. destruct (resume_step pc (status c)) as [st q] eqn:E. injection Hs as <- <-.
  destruct c as [k s0 pl b]. unfold cell_ok, resume_ok, unsignaled in *. simpl in *.
  destruct pc; simpl in E; try done; destruct (at_point k) eqn:Ea; try (intuition congruence);
    destruct s0; simpl in E; try (intuition congruence); injection E as <- <-; simpl;
    destruct pl as [[]|]; intuition congruence.
Qed.

(** Whoever is done with [Resume] has woken the fiber. *)
Lemma resume_done c c' pc : cell_ok c -> resume_ok pc c -> at_point (code c) <> About ->
  resume pc c = (c', RDone) -> ~ needs_resume c'.
Proof.
  unfold resume. intros Hc Hr Ha Hs. destruct (resume_step pc (status c)) as [st q] eqn:E. injection Hs as <- Hq. subst q.
  destruct c as [k s0 pl b]. unfold cell_ok, resume_ok, needs_resume, unsignaled in *. simpl in *.
  destruct pc; simpl in E; try done; destruct s0; simpl in E; destruct (at_point k); first [intuition congruence|injection E as <-; naive_solver].
Qed.

Lemma asleep_worker c : asleep c -> worker_step c = None.
Proof. intros (_ & _ & H & _). unfold worker_step. by rewrite H. Qed.
Lemma asleep_dispatch wake c : asleep c -> dispatch wake c = None.
Proof. intros (_ & _ & H & H'). unfold dispatch. by rewrite H, H'. Qed.
Lemma asleep_not_running c : asleep c -> running c = false.
Proof. intros (_ & _ & H & _). unfold running. by rewrite H. Qed.
End Parking.
