(* ===== verification/Sync.v ===== *)
(** * Semaphores and the condition variable ([SchedulerSemaphore] and
      [SchedulerConditionVariable] of [include/TaskScheduler.h] and
      [src/TaskScheduler.cpp])

    Any number of fibers use any number of semaphores, one condition variable and
    the mutex that goes with it.  A section guarded by a [spinLock] is one action;
    suspension and [Resume] are the steps of [Parking.v].  The mutex is its
    specification: [Lock] waits until nobody holds it ([SchedulerMutex.v] is the
    code).  The local semaphore of a [Wait] on the condition variable is created
    and destroyed; an access to one that is gone has no step.  [onFiber f] says
    whether caller [f] is on a fiber ([current != nullptr]).  One that is not polls
    [Try_Wait], and [Wait] of the condition variable lets go of the mutex once and
    takes it again, without waiting to be notified; the job it steals in between
    ([TryRunStolenFastJob]) is another caller of the machine. *)
From S2P Require Import Prelude Fiber Parking.

(** The last four fields are history: the initial permits, the sections of
    [Signal], the permits handed out (to a caller, or to a fiber taken out of the
    queue), and the signals at [maxPermits]. *)
Record sem := mk_sem {
  permits : Z;
  maxPermits : Z;
  waitingFibers : list nat;
  initial : Z;
  signals : Z;
  passed : Z;
  dropped : Z
}.

Definition SchedulerSemaphore (initialPermits maxPermits : Z) : sem := mk_sem initialPermits maxPermits [] initialPermits 0 0 0.

(** Where a fiber's code is. *)
Inductive sync_pc :=
  | CIdle
  | WEnter (k : nat)                       (* Semaphore::Wait: at its section *)
  | WSuspend (k : nat)                     (* in waitingFibers, about to Suspend *)
  | WSuspended (k : nat)
  | TEnter (k : nat)                       (* Try_Wait *)
  | TPoll (k : nat)                        (* Wait off a fiber: at the test of its loop *)
  | SEnter (k : nat)                       (* Signal *)
  | SResume (n : nat) (pc : resume_pc)
  | VPush                                  (* ConditionVariable::Wait: about to push its semaphore *)
  | VUnlock                                (* about to unlock the mutex *)
  | VLock                                  (* woken: about to lock it again *)
  | FLock                                  (* Wait off a fiber, mutex unlocked: about to lock it again *)
  | NPop                                   (* Notify_One *)
  | NAll.                                  (* Notify_All *)

(** What the semaphore call is part of: [Wait] of the condition variable with
    local semaphore [k], or a [Notify] that has still to signal [l]. *)
Inductive kont := KIdle | KWait (k : nat) | KNotify (l : list nat).

Abbreviation code_t := (sync_pc * kont)%type.

Definition at_point (p : code_t) : point :=
  match p.1 with WSuspend _ => About | WSuspended _ => Inside | _ => Elsewhere end.

Record state := mk_state {
  sems : gmap nat sem;
  waitingQueue : list nat;
  holder : option nat;
  cells : list (cell code_t);
  next : nat                               (* the next local semaphore *)
}.

Definition ret_wait (k : kont) : code_t := match k with KWait _ => (VLock, k) | _ => (CIdle, KIdle) end.
Definition ret_signal (k : kont) : code_t :=
  match k with KNotify (x :: l) => (SEnter x, KNotify l) | _ => (CIdle, KIdle) end.

(** After [Suspend] returns. *)
Definition wake (p : code_t) : code_t := match p.1 with WSuspended _ => ret_wait p.2 | _ => p end.

Definition set_sem (s : state) (k : nat) (m : sem) (f : nat) (c : cell code_t) : state :=
  mk_state (<[k := m]> (sems s)) (waitingQueue s) (holder s) (<[f := c]> (cells s)) (next s).
Definition set_cell (s : state) (f : nat) (c : cell code_t) : state :=
  mk_state (sems s) (waitingQueue s) (holder s) (<[f := c]> (cells s)) (next s).

(** The sections of the semaphore. *)
Definition take_permit (m : sem) : sem :=
  mk_sem (permits m - 1) (maxPermits m) (waitingFibers m) (initial m) (signals m) (passed m + 1) (dropped m).
Definition enqueue (m : sem) (f : nat) : sem :=
  mk_sem (permits m) (maxPermits m) (waitingFibers m ++ [f]) (initial m) (signals m) (passed m) (dropped m).
Definition hand_over (m : sem) (w : list nat) : sem :=
  mk_sem (permits m) (maxPermits m) w (initial m) (signals m + 1) (passed m + 1) (dropped m).
Definition add_permit (m : sem) : sem :=
  if permits m <? maxPermits m
  then mk_sem (permits m + 1) (maxPermits m) (waitingFibers m) (initial m) (signals m + 1) (passed m) (dropped m)
  else mk_sem (permits m) (maxPermits m) (waitingFibers m) (initial m) (signals m + 1) (passed m) (dropped m + 1).

(** [SchedulerSemaphore::Wait] of fiber [f] on [k], its section. *)
Definition semaphore_wait (k : nat) (f : nat) (c : cell code_t) (kk : kont) (s : state) : option state :=
  m ← sems s !! k;
  Some (if 0 <? permits m then set_sem s k (take_permit m) f (set_code c (ret_wait kk))
        else set_sem s k (enqueue m f) f (set_code c (WSuspend k, kk))).

Definition semaphore_try_wait (k : nat) (f : nat) (c : cell code_t) (s : state) : option state :=
  m ← sems s !! k;
  Some (set_sem s k (if 0 <? permits m then take_permit m else m) f (set_code c (CIdle, KIdle))).

(** [while (!Try_Wait())] of a caller that is not on a fiber: one iteration. *)
Definition semaphore_poll (k : nat) (f : nat) (c : cell code_t) (s : state) : option state :=
  m ← sems s !! k;
  Some (if 0 <? permits m then set_sem s k (take_permit m) f (set_code c (CIdle, KIdle)) else s).

(** [SchedulerSemaphore::Signal]: its section, then [Thread::Resume(fiber)]. *)
Definition semaphore_signal (k : nat) (f : nat) (c : cell code_t) (kk : kont) (s : state) : option state :=
  m ← sems s !! k;
  Some (match waitingFibers m with
        | n :: w => set_sem s k (hand_over m w) f (set_code c (SResume n RLoad, kk))
        | [] => set_sem s k (add_permit m) f (set_code c (ret_signal kk))
        end).
Definition resume_fiber (n : nat) (pc : resume_pc) (f : nat) (c : cell code_t) (kk : kont) (s : state) : option state :=
  cn ← cells s !! n;
  let '(cn', pc') := resume pc cn in
  Some (set_cell (set_cell s n cn') f (set_code c (if decide (pc' = RDone) then ret_signal kk else (SResume n pc', kk)))).

(** [SchedulerConditionVariable::Wait] around its semaphore. *)
Definition cv_push (k : nat) (f : nat) (c : cell code_t) (kk : kont) (s : state) : option state :=
  Some (mk_state (sems s) (waitingQueue s ++ [k]) (holder s) (<[f := set_code c (VUnlock, kk)]> (cells s)) (next s)).
Definition cv_unlock (k : nat) (f : nat) (c : cell code_t) (kk : kont) (s : state) : option state :=
  Some (mk_state (sems s) (waitingQueue s) None (<[f := set_code c (WEnter k, kk)]> (cells s)) (next s)).
Definition cv_lock (k : nat) (f : nat) (c : cell code_t) (s : state) : option state :=
  match holder s, sems s !! k with
  | None, Some _ =>
      Some (mk_state (delete k (sems s)) (waitingQueue s) (Some f) (<[f := set_code c (CIdle, KIdle)]> (cells s)) (next s))
  | _, _ => None
  end.

(** [Wait] of a caller that is not on a fiber: [mutex.Unlock], [mutex.Lock]. *)
Definition cv_release (f : nat) (c : cell code_t) (s : state) : state :=
  mk_state (sems s) (waitingQueue s) None (<[f := set_code c (FLock, KIdle)]> (cells s)) (next s).
Definition cv_relock (f : nat) (c : cell code_t) (s : state) : option state :=
  match holder s with
  | None => Some (mk_state (sems s) (waitingQueue s) (Some f) (<[f := set_code c (CIdle, KIdle)]> (cells s)) (next s))
  | Some _ => None
  end.

(** The sections of [Notify_One] and [Notify_All]. *)
Definition cv_notify_one (f : nat) (c : cell code_t) (s : state) : option state :=
  Some (match waitingQueue s with
        | [] => set_cell s f (set_code c (CIdle, KIdle))
        | k :: q => mk_state (sems s) q (holder s) (<[f := set_code c (SEnter k, KNotify [])]> (cells s)) (next s)
        end).
Definition cv_notify_all (f : nat) (c : cell code_t) (s : state) : option state :=
  Some (mk_state (sems s) [] (holder s) (<[f := set_code c (ret_signal (KNotify (waitingQueue s)))]> (cells s)) (next s)).

(** The next action of the code of fiber [f], which must be running. *)
Definition code_step (f : nat) (c : cell code_t) (s : state) : option state :=
  let kk := (code c).2 in
  match (code c).1, kk with
  | CIdle, _ | WSuspended _, _ => None
  | WEnter k, _ => semaphore_wait k f c kk s
  | WSuspend k, _ => Some (set_cell s f (suspend c (WSuspended k, kk)))
  | TEnter k, _ => semaphore_try_wait k f c s
  | TPoll k, _ => semaphore_poll k f c s
  | SEnter k, _ => semaphore_signal k f c kk s
  | SResume n pc, _ => resume_fiber n pc f c kk s
  | VPush, KWait k => cv_push k f c kk s
  | VUnlock, KWait k => cv_unlock k f c kk s
  | VLock, KWait k => cv_lock k f c s
  | FLock, _ => cv_relock f c s
  | NPop, _ => cv_notify_one f c s
  | NAll, _ => cv_notify_all f c s
  | _, _ => None
  end.

Inductive call :=
  | Wait (k : nat) | Try_Wait (k : nat) | Signal (k : nat)     (* a semaphore *)
  | CvWait | Notify_One | Notify_All                           (* the condition variable *)
  | MLock | MUnlock.                                           (* the mutex *)

Inductive action :=
  | Call (f : nat) (x : call)
  | Code (f : nat)
  | Worker (f : nat)                 (* the worker that switched back from f goes on *)
  | Dispatch (f : nat).              (* a worker takes f's task and switches in *)

(** [shared] semaphores are [0 .. shared - 1]; a fiber waits on the condition
    variable, and unlocks, only when it holds the mutex. *)
Definition call_step (shared : nat) (fiber : bool) (f : nat) (c : cell code_t) (x : call) (s : state) : option state :=
  let go p := Some (set_cell s f (set_code c (p, KIdle))) in
  match x with
  | Wait k => if Nat.ltb k shared then go (if fiber then WEnter k else TPoll k) else None
  | Try_Wait k => if Nat.ltb k shared then go (TEnter k) else None
  | Signal k => if Nat.ltb k shared then go (SEnter k) else None
  | CvWait =>
      if decide (holder s = Some f)
      then Some (if fiber
                 then mk_state (<[next s := SchedulerSemaphore 0 1]> (sems s)) (waitingQueue s) (holder s)
                        (<[f := set_code c (VPush, KWait (next s))]> (cells s)) (S (next s))
                 else cv_release f c s)
      else None
  | Notify_One => go NPop
  | Notify_All => go NAll
  | MLock => match holder s with
             | Some _ => None
             | None => Some (mk_state (sems s) (waitingQueue s) (Some f) (cells s) (next s))
             end
  | MUnlock => if decide (holder s = Some f)
               then Some (mk_state (sems s) (waitingQueue s) None (cells s) (next s)) else None
  end.

Definition exec (shared : nat) (onFiber : nat -> bool) (a : action) (s : state) : option state :=
  match a with
  | Call f x =>
      c ← cells s !! f;
      match code c, running c with (CIdle, KIdle), true => call_step shared (onFiber f) f c x s | _, _ => None end
  | Code f => c ← cells s !! f; if running c then code_step f c s else None
  | Worker f => c ← cells s !! f; c' ← worker_step c; Some (set_cell s f c')
  | Dispatch f => c ← cells s !! f; c' ← dispatch wake c; Some (set_cell s f c')
  end.

(** [n] fibers run client code; the shared semaphores are given by their
    constructor arguments. *)
Definition start (n : nat) (shared : list (Z * Z)) : state :=
  mk_state (list_to_map (imap (fun i x => (i, SchedulerSemaphore x.1 x.2)) shared)) [] None
    (replicate n (mk_cell (CIdle, KIdle) RUNNING (Some WRunning) false)) (length shared).

(** ** Parking and permits *)

Definition waitq (m : gmap nat sem) (k : nat) : list nat := from_option waitingFibers [] (m !! k).

Definition waits_at (k : nat) (p : code_t) : Prop := p.1 = WSuspend k \/ p.1 = WSuspended k.

Record sem_ok (m : sem) : Prop := {
  so_bounds : 0 <= permits m <= maxPermits m;
  so_sum : permits m + passed m + dropped m = initial m + signals m;
  so_pos : 0 <= passed m /\ 0 <= dropped m /\ 0 <= signals m;
  so_empty : waitingFibers m <> [] -> permits m = 0;
  so_nodup : NoDup (waitingFibers m)
}.

Definition resumes (p : code_t) (n : nat) : Prop := exists pc, p.1 = SResume n pc.

(** A thread in [Resume] of [n]: it has taken [n] out of its semaphore's queue. *)
Definition resumer_ok (m : gmap nat sem) (cs : list (cell code_t)) (n : nat) (pc : resume_pc) : Prop :=
  exists c k, cs !! n = Some c /\ waits_at k (code c) /\ (n ∉ waitq m k) /\ resume_ok at_point pc c.

Record inv (s : state) : Prop := {
  i_cells : forall f c, cells s !! f = Some c -> cell_ok at_point c;
  i_sems : forall k m, sems s !! k = Some m -> sem_ok m;
  i_queue : forall k f, f ∈ waitq (sems s) k ->
    exists c, cells s !! f = Some c /\ waits_at k (code c) /\ unsignaled at_point c;
  i_resumers : forall g c n pc, cells s !! g = Some c -> (code c).1 = SResume n pc -> resumer_ok (sems s) (cells s) n pc;
  i_one : forall g g' c c' n, cells s !! g = Some c -> cells s !! g' = Some c' ->
    resumes (code c) n -> resumes (code c') n -> g = g'
}.

Lemma waits_point k p : waits_at k p -> at_point p <> Elsewhere.
Proof. unfold at_point. by intros [-> | ->]. Qed.
Lemma waits_inj k k' p : waits_at k p -> waits_at k' p -> k = k'.
Proof. unfold waits_at. intros [H|H] [H'|H']; congruence. Qed.
Lemma unsignaled_point c : unsignaled at_point c -> at_point (code c) <> Elsewhere.
Proof. by intros [-> |[[-> | ->] _]]. Qed.
Lemma resume_ok_point pc c : resume_ok at_point pc c -> at_point (code c) <> Elsewhere.
Proof. destruct pc; cbn; [apply unsignaled_point|by intros [-> _]|by intros [?%unsignaled_point _]|by intros (-> & _)|done]. Qed.
Lemma resumer_point m cs n pc c : resumer_ok m cs n pc -> cs !! n = Some c -> at_point (code c) <> Elsewhere.
Proof. intros (c' & k & Hc & Hw & _) Hc'. simplify_eq. by eapply waits_point. Qed.

(** One fiber's cell and the semaphores change.  [c'] is either away from the
    queues, or waits where it did. *)
Lemma sync_inv_update s f c c' m' q h x :
  inv s -> cells s !! f = Some c -> cell_ok at_point c' ->
  (forall k m, m' !! k = Some m -> sem_ok m) ->
  (forall k g, g ∈ waitq m' k -> g <> f -> g ∈ waitq (sems s) k) ->
  (forall k, f ∈ waitq m' k -> waits_at k (code c') /\ unsignaled at_point c') ->
  (forall n pc, (code c').1 = SResume n pc -> n <> f /\ resumer_ok m' (cells s) n pc /\
     forall g d, g <> f -> cells s !! g = Some d -> ~ resumes (code d) n) ->
  (at_point (code c) = Elsewhere \/ (forall g d, cells s !! g = Some d -> ~ resumes (code d) f) \/
   (forall k, waits_at k (code c) -> waits_at k (code c')) /\ (forall k, f ∈ waitq m' k -> f ∈ waitq (sems s) k) /\
   forall pc, resume_ok at_point pc c -> resume_ok at_point pc c') ->
  inv (mk_state m' q h (<[f := c']> (cells s)) x).
Proof.
  intros HI Hf Hok Hsem Hq Hqf Hres Hown. assert (Hlt : (f < length (cells s))%nat) by by eapply lookup_lt_Some.
  constructor; cbn.
  - intros g d [(-> & <- & _)|[_ Hg]]%list_lookup_insert_Some; [done|by eapply i_cells].
  - done.
  - intros k g Hg. destruct (decide (g = f)) as [->|Hne].
    + exists c'. rewrite list_lookup_insert_eq by done. split; [done|by apply Hqf].
    + rewrite list_lookup_insert_ne by done. apply (i_queue s HI). by apply Hq.
  - intros g d n pc Hg Hd. apply list_lookup_insert_Some in Hg as [(-> & <- & _)|[Hne Hg]].
    + destruct (Hres n pc Hd) as (Hnf & (cn & k & H1 & H2) & _). exists cn, k. by rewrite list_lookup_insert_ne.
    + destruct (i_resumers s HI g d n pc Hg Hd) as (cn & k & H1 & H2 & H3 & H4). destruct (decide (n = f)) as [->|Hnf].
      * simplify_eq. destruct Hown as [He|[Hno|(Hcode & Hq' & Hro)]].
        -- by apply waits_point in H2.
        -- exfalso. apply (Hno g d Hg). by eexists.
        -- exists c', k. rewrite list_lookup_insert_eq by done. split_and!; auto.
      * exists cn, k. rewrite list_lookup_insert_ne by done. split_and!; try done. intros Hin. apply H3. by apply Hq.
  - intros g g' d d' n Hg Hg' Hn Hn'.
    apply list_lookup_insert_Some in Hg as [(-> & <- & _)|[Hne Hg]];
      apply list_lookup_insert_Some in Hg' as [(-> & <- & _)|[Hne' Hg']]; [done| | |by eapply (i_one s HI)].
    + destruct Hn as [pc Hn]. destruct (Hres n pc Hn) as (_ & _ & H). exfalso. by apply (H g' d').
    + destruct Hn' as [pc Hn']. destruct (Hres n pc Hn') as (_ & _ & H). exfalso. by apply (H g d).
Qed.

Lemma elsewhere_unqueued s f c k : inv s -> cells s !! f = Some c -> at_point (code c) = Elsewhere -> f ∉ waitq (sems s) k.
Proof.
  intros HI Hf He Hin. destruct (i_queue s HI k f Hin) as (c' & Hc' & Hw & _). simplify_eq. by apply waits_point in Hw.
Qed.

Definition plain (p : code_t) : Prop := at_point p = Elsewhere /\ forall n, ~ resumes p n.

(** A fiber moves between plain points; the queues lose entries at most. *)
Lemma sync_inv_plain s f c p m' q h x :
  inv s -> cells s !! f = Some c -> at_point (code c) = Elsewhere -> plain p ->
  (forall k m, m' !! k = Some m -> sem_ok m) -> (forall k g, g ∈ waitq m' k -> g ∈ waitq (sems s) k) ->
  inv (mk_state m' q h (<[f := set_code c p]> (cells s)) x).
Proof.
  intros HI Hf He [Hp1 Hp2] Hsem Hq. eapply sync_inv_update; try done.
  - apply cell_ok_set_code; [by eapply i_cells|by left|by left].
  - intros k g Hg _. by apply Hq.
  - intros k Hin. exfalso. by eapply (elsewhere_unqueued s f c k), Hq.
  - intros n pc Hr. exfalso. apply (Hp2 n). by eexists.
  - by left.
Qed.

Lemma ret_wait_plain kk : plain (ret_wait kk).
Proof. destruct kk; split; try done; intros n [pc H]; done. Qed.
Lemma ret_signal_plain kk : plain (ret_signal kk).
Proof. destruct kk as [| |[|x l]]; split; try done; intros n [pc H]; done. Qed.

Lemma waitq_insert m k v j : waitq (<[k := v]> m) j = if decide (k = j) then waitingFibers v else waitq m j.
Proof. unfold waitq. case_decide as E; [subst; by rewrite lookup_insert_eq|by rewrite lookup_insert_ne]. Qed.
Lemma waitq_lookup m k v : m !! k = Some v -> waitq m k = waitingFibers v.
Proof. unfold waitq. by intros ->. Qed.

Lemma sems_insert s k v : inv s -> sem_ok v -> forall j m, <[k := v]> (sems s) !! j = Some m -> sem_ok m.
Proof. intros HI Hv j m [[_ <-]|[_ Hj]]%lookup_insert_Some; [done|by eapply i_sems]. Qed.

Lemma take_permit_ok m : sem_ok m -> 0 < permits m -> sem_ok (take_permit m).
Proof. intros [H1 H2 H3 H4 H5] Hp. constructor; cbn; try done; try lia. intros Hw. specialize (H4 Hw). lia. Qed.
Lemma add_permit_ok m : sem_ok m -> waitingFibers m = [] -> sem_ok (add_permit m).
Proof.
  intros [H1 H2 H3 H4 H5] Hw. unfold add_permit. destruct (Z.ltb_spec (permits m) (maxPermits m)); constructor; cbn; try done; lia.
Qed.
Lemma hand_over_ok m n w : sem_ok m -> waitingFibers m = n :: w -> sem_ok (hand_over m w).
Proof.
  intros [H1 H2 H3 H4 H5] Hw. rewrite Hw in *. inversion H5; subst.
  constructor; cbn; try done; try lia. intros _. by apply H4.
Qed.
Lemma enqueue_ok m f : sem_ok m -> permits m <= 0 -> f ∉ waitingFibers m -> sem_ok (enqueue m f).
Proof.
  intros [H1 H2 H3 H4 H5] Hp Hf. constructor; cbn; try done; try lia.
  apply NoDup_app. split; [done|]. split; [|apply NoDup_singleton]. by intros x Hx ->%list_elem_of_singleton.
Qed.

(** A semaphore's record changes, its queue does not. *)
Lemma sync_inv_plain_sem s f c p k m v :
  inv s -> cells s !! f = Some c -> at_point (code c) = Elsewhere -> plain p -> sems s !! k = Some m -> sem_ok v ->
  waitingFibers v = waitingFibers m -> inv (set_sem s k v f (set_code c p)).
Proof.
  intros HI Hf He Hp Hk Hv Hw. apply sync_inv_plain; try done; [by apply sems_insert|].
  intros j g. rewrite waitq_insert. case_decide; [subst|done]. by rewrite Hw, <- (waitq_lookup _ _ _ Hk).
Qed.

Lemma sync_inv_enqueue s f c k kk m :
  inv s -> cells s !! f = Some c -> at_point (code c) = Elsewhere -> sems s !! k = Some m -> permits m <= 0 ->
  inv (set_sem s k (enqueue m f) f (set_code c (WSuspend k, kk))).
Proof.
  intros HI Hf He Hk Hp. pose proof (elsewhere_unqueued s f c k HI Hf He) as Hno.
  assert (Hwk := waitq_lookup _ _ _ Hk). eapply sync_inv_update; try done.
  - destruct (cell_ok_running at_point c) as (H1 & H2 & H3); [by eapply i_cells|by left|]. by unfold cell_ok.
  - apply sems_insert; [done|]. apply enqueue_ok; [by eapply i_sems|done|by rewrite <- Hwk].
  - intros j g. rewrite waitq_insert. case_decide as E; [subst|done]. cbn. rewrite Hwk, elem_of_app, list_elem_of_singleton. tauto.
  - intros j. rewrite waitq_insert. case_decide as E; [subst; intros _; split; [by left|by left]|].
    intros Hin. exfalso. by apply (elsewhere_unqueued s f c j HI Hf He).
  - by left.
Qed.

Lemma sync_inv_hand_over s f c k kk m n w :
  inv s -> cells s !! f = Some c -> at_point (code c) = Elsewhere -> sems s !! k = Some m -> waitingFibers m = n :: w ->
  inv (set_sem s k (hand_over m w) f (set_code c (SResume n RLoad, kk))).
Proof.
  intros HI Hf He Hk Hw. assert (Hwk := waitq_lookup _ _ _ Hk). pose proof (i_sems s HI k m Hk) as Hm.
  assert (Hn : n ∈ waitq (sems s) k) by (rewrite Hwk, Hw; by left).
  destruct (i_queue s HI k n Hn) as (cn & Hcn & Hwn & Hun).
  assert (Hnd : n ∉ w) by (destruct Hm as [_ _ _ _ H]; rewrite Hw in H; by inversion H).
  eapply sync_inv_update; try done.
  - apply cell_ok_set_code; [by eapply i_cells|by left|by left].
  - apply sems_insert; [done|by eapply hand_over_ok].
  - intros j g. rewrite waitq_insert. case_decide as E; [subst|done]. cbn. rewrite Hwk, Hw. intros ? _. by right.
  - intros j. rewrite waitq_insert. case_decide as E; [subst|intros Hin; exfalso; by apply (elsewhere_unqueued s f c j HI Hf He)].
    cbn. intros Hin. exfalso. eapply (elsewhere_unqueued s f c j HI Hf He). rewrite Hwk, Hw. by right.
  - intros n' pc [= <- <-]. split; [intros ->; simplify_eq; by apply waits_point in Hwn|]. split.
    + exists cn, k. split_and!; try done. by rewrite waitq_insert, decide_True.
    + intros g d Hg Hd [pc Hr]. destruct (i_resumers s HI g d n pc Hd Hr) as (cn' & k' & H1 & H2 & H3 & _).
      simplify_eq. by rewrite (waits_inj k' k (code cn)) in H3.
  - by left.
Qed.

Lemma sync_inv_suspend s f (c : cell code_t) k kk :
  inv s -> cells s !! f = Some c -> code c = (WSuspend k, kk) -> inv (set_cell s f (suspend c (WSuspended k, kk))).
Proof.
  intros HI Hf Hc. destruct (suspend_ok at_point c (WSuspended k, kk)) as [H1 H2]; [by eapply i_cells|unfold at_point; by rewrite Hc|done|].
  eapply sync_inv_update; try done.
  - intros j m. apply (i_sems s HI).
  - intros j Hin. split; [|done]. destruct (i_queue s HI j f Hin) as (c0 & Hc0 & Hw & _). simplify_eq.
    right. destruct Hw as [Hw|Hw]; rewrite Hc in Hw; cbn in Hw |- *; congruence.
  - right. right. split; [|split; [done|]].
    + intros j [Hw|Hw]; rewrite Hc in Hw; cbn in Hw; [|done]. right. cbn. congruence.
    + intros pc Hr. destruct pc; cbn in Hr |- *; rewrite ?Hc in Hr; cbn in Hr; try done; by destruct Hr.
Qed.

(** A change of a cell that keeps its code. *)
Lemma sync_inv_same_code s f c c' :
  inv s -> cells s !! f = Some c -> cell_ok at_point c' -> code c' = code c -> at_point (code c) = Inside ->
  (unsignaled at_point c -> unsignaled at_point c') ->
  ((forall g d, cells s !! g = Some d -> ~ resumes (code d) f) \/ (forall pc, resume_ok at_point pc c -> resume_ok at_point pc c')) ->
  inv (set_cell s f c').
Proof.
  intros HI Hf Hok Hcode Hpt Hun Hor. eapply sync_inv_update; try done.
  - intros j m. apply (i_sems s HI).
  - intros j Hin. rewrite Hcode. destruct (i_queue s HI j f Hin) as (c0 & Hc0 & Hw & Hu). simplify_eq. auto.
  - intros n pc Hr. exfalso. rewrite Hcode in Hr. unfold at_point in Hpt. rewrite Hr in Hpt. done.
  - right. destruct Hor as [?|?]; [by left|right]. rewrite Hcode. auto.
Qed.

Lemma sync_inv_worker s f c c' : inv s -> cells s !! f = Some c -> worker_step c = Some c' -> inv (set_cell s f c').
Proof.
  intros HI Hf Hs. destruct (worker_step_ok at_point c c') as (H1 & H2 & H3 & H4 & H5); [by eapply i_cells|done|].
  eapply sync_inv_same_code; try done. by right.
Qed.

Lemma wake_plain p : at_point p = Inside -> exists k kk, p = (WSuspended k, kk) /\ wake p = ret_wait kk.
Proof. destruct p as [[] kk]; cbn; try done. eauto. Qed.

Lemma sync_inv_dispatch s f c c' : inv s -> cells s !! f = Some c -> dispatch wake c = Some c' -> inv (set_cell s f c').
Proof.
  intros HI Hf Hs. destruct (dispatch_ok at_point wake c c') as (H1 & H2 & H3 & H4 & H5); [by eapply i_cells|done|].
  destruct (wake_plain _ H1) as (k & kk & Hc & Hw). destruct (ret_wait_plain kk) as [Hp1 Hp2]. rewrite <- Hw in Hp1, Hp2.
  eapply sync_inv_update; try done.
  - apply H5. by left.
  - intros j m. apply (i_sems s HI).
  - intros j Hin. exfalso. destruct (i_queue s HI j f Hin) as (c0 & Hc0 & _ & Hu). by simplify_eq.
  - intros n pc Hr. exfalso. apply (Hp2 n). exists pc. by rewrite <- H2.
  - right. left. intros g d Hg [pc Hr]. destruct (i_resumers s HI g d f pc Hg Hr) as (c0 & j & Hc0 & _ & _ & Hro).
    simplify_eq. by apply (H4 pc).
Qed.

(** A step of [Resume] changes the cell of a fiber [n] that no thread is recorded
    as resuming and that is out of its queue. *)
Lemma sync_inv_resumed s n pc pc' cn cn' k :
  inv s -> cells s !! n = Some cn -> waits_at k (code cn) -> (n ∉ waitq (sems s) k) ->
  (forall g d, cells s !! g = Some d -> ~ resumes (code d) n) ->
  resume_ok at_point pc cn -> resume pc cn = (cn', pc') -> inv (set_cell s n cn').
Proof.
  intros HI Hn Hw Hq Hno Hro Hr.
  destruct (resume_step_ok at_point pc pc' cn cn') as (R1 & R2 & _); [by eapply i_cells|done|done|].
  assert (Hcase : cn' = cn \/ at_point (code cn) = Inside).
  { destruct (at_point (code cn)) eqn:Ea; [by apply waits_point in Hw| |by destruct Hw as [Hw|Hw]; unfold at_point in Ea; rewrite Hw in Ea|by right]. left.
    destruct (cell_ok_running at_point cn) as (E1 & _ & _); [by eapply i_cells|by right|].
    unfold resume in Hr. rewrite E1 in Hr. destruct pc; cbn in Hro; try (destruct Hro; congruence).
    simpl in Hr. injection Hr as <- _. rewrite <- E1. by destruct cn. }
  destruct Hcase as [-> |Hin].
  - unfold set_cell. rewrite list_insert_id by done. by destruct s.
  - eapply (sync_inv_update s n cn); try done.
    + apply (i_sems s HI).
    + intros j Hjn. exfalso. destruct (i_queue s HI j n Hjn) as (d & Hd & Hwd & _). simplify_eq.
      by rewrite (waits_inj j k (code cn)) in Hjn.
    + intros m pc0 Hm. exfalso. rewrite R2 in Hm. unfold at_point in Hin. by rewrite Hm in Hin.
    + right. by left.
Qed.

(** [f] takes up the resumption of [n]. *)
Lemma sync_inv_resumer s f (c : cell code_t) n pc kk :
  inv s -> cells s !! f = Some c -> plain (code c) -> n <> f -> resumer_ok (sems s) (cells s) n pc ->
  (forall g d, cells s !! g = Some d -> ~ resumes (code d) n) -> inv (set_cell s f (set_code c (SResume n pc, kk))).
Proof.
  intros HI Hf [Hp _] Hnf Hro Hno. eapply (sync_inv_update s f c); try done.
  - apply cell_ok_set_code; [by apply (i_cells s HI f)|by left|by left].
  - apply (i_sems s HI).
  - intros j Hin. exfalso. by apply (elsewhere_unqueued s f c j HI Hf).
  - intros n' pc0 [= <- <-]. split; [done|]. split; [done|]. intros g d _. apply Hno.
  - by left.
Qed.

(** One step of [Resume], called by [f] on [n]: [f] leaves it, [n] changes, and
    unless it was the last step [f] is back inside. *)
Lemma sync_inv_resume s f (c : cell code_t) n pc kk cn cn' pc' :
  inv s -> cells s !! f = Some c -> code c = (SResume n pc, kk) -> cells s !! n = Some cn -> resume pc cn = (cn', pc') ->
  inv (set_cell (set_cell s n cn') f (set_code c (if decide (pc' = RDone) then ret_signal kk else (SResume n pc', kk)))).
Proof.
  intros HI Hf Hc Hn Hr. destruct (i_resumers s HI f c n pc Hf) as (c0 & k & Hc0 & Hw & Hq & Hro); [by rewrite Hc|].
  simplify_eq. destruct (resume_step_ok at_point pc pc' cn cn') as (R1 & R2 & R3); [by eapply i_cells|done|done|].
  assert (Hnf : n <> f) by (intros ->; simplify_eq; apply waits_point in Hw; by rewrite Hc in Hw).
  assert (Hlf : (f < length (cells s))%nat) by by eapply lookup_lt_Some.
  assert (Hln : (n < length (cells s))%nat) by by eapply lookup_lt_Some.
  set (s1 := set_cell s f (set_code c (ret_signal kk))).
  assert (HI1 : inv s1).
  { apply sync_inv_plain; try done; [by rewrite Hc|apply ret_signal_plain|by apply (i_sems s HI)]. }
  assert (Hno1 : forall g d, cells s1 !! g = Some d -> ~ resumes (code d) n).
  { intros g d [(-> & <- & _)|[Hne Hg]]%list_lookup_insert_Some; [apply ret_signal_plain|]. intros Hrd.
    apply Hne, (i_one s HI f g c d n Hf Hg); [exists pc; by rewrite Hc|done]. }
  set (s2 := set_cell s1 n cn').
  assert (HI2 : inv s2).
  { apply (sync_inv_resumed s1 n pc pc' cn cn' k); try done. cbn. by rewrite list_lookup_insert_ne. }
  assert (Hswap : forall p, set_cell (set_cell s n cn') f (set_code c p) = set_cell s2 f (set_code (set_code c (ret_signal kk)) p)).
  { intros p. unfold s2, s1, set_cell. cbn. rewrite (list_insert_insert_ne _ n f) by done. by rewrite list_insert_insert_eq. }
  assert (Hf2 : cells s2 !! f = Some (set_code c (ret_signal kk))).
  { cbn. rewrite list_lookup_insert_ne by done. by rewrite list_lookup_insert_eq. }
  rewrite Hswap. case_decide as Hpc.
  - apply sync_inv_plain; try done; [apply ret_signal_plain..|apply (i_sems s2 HI2)].
  - apply sync_inv_resumer; try done; [apply ret_signal_plain|..].
    + exists cn', k. cbn. rewrite list_lookup_insert_eq by (by rewrite length_insert). rewrite R2. auto.
    + cbn. intros g d [(-> & <- & _)|[_ Hg]]%list_lookup_insert_Some; [|by apply (Hno1 g)].
      rewrite R2. apply (Hno1 g). cbn. by rewrite list_lookup_insert_ne.
Qed.

Lemma sync_inv_other s q h x : inv s -> inv (mk_state (sems s) q h (cells s) x).
Proof. intros []. by constructor. Qed.

Ltac solve_plain := first [apply ret_wait_plain|apply ret_signal_plain|split; [done|intros ? [? ?]; done]].

(** A fiber moves between plain points and the semaphores stay. *)
Lemma sync_inv_move s f c p q h x :
  inv s -> cells s !! f = Some c -> at_point (code c) = Elsewhere -> plain p ->
  inv (mk_state (sems s) q h (<[f := set_code c p]> (cells s)) x).
Proof. intros HI Hf He Hp. apply sync_inv_plain; try done. apply (i_sems s HI). Qed.

Ltac unfold_code :=
  unfold code_step, semaphore_wait, semaphore_try_wait, semaphore_poll, semaphore_signal, resume_fiber, cv_push, cv_unlock, cv_lock,
    cv_relock, cv_notify_one, cv_notify_all.

Lemma sync_inv_code_step s f c s' : inv s -> cells s !! f = Some c -> code_step f c s = Some s' -> inv s'.
Proof.
  intros HI Hf. unfold_code. destruct (code c) as [p kk] eqn:Hc. cbn [fst snd].
  assert (He : forall p, code c = (p, kk) -> (forall k, p <> WSuspend k) -> (forall k, p <> WSuspended k) -> at_point (code c) = Elsewhere).
  { intros p0 E H1 H2. rewrite E. destruct p0; try done; [by destruct (H1 k)|by destruct (H2 k)]. }
  specialize (He p Hc). destruct p.
  - done.
  - destruct (sems s !! k) as [m|] eqn:Hk; [|done]. cbn. pose proof (i_sems s HI k m Hk) as Hm.
    destruct (Z.ltb_spec 0 (permits m)); intros [= <-].
    + eapply sync_inv_plain_sem; try done; [by apply He|solve_plain|by apply take_permit_ok].
    + apply sync_inv_enqueue; try done. by apply He.
  - intros [= <-]. by apply sync_inv_suspend.
  - done.
  - destruct (sems s !! k) as [m|] eqn:Hk; [|done]. cbn. pose proof (i_sems s HI k m Hk) as Hm. intros [= <-].
    eapply sync_inv_plain_sem; try done; [by apply He|solve_plain| |]; destruct (Z.ltb_spec 0 (permits m)); try done. by apply take_permit_ok.
  - destruct (sems s !! k) as [m|] eqn:Hk; [|done]. cbn. pose proof (i_sems s HI k m Hk) as Hm.
    destruct (Z.ltb_spec 0 (permits m)); intros [= <-]; [|done].
    eapply sync_inv_plain_sem; try done; [by apply He|solve_plain|by apply take_permit_ok].
  - destruct (sems s !! k) as [m|] eqn:Hk; [|done]. cbn. pose proof (i_sems s HI k m Hk) as Hm.
    destruct (waitingFibers m) as [|n w] eqn:Hw; intros [= <-].
    + eapply sync_inv_plain_sem; try done; [by apply He|solve_plain|by apply add_permit_ok|].
      unfold add_permit. by destruct (permits m <? maxPermits m).
    + eapply sync_inv_hand_over; try done. by apply He.
  - destruct (cells s !! n) as [cn|] eqn:Hn; [|done]. cbn. destruct (resume pc cn) as [cn' pc'] eqn:Hr. intros [= <-].
    by apply (sync_inv_resume s f c n pc kk cn).
  - destruct kk; try done. intros [= <-]. apply sync_inv_move; try done; [by apply He|solve_plain].
  - destruct kk; try done. intros [= <-]. apply sync_inv_move; try done; [by apply He|solve_plain].
  - destruct kk; try done. destruct (holder s); [done|]. destruct (sems s !! k) eqn:Hk; [|done]. intros [= <-].
    apply sync_inv_plain; try done; [by apply He|solve_plain| |].
    + intros j m [_ Hj]%lookup_delete_Some. by eapply i_sems.
    + intros j g. unfold waitq. destruct (delete k (sems s) !! j) eqn:E; [|by intros ?%not_elem_of_nil].
      apply lookup_delete_Some in E as [_ ->]. done.
  - destruct (holder s); [done|]. intros [= <-]. apply sync_inv_move; try done; [by apply He|solve_plain].
  - intros [= <-]. destruct (waitingQueue s); apply sync_inv_move; try done; (try by apply He); solve_plain.
  - intros [= <-]. destruct (waitingQueue s); apply sync_inv_move; try done; (try by apply He); solve_plain.
Qed.

Lemma sync_inv_exec shared onFiber a s s' : inv s -> exec shared onFiber a s = Some s' -> inv s'.
Proof.
  intros HI. destruct a as [f x|f|f|f]; cbn [exec]; destruct (cells s !! f) as [c|] eqn:Hf; cbn [mbind option_bind]; try done.
  - destruct (code c) as [[] []] eqn:Hc; try done. destruct (running c); [|done].
    assert (He : at_point (code c) = Elsewhere) by by rewrite Hc.
    assert (Hgo : forall p h q n, plain (p, KIdle) ->
      inv (mk_state (sems s) q h (<[f := set_code c (p, KIdle)]> (cells s)) n)) by (intros; by apply sync_inv_move).
    destruct x; cbn [call_step]; try (destruct (Nat.ltb k shared); [|done]); try (intros [= <-]; apply Hgo; solve_plain).
    + intros [= <-]. apply Hgo. by destruct (onFiber f); solve_plain.
    + case_decide; [|done]. intros [= <-]. destruct (onFiber f); [|apply sync_inv_move; try done; solve_plain]. apply sync_inv_plain; try done; [solve_plain| |].
      * apply sems_insert; [done|]. constructor; cbn; try done; try lia. apply NoDup_nil_2.
      * intros j g. rewrite waitq_insert. case_decide; [by intros ?%not_elem_of_nil|done].
    + destruct (holder s); [done|]. intros [= <-]. by apply sync_inv_other.
    + case_decide; [|done]. intros [= <-]. by apply sync_inv_other.
  - destruct (running c); [|done]. by apply sync_inv_code_step.
  - destruct (worker_step c) as [c'|] eqn:E; [|done]. intros [= <-]. by eapply sync_inv_worker.
  - destruct (dispatch wake c) as [c'|] eqn:E; [|done]. intros [= <-]. by eapply sync_inv_dispatch.
Qed.

Definition good_args (shared : list (Z * Z)) : Prop := Forall (fun x => 0 <= x.1 <= x.2) shared.

Lemma start_sem n shared k m : sems (start n shared) !! k = Some m ->
  exists x, shared !! k = Some x /\ m = SchedulerSemaphore x.1 x.2.
Proof.
  cbn. intros H%elem_of_list_to_map_2. apply elem_of_lookup_imap in H as (i & x & E & Hx). simplify_eq. eauto.
Qed.

Lemma sync_inv_start n shared : good_args shared -> inv (start n shared).
Proof.
  intros Hg. assert (Hcell : forall f c, cells (start n shared) !! f = Some c -> c = mk_cell (CIdle, KIdle) RUNNING (Some WRunning) false).
  { cbn. intros f c H. by apply lookup_replicate in H as [-> _]. }
  assert (Hsem : forall k m, sems (start n shared) !! k = Some m -> sem_ok m /\ waitingFibers m = []).
  { intros k m (x & Hx & ->)%start_sem. unfold good_args in Hg. rewrite Forall_lookup in Hg. specialize (Hg k x Hx).
    split; [|done]. constructor; cbn; try done; try lia. apply NoDup_nil_2. }
  constructor.
  - intros f c ->%Hcell. done.
  - intros k m Hk. by apply (Hsem k m).
  - intros k f Hin. exfalso. unfold waitq in Hin. destruct (sems (start n shared) !! k) as [m|] eqn:E; cbn in Hin.
    + destruct (Hsem k m E) as [_ Hw]. rewrite Hw in Hin. by apply not_elem_of_nil in Hin.
    + by apply not_elem_of_nil in Hin.
  - intros g c m pc ->%Hcell. done.
  - intros g g' c c' m ->%Hcell. by intros _ [pc H].
Qed.

Lemma sync_inv_reached n shared onFiber s : good_args shared -> reaches (exec (length shared) onFiber) (start n shared) s -> inv s.
Proof. intros Hg. apply reaches_invariant; [intros; by eapply sync_inv_exec|by apply sync_inv_start]. Qed.

(** ** The condition variable's local semaphores *)

(** The semaphores a fiber has taken out of the queue and has still to signal. *)
Definition pend (p : code_t) : list nat :=
  match p.2 with
  | KNotify l => match p.1 with SEnter k => k :: l | _ => l end
  | _ => []
  end.
Definition tokens (s : state) : list nat := waitingQueue s ++ (cells s ≫= (fun c => pend (code c))).

Definition local_of (p : code_t) : option nat := match p.2 with KWait k => Some k | _ => None end.

(** Which calls can be in which. *)
Definition shape (shared : nat) (p : code_t) : Prop :=
  match p.1, p.2 with
  | CIdle, KIdle | FLock, KIdle | NPop, KIdle | NAll, KIdle => True
  | (WEnter k | WSuspend k | WSuspended k), KWait k' => k = k'
  | (WEnter k | WSuspend k | WSuspended k | TEnter k | SEnter k | TPoll k), KIdle => (k < shared)%nat
  | (SEnter _ | SResume _ _), KNotify _ | SResume _ _, KIdle => True
  | (VPush | VUnlock | VLock), KWait _ => True
  | _, _ => False
  end.

(** The local semaphore of [f] at [p], when [t] references to it are in the queue
    or with notifiers: it is signaled once, by the notifier that took it out. *)
Definition local_ok (t : nat) (f : nat) (p : code_t) (m : sem) : Prop :=
  initial m = 0 /\
  match p.1 with
  | VPush => t = 0%nat /\ signals m = 0
  | VLock => t = 0%nat /\ signals m = 1
  | WSuspend _ | WSuspended _ => Z.of_nat t + signals m = 1 /\ (f ∉ waitingFibers m -> signals m = 1)
  | _ => Z.of_nat t + signals m = 1
  end.

Section Locals.
Context (shared : nat).

Record locals (s : state) : Prop := {
  b_next : (shared <= next s)%nat /\ forall k, is_Some (sems s !! k) -> (k < next s)%nat;
  b_shape : forall f c, cells s !! f = Some c -> shape shared (code c);
  b_shared : forall k, (k < shared)%nat -> is_Some (sems s !! k);
  b_local : forall f c k, cells s !! f = Some c -> local_of (code c) = Some k ->
    (shared <= k)%nat /\ exists m, sems s !! k = Some m /\ local_ok (occ k (tokens s)) f (code c) m;
  b_unique : forall f f' c c' k, cells s !! f = Some c -> cells s !! f' = Some c' ->
    local_of (code c) = Some k -> local_of (code c') = Some k -> f = f';
  b_tokens : forall k, (0 < occ k (tokens s))%nat -> exists f c, cells s !! f = Some c /\ local_of (code c) = Some k
}.

Lemma occ_tokens s f c c' m q h x k :
  cells s !! f = Some c ->
  (occ k (tokens (mk_state m q h (<[f := c']> (cells s)) x)) + (occ k (waitingQueue s) + occ k (pend (code c))) =
   occ k (tokens s) + (occ k q + occ k (pend (code c'))))%nat.
Proof. intros Hf. unfold tokens. cbn. rewrite !occ_app. pose proof (occ_bind_insert k (fun c => pend (code c)) (cells s) f c c' Hf). lia. Qed.

(** One fiber moves, and the semaphores and the queue change. *)
Lemma locals_update s f c c' m' q h x :
  locals s -> cells s !! f = Some c -> shape shared (code c') ->
  let s' := mk_state m' q h (<[f := c']> (cells s)) x in
  (next s <= x)%nat -> (forall k, is_Some (m' !! k) -> (k < x)%nat) ->
  (forall k, (k < shared)%nat -> is_Some (m' !! k)) ->
  (forall k, local_of (code c') = Some k -> (local_of (code c) = Some k \/ (next s <= k)%nat) /\
     exists m, m' !! k = Some m /\ local_ok (occ k (tokens s')) f (code c') m) ->
  (forall g d k, g <> f -> cells s !! g = Some d -> local_of (code d) = Some k ->
     exists m, m' !! k = Some m /\ local_ok (occ k (tokens s')) g (code d) m) ->
  (forall k, (0 < occ k (tokens s'))%nat ->
     local_of (code c') = Some k \/ (0 < occ k (tokens s))%nat /\ local_of (code c) <> Some k) ->
  locals s'.
Proof.
  intros HB Hf Hsh s' Hx Hkeys Hshared Hloc Hoth Htok.
  assert (Hlt : (f < length (cells s))%nat) by by eapply lookup_lt_Some.
  destruct (b_next s HB) as [N1 N2]. constructor; cbn.
  - split; [lia|done].
  - intros g d [(<- & <- & _)|[_ Hg]]%list_lookup_insert_Some; [done|by eapply b_shape].
  - done.
  - intros g d k [(<- & <- & _)|[Hne Hg]]%list_lookup_insert_Some Hk.
    + destruct (Hloc k Hk) as ([Ho|Ho] & Hm); [|split; [lia|done]]. split; [|done]. by eapply (b_local s HB f).
    + split; [by eapply (b_local s HB g)|]. by apply (Hoth g).
  - intros g g' d d' k Hg Hg' Hk Hk'.
    assert (Hnew : forall g d, g <> f -> cells s !! g = Some d -> local_of (code d) = Some k -> local_of (code c') = Some k -> False).
    { intros g0 d0 Hne Hg0 Hd0 Hc'. destruct (Hloc k Hc') as ([Ho|Ho] & _).
      - apply Hne. by apply (b_unique s HB g0 f d0 c k).
      - destruct (b_local s HB g0 d0 k Hg0 Hd0) as (_ & m & Hm & _). specialize (N2 k ltac:(by eexists)). lia. }
    apply list_lookup_insert_Some in Hg as [(<- & <- & _)|[Hne Hg]];
      apply list_lookup_insert_Some in Hg' as [(<- & <- & _)|[Hne' Hg']]; [done| | |by eapply (b_unique s HB)].
    + exfalso. by eapply (Hnew g').
    + exfalso. by eapply (Hnew g).
  - intros k Hk. destruct (Htok k Hk) as [Hc'|[Hold Hne]].
    + exists f, c'. by rewrite list_lookup_insert_eq.
    + destruct (b_tokens s HB k Hold) as (g & d & Hg & Hd). exists g, d.
      rewrite list_lookup_insert_ne; [done|]. intros <-. by simplify_eq.
Qed.

(** The semaphore [k0] changes, nothing moves in the queue: [k0] is shared, or the
    fiber's own. *)
Lemma locals_own s f c c' m' h k0 :
  locals s -> cells s !! f = Some c -> shape shared (code c') -> pend (code c') = pend (code c) ->
  (forall k, is_Some (m' !! k) <-> is_Some (sems s !! k)) -> (forall k, k <> k0 -> m' !! k = sems s !! k) ->
  (k0 < shared)%nat \/ local_of (code c) = Some k0 ->
  (local_of (code c) = None /\ local_of (code c') = None \/
   exists k m, local_of (code c) = Some k /\ local_of (code c') = Some k /\ m' !! k = Some m /\
     local_ok (occ k (tokens s)) f (code c') m) ->
  locals (mk_state m' (waitingQueue s) h (<[f := c']> (cells s)) (next s)).
Proof.
  intros HB Hf Hsh Hpend Hdom Hm Hk0 Hloc. destruct (b_next s HB) as [N1 N2].
  assert (Htok : forall k, occ k (tokens (mk_state m' (waitingQueue s) h (<[f := c']> (cells s)) (next s))) = occ k (tokens s)).
  { intros k. pose proof (occ_tokens s f c c' m' (waitingQueue s) h (next s) k Hf) as H. rewrite Hpend in H. lia. }
  eapply locals_update; try done.
  - intros k Hk. by apply N2, Hdom.
  - intros k Hk. by apply Hdom, (b_shared s HB).
  - intros k Hk. destruct Hloc as [[_ Ho]|(k1 & m & H1 & H2 & H3 & H4)]; [congruence|].
    simplify_eq. split; [by left|]. exists m. by rewrite Htok.
  - intros g d k Hne Hg Hd. destruct (b_local s HB g d k Hg Hd) as (Hge & m & H1 & H2). exists m. rewrite Htok.
    split; [|done]. rewrite Hm; [done|]. intros ->. destruct Hk0 as [?|Hk0]; [lia|]. apply Hne. by eapply (b_unique s HB).
  - intros k. rewrite Htok. intros Hk. destruct (decide (local_of (code c) = Some k)) as [E|]; [left|by right].
    destruct Hloc as [[Ho _]|(k1 & m & H1 & H2 & _)]; congruence.
Qed.

(** A change of a fiber's cell alone. *)
Lemma locals_cell s f c c' :
  locals s -> cells s !! f = Some c -> shape shared (code c') -> pend (code c') = pend (code c) ->
  (local_of (code c) = None /\ local_of (code c') = None \/
   exists k m, local_of (code c) = Some k /\ local_of (code c') = Some k /\ sems s !! k = Some m /\
     local_ok (occ k (tokens s)) f (code c') m) ->
  forall h, locals (mk_state (sems s) (waitingQueue s) h (<[f := c']> (cells s)) (next s)).
Proof.
  intros HB Hf Hsh Hp Hloc h. destruct Hloc as [Hn|(k & m & H1 & H2 & H3 & H4)].
  - destruct (decide (shared = 0%nat)) as [E|E].
    + destruct (b_next s HB) as [N1 N2].
      assert (Htok : forall k, occ k (tokens (mk_state (sems s) (waitingQueue s) h (<[f := c']> (cells s)) (next s))) = occ k (tokens s)).
      { intros k. pose proof (occ_tokens s f c c' (sems s) (waitingQueue s) h (next s) k Hf) as H. rewrite Hp in H. lia. }
      eapply locals_update; try done.
      * apply (b_shared s HB).
      * intros k Hk. destruct Hn. congruence.
      * intros g d k _ Hg Hd. rewrite Htok. by eapply (b_local s HB g).
      * intros k. rewrite Htok. intros Hk. right. split; [done|]. destruct Hn. congruence.
    + apply (locals_own s f c c' (sems s) h 0%nat); try done; [left; lia|by left].
  - apply (locals_own s f c c' (sems s) h k); try done; [by right|]. right. by exists k, m.
Qed.

(** The semaphore a fiber is in: shared, or its own. *)
Lemma shape_own k kk p : shape shared (p, kk) -> p = WEnter k \/ p = WSuspend k \/ p = WSuspended k ->
  kk = KIdle /\ (k < shared)%nat \/ kk = KWait k.
Proof. intros H Hp. destruct Hp as [-> |[-> | ->]]; destruct kk; cbn in H; (try done); [left|right|left|right|left|right]; by subst. Qed.

Lemma sems_dom_insert s k v m : sems s !! k = Some m -> forall j, is_Some (<[k := v]> (sems s) !! j) <-> is_Some (sems s !! j).
Proof.
  intros Hk j. destruct (decide (k = j)) as [<-|]; [rewrite lookup_insert_eq, Hk; split; by eexists|by rewrite lookup_insert_ne].
Qed.

(** [f]'s section on the semaphore [k] it is in. *)
Lemma locals_section s f c k kk p' v m :
  locals s -> cells s !! f = Some c -> sems s !! k = Some m -> code c = (WEnter k, kk) -> shape shared p' -> pend p' = [] ->
  (kk = KIdle -> local_of p' = None) ->
  (kk = KWait k -> local_of p' = Some k /\ local_ok (occ k (tokens s)) f p' v) ->
  locals (set_sem s k v f (set_code c p')).
Proof.
  intros HB Hf Hk Hc Hsh Hp H1 H2. pose proof (b_shape s HB f c Hf) as Hs. rewrite Hc in Hs.
  assert (Hown := shape_own k kk _ Hs (or_introl eq_refl)).
  assert (Hpe : pend (code c) = []) by (rewrite Hc; by destruct Hown as [[-> _]| ->]).
  apply (locals_own s f c (set_code c p') _ (holder s) k); try done.
  - cbn. by rewrite Hp, Hpe.
  - by eapply sems_dom_insert.
  - intros j Hj. by rewrite lookup_insert_ne.
  - rewrite Hc. destruct Hown as [[-> ?]| ->]; [by left|by right].
  - cbn. rewrite Hc. destruct Hown as [[-> ?]| ->]; [left; by split; [|apply H1]|right].
    destruct (H2 eq_refl) as [H3 H4]. exists k, v. by rewrite lookup_insert_eq.
Qed.

Lemma locals_wait s f c k kk m :
  inv s -> locals s -> cells s !! f = Some c -> sems s !! k = Some m -> code c = (WEnter k, kk) ->
  locals (if 0 <? permits m then set_sem s k (take_permit m) f (set_code c (ret_wait kk))
          else set_sem s k (enqueue m f) f (set_code c (WSuspend k, kk))).
Proof.
  intros HI HB Hf Hk Hc. pose proof (b_shape s HB f c Hf) as Hs. rewrite Hc in Hs.
  assert (Hown := shape_own k kk _ Hs (or_introl eq_refl)). pose proof (i_sems s HI k m Hk) as Hm.
  assert (Hl : kk = KWait k -> local_ok (occ k (tokens s)) f (code c) m).
  { intros E. destruct (b_local s HB f c k Hf) as (_ & m' & H1 & H2); [rewrite Hc; by subst|]. by simplify_eq. }
  rewrite Hc in Hl. destruct (Z.ltb_spec 0 (permits m)).
  - apply (locals_section s f c k kk (ret_wait kk) _ m); try done; try by destruct kk.
    intros E. destruct (Hl E) as [L1 L2]. subst kk. split; [done|]. cbn in *. destruct Hm as [_ Hsum (? & ? & ?) _ _].
    repeat split; cbn; [done|lia|lia].
  - apply (locals_section s f c k kk (WSuspend k, kk) _ m); try done; try by destruct kk.
    intros E. destruct (Hl E) as [L1 L2]. subst kk. split; [done|]. split; [done|]. split; [done|].
    intros Hno. destruct Hno. apply elem_of_app. right. by apply list_elem_of_singleton.
Qed.

(** [Signal]'s section on [k]: the notifier's token is spent. *)
Lemma locals_signal s f c k kk m v p' :
  locals s -> cells s !! f = Some c -> sems s !! k = Some m -> code c = (SEnter k, kk) ->
  initial v = initial m -> 0 <= signals m -> signals v = signals m + 1 -> (forall g, g ∈ waitingFibers v -> g ∈ waitingFibers m) ->
  shape shared p' -> local_of p' = None -> pend p' = match kk with KNotify l => l | _ => [] end ->
  locals (set_sem s k v f (set_code c p')).
Proof.
  intros HB Hf Hk Hc V1 V0 V2 V3 Hsh Hlo Hp. pose proof (b_shape s HB f c Hf) as Hs. rewrite Hc in Hs.
  assert (Hlc : local_of (code c) = None) by (rewrite Hc; by destruct kk). destruct (b_next s HB) as [N1 N2].
  destruct kk as [|k'|l]; cbn in Hs; [|done|].
  { eapply (locals_own s f c _ _ (holder s) k); try done; [by rewrite Hc| |intros j Hj; by rewrite lookup_insert_ne|by left|by left].
    by eapply sems_dom_insert. }
  assert (Htok : forall j, (occ j (tokens (set_sem s k v f (set_code c p'))) + (if decide (k = j) then 1 else 0) = occ j (tokens s))%nat).
  { intros j. pose proof (occ_tokens s f c (set_code c p') (<[k := v]> (sems s)) (waitingQueue s) (holder s) (next s) j Hf) as H.
    cbn [code set_code] in H. rewrite Hp, Hc in H. cbn [pend occ fst snd] in H. unfold set_sem. lia. }
  eapply locals_update; try done.
  - intros j Hj. apply N2. by apply (sems_dom_insert s k v m Hk).
  - intros j Hj. apply (sems_dom_insert s k v m Hk). by apply (b_shared s HB).
  - cbn. intros j Hj. congruence.
  - intros g d j Hne Hg Hd. destruct (b_local s HB g d j Hg Hd) as (Hge & m' & H1 & H2). specialize (Htok j).
    change (tokens (mk_state _ _ _ _ _)) with (tokens (set_sem s k v f (set_code c p'))). destruct (decide (k = j)) as [<-|Hkj].
    + simplify_eq. exists v. rewrite lookup_insert_eq. split; [done|]. destruct H2 as [L1 L2]. split; [congruence|].
      pose proof (b_shape s HB g d Hg) as Hsd. generalize dependent (occ k (tokens (set_sem s k v f (set_code c p')))). intros t' Ht'.
      destruct (code d) as [[] []]; cbn in L2, Hsd |- *; try done; repeat split; intros; lia.
    + exists m'. rewrite lookup_insert_ne by done. split; [done|].
      by replace (occ j (tokens (set_sem s k v f (set_code c p')))) with (occ j (tokens s)) by lia.
  - change (tokens (mk_state _ _ _ _ _)) with (tokens (set_sem s k v f (set_code c p'))). intros j Hj. right. specialize (Htok j). split; [lia|congruence].
Qed.

Lemma locals_same_code s f c c' : locals s -> cells s !! f = Some c -> code c' = code c -> locals (set_cell s f c').
Proof.
  intros HB Hf Hc. apply (locals_cell s f c c' HB Hf); try by rewrite Hc.
  - rewrite Hc. by apply (b_shape s HB f).
  - rewrite Hc. destruct (local_of (code c)) as [k|] eqn:E; [right|by left].
    destruct (b_local s HB f c k Hf E) as (_ & m & H1 & H2). exists k, m. auto.
Qed.

(** The fiber keeps its local semaphore and the count that goes with its point. *)
Lemma locals_step s f c p' h : locals s -> cells s !! f = Some c -> shape shared p' -> pend p' = pend (code c) ->
  local_of p' = local_of (code c) ->
  (forall k m, local_of (code c) = Some k -> local_ok (occ k (tokens s)) f (code c) m -> local_ok (occ k (tokens s)) f p' m) ->
  forall c', code c' = p' -> locals (mk_state (sems s) (waitingQueue s) h (<[f := c']> (cells s)) (next s)).
Proof.
  intros HB Hf Hsh Hp Hl Hok c' <-. apply (locals_cell s f c c' HB Hf); try done.
  rewrite Hl. destruct (local_of (code c)) as [k|] eqn:E; [right|by left].
  destruct (b_local s HB f c k Hf E) as (_ & m & H1 & H2). exists k, m. auto.
Qed.

Lemma pend_ret_signal kk : pend (ret_signal kk) = match kk with KNotify l => l | _ => [] end.
Proof. by destruct kk as [| |[]]. Qed.
Lemma local_ret_signal kk : local_of (ret_signal kk) = None.
Proof. by destruct kk as [| |[]]. Qed.
Lemma shape_ret_signal kk : shape shared (ret_signal kk).
Proof. by destruct kk as [| |[]]. Qed.

Lemma locals_push s f c k : locals s -> cells s !! f = Some c -> code c = (VPush, KWait k) ->
  locals (mk_state (sems s) (waitingQueue s ++ [k]) (holder s) (<[f := set_code c (VUnlock, KWait k)]> (cells s)) (next s)).
Proof.
  intros HB Hf Hc. destruct (b_next s HB) as [N1 N2].
  destruct (b_local s HB f c k Hf) as (_ & m & Hm & Hl1 & Hl2); [by rewrite Hc|]. rewrite Hc in Hl2. cbn in Hl2.
  set (s' := mk_state _ _ _ _ _).
  assert (Htok : forall j, (occ j (tokens s') = occ j (tokens s) + (if decide (k = j) then 1 else 0))%nat).
  { intros j. pose proof (occ_tokens s f c (set_code c (VUnlock, KWait k)) (sems s) (waitingQueue s ++ [k]) (holder s) (next s) j Hf) as H.
    rewrite occ_app, Hc in H. cbn [pend occ fst snd code set_code] in H. fold s' in H. lia. }
  apply (locals_update s f c); try done.
  - apply (b_shared s HB).
  - intros j [= <-]. split; [left; by rewrite Hc|]. exists m. fold s'. rewrite Htok, decide_True by done.
    split; [done|]. split; [done|]. cbn [fst]. destruct Hl2 as [-> ->]. done.
  - intros g d j Hne Hg Hd. fold s'. rewrite Htok, decide_False, Nat.add_0_r; [by eapply (b_local s HB g)|].
    intros <-. apply Hne. apply (b_unique s HB g f d c k); try done. by rewrite Hc.
  - intros j. fold s'. rewrite Htok. destruct (decide (k = j)) as [->|Hne]; [by left|]. right. split; [lia|].
    rewrite Hc. cbn. congruence.
Qed.

Lemma locals_lock s f c k : locals s -> cells s !! f = Some c -> code c = (VLock, KWait k) ->
  locals (mk_state (delete k (sems s)) (waitingQueue s) (Some f) (<[f := set_code c (CIdle, KIdle)]> (cells s)) (next s)).
Proof.
  intros HB Hf Hc. destruct (b_next s HB) as [N1 N2].
  destruct (b_local s HB f c k Hf) as (Hge & m & Hm & Hl1 & Hl2); [by rewrite Hc|]. rewrite Hc in Hl2. cbn in Hl2.
  set (s' := mk_state _ _ _ _ _).
  assert (Htok : forall j, occ j (tokens s') = occ j (tokens s)).
  { intros j. pose proof (occ_tokens s f c (set_code c (CIdle, KIdle)) (delete k (sems s)) (waitingQueue s) (Some f) (next s) j Hf) as H.
    rewrite Hc in H. cbn [pend occ fst snd code set_code] in H. fold s' in H. lia. }
  apply (locals_update s f c); try done.
  - intros j [x [_ Hj]%lookup_delete_Some]. apply N2. by eexists.
  - intros j Hj. rewrite lookup_delete_ne by lia. by apply (b_shared s HB).
  - intros g d j Hne Hg Hd. fold s'. rewrite Htok. destruct (b_local s HB g d j Hg Hd) as (_ & m' & H1 & H2). exists m'.
    rewrite lookup_delete_ne; [done|]. intros <-. apply Hne. apply (b_unique s HB g f d c k); try done. by rewrite Hc.
  - intros j. fold s'. rewrite Htok. intros Hj. right. split; [done|]. rewrite Hc. cbn. intros [= <-]. lia.
Qed.

(** [Notify]'s section: references move from the queue to the notifier. *)
Lemma locals_notify s f c q p' : locals s -> cells s !! f = Some c -> pend (code c) = [] -> local_of (code c) = None ->
  shape shared p' -> local_of p' = None -> waitingQueue s = pend p' ++ q ->
  locals (mk_state (sems s) q (holder s) (<[f := set_code c p']> (cells s)) (next s)).
Proof.
  intros HB Hf Hp Hl Hsh Hl' Hq. destruct (b_next s HB) as [N1 N2]. set (s' := mk_state _ _ _ _ _).
  assert (Htok : forall j, occ j (tokens s') = occ j (tokens s)).
  { intros j. pose proof (occ_tokens s f c (set_code c p') (sems s) q (holder s) (next s) j Hf) as H.
    rewrite Hq, Hp, occ_app in H. cbn [occ code set_code] in H. fold s' in H. lia. }
  apply (locals_update s f c); try done.
  - apply (b_shared s HB).
  - cbn. intros k Hk. congruence.
  - intros g d j _ Hg Hd. fold s'. rewrite Htok. by eapply (b_local s HB g).
  - intros j. fold s'. rewrite Htok. intros Hj. right. split; [done|]. congruence.
Qed.

(** A fiber taken out of its own semaphore's queue was signaled. *)
Lemma locals_wake s f c k kk : locals s -> cells s !! f = Some c -> code c = (WSuspended k, kk) -> f ∉ waitq (sems s) k ->
  forall h c', code c' = ret_wait kk -> locals (mk_state (sems s) (waitingQueue s) h (<[f := c']> (cells s)) (next s)).
Proof.
  intros HB Hf Hc Hq h. pose proof (b_shape s HB f c Hf) as Hs. rewrite Hc in Hs.
  destruct (shape_own k kk _ Hs) as [[-> _]| ->]; [by auto|..].
  - apply (locals_step s f c (CIdle, KIdle)); try done; rewrite Hc; try done.
  - apply (locals_step s f c (VLock, KWait k)); try done; rewrite Hc; try done.
    intros j m [= <-] [L1 [L2 L3]]. split; [done|]. cbn in *.
    destruct (b_local s HB f c k Hf) as (_ & m' & H1 & H2); [by rewrite Hc|].
    destruct H2 as [_ H2]. rewrite Hc in H2. cbn in H2. destruct H2 as [H2 H3].
    rewrite (waitq_lookup _ _ _ H1) in Hq. specialize (H3 Hq).
    lia.
Qed.

(** [Try_Wait], whatever it does to the permits. *)
Lemma locals_try s f c k m v p : locals s -> cells s !! f = Some c -> sems s !! k = Some m -> (k < shared)%nat ->
  code c = (p, KIdle) -> locals (set_sem s k v f (set_code c (CIdle, KIdle))).
Proof.
  intros HB Hf Hk Hlt Hc. apply (locals_own s f c (set_code c (CIdle, KIdle)) _ (holder s) k); try done; [by rewrite Hc|..|by left|by rewrite Hc; left].
  - by eapply sems_dom_insert.
  - intros j Hj. by rewrite lookup_insert_ne.
Qed.

Lemma locals_code_step s f c s' : inv s -> locals s -> cells s !! f = Some c -> code_step f c s = Some s' -> locals s'.
Proof.
  intros HI HB Hf. pose proof (b_shape s HB f c Hf) as Hs. unfold_code. destruct (code c) as [p kk] eqn:Hc. cbn [fst snd].
  destruct p; [done|..].
  - destruct (sems s !! k) as [m|] eqn:Hk; [|done]. intros [= <-]. by apply locals_wait.
  - intros [= <-]. apply (locals_step s f c (WSuspended k, kk)); try done; rewrite Hc; try done; by destruct kk.
  - done.
  - destruct kk; try done. destruct (sems s !! k) as [m|] eqn:Hk; [|done]. intros [= <-]. by eapply (locals_try s f c k m).
  - destruct kk; try done. destruct (sems s !! k) as [m|] eqn:Hk; [|done]. cbn [mbind option_bind].
    destruct (0 <? permits m); intros [= <-]; [|done]. by eapply (locals_try s f c k m).
  - destruct (sems s !! k) as [m|] eqn:Hk; [|done]. pose proof (i_sems s HI k m Hk) as [_ _ (_ & _ & Hpos) _ _].
    cbn [mbind option_bind]. destruct (waitingFibers m) as [|n w] eqn:Hw; intros [= <-].
    + apply (locals_signal s f c k kk m); try done; [..|apply shape_ret_signal|apply local_ret_signal|apply pend_ret_signal];
        unfold add_permit; destruct (permits m <? maxPermits m); done.
    + apply (locals_signal s f c k kk m); try done; try by destruct kk.
      cbn. rewrite Hw. intros g Hg. by right.
  - destruct (cells s !! n) as [cn|] eqn:Hn; [|done]. cbn [mbind option_bind]. destruct (resume pc cn) as [cn' pc'] eqn:Hr. intros [= <-].
    destruct (i_resumers s HI f c n pc Hf) as (c0 & k & Hc0 & Hw & _); [by rewrite Hc|]. simplify_eq.
    assert (Hnf : n <> f) by (intros ->; simplify_eq; apply waits_point in Hw; by rewrite Hc in Hw).
    assert (Hcode : code cn' = code cn) by (unfold resume in Hr; destruct (resume_step _ _); by simplify_eq).
    pose proof (locals_same_code s n cn cn' HB Hn Hcode) as HB1.
    set (p' := if decide (pc' = RDone) then ret_signal kk else (SResume n pc', kk)).
    apply (locals_step (set_cell s n cn') f c p'); try done.
    + cbn. by rewrite list_lookup_insert_ne.
    + unfold p'. case_decide; [apply shape_ret_signal|by destruct kk].
    + unfold p'. rewrite Hc. case_decide; [by rewrite pend_ret_signal; destruct kk|by destruct kk].
    + unfold p'. rewrite Hc. case_decide; [by rewrite local_ret_signal; destruct kk|by destruct kk].
    + rewrite Hc. by destruct kk.
  - destruct kk; try done. intros [= <-]. by apply locals_push.
  - destruct kk; try done. intros [= <-]. by apply (locals_step s f c (WEnter k, KWait k)); try done; rewrite Hc.
  - destruct kk; try done. destruct (holder s); [done|]. destruct (sems s !! k); [|done]. intros [= <-]. by apply locals_lock.
  - destruct kk; try done. destruct (holder s); [done|]. intros [= <-]. by apply (locals_step s f c (CIdle, KIdle)); try done; rewrite Hc.
  - destruct kk; try done. destruct (waitingQueue s) as [|k q] eqn:Hq; intros [= <-].
    + by apply (locals_step s f c (CIdle, KIdle)); try done; rewrite Hc.
    + by apply (locals_notify s f c q (SEnter k, KNotify [])); try done; rewrite Hc.
  - destruct kk; try done. intros [= <-].
    apply (locals_notify s f c [] (ret_signal (KNotify (waitingQueue s)))); try done; try by rewrite Hc.
    + apply shape_ret_signal.
    + apply local_ret_signal.
    + by rewrite pend_ret_signal, app_nil_r.
Qed.

Lemma locals_cvwait s f c : locals s -> cells s !! f = Some c -> code c = (CIdle, KIdle) ->
  locals (mk_state (<[next s := SchedulerSemaphore 0 1]> (sems s)) (waitingQueue s) (holder s)
            (<[f := set_code c (VPush, KWait (next s))]> (cells s)) (S (next s))).
Proof.
  intros HB Hf Hc. destruct (b_next s HB) as [N1 N2]. set (s' := mk_state _ _ _ _ _).
  assert (Hnew : forall g d k, cells s !! g = Some d -> local_of (code d) = Some k -> k <> next s).
  { intros g d k Hg Hd ->. destruct (b_local s HB g d _ Hg Hd) as (_ & m & Hm & _).
    specialize (N2 _ ltac:(by eexists)). lia. }
  assert (Htok : forall j, occ j (tokens s') = occ j (tokens s)).
  { intros j. pose proof (occ_tokens s f c (set_code c (VPush, KWait (next s))) (<[next s := SchedulerSemaphore 0 1]> (sems s))
      (waitingQueue s) (holder s) (S (next s)) j Hf) as H. rewrite Hc in H. cbn [pend occ fst snd code set_code] in H. fold s' in H. lia. }
  apply (locals_update s f c); try done; [lia|..].
  - intros j [x [[<- _]|[_ Hj]]%lookup_insert_Some]; [lia|]. specialize (N2 j ltac:(by eexists)). lia.
  - intros j Hj. rewrite lookup_insert_ne by lia. by apply (b_shared s HB).
  - intros j [= <-]. split; [by right|]. exists (SchedulerSemaphore 0 1). rewrite lookup_insert_eq. fold s'. rewrite Htok.
    split; [done|]. split; [done|]. cbn [fst set_code code]. split; [|done].
    destruct (decide (0 < occ (next s) (tokens s))%nat) as [Hpos|]; [|lia].
    destruct (b_tokens s HB _ Hpos) as (g & d & Hg & Hd). by destruct (Hnew g d _ Hg Hd).
  - intros g d j _ Hg Hd. fold s'. rewrite Htok. rewrite lookup_insert_ne by (by apply not_eq_sym, (Hnew g d)).
    by eapply (b_local s HB g).
  - intros j. fold s'. rewrite Htok. intros Hj. right. by rewrite Hc.
Qed.

Lemma locals_other s q h : locals s -> q = waitingQueue s -> locals (mk_state (sems s) q h (cells s) (next s)).
Proof. intros [] ->. by constructor. Qed.

Lemma locals_exec onFiber a s s' : inv s -> locals s -> exec shared onFiber a s = Some s' -> locals s'.
Proof.
  intros HI HB. destruct a as [f x|f|f|f]; cbn [exec]; destruct (cells s !! f) as [c|] eqn:Hf; cbn [mbind option_bind]; try done.
  - destruct (code c) as [[] []] eqn:Hc; try done. destruct (running c); [|done].
    assert (Hgo : forall p, shape shared (p, KIdle) -> pend (p, KIdle) = [] -> locals (set_cell s f (set_code c (p, KIdle)))).
    { intros p Hp1 Hp2. apply (locals_step s f c (p, KIdle)); try done; by rewrite Hc. }
    destruct x; cbn [call_step]; try (destruct (Nat.ltb_spec k shared); [|done]); try (intros [= <-]; by apply Hgo).
    + intros [= <-]. by apply Hgo; destruct (onFiber f).
    + case_decide; [|done]. intros [= <-]. destruct (onFiber f); [by apply locals_cvwait|].
      by apply (locals_step s f c (FLock, KIdle)); try done; rewrite Hc.
    + destruct (holder s); [done|]. intros [= <-]. by apply locals_other.
    + case_decide; [|done]. intros [= <-]. by apply locals_other.
  - destruct (running c); [|done]. by apply locals_code_step.
  - destruct (worker_step c) as [c'|] eqn:E; [|done]. intros [= <-]. apply (locals_same_code s f c); try done.
    by destruct (worker_step_ok at_point c c' (i_cells s HI f c Hf) E) as [-> _].
  - destruct (dispatch wake c) as [c'|] eqn:E; [|done]. intros [= <-].
    destruct (dispatch_ok at_point wake c c' (i_cells s HI f c Hf) E) as (H1 & H2 & H3 & _ & _).
    destruct (wake_plain _ H1) as (k & kk & Hc & Hw). rewrite Hw in H2.
    apply (locals_wake s f c k kk); try done. intros Hin. destruct (i_queue s HI k f Hin) as (c0 & Hc0 & _ & Hu). by simplify_eq.
Qed.
End Locals.

Lemma locals_start n shared : locals (length shared) (start n shared).
Proof.
  assert (Hcell : forall f c, cells (start n shared) !! f = Some c -> code c = (CIdle, KIdle)).
  { cbn. intros f c H. by apply lookup_replicate in H as [-> _]. }
  assert (Htok : tokens (start n shared) = []).
  { unfold tokens, start. cbn [waitingQueue cells app]. clear Hcell. induction n as [|n IH]; [done|]. cbn [replicate].
    rewrite bind_cons, IH. done. }
  constructor.
  - split; [done|]. intros k [m (x & Hx & _)%start_sem]. by eapply lookup_lt_Some.
  - intros f c ->%Hcell. done.
  - intros k Hk. destruct (lookup_lt_is_Some_2 _ _ Hk) as [x Hx]. exists (SchedulerSemaphore x.1 x.2). cbn.
    apply elem_of_list_to_map.
    + apply NoDup_alt. intros i j y Hi Hj. rewrite list_lookup_fmap, list_lookup_imap in Hi, Hj.
      destruct (shared !! i), (shared !! j); cbn in Hi, Hj; congruence.
    + apply elem_of_lookup_imap. eauto.
  - intros f c k ->%Hcell. done.
  - intros f f' c c' k ->%Hcell. done.
  - intros k Hk. rewrite Htok in Hk. cbn in Hk. lia.
Qed.

Lemma both_reached n shared onFiber s : good_args shared -> reaches (exec (length shared) onFiber) (start n shared) s ->
  inv s /\ locals (length shared) s.
Proof.
  intros Hg. apply (reaches_invariant (exec (length shared) onFiber) (fun s => inv s /\ locals (length shared) s)).
  - intros a s1 s2 [H1 H2] H. split; [by eapply sync_inv_exec|by eapply locals_exec].
  - split; [by apply sync_inv_start|apply locals_start].
Qed.

(** ** Callers that are not on a fiber *)

Definition no_fiber (p : code_t) : Prop :=
  match p with
  | (_, KWait _) | ((WEnter _ | WSuspend _ | WSuspended _), _) => False
  | _ => True
  end.

(** They are at no point at which a fiber queues itself, and never suspended. *)
Definition off_fiber (onFiber : nat -> bool) (s : state) : Prop :=
  forall f c, cells s !! f = Some c -> onFiber f = false -> running c = true /\ no_fiber (code c).

Lemma off_fiber_set onFiber s f c m q h x :
  off_fiber onFiber s -> (onFiber f = false -> running c = true /\ no_fiber (code c)) ->
  off_fiber onFiber (mk_state m q h (<[f := c]> (cells s)) x).
Proof. intros HO Hc g d [(<- & <- & _)|[_ Hg]]%list_lookup_insert_Some; [done|by apply HO]. Qed.

Lemma no_fiber_ret_signal kk : no_fiber (ret_signal kk).
Proof. by destruct kk as [| |[]]. Qed.

Lemma off_fiber_code onFiber s f c s' : inv s -> off_fiber onFiber s -> cells s !! f = Some c -> running c = true ->
  code_step f c s = Some s' -> off_fiber onFiber s'.
Proof.
  intros HI HO Hf Hrun.
  assert (Hset : forall m q h x p, (onFiber f = false -> no_fiber p) ->
    off_fiber onFiber (mk_state m q h (<[f := set_code c p]> (cells s)) x)) by (intros; by apply off_fiber_set; auto).
  assert (Hno : onFiber f = false -> no_fiber (code c)) by (intros Hoff; by destruct (HO f c Hf Hoff)).
  unfold_code. destruct (code c) as [p kk] eqn:Hc. cbn [fst snd]. destruct p; [done|..];
    try (destruct (sems s !! k) as [m|]; [|done]; cbn [mbind option_bind]);
    try (intros [= <-]; by apply Hset); try (destruct kk; (try done); intros [= <-]; by apply Hset).
  - destruct (0 <? permits m); intros [= <-]; apply Hset; intros Hoff; by destruct kk; apply Hno in Hoff.
  - intros [= <-]. apply off_fiber_set; [done|]. intros Hoff. by destruct kk; apply Hno in Hoff.
  - destruct (0 <? permits m); intros [= <-]; [by apply Hset|done].
  - destruct (waitingFibers m); intros [= <-]; apply Hset; intros Hoff; [apply no_fiber_ret_signal|by destruct kk; apply Hno in Hoff].
  - destruct (i_resumers s HI f c n pc Hf) as (cn & k & Hcn & Hw & _); [by rewrite Hc|]. rewrite Hcn. cbn [mbind option_bind].
    destruct (resume pc cn) as [cn' pc']. intros [= <-]. intros g d [(<- & <- & _)|[_ Hg]]%list_lookup_insert_Some Hoff.
    + split; [done|]. cbn. case_decide; [apply no_fiber_ret_signal|]. by destruct kk; apply Hno in Hoff.
    + apply list_lookup_insert_Some in Hg as [(<- & <- & _)|[_ Hg]]; [|exact (HO g d Hg Hoff)].
      exfalso. destruct (HO n cn Hcn Hoff) as [_ Hp]. destruct Hw as [Hw|Hw]; destruct (code cn) as [? []]; cbn in Hw; by subst.
  - destruct kk; (try done). destruct (holder s); [done|]. destruct (sems s !! k); [|done]. intros [= <-]. by apply Hset.
  - destruct (holder s); [done|]. intros [= <-]. by apply Hset.
  - destruct (waitingQueue s); intros [= <-]; by apply Hset.
  - intros [= <-]. apply (Hset _ _ _ _ (ret_signal (KNotify _))). intros _. apply no_fiber_ret_signal.
Qed.

Lemma off_fiber_exec shared onFiber a s s' :
  inv s -> off_fiber onFiber s -> exec shared onFiber a s = Some s' -> off_fiber onFiber s'.
Proof.
  intros HI HO. destruct a as [f x|f|f|f]; cbn [exec]; destruct (cells s !! f) as [c|] eqn:Hf; cbn [mbind option_bind]; try done.
  - destruct (code c) as [[] []] eqn:Hc; try done. destruct (running c) eqn:Hrun; [|done].
    destruct x; cbn [call_step]; try (destruct (Nat.ltb k shared); [|done]); try (intros [= <-]; by apply off_fiber_set).
    + intros [= <-]. apply off_fiber_set; [done|]. intros Hoff. by rewrite Hoff.
    + case_decide; [|done]. intros [= <-]. destruct (onFiber f) eqn:Hon; apply off_fiber_set; [done|by rewrite Hon|done..].
    + destruct (holder s); [done|]. by intros [= <-].
    + case_decide; [|done]. by intros [= <-].
  - destruct (running c) eqn:Hrun; [|done]. by apply off_fiber_code.
  - destruct (worker_step c) as [c'|] eqn:E; [|done]. intros [= <-]. apply off_fiber_set; [done|]. intros Hoff. exfalso.
    destruct (HO f c Hf Hoff) as [Hrun _]. apply bool_decide_eq_true in Hrun. unfold worker_step in E. by rewrite Hrun in E.
  - destruct (dispatch wake c) as [c'|] eqn:E; [|done]. intros [= <-]. apply off_fiber_set; [done|]. intros Hoff. exfalso.
    destruct (HO f c Hf Hoff) as [Hrun _]. apply bool_decide_eq_true in Hrun. unfold dispatch in E. by rewrite Hrun in E.
Qed.

Lemma off_fiber_reached n shared onFiber s : good_args shared -> reaches (exec (length shared) onFiber) (start n shared) s ->
  off_fiber onFiber s.
Proof.
  intros Hg Hr. apply (reaches_invariant (exec (length shared) onFiber) (fun s => inv s /\ off_fiber onFiber s) (start n shared) s); [|..|done].
  - intros a s1 s2 [H1 H2] H. split; [by eapply sync_inv_exec|by eapply off_fiber_exec].
  - split; [by apply sync_inv_start|]. intros f c Hf _. cbn in Hf. by apply lookup_replicate in Hf as [-> _].
Qed.

(** ** A fiber asleep for good *)

Definition stranded (s : state) (n : nat) (c : cell code_t) : Prop :=
  cells s !! n = Some c /\ asleep at_point c /\ (forall k, n ∉ waitq (sems s) k) /\
  (forall g d, cells s !! g = Some d -> ~ resumes (code d) n).

Lemma sync_stranded_code s f c s' n cn : code_step f c s = Some s' -> cells s !! f = Some c -> f <> n -> stranded s n cn -> stranded s' n cn.
Proof.
  intros Hs Hf Hne (H1 & H2 & H3 & H4).
  assert (Hmk : forall m' q h x c', (forall k, n ∉ waitq m' k) -> ~ resumes (code c') n ->
    stranded (mk_state m' q h (<[f := c']> (cells s)) x) n cn).
  { intros m' q h x c' Hq Hc'. split; [cbn; by rewrite list_lookup_insert_ne|]. split; [done|]. split; [done|].
    cbn. intros g d [(_ & <- & _)|[_ Hg]]%list_lookup_insert_Some; [done|by eapply H4]. }
  assert (Hin : forall k v, n ∉ waitingFibers v -> forall j, n ∉ waitq (<[k := v]> (sems s)) j).
  { intros k v Hv j. rewrite waitq_insert. by case_decide. }
  assert (Hw : forall k m, sems s !! k = Some m -> n ∉ waitingFibers m) by (intros k m Hk; rewrite <- (waitq_lookup _ _ _ Hk); apply H3).
  assert (Hidle : forall p : code_t, plain p -> ~ resumes p n) by (intros p [_ Hp]; apply Hp).
  revert Hs. unfold_code. destruct (code c) as [p kk] eqn:Hc. cbn [fst snd]. destruct p; [done|..].
  - destruct (sems s !! k) as [m|] eqn:Hk; [|done]. cbn. specialize (Hw k m Hk).
    destruct (0 <? permits m); intros [= <-]; apply Hmk; try (apply Hin; cbn); try done; try (apply Hidle; solve_plain).
    + rewrite elem_of_app, list_elem_of_singleton. intros [?|?]; [done|congruence].
    + by intros [? ?].
  - intros [= <-]. apply Hmk; [done|]. by intros [? ?].
  - done.
  - destruct (sems s !! k) as [m|] eqn:Hk; [|done]. cbn. specialize (Hw k m Hk). intros [= <-].
    apply Hmk; [|apply Hidle; solve_plain]. apply Hin. by destruct (0 <? permits m).
  - destruct (sems s !! k) as [m|] eqn:Hk; [|done]. cbn. specialize (Hw k m Hk).
    destruct (0 <? permits m); intros [= <-]; [|done]. apply Hmk; [by apply Hin|apply Hidle; solve_plain].
  - destruct (sems s !! k) as [m|] eqn:Hk; [|done]. cbn. specialize (Hw k m Hk).
    destruct (waitingFibers m) as [|x w] eqn:Ew; intros [= <-]; apply Hmk.
    + apply Hin. unfold add_permit. destruct (permits m <? maxPermits m); cbn; by rewrite Ew.
    + apply Hidle. solve_plain.
    + apply Hin. cbn. intros ?. apply Hw. by right.
    + cbn. intros [? [= -> _]]. apply Hw. by left.
  - destruct (cells s !! n0) as [cx|] eqn:Hx; [|done]. cbn. destruct (resume pc cx) as [cx' pc'] eqn:Hr. intros [= <-].
    assert (Hnx : n0 <> n) by (intros ->; apply (H4 f c Hf); rewrite Hc; by eexists).
    assert (Hcode : code cx' = code cx) by (unfold resume in Hr; destruct (resume_step _ _); by simplify_eq).
    split; [cbn; by rewrite !list_lookup_insert_ne|]. split; [done|]. split; [done|].
    cbn. intros g d [(_ & <- & _)|[_ Hg]]%list_lookup_insert_Some.
    + case_decide; [apply Hidle; solve_plain|]. cbn. intros [? [= -> _]]. done.
    + apply list_lookup_insert_Some in Hg as [(_ & <- & _)|[_ Hg]]; [rewrite Hcode; by eapply H4|by eapply H4].
  - destruct kk; try done. intros [= <-]. apply Hmk; [done|apply Hidle; solve_plain].
  - destruct kk; try done. intros [= <-]. apply Hmk; [done|apply Hidle; solve_plain].
  - destruct kk; try done. destruct (holder s); [done|]. destruct (sems s !! k); [|done]. intros [= <-].
    apply Hmk; [|apply Hidle; solve_plain]. intros j. unfold waitq. destruct (delete k (sems s) !! j) eqn:E; [|apply not_elem_of_nil].
    apply lookup_delete_Some in E as [_ E]. by eapply Hw.
  - destruct (holder s); [done|]. intros [= <-]. apply Hmk; [done|apply Hidle; solve_plain].
  - intros [= <-]. destruct (waitingQueue s); apply Hmk; try done; apply Hidle; solve_plain.
  - intros [= <-]. destruct (waitingQueue s); apply Hmk; try done; apply Hidle; solve_plain.
Qed.

Lemma sync_stranded_exec shared onFiber a s s' n c : exec shared onFiber a s = Some s' -> stranded s n c -> stranded s' n c.
Proof.
  intros Hs HS. pose proof HS as (H1 & H2 & H3 & H4).
  assert (Hrun : forall f d, cells s !! f = Some d -> running d = true -> f <> n).
  { intros f d Hf Hr ->. simplify_eq. by rewrite (asleep_not_running at_point) in Hr. }
  assert (Hset : forall m' q h x f d d', (forall k, n ∉ waitq m' k) -> f <> n -> cells s !! f = Some d ->
    (resumes (code d') n -> resumes (code d) n) -> stranded (mk_state m' q h (<[f := d']> (cells s)) x) n c).
  { intros m' q h x f d d' Hq Hne Hf Hr. split; [cbn; by rewrite list_lookup_insert_ne|]. split; [done|]. split; [done|].
    cbn. intros g y [(_ & <- & _)|[_ Hg]]%list_lookup_insert_Some; [|by eapply H4]. intros ?. by eapply (H4 f d), Hr. }
  destruct a as [f x|f|f|f]; cbn [exec] in Hs; destruct (cells s !! f) as [d|] eqn:Hf; cbn [mbind option_bind] in Hs; try done.
  - destruct (code d) as [[] []] eqn:Hc; try done. destruct (running d) eqn:Hr; [|done]. specialize (Hrun f d Hf Hr).
    assert (Hgo : forall m' q h y p kk, (forall k, n ∉ waitq m' k) -> (forall m pc, p <> SResume m pc) ->
      stranded (mk_state m' q h (<[f := set_code d (p, kk)]> (cells s)) y) n c).
    { intros m' q h y p kk Hq Hp. apply (Hset _ _ _ _ _ d); try done. intros [pc E]. cbn in E. by destruct (Hp n pc). }
    destruct x; cbn [call_step] in Hs; try (destruct (Nat.ltb k shared); [|done]); try (injection Hs as <-; by apply Hgo).
    + injection Hs as <-. apply Hgo; [done|]. by destruct (onFiber f).
    + case_decide; [|done]. injection Hs as <-. destruct (onFiber f); [|by apply Hgo]. apply Hgo; [|done]. intros j. rewrite waitq_insert. case_decide; [apply not_elem_of_nil|done].
    + destruct (holder s); [done|]. by injection Hs as <-.
    + case_decide; [|done]. by injection Hs as <-.
  - destruct (running d) eqn:Hr; [|done]. by apply (sync_stranded_code s f d s' n c Hs Hf (Hrun f d Hf Hr)).
  - destruct (worker_step d) as [d'|] eqn:E; [|done]. injection Hs as <-.
    assert (Hne : f <> n) by (intros ->; simplify_eq; by rewrite (asleep_worker at_point) in E).
    apply (Hset _ _ _ _ _ d); try done.
    unfold worker_step in E. destruct (place d) as [[]|]; try done; destruct (post_step _ _); by simplify_eq.
  - destruct (dispatch wake d) as [d'|] eqn:E; [|done]. injection Hs as <-.
    assert (Hne : f <> n) by (intros ->; simplify_eq; by rewrite (asleep_dispatch at_point) in E).
    apply (Hset _ _ _ _ _ d); try done.
    unfold dispatch in E. destruct (place d); [done|]. destruct (inq d); [|done]. simplify_eq. cbn.
    unfold wake. destruct (code d) as [[] []]; cbn; try done; by intros [? ?].
Qed.

(** ** Properties *)

(** [C24] Semaphores, in every interleaving: the permits stay between 0 and
    [maxPermits]; those left, those handed out and the signals lost at the maximum
    add up to the initial ones and the signals; fibers queue, each once, only
    while there is no permit; and a queued fiber is one that is inside [Wait] on
    this semaphore, that nobody has resumed and that no worker can run; a caller
    that is not on a fiber never queues. *)
Theorem semaphore_permits_conserved n shared onFiber s :
  good_args shared -> reaches (exec (length shared) onFiber) (start n shared) s ->
  forall k m, sems s !! k = Some m ->
    0 <= permits m <= maxPermits m /\
    permits m + passed m + dropped m = initial m + signals m /\
    (waitingFibers m <> [] -> permits m = 0) /\ NoDup (waitingFibers m) /\
    forall f, f ∈ waitingFibers m ->
      onFiber f = true /\
      (exists c, cells s !! f = Some c /\ waits_at k (code c) /\ unsignaled at_point c) /\
      exec (length shared) onFiber (Dispatch f) s = None.
Proof.
  intros Hg Hr k m Hk. destruct (both_reached n shared onFiber s Hg Hr) as [HI _].
  destruct (i_sems s HI k m Hk) as [S1 S2 S3 S4 S5]. split_and!; try done; try lia.
  intros f Hf. rewrite <- (waitq_lookup _ _ _ Hk) in Hf. destruct (i_queue s HI k f Hf) as (c & Hc & Hw & Hu).
  split.
  { destruct (onFiber f) eqn:Hoff; [done|]. destruct (off_fiber_reached n shared onFiber s Hg Hr f c Hc Hoff) as [_ Hp].
    destruct Hw as [Hw|Hw]; destruct (code c) as [[] []]; by cbn in Hw. }
  split; [by exists c|]. cbn [exec]. rewrite Hc. cbn [mbind option_bind]. destruct (dispatch wake c) as [c'|] eqn:E; [|done].
  by destruct (dispatch_ok at_point wake c c' (i_cells s HI f c Hc) E) as (_ & _ & ? & _).
Qed.

(** [C23] The condition variable, in every interleaving: the local semaphore of a
    fiber in [Wait] belongs to it alone and is signaled at most once; when the
    fiber leaves the semaphore it has been signaled exactly once, by a [Notify]
    that took it out of the queue, and nothing refers to it any more, so that it
    can be destroyed; a caller that is not on a fiber has no local semaphore and never stops
    running; and a running caller inside any of the methods can always go
    on, so that no semaphore that is gone is touched, except for [Wait]'s last
    step, which needs the mutex. *)
Theorem cv_notified_once n shared onFiber s :
  good_args shared -> reaches (exec (length shared) onFiber) (start n shared) s ->
  forall f c, cells s !! f = Some c ->
    (forall k, local_of (code c) = Some k -> exists m, sems s !! k = Some m /\
       0 <= signals m <= 1 /\ ((code c).1 = VLock -> signals m = 1 /\ occ k (tokens s) = 0%nat) /\
       forall f' c', cells s !! f' = Some c' -> local_of (code c') = Some k -> f' = f) /\
    (onFiber f = false -> running c = true /\ local_of (code c) = None) /\
    (running c = true -> code c <> (CIdle, KIdle) ->
     is_Some (exec (length shared) onFiber (Code f) s) \/
     ((code c).1 = VLock \/ (code c).1 = FLock) /\ holder s <> None).
Proof.
  intros Hg Hr f c Hf. destruct (both_reached n shared onFiber s Hg Hr) as [HI HB]. split; [|split].
  - intros k Hk. destruct (b_local _ s HB f c k Hf Hk) as (_ & m & Hm & _ & Hl). exists m.
    destruct (i_sems s HI k m Hm) as [_ _ (_ & _ & Hpos) _ _]. split; [done|].
    assert (H : 0 <= signals m <= 1) by (destruct (code c).1; destruct_and?; lia).
    split; [done|]. split; [intros E; rewrite E in Hl; lia|]. intros f' c' Hf' Hk'. by apply (b_unique _ s HB f' f c' c k).
  - intros Hoff. destruct (off_fiber_reached n shared onFiber s Hg Hr f c Hf Hoff) as [H1 H2]. split; [done|].
    by destruct (code c) as [[] []].
  - intros Hrun Hne. cbn [exec]. rewrite Hf. cbn [mbind option_bind]. rewrite Hrun.
    pose proof (b_shape _ s HB f c Hf) as Hs. unfold_code. destruct (code c) as [p kk] eqn:Hc. cbn [fst snd].
    assert (Hal : forall k, p = WEnter k \/ p = TEnter k \/ p = SEnter k \/ p = TPoll k -> is_Some (sems s !! k)).
    { intros k Hp. assert (Hcase : (k < length shared)%nat \/ local_of (code c) = Some k \/ (0 < occ k (tokens s))%nat).
      { rewrite Hc. destruct Hp as [-> |[-> |[-> | ->]]]; destruct kk; cbn in Hs; try done; subst; auto. right. right.
        unfold tokens. rewrite occ_app. apply list_elem_of_lookup_2 in Hf.
        assert (Hin : k ∈ cells s ≫= (fun c => pend (code c))).
        { apply list_elem_of_bind. exists c. split; [|done]. rewrite Hc. by left. }
        apply occ_elem in Hin. lia. }
      destruct Hcase as [H|[H|H]]; [by apply (b_shared _ s HB)|by destruct (b_local _ s HB f c k Hf H) as (_ & m & -> & _)|].
      destruct (b_tokens _ s HB k H) as (g & d & Hg' & Hd). destruct (b_local _ s HB g d k Hg' Hd) as (_ & m & -> & _). by eexists. }
    pose proof (i_cells s HI f c Hf) as Hok. unfold running in Hrun. apply bool_decide_eq_true in Hrun.
    destruct p; try (left; by eexists); try (destruct kk; try done; left; by eexists).
    + destruct (Hal k) as [m ->]; [auto|]. left. by eexists.
    + unfold cell_ok in Hok. rewrite Hc, Hrun in Hok. done.
    + destruct (Hal k) as [m ->]; [auto|]. left. by eexists.
    + destruct (Hal k) as [m ->]; [auto|]. left. by eexists.
    + destruct (Hal k) as [m ->]; [auto 6|]. left. by eexists.
    + destruct (i_resumers s HI f c n0 pc Hf) as (cn & k & -> & _); [by rewrite Hc|]. cbn. destruct (resume pc cn). left. by eexists.
    + destruct kk as [|k|]; try done. destruct (holder s); [right; by split; [left|]|]. left.
      destruct (b_local _ s HB f c k Hf) as (_ & m & -> & _); [by rewrite Hc|]. by eexists.
    + destruct (holder s); [right; by split; [right|]|]. left. by eexists.
Qed.

(** *** Concrete interleavings *)

Definition all_fibers (f : nat) : bool := true.
Definition one_semaphore : list (Z * Z) := [(0, 1)].
Lemma one_semaphore_good : good_args one_semaphore.
Proof. apply Forall_cons. split; [cbn; lia|apply Forall_nil_2]. Qed.

(** Caller 1, not on a fiber, finds no permit and polls; fiber 0 queues. *)
Definition first_on_fiber (f : nat) : bool := Nat.eqb f 0.
Definition poll_trace : list action := [Call 1 (Wait 0); Code 1; Call 0 (Wait 0); Code 0; Code 1].
(** Fiber 0 waits and is asleep; fiber 1 signals; fiber 0 runs on. *)
Definition handover_trace : list action :=
  [Call 0 (Wait 0); Code 0; Code 0; Worker 0; Worker 0; Call 1 (Signal 0); Code 1; Code 1; Code 1; Code 1; Dispatch 0].
(** The same with the signal between the push and [Suspend]. *)
Definition lost_signal_trace : list action :=
  [Call 0 (Wait 0); Code 0; Call 1 (Signal 0); Code 1; Code 1; Code 0; Worker 0; Worker 0].
(** And for the condition variable. *)
Definition lost_notify_trace : list action :=
  [Call 0 MLock; Call 0 CvWait; Code 0; Code 0; Code 0; Call 1 Notify_One; Code 1; Code 1; Code 1; Code 0; Worker 0; Worker 0].
(** A notification that arrives in time, the mutex locked again. *)
Definition notify_trace : list action :=
  [Call 0 MLock; Call 0 CvWait; Code 0; Code 0; Code 0; Code 0; Worker 0; Worker 0; Call 1 Notify_All; Code 1; Code 1; Code 1;
   Code 1; Code 1; Dispatch 0].

Example handover_resumes : (fun s => code <$> cells s !! 0%nat) <$> run (exec 1 all_fibers) handover_trace (start 2 one_semaphore) =
  Some (Some (CIdle, KIdle)).
Proof. vm_compute. reflexivity. Qed.

Lemma semaphore_permits_conserved_witness : exists s m,
  run (exec 1 first_on_fiber) poll_trace (start 2 one_semaphore) = Some s /\ sems s !! 0%nat = Some m /\ waitingFibers m = [0%nat] /\ permits m = 0.
Proof.
  assert (Hf : (fun s => waitingFibers <$> sems s !! 0%nat) <$> run (exec 1 first_on_fiber) poll_trace (start 2 one_semaphore) =
    Some (Some [0%nat])) by (vm_compute; reflexivity).
  destruct (run (exec 1 first_on_fiber) poll_trace (start 2 one_semaphore)) as [s|] eqn:E; [|discriminate Hf].
  injection Hf as Hf. destruct (sems s !! 0%nat) as [m|] eqn:Em; [|discriminate Hf]. injection Hf as Hw.
  exists s, m. split; [reflexivity|]. split; [exact Em|]. split; [exact Hw|].
  destruct (semaphore_permits_conserved 2 one_semaphore first_on_fiber s one_semaphore_good (ex_intro _ _ E) 0%nat m Em) as (_ & _ & H & _).
  apply H. rewrite Hw. discriminate.
Defined.

Lemma cv_notified_once_witness : exists s m,
  run (exec 1 all_fibers) notify_trace (start 2 one_semaphore) = Some s /\ sems s !! 1%nat = Some m /\ signals m = 1 /\ occ 1%nat (tokens s) = 0%nat.
Proof.
  assert (Hf : (fun s => (cells s !! 0%nat)) <$> run (exec 1 all_fibers) notify_trace (start 2 one_semaphore) =
    Some (Some (mk_cell (VLock, KWait 1) RUNNING (Some WRunning) false))) by (vm_compute; reflexivity).
  destruct (run (exec 1 all_fibers) notify_trace (start 2 one_semaphore)) as [s|] eqn:E; [|discriminate Hf]. injection Hf as Hc.
  destruct (proj1 (cv_notified_once 2 one_semaphore all_fibers s one_semaphore_good (ex_intro _ _ E) 0%nat _ Hc) 1%nat eq_refl)
    as (m & Hm & _ & H & _).
  exists s, m. split; [reflexivity|]. split; [exact Hm|]. exact (H eq_refl).
Defined.

(** Nobody is in [Resume] when both cells are elsewhere. *)
Lemma strand s c0 : cells s !! 0%nat = Some c0 -> asleep at_point c0 -> inv s ->
  (forall k, waits_at k (code c0) -> waitq (sems s) k = []) ->
  (exists c1, cells s = [c0; c1] /\ code c1 = (CIdle, KIdle)) -> stranded s 0 c0.
Proof.
  intros Hc Ha HI Hq (c1 & Hcs & Hc1). split; [done|]. split; [done|]. split.
  - intros k Hin. destruct (i_queue s HI k 0%nat Hin) as (c & Hc' & Hw & _). simplify_eq. rewrite (Hq k Hw) in Hin.
    by apply not_elem_of_nil in Hin.
  - rewrite Hcs. intros [|[|g]] d; cbn; [intros [= <-]|intros [= <-]|done].
    + destruct Ha as [Hp _]. unfold at_point in Hp. intros [pc Hr]. by rewrite Hr in Hp.
    + rewrite Hc1. by intros [? ?].
Qed.

(** Both lose wakeups.  A [Signal] or [Notify_One] that runs after the waiter
    has queued and before it calls [Suspend] takes it out of the queue, and its
    [Resume] does nothing because the fiber is still running: the call returns,
    the permit or notification is spent, and the waiter is never run again,
    whatever happens later. *)
Theorem sync_lost_wakeup :
  Forall (fun l => exists s c, run (exec 1 all_fibers) l (start 2 one_semaphore) = Some s /\ cells s !! 0%nat = Some c /\   asleep at_point c /\ (code <$> cells s !! 1%nat) = Some (CIdle, KIdle) /\   (forall s', reaches (exec 1 all_fibers) s s' -> cells s' !! 0%nat = Some c)) [lost_signal_trace; lost_notify_trace].
Proof.
  assert (Hgen : forall l s c0 c1, run (exec 1 all_fibers) l (start 2 one_semaphore) = Some s -> cells s = [c0; c1] -> asleep at_point c0 ->
    code c1 = (CIdle, KIdle) -> (forall k, waits_at k (code c0) -> waitq (sems s) k = []) ->
    exists s c, run (exec 1 all_fibers) l (start 2 one_semaphore) = Some s /\ cells s !! 0%nat = Some c /\
    asleep at_point c /\ (code <$> cells s !! 1%nat) = Some (CIdle, KIdle) /\
    (forall s', reaches (exec 1 all_fibers) s s' -> cells s' !! 0%nat = Some c)).
  { intros l s c0 c1 Hrun Hcs Ha Hc1 Hq. assert (H0 : cells s !! 0%nat = Some c0) by by rewrite Hcs.
    assert (HI : inv s) by (apply (sync_inv_reached 2 one_semaphore all_fibers); [apply one_semaphore_good|by exists l]).
    assert (HS : stranded s 0 c0) by (apply strand; eauto).
    exists s, c0. split_and!; try done; [by rewrite Hcs; cbn; rewrite Hc1|]. intros s' Hr.
    apply (reaches_invariant (exec 1 all_fibers) (fun s => stranded s 0 c0) s s'); [intros a s1 s2 H1 H2; by eapply sync_stranded_exec|done|done]. }
  assert (Hf : forall l, (l = lost_signal_trace \/ l = lost_notify_trace) -> exists k,
    ((fun s => (cells s, waitq (sems s) k)) <$> run (exec 1 all_fibers) l (start 2 one_semaphore)) =
    Some ([mk_cell (WSuspended k, if decide (k = 0%nat) then KIdle else KWait 1) SUSPENDED None false;
           mk_cell (CIdle, KIdle) RUNNING (Some WRunning) false], [])).
  { intros l [-> | ->]; [exists 0%nat|exists 1%nat]; vm_compute; reflexivity. }
  apply Forall_forall. intros l Hl. rewrite elem_of_cons, list_elem_of_singleton in Hl. destruct (Hf l Hl) as [k H].
  destruct (run (exec 1 all_fibers) l (start 2 one_semaphore)) as [s|] eqn:E; [|discriminate H]. injection H as Hcs Hq.
  rewrite <- E. eapply Hgen; [exact E|exact Hcs|done|done|].
  intros j Hw. rewrite (waits_inj j k _ Hw); [done|by right].
Qed.
