(* ===== verification/Waits.v ===== *)
(** * Events and wait groups ([include/Event.h], [include/DirectEvent.h],
      [WaitGroup] of [include/Task.h] and [src/Task.cpp], and the waiting
      operations of [src/TaskScheduler.cpp])

    Any number of actors -- fibers that run tasks, and other threads, which never
    suspend -- use named events, pooled [DirectEvent]s and wait groups.  A section
    guarded by a lock is one action unless other accesses to what it touches go
    around the lock; a fiber stands for the task it runs; suspension and [Resume]
    are the steps of [Parking.v], in the order the waiting operations use
    ([WANTS_SUSPEND] first, then the registration, the arm callback and the
    switch).  The arm callback of a client may call the operations that do not
    wait. *)
From stdpp Require Import strings.
From S2P Require Import Prelude Fiber Task Parking.

(** What a fiber waits for: a named event, or the [DirectEvent] [e] of the pool,
    taken by [WaitOnEventDirectArmed] itself or for [WaitFor] on a group. *)
Inductive target := TEvent (x : nat) | TSlot (e : nat) (og : option nat).

(** Where an actor's code is. *)
Inductive wait_pc :=
  | Client                                   (* the client's code, or its arm callback *)
  | EPark (x : nat) (armed : bool)           (* WaitOnEvent(Armed): about to store WANTS_SUSPEND *)
  | EAdd (x : nat) (armed : bool)            (* about to AddWaiter *)
  | DAcquire (og : option nat)               (* WaitOnEventDirectArmed: about to take a DirectEvent *)
  | DPark (e : nat) (og : option nat)        (* about to store WANTS_SUSPEND *)
  | DPublish (e : nat) (og : option nat)     (* about to store the waiter *)
  | GLock (e g : nat)                        (* WaitFor's arm: about to lock and insert *)
  | GOr (e g : nat)                          (* about to fetch_or *)
  | GErase (e g : nat)                       (* the count was 0: about to erase and signal *)
  | GUnlock (e g : nat)
  | Switch (t : target)                      (* about to switch away *)
  | Parked (t : target)
  | DRelease (e : nat)                       (* resumed: about to release the DirectEvent *)
  | Spin (g : nat)                           (* WaitFor off a fiber, WaitForMain: at the loop test *)
  | DExchange (e : nat)                      (* DirectEvent::Signal: about to exchange *)
  | Resuming (n : nat) (pc : resume_pc)      (* inside Resume of fiber n *)
  | Next                                     (* SignalAll, WakeAll: at the loop over to_wake *)
  | WTake (g : nat)                          (* WakeAll: about to lock and take the waiters *)
  | WAnd (g : nat).                          (* about to fetch_and and unlock *)

(** What the call is part of: the client's code ([Some t]: its arm callback), the
    arm of [WaitFor] that signals itself with the group locked, [SignalAll] with
    the fibers still to resume, [WakeAll] with the events still to signal. *)
Inductive kont :=
  | KClient (arm : option target)
  | KSelf (e g : nat)
  | KFibers (l : list nat) (arm : option target)
  | KSlots (l : list nat).

Abbreviation code_t := (wait_pc * kont)%type.

(** [WaitGroup]; [outstanding] is history: the counted tasks that have not
    completed. *)
Record group := mk_group {
  n : Z;
  mtx : option nat;
  waiters : list nat;
  outstanding : Z
}.

(** [registry] is [eventRegistry], the events being numbered in the order of their
    creation; [events] their waiters; [slots] the [waiter] of every [DirectEvent]
    of [eventPool] and [freeq] the free ones.  [removed] is history: fibers taken
    out of an event by [RemoveWaiter]. *)
Record state := mk_state {
  registry : gmap string nat;
  events : list (list nat);
  slots : list (option nat);
  freeq : list nat;
  groups : list group;
  cells : list (cell code_t);
  removed : list nat
}.

Definition set_insert (x : nat) (l : list nat) : list nat := if decide (x ∈ l) then l else l ++ [x].
Definition set_erase (x : nat) (l : list nat) : list nat := filter (fun y => y <> x) l.

Definition with_cell (s : state) (f : nat) (c : cell code_t) : state :=
  mk_state (registry s) (events s) (slots s) (freeq s) (groups s) (<[f := c]> (cells s)) (removed s).
Definition with_event (s : state) (x : nat) (l : list nat) : state :=
  mk_state (registry s) (<[x := l]> (events s)) (slots s) (freeq s) (groups s) (cells s) (removed s).
Definition with_slot (s : state) (e : nat) (w : option nat) : state :=
  mk_state (registry s) (events s) (<[e := w]> (slots s)) (freeq s) (groups s) (cells s) (removed s).
Definition with_group (s : state) (g : nat) (G : group) : state :=
  mk_state (registry s) (events s) (slots s) (freeq s) (<[g := G]> (groups s)) (cells s) (removed s).
Definition with_free (s : state) (q : list nat) : state :=
  mk_state (registry s) (events s) (slots s) q (groups s) (cells s) (removed s).

(** [TaskScheduler::GetEvent]: the state and the event. *)
Definition GetEvent (x : string) (s : state) : state * nat :=
  match registry s !! x with
  | Some i => (s, i)
  | None => (mk_state (<[x := length (events s)]> (registry s)) (events s ++ [[]]) (slots s) (freeq s) (groups s)
               (cells s) (removed s), length (events s))
  end.

(** The sections of [Event]: the waiters afterwards, and what is to be resumed. *)
Definition AddWaiter (f : nat) (l : list nat) : list nat := set_insert f l.
Definition RemoveWaiter (f : nat) (l : list nat) : list nat := set_erase f l.
Definition event_signal (f : nat) (l : list nat) : list nat * bool :=
  if decide (f ∈ l) then (set_erase f l, true) else (l, false).
Definition event_signal_all (l : list nat) : list nat * list nat := ([], l).

(** [EventPool::Acquire]: which free event the queue yields is up to it ([i]). *)
Definition EventPool_Acquire (i : nat) (s : state) : option (nat * state) :=
  e ← freeq s !! i;
  Some (e, with_slot (with_free s (delete i (freeq s))) e None).
Definition EventPool_Release (e : nat) (s : state) : state := with_free s (freeq s ++ [e]).

(** Back from [Signal] or [Resume]. *)
Definition ret (k : kont) : code_t :=
  match k with
  | KClient a => (Client, KClient a)
  | KSelf e g => (GUnlock e g, KClient None)
  | KFibers l a => (Next, KFibers l a)
  | KSlots l => (Next, KSlots l)
  end.

(** The code of the caller after a step of [Resume]. *)
Definition resumed_code (t : nat) (pc' : resume_pc) (k : kont) : code_t :=
  if decide (pc' = RDone) then ret k else (Resuming t pc', k).

(** After the switch. *)
Definition wake (p : code_t) : code_t :=
  match p.1 with
  | Parked (TSlot e _) => (DRelease e, KClient None)
  | Parked (TEvent _) => (Client, KClient None)
  | _ => p
  end.

Section Steps.
Context (f : nat) (c : cell code_t).

Definition go (s : state) (p : code_t) : option state := Some (with_cell s f (set_code c p)).

(** [DirectEvent::Signal]: its exchange. *)
Definition direct_signal (e : nat) (k : kont) (s : state) : option state :=
  w ← slots s !! e;
  match w with
  | Some t => go (with_slot s e None) (Resuming t RLoad, k)
  | None => go s (ret k)
  end.

Definition resume_fiber (t : nat) (pc : resume_pc) (k : kont) (s : state) : option state :=
  ct ← cells s !! t;
  let '(ct', pc') := resume pc ct in
  let s' := with_cell s t ct' in
  c' ← cells s' !! f;
  Some (with_cell s' f (set_code c' (resumed_code t pc' k))).

(** The arm callback of [WaitFor]. *)
Definition wait_for_lock (e g : nat) (s : state) : option state :=
  G ← groups s !! g;
  match mtx G with
  | Some _ => None
  | None => go (with_group s g (mk_group (n G) (Some f) (set_insert e (waiters G)) (outstanding G))) (GOr e g, KClient None)
  end.
Definition wait_for_or (e g : nat) (s : state) : option state :=
  G ← groups s !! g;
  let '(n', zero) := announce_waiter (n G) in
  go (with_group s g (mk_group n' (mtx G) (waiters G) (outstanding G))) (if zero then GErase e g else GUnlock e g, KClient None).
Definition wait_for_erase (e g : nat) (s : state) : option state :=
  G ← groups s !! g;
  go (with_group s g (mk_group (n G) (mtx G) (set_erase e (waiters G)) (outstanding G))) (DExchange e, KSelf e g).
Definition wait_for_unlock (e g : nat) (s : state) : option state :=
  G ← groups s !! g;
  go (with_group s g (mk_group (n G) None (waiters G) (outstanding G))) (Switch (TSlot e (Some g)), KClient None).

(** [WaitGroup::WakeAll]. *)
Definition wake_all_take (g : nat) (s : state) : option state :=
  G ← groups s !! g;
  match mtx G with
  | Some _ => None
  | None => go (with_group s g (mk_group (n G) (Some f) [] (outstanding G))) (WAnd g, KSlots (waiters G))
  end.
Definition wake_all_and (g : nat) (l : list nat) (s : state) : option state :=
  G ← groups s !! g;
  go (with_group s g (mk_group (clear_waiter (n G)) None (waiters G) (outstanding G))) (Next, KSlots l).

(** The loops of [SignalAll] and [WakeAll]; the order is that of a hash set. *)
Definition next_waiter (i : nat) (k : kont) (s : state) : option state :=
  match k with
  | KFibers [] a => go s (Client, KClient a)
  | KFibers l a => t ← l !! i; go s (Resuming t RLoad, KFibers (delete i l) a)
  | KSlots [] => go s (Client, KClient None)
  | KSlots l => e ← l !! i; go s (DExchange e, KSlots (delete i l))
  | _ => None
  end.

(** The next access of the code; [i] chooses where the code does not say. *)
Definition code_step (i : nat) (s : state) : option state :=
  let k := (code c).2 in
  match (code c).1 with
  | Client | Parked _ => None
  | EPark x armed => Some (with_cell s f (park c (EAdd x armed, KClient None)))
  | EAdd x armed =>
      l ← events s !! x;
      go (with_event s x (AddWaiter f l))
         (if armed then (Client, KClient (Some (TEvent x))) else (Switch (TEvent x), KClient None))
  | DAcquire og => '(e, s') ← EventPool_Acquire i s; go s' (DPark e og, KClient None)
  | DPark e og => Some (with_cell s f (park c (DPublish e og, KClient None)))
  | DPublish e og =>
      go (with_slot s e (Some f))
         (match og with None => (Client, KClient (Some (TSlot e None))) | Some g => (GLock e g, KClient None) end)
  | GLock e g => wait_for_lock e g s
  | GOr e g => wait_for_or e g s
  | GErase e g => wait_for_erase e g s
  | GUnlock e g => wait_for_unlock e g s
  | Switch t => Some (with_cell s f (switch_out c (Parked t, KClient None)))
  | DRelease e => go (EventPool_Release e s) (Client, KClient None)
  | Spin g => G ← groups s !! g; if keeps_spinning (n G) then None else go s (Client, KClient None)
  | DExchange e => direct_signal e k s
  | Resuming t pc => resume_fiber t pc k s
  | Next => next_waiter i k s
  | WTake g => wake_all_take g s
  | WAnd g => match k with KSlots l => wake_all_and g l s | _ => None end
  end.

Inductive call :=
  | CWaitOnEvent (x : string) | CWaitOnEventArmed (x : string) | CWaitOnEventDirectArmed
  | CWaitFor (g : nat)
  | CSpin (g : nat)                   (* WaitFor off a fiber, WaitForMain *)
  | CArmed                            (* the arm callback returns *)
  | CGetEvent (x : string)
  | CSignal (x t : nat) | CSignalAll (x : nat) | CRemoveWaiter (x t : nat)    (* Event *)
  | CDirectSignal (e : nat)           (* DirectEvent::Signal *)
  | CRunCounted (g : nat)             (* n.fetch_add(1) *)
  | CComplete (g : nat).              (* a counted task completes *)

(** [a]: the arm callback the client is in, in which it does not wait.  Fewer
    than 2^30 tasks are outstanding in a group. *)
Definition call_step (a : option target) (x : call) (s : state) : option state :=
  match x, a with
  | CWaitOnEvent name, None => let '(s', x) := GetEvent name s in go s' (EPark x false, KClient None)
  | CWaitOnEventArmed name, None => let '(s', x) := GetEvent name s in go s' (EPark x true, KClient None)
  | CWaitOnEventDirectArmed, None => go s (DAcquire None, KClient None)
  | CWaitFor g, None => _ ← groups s !! g; go s (DAcquire (Some g), KClient None)
  | CSpin g, None => _ ← groups s !! g; go s (Spin g, KClient None)
  | CArmed, Some t => go s (Switch t, KClient None)
  | CGetEvent name, _ => Some (GetEvent name s).1
  | CSignal x t, _ =>
      l ← events s !! x;
      let '(l', found) := event_signal t l in
      go (with_event s x l') (if found then (Resuming t RLoad, KClient a) else (Client, KClient a))
  | CSignalAll x, _ =>
      l ← events s !! x;
      let '(l', to_wake) := event_signal_all l in
      go (with_event s x l') (Next, KFibers to_wake a)
  | CRemoveWaiter x t, _ =>
      l ← events s !! x;
      let s' := with_event s x (RemoveWaiter t l) in
      Some (mk_state (registry s') (events s') (slots s') (freeq s') (groups s') (cells s')
              (if decide (t ∈ l) then t :: removed s else removed s))
  | CDirectSignal e, _ => _ ← slots s !! e; go s (DExchange e, KClient a)
  | CRunCounted g, _ =>
      G ← groups s !! g;
      if outstanding G <? COUNT_MASK
      then Some (with_group s g (mk_group (n G + 1) (mtx G) (waiters G) (outstanding G + 1))) else None
  | CComplete g, None =>
      G ← groups s !! g;
      if 0 <? outstanding G
      then let '(n', wakes) := complete (n G) in
           go (with_group s g (mk_group n' (mtx G) (waiters G) (outstanding G - 1)))
              (if wakes then (WTake g, KClient None) else (Client, KClient None))
      else None
  | _, _ => None
  end.
End Steps.

Inductive action :=
  | Call (f : nat) (x : call)
  | Code (f i : nat)
  | Worker (f : nat)                 (* the worker that switched back from f goes on *)
  | Dispatch (f : nat).              (* a worker takes f's task and switches in *)

Definition exec (a : action) (s : state) : option state :=
  match a with
  | Call f x =>
      c ← cells s !! f;
      match code c, running c with (Client, KClient arm), true => call_step f c arm x s | _, _ => None end
  | Code f i => c ← cells s !! f; if running c then code_step f c i s else None
  | Worker f => c ← cells s !! f; c' ← worker_step c; Some (with_cell s f c')
  | Dispatch f => c ← cells s !! f; c' ← dispatch wake c; Some (with_cell s f c')
  end.

(** [actors] actors, a pool of [pool] events ([eventPool] has 1024), and groups
    with the given numbers of counted tasks. *)
Definition start (actors pool : nat) (counts : list Z) : state :=
  mk_state ∅ [] (replicate pool None) (seq 0 pool) (map (fun k => mk_group k None [] k) counts)
    (replicate actors (mk_cell (Client, KClient None) RUNNING (Some WRunning) false)) [].

(** In [Hs], the group the code works on exists. *)
Ltac open_group Hs G Hg :=
  match type of Hs with
  | context [groups ?s !! ?g] => destruct (groups s !! g) as [G|] eqn:Hg; [|discriminate Hs]
  end; cbn [mbind option_bind announce_waiter] in Hs.

(** ** Registration and resumption *)

Definition kwaits (k : kont) : option target :=
  match k with
  | KClient a | KFibers _ a => a
  | KSelf e g => Some (TSlot e (Some g))
  | KSlots _ => None
  end.

(** What the fiber is registered for, from the registration to the switch back. *)
Definition waits (p : code_t) : option target :=
  match p.1 with
  | GLock e g | GOr e g | GErase e g | GUnlock e g => Some (TSlot e (Some g))
  | Switch t | Parked t => Some t
  | Client | DExchange _ | Resuming _ _ | Next => kwaits p.2
  | _ => None
  end.

Definition at_point (p : code_t) : point :=
  match p.1 with
  | Parked _ => Inside
  | EAdd _ _ | DPublish _ _ => Committed
  | _ => match waits p with Some _ => Committed | None => Elsewhere end
  end.

(** What may be waiting for the call to return. *)
Definition shape (p : code_t) : Prop :=
  match p.1, p.2 with
  | Client, KClient _ => True
  | DExchange _, (KClient _ | KSelf _ _ | KSlots _) => True
  | Resuming _ _, _ => True
  | Next, (KFibers _ _ | KSlots _) => True
  | WAnd _, KSlots _ => True
  | (Client | DExchange _ | Next | WAnd _), _ => False
  | _, KClient None => True
  | _, _ => False
  end.

(** The fibers that the actor is going to resume, the [DirectEvent]s that it is
    going to signal, the one that it holds. *)
Definition kfibers (k : kont) : list nat := match k with KFibers l _ => l | _ => [] end.
Definition owned (p : code_t) : list nat := match p.1 with Resuming t _ => [t] | _ => [] end ++ kfibers p.2.
Definition will_signal (p : code_t) : list nat :=
  match p.1 with DExchange e => [e] | _ => [] end ++ match p.2 with KSlots l => l | _ => [] end.
Definition held (p : code_t) : list nat :=
  match p.1 with
  | DPark e _ | DPublish e _ | DRelease e => [e]
  | _ => match waits p with Some (TSlot e _) => [e] | _ => [] end
  end.

(** Where a fiber is registered. *)
Inductive spot := REvent (x : nat) | RSlot (e : nat) | RRemoved.

Definition reg (s : state) (t : nat) (r : spot) : Prop :=
  match r with
  | REvent x => exists l, events s !! x = Some l /\ t ∈ l
  | RSlot e => slots s !! e = Some (Some t)
  | RRemoved => t ∈ removed s
  end.
Definition fits (r : spot) (t : target) : Prop :=
  match r, t with
  | REvent x, TEvent y => x = y
  | RSlot e, TSlot e' _ => e = e'
  | RRemoved, TEvent _ => True
  | _, _ => False
  end.

Definition owns (p : code_t) (t : nat) (pc : resume_pc) : Prop := p.1 = Resuming t pc \/ t ∈ kfibers p.2 /\ pc = RLoad.

(** Everything that may resume a fiber. *)
Definition tokens (s : state) : list nat :=
  (events s ≫= id) ++ (slots s ≫= option_list) ++ removed s ++ (cells s ≫= fun c => owned (code c)).
Definition pool (s : state) : list nat := freeq s ++ (cells s ≫= fun c => held (code c)).

Record inv (s : state) : Prop := {
  i_cells : forall f c, cells s !! f = Some c -> cell_ok at_point c;
  i_shape : forall f c, cells s !! f = Some c -> shape (code c);
  i_fresh : forall f c, cells s !! f = Some c -> at_point (code c) = Committed -> waits (code c) = None -> unsignaled at_point c;
  i_reg : forall t r, reg s t r ->
    exists c tgt, cells s !! t = Some c /\ waits (code c) = Some tgt /\ fits r tgt /\ unsignaled at_point c;
  i_own : forall g d t pc, cells s !! g = Some d -> owns (code d) t pc ->
    exists c, cells s !! t = Some c /\ is_Some (waits (code c)) /\ resume_ok at_point pc c;
  i_once : forall t, (occ t (tokens s) <= 1)%nat;
  i_pub : forall t c, cells s !! t = Some c -> is_Some (waits (code c)) -> needs_resume at_point c -> (0 < occ t (tokens s))%nat;
  i_pool : forall e, occ e (pool s) = if decide (e < length (slots s))%nat then 1%nat else 0%nat
}.

Lemma occ_reg s t r : reg s t r -> (0 < occ t (tokens s))%nat.
Proof.
  unfold tokens. rewrite !occ_app. destruct r as [x|e|]; cbn.
  - intros (l & Hl & Ht%occ_elem). pose proof (occ_bind_lookup t id _ _ _ Hl). cbn in *. lia.
  - intros He. pose proof (occ_bind_lookup t option_list _ _ _ He) as H. cbn in H. rewrite decide_True in H by done. lia.
  - intros Ht%occ_elem. lia.
Qed.

Lemma owns_owned p t : t ∈ owned p <-> exists pc, owns p t pc.
Proof.
  unfold owned, owns. rewrite elem_of_app. split.
  - intros [H|H]; [|by exists RLoad; right]. destruct (p.1) eqn:E; try by apply not_elem_of_nil in H.
    apply list_elem_of_singleton in H as ->. eexists. by left.
  - intros [pc [-> |[H _]]]; [left; by left|by right].
Qed.

Lemma occ_owns s g d t pc : cells s !! g = Some d -> owns (code d) t pc -> (0 < occ t (tokens s))%nat.
Proof.
  intros Hg Ho. unfold tokens. rewrite !occ_app. pose proof (occ_bind_lookup t (fun c => owned (code c)) _ _ _ Hg) as H.
  assert (Hin : t ∈ owned (code d)) by (apply owns_owned; eauto). apply occ_elem in Hin. lia.
Qed.

Lemma waits_occ_tokens s t : (0 < occ t (tokens s))%nat ->
  (exists r, reg s t r) \/ exists g d pc, cells s !! g = Some d /\ owns (code d) t pc.
Proof.
  unfold tokens. rewrite !occ_app. intros H.
  destruct (decide (0 < occ t (events s ≫= id))%nat) as [E|E].
  { apply occ_bind_elem in E as (x & l & Hx & Ht). left. exists (REvent x), l. done. }
  destruct (decide (0 < occ t (slots s ≫= option_list))%nat) as [E'|E'].
  { apply occ_bind_elem in E' as (e & [w|] & He & Ht); [|by apply not_elem_of_nil in Ht].
    apply list_elem_of_singleton in Ht as ->. left. by exists (RSlot e). }
  destruct (decide (0 < occ t (removed s))%nat) as [E2|E2]; [left; exists RRemoved; by apply occ_elem|].
  right. assert (H3 : (0 < occ t (cells s ≫= fun c => owned (code c)))%nat) by lia.
  apply occ_bind_elem in H3 as (g & d & Hg & [pc Ho]%owns_owned). eauto.
Qed.

(** One actor moves: the registrations that are left were there, or are its own. *)
Lemma waits_inv_update s s' f c c' :
  inv s -> cells s !! f = Some c -> cells s' = <[f := c']> (cells s) -> cell_ok at_point c' -> shape (code c') ->
  (at_point (code c') = Committed -> waits (code c') = None -> unsignaled at_point c') ->
  (forall t, t <> f -> occ t (tokens s') = occ t (tokens s)) ->
  (occ f (tokens s') <= 1)%nat -> (is_Some (waits (code c')) -> needs_resume at_point c' -> (0 < occ f (tokens s'))%nat) ->
  (forall t r, reg s' t r -> (exists r', reg s t r' /\ forall tgt, fits r' tgt -> fits r tgt) \/
     t = f /\ exists tgt, waits (code c') = Some tgt /\ fits r tgt /\ unsignaled at_point c') ->
  occ f (tokens s) = 0%nat \/
    (forall tgt, waits (code c) = Some tgt -> waits (code c') = Some tgt) /\
    (unsignaled at_point c -> unsignaled at_point c') /\ (forall pc, resume_ok at_point pc c -> resume_ok at_point pc c') ->
  (forall t pc, owns (code c') t pc -> owns (code c) t pc \/ pc = RLoad /\ exists r, reg s t r) ->
  (forall e, occ e (pool s') = if decide (e < length (slots s'))%nat then 1%nat else 0%nat) ->
  inv s'.
Proof.
  intros HI Hf Hcs Hok Hsh Hfr Hocc Honce Hpub Hreg Hkeep Hown Hpool.
  assert (Hlt : (f < length (cells s))%nat) by by eapply lookup_lt_Some.
  assert (Hsplit : forall g d, cells s' !! g = Some d -> g = f /\ d = c' \/ g <> f /\ cells s !! g = Some d).
  { rewrite Hcs. intros g d [(-> & <- & _)|[Hne Hg]]%list_lookup_insert_Some; auto. }
  assert (Hself : cells s' !! f = Some c') by (by rewrite Hcs, list_lookup_insert_eq).
  assert (Hother : forall g, g <> f -> cells s' !! g = cells s !! g) by (intros g ?; by rewrite Hcs, list_lookup_insert_ne).
  assert (HO : forall g d t pc, cells s !! g = Some d -> owns (code d) t pc ->
    exists ct, cells s' !! t = Some ct /\ is_Some (waits (code ct)) /\ resume_ok at_point pc ct).
  { intros g d t pc Hg Ho. destruct (i_own s HI g d t pc Hg Ho) as (ct & Ht & [tgt Hw] & Hr).
    destruct (decide (t = f)) as [->|Hne]; [|exists ct; rewrite Hother by done; eauto].
    simplify_eq. destruct Hkeep as [H0|(K1 & _ & K2)].
    - pose proof (occ_owns s g d f pc Hg Ho). lia.
    - exists c'. split_and!; auto. exists tgt. auto. }
  assert (HR : forall t r, reg s t r -> exists ct tgt, cells s' !! t = Some ct /\ waits (code ct) = Some tgt /\ fits r tgt /\
    unsignaled at_point ct).
  { intros t r Hr. destruct (i_reg s HI t r Hr) as (ct & tgt & Ht & Hw & Hft & Hu).
    destruct (decide (t = f)) as [->|Hne]; [|exists ct, tgt; rewrite Hother by done; eauto].
    simplify_eq. destruct Hkeep as [H0|(K1 & K2 & _)].
    - pose proof (occ_reg s f r Hr). lia.
    - exists c', tgt. auto. }
  constructor.
  - intros g d [[-> ->]|[_ Hg]]%Hsplit; [done|by eapply i_cells].
  - intros g d [[-> ->]|[_ Hg]]%Hsplit; [done|by eapply i_shape].
  - intros g d [[-> ->]|[_ Hg]]%Hsplit; [done|by eapply i_fresh].
  - intros t r Hr. destruct (Hreg t r Hr) as [(r' & H & Hfit)|(-> & tgt & H)]; [|exists c', tgt; auto].
    destruct (HR t r' H) as (ct & tgt & H1 & H2 & H3 & H4). exists ct, tgt. auto.
  - intros g d t pc [[-> ->]|[_ Hg]]%Hsplit Ho; [|by eapply HO].
    destruct (Hown t pc Ho) as [H|[-> [r Hr]]]; [by eapply HO|].
    destruct (HR t r Hr) as (ct & tgt & H1 & H2 & _ & H3). exists ct. eauto.
  - intros t. destruct (decide (t = f)) as [->|Hne]; [done|]. rewrite Hocc by done. by apply i_once.
  - intros t d [[-> ->]|[Hne Ht]]%Hsplit; [done|]. rewrite Hocc by done. by apply i_pub.
  - done.
Qed.

(** What a change of one cell, event, slot does to the tokens and the pool. *)
Lemma occ_tokens_cell s f c c' t : cells s !! f = Some c ->
  (occ t (tokens (with_cell s f c')) + occ t (owned (code c)) = occ t (tokens s) + occ t (owned (code c')))%nat.
Proof.
  intros Hf. unfold tokens. cbn [with_cell events slots removed cells]. rewrite !occ_app.
  pose proof (occ_bind_insert t (fun c => owned (code c)) (cells s) f c c' Hf). lia.
Qed.
Lemma occ_pool_cell s f c c' e : cells s !! f = Some c ->
  (occ e (pool (with_cell s f c')) + occ e (held (code c)) = occ e (pool s) + occ e (held (code c')))%nat.
Proof.
  intros Hf. unfold pool. cbn [with_cell freeq cells]. rewrite !occ_app.
  pose proof (occ_bind_insert e (fun c => held (code c)) (cells s) f c c' Hf). lia.
Qed.
Lemma occ_tokens_event s x l l' t : events s !! x = Some l ->
  (occ t (tokens (with_event s x l')) + occ t l = occ t (tokens s) + occ t l')%nat.
Proof.
  intros Hx. unfold tokens. cbn [with_event events slots removed cells]. rewrite !occ_app.
  pose proof (occ_bind_insert t id (events s) x l l' Hx). cbn [id] in *. lia.
Qed.
Lemma occ_tokens_slot s e w w' t : slots s !! e = Some w ->
  (occ t (tokens (with_slot s e w')) + occ t (option_list w) = occ t (tokens s) + occ t (option_list w'))%nat.
Proof.
  intros He. unfold tokens. cbn [with_slot events slots removed cells]. rewrite !occ_app.
  pose proof (occ_bind_insert t option_list (slots s) e w w' He). lia.
Qed.

Lemma no_token s f c : inv s -> cells s !! f = Some c -> waits (code c) = None -> occ f (tokens s) = 0%nat.
Proof.
  intros HI Hf Hw. destruct (decide (occ f (tokens s) = 0%nat)) as [|Hne]; [done|exfalso].
  destruct (waits_occ_tokens s f) as [[r Hr]|(g & d & pc & Hg & Ho)]; [lia| |].
  - destruct (i_reg s HI f r Hr) as (c0 & tgt & ? & ? & _). congruence.
  - destruct (i_own s HI g d f pc Hg Ho) as (c0 & ? & [? ?] & _). congruence.
Qed.

Lemma held_unique s f g c d e : inv s -> cells s !! f = Some c -> cells s !! g = Some d ->
  e ∈ held (code c) -> e ∈ held (code d) -> f = g.
Proof.
  intros HI Hf Hg Hc%occ_elem Hd%occ_elem. destruct (decide (f = g)) as [|Hne]; [done|exfalso].
  pose proof (occ_bind_two e (fun c => held (code c)) _ _ _ _ _ Hne Hf Hg) as H. cbn in H.
  pose proof (i_pool s HI e) as Hp. unfold pool in Hp. rewrite occ_app in Hp. destruct (decide _) in Hp; lia.
Qed.

Lemma held_slot s f c e : inv s -> cells s !! f = Some c -> e ∈ held (code c) -> is_Some (slots s !! e).
Proof.
  intros HI Hf Hc%occ_elem. pose proof (occ_bind_lookup e (fun c => held (code c)) _ _ _ Hf) as H. cbn in H.
  pose proof (i_pool s HI e) as Hp. unfold pool in Hp. rewrite occ_app in Hp. apply lookup_lt_is_Some.
  destruct (decide _) in Hp; [done|lia].
Qed.

Lemma waits_held p e og : waits p = Some (TSlot e og) -> e ∈ held p.
Proof. unfold held. destruct p as [[] k]; cbn; intros H; simplify_eq; rewrite ?H; by left. Qed.

(** A published [DirectEvent] is held by the fiber that waits for it. *)
Lemma slot_holder s e t : inv s -> slots s !! e = Some (Some t) ->
  exists c og, cells s !! t = Some c /\ waits (code c) = Some (TSlot e og) /\ e ∈ held (code c) /\ unsignaled at_point c.
Proof.
  intros HI He. destruct (i_reg s HI t (RSlot e) He) as (c & [x|e' og] & Hc & Hw & Hft & Hu); [done|]. cbn in Hft. subst e'.
  exists c, og. split_and!; try done. by eapply waits_held.
Qed.

(** The code moves between points of the same kind; registrations may become
    resumptions. *)
Lemma waits_inv_take s s' f c p :
  inv s -> cells s !! f = Some c -> cells s' = <[f := set_code c p]> (cells s) ->
  freeq s' = freeq s -> length (slots s') = length (slots s) -> shape p ->
  waits p = waits (code c) -> at_point p = at_point (code c) -> held p = held (code c) ->
  (forall t, occ t (tokens s') = occ t (tokens s)) ->
  (forall t r, reg s' t r -> exists r', reg s t r' /\ forall tgt, fits r' tgt -> fits r tgt) ->
  (forall t pc, owns p t pc -> owns (code c) t pc \/ pc = RLoad /\ exists r, reg s t r) ->
  inv s'.
Proof.
  intros HI Hf Hcs Hq Hlen Hsh Hw Hp Hh Hocc Hreg Hown. destruct (same_point_ok at_point c p Hp) as (P1 & P2 & P3).
  eapply waits_inv_update; try done.
  - by apply P1, (i_cells s HI f).
  - cbn [code set_code]. rewrite Hw, Hp. intros H1 H2. by apply P2, (i_fresh s HI f).
  - rewrite Hocc. by apply i_once.
  - intros Hs Hu. rewrite Hocc. apply (i_pub s HI f c Hf); [by rewrite <- Hw|by eapply same_point_needs].
  - intros t r Hr. left. by apply Hreg.
  - right. cbn [code set_code]. rewrite Hw. split; [done|]. split; [apply P2|]. intros pc. apply P3.
  - intros e. rewrite Hlen, <- (i_pool s HI e). unfold pool. rewrite Hq, Hcs, !occ_app.
    pose proof (occ_bind_insert e (fun c => held (code c)) (cells s) f c (set_code c p) Hf) as H. cbn [code set_code] in H.
    rewrite Hh in H. lia.
Qed.

(** The same with nothing registered, taken out or handed over. *)
Lemma waits_inv_move s f c p :
  inv s -> cells s !! f = Some c -> shape p -> waits p = waits (code c) -> at_point p = at_point (code c) ->
  held p = held (code c) -> (forall t, occ t (owned p) = occ t (owned (code c))) ->
  (forall t pc, owns p t pc -> owns (code c) t pc) -> inv (with_cell s f (set_code c p)).
Proof.
  intros HI Hf Hsh Hw Hp Hh Ho Hown. eapply waits_inv_take; try done.
  - intros t. pose proof (occ_tokens_cell s f c (set_code c p) t Hf) as H. cbn [code set_code] in H. rewrite Ho in H. lia.
  - intros t r Hr. by exists r.
  - intros t pc H. left. by apply Hown.
Qed.

Lemma waits_inv_group s g G : inv s -> inv (with_group s g G).
Proof. intros []. by constructor. Qed.

Lemma waits_inv_get x s : inv s -> inv (GetEvent x s).1.
Proof.
  intros HI. unfold GetEvent. destruct (registry s !! x); [done|]. cbn [fst].
  match goal with |- inv ?s' => assert (Htok : forall t, occ t (tokens s') = occ t (tokens s)) end.
  { intros t. unfold tokens. cbn. rewrite bind_app, !occ_app. cbn. lia. }
  destruct HI. constructor; try done.
  - intros t r Hr. apply (i_reg0 t r). destruct r as [y|e|]; try done. destruct Hr as (l & Hl & Ht).
    apply lookup_app_Some in Hl as [Hl|[_ Hl]]; [by exists l|]. apply list_lookup_singleton_Some in Hl as [_ <-].
    by apply not_elem_of_nil in Ht.
  - intros t. rewrite Htok. apply i_once0.
  - intros t c Ht Hs Hu. rewrite Htok. by apply (i_pub0 t c).
Qed.

(** [WANTS_SUSPEND] is stored before the registration. *)
Lemma waits_inv_park s f c p :
  inv s -> cells s !! f = Some c -> at_point (code c) = Elsewhere -> at_point p = Committed ->
  waits (code c) = None -> waits p = None -> owned (code c) = [] -> owned p = [] -> (forall t pc, ~ owns p t pc) ->
  held p = held (code c) -> shape p -> inv (with_cell s f (park c p)).
Proof.
  intros HI Hf H1 H2 H3 H4 H5 H6 H7 H8 Hsh. destruct (park_ok at_point c p) as [P1 P2]; [by eapply i_cells|done|done|].
  assert (Htok : forall t, occ t (tokens (with_cell s f (park c p))) = occ t (tokens s)).
  { intros t. pose proof (occ_tokens_cell s f c (park c p) t Hf) as H. cbn [code park] in H. rewrite H5, H6 in H. lia. }
  pose proof (no_token s f c HI Hf H3) as H0. eapply waits_inv_update; try done.
  - rewrite Htok. lia.
  - cbn [code park]. rewrite H4. by intros [? ?].
  - intros t r Hr. left. by exists r.
  - by left.
  - intros t pc Ho. by destruct (H7 t pc).
  - intros e. cbn [with_cell slots]. rewrite <- (i_pool s HI e). pose proof (occ_pool_cell s f c (park c p) e Hf) as H.
    cbn [code park] in H. rewrite H8 in H. lia.
Qed.

(** The registration. *)
Lemma waits_inv_publish s s' f c p tgt r :
  inv s -> cells s !! f = Some c -> cells s' = <[f := set_code c p]> (cells s) -> freeq s' = freeq s ->
  length (slots s') = length (slots s) -> at_point (code c) = Committed -> waits (code c) = None ->
  at_point p = Committed -> waits p = Some tgt -> fits r tgt -> shape p -> (forall t pc, ~ owns p t pc) ->
  held p = held (code c) -> (forall t, occ t (tokens s') = occ t (tokens s) + if decide (f = t) then 1 else 0)%nat ->
  (forall t r', reg s' t r' -> reg s t r' \/ t = f /\ r' = r) -> inv s'.
Proof.
  intros HI Hf Hcs Hq Hlen H1 H2 H3 H4 Hfit Hsh Hown Hh Hocc Hreg.
  destruct (same_point_ok at_point c p) as (P1 & P2 & P3); [congruence|].
  pose proof (no_token s f c HI Hf H2) as H0. pose proof (i_fresh s HI f c Hf H1 H2) as Hu.
  eapply waits_inv_update; try done.
  - by apply P1, (i_cells s HI f).
  - cbn [code set_code]. congruence.
  - intros t Hne. rewrite Hocc, decide_False by done. lia.
  - rewrite Hocc, H0, decide_True by done. lia.
  - intros _ _. rewrite Hocc, decide_True by done. lia.
  - intros t r' Hr. destruct (Hreg t r' Hr) as [H|[-> ->]]; [left; by exists r'|right]. split; [done|]. exists tgt.
    split_and!; try done. by apply P2.
  - by left.
  - intros t pc Ho. by destruct (Hown t pc).
  - intros e. rewrite Hlen, <- (i_pool s HI e). unfold pool. rewrite Hq, Hcs, !occ_app.
    pose proof (occ_bind_insert e (fun c => held (code c)) (cells s) f c (set_code c p) Hf) as H. cbn [code set_code] in H.
    rewrite Hh in H. lia.
Qed.

(** An actor that waits for nothing moves; it may take or give back a
    [DirectEvent]. *)
Lemma waits_inv_client s f c p q :
  inv s -> cells s !! f = Some c -> at_point (code c) = Elsewhere -> at_point p = Elsewhere ->
  owned (code c) = [] -> (forall t pc, ~ owns p t pc) -> owned p = [] -> shape p ->
  (forall e, occ e q + occ e (held p) = occ e (freeq s) + occ e (held (code c)))%nat ->
  inv (with_cell (with_free s q) f (set_code c p)).
Proof.
  intros HI Hf H1 H2 H3 H4 H5 Hsh Hq.
  assert (Hno : forall p, at_point p = Elsewhere -> waits p = None).
  { intros p0. unfold at_point, waits. by destruct p0 as [[] k]; cbn; try done; destruct (kwaits k). }
  assert (Htok : forall t, occ t (tokens (with_cell (with_free s q) f (set_code c p))) = occ t (tokens s)).
  { intros t. pose proof (occ_tokens_cell (with_free s q) f c (set_code c p) t Hf) as H. cbn [code set_code] in H. rewrite H3, H5 in H.
    unfold tokens in *. cbn in *. lia. }
  pose proof (no_token s f c HI Hf (Hno _ H1)) as H0. eapply waits_inv_update; [exact HI|exact Hf|try done..].
  - apply cell_ok_set_code; [by eapply i_cells|by left|by left].
  - cbn [code set_code]. congruence.
  - rewrite Htok. lia.
  - cbn [code set_code]. rewrite (Hno p H2). by intros [? ?].
  - intros t r Hr. left. by exists r.
  - by left.
  - intros t pc Ho. by destruct (H4 t pc).
  - intros e. cbn [with_cell with_free slots]. rewrite <- (i_pool s HI e). specialize (Hq e).
    pose proof (occ_pool_cell (with_free s q) f c (set_code c p) e Hf) as H. cbn [code set_code] in H.
    unfold pool in *. cbn [with_free with_cell freeq cells] in *. rewrite !occ_app in *. lia.
Qed.

Lemma waits_inv_switch s f c t k :
  inv s -> cells s !! f = Some c -> code c = (Switch t, k) -> inv (with_cell s f (switch_out c (Parked t, KClient None))).
Proof.
  intros HI Hf Hc. assert (Hp : at_point (code c) = Committed) by by rewrite Hc.
  assert (Hk : k = KClient None) by (pose proof (i_shape s HI f c Hf) as H; rewrite Hc in H; by destruct k as [[]| | |]).
  subst k. destruct (switch_out_ok at_point c (Parked t, KClient None)) as (P1 & P2 & P3); [by eapply i_cells|done|done|].
  assert (Htok : forall t', occ t' (tokens (with_cell s f (switch_out c (Parked t, KClient None)))) = occ t' (tokens s)).
  { intros t'. pose proof (occ_tokens_cell s f c (switch_out c (Parked t, KClient None)) t' Hf) as H.
    rewrite Hc in H. cbn [code switch_out] in H. unfold owned in H. cbn [fst snd app kfibers] in H. lia. }
  eapply waits_inv_update; try done.
  - rewrite Htok. by apply i_once.
  - intros Hs Hu. rewrite Htok. apply (i_pub s HI f c Hf); [by rewrite Hc|]. eapply switch_out_needs; [by eapply (i_cells s HI)|done| |exact Hu]. done.
  - intros t' r Hr. left. by exists r.
  - right. cbn [code switch_out]. rewrite Hc. cbn. split; [done|]. split; [apply P2|done].
  - intros t' pc [Ho|[Ho _]]; [done|by apply not_elem_of_nil in Ho].
  - intros e. cbn [with_cell slots]. rewrite <- (i_pool s HI e). pose proof (occ_pool_cell s f c (switch_out c (Parked t, KClient None)) e Hf) as H.
    rewrite Hc in H. cbn [code switch_out] in H. unfold held in H. cbn [fst snd waits] in H. lia.
Qed.

(** A cell changes and its code does not. *)
Lemma waits_inv_same_code s f c c' :
  inv s -> cells s !! f = Some c -> cell_ok at_point c' -> code c' = code c ->
  (unsignaled at_point c -> unsignaled at_point c') ->
  (forall pc, resume_ok at_point pc c -> resume_ok at_point pc c') ->
  (needs_resume at_point c' -> needs_resume at_point c) -> inv (with_cell s f c').
Proof.
  intros HI Hf Hok Hcode Hu Hr Hu'.
  assert (Htok : forall t, occ t (tokens (with_cell s f c')) = occ t (tokens s)).
  { intros t. pose proof (occ_tokens_cell s f c c' t Hf) as H. rewrite Hcode in H. lia. }
  eapply waits_inv_update; try done.
  - rewrite Hcode. by eapply i_shape.
  - rewrite Hcode. intros H1 H2. by apply Hu, (i_fresh s HI f).
  - rewrite Htok. by apply i_once.
  - rewrite Hcode, Htok. intros Hs H. apply (i_pub s HI f c); auto.
  - intros t r Hreg. left. by exists r.
  - right. rewrite Hcode. auto.
  - rewrite Hcode. auto.
  - intros e. cbn [with_cell slots]. rewrite <- (i_pool s HI e). pose proof (occ_pool_cell s f c c' e Hf) as H.
    rewrite Hcode in H. lia.
Qed.

Lemma waits_inv_worker s f c c' : inv s -> cells s !! f = Some c -> worker_step c = Some c' -> inv (with_cell s f c').
Proof.
  intros HI Hf Hs. pose proof (i_cells s HI f c Hf) as Hok.
  destruct (worker_step_ok at_point c c') as (H1 & H2 & H3 & H4 & H5); [done|done|].
  eapply waits_inv_same_code; try done. by eapply worker_step_needs.
Qed.

Lemma parked_code p : at_point p = Inside -> exists t k, p = (Parked t, k).
Proof.
  destruct p as [[] k]; unfold at_point; cbn; try done; try (destruct (kwaits k); done). eauto.
Qed.

Lemma waits_inv_dispatch s f c c' : inv s -> cells s !! f = Some c -> dispatch wake c = Some c' -> inv (with_cell s f c').
Proof.
  intros HI Hf Hs. pose proof (i_cells s HI f c Hf) as Hok.
  destruct (dispatch_ok at_point wake c c') as (H1 & H2 & H3 & H4 & H5); [done|done|].
  destruct (parked_code _ H1) as (t & k & Hc).
  assert (Hk : k = KClient None) by (pose proof (i_shape s HI f c Hf) as H; rewrite Hc in H; by destruct k as [[]| | |]).
  subst k. assert (Hw : code c' = match t with TSlot e _ => (DRelease e, KClient None) | TEvent _ => (Client, KClient None) end).
  { rewrite H2, Hc. cbn. by destruct t. }
  assert (Hno : occ f (tokens s) = 0%nat).
  { destruct (decide (occ f (tokens s) = 0%nat)) as [|Hne]; [done|exfalso].
    destruct (waits_occ_tokens s f) as [[r Hr]|(g & d & pc & Hg & Ho)]; [lia| |].
    - destruct (i_reg s HI f r Hr) as (c0 & tgt & ? & _ & _ & ?). by simplify_eq.
    - destruct (i_own s HI g d f pc Hg Ho) as (c0 & ? & _ & ?). simplify_eq. by apply (H4 pc). }
  assert (Hplain : waits (code c') = None /\ owned (code c') = [] /\ at_point (code c') = Elsewhere /\ shape (code c') /\
    (forall e, occ e (held (code c')) = occ e (held (code c))) /\ forall t pc, ~ owns (code c') t pc).
  { rewrite Hw, Hc. destruct t as [x|e og]; split_and!; try done; intros t pc [?|[?%not_elem_of_nil _]]; done. }
  destruct Hplain as (W1 & W2 & W3 & W4 & W5 & W6).
  assert (Htok : forall t', occ t' (tokens (with_cell s f c')) = occ t' (tokens s)).
  { intros t'. pose proof (occ_tokens_cell s f c c' t' Hf) as H. rewrite W2, Hc in H. unfold owned in H.
    cbn [fst snd app kfibers] in H. lia. }
  eapply waits_inv_update; try done.
  - apply H5. rewrite <- H2. by left.
  - by rewrite W3.
  - rewrite Htok. lia.
  - rewrite W1. by intros [? ?].
  - intros t' r Hreg. left. by exists r.
  - by left.
  - intros t' pc Ho. by destruct (W6 t' pc).
  - intros e. cbn [with_cell slots]. rewrite <- (i_pool s HI e). pose proof (occ_pool_cell s f c c' e Hf) as H.
    rewrite W5 in H. lia.
Qed.

(** Whoever is about to resume a fiber is the only one, and the fiber is not
    registered. *)
Lemma owner_unregistered s f c t pc r : inv s -> cells s !! f = Some c -> owns (code c) t pc -> ~ reg s t r.
Proof.
  intros HI Hf Ho Hr. pose proof (i_once s HI t) as H. revert H. unfold tokens. rewrite !occ_app.
  pose proof (occ_bind_lookup t (fun c => owned (code c)) _ _ _ Hf) as H2. cbn beta in H2.
  assert (Hin : t ∈ owned (code c)) by (apply owns_owned; eauto). apply occ_elem in Hin. destruct r as [x|e|].
  - destruct Hr as (l & Hl & Hl'%occ_elem). pose proof (occ_bind_lookup t id _ _ _ Hl) as H3. cbn [id] in H3. lia.
  - pose proof (occ_bind_lookup t option_list _ _ _ Hr) as H3. cbn in H3. rewrite decide_True in H3 by done. lia.
  - apply occ_elem in Hr. lia.
Qed.

Lemma owner_unique s f c t pc k g d q : inv s -> cells s !! f = Some c -> code c = (Resuming t pc, k) ->
  cells s !! g = Some d -> owns (code d) t q -> g = f /\ q = pc /\ t ∉ kfibers k.
Proof.
  intros HI Hf Hc Hg Ho. pose proof (i_once s HI t) as H1. revert H1. unfold tokens. rewrite !occ_app. intros H1.
  assert (Hin : t ∈ owned (code d)) by (apply owns_owned; eauto). apply occ_elem in Hin.
  assert (Hof : (occ t (owned (code c)) = 1 + occ t (kfibers k))%nat) by (rewrite Hc; cbn; by rewrite decide_True).
  pose proof (occ_bind_lookup t (fun c => owned (code c)) _ _ _ Hf) as H2. cbn beta in H2.
  destruct (decide (g = f)) as [->|Hne].
  - assert (d = c) as -> by congruence. rewrite Hc in Ho.
    assert (Hk : t ∉ kfibers k) by (rewrite occ_elem; lia). split; [done|]. destruct Ho as [[= <-]|[Ho _]]; done.
  - pose proof (occ_bind_two t (fun c => owned (code c)) _ _ _ _ _ Hne Hg Hf) as H3. cbn beta in H3. lia.
Qed.

Lemma resumed_code_ok t pc pc' k : shape (Resuming t pc, k) ->
  let p := resumed_code t pc' k in
  shape p /\ waits p = waits (Resuming t pc, k) /\ at_point p = at_point (Resuming t pc, k) /\
  held p = held (Resuming t pc, k) /\
  (forall u, occ u (owned p) + (if decide (pc' = RDone) then occ u [t] else 0) = occ u (owned (Resuming t pc, k)))%nat /\
  forall u q, owns p u q -> u ∈ kfibers k /\ q = RLoad \/ u = t /\ q = pc' /\ pc' <> RDone.
Proof.
  intros Hs. unfold resumed_code. cbn zeta. case_decide as E.
  - split; [by destruct k as [[]| | |]|]. split; [by destruct k as [[]| | |]|]. split; [by destruct k as [[]| | |]|].
    split; [by destruct k as [[]| | |]|]. split.
    + intros u. unfold owned. cbn [fst snd]. rewrite occ_app. destruct k; cbn; lia.
    + intros u q [Ho|[Ho Hq]]; [by destruct k|]. left. by destruct k.
  - split; [done|]. split; [done|]. split; [done|]. split; [done|]. split; [intros u; cbn; lia|].
    intros u q [Ho|Ho]; [right; cbn in Ho; by injection Ho as <- <-|by left].
Qed.

(** One step of [Resume], called by [f] on [t] (which may be [f] itself). *)
Section Resume.
Context (s : state) (f : nat) (c : cell code_t) (t : nat) (pc : resume_pc) (k : kont) (ct ct' : cell code_t) (pc' : resume_pc)
  (cf : cell code_t).
Context (HI : inv s) (Hf : cells s !! f = Some c) (Hc : code c = (Resuming t pc, k)) (Ht : cells s !! t = Some ct)
  (Hr : resume pc ct = (ct', pc')) (Hcf : cells (with_cell s t ct') !! f = Some cf).

Let s1 := with_cell s t ct'.
Let s2 := with_cell s1 f (set_code cf (resumed_code t pc' k)).

Lemma resume_target : is_Some (waits (code ct)) /\ at_point (code ct) <> About /\ resume_ok at_point pc ct /\
  cell_ok at_point ct' /\ code ct' = code ct /\ (pc' <> RDone -> resume_ok at_point pc' ct') /\ (pc' = RDone -> ~ needs_resume at_point ct').
Proof.
  destruct (i_own s HI f c t pc Hf) as (c0 & Ht' & Hw & Hro); [by left; rewrite Hc|].
  assert (c0 = ct) as -> by congruence. clear Ht'.
  destruct (resume_step_ok at_point pc pc' ct ct') as (R1 & R2 & R3); [by eapply i_cells|done|done|].
  assert (Hab : at_point (code ct) <> About).
  { destruct Hw as [? Hw]. unfold at_point. by destruct (code ct) as [[] ?]; cbn in *; rewrite ?Hw. }
  split_and!; try done. intros ->. apply (resume_done at_point ct ct' pc); try done. by eapply i_cells.
Qed.

Lemma resume_caller : code cf = (Resuming t pc, k).
Proof.
  destruct resume_target as (_ & _ & _ & _ & R & _). cbn in Hcf.
  apply list_lookup_insert_Some in Hcf as [(-> & <- & _)|[_ H]]; congruence.
Qed.

Lemma resume_tokens u :
  (occ u (tokens s2) + (if decide (pc' = RDone) then occ u [t] else 0) = occ u (tokens s))%nat /\ occ u (pool s2) = occ u (pool s).
Proof.
  destruct resume_target as (_ & _ & _ & _ & R & _).
  destruct (resumed_code_ok t pc pc' k) as (_ & _ & _ & S4 & S5 & _); [by rewrite <- Hc; eapply i_shape|].
  pose proof (occ_tokens_cell s t ct ct' u Ht) as H1. pose proof (occ_pool_cell s t ct ct' u Ht) as H2.
  pose proof (occ_tokens_cell s1 f cf (set_code cf (resumed_code t pc' k)) u Hcf) as H3.
  pose proof (occ_pool_cell s1 f cf (set_code cf (resumed_code t pc' k)) u Hcf) as H4.
  cbn [code set_code] in H3, H4. rewrite resume_caller in H3, H4. rewrite R in H1, H2. rewrite S4 in H4. specialize (S5 u).
  unfold s2. unfold s1 in *. split; lia.
Qed.

(** Every cell afterwards: its code, what it waits for and whether it was
    signaled are as before, except for the code of [f] and the status of [t]. *)
Lemma resume_cell g d : cells s2 !! g = Some d -> exists d0, cells s !! g = Some d0 /\ waits (code d) = waits (code d0) /\
  at_point (code d) = at_point (code d0) /\ cell_ok at_point d /\ shape (code d) /\
  (g <> t -> (unsignaled at_point d <-> unsignaled at_point d0) /\ (needs_resume at_point d -> needs_resume at_point d0) /\
     forall q, resume_ok at_point q d0 -> resume_ok at_point q d) /\
  (g = t -> (pc' <> RDone -> resume_ok at_point pc' d) /\ (pc' = RDone -> ~ needs_resume at_point d)) /\
  (g = f /\ code d = resumed_code t pc' k \/ g <> f /\ code d = code d0).
Proof.
  destruct resume_target as (_ & _ & _ & R1 & R2 & R3 & R4).
  destruct (resumed_code_ok t pc pc' k) as (S1 & S2 & S3 & _); [by rewrite <- Hc; eapply i_shape|].
  assert (H1 : forall g d, cells s1 !! g = Some d -> exists d0, cells s !! g = Some d0 /\ code d = code d0 /\ cell_ok at_point d /\
    (g <> t -> d = d0) /\ (g = t -> d = ct')).
  { intros g0 e Hg. cbn in Hg. apply list_lookup_insert_Some in Hg as [(<- & <- & _)|[Hne Hg]].
    - exists ct. split_and!; auto. congruence.
    - exists e. split_and!; auto; [by eapply i_cells|congruence]. }
  intros Hg. cbn in Hg. apply list_lookup_insert_Some in Hg as [(<- & <- & _)|[Hne Hg]].
  - destruct (H1 f cf Hcf) as (d0 & Hd0 & E & Hok & N1 & N2). exists d0. cbn [code set_code]. rewrite <- E, resume_caller.
    destruct (same_point_ok at_point cf (resumed_code t pc' k)) as (P1 & P2 & P3); [by rewrite resume_caller|].
    split; [done|]. split; [done|]. split; [done|]. split; [by apply P1|]. split; [done|]. split; [|split; [|by left]].
    + intros Hne. rewrite <- (N1 Hne). split; [symmetry; apply P2|]. split; [|intros q; apply P3].
      apply same_point_needs. by rewrite resume_caller.
    + pose proof resume_caller as Hcc. intros Heq. rewrite (N2 Heq) in *. split; [intros E'; by apply P3, R3|]. intros E' Hu. apply (R4 E'). revert Hu. apply same_point_needs. by rewrite Hcc.
  - destruct (H1 g d Hg) as (d0 & Hd0 & E & Hok & N1 & N2). exists d0. rewrite E.
    split; [done|]. split; [done|]. split; [done|]. split; [done|]. split; [by eapply i_shape|]. split; [|split; [|by right]].
    + intros Hn. by rewrite (N1 Hn).
    + intros Heq. rewrite (N2 Heq). auto.
Qed.

Lemma resume_cell_back u d0 : cells s !! u = Some d0 -> exists d, cells s2 !! u = Some d /\ waits (code d) = waits (code d0).
Proof.
  intros Hu. assert (Hu1 : is_Some (cells s2 !! u)).
  { apply lookup_lt_is_Some. cbn. rewrite !length_insert. by eapply lookup_lt_Some. }
  destruct Hu1 as [d Hd]. exists d. split; [done|]. destruct (resume_cell u d Hd) as (d1 & Hd1 & W & _). congruence.
Qed.

Lemma resume_owner g d u q : cells s2 !! g = Some d -> owns (code d) u q ->
  u = t /\ q = pc' /\ pc' <> RDone \/ u <> t /\ exists g0 d0, cells s !! g0 = Some d0 /\ owns (code d0) u q.
Proof.
  intros Hg Ho. destruct (resume_cell g d Hg) as (d0 & Hd0 & _ & _ & _ & _ & _ & _ & [[-> E]|[Hne E]]); rewrite E in Ho.
  - destruct (resumed_code_ok t pc pc' k) as (_ & _ & _ & _ & _ & S6); [by rewrite <- Hc; eapply i_shape|].
    destruct (S6 u q Ho) as [[Hin ->]|H]; [right|by left]. split.
    + intros ->. destruct (owner_unique s f c t pc k f c pc HI Hf Hc Hf) as (_ & _ & H); [by left; rewrite Hc|done].
    + exists f, c. split; [done|]. right. by rewrite Hc.
  - right. split; [|by exists g, d0]. intros ->. by destruct (owner_unique s f c t pc k g d0 q HI Hf Hc Hd0 Ho).
Qed.

Lemma waits_inv_resume : inv s2.
Proof.
  destruct resume_target as (Hw & _).
  constructor.
  - intros g d Hg. by destruct (resume_cell g d Hg) as (_ & _ & _ & _ & H & _).
  - intros g d Hg. by destruct (resume_cell g d Hg) as (_ & _ & _ & _ & _ & H & _).
  - intros g d Hg Hp1 Hp2. destruct (resume_cell g d Hg) as (d0 & Hd0 & H1 & H2 & _ & _ & H3 & _).
    apply H3; [|apply (i_fresh s HI g d0 Hd0); congruence]. intros ->. destruct Hw as [? Hw]. congruence.
  - intros u r Hreg. change (reg s u r) in Hreg. destruct (i_reg s HI u r Hreg) as (d0 & tgt & Hd0 & H1 & H2 & H3).
    destruct (resume_cell_back u d0 Hd0) as (d & Hd & W). exists d, tgt. rewrite W. split_and!; try done.
    destruct (resume_cell u d Hd) as (d1 & Hd1 & _ & _ & _ & _ & H4 & _). apply H4; [|congruence].
    intros ->. apply (owner_unregistered s f c t pc r HI Hf); [by left; rewrite Hc|done].
  - intros g d u q Hg Ho. destruct (resume_owner g d u q Hg Ho) as [(-> & -> & Hd)|(Hne & g0 & d0 & Hg0 & Ho')].
    + destruct (resume_cell_back t ct Ht) as (dt & Hdt & W). exists dt. rewrite W. split_and!; try done.
      destruct (resume_cell t dt Hdt) as (_ & _ & _ & _ & _ & _ & _ & H & _). by apply H.
    + destruct (i_own s HI g0 d0 u q Hg0 Ho') as (du & Hdu & H1 & H2). destruct (resume_cell_back u du Hdu) as (d2 & Hd2 & W).
      exists d2. rewrite W. split_and!; try done. destruct (resume_cell u d2 Hd2) as (d3 & Hd3 & _ & _ & _ & _ & H & _).
      apply H; [done|]. congruence.
  - intros u. pose proof (i_once s HI u). destruct (resume_tokens u) as [H1 _]. destruct (decide _) in H1; lia.
  - intros u d Hd Hs Hu. destruct (resume_cell u d Hd) as (d0 & Hd0 & W & _ & _ & _ & H1 & H2 & _).
    destruct (resume_tokens u) as [H3 _]. destruct (decide (u = t)) as [->|Hne].
    + destruct (decide (pc' = RDone)) as [E|E]; [by destruct (proj2 (H2 eq_refl) E)|].
      pose proof (occ_owns s f c t pc Hf ltac:(left; by rewrite Hc)). lia.
    + assert (H0 : (0 < occ u (tokens s))%nat) by (apply (i_pub s HI u d0); [done|by rewrite <- W|by apply H1]).
      cbn [occ] in H3. destruct (decide (pc' = RDone)), (decide (t = u)); try congruence; lia.
  - intros e. rewrite (proj2 (resume_tokens e)). apply (i_pool s HI e).
Qed.
End Resume.

Lemma with_free_id s : with_free s (freeq s) = s.
Proof. by destruct s. Qed.
Lemma with_slot_id s e w : slots s !! e = Some w -> with_slot s e w = s.
Proof. intros H. destruct s. unfold with_slot. cbn in *. by rewrite list_insert_id. Qed.

(** A free [DirectEvent] has no waiter, and neither has one that its fiber has not
    published. *)
Lemma unpublished_slot s e : inv s ->
  e ∈ freeq s \/ (exists f c, cells s !! f = Some c /\ e ∈ held (code c) /\ waits (code c) = None) -> slots s !! e = Some None.
Proof.
  intros HI H. assert (Hlt : is_Some (slots s !! e)).
  { destruct H as [H%occ_elem|(f & c & Hf & He & _)]; [|by eapply held_slot]. apply lookup_lt_is_Some.
    pose proof (i_pool s HI e) as Hp. unfold pool in Hp. rewrite occ_app in Hp. destruct (decide _) in Hp; [done|lia]. }
  destruct Hlt as [[t|] Hs]; [exfalso|done]. destruct (slot_holder s e t HI Hs) as (d & og & Hd & Hw & Hh & _).
  destruct H as [H%occ_elem|(f & c & Hf & He & Hn)].
  - apply occ_elem in Hh. pose proof (occ_bind_lookup e (fun c => held (code c)) _ _ _ Hd) as H2. cbn beta in H2.
    pose proof (i_pool s HI e) as Hp. unfold pool in Hp. rewrite occ_app in Hp. destruct (decide _) in Hp; lia.
  - assert (f = t) as -> by (by eapply held_unique). congruence.
Qed.

(** The exchange hands the waiter over. *)
Lemma waits_inv_exchange s f c e k t :
  inv s -> cells s !! f = Some c -> code c = (DExchange e, k) -> slots s !! e = Some (Some t) ->
  inv (with_cell (with_slot s e None) f (set_code c (Resuming t RLoad, k))).
Proof.
  intros HI Hf Hc He. pose proof (i_shape s HI f c Hf) as Hs. rewrite Hc in Hs.
  eapply (waits_inv_take s); [done|exact Hf|done|done|cbn; by rewrite length_insert|by destruct k as [[]| | |]|by rewrite Hc..| | |].
  - intros u. pose proof (occ_tokens_slot s e (Some t) None u He) as H1.
    pose proof (occ_tokens_cell (with_slot s e None) f c (set_code c (Resuming t RLoad, k)) u Hf) as H2.
    cbn [code set_code] in H2. rewrite Hc in H2. unfold owned in H2. cbn [fst snd] in H2. rewrite !occ_app in H2.
    change (option_list (Some t)) with [t] in H1. change (option_list None) with (@nil nat) in H1. cbn [occ] in H1, H2. lia.
  - intros u r Hr. exists r. split; [|done]. destruct r as [x|e'|]; try done. cbn in Hr |- *.
    apply list_lookup_insert_Some in Hr as [(_ & ? & _)|[_ Hr]]; done.
  - intros u pc [[= <- <-]|Ho]; [right|left; right; by rewrite Hc]. split; [done|]. by exists (RSlot e).
Qed.

Lemma waits_inv_next s f c i s' : inv s -> cells s !! f = Some c -> (code c).1 = Next ->
  next_waiter f c i (code c).2 s = Some s' -> inv s'.
Proof.
  intros HI Hf H1 Hs. pose proof (i_shape s HI f c Hf) as Hsh. destruct (code c) as [p k] eqn:Hc. cbn in H1. subst p. cbn [snd] in Hs.
  unfold next_waiter, go in Hs. destruct k as [a|e g|l a|l]; try done.
  - destruct l as [|x l0] eqn:El.
    + injection Hs as <-. apply waits_inv_move; try done; rewrite ?Hc; try done; intros u pc [?|[?%not_elem_of_nil _]]; done.
    + destruct (l !! i) as [t|] eqn:Ei; subst l; rewrite Ei in Hs; [|done]. injection Hs as <-.
      apply waits_inv_move; try done; rewrite ?Hc; try done.
      * intros u. unfold owned. cbn [fst snd kfibers]. rewrite !occ_app. pose proof (occ_delete u _ _ _ Ei). cbn [occ] in *. lia.
      * intros u pc [[= <- <-]|[Hin ->]]; right; cbn [snd kfibers]; [split; [by eapply list_elem_of_lookup_2|done]|].
        split; [|done]. cbn in Hin. rewrite (occ_elem u (x :: l0)), (occ_delete u _ _ _ Ei). apply occ_elem in Hin. lia.
  - destruct l as [|x l0] eqn:El.
    + injection Hs as <-. apply waits_inv_move; try done; rewrite ?Hc; try done; intros u pc [?|[?%not_elem_of_nil _]]; done.
    + destruct (l !! i) as [e|] eqn:Ei; subst l; rewrite Ei in Hs; [|done]. injection Hs as <-.
      apply waits_inv_move; try done; rewrite ?Hc; try done; intros u pc [?|[?%not_elem_of_nil _]]; done.
Qed.

Lemma kclient p k : shape (p, k) -> match p with Client | DExchange _ | Resuming _ _ | Next | WAnd _ => True | _ => k = KClient None end.
Proof. by destruct p, k as [[]| | |]. Qed.

(** [no_owns]: a point that resumes nobody; [wmove]: a move between such points of
    the same kind. *)
Ltac no_owns := intros ? ? [?|[?%not_elem_of_nil _]]; done.
Ltac wmove Hf Hc :=
  eapply waits_inv_move; [first [done|by apply waits_inv_group]|exact Hf|done|by rewrite Hc..|rewrite Hc; done|no_owns].

Lemma waits_inv_add s f c x armed l :
  inv s -> cells s !! f = Some c -> code c = (EAdd x armed, KClient None) -> events s !! x = Some l ->
  inv (with_cell (with_event s x (AddWaiter f l)) f
    (set_code c (if armed then (Client, KClient (Some (TEvent x))) else (Switch (TEvent x), KClient None)))).
Proof.
  intros HI Hf Hc Hl. set (p := if armed then _ else _).
  assert (Hp : p = (Client, KClient (Some (TEvent x))) \/ p = (Switch (TEvent x), KClient None)) by (unfold p; destruct armed; auto).
  assert (Hnot : f ∉ l).
  { intros Hin. pose proof (occ_reg s f (REvent x) ltac:(by exists l)) as H.
    rewrite (no_token s f c HI Hf) in H by by rewrite Hc. lia. }
  unfold AddWaiter, set_insert. rewrite decide_False by done.
  eapply (waits_inv_publish s _ f c p (TEvent x) (REvent x)); try done; try (by rewrite Hc); try (by destruct Hp as [-> | ->]).
  - destruct Hp as [-> | ->]; no_owns.
  - rewrite Hc. by destruct Hp as [-> | ->].
  - intros t. pose proof (occ_tokens_event s x l (l ++ [f]) t Hl) as H1.
    pose proof (occ_tokens_cell (with_event s x (l ++ [f])) f c (set_code c p) t Hf) as H2.
    cbn [code set_code] in H2. rewrite Hc in H2. assert (Ho : owned p = []) by by destruct Hp as [-> | ->].
    rewrite Ho, occ_app in *. change (owned (EAdd x armed, KClient None)) with (@nil nat) in H2. cbn [occ] in *. lia.
  - intros t r. destruct r as [y|e|]; try (by left). intros (l' & Hl' & Hin). cbn in Hl'.
    apply list_lookup_insert_Some in Hl' as [(-> & <- & _)|[_ Hl']]; [|left; by exists l'].
    apply elem_of_app in Hin as [Hin|Hin]; [left; by exists l|right]. by apply list_elem_of_singleton in Hin.
Qed.

Lemma waits_inv_direct s f c e og :
  inv s -> cells s !! f = Some c -> code c = (DPublish e og, KClient None) ->
  inv (with_cell (with_slot s e (Some f)) f
    (set_code c (match og with None => (Client, KClient (Some (TSlot e None))) | Some g => (GLock e g, KClient None) end))).
Proof.
  intros HI Hf Hc. set (p := match og with None => _ | Some g => _ end).
  assert (Hp : (og = None /\ p = (Client, KClient (Some (TSlot e None)))) \/ exists g, og = Some g /\ p = (GLock e g, KClient None)).
  { unfold p. destruct og; [right; eauto|by left]. }
  assert (He : slots s !! e = Some None).
  { apply (unpublished_slot s e HI). right. exists f, c. split; [done|]. rewrite Hc. split; [by left|done]. }
  assert (Hlt : (e < length (slots s))%nat) by by eapply lookup_lt_Some.
  eapply (waits_inv_publish s _ f c p (TSlot e og) (RSlot e)); try done; try (by rewrite Hc); try (by destruct Hp as [[-> ->]|(g & -> & ->)]).
  - cbn. by rewrite length_insert.
  - destruct Hp as [[_ ->]|(g & _ & ->)]; no_owns.
  - rewrite Hc. by destruct Hp as [[_ ->]|(g & _ & ->)].
  - intros t. pose proof (occ_tokens_slot s e None (Some f) t He) as H1.
    pose proof (occ_tokens_cell (with_slot s e (Some f)) f c (set_code c p) t Hf) as H2.
    cbn [code set_code] in H2. rewrite Hc in H2. assert (Ho : owned p = []) by by destruct Hp as [[_ ->]|(g & _ & ->)].
    rewrite Ho in *. change (owned (DPublish e og, KClient None)) with (@nil nat) in H2.
    change (option_list (Some f)) with [f] in H1. change (option_list None) with (@nil nat) in H1. cbn [occ] in *. lia.
  - intros t r. destruct r as [y|e'|]; try (by left). cbn. intros Hr.
    apply list_lookup_insert_Some in Hr as [(-> & [= ->] & _)|[_ Hr]]; [right|by left]. done.
Qed.

Lemma waits_inv_code_step s f c i s' :
  inv s -> cells s !! f = Some c -> running c = true -> code_step f c i s = Some s' -> inv s'.
Proof.
  intros HI Hf Hrun. unfold code_step, go. destruct (code c) as [p k] eqn:Hc. cbn [fst snd].
  pose proof (i_shape s HI f c Hf) as Hsh. rewrite Hc in Hsh. pose proof (kclient p k Hsh) as Hk. destruct p; try subst k.
  - done.
  - intros [= <-]. apply waits_inv_park; try done; try (by rewrite Hc); no_owns.
  - destruct (events s !! x) as [l|] eqn:Hl; [|done]. intros [= <-]. by apply waits_inv_add.
  - unfold EventPool_Acquire. destruct (freeq s !! i) as [e|] eqn:He; [|done]. cbn. intros [= <-].
    assert (Hin : e ∈ freeq s) by by eapply list_elem_of_lookup_2.
    change (with_slot (with_free s (delete i (freeq s))) e None) with (with_free (with_slot s e None) (delete i (freeq s))).
    rewrite with_slot_id by (apply (unpublished_slot s e HI); by left).
    eapply waits_inv_client; try done; try (by rewrite Hc); try no_owns.
    intros e'. rewrite Hc, (occ_delete e' _ _ _ He). change (held (DPark e og, KClient None)) with [e]. cbn [occ held]. cbn. lia.
  - intros [= <-]. apply waits_inv_park; try done; try (by rewrite Hc); no_owns.
  - intros [= <-]. by apply waits_inv_direct.
  - unfold wait_for_lock. destruct (groups s !! g) as [G|]; [|done]. cbn. destruct (mtx G); [done|]. intros [= <-]. wmove Hf Hc.
  - unfold wait_for_or. destruct (groups s !! g) as [G|]; [|done]. cbn. intros [= <-].
    destruct (Z.land (n G) COUNT_MASK =? 0); wmove Hf Hc.
  - unfold wait_for_erase. destruct (groups s !! g) as [G|]; [|done]. cbn. intros [= <-]. wmove Hf Hc.
  - unfold wait_for_unlock. destruct (groups s !! g) as [G|]; [|done]. cbn. intros [= <-]. wmove Hf Hc.
  - intros [= <-]. by eapply waits_inv_switch.
  - done.
  - intros [= <-]. eapply waits_inv_client; try done; try (by rewrite Hc); try no_owns.
    intros e'. rewrite Hc, occ_app. change (held (DRelease e, KClient None)) with [e]. cbn. lia.
  - destruct (groups s !! g) as [G|]; [|done]. cbn. destruct (keeps_spinning (n G)); [done|]. intros [= <-]. wmove Hf Hc.
  - unfold direct_signal. destruct (slots s !! e) as [[t|]|] eqn:He; [| |done]; cbn; intros [= <-].
    + by apply waits_inv_exchange.
    + eapply waits_inv_move; [done|exact Hf|try by (rewrite ?Hc; destruct k as [[]| | |])..| |].
      * intros t. rewrite Hc. by destruct k as [[]| | |].
      * rewrite Hc. intros t pc [Ho|[Ho Hq]]; [by destruct k|]. right. by destruct k.
  - unfold resume_fiber. destruct (cells s !! n0) as [ct|] eqn:Ht; [|done]. cbn [mbind option_bind].
    destruct (resume pc ct) as [ct' pc'] eqn:Hr. destruct (cells (with_cell s n0 ct') !! f) as [cf|] eqn:Hcf; [|done].
    intros [= <-]. by eapply waits_inv_resume.
  - intros Hs. eapply waits_inv_next; [done|exact Hf|by rewrite Hc|]. by rewrite Hc.
  - unfold wake_all_take. destruct (groups s !! g) as [G|]; [|done]. cbn. destruct (mtx G); [done|]. intros [= <-]. wmove Hf Hc.
  - destruct k as [| | |l]; try done. unfold wake_all_and. destruct (groups s !! g) as [G|]; [|done]. cbn. intros [= <-]. wmove Hf Hc.
Qed.

Lemma occ_erase t u l : occ u (set_erase t l) = if decide (u = t) then 0%nat else occ u l.
Proof.
  unfold set_erase. induction l as [|y l IH]; [by case_decide|]. rewrite filter_cons. cbn [occ].
  destruct (decide (y <> t)) as [E|E]; cbn [occ]; rewrite IH; repeat case_decide; congruence || lia.
Qed.

Lemma elem_of_erase t u l : u ∈ set_erase t l <-> u ∈ l /\ u <> t.
Proof. unfold set_erase. rewrite list_elem_of_filter. tauto. Qed.

Lemma event_once s x l t : inv s -> events s !! x = Some l -> t ∈ l -> occ t l = 1%nat.
Proof.
  intros HI Hl Ht%occ_elem. pose proof (i_once s HI t) as H. unfold tokens in H. rewrite !occ_app in H.
  pose proof (occ_bind_lookup t id _ _ _ Hl) as H2. cbn [id] in H2. lia.
Qed.

(** Waiters of an event are taken out: [out] of them go to the caller. *)
Lemma waits_inv_taken s f c a x l l' p out :
  inv s -> cells s !! f = Some c -> code c = (Client, KClient a) -> events s !! x = Some l ->
  (forall u, occ u l = occ u l' + occ u out)%nat -> owned p = out -> shape p -> waits p = a ->
  at_point p = at_point (Client, KClient a) -> held p = held (Client, KClient a) ->
  (forall t pc, owns p t pc -> pc = RLoad) -> inv (with_cell (with_event s x l') f (set_code c p)).
Proof.
  intros HI Hf Hc Hl Hout Ho Hsh Hw Hp Hh Hown. eapply (waits_inv_take s); try done; try by rewrite Hc.
  - intros u. pose proof (occ_tokens_event s x l l' u Hl) as H1.
    pose proof (occ_tokens_cell (with_event s x l') f c (set_code c p) u Hf) as H2. cbn [code set_code] in H2.
    rewrite Hc, Ho in H2. change (owned (Client, KClient a)) with (@nil nat) in H2. specialize (Hout u). cbn [occ] in H2. lia.
  - intros t r Hr. exists r. split; [|done]. destruct r as [y|e|]; try done. destruct Hr as (l0 & Hl0 & Hin).
    cbn in Hl0. apply list_lookup_insert_Some in Hl0 as [(<- & <- & _)|[_ Hl0]]; [|by exists l0].
    exists l. split; [done|]. rewrite occ_elem, Hout. apply occ_elem in Hin. lia.
  - intros t pc Hq. right. split; [by eapply Hown|]. exists (REvent x), l. split; [done|].
    rewrite occ_elem, Hout, <- Ho. assert (Hin : t ∈ owned p) by (apply owns_owned; eauto). apply occ_elem in Hin. lia.
Qed.

Lemma waits_inv_remove s x l t : inv s -> events s !! x = Some l ->
  inv (mk_state (registry s) (<[x := RemoveWaiter t l]> (events s)) (slots s) (freeq s) (groups s) (cells s)
         (if decide (t ∈ l) then t :: removed s else removed s)).
Proof.
  intros HI Hl. set (s' := mk_state _ _ _ _ _ _ _).
  assert (Htok : forall u, occ u (tokens s') = occ u (tokens s)).
  { intros u. pose proof (occ_tokens_event s x l (RemoveWaiter t l) u Hl) as H. unfold RemoveWaiter in H. rewrite occ_erase in H.
    unfold s', tokens, RemoveWaiter in *. cbn in *. rewrite !occ_app in *. destruct (decide (t ∈ l)) as [Ht|Ht].
    - cbn [occ]. pose proof (event_once s x l t HI Hl Ht) as H1.
      destruct (decide (u = t)), (decide (t = u)); subst; try congruence; lia.
    - destruct (decide (u = t)) as [->|]; [|lia]. rewrite (occ_zero t l) in H by done. lia. }
  assert (Hreg : forall u r, reg s' u r -> exists r', reg s u r' /\ forall tgt, fits r' tgt -> fits r tgt).
  { intros u [y|e|] Hr.
    - exists (REvent y). split; [|done]. destruct Hr as (l0 & Hl0 & Hin). cbn in Hl0.
      apply list_lookup_insert_Some in Hl0 as [(<- & <- & _)|[_ Hl0]]; [|by exists l0].
      exists l. split; [done|]. by apply elem_of_erase in Hin as [? _].
    - by exists (RSlot e).
    - cbn in Hr. destruct (decide (t ∈ l)) as [Ht|Ht]; [|by exists RRemoved].
      apply elem_of_cons in Hr as [->|Hr]; [|by exists RRemoved]. exists (REvent x). split; [by exists l|]. by intros []. }
  destruct HI. constructor; try done.
  - intros u r Hr. destruct (Hreg u r Hr) as (r' & Hr' & Hfit). destruct (i_reg0 u r' Hr') as (c & tgt & H1 & H2 & H3 & H4).
    exists c, tgt. auto.
  - intros u. by rewrite Htok.
  - intros u c Hu Hs Hn. rewrite Htok. by apply (i_pub0 u c).
Qed.

Lemma waits_inv_call_step s f c a x s' :
  inv s -> cells s !! f = Some c -> code c = (Client, KClient a) -> call_step f c a x s = Some s' -> inv s'.
Proof.
  intros HI Hf Hc. unfold call_step, go.
  assert (Hget : forall name s1 i, GetEvent name s = (s1, i) -> inv s1 /\ cells s1 !! f = Some c).
  { intros name s1 i E. pose proof (waits_inv_get name s HI) as H. rewrite E in H. split; [done|].
    unfold GetEvent in E. destruct (registry s !! name); by injection E as <- <-. }
  destruct x as [name|name| |g|g| |name|x t|x|x t|e|g|g].
  - destruct a; [done|]. destruct (GetEvent name s) as [s1 i] eqn:E. destruct (Hget _ _ _ E) as [HI1 Hf1]. intros [= <-]. wmove Hf1 Hc.
  - destruct a; [done|]. destruct (GetEvent name s) as [s1 i] eqn:E. destruct (Hget _ _ _ E) as [HI1 Hf1]. intros [= <-]. wmove Hf1 Hc.
  - destruct a; [done|]. intros [= <-]. wmove Hf Hc.
  - destruct a; [done|]. destruct (groups s !! g); [|done]. cbn. intros [= <-]. wmove Hf Hc.
  - destruct a; [done|]. destruct (groups s !! g); [|done]. cbn. intros [= <-]. wmove Hf Hc.
  - destruct a as [t|]; [|done]. intros [= <-]. wmove Hf Hc.
  - destruct (GetEvent name s) as [s1 i] eqn:E. destruct (Hget _ _ _ E) as [HI1 _].
    intros H. assert (s1 = s') as <- by (destruct a; cbn in H; congruence). done.
  - destruct (events s !! x) as [l|] eqn:Hl; [|by destruct a]. intros Hs.
    assert (Hs' : s' = let '(l', found) := event_signal t l in with_cell (with_event s x l') f
        (set_code c (if found then (Resuming t RLoad, KClient a) else (Client, KClient a)))).
    { cbn [mbind option_bind] in Hs. destruct (event_signal t l). destruct a; congruence. }
    subst s'. unfold event_signal.
    destruct (decide (t ∈ l)) as [Ht|Ht]; [eapply (waits_inv_taken s f c a x l _ _ [t])|eapply (waits_inv_taken s f c a x l _ _ [])]; try done.
    + intros u. rewrite occ_erase. cbn [occ]. pose proof (event_once s x l t HI Hl Ht).
      destruct (decide (u = t)), (decide (t = u)); subst; try congruence; lia.
    + intros u pc [[= _ <-]|[?%not_elem_of_nil _]]; done.
    + no_owns.
  - destruct (events s !! x) as [l|] eqn:Hl; [|by destruct a]. intros Hs.
    assert (Hs' : s' = with_cell (with_event s x []) f (set_code c (Next, KFibers l a))) by (destruct a; cbn in Hs; congruence).
    subst s'. eapply (waits_inv_taken s f c a x l _ _ l); try done. by intros u pc [?|[_ ?]].
  - destruct (events s !! x) as [l|] eqn:Hl; [|by destruct a]. intros Hs.
    pose proof (waits_inv_remove s x l t HI Hl) as H. destruct a; cbn in Hs; injection Hs as <-; exact H.
  - destruct (slots s !! e) eqn:He; [|by destruct a]. intros Hs.
    assert (s' = with_cell s f (set_code c (DExchange e, KClient a))) as -> by (destruct a; cbn in Hs; congruence). wmove Hf Hc.
  - destruct (groups s !! g) as [G|]; [|by destruct a]. cbn [mbind option_bind].
    destruct (outstanding G <? COUNT_MASK); intros Hs; [|by destruct a].
    assert (Hs' : s' = with_group s g (mk_group (n G + 1) (mtx G) (waiters G) (outstanding G + 1))) by (destruct a; congruence).
    subst s'. by apply waits_inv_group.
  - destruct a; [done|]. destruct (groups s !! g) as [G|]; [|done]. cbn [mbind option_bind].
    destruct (0 <? outstanding G); [|done]. destruct (complete (n G)) as [n' []]; intros [= <-]; wmove Hf Hc.
Qed.

Lemma waits_inv_exec a s s' : inv s -> exec a s = Some s' -> inv s'.
Proof.
  intros HI. destruct a as [f x|f i|f|f]; cbn [exec]; destruct (cells s !! f) as [c|] eqn:Hf; cbn [mbind option_bind]; try done.
  - destruct (code c) as [[] []] eqn:Hc; try done. destruct (running c); [|done]. by eapply waits_inv_call_step.
  - destruct (running c) eqn:Hr; [|done]. by eapply waits_inv_code_step.
  - destruct (worker_step c) as [c'|] eqn:E; [|done]. intros [= <-]. by eapply waits_inv_worker.
  - destruct (dispatch wake c) as [c'|] eqn:E; [|done]. intros [= <-]. by eapply waits_inv_dispatch.
Qed.

Lemma bind_replicate_nil {A B} (h : A -> list B) k x : h x = [] -> replicate k x ≫= h = [].
Proof. intros H. induction k as [|k IH]; [done|]. cbn [replicate]. by rewrite bind_cons, H, IH. Qed.

Lemma occ_seq e k m : occ e (seq k m) = if decide (k <= e < k + m)%nat then 1%nat else 0%nat.
Proof.
  revert k. induction m as [|m IH]; intros k; cbn [seq occ]; [by rewrite decide_False by lia|]. rewrite IH.
  repeat case_decide; lia.
Qed.

Lemma waits_inv_start actors pool_size counts : inv (start actors pool_size counts).
Proof.
  set (c0 := mk_cell (Client, KClient None) RUNNING (Some WRunning) false).
  assert (Hcell : forall f c, cells (start actors pool_size counts) !! f = Some c -> c = c0).
  { cbn. intros f c H. by apply lookup_replicate in H as [-> _]. }
  assert (Htok : tokens (start actors pool_size counts) = []).
  { unfold tokens. cbn. by rewrite !bind_replicate_nil by done. }
  constructor.
  - by intros f c ->%Hcell.
  - by intros f c ->%Hcell.
  - by intros f c ->%Hcell.
  - intros t r Hr%occ_reg. rewrite Htok in Hr. cbn in Hr. lia.
  - intros g d t pc ->%Hcell [?|[?%not_elem_of_nil _]]; done.
  - intros t. rewrite Htok. cbn. lia.
  - intros t c ->%Hcell. by intros [? ?].
  - intros e. unfold pool. cbn. rewrite bind_replicate_nil, app_nil_r, occ_seq, length_replicate by done.
    repeat case_decide; lia.
Qed.

Lemma waits_inv_reached actors pool_size counts s : reaches exec (start actors pool_size counts) s -> inv s.
Proof. apply reaches_invariant; [intros a s1 s2; apply waits_inv_exec|apply waits_inv_start]. Qed.
