(* ===== verification/WaitGroups.v ===== *)
(** * Wait groups: [WaitFor] returns when the tasks are done

    The model is that of [Waits.v].  An invariant of the groups: who holds the
    mutex, and why every registered fiber will be signaled.  From it: a state in
    which nothing can move has no fiber left behind, and the work before such a
    state is bounded. *)
From stdpp Require Import strings.
From S2P Require Import Prelude Fiber Task Parking Waits.

(** The group whose mutex the code holds. *)
Definition holds (p : code_t) : option nat :=
  match p.1 with
  | GOr _ g | GErase _ g | GUnlock _ g | WAnd g => Some g
  | DExchange _ | Resuming _ _ => match p.2 with KSelf _ g => Some g | _ => None end
  | _ => None
  end.

(** [WaitFor] has inserted its event; has also seen a count above 0. *)
Definition joined (p : code_t) : Prop := match p.1 with GLock _ _ => False | _ => True end.
Definition announced (p : code_t) : Prop :=
  match p.1 with GLock _ _ | GOr _ _ | GErase _ _ => False | _ => True end.

(** What the code is about to index. *)
Definition group_of (p : code_t) : option nat :=
  match p.1 with
  | DAcquire og | DPark _ og | DPublish _ og => og
  | Spin g | WTake g | WAnd g => Some g
  | _ => match waits p with Some (TSlot _ og) => og | _ => None end
  end.
Definition event_of (p : code_t) : option nat := match p.1 with EPark x _ | EAdd x _ => Some x | _ => None end.

Definition flagged (G : group) : bool := negb (Z.land (n G) WAITER_BIT =? 0).

Section Groups.
Context (K : list code_t) (sl : list (option nat)) (gs : list group) (ne : nat).

(** Somebody is going to signal the event [e], to call [WakeAll] on [g]. *)
Definition sig_by (e : nat) : Prop := exists h p, K !! h = Some p /\ e ∈ will_signal p.
Definition waking (g : nat) : Prop := exists h p, K !! h = Some p /\ p.1 = WTake g.

Record ginv : Prop := {
  g_count : forall g G, gs !! g = Some G -> n G = counter (outstanding G) (flagged G) /\ 0 <= outstanding G <= COUNT_MASK;
  g_mtx : forall g G h, gs !! g = Some G -> mtx G = Some h -> exists p, K !! h = Some p /\ holds p = Some g;
  g_holds : forall h p g, K !! h = Some p -> holds p = Some g -> exists G, gs !! g = Some G /\ mtx G = Some h;
  g_member : forall f p e g G, K !! f = Some p -> waits p = Some (TSlot e (Some g)) -> joined p ->
    sl !! e = Some (Some f) -> gs !! g = Some G -> e ∈ waiters G \/ sig_by e;
  g_flag : forall f p e g G, K !! f = Some p -> waits p = Some (TSlot e (Some g)) -> announced p ->
    gs !! g = Some G -> e ∈ waiters G -> flagged G = true /\ (0 < outstanding G \/ waking g);
  g_and : forall h p g G, K !! h = Some p -> p.1 = WAnd g -> gs !! g = Some G -> waiters G = [];
  g_group : forall h p g, K !! h = Some p -> group_of p = Some g -> (g < length gs)%nat;
  g_event : forall h p x, K !! h = Some p -> event_of p = Some x -> (x < ne)%nat;
  g_sig : forall h p e, K !! h = Some p -> e ∈ will_signal p -> (e < length sl)%nat;
  g_slot : forall g G e, gs !! g = Some G -> e ∈ waiters G -> (e < length sl)%nat
}.
End Groups.

(** What an actor that moves from [p] to [p'] may do to group [g]. *)
Record group_step (nsl : nat) (f : nat) (p p' : code_t) (g : nat) (G G' : group) : Prop := {
  s_count : n G' = counter (outstanding G') (flagged G') /\ 0 <= outstanding G' <= COUNT_MASK;
  s_mtx : forall h, mtx G' = Some h -> h = f /\ holds p' = Some g \/ h <> f /\ mtx G = Some h;
  s_keep : forall h, h <> f -> mtx G = Some h -> mtx G' = Some h;
  s_holds : holds p' = Some g -> mtx G' = Some f;
  s_out : forall e, e ∈ waiters G -> e ∈ waiters G' \/ e ∈ will_signal p';
  s_in : forall e, e ∈ waiters G' -> e ∈ waiters G \/ waits p' = Some (TSlot e (Some g)) /\ ~ announced p' /\ mtx G = None /\ (e < nsl)%nat;
  s_flag : flagged G = true -> flagged G' = true \/ waiters G' = [];
  s_wake : flagged G = true -> 0 < outstanding G \/ p.1 = WTake g -> 0 < outstanding G' \/ p'.1 = WTake g \/ waiters G' = [];
  s_joined : forall e, waits p' = Some (TSlot e (Some g)) -> joined p' ->
    waits p = Some (TSlot e (Some g)) /\ joined p \/ e ∈ waiters G';
  s_armed : forall e, waits p' = Some (TSlot e (Some g)) -> announced p' -> e ∈ waiters G' ->
    waits p = Some (TSlot e (Some g)) /\ announced p \/ flagged G' = true /\ 0 < outstanding G';
  s_and : p'.1 = WAnd g -> waiters G' = []
}.

Lemma holds_group p g : shape p -> holds p = Some g -> group_of p = Some g.
Proof. destruct p as [[] [[]| | |]]; cbn; try done; congruence. Qed.

Section Update.
Context (K : list code_t) (sl : list (option nat)) (gs : list group) (ne : nat) (sl' : list (option nat)) (gs' : list group)
  (ne' : nat) (f : nat) (p p' : code_t).
Context (HG : ginv K sl gs ne) (Hf : K !! f = Some p) (Hsh : shape p')
  (Huniq : forall h q e og og', h <> f -> K !! h = Some q -> waits q = Some (TSlot e og) -> waits p' <> Some (TSlot e og'))
  (Hgs : length gs' = length gs) (Hsl : length sl' = length sl) (Hne : (ne <= ne')%nat)
  (Hstep : forall g G', gs' !! g = Some G' -> exists G, gs !! g = Some G /\ group_step (length sl) f p p' g G G')
  (Hsig : forall e, e ∈ will_signal p -> e ∈ will_signal p' \/ forall u, sl' !! e <> Some (Some u))
  (Hpub : forall e u, sl' !! e = Some (Some u) -> sl !! e = Some (Some u) \/
    u = f /\ forall g, waits p' = Some (TSlot e (Some g)) -> ~ joined p')
  (Hgroup : forall g, group_of p' = Some g -> (g < length gs)%nat)
  (Hevent : forall x, event_of p' = Some x -> (x < ne')%nat)
  (Hwill : forall e, e ∈ will_signal p' -> (e < length sl)%nat).

Let K' := <[f := p']> K.

Lemma update_at h q : K' !! h = Some q -> h = f /\ q = p' \/ h <> f /\ K !! h = Some q.
Proof. intros [(-> & <- & _)|[? ?]]%list_lookup_insert_Some; auto. Qed.
Lemma update_self : K' !! f = Some p'.
Proof. apply list_lookup_insert_eq. by eapply lookup_lt_Some. Qed.
Lemma update_other h q : h <> f -> K !! h = Some q -> K' !! h = Some q.
Proof. intros. unfold K'. by rewrite list_lookup_insert_ne. Qed.
Lemma update_group g : (g < length gs)%nat -> exists G G', gs !! g = Some G /\ gs' !! g = Some G' /\ group_step (length sl) f p p' g G G'.
Proof.
  intros H. rewrite <- Hgs in H. apply lookup_lt_is_Some in H as [G' H']. destruct (Hstep g G' H') as (G & H1 & H2). eauto.
Qed.

Lemma update_sig_by e u : sl' !! e = Some (Some u) -> sig_by K e -> sig_by K' e.
Proof.
  intros Hu (h & q & Hh & He). destruct (decide (h = f)) as [->|Hn]; [|exists h, q; split; [by apply update_other|done]].
  assert (q = p) as -> by congruence. destruct (Hsig e He) as [H|H]; [exists f, p'; by rewrite update_self|by destruct (H u)].
Qed.

Lemma ginv_member h q e g G' : K' !! h = Some q -> waits q = Some (TSlot e (Some g)) -> joined q ->
  sl' !! e = Some (Some h) -> gs' !! g = Some G' -> e ∈ waiters G' \/ sig_by K' e.
Proof.
  intros Hh Hw Hj He HG'. destruct (Hstep g G' HG') as (G & H1 & S).
  assert (Hold : forall q0, K !! h = Some q0 -> waits q0 = Some (TSlot e (Some g)) -> joined q0 -> sl !! e = Some (Some h) ->
    e ∈ waiters G' \/ sig_by K' e).
  { intros q0 Hq0 Hw0 Hj0 He0. destruct (g_member _ _ _ _ HG h q0 e g G Hq0 Hw0 Hj0 He0 H1) as [H|H].
    - destruct (s_out _ _ _ _ _ _ _ S e H); [by left|right]. exists f, p'. by rewrite update_self.
    - right. by eapply update_sig_by. }
  destruct (update_at h q Hh) as [[-> ->]|[Hn Hq]].
  - destruct (s_joined _ _ _ _ _ _ _ S e Hw Hj) as [[Hw0 Hj0]|H]; [|by left].
    destruct (Hpub e f He) as [He0|[_ H]]; [by apply (Hold p)|by destruct (H g Hw)].
  - destruct (Hpub e h He) as [He0|[-> _]]; [by apply (Hold q)|done].
Qed.

Lemma ginv_flag h q e g G' : K' !! h = Some q -> waits q = Some (TSlot e (Some g)) -> announced q ->
  gs' !! g = Some G' -> e ∈ waiters G' -> flagged G' = true /\ (0 < outstanding G' \/ waking K' g).
Proof.
  intros Hh Hw Ha HG' He. destruct (Hstep g G' HG') as (G & H1 & S).
  assert (Hnil : waiters G' <> []) by (intros E; rewrite E in He; by apply not_elem_of_nil in He).
  assert (Hold : forall q0, K !! h = Some q0 -> waits q0 = Some (TSlot e (Some g)) -> announced q0 -> e ∈ waiters G ->
    flagged G' = true /\ (0 < outstanding G' \/ waking K' g)).
  { intros q0 Hq0 Hw0 Ha0 He0. destruct (g_flag _ _ _ _ HG h q0 e g G Hq0 Hw0 Ha0 H1 He0) as [F W].
    split; [by destruct (s_flag _ _ _ _ _ _ _ S F)|].
    assert (Hsw : (0 < outstanding G \/ p.1 = WTake g) -> 0 < outstanding G' \/ waking K' g).
    { intros H. destruct (s_wake _ _ _ _ _ _ _ S F H) as [?|[?|?]]; [by left|right|done]. exists f, p'. by rewrite update_self. }
    destruct W as [W|(u & r & Hu & Hr)]; [auto|]. destruct (decide (u = f)) as [->|Hn].
    - assert (r = p) as -> by congruence. auto.
    - right. exists u, r. split; [by apply update_other|done]. }
  destruct (update_at h q Hh) as [[-> ->]|[Hn Hq]].
  - destruct (s_armed _ _ _ _ _ _ _ S e Hw Ha He) as [[Hw0 Ha0]|[F O]]; [|by split; [|left]].
    destruct (s_in _ _ _ _ _ _ _ S e He) as [He0|(_ & Hna & _)]; [by apply (Hold p)|done].
  - destruct (s_in _ _ _ _ _ _ _ S e He) as [He0|(Hw' & _)]; [by apply (Hold q)|]. by destruct (Huniq h q e (Some g) (Some g)).
Qed.

Lemma ginv_update : ginv K' sl' gs' ne'.
Proof.
  constructor.
  - intros g G' HG'. destruct (Hstep g G' HG') as (G & _ & S). apply S.
  - intros g G' h HG' Hm. destruct (Hstep g G' HG') as (G & H1 & S).
    destruct (s_mtx _ _ _ _ _ _ _ S h Hm) as [[-> H]|[Hn H]]; [exists p'; by rewrite update_self|].
    destruct (g_mtx _ _ _ _ HG g G h H1 H) as (q & Hq & Hh). exists q. split; [by apply update_other|done].
  - intros h q g Hh Hq. destruct (update_at h q Hh) as [[-> ->]|[Hn Hk]].
    + destruct (update_group g (Hgroup g (holds_group p' g Hsh Hq))) as (G & G' & _ & H & S). exists G'. split; [done|by apply (s_holds _ _ _ _ _ _ _ S)].
    + destruct (g_holds _ _ _ _ HG h q g Hk Hq) as (G & H1 & H2).
      destruct (update_group g ltac:(by eapply lookup_lt_Some)) as (G0 & G' & H0 & H & S). assert (G0 = G) as -> by congruence.
      exists G'. split; [done|]. by apply (s_keep _ _ _ _ _ _ _ S).
  - apply ginv_member.
  - apply ginv_flag.
  - intros h q g G' Hh Hq HG'. destruct (Hstep g G' HG') as (G & H1 & S). destruct (update_at h q Hh) as [[-> ->]|[Hn Hk]]; [exact (s_and _ _ _ _ _ _ _ S Hq)|].
    pose proof (g_and _ _ _ _ HG h q g G Hk Hq H1) as Hw. destruct (waiters G') as [|e l] eqn:E; [done|exfalso].
    destruct (s_in _ _ _ _ _ _ _ S e) as [He|(_ & _ & Hm & _)]; [rewrite E; by left|rewrite Hw in He; by apply not_elem_of_nil in He|].
    destruct (g_holds _ _ _ _ HG h q g Hk) as (G0 & ? & ?); [unfold holds; by rewrite Hq|congruence].
  - intros h q g Hh Hq. rewrite Hgs. destruct (update_at h q Hh) as [[-> ->]|[Hn Hk]]; [by apply Hgroup|by eapply g_group].
  - intros h q x Hh Hq. destruct (update_at h q Hh) as [[-> ->]|[Hn Hk]]; [by apply Hevent|].
    pose proof (g_event _ _ _ _ HG h q x Hk Hq). lia.
  - intros h q e Hh Hq. rewrite Hsl. destruct (update_at h q Hh) as [[-> ->]|[Hn Hk]]; [by apply Hwill|by eapply g_sig].
  - intros g G' e HG' He. rewrite Hsl. destruct (Hstep g G' HG') as (G & H1 & S).
    destruct (s_in _ _ _ _ _ _ _ S e He) as [H|(_ & _ & _ & H)]; [by eapply g_slot|done].
Qed.
End Update.

(** ** The invariant in the runs *)

Definition codes (s : state) : list code_t := code <$> cells s.
Definition gi (s : state) : Prop := ginv (codes s) (slots s) (groups s) (length (events s)).

Lemma codes_lookup s f p : codes s !! f = Some p <-> exists c, cells s !! f = Some c /\ code c = p.
Proof. unfold codes. rewrite list_lookup_fmap, fmap_Some. naive_solver. Qed.
Lemma codes_set s f c : codes (with_cell s f c) = <[f := code c]> (codes s).
Proof. apply list_fmap_insert. Qed.

(** Nothing that concerns the groups happens to the actor. *)
Record neutral (p p' : code_t) : Prop := {
  nt_holds : holds p' = holds p;
  nt_take : forall g, p.1 = WTake g -> p'.1 = WTake g;
  nt_and : forall g, p'.1 = WAnd g -> p.1 = WAnd g;
  nt_waits : forall e g, waits p' = Some (TSlot e (Some g)) -> joined p' ->
    waits p = Some (TSlot e (Some g)) /\ joined p /\ (announced p' -> announced p)
}.

Lemma armed_joined p : announced p -> joined p.
Proof. by destruct p as [[] ?]. Qed.

(** A group that the step leaves alone. *)
Lemma group_step_same K sl gs ne f p p' g G : ginv K sl gs ne -> K !! f = Some p -> gs !! g = Some G ->
  (holds p' = Some g <-> holds p = Some g) -> (p.1 = WTake g -> p'.1 = WTake g) -> (p'.1 = WAnd g -> p.1 = WAnd g) ->
  (forall e, waits p' = Some (TSlot e (Some g)) -> joined p' ->
     waits p = Some (TSlot e (Some g)) /\ joined p /\ (announced p' -> announced p)) ->
  group_step (length sl) f p p' g G G.
Proof.
  intros HG Hf Hg H1 H2 H3 H4. constructor; try auto.
  - by eapply g_count.
  - intros h Hm. destruct (decide (h = f)) as [->|Hn]; [left|by right]. split; [done|].
    destruct (g_mtx _ _ _ _ HG g G f Hg Hm) as (q & Hq & Hh). apply H1. congruence.
  - intros H%H1. destruct (g_holds _ _ _ _ HG f p g Hf H) as (G0 & ? & ?). congruence.
  - tauto.
  - intros e Hw Hj. destruct (H4 e Hw Hj) as (? & ? & _). auto.
  - intros e Hw Ha He. destruct (H4 e Hw (armed_joined _ Ha)) as (? & _ & H). auto.
  - intros H%H3. by eapply g_and.
Qed.

Section Step.
Context (s s' : state) (f : nat) (p p' : code_t).
Context (HI' : inv s') (HG : gi s) (Hf : codes s !! f = Some p) (Hcodes : codes s' = <[f := p']> (codes s))
  (Hgs : length (groups s') = length (groups s)) (Hsl : length (slots s') = length (slots s))
  (Hne : (length (events s) <= length (events s'))%nat)
  (Hsig : forall e, e ∈ will_signal p -> e ∈ will_signal p' \/ forall u, slots s' !! e <> Some (Some u))
  (Hpub : forall e u, slots s' !! e = Some (Some u) -> slots s !! e = Some (Some u) \/
    u = f /\ forall g, waits p' = Some (TSlot e (Some g)) -> ~ joined p')
  (Hgroup : forall g, group_of p' = Some g -> (g < length (groups s))%nat)
  (Hevent : forall x, event_of p' = Some x -> (x < length (events s'))%nat)
  (Hwill : forall e, e ∈ will_signal p' -> (e < length (slots s))%nat).

Lemma gi_step : (forall g G', groups s' !! g = Some G' -> exists G, groups s !! g = Some G /\ group_step (length (slots s)) f p p' g G G') ->
  gi s'.
Proof.
  intros Hstep. assert (Hself : codes s' !! f = Some p').
  { rewrite Hcodes. apply list_lookup_insert_eq. by eapply lookup_lt_Some. }
  unfold gi. rewrite Hcodes. eapply ginv_update; try done.
  - apply codes_lookup in Hself as (c & Hc & <-). by eapply i_shape.
  - intros h q e og og' Hn Hq Hw Hw'. assert (Hq' : codes s' !! h = Some q) by (by rewrite Hcodes, list_lookup_insert_ne).
    apply codes_lookup in Hq' as (d & Hd & <-). apply codes_lookup in Hself as (c & Hc & <-). apply Hn.
    eapply (held_unique s' h f d c e); try done; by eapply waits_held.
Qed.

Lemma gi_neutral : groups s' = groups s -> neutral p p' -> gi s'.
Proof.
  intros Hg [N1 N2 N3 N4]. apply gi_step. intros g G' HG'. rewrite Hg in HG'. exists G'. split; [done|].
  eapply group_step_same; try done; [by rewrite N1|apply N2|apply N3|intros e; apply N4].
Qed.

(** Only group [g] changes, from [G] to [G']. *)
Lemma gi_one g G G' : groups s !! g = Some G -> groups s' = <[g := G']> (groups s) -> group_step (length (slots s)) f p p' g G G' ->
  (forall h, h <> g -> holds p <> Some h /\ holds p' <> Some h /\ p.1 <> WTake h /\ p'.1 <> WAnd h /\
     forall e, waits p' = Some (TSlot e (Some h)) -> joined p' ->
       waits p = Some (TSlot e (Some h)) /\ joined p /\ (announced p' -> announced p)) ->
  gi s'.
Proof.
  intros HG0 Hg Hs Hoth. apply gi_step. intros h H Hh. rewrite Hg in Hh.
  apply list_lookup_insert_Some in Hh as [(<- & <- & _)|[Hn Hh]]; [by exists G|].
  exists H. split; [done|]. destruct (Hoth h) as (O1 & O2 & O3 & O4 & O5); [done|].
  eapply group_step_same; try done; intros ?; done.
Qed.
End Step.

(** The common case: what the code refers to, it referred to before. *)
Lemma gi_move s s' f p p' :
  inv s' -> gi s -> codes s !! f = Some p -> codes s' = <[f := p']> (codes s) -> groups s' = groups s ->
  length (slots s') = length (slots s) -> (length (events s) <= length (events s'))%nat -> neutral p p' ->
  (forall e, e ∈ will_signal p -> e ∈ will_signal p' \/ forall u, slots s' !! e <> Some (Some u)) ->
  (forall e u, slots s' !! e = Some (Some u) -> slots s !! e = Some (Some u) \/
    u = f /\ forall g, waits p' = Some (TSlot e (Some g)) -> ~ joined p') ->
  (forall g, group_of p' = Some g -> group_of p = Some g) -> (forall x, event_of p' = Some x -> event_of p = Some x) ->
  (forall e, e ∈ will_signal p' -> e ∈ will_signal p) -> gi s'.
Proof.
  intros HI' HG Hf Hcodes Hg Hsl Hne Hn Hsig Hpub V1 V2 V3.
  eapply (gi_neutral s s' f p p'); try done; [by rewrite Hg|..].
  - intros g H%V1. by eapply g_group.
  - intros x H%V2. pose proof (g_event _ _ _ _ HG f p x Hf H). lia.
  - intros e H%V3. by eapply g_sig.
Qed.

(** Solves [neutral] for two points of the code. *)
Ltac solve_neutral :=
  constructor; [done|by intros ?|by intros ?|intros ? ? ?; cbn in *; simplify_eq; done].

(** Groups and registrations stay, nothing is signaled. *)
Lemma gi_quiet s s' f p p' :
  inv s' -> gi s -> codes s !! f = Some p -> codes s' = <[f := p']> (codes s) -> groups s' = groups s ->
  slots s' = slots s -> (length (events s) <= length (events s'))%nat -> neutral p p' -> will_signal p' = will_signal p ->
  (forall g, group_of p' = Some g -> group_of p = Some g) -> (forall x, event_of p' = Some x -> event_of p = Some x) -> gi s'.
Proof.
  intros HI' HG Hf Hc Hg Hsl Hne Hn Hw H1 H2. eapply (gi_move s s' f p p'); try done; rewrite ?Hsl, ?Hw; auto.
Qed.

Lemma ret_neutral p k : (exists e, p = DExchange e) \/ (exists t pc, p = Resuming t pc) -> shape (p, k) -> neutral (p, k) (ret k).
Proof. intros [[e ->]|(t & pc & ->)] Hs; destruct k as [[]| | |]; try done; constructor; cbn; try done; auto. Qed.
Lemma resuming_neutral p k t pc : (exists e, p = DExchange e) \/ (exists t pc, p = Resuming t pc) -> neutral (p, k) (Resuming t pc, k).
Proof. intros [[e ->]|(u & q & ->)]; constructor; cbn; try done; auto. Qed.

(** Back from [Signal] or [Resume]: nothing else is referred to. *)
Lemma ret_refs k : will_signal (ret k) = match k with KSlots l => l | _ => [] end /\ event_of (ret k) = None.
Proof. by destruct k as [[]| | |]. Qed.
Lemma ret_group p k : (exists e, p = DExchange e) \/ (exists t pc, p = Resuming t pc) -> shape (p, k) -> group_of (ret k) = group_of (p, k).
Proof. intros [[e ->]|(t & pc & ->)]; by destruct k as [[]| | |]. Qed.

(** The steps of the pool and of registration. *)
Lemma gi_acquire s f c i og s' : inv s -> inv s' -> gi s -> cells s !! f = Some c -> code c = (DAcquire og, KClient None) ->
  code_step f c i s = Some s' -> gi s'.
Proof.
  intros HI HI' HG Hf Hc Hs. unfold code_step, EventPool_Acquire, go in Hs. rewrite Hc in Hs. cbn [fst] in Hs.
  destruct (freeq s !! i) as [e|] eqn:He; [|done]. cbn in Hs. injection Hs as <-.
  change (with_slot (with_free s (delete i (freeq s))) e None) with (with_free (with_slot s e None) (delete i (freeq s))) in *.
  assert (Hsl : slots s !! e = Some None) by (apply (unpublished_slot s e HI); left; by eapply list_elem_of_lookup_2).
  rewrite with_slot_id in * by done.
  eapply (gi_quiet s _ f (DAcquire og, KClient None) (DPark e og, KClient None)); try done;
    [apply codes_lookup; eauto|by rewrite codes_set].
Qed.

Lemma gi_publish s f c e og : inv s -> gi s -> cells s !! f = Some c -> code c = (DPublish e og, KClient None) ->
  let p' := match og with None => (Client, KClient (Some (TSlot e None))) | Some g => (GLock e g, KClient None) end in
  inv (with_cell (with_slot s e (Some f)) f (set_code c p')) -> gi (with_cell (with_slot s e (Some f)) f (set_code c p')).
Proof.
  intros HI HG Hf Hc p' HI'. eapply (gi_move s _ f (DPublish e og, KClient None) p'); try done.
  - apply codes_lookup; eauto.
  - by rewrite codes_set.
  - cbn. by rewrite length_insert.
  - unfold p'. destruct og; (constructor; [done|by intros ?|by intros ?|intros ? ? ? ?; cbn in *; simplify_eq; done]).
  - intros e' H. by apply not_elem_of_nil in H.
  - cbn. intros e' u [(-> & [= <-] & _)|[_ H]]%list_lookup_insert_Some; [right|by left]. split; [done|].
    intros g Hw Hj. unfold p' in *. by destruct og.
  - unfold p'. by destruct og.
  - unfold p'. by destruct og.
  - unfold p'. by destruct og.
Qed.

(** The accesses of [DirectEvent::Signal], [Fiber::Resume] and the loops. *)
Lemma gi_exchange s f c e k s' : inv s' -> gi s -> shape (DExchange e, k) -> cells s !! f = Some c -> code c = (DExchange e, k) ->
  direct_signal f c e k s = Some s' -> gi s'.
Proof.
  intros HI' HG Hsh Hf Hc Hs. unfold direct_signal, go in Hs. destruct (slots s !! e) as [w|] eqn:He; [|done]. cbn [mbind option_bind] in Hs.
  assert (Hlook : codes s !! f = Some (DExchange e, k)) by (apply codes_lookup; eauto).
  assert (Hlt : (e < length (slots s))%nat) by by eapply lookup_lt_Some.
  destruct w as [t|]; injection Hs as <-.
  - eapply (gi_move s _ f (DExchange e, k) (Resuming t RLoad, k)); try done.
    + by rewrite codes_set.
    + cbn. by rewrite length_insert.
    + intros e' [->|H]%elem_of_cons; [right|by left]. cbn. intros u. by rewrite list_lookup_insert_eq.
    + cbn. intros e' u [(-> & ? & _)|[_ H]]%list_lookup_insert_Some; [done|by left].
    + intros e' H. by right.
  - destruct (ret_refs k) as [R1 R2]. eapply (gi_move s _ f (DExchange e, k) (ret k)); try done.
    + by rewrite codes_set.
    + apply ret_neutral; eauto.
    + intros e' H. rewrite R1. apply elem_of_cons in H as [->|H]; [right|by left]. cbn. intros u. by rewrite He.
    + cbn. auto.
    + intros g. rewrite (ret_group (DExchange e) k) by eauto. done.
    + intros x. by rewrite R2.
    + intros e' H. rewrite R1 in H. by right.
Qed.

Lemma gi_resume s f c t pc k s' : inv s' -> gi s -> shape (Resuming t pc, k) -> cells s !! f = Some c -> code c = (Resuming t pc, k) ->
  resume_fiber f t pc k s = Some s' -> gi s'.
Proof.
  intros HI' HG Hsh Hf Hc Hs. unfold resume_fiber in Hs. destruct (cells s !! t) as [ct|] eqn:Ht; [|done]. cbn [mbind option_bind] in Hs.
  destruct (resume pc ct) as [ct' pc'] eqn:Hr. destruct (cells (with_cell s t ct') !! f) as [cf|] eqn:Hcf; [|done].
  cbn [mbind option_bind] in Hs. injection Hs as <-.
  assert (Hcode : code ct' = code ct) by (unfold resume in Hr; destruct (resume_step pc (Parking.status ct)); by simplify_eq).
  assert (Hsame : codes (with_cell s t ct') = codes s).
  { rewrite codes_set, Hcode. apply list_insert_id. apply codes_lookup. eauto. }
  destruct (ret_refs k) as [R1 R2].
  eapply (gi_quiet s _ f (Resuming t pc, k) (resumed_code t pc' k)); try done.
  - apply codes_lookup; eauto.
  - rewrite codes_set, Hsame. done.
  - unfold resumed_code. case_decide; [apply ret_neutral|apply resuming_neutral]; eauto.
  - unfold resumed_code. case_decide; [by rewrite R1|done].
  - intros g. unfold resumed_code. case_decide; [|done]. rewrite (ret_group (Resuming t pc) k) by eauto. done.
  - intros x. unfold resumed_code. case_decide; [by rewrite R2|done].
Qed.

Lemma gi_next s f c i k s' : inv s' -> gi s -> cells s !! f = Some c -> code c = (Next, k) ->
  next_waiter f c i k s = Some s' -> gi s'.
Proof.
  intros HI' HG Hf Hc Hs. assert (Hlook : codes s !! f = Some (Next, k)) by (apply codes_lookup; eauto).
  unfold next_waiter, go in Hs. destruct k as [a|e g|l a|l]; try done.
  - destruct l as [|x l0] eqn:El.
    + injection Hs as <-. eapply (gi_quiet s _ f (Next, KFibers [] a) (Client, KClient a)); try done; by rewrite codes_set.
    + destruct (l !! i) as [t|] eqn:Ei; subst l; rewrite Ei in Hs; [|done]. injection Hs as <-.
      eapply (gi_quiet s _ f (Next, KFibers (x :: l0) a) (Resuming t RLoad, KFibers (delete i (x :: l0)) a)); try done; by rewrite codes_set.
  - destruct l as [|x l0] eqn:El.
    + injection Hs as <-. eapply (gi_quiet s _ f (Next, KSlots []) (Client, KClient None)); try done; by rewrite codes_set.
    + destruct (l !! i) as [e|] eqn:Ei; subst l; rewrite Ei in Hs; [|done]. injection Hs as <-.
      assert (Hin : forall e', e' ∈ x :: l0 <-> e' ∈ e :: delete i (x :: l0)).
      { intros e'. rewrite (occ_elem e' (x :: l0)), (occ_delete e' _ _ _ Ei), (occ_elem e' (e :: _)). cbn [occ]. lia. }
      eapply (gi_move s _ f (Next, KSlots (x :: l0)) (DExchange e, KSlots (delete i (x :: l0)))); try done; try (by rewrite codes_set).
      * intros e' H. left. by apply Hin.
      * cbn. auto.
      * intros e' H. by apply Hin.
Qed.

(** The sections and accesses that change a group. *)
Lemma flagged_counter m w o k i : 0 <= k <= COUNT_MASK -> flagged (mk_group (counter k w) m i o) = w.
Proof. intros Hk. unfold flagged. cbn [n]. rewrite counter_flag by done. by destruct w. Qed.

(** The other groups, for a step whose two points are about group [g]. *)
Ltac other_groups :=
  intros ? ?; cbn; split_and!; [congruence..|]; intros; simplify_eq; congruence || (split_and!; done).

Section GroupSteps.
Context (s : state) (f : nat) (c : cell code_t) (g : nat) (G : group).
Context (HI : inv s) (HG : gi s) (Hf : cells s !! f = Some c) (Hg : groups s !! g = Some G).

Let step (G' : group) (p' : code_t) : state := with_cell (with_group s g G') f (set_code c p').

Lemma gi_group G' p' : inv (step G' p') -> group_step (length (slots s)) f (code c) p' g G G' ->
  (forall h, h <> g -> holds (code c) <> Some h /\ holds p' <> Some h /\ (code c).1 <> WTake h /\ p'.1 <> WAnd h /\
     forall e, waits p' = Some (TSlot e (Some h)) -> joined p' ->
       waits (code c) = Some (TSlot e (Some h)) /\ joined (code c) /\ (announced p' -> announced (code c))) ->
  (forall e, e ∈ will_signal (code c) -> e ∈ will_signal p') ->
  (forall h, group_of p' = Some h -> h = g \/ group_of (code c) = Some h) -> event_of p' = None ->
  (forall e, e ∈ will_signal p' -> (e < length (slots s))%nat) -> gi (step G' p').
Proof.
  intros HI' Hs Hoth Hsig Hgr Hev Hwill. eapply (gi_one s (step G' p') f (code c) p'); try done.
  - apply codes_lookup. eauto.
  - unfold step. by rewrite codes_set.
  - cbn. by rewrite length_insert.
  - intros e H. left. auto.
  - cbn. auto.
  - intros h [-> |H]%Hgr; [by eapply lookup_lt_Some|]. eapply (g_group _ _ _ _ HG f (code c)); [|done]. apply codes_lookup. eauto.
  - rewrite Hev. done.
Qed.

Lemma gi_lookup : codes s !! f = Some (code c).
Proof. apply codes_lookup. eauto. Qed.
Lemma gi_count : n G = counter (outstanding G) (flagged G) /\ 0 <= outstanding G <= COUNT_MASK.
Proof. by eapply g_count. Qed.
Lemma gi_holder : holds (code c) = Some g -> mtx G = Some f.
Proof. intros H. destruct (g_holds _ _ _ _ HG f (code c) g gi_lookup H) as (G0 & ? & ?). congruence. Qed.

Lemma gi_lock e : code c = (GLock e g, KClient None) -> mtx G = None ->
  let G' := mk_group (n G) (Some f) (set_insert e (waiters G)) (outstanding G) in
  inv (step G' (GOr e g, KClient None)) -> gi (step G' (GOr e g, KClient None)).
Proof.
  intros Hc Hm G' HI'. assert (Hin : forall e', e' ∈ waiters G' <-> e' ∈ waiters G \/ e' = e).
  { intros e'. cbn. unfold set_insert. case_decide as Hd; [split; [auto|by intros [?| ->]]|].
    rewrite elem_of_app, list_elem_of_singleton. done. }
  apply gi_group; [done|constructor|..]; rewrite ?Hc; try done; try by other_groups.
  - exact gi_count.
  - intros h [= <-]. by left.
  - congruence.
  - intros e' H. left. apply Hin. by left.
  - intros e' [H| ->]%Hin; [by left|right]. split_and!; try done; [cbn; tauto|].
    assert (Hh : e ∈ held (code c)) by (rewrite Hc; by left). apply lookup_lt_is_Some. by eapply held_slot.
  - auto.
  - intros F [?|?]; [by left|done].
  - intros e' [= ->] _. right. apply Hin. by right.
  - intros h [= ->]. by left.
  - intros e' H. by apply not_elem_of_nil in H.
Qed.

Lemma gi_or e : code c = (GOr e g, KClient None) ->
  let zero := (announce_waiter (n G)).2 in
  let G' := mk_group (announce_waiter (n G)).1 (mtx G) (waiters G) (outstanding G) in
  let p' := (if zero then GErase e g else GUnlock e g, KClient None) in
  inv (step G' p') -> gi (step G' p').
Proof.
  intros Hc zero G' p' HI'. destruct gi_count as [Hn Hr].
  assert (Hz : zero = (outstanding G =? 0)) by (unfold zero, announce_waiter; cbn; by rewrite Hn, counter_count by done).
  assert (Hn' : n G' = counter (outstanding G) true) by (unfold G', announce_waiter; cbn; by rewrite Hn, counter_set by done).
  assert (HF : flagged G' = true) by (unfold flagged; rewrite Hn', counter_flag by done; done).
  assert (Hmx : mtx G = Some f) by (apply gi_holder; by rewrite Hc).
  apply gi_group; [done|constructor|..]; rewrite ?Hc.
  - rewrite HF. done.
  - cbn. intros h. rewrite Hmx. intros [= <-]. left. unfold p'. by destruct zero.
  - cbn. congruence.
  - done.
  - auto.
  - auto.
  - auto.
  - intros _ [?|?]; [by left|done].
  - intros e' Hw _. left. split; [|done]. unfold p' in Hw. by destruct zero.
  - intros e' Hw Ha _. right. split; [done|]. unfold p' in Ha. rewrite Hz in Ha. cbn.
    destruct (Z.eqb_spec (outstanding G) 0); [done|lia].
  - unfold p'. by destruct zero.
  - unfold p'. destruct zero; other_groups.
  - intros e' H. unfold p'. by destruct zero.
  - intros h H. left. revert H. unfold p'. destruct zero; cbn; congruence.
  - unfold p'. by destruct zero.
  - intros e' H. unfold p' in H. destruct zero; by apply not_elem_of_nil in H.
Qed.

Lemma gi_erase e : code c = (GErase e g, KClient None) ->
  let G' := mk_group (n G) (mtx G) (set_erase e (waiters G)) (outstanding G) in
  inv (step G' (DExchange e, KSelf e g)) -> gi (step G' (DExchange e, KSelf e g)).
Proof.
  intros Hc G' HI'. assert (Hmx : mtx G = Some f) by (apply gi_holder; by rewrite Hc).
  apply gi_group; [done|constructor|..]; rewrite ?Hc; try done; try by other_groups.
  - exact gi_count.
  - cbn. rewrite Hmx. intros h [= <-]. by left.
  - intros e' H. destruct (decide (e' = e)) as [->|Hn]; [right; by left|left]. cbn. by apply elem_of_erase.
  - intros e' H. cbn in H. apply elem_of_erase in H as [? _]. by left.
  - intros F. by left.
  - intros F [?|?]; [by left|done].
  - intros e' [= ->] _. by left.
  - cbn. intros e' [= ->] _ [_ ?]%elem_of_erase. done.
  - intros e' H. by apply not_elem_of_nil in H.
  - intros h [= ->]. by left.
  - intros e' [->|H]%elem_of_cons; [|by apply not_elem_of_nil in H].
    assert (Hh : e ∈ held (code c)) by (rewrite Hc; by left). apply lookup_lt_is_Some. by eapply held_slot.
Qed.

Lemma gi_unlock e : code c = (GUnlock e g, KClient None) ->
  let G' := mk_group (n G) None (waiters G) (outstanding G) in
  inv (step G' (Switch (TSlot e (Some g)), KClient None)) -> gi (step G' (Switch (TSlot e (Some g)), KClient None)).
Proof.
  intros Hc G' HI'. assert (Hmx : mtx G = Some f) by (apply gi_holder; by rewrite Hc).
  apply gi_group; [done|constructor|..]; rewrite ?Hc; try done; try by other_groups.
  - exact gi_count.
  - congruence.
  - intros e' H. by left.
  - intros e' H. by left.
  - intros F. by left.
  - intros F [?|?]; [by left|done].
  - intros e' Hw _. by left.
  - intros e' Hw _ He. by left.
  - intros h [= ->]. by left.
  - intros e' H. by apply not_elem_of_nil in H.
Qed.

Lemma gi_take : code c = (WTake g, KClient None) -> mtx G = None ->
  let G' := mk_group (n G) (Some f) [] (outstanding G) in
  inv (step G' (WAnd g, KSlots (waiters G))) -> gi (step G' (WAnd g, KSlots (waiters G))).
Proof.
  intros Hc Hm G' HI'. apply gi_group; [done|constructor|..]; rewrite ?Hc; try done; try by other_groups.
  - exact gi_count.
  - intros h [= <-]. by left.
  - congruence.
  - intros e' H. by right.
  - intros e' H. by apply not_elem_of_nil in H.
  - auto.
  - auto.
  - intros e' H. by apply not_elem_of_nil in H.
  - intros h [= ->]. by left.
  - intros e' H. by eapply g_slot.
Qed.

Lemma gi_clear l : code c = (WAnd g, KSlots l) ->
  let G' := mk_group (clear_waiter (n G)) None (waiters G) (outstanding G) in
  inv (step G' (Next, KSlots l)) -> gi (step G' (Next, KSlots l)).
Proof.
  intros Hc G' HI'. destruct gi_count as [Hn Hr].
  assert (Hmx : mtx G = Some f) by (apply gi_holder; by rewrite Hc).
  assert (Hw : waiters G = []) by (eapply g_and; [exact HG|exact gi_lookup|by rewrite Hc|done]).
  assert (Hn' : n G' = counter (outstanding G) false).
  { unfold G'. cbn [n]. rewrite Hn, counter_clear by done. unfold counter. lia. }
  apply gi_group; [done|constructor|..]; rewrite ?Hc; try done; try by other_groups.
  - unfold flagged. rewrite Hn', counter_flag by done. done.
  - congruence.
  - intros e' H. by left.
  - intros e' H. by left.
  - auto.
  - auto.
  - intros e' H. by eapply (g_sig _ _ _ _ HG f (code c)); [exact gi_lookup|rewrite Hc].
Qed.

Lemma gi_count_up a : code c = (Client, KClient a) -> outstanding G < COUNT_MASK ->
  let G' := mk_group (n G + 1) (mtx G) (waiters G) (outstanding G + 1) in
  inv (with_group s g G') -> gi (with_group s g G').
Proof.
  intros Hc Ho G' HI'. destruct gi_count as [Hn Hr].
  assert (Hn' : n G' = counter (outstanding G + 1) (flagged G)) by (unfold G'; cbn [n]; rewrite Hn; unfold counter; lia).
  assert (HF : flagged G' = flagged G).
  { unfold flagged at 1. rewrite Hn', counter_flag by (unfold COUNT_MASK in *; lia). by destruct (flagged G). }
  assert (Hid : step G' (code c) = with_group s g G').
  { unfold step, with_cell, with_group, set_code. cbn. f_equal. apply list_insert_id. rewrite Hf. by destruct c. }
  rewrite <- Hid. apply gi_group; [by rewrite Hid|constructor|..]; rewrite ?HF, ?Hc; try done; auto; try by other_groups.
  - rewrite Hn'. cbn [outstanding G']. split; [done|unfold COUNT_MASK in *; lia].
  - intros h Hm. right. split; [|done]. intros ->. destruct (g_mtx _ _ _ _ HG g G f Hg Hm) as (q & Hq & Hh).
    rewrite gi_lookup in Hq. injection Hq as <-. by rewrite Hc in Hh.
  - intros _ [?|?]; [|done]. left. cbn. lia.
  - intros e' H. by apply not_elem_of_nil in H.
Qed.

Lemma gi_complete : code c = (Client, KClient None) -> 0 < outstanding G ->
  let G' := mk_group (complete (n G)).1 (mtx G) (waiters G) (outstanding G - 1) in
  let p' := (if (complete (n G)).2 then (WTake g, KClient None) else (Client, KClient None)) in
  inv (step G' p') -> gi (step G' p').
Proof.
  intros Hc Ho G' p' HI'. destruct gi_count as [Hn Hr].
  assert (Hn' : n G' = counter (outstanding G - 1) (flagged G)) by (unfold G', complete; cbn [n fst]; rewrite Hn; unfold counter; lia).
  assert (HF : flagged G' = flagged G).
  { unfold flagged at 1. rewrite Hn', counter_flag by lia. by destruct (flagged G). }
  assert (Hw : (complete (n G)).2 = (outstanding G =? 1) && flagged G).
  { unfold complete. cbn [snd]. rewrite Hn, counter_count, counter_flag by done. f_equal. by destruct (flagged G). }
  assert (Hp : p' = (WTake g, KClient None) \/ p' = (Client, KClient None)) by (unfold p'; destruct (complete (n G)).2; auto).
  apply gi_group; [done|constructor|..]; rewrite ?HF, ?Hc; try done; auto.
  - rewrite Hn'. cbn [outstanding G']. split; [done|lia].
  - intros h Hm. right. split; [|done]. intros ->. destruct (g_mtx _ _ _ _ HG g G f Hg Hm) as (q & Hq & Hh).
    rewrite (gi_lookup) in Hq. injection Hq as <-. by rewrite Hc in Hh.
  - by destruct Hp as [-> | ->].
  - intros F _. cbn [outstanding G']. unfold p'. rewrite Hw, F, andb_true_r.
    destruct (Z.eqb_spec (outstanding G) 1); [right; by left|left; lia].
  - by destruct Hp as [-> | ->].
  - by destruct Hp as [-> | ->].
  - by destruct Hp as [-> | ->].
  - destruct Hp as [-> | ->]; other_groups.
  - intros e' H. by apply not_elem_of_nil in H.
  - intros h. destruct Hp as [-> | ->]; cbn; [|done]. intros [= ->]. by left.
  - by destruct Hp as [-> | ->].
  - intros e' H. destruct Hp as [-> | ->]; by apply not_elem_of_nil in H.
Qed.
End GroupSteps.

(** A cell's status changes, or its fiber is switched in. *)
Lemma gi_code_step s f c i s' : inv s -> inv s' -> gi s -> cells s !! f = Some c -> code_step f c i s = Some s' -> gi s'.
Proof.
  intros HI HI' HG Hf Hs. pose proof (i_shape s HI f c Hf) as Hsh. destruct (code c) as [p k] eqn:Hc.
  assert (Hlook : codes s !! f = Some (p, k)) by (apply codes_lookup; eauto).
  pose proof (kclient p k Hsh) as Hk. pose proof Hs as Hs0. unfold code_step, go in Hs. rewrite Hc in Hs. cbn [fst snd] in Hs.
  destruct p; try subst k.
  - done.
  - injection Hs as <-. eapply (gi_quiet s _ f (EPark x armed, KClient None) (EAdd x armed, KClient None)); try done; by rewrite codes_set.
  - destruct (events s !! x) as [l|] eqn:Hl; [|done]. injection Hs as <-.
    eapply (gi_quiet s _ f (EAdd x armed, KClient None)); [done|done|done|by rewrite codes_set|done|done|cbn; by rewrite length_insert|..];
      by destruct armed.
  - by eapply (gi_acquire s f c i og).
  - injection Hs as <-. eapply (gi_quiet s _ f (DPark e og, KClient None) (DPublish e og, KClient None)); try done; by rewrite codes_set.
  - injection Hs as <-. by apply gi_publish.
  - unfold wait_for_lock in Hs. open_group Hs G Hg. destruct (mtx G) eqn:Hm; [done|].
    injection Hs as <-. by eapply gi_lock.
  - unfold wait_for_or in Hs. open_group Hs G Hg. injection Hs as <-. by eapply (gi_or s f c g G).
  - unfold wait_for_erase in Hs. open_group Hs G Hg. injection Hs as <-. by eapply gi_erase.
  - unfold wait_for_unlock in Hs. open_group Hs G Hg. injection Hs as <-. by eapply gi_unlock.
  - injection Hs as <-. eapply (gi_quiet s _ f (Switch t, KClient None) (Parked t, KClient None)); try done; by rewrite codes_set.
  - done.
  - injection Hs as <-. eapply (gi_quiet s _ f (DRelease e, KClient None) (Client, KClient None)); try done; by rewrite codes_set.
  - open_group Hs G Hg. destruct (keeps_spinning (n G)); [done|]. injection Hs as <-.
    eapply (gi_quiet s _ f (Spin g, KClient None) (Client, KClient None)); try done; by rewrite codes_set.
  - by eapply gi_exchange.
  - by eapply gi_resume.
  - by eapply gi_next.
  - unfold wake_all_take in Hs. open_group Hs G Hg. destruct (mtx G) eqn:Hm; [done|].
    injection Hs as <-. by eapply gi_take.
  - destruct k as [| | |l]; try done. unfold wake_all_and in Hs. open_group Hs G Hg. injection Hs as <-.
    by eapply gi_clear.
Qed.

Lemma GetEvent_spec x s s1 i : GetEvent x s = (s1, i) ->
  cells s1 = cells s /\ slots s1 = slots s /\ groups s1 = groups s /\ (length (events s) <= length (events s1))%nat.
Proof.
  unfold GetEvent. destruct (registry s !! x); intros [= <- <-]; [done|]. split_and!; try done. cbn. rewrite length_app. lia.
Qed.

(** Every name of the registry is an event. *)
Definition registered (s : state) : Prop := forall x i, registry s !! x = Some i -> (i < length (events s))%nat.

Lemma GetEvent_valid x s s1 i : registered s -> GetEvent x s = (s1, i) -> (i < length (events s1))%nat /\ registered s1.
Proof.
  unfold GetEvent, registered. intros HR. destruct (registry s !! x) as [j|] eqn:E; intros [= <- <-]; [split; [by eapply HR|done]|].
  cbn. rewrite length_app. cbn. split; [lia|]. intros y j [[_ <-]|[_ Hy]]%lookup_insert_Some; [lia|]. specialize (HR y j Hy). lia.
Qed.

Lemma gi_park s f c name armed s1 i : inv (with_cell s1 f (set_code c (EPark i armed, KClient None))) -> gi s -> registered s ->
  cells s !! f = Some c -> code c = (Client, KClient None) -> GetEvent name s = (s1, i) ->
  gi (with_cell s1 f (set_code c (EPark i armed, KClient None))).
Proof.
  intros HI' HG HR Hf Hc E. destruct (GetEvent_spec _ _ _ _ E) as (E1 & E2 & E3 & E4).
  destruct (GetEvent_valid _ _ _ _ HR E) as [Hi _].
  assert (Hlook : codes s !! f = Some (Client, KClient None)) by (apply codes_lookup; eauto).
  eapply (gi_neutral s _ f (Client, KClient None) (EPark i armed, KClient None));
    [done|done|done|rewrite codes_set; unfold codes; by rewrite E1|..]; cbn; rewrite ?E2, ?E3; try done; auto.
  - by intros x [= <-].
  - intros e H. by apply not_elem_of_nil in H.
Qed.

(** The calls on named events that do not wait: they touch neither slots nor
    groups, and the caller is in client code or about to resume fibers. *)
Definition event_call (x : call) : bool :=
  match x with CGetEvent _ | CSignal _ _ | CSignalAll _ | CRemoveWaiter _ _ => true | _ => false end.

Definition signaling (a : option target) (p : code_t) : Prop :=
  p = (Client, KClient a) \/ (exists t, p = (Resuming t RLoad, KClient a)) \/ exists l, p = (Next, KFibers l a).

Lemma event_call_moves s f c a x s' : cells s !! f = Some c -> code c = (Client, KClient a) -> event_call x = true ->
  call_step f c a x s = Some s' ->
  exists p, codes s' = <[f := p]> (codes s) /\ signaling a p /\ slots s' = slots s /\ groups s' = groups s /\
    (length (events s) <= length (events s'))%nat.
Proof.
  intros Hf Hc Hx Hs. unfold call_step, go in Hs.
  assert (Hid : codes s = <[f := (Client, KClient a)]> (codes s)) by (symmetry; apply list_insert_id, codes_lookup; eauto).
  destruct x as [| | | | | |name|x t|x|x t| | |]; try done.
  - destruct (GetEvent name s) as [s1 i] eqn:E. assert (s1 = s') as <- by (destruct a; cbn in Hs; congruence).
    destruct (GetEvent_spec _ _ _ _ E) as (E1 & E2 & E3 & E4). exists (Client, KClient a).
    split_and!; [unfold codes at 1; by rewrite E1|by left|done..].
  - destruct (events s !! x) as [l|]; [|by destruct a]. cbn [mbind option_bind] in Hs. destruct (event_signal t l) as [l' found].
    assert (s' = with_cell (with_event s x l') f (set_code c (if found then (Resuming t RLoad, KClient a) else (Client, KClient a))))
      as -> by (destruct a; congruence).
    eexists. split_and!; [by rewrite codes_set| |done..|cbn; by rewrite length_insert]. destruct found; [right; left; by exists t|by left].
  - destruct (events s !! x) as [l|]; [|by destruct a]. cbn [mbind option_bind] in Hs.
    assert (s' = with_cell (with_event s x []) f (set_code c (Next, KFibers l a))) as -> by (destruct a; cbn in Hs; congruence).
    eexists. split_and!; [by rewrite codes_set|right; right; by exists l|done..|cbn; by rewrite length_insert].
  - destruct (events s !! x) as [l|]; [|by destruct a]. exists (Client, KClient a).
    destruct a; injection Hs as <-; (split_and!; [done|by left|done..|cbn; by rewrite length_insert]).
Qed.

Lemma gi_event_call s f c a x s' : inv s' -> gi s -> cells s !! f = Some c -> code c = (Client, KClient a) -> event_call x = true ->
  call_step f c a x s = Some s' -> gi s'.
Proof.
  intros HI' HG Hf Hc Hx Hs. destruct (event_call_moves s f c a x s' Hf Hc Hx Hs) as (p & H1 & H2 & H3 & H4 & H5).
  eapply (gi_quiet s s' f (Client, KClient a) p); try done; [apply codes_lookup; eauto|..];
    by destruct H2 as [-> |[[t ->]|[l ->]]].
Qed.

(** A client enters a call on the group [g]. *)
Lemma gi_enter_group s f c a g p' : inv (with_cell s f (set_code c p')) -> gi s -> cells s !! f = Some c -> code c = (Client, KClient a) ->
  is_Some (groups s !! g) -> neutral (Client, KClient a) p' -> will_signal p' = [] -> group_of p' = Some g -> event_of p' = None ->
  gi (with_cell s f (set_code c p')).
Proof.
  intros HI' HG Hf Hc Hg Hn Hw Hgr Hev.
  eapply (gi_neutral s _ f (Client, KClient a) p'); [done|done|apply codes_lookup; eauto|by rewrite codes_set|..]; try done; cbn; auto.
  - intros e H. by apply not_elem_of_nil in H.
  - intros h H. apply lookup_lt_is_Some. congruence.
  - by rewrite Hev.
  - rewrite Hw. intros e H. by apply not_elem_of_nil in H.
Qed.

Lemma gi_call_step s f c a x s' : inv s' -> gi s -> registered s -> cells s !! f = Some c -> code c = (Client, KClient a) ->
  call_step f c a x s = Some s' -> gi s'.
Proof.
  intros HI' HG HR Hf Hc Hs. destruct (event_call x) eqn:Hx; [by eapply gi_event_call|]. unfold call_step, go in Hs.
  assert (Hlook : codes s !! f = Some (Client, KClient a)) by (apply codes_lookup; eauto).
  destruct x as [name|name| |g|g| |name|x t|x|x t|e|g|g]; try done.
  - destruct a; [done|]. destruct (GetEvent name s) as [s1 i] eqn:E. injection Hs as <-. by eapply gi_park.
  - destruct a; [done|]. destruct (GetEvent name s) as [s1 i] eqn:E. injection Hs as <-. by eapply gi_park.
  - destruct a; [done|]. injection Hs as <-.
    eapply (gi_quiet s _ f (Client, KClient None) (DAcquire None, KClient None)); try done; by rewrite codes_set.
  - destruct a; [done|]. destruct (groups s !! g) eqn:Hg; [|done]. injection Hs as <-. by eapply (gi_enter_group s f c None g).
  - destruct a; [done|]. destruct (groups s !! g) eqn:Hg; [|done]. injection Hs as <-. by eapply (gi_enter_group s f c None g).
  - destruct a as [t|]; [|done]. injection Hs as <-.
    eapply (gi_quiet s _ f (Client, KClient (Some t)) (Switch t, KClient None)); try done; by rewrite codes_set.
  - destruct (slots s !! e) as [w|] eqn:He; [|by destruct a]. cbn [mbind option_bind] in Hs.
    assert (s' = with_cell s f (set_code c (DExchange e, KClient a))) as -> by (destruct a; congruence).
    eapply (gi_neutral s _ f (Client, KClient a) (DExchange e, KClient a)); [done|done|done|by rewrite codes_set|..]; try done; cbn; auto.
    + intros e' H. by apply not_elem_of_nil in H.
    + intros g H. by apply (g_group _ _ _ _ HG f (Client, KClient a)).
    + intros e' [->|H]%elem_of_cons; [by eapply lookup_lt_Some|by apply not_elem_of_nil in H].
  - destruct (groups s !! g) as [G|] eqn:Hg; [|by destruct a]. cbn [mbind option_bind] in Hs.
    destruct (Z.ltb_spec (outstanding G) COUNT_MASK) as [Ho|]; [|by destruct a].
    assert (s' = with_group s g (mk_group (n G + 1) (mtx G) (waiters G) (outstanding G + 1))) as -> by (destruct a; congruence).
    by eapply gi_count_up.
  - destruct a; [done|]. open_group Hs G Hg.
    destruct (Z.ltb_spec 0 (outstanding G)) as [Ho|]; [|done]. destruct (complete (n G)) as [n' wakes] eqn:E. injection Hs as <-.
    pose proof (gi_complete s f c g G HG Hf Hg Hc Ho) as H. rewrite E in H. by apply H.
Qed.

(** Everything that holds in the runs. *)
Record sound (s : state) : Prop := { so_inv : inv s; so_groups : gi s; so_names : registered s }.

Lemma registered_same s s' : registered s -> registry s' = registry s -> (length (events s) <= length (events s'))%nat -> registered s'.
Proof. intros HR E H x i. rewrite E. intros Hx. specialize (HR x i Hx). lia. Qed.

Lemma registered_call f c a x s s' : registered s -> call_step f c a x s = Some s' -> registered s'.
Proof.
  intros HR Hs. unfold call_step, go in Hs.
  assert (Hget : forall name s1 i, GetEvent name s = (s1, i) -> registered s1) by (intros; by eapply GetEvent_valid).
  destruct x as [name|name| |g|g| |name|x t|x|x t|e|g|g];
    try (destruct (GetEvent name s) as [s1 i] eqn:E; pose proof (Hget _ _ _ E));
    try (destruct (events s !! x) as [l|]); try (destruct (groups s !! g) as [G|]); try (destruct (slots s !! e)); destruct a;
    cbn in Hs; repeat case_match; simplify_eq; try done;
    eapply registered_same; try done; cbn; rewrite ?length_insert; done.
Qed.

Lemma registered_code f c i s s' : registered s -> code_step f c i s = Some s' -> registered s'.
Proof.
  intros HR Hs. unfold code_step, go, EventPool_Acquire, direct_signal, resume_fiber, wait_for_lock, wait_for_or, wait_for_erase,
    wait_for_unlock, wake_all_take, wake_all_and, next_waiter, go in Hs.
  assert (Hsame : registry s' = registry s /\ length (events s') = length (events s)); [|eapply registered_same; [done|..]; destruct Hsame; [done|lia]].
  destruct (code c) as [p k]; cbn [fst snd] in Hs; destruct p;
    repeat first [progress cbn [mbind option_bind] in Hs | match type of Hs with
      | context [?m !! ?k] => destruct (m !! k)
      | context [match ?x with _ => _ end] => destruct x
      end]; simplify_eq; try done; cbn; rewrite ?length_insert; done.
Qed.

Lemma sound_exec a s s' : sound s -> exec a s = Some s' -> sound s'.
Proof.
  intros [HI HG HR] Hs. pose proof (waits_inv_exec a s s' HI Hs) as HI'. split; [done|..].
  - destruct a as [f x|f i|f|f]; cbn [exec] in Hs; destruct (cells s !! f) as [c|] eqn:Hf; cbn [mbind option_bind] in Hs; try done.
    + destruct (code c) as [[] []] eqn:Hc; try done. destruct (running c); [|done]. by eapply gi_call_step.
    + destruct (running c) eqn:Hr; [|done]. by eapply (gi_code_step s f c i).
    + destruct (worker_step c) as [c'|] eqn:E; [|done]. injection Hs as <-. assert (Hcode : code c' = code c).
      { unfold worker_step in E. destruct (Parking.place c) as [[]|]; try done; destruct (post_step _ _); by simplify_eq. }
      unfold gi. rewrite codes_set, Hcode, list_insert_id; [done|]. apply codes_lookup. eauto.
    + destruct (dispatch wake c) as [c'|] eqn:E; [|done]. injection Hs as <-.
      destruct (dispatch_ok at_point wake c c') as (H1 & H2 & _); [by eapply (i_cells s HI)|done|].
      destruct (parked_code _ H1) as (t & k & Hc).
      assert (Hk : k = KClient None) by (pose proof (i_shape s HI f c Hf) as H; rewrite Hc in H; by destruct k as [[]| | |]).
      subst k. assert (Hlook : codes s !! f = Some (Parked t, KClient None)) by (apply codes_lookup; eauto).
      eapply (gi_quiet s _ f (Parked t, KClient None) (code c')); [done|done|done|by rewrite codes_set|done|done|done|..];
        rewrite H2, Hc; destruct t; done || solve_neutral.
  - destruct a as [f x|f i|f|f]; cbn [exec] in Hs; destruct (cells s !! f) as [c|] eqn:Hf; cbn [mbind option_bind] in Hs; try done.
    + destruct (code c) as [[] []] eqn:Hc; try done. destruct (running c); [|done]. by eapply registered_call.
    + destruct (running c) eqn:Hr; [|done]. by eapply registered_code.
    + destruct (worker_step c) as [c'|] eqn:E; [|done]. injection Hs as <-. by eapply registered_same.
    + destruct (dispatch wake c) as [c'|] eqn:E; [|done]. injection Hs as <-. by eapply registered_same.
Qed.

Definition good_counts (counts : list Z) : Prop := Forall (fun k => 0 <= k <= COUNT_MASK) counts.

Lemma sound_start actors pool_size counts : good_counts counts -> sound (start actors pool_size counts).
Proof.
  intros Hc. assert (Hp : forall h p, codes (start actors pool_size counts) !! h = Some p -> p = (Client, KClient None)).
  { intros h p (c & Hh & <-)%codes_lookup. by apply lookup_replicate in Hh as [-> _]. }
  assert (Hg : forall g G, groups (start actors pool_size counts) !! g = Some G ->
    exists k, 0 <= k <= COUNT_MASK /\ G = mk_group k None [] k).
  { cbn. intros g G HG. rewrite list_lookup_fmap in HG. apply fmap_Some in HG as (k & Hk & ->).
    exists k. split; [|done]. unfold good_counts in Hc. rewrite Forall_lookup in Hc. by apply (Hc g). }
  split; [apply waits_inv_start| |].
  - constructor; try (intros h p g ->%Hp; done); try (intros f p e g G ->%Hp; done); try (intros h p g G ->%Hp; done).
    + intros g G (k & Hk & ->)%Hg. change k with (n (mk_group k None [] k)) at 1. split; [|done].
      replace k with (counter k false) at 1 by (unfold counter; lia). unfold flagged. cbn [n outstanding].
      replace k with (counter k false) at 3 by (unfold counter; lia). rewrite counter_flag by done. unfold counter. cbn. lia.
    + intros g G h (k & _ & ->)%Hg. done.
    + intros h p e ->%Hp. by intros ?%not_elem_of_nil.
    + intros g G e (k & _ & ->)%Hg. by intros ?%not_elem_of_nil.
  - intros x i Hx. cbn in Hx. by rewrite lookup_empty in Hx.
Qed.

Lemma sound_reached actors pool_size counts s :
  good_counts counts -> reaches exec (start actors pool_size counts) s -> sound s.
Proof. intros Hc. apply reaches_invariant; [intros a s1 s2; apply sound_exec|by apply sound_start]. Qed.

(** ** States in which nothing can move *)

Definition internal (a : action) : Prop := match a with Call _ _ => False | _ => True end.
Definition quiescent (s : state) : Prop := forall a, internal a -> exec a s = None.

(** What is left of an actor when nothing can move. *)
Definition at_rest (s : state) (f : nat) (c : cell code_t) : Prop :=
  match code c with
  | (Client, _) => True
  | (DAcquire _, _) => freeq s = []
  | (Spin g, _) => exists G, groups s !! g = Some G /\ 0 < n G
  | (Parked t, _) =>
      asleep at_point c /\
      match t with
      | TEvent x => (exists l, events s !! x = Some l /\ f ∈ l) \/ f ∈ removed s
      | TSlot e None => slots s !! e = Some (Some f)
      | TSlot e (Some g) => exists G, groups s !! g = Some G /\ slots s !! e = Some (Some f) /\ e ∈ waiters G /\ flagged G = true /\ 0 < outstanding G
      end
  | _ => False
  end.

(** Why code that runs may be unable to go on. *)
Definition blocked (s : state) (p : wait_pc) : Prop :=
  match p with
  | Client => True
  | DAcquire _ => freeq s = []
  | Spin g => exists G, groups s !! g = Some G /\ 0 < n G
  | GLock _ g | WTake g => exists G, groups s !! g = Some G /\ mtx G <> None
  | _ => False
  end.

Lemma next_waiter_some f c k s : shape (Next, k) -> exists i, is_Some (next_waiter f c i k s).
Proof. intros H. exists 0%nat. destruct k as [| |[|x l] a|[|x l]]; try done; by eexists. Qed.

Lemma code_progress s f c : sound s -> cells s !! f = Some c -> running c = true ->
  (exists i, is_Some (code_step f c i s)) \/ blocked s (code c).1.
Proof.
  intros [HI HG HR] Hf Hrun. pose proof (i_shape s HI f c Hf) as Hsh. assert (Hlook : codes s !! f = Some (code c)) by (apply codes_lookup; eauto).
  assert (Hgr : forall g, group_of (code c) = Some g -> is_Some (groups s !! g)).
  { intros g Hg. apply lookup_lt_is_Some. by eapply (g_group _ _ _ _ HG f (code c)). }
  assert (Hev : forall x, event_of (code c) = Some x -> is_Some (events s !! x)).
  { intros x Hx. apply lookup_lt_is_Some. by eapply (g_event _ _ _ _ HG f (code c)). }
  assert (Hok : at_point (code c) <> Inside).
  { intros E. pose proof (i_cells s HI f c Hf) as H. unfold cell_ok in H. rewrite E in H. unfold running in Hrun.
    apply bool_decide_eq_true in Hrun. by rewrite Hrun in H. }
  unfold code_step, go. destruct (code c) as [p k] eqn:Hc. cbn [fst snd]. destruct p; try (by right); try (left; exists 0%nat; by eexists).
  - left. exists 0%nat. destruct (Hev x eq_refl) as [l ->]. by eexists.
  - unfold EventPool_Acquire. cbn [blocked]. destruct (freeq s) as [|e q]; [by right|left]. exists 0%nat. by eexists.
  - destruct (Hgr g eq_refl) as [G HGr]. unfold wait_for_lock. cbn [blocked]. rewrite HGr. cbn [mbind option_bind].
    destruct (mtx G) as [h|] eqn:Hm; [right; exists G; by rewrite Hm|left]. exists 0%nat. by eexists.
  - destruct (Hgr g eq_refl) as [G HGr]. left. exists 0%nat. unfold wait_for_or. rewrite HGr. by eexists.
  - destruct (Hgr g eq_refl) as [G HGr]. left. exists 0%nat. unfold wait_for_erase. rewrite HGr. by eexists.
  - destruct (Hgr g eq_refl) as [G HGr]. left. exists 0%nat. unfold wait_for_unlock. rewrite HGr. by eexists.
  - destruct (Hgr g eq_refl) as [G HGr]. cbn [blocked]. rewrite HGr. cbn [mbind option_bind]. unfold keeps_spinning.
    destruct (Z.ltb_spec 0 (n G)); [right; eauto|left]. exists 0%nat. by eexists.
  - left. exists 0%nat. unfold direct_signal. destruct (lookup_lt_is_Some_2 (slots s) e) as [w Hw].
    { eapply (g_sig _ _ _ _ HG f); [exact Hlook|by left]. }
    rewrite Hw. destruct w; by eexists.
  - left. exists 0%nat. unfold resume_fiber. destruct (i_own s HI f c n pc Hf) as (ct & Ht & _); [rewrite Hc; by left|].
    rewrite Ht. cbn [mbind option_bind]. destruct (resume pc ct) as [ct' pc'].
    destruct (lookup_lt_is_Some_2 (cells (with_cell s n ct')) f) as [cf Hcf].
    { cbn. rewrite length_insert. by eapply lookup_lt_Some. }
    rewrite Hcf. by eexists.
  - left. by apply next_waiter_some.
  - destruct (Hgr g eq_refl) as [G HGr]. unfold wake_all_take. cbn [blocked]. rewrite HGr. cbn [mbind option_bind].
    destruct (mtx G) as [h|] eqn:Hm; [right; exists G; by rewrite Hm|left]. exists 0%nat. by eexists.
  - destruct (Hgr g eq_refl) as [G HGr]. left. exists 0%nat. destruct k; try done. unfold wake_all_and. rewrite HGr. by eexists.
Qed.

Section Quiescent.
Context (s : state) (HS : sound s) (HQ : quiescent s).

(** A fiber that is not inside the switch has a worker; its code is blocked. *)
Lemma rest_code f c : cells s !! f = Some c -> at_point (code c) <> Inside -> blocked s (code c).1.
Proof.
  intros Hf Hp. assert (Hr : running c = true).
  { pose proof (i_cells s (so_inv s HS) f c Hf) as H. unfold cell_ok in H. unfold running. apply bool_decide_eq_true.
    destruct (at_point (code c)); tauto. }
  destruct (code_progress s f c HS Hf Hr) as [[i [s' H]]|H]; [exfalso|done].
  pose proof (HQ (Code f i) I) as H0. cbn in H0. rewrite Hf in H0. cbn in H0. rewrite Hr in H0. congruence.
Qed.

Lemma rest_group f c g : cells s !! f = Some c -> group_of (code c) = Some g -> is_Some (groups s !! g).
Proof.
  intros Hf Hg. apply lookup_lt_is_Some. eapply (g_group _ _ _ _ (so_groups s HS) f (code c)); [|done]. apply codes_lookup. eauto.
Qed.

(** A group's mutex is free: its holder could go on. *)
Lemma rest_mutex g G : groups s !! g = Some G -> mtx G = None.
Proof.
  intros Hg. destruct (mtx G) as [h|] eqn:Hm; [exfalso|done].
  destruct (g_mtx _ _ _ _ (so_groups s HS) g G h Hg Hm) as (p & Hp & Hh). apply codes_lookup in Hp as (c & Hc & <-).
  assert (Hp : at_point (code c) <> Inside) by (intros (t & k & E)%parked_code; by rewrite E in Hh).
  pose proof (rest_code h c Hc Hp) as H. destruct (code c) as [[] ?]; done.
Qed.

(** So nobody is about to resume a fiber, to signal or to call [WakeAll]. *)
Lemma rest_point f c : cells s !! f = Some c -> at_point (code c) <> Inside ->
  match (code c).1 with Client => True | DAcquire _ => freeq s = [] | Spin g => exists G, groups s !! g = Some G /\ 0 < n G | _ => False end.
Proof.
  intros Hf Hp. pose proof (rest_code f c Hf Hp) as H. destruct (code c) as [[] k]; try done;
    destruct H as (G & Hg & Hm); by rewrite (rest_mutex _ G Hg) in Hm.
Qed.

Lemma rest_quiet f c : cells s !! f = Some c ->
  owned (code c) = [] /\ will_signal (code c) = [] /\ (forall g, (code c).1 <> WTake g).
Proof.
  intros Hf. pose proof (i_shape s (so_inv s HS) f c Hf) as Hsh.
  assert (H : match (code c).1 with Client | DAcquire _ | Spin _ | Parked _ => True | _ => False end).
  { destruct (at_point (code c)) eqn:E; [| | |by apply parked_code in E as (t & k & ->)];
      pose proof (rest_point f c Hf ltac:(by rewrite E)) as H; by destruct (code c) as [[] ?]. }
  destruct (code c) as [[] [[]| | |]]; done.
Qed.

(** A parked fiber is asleep, and registered. *)
Lemma rest_parked f c t k : cells s !! f = Some c -> code c = (Parked t, k) ->
  asleep at_point c /\ exists r, reg s f r /\ fits r t.
Proof.
  intros Hf Hc. pose proof (i_cells s (so_inv s HS) f c Hf) as Hok.
  assert (Hp : at_point (code c) = Inside) by by rewrite Hc.
  assert (Hw : worker_step c = None).
  { pose proof (HQ (Worker f) I) as H. cbn in H. rewrite Hf in H. cbn in H. by destruct (worker_step c). }
  assert (Hd : dispatch wake c = None).
  { pose proof (HQ (Dispatch f) I) as H. cbn in H. rewrite Hf in H. cbn in H. by destruct (dispatch wake c). }
  assert (Hrest : Parking.place c = None /\ inq c = false).
  { unfold worker_step in Hw. unfold dispatch in Hd. unfold cell_ok in Hok. rewrite Hp in Hok.
    destruct (Parking.place c) as [[]|]; try done; try (by destruct (post_step _ _)). by destruct (inq c). }
  destruct Hrest as [Hpl Hq]. unfold cell_ok in Hok. rewrite Hp, Hpl, Hq in Hok.
  assert (Hnd : needs_resume at_point c).
  { destruct Hok as [[Hst _]|Hst]; [left; right; split; [by left|by right]|by right]. }
  pose proof (i_pub s (so_inv s HS) f c Hf ltac:(rewrite Hc; by eexists) Hnd) as H.
  apply waits_occ_tokens in H as [[r Hr]|(g & d & pc & Hg & Ho)].
  - destruct (i_reg s (so_inv s HS) f r Hr) as (c' & tgt & Hc' & Hw' & Hft & Hu). assert (c' = c) as -> by congruence.
    rewrite Hc in Hw'. injection Hw' as <-. split; [|by exists r]. split_and!; try done.
    destruct Hok as [[? _]|Hst]; [done|]. destruct Hu as [Hu|[_ [Hu|Hu]]]; congruence.
  - exfalso. assert (Hin : f ∈ owned (code d)) by (apply owns_owned; eauto).
    rewrite (proj1 (rest_quiet g d Hg)) in Hin. by apply not_elem_of_nil in Hin.
Qed.

Lemma rest_at_rest f c : cells s !! f = Some c -> at_rest s f c.
Proof.
  intros Hf. assert (Hcase : at_point (code c) = Inside \/ at_point (code c) <> Inside) by (destruct (at_point (code c)); auto).
  destruct Hcase as [Hp|Hp].
  - destruct (parked_code _ Hp) as (t & k & Hc). destruct (rest_parked f c t k Hf Hc) as (Ha & r & Hr & Hft).
    unfold at_rest. rewrite Hc. split; [done|]. destruct t as [x|e [g|]].
    + destruct r as [y|e|]; cbn in Hft; try done; [subst y; by left|by right].
    + destruct r as [y|e'|]; cbn in Hft; try done; subst e'.
      destruct (rest_group f c g Hf) as [G Hg]; [by rewrite Hc|]. exists G. split; [done|]. split; [done|].
      assert (Hlook : codes s !! f = Some (code c)) by (apply codes_lookup; eauto).
      destruct (g_member _ _ _ _ (so_groups s HS) f (code c) e g G Hlook) as [Hin|(h & p & Hh & Hin)]; try done; try by rewrite Hc.
      * destruct (g_flag _ _ _ _ (so_groups s HS) f (code c) e g G Hlook) as [HF [Ho|(h & p & Hh & Hp')]]; try done; try by rewrite Hc.
        apply codes_lookup in Hh as (d & Hd & <-). by destruct (rest_quiet h d Hd) as (_ & _ & H%(fun H => H g)).
      * apply codes_lookup in Hh as (d & Hd & <-). destruct (rest_quiet h d Hd) as (_ & H & _). rewrite H in Hin.
        by apply not_elem_of_nil in Hin.
    + destruct r as [y|e'|]; cbn in Hft; try done. by subst e'.
  - pose proof (rest_point f c Hf Hp) as H. unfold at_rest. by destruct (code c) as [[] k].
Qed.
End Quiescent.

(** ** Every run without new calls ends

    A bound on the steps that are left.  A fiber's way through the worker and back
    onto one costs at most eight steps of weight [M], which exceeds what the
    changes of its status can cost the threads that are resuming it: a failed CAS
    of [Resume] is the only step back. *)

Definition place_weight (pl : option worker_pc) : nat :=
  match pl with
  | Some WRunning => 10 | Some WPost => 9 | Some WYield | Some WPark => 8 | Some WSignaled => 7 | Some WPush => 6
  | Some WDone => 5 | None => 4
  end.
Definition wants_weight (st : FiberStatus) : nat := match st with WANTS_SUSPEND => 1 | _ => 0 end.
Definition resume_weight (pc : resume_pc) : nat :=
  match pc with RLoad => 5 | RCasSuspended | RCasWants => 4 | RRequeue => 2 | RDone => 0 end.

Section Weight.
Context (M : nat).

Definition kont_weight (k : kont) : nat :=
  match k with
  | KClient _ => 0
  | KSelf _ _ => 7 * M + 4
  | KFibers l _ | KSlots l => 10 * length l + 1
  end.
Definition code_weight (p : code_t) : nat :=
  match p.1 with
  | Client => 0
  | EPark _ _ => 9 * M + 7
  | EAdd _ _ => 7 * M + 6
  | DAcquire _ => 9 * M + 35
  | DPark _ _ => 9 * M + 34
  | DPublish _ _ => 7 * M + 32
  | GLock _ _ => 7 * M + 31
  | GOr _ _ => 7 * M + 16
  | GErase _ _ => 7 * M + 15
  | GUnlock _ _ => 7 * M + 4
  | Switch _ => 7 * M + 3
  | Parked _ => 7 * M + 2
  | DRelease _ | Spin _ => 1
  | DExchange _ => kont_weight p.2 + 7
  | Resuming _ pc => kont_weight p.2 + resume_weight pc
  | Next => kont_weight p.2
  | WTake _ => 5
  | WAnd _ => kont_weight p.2 + 1
  end.
Definition cell_weight (c : cell code_t) : nat :=
  M * (place_weight (Parking.place c) + wants_weight (Parking.status c)) + code_weight (code c).
End Weight.

(** A CAS that is going to fail repeats two steps. *)
Definition wants (s : state) (t : nat) : Prop := (Parking.status <$> cells s !! t) = Some WANTS_SUSPEND.
#[local] Instance wants_dec s t : Decision (wants s t).
Proof. unfold wants. apply _. Defined.
Definition retry (s : state) (c : cell code_t) : nat :=
  match (code c).1 with Resuming t RCasWants => if decide (wants s t) then 0 else 2 | _ => 0 end.

Definition wide (s : state) : nat := 2 * length (cells s) + 1.
Definition group_weight (s : state) : nat := sum_list_with (fun G => 10 * length (waiters G))%nat (groups s).
Definition measure (s : state) : nat :=
  sum_list_with (cell_weight (wide s)) (cells s) + sum_list_with (retry s) (cells s) + group_weight s.

Lemma retry_le s c : (retry s c <= 2)%nat.
Proof. unfold retry. destruct ((code c).1) as [| | | | | | | | | | | | | | |t []| | |]; try lia. case_decide; lia. Qed.

Lemma retry_bound s s0 : length (cells s0) = length (cells s) -> (sum_list_with (retry s) (cells s0) < wide s)%nat.
Proof.
  unfold wide. intros <-. induction (cells s0) as [|c l IH]; simpl; [lia|]. pose proof (retry_le s c). lia.
Qed.

(** A step of one actor that loses more than the failing CASs may cost. *)
Lemma measure_big s s' f c c' : cells s !! f = Some c -> cells s' = <[f := c']> (cells s) ->
  group_weight s' = group_weight s ->
  (cell_weight (wide s) c' + wide s <= cell_weight (wide s) c)%nat -> (measure s' < measure s)%nat.
Proof.
  intros Hf Hc Hg Hw. assert (Hlen : length (cells s') = length (cells s)) by (by rewrite Hc, length_insert).
  assert (HM : wide s' = wide s) by (unfold wide; by rewrite Hlen).
  pose proof (sum_with_insert (cell_weight (wide s)) _ _ _ c' Hf) as H1. rewrite <- Hc in H1.
  pose proof (retry_bound s' s' eq_refl). unfold measure. rewrite HM in *. lia.
Qed.

(** A step that changes no status that a CAS waits for; what it changes is exact. *)
Lemma measure_eq s s' f c c' : cells s !! f = Some c -> cells s' = <[f := c']> (cells s) ->
  wants_weight (Parking.status c') = wants_weight (Parking.status c) ->
  wide s' = wide s /\ (forall d, retry s' d = retry s d) /\
  (measure s' + (cell_weight (wide s) c + retry s c + group_weight s) =
   measure s + (cell_weight (wide s) c' + retry s c' + group_weight s'))%nat.
Proof.
  intros Hf Hc Hst. assert (Hlen : length (cells s') = length (cells s)) by (by rewrite Hc, length_insert).
  assert (HM : wide s' = wide s) by (unfold wide; by rewrite Hlen).
  assert (Hwants : forall t, wants s' t <-> wants s t).
  { intros t. unfold wants. rewrite Hc. destruct (decide (t = f)) as [->|Hn]; [|by rewrite list_lookup_insert_ne].
    rewrite list_lookup_insert_eq by (by eapply lookup_lt_Some). rewrite Hf. cbn.
    destruct (Parking.status c'), (Parking.status c); try done; split; congruence. }
  assert (Hr : forall d, retry s' d = retry s d).
  { intros d. unfold retry. destruct ((code d).1) as [| | | | | | | | | | | | | | |t []| | |]; try done.
    destruct (decide (wants s' t)) as [H|H], (decide (wants s t)) as [H'|H']; try done; exfalso; naive_solver. }
  assert (Hrs : sum_list_with (retry s') (cells s') = sum_list_with (retry s) (cells s')).
  { clear -Hr. induction (cells s') as [|d l IH]; [done|]. simpl. by rewrite IH, Hr. }
  pose proof (sum_with_insert (cell_weight (wide s)) _ _ _ c' Hf) as H1. pose proof (sum_with_insert (retry s) _ _ _ c' Hf) as H2.
  rewrite <- Hc in H1, H2. split; [done|]. split; [done|]. unfold measure. rewrite HM, Hrs in *. lia.
Qed.

Lemma ret_weight M k : (code_weight M (ret k) <= kont_weight M k)%nat.
Proof. destruct k; cbn; lia. Qed.
Lemma retry_set_code s c p : (forall t, p.1 <> Resuming t RCasWants) -> retry s (set_code c p) = 0%nat.
Proof. intros H. unfold retry. cbn. destruct p as [[] k]; try done. destruct pc; try done. by destruct (H n). Qed.

Lemma measure_worker s f c c' : cells s !! f = Some c -> worker_step c = Some c' -> (measure (with_cell s f c') < measure s)%nat.
Proof.
  intros Hf Hs. eapply (measure_big s _ f c c'); try done. unfold cell_weight, worker_step in *.
  destruct (Parking.place c) as [pc|]; [|done]. destruct pc, (Parking.status c); cbn in Hs; try done; injection Hs as <-; cbn; lia.
Qed.

Lemma measure_dispatch s f c c' : inv s -> cells s !! f = Some c -> dispatch wake c = Some c' ->
  (measure (with_cell s f c') < measure s)%nat.
Proof.
  intros HI Hf Hs. destruct (dispatch_ok at_point wake c c') as (H1 & H2 & _); [by eapply i_cells|done|].
  destruct (parked_code _ H1) as (t & k & Hc). unfold dispatch in Hs.
  destruct (Parking.place c) eqn:Hp; [done|]. destruct (inq c); [|done]. injection Hs as <-.
  assert (HM : (1 <= wide s)%nat) by (unfold wide; lia). set (N := length (cells s)).
  eapply (measure_big s _ f c _); try done. unfold cell_weight. rewrite Hp, Hc. cbn [code Parking.status Parking.place place_weight].
  destruct t as [x|e og]; cbn; destruct (Parking.status c); cbn; lia.
Qed.

(** The code moves and may change its group's waiters. *)
Lemma measure_code s s' f c p : cells s !! f = Some c -> cells s' = <[f := set_code c p]> (cells s) ->
  (code_weight (wide s) p + retry s (set_code c p) + group_weight s' < code_weight (wide s) (code c) + retry s c + group_weight s)%nat ->
  (measure s' < measure s)%nat.
Proof.
  intros Hf Hc Hw. destruct (measure_eq s s' f c (set_code c p) Hf Hc eq_refl) as (_ & _ & H). unfold cell_weight in H. cbn [code set_code Parking.status Parking.place] in H. lia.
Qed.

Lemma measure_resume s f c t pc k i s' : inv s -> cells s !! f = Some c -> code c = (Resuming t pc, k) -> pc <> RDone ->
  code_step f c i s = Some s' -> (measure s' < measure s)%nat.
Proof.
  intros HI Hf Hc Hnd Hs. unfold code_step, resume_fiber in Hs. rewrite Hc in Hs. cbn [fst snd] in Hs.
  destruct (cells s !! t) as [ct|] eqn:Ht; [|done]. cbn [mbind option_bind] in Hs. destruct (resume pc ct) as [ct' pc'] eqn:Hr.
  destruct (cells (with_cell s t ct') !! f) as [cf|] eqn:Hcf; [|done]. cbn [mbind option_bind] in Hs. injection Hs as <-.
  set (s1 := with_cell s t ct'). assert (Hcode : code ct' = code ct /\ Parking.place ct' = Parking.place ct).
  { unfold resume in Hr. destruct (resume_step pc (Parking.status ct)). by injection Hr as <- _. }
  assert (Hcf' : code cf = (Resuming t pc, k)).
  { cbn in Hcf. apply list_lookup_insert_Some in Hcf as [(-> & <- & _)|[_ H]]; [rewrite (proj1 Hcode)|]; congruence. }
  destruct (measure_eq s1 (with_cell s1 f (set_code cf (resumed_code t pc' k))) f cf _ Hcf eq_refl eq_refl) as (_ & _ & H2).
  unfold cell_weight in H2. cbn [code set_code Parking.status Parking.place] in H2. rewrite Hcf' in H2.
  change (group_weight (with_cell s1 f _)) with (group_weight s1) in H2.
  assert (Hst : Parking.status ct' = (resume_step pc (Parking.status ct)).1 /\ pc' = (resume_step pc (Parking.status ct)).2).
  { unfold resume in Hr. destruct (resume_step pc (Parking.status ct)). by injection Hr as <- <-. }
  destruct Hst as [Hst Hpc'].
  assert (Hret : forall p, p = ret k -> retry s1 (set_code cf p) = 0%nat /\ (code_weight (wide s1) p <= kont_weight (wide s1) k)%nat).
  { intros p ->. split; [|apply ret_weight]. apply retry_set_code. by destruct k. }
  destruct (decide (Parking.status ct = WANTS_SUSPEND /\ pc = RCasWants)) as [[Hw ->]|Hn].
  - assert (Hlt : (measure s1 < measure s)%nat).
    { eapply (measure_big s s1 t ct ct'); try done. unfold cell_weight. rewrite (proj1 Hcode), (proj2 Hcode), Hst, Hw. cbn [resume_step]. rewrite decide_True by done. cbn [fst wants_weight]. rewrite !Nat.mul_add_distr_l. lia. }
    rewrite Hw in Hpc'. vm_compute in Hpc'. subst pc'. destruct (Hret _ eq_refl) as [R1 R2].
    change (resumed_code t RDone k) with (ret k) in *. rewrite R1 in H2. cbn [code_weight fst snd resume_weight] in H2. lia.
  - destruct (measure_eq s s1 t ct ct' Ht eq_refl) as (M1 & M2 & M3).
    { rewrite Hst. destruct pc, (Parking.status ct); cbn; try done; tauto. }
    change (group_weight s1) with (group_weight s) in *.
    assert (Hcw : cell_weight (wide s) ct' = cell_weight (wide s) ct).
    { unfold cell_weight. rewrite (proj1 Hcode), (proj2 Hcode), Hst. destruct pc, (Parking.status ct); cbn; try done; tauto. }
    assert (Hrt : retry s ct' = retry s ct) by (unfold retry; by rewrite (proj1 Hcode)).
    assert (Hcf2 : retry s1 cf = retry s c) by (rewrite M2; unfold retry; by rewrite Hcf', Hc).
    rewrite M2 in Hcf2. rewrite !M2 in H2.
    assert (Hw : pc = RCasWants -> retry s c = 2%nat).
    { intros ->. unfold retry. rewrite Hc. cbn [fst]. apply decide_False. unfold wants. rewrite Ht. cbn. intros [= E]. tauto. }
    assert (Hnew : retry s (set_code cf (Resuming t pc', k)) = 0%nat).
    { unfold retry. cbn [code set_code fst]. destruct pc' eqn:E; try done. apply decide_True. unfold wants. rewrite Ht. cbn.
      destruct pc, (Parking.status ct); vm_compute in Hpc'; congruence. }
    unfold resumed_code in *. destruct (decide (pc' = RDone)) as [->|Hd].
    + destruct (Hret _ eq_refl) as [R1 R2]. rewrite M2 in R1. rewrite R1 in H2. cbn [code_weight fst snd] in H2.
      destruct pc; cbn [resume_weight] in H2; try lia. done.
    + cbn [code_weight fst snd] in H2. destruct pc, (Parking.status ct) eqn:Est; vm_compute in Hpc'; subst pc'; try done; cbn [resume_weight] in H2;
        try rewrite Hw in Hcf2 by done; lia.
Qed.

Lemma group_weight_set s s' g G G' : groups s !! g = Some G -> groups s' = <[g := G']> (groups s) ->
  (group_weight s' + 10 * length (waiters G) = group_weight s + 10 * length (waiters G'))%nat.
Proof. intros Hg Hs. unfold group_weight. rewrite Hs. apply (sum_with_insert (fun G => 10 * length (waiters G))%nat _ _ _ _ Hg). Qed.

Lemma set_insert_length x l : (length (set_insert x l) <= length l + 1)%nat.
Proof. unfold set_insert. case_decide; rewrite ?length_app; simpl; lia. Qed.
Lemma set_erase_length x l : (length (set_erase x l) <= length l)%nat.
Proof. apply length_filter. Qed.
Lemma delete_length {A} (l : list A) i x : l !! i = Some x -> (length l = length (delete i l) + 1)%nat.
Proof. intros H. rewrite length_delete by (by eexists). apply lookup_lt_Some in H. lia. Qed.

(** Moving to a point that is not a retry. *)
Lemma measure_move s s' f c p w : cells s !! f = Some c -> cells s' = <[f := set_code c p]> (cells s) ->
  (forall t, p.1 <> Resuming t RCasWants) -> group_weight s' = (group_weight s + w)%nat ->
  (code_weight (wide s) p + w < code_weight (wide s) (code c))%nat -> (measure s' < measure s)%nat.
Proof. intros Hf Hc Hp Hg Hw. eapply measure_code; [done|done|]. rewrite (retry_set_code s c p Hp). lia. Qed.

Lemma measure_next s f c k i s' : cells s !! f = Some c -> code c = (Next, k) -> next_waiter f c i k s = Some s' ->
  (measure s' < measure s)%nat.
Proof.
  intros Hf Hc Hs. unfold next_waiter, go in Hs.
  destruct k as [a|e g|[|x l] a|[|x l]]; try done; try (destruct ((x :: l) !! i) as [y|] eqn:Hi; [|done]);
    injection Hs as <-; (eapply (measure_move s _ f c _ 0); [done|done|done|cbn; by rewrite Nat.add_0_r|]); rewrite Hc;
    try (apply delete_length in Hi); cbn [code_weight fst snd kont_weight resume_weight length] in *; lia.
Qed.

(** Each of the group's accesses. *)
Lemma measure_group s f c g G G' p : cells s !! f = Some c -> groups s !! g = Some G ->
  (forall t, p.1 <> Resuming t RCasWants) ->
  (code_weight (wide s) p + 10 * length (waiters G') < code_weight (wide s) (code c) + 10 * length (waiters G))%nat ->
  (measure (with_cell (with_group s g G') f (set_code c p)) < measure s)%nat.
Proof.
  intros Hf Hg Hp Hw. pose proof (group_weight_set s (with_cell (with_group s g G') f (set_code c p)) g G G' Hg eq_refl) as H.
  eapply measure_code; [done|done|]. rewrite (retry_set_code s c p Hp). lia.
Qed.

(** A fiber announces that it will suspend. *)
Lemma measure_park s f c q : cells s !! f = Some c -> Parking.place c = Some WRunning ->
  (code_weight (wide s) q + 2 * wide s <= code_weight (wide s) (code c))%nat -> (measure (with_cell s f (park c q)) < measure s)%nat.
Proof.
  intros Hf Hpl Hw. eapply (measure_big s _ f c _); try done. unfold cell_weight.
  cbn [park code Parking.status Parking.place leave_status]. rewrite Hpl. cbn [place_weight].
  destruct (Parking.status c); cbn [wants_weight]; lia.
Qed.

(** It switches back to its worker. *)
Lemma measure_switch s f c t k : cells s !! f = Some c -> code c = (Switch t, k) -> Parking.place c = Some WRunning ->
  (measure (with_cell s f (switch_out c (Parked t, k))) < measure s)%nat.
Proof.
  intros Hf Hc Hpl. assert (HM : (1 <= wide s)%nat) by (unfold wide; lia).
  destruct (measure_eq s (with_cell s f (switch_out c (Parked t, k))) f c _ Hf eq_refl eq_refl) as (_ & _ & H).
  unfold cell_weight in H. cbn [switch_out code Parking.status Parking.place] in H. rewrite Hc, Hpl in H.
  assert (Hr : retry s (switch_out c (Parked t, k)) = 0%nat) by done.
  change (group_weight (with_cell s f _)) with (group_weight s) in H.
  rewrite Hr in H. cbn [place_weight code_weight fst] in H. rewrite !Nat.mul_add_distr_l in H. lia.
Qed.

Definition in_group (p : wait_pc) : Prop :=
  match p with GLock _ _ | GOr _ _ | GErase _ _ | GUnlock _ _ | WTake _ | WAnd _ => True | _ => False end.

(** The steps inside a group: of [WaitFor], and the first two of [WakeAll]. *)
Lemma measure_group_code s f c p k i s' : cells s !! f = Some c -> code c = (p, k) -> in_group p -> code_step f c i s = Some s' ->
  (measure s' < measure s)%nat.
Proof.
  intros Hf Hc Hp Hs. unfold code_step in Hs. rewrite Hc in Hs. cbn [fst snd] in Hs. destruct p; try done.
  - unfold wait_for_lock, go in Hs. open_group Hs G Hg. destruct (mtx G); [done|].
    injection Hs as <-. eapply (measure_group s f c g G); try done. rewrite Hc. pose proof (set_insert_length e (waiters G)).
    cbn [code_weight fst snd waiters]. lia.
  - unfold wait_for_or, go in Hs. open_group Hs G Hg. injection Hs as <-.
    eapply (measure_group s f c g G); try done; destruct (_ =? 0); try done; rewrite Hc; cbn [code_weight fst snd waiters]; lia.
  - unfold wait_for_erase, go in Hs. open_group Hs G Hg. injection Hs as <-.
    eapply (measure_group s f c g G); try done. rewrite Hc. pose proof (set_erase_length e (waiters G)).
    cbn [code_weight fst snd waiters kont_weight]. lia.
  - unfold wait_for_unlock, go in Hs. open_group Hs G Hg. injection Hs as <-.
    eapply (measure_group s f c g G); try done. rewrite Hc. cbn [code_weight fst snd waiters]. lia.
  - unfold wake_all_take, go in Hs. open_group Hs G Hg. destruct (mtx G); [done|].
    injection Hs as <-. eapply (measure_group s f c g G); try done. rewrite Hc. cbn [code_weight fst snd waiters kont_weight length]. lia.
  - destruct k as [| | |l]; try done. unfold wake_all_and, go in Hs. open_group Hs G Hg. injection Hs as <-.
    eapply (measure_group s f c g G); try done. rewrite Hc. cbn [code_weight fst snd waiters kont_weight]. lia.
Qed.

Lemma measure_code_step s f c i s' : inv s -> cells s !! f = Some c -> running c = true -> code_step f c i s = Some s' ->
  (measure s' < measure s)%nat.
Proof.
  intros HI Hf Hrun Hs. pose proof (i_shape s HI f c Hf) as Hsh. destruct (code c) as [p k] eqn:Hc.
  pose proof (kclient p k Hsh) as Hk. pose proof Hs as Hs0. unfold code_step, go in Hs. rewrite Hc in Hs. cbn [fst snd] in Hs.
  assert (Hpl : Parking.place c = Some WRunning) by (by apply bool_decide_eq_true in Hrun).
  assert (Hmv : forall s' p', cells s' = <[f := set_code c p']> (cells s) -> group_weight s' = group_weight s ->
    (forall t, p'.1 <> Resuming t RCasWants) -> (code_weight (wide s) p' < code_weight (wide s) (code c))%nat -> (measure s' < measure s)%nat).
  { intros s0 p' H1 H2 H3 H4. apply (measure_move s s0 f c p' 0); try done; rewrite ?H2; lia. }
  rewrite Hc in Hmv. destruct p; try subst k; (try done); try (by eapply (measure_group_code s f c)).
  - injection Hs as <-. apply measure_park; [done..|]. rewrite Hc. cbn [code_weight fst snd]. lia.
  - destruct (events s !! x) as [l|]; [|done]. injection Hs as <-.
    apply (Hmv _ (if armed then (Client, KClient (Some (TEvent x))) else (Switch (TEvent x), KClient None))); try done; destruct armed; cbn; try done; lia.
  - unfold EventPool_Acquire in Hs. destruct (freeq s !! i) as [e|]; [|done]. cbn [mbind option_bind] in Hs. injection Hs as <-.
    apply (Hmv _ (DPark e og, KClient None)); try done. cbn; lia.
  - injection Hs as <-. apply measure_park; [done..|]. rewrite Hc. cbn [code_weight fst snd]. lia.
  - injection Hs as <-. apply (Hmv _ (match og with None => (Client, KClient (Some (TSlot e None))) | Some g => (GLock e g, KClient None) end));
      try done; destruct og; try done; cbn [code_weight fst snd]; lia.
  - injection Hs as <-. by apply measure_switch.
  - injection Hs as <-. apply (Hmv _ (Client, KClient None)); try done. cbn; lia.
  - open_group Hs G Hg. destruct (keeps_spinning (n G)); [done|]. injection Hs as <-.
    apply (Hmv _ (Client, KClient None)); try done. cbn; lia.
  - unfold direct_signal, go in Hs. destruct (slots s !! e) as [w|]; [|done]. cbn [mbind option_bind] in Hs.
    pose proof (ret_weight (wide s) k). destruct w as [t|]; injection Hs as <-.
    + apply (Hmv _ (Resuming t RLoad, k)); try done. cbn [code_weight fst snd resume_weight]. lia.
    + apply (Hmv _ (ret k)); try done; [by destruct k|]. cbn [code_weight fst snd] in *. lia.
  - destruct (decide (pc = RDone)) as [->|Hne]; [|by eapply (measure_resume s f c)].
    destruct (i_own s HI f c n RDone Hf) as (ct & _ & _ & H); [rewrite Hc; by left|done].
  - by eapply (measure_next s f c k i).
Qed.

Lemma measure_exec a s s' : sound s -> internal a -> exec a s = Some s' -> (measure s' < measure s)%nat.
Proof.
  intros [HI _ _] Ha Hs. destruct a as [f x|f i|f|f]; [done|..]; cbn [exec] in Hs; destruct (cells s !! f) as [c|] eqn:Hf;
    cbn [mbind option_bind] in Hs; try done.
  - destruct (running c) eqn:Hr; [|done]. by eapply measure_code_step.
  - destruct (worker_step c) as [c'|] eqn:E; [|done]. injection Hs as <-. by eapply measure_worker.
  - destruct (dispatch wake c) as [c'|] eqn:E; [|done]. injection Hs as <-. by eapply measure_dispatch.
Qed.

(** ** The pool of events *)

Lemma exec_sizes a s s' : exec a s = Some s' -> length (cells s') = length (cells s) /\ length (slots s') = length (slots s).
Proof.
  intros Hs. destruct a as [f x|f i|f|f]; cbn [exec] in Hs.
  - unfold call_step, go, GetEvent, event_signal, event_signal_all in Hs. destruct x;
    repeat first [progress cbn [mbind option_bind fst snd] in Hs | match type of Hs with
      | context [?m !! ?k] => destruct (m !! k)
      | context [match ?x with _ => _ end] => destruct x
      end]; simplify_eq; cbn; rewrite ?length_insert; done.
  - unfold code_step, go, EventPool_Acquire, direct_signal, resume_fiber, wait_for_lock, wait_for_or, wait_for_erase,
      wait_for_unlock, wake_all_take, wake_all_and, next_waiter, go in Hs.
    destruct (cells s !! f) as [c|]; [|done]. cbn [mbind option_bind] in Hs. destruct (running c); [|done].
    destruct (code c) as [p k]; cbn [fst snd] in Hs; destruct p;
    repeat first [progress cbn [mbind option_bind] in Hs | match type of Hs with
      | context [?m !! ?k] => destruct (m !! k)
      | context [match ?x with _ => _ end] => destruct x
      end]; simplify_eq; try done; cbn; rewrite ?length_insert; done.
  - destruct (cells s !! f) as [c|]; [|done]. cbn [mbind option_bind] in Hs. destruct (worker_step c); [|done].
    injection Hs as <-. cbn. by rewrite length_insert.
  - destruct (cells s !! f) as [c|]; [|done]. cbn [mbind option_bind] in Hs. destruct (dispatch wake c); [|done].
    injection Hs as <-. cbn. by rewrite length_insert.
Qed.

Lemma bind_length_le {A B} (h : A -> list B) l : (forall x, (length (h x) <= 1)%nat) -> (length (l ≫= h) <= length l)%nat.
Proof. intros H. induction l as [|x l IH]; [done|]. rewrite bind_cons, length_app. simpl. specialize (H x). lia. Qed.
Lemma bind_length_lt {A B} (h : A -> list B) l i x : (forall x, (length (h x) <= 1)%nat) -> l !! i = Some x -> h x = [] ->
  (length (l ≫= h) < length l)%nat.
Proof.
  intros H. revert i. induction l as [|y l IH]; intros [|i] Hi Hx; try done; rewrite bind_cons, length_app; simpl.
  - injection Hi as ->. rewrite Hx. pose proof (bind_length_le h l H). simpl. lia.
  - specialize (IH i Hi Hx). specialize (H y). lia.
Qed.

(** With at least as many events as actors, [Acquire] finds one. *)
Lemma pool_available s f c og k : inv s -> (length (cells s) <= length (slots s))%nat ->
  cells s !! f = Some c -> code c = (DAcquire og, k) -> freeq s <> [].
Proof.
  intros HI Hlen Hf Hc Hq. assert (Hp : pool s ≡ₚ seq 0 (length (slots s))).
  { apply occ_perm. intros e. rewrite (i_pool s HI e), occ_seq. repeat case_decide; lia. }
  apply Permutation_length in Hp. rewrite length_seq in Hp. unfold pool in Hp. rewrite Hq in Hp. cbn [app] in Hp.
  assert (Hlt : (length (cells s ≫= fun c => held (code c)) < length (cells s))%nat); [|lia].
  apply (bind_length_lt _ _ f c); [|done|by rewrite Hc]. intros d. unfold held.
  destruct (code d) as [[] k']; cbn; try lia; repeat case_match; cbn; lia.
Qed.

(** ** Properties *)

(** [C6] Events, [DirectEvent]s and wait groups lose no wakeup.  After any run, the
    work that is under way ends (every run of it is bounded), and when nothing can
    move any more each actor is in client code; or spins on a group whose [n] is not
    0; or is a fiber asleep in a wait that nobody has ended: a named event that
    still has it among its waiters (or was told to forget it), a [DirectEvent] that
    still has it as its waiter, or a group with tasks outstanding, its event among
    the group's waiters and the flag set.  With as many [DirectEvent]s as actors none
    is stuck for want of one. *)
Theorem waits_lose_no_wakeup actors pool_size counts s :
  good_counts counts -> reaches exec (start actors pool_size counts) s ->
  (forall l s', Forall internal l -> run exec l s = Some s' -> (length l <= measure s)%nat) /\
  (quiescent s -> forall f c, cells s !! f = Some c -> at_rest s f c /\
     ((actors <= pool_size)%nat -> forall og, (code c).1 <> DAcquire og)).
Proof.
  intros Hgc Hr. pose proof (sound_reached actors pool_size counts s Hgc Hr) as HS. split.
  - intros l s' Hl Hrun. eapply (run_bounded exec sound internal measure); try done; [intros a s1 s2; apply sound_exec|].
    intros a s1 s2. apply measure_exec.
  - intros HQ f c Hf. split; [by apply rest_at_rest|]. intros Hle og Hc.
    pose proof (rest_at_rest s HS HQ f c Hf) as H. unfold at_rest in H. destruct (code c) as [p k] eqn:E. cbn in Hc. subst p.
    revert H. apply (pool_available s f c og k); [apply HS| |done|done].
    assert (Hsz : length (cells s) = actors /\ length (slots s) = pool_size); [|lia].
    revert Hr. apply (reaches_invariant exec (fun s => length (cells s) = actors /\ length (slots s) = pool_size)).
    + intros a s1 s2 [<- <-] H%exec_sizes. destruct H as [-> ->]. done.
    + cbn. by rewrite !length_replicate.
Qed.

(** Fiber 0 waits for a group with one task, and is parked. *)
Definition waiting_trace : list action := Call 0 (CWaitFor 0) :: replicate 7 (Code 0 0) ++ replicate 2 (Worker 0).

Lemma waits_lose_no_wakeup_witness : exists s c G,
  run exec waiting_trace (start 2 2 [1]) = Some s /\ cells s !! 0%nat = Some c /\ asleep at_point c /\
  groups s !! 0%nat = Some G /\ 0 < outstanding G /\ flagged G = true.
Proof.
  assert (Hgc : good_counts [1]).
  { apply Forall_cons. split; [|apply Forall_nil_2]. unfold COUNT_MASK, WAITER_BIT. lia. }
  assert (Hf : (fun s => cells s) <$> run exec waiting_trace (start 2 2 [1]) =
    Some [mk_cell (Parked (TSlot 0 (Some 0%nat)), KClient None) SUSPENDED None false;
          mk_cell (Client, KClient None) RUNNING (Some WRunning) false]) by (vm_compute; reflexivity).
  destruct (run exec waiting_trace (start 2 2 [1])) as [s|] eqn:E; [|discriminate Hf]. injection Hf as Hc.
  assert (HQ : quiescent s).
  { intros [f x|f i|f|f] Ha; [destruct Ha|..]; cbn [exec]; rewrite Hc; destruct f as [|[|f]]; reflexivity. }
  assert (H0 : cells s !! 0%nat = Some (mk_cell (Parked (TSlot 0 (Some 0%nat)), KClient None) SUSPENDED None false)) by (rewrite Hc; reflexivity).
  destruct (proj2 (waits_lose_no_wakeup 2 2 [1] s Hgc (ex_intro _ _ E)) HQ 0%nat _ H0) as [(Ha & G & HG & _ & _ & HF & HO) _].
  exists s, (mk_cell (Parked (TSlot 0 (Some 0%nat)), KClient None) SUSPENDED None false), G.
  split; [reflexivity|]. split; [exact H0|]. split; [exact Ha|]. split; [exact HG|]. split; [exact HO|exact HF].
Defined.
