(* ===== verification/WaitEarly.v ===== *)
(** * Wait groups: nobody is released early

    When tasks are counted in a group only while no fiber is in the last part of
    [WaitFor] on it and no [WakeAll] of it is under way, and nobody signals a
    [DirectEvent] by hand, [WaitFor] releases a fiber only when the count of its
    group is 0; and the ways in which the code breaks its promises when it is used
    otherwise. *)
From stdpp Require Import strings.
From S2P Require Import Prelude Fiber Task Parking Waits WaitGroups.

(** Points at which the count was seen to be 0; at which the event is in the
    set. *)
Definition zero_point (p : code_t) (g : nat) : Prop :=
  match p.1 with GErase _ g' | WTake g' | WAnd g' => g' = g | _ => False end.
Definition in_set (p : code_t) (e g : nat) : Prop :=
  match p.1 with GOr e' g' | GErase e' g' => e' = e /\ g' = g | _ => False end.
#[global] Instance zero_point_dec p g : Decision (zero_point p g).
Proof. unfold zero_point. destruct p.1; apply _. Defined.

(** A fiber is registered with the group, or about to, or a [WakeAll] of the group
    is to come or has not taken the waiters yet. *)
Definition in_use (g : nat) (p : code_t) : Prop :=
  zero_point p g \/ match waits p with Some (TSlot _ (Some g')) => g' = g | _ => False end.
#[global] Instance in_use_dec g p : Decision (in_use g p).
Proof. unfold in_use. repeat case_match; apply _. Defined.

(** The actions of a fork-join run: tasks are counted in groups that are not in
    use. *)
Definition fork_join (s : state) (a : action) : Prop :=
  match a with
  | Call _ (CDirectSignal _) => False
  | Call _ (CRunCounted g) => Forall (fun c => ~ in_use g (code c)) (cells s)
  | _ => True
  end.
#[global] Instance fork_join_dec s a : Decision (fork_join s a).
Proof. unfold fork_join. repeat case_match; apply _. Defined.
Definition fork_join_exec (a : action) (s : state) : option state :=
  if decide (fork_join s a) then exec a s else None.

Section Early.
Context (K : list code_t) (sl : list (option nat)) (gs : list group).

(** The events that are registered or about to be signaled. *)
Definition signals : list nat := (gs ≫= waiters) ++ (K ≫= will_signal).

Record early : Prop := {
  e_once : forall e, (occ e signals <= 1)%nat;
  e_used : forall e, e ∈ signals -> exists f p g, K !! f = Some p /\ waits p = Some (TSlot e (Some g)) /\ sl !! e = Some (Some f);
  e_own : forall g G e f p g', gs !! g = Some G -> e ∈ waiters G -> K !! f = Some p -> waits p = Some (TSlot e (Some g')) -> g' = g;
  e_sig : forall h q e f p g G, K !! h = Some q -> e ∈ will_signal q -> K !! f = Some p -> waits p = Some (TSlot e (Some g)) ->
    gs !! g = Some G -> outstanding G = 0;
  e_count : forall f p e g G, K !! f = Some p -> waits p = Some (TSlot e (Some g)) -> gs !! g = Some G -> 0 < outstanding G ->
    sl !! e = Some (Some f);
  e_zero : forall h p g G, K !! h = Some p -> zero_point p g -> gs !! g = Some G -> outstanding G = 0;
  e_in : forall h p e g G, K !! h = Some p -> in_set p e g -> gs !! g = Some G -> e ∈ waiters G;
  e_fresh : forall h p e g, K !! h = Some p -> p.1 = GLock e g -> (e ∉ signals) /\ sl !! e = Some (Some h)
}.
End Early.

Lemma elem_of_signals K gs e : e ∈ signals K gs <->
  (exists g G, gs !! g = Some G /\ e ∈ waiters G) \/ exists h q, K !! h = Some q /\ e ∈ will_signal q.
Proof.
  unfold signals. rewrite elem_of_app, !list_elem_of_bind. split.
  - intros [(G & He & [g Hg]%list_elem_of_lookup)|(q & He & [h Hh]%list_elem_of_lookup)]; eauto 10.
  - intros [(g & G & Hg & He)|(h & q & Hh & He)]; [left|right]; eauto using list_elem_of_lookup_2.
Qed.

(** Two fibers never wait for the same event. *)
Definition distinct (K : list code_t) : Prop :=
  forall f g p q e og og', K !! f = Some p -> K !! g = Some q -> waits p = Some (TSlot e og) -> waits q = Some (TSlot e og') -> f = g.

Lemma codes_distinct s : inv s -> distinct (codes s).
Proof.
  intros HI f g p q e og og' (c & Hc & <-)%codes_lookup (d & Hd & <-)%codes_lookup Hw Hw'.
  eapply (held_unique s f g c d e); try done; by eapply waits_held.
Qed.

Section Update.
Context (K : list code_t) (sl : list (option nat)) (gs gs' : list group) (f : nat) (p p' : code_t).
Context (HE : early K sl gs) (HD : distinct K) (Hf : K !! f = Some p)
  (Hw : forall e g, waits p' = Some (TSlot e (Some g)) <-> waits p = Some (TSlot e (Some g)))
  (Hout : forall g G', gs' !! g = Some G' -> exists G, gs !! g = Some G /\ (outstanding G = 0 -> outstanding G' = 0) /\
     (0 < outstanding G' -> 0 < outstanding G) /\ forall e, e ∈ waiters G' -> e ∈ waiters G \/ waits p = Some (TSlot e (Some g)))
  (Hsig : forall e, e ∈ will_signal p' -> e ∈ will_signal p \/ exists g G, gs !! g = Some G /\ e ∈ waiters G /\ outstanding G = 0)
  (Honce : forall e, (occ e (signals (<[f := p']> K) gs') <= 1)%nat)
  (Hnew : forall e g, waits p = Some (TSlot e (Some g)) -> e ∈ signals (<[f := p']> K) gs' -> e ∈ signals K gs \/ sl !! e = Some (Some f))
  (Hzero : forall g G', zero_point p' g -> gs' !! g = Some G' -> outstanding G' = 0)
  (Hin : forall e g G', in_set p' e g -> gs' !! g = Some G' -> e ∈ waiters G')
  (Hkeep : forall h q e g G', h <> f -> K !! h = Some q -> in_set q e g -> gs' !! g = Some G' -> e ∈ waiters G')
  (Hfresh : forall e g, p'.1 = GLock e g -> p.1 = GLock e g /\ (e ∈ signals (<[f := p']> K) gs' -> e ∈ signals K gs)).

Let K' := <[f := p']> K.

Lemma eu_at h q : K' !! h = Some q -> h = f /\ q = p' \/ h <> f /\ K !! h = Some q.
Proof. intros [(-> & <- & _)|[? ?]]%list_lookup_insert_Some; auto. Qed.

(** Who waits for what does not change. *)
Lemma eu_waits h q e g : K' !! h = Some q -> waits q = Some (TSlot e (Some g)) ->
  exists q0, K !! h = Some q0 /\ waits q0 = Some (TSlot e (Some g)).
Proof. intros [[-> ->]|[_ Hh]]%eu_at Hq; [exists p; split; [done|by apply Hw]|eauto]. Qed.
Lemma eu_waits_back h q e g : K !! h = Some q -> waits q = Some (TSlot e (Some g)) ->
  exists q0, K' !! h = Some q0 /\ waits q0 = Some (TSlot e (Some g)).
Proof.
  intros Hh Hq. destruct (decide (h = f)) as [->|Hn].
  - exists p'. split; [apply list_lookup_insert_eq; by eapply lookup_lt_Some|]. apply Hw. congruence.
  - exists q. split; [|done]. unfold K'. by rewrite list_lookup_insert_ne.
Qed.

Lemma eu_signals e : e ∈ signals K' gs' -> e ∈ signals K gs \/ exists g, waits p = Some (TSlot e (Some g)).
Proof.
  rewrite elem_of_signals. intros [(g & G' & Hg & He)|(h & q & Hh & He)].
  - destruct (Hout g G' Hg) as (G & HG & _ & _ & Hi). destruct (Hi e He) as [H|H]; [left|right; eauto].
    apply elem_of_signals. left. eauto.
  - left. apply elem_of_signals. destruct (eu_at h q Hh) as [[-> ->]|[_ Hq]]; [|right; eauto].
    destruct (Hsig e He) as [H|(g & G & HG & H & _)]; [right; eauto|left; eauto].
Qed.

Lemma early_update : early K' sl gs'.
Proof.
  constructor.
  - apply Honce.
  - intros e He. assert (Hcase : e ∈ signals K gs \/ exists g, waits p = Some (TSlot e (Some g)) /\ sl !! e = Some (Some f)).
    { destruct (eu_signals e He) as [H|[g H]]; [by left|]. destruct (Hnew e g H He); [by left|right; eauto]. }
    destruct Hcase as [H|(g & H & Hs)].
    + destruct (e_used _ _ _ HE e H) as (u & q & g & Hu & Hq & Hs). destruct (eu_waits_back u q e g Hu Hq) as (q' & ? & ?). eauto 10.
    + destruct (eu_waits_back f p e g Hf H) as (q' & ? & ?). eauto 10.
  - intros g G' e u q g' HG' He Hu Hq. destruct (eu_waits u q e g' Hu Hq) as (q0 & Hu0 & Hq0).
    destruct (Hout g G' HG') as (G & HG & _ & _ & Hi). destruct (Hi e He) as [H|H]; [exact (e_own _ _ _ HE g G e u q0 g' HG H Hu0 Hq0)|].
    assert (u = f) as -> by (by eapply HD). congruence.
  - intros h r e u q g G' Hh Hr Hu Hq HG'. destruct (eu_waits u q e g Hu Hq) as (q0 & Hu0 & Hq0).
    destruct (Hout g G' HG') as (G & HG & Hz & _). apply Hz.
    destruct (eu_at h r Hh) as [[-> ->]|[_ Hh0]]; [|exact (e_sig _ _ _ HE h r e u q0 g G Hh0 Hr Hu0 Hq0 HG)].
    destruct (Hsig e Hr) as [H|(g0 & G0 & HG0 & H & Hz0)]; [exact (e_sig _ _ _ HE f p e u q0 g G Hf H Hu0 Hq0 HG)|].
    assert (g = g0) as -> by exact (e_own _ _ _ HE g0 G0 e u q0 g HG0 H Hu0 Hq0). congruence.
  - intros u q e g G' Hu Hq HG' Hp. destruct (eu_waits u q e g Hu Hq) as (q0 & Hu0 & Hq0).
    destruct (Hout g G' HG') as (G & HG & _ & Hz & _). eapply e_count; eauto.
  - intros h q g G' Hh Hz HG'. destruct (eu_at h q Hh) as [[-> ->]|[_ Hh0]]; [by eapply Hzero|].
    destruct (Hout g G' HG') as (G & HG & H & _). apply H. by eapply e_zero.
  - intros h q e g G' Hh Hz HG'. destruct (eu_at h q Hh) as [[-> ->]|[Hn Hh0]]; [by eapply Hin|by eapply Hkeep].
  - intros h q e g Hh Hq. destruct (eu_at h q Hh) as [[-> ->]|[Hn Hh0]].
    + destruct (Hfresh e g Hq) as [H1 H2]. destruct (e_fresh _ _ _ HE f p e g Hf H1) as [F1 F2]. split; [|done].
      intros He. by apply F1, H2.
    + destruct (e_fresh _ _ _ HE h q e g Hh0 Hq) as [F1 F2]. split; [|done]. intros He.
      destruct (eu_signals e He) as [H|[g' H]]; [done|].
      apply Hn. eapply (HD h f q p e (Some g)); try done. destruct q as [[] ?]; cbn in *; congruence.
Qed.
End Update.

Lemma occ_signals_cell K gs f p p' e : K !! f = Some p ->
  (occ e (signals (<[f := p']> K) gs) + occ e (will_signal p) = occ e (signals K gs) + occ e (will_signal p'))%nat.
Proof. intros Hf. unfold signals. rewrite !occ_app. pose proof (occ_bind_insert e will_signal K f p p' Hf). lia. Qed.

Lemma occ_signals_group K gs g G G' e : gs !! g = Some G ->
  (occ e (signals K (<[g := G']> gs)) + occ e (waiters G) = occ e (signals K gs) + occ e (waiters G'))%nat.
Proof. intros Hg. unfold signals. rewrite !occ_app. pose proof (occ_bind_insert e waiters gs g G G' Hg). lia. Qed.

Lemma occ_signals_same K gs gs' e : waiters <$> gs' = waiters <$> gs -> occ e (signals K gs') = occ e (signals K gs).
Proof.
  intros H. unfold signals. rewrite !occ_app. f_equal. revert gs H.
  induction gs' as [|G' l' IH]; intros [|G l] H; try done. rewrite !bind_cons, !occ_app. cbn in H. injection H as -> H.
  by rewrite (IH l H).
Qed.

Lemma elem_occ {A} `{EqDecision A} (x : A) l k : occ x l = occ x k -> x ∈ l <-> x ∈ k.
Proof. intros H. by rewrite !occ_elem, H. Qed.

(** The registered events stay, and who is about to signal them. *)
Lemma early_quiet K sl gs gs' f p p' : early K sl gs -> distinct K -> K !! f = Some p ->
  waiters <$> gs' = waiters <$> gs ->
  (forall g G', gs' !! g = Some G' -> exists G, gs !! g = Some G /\ (outstanding G = 0 -> outstanding G' = 0) /\
     (0 < outstanding G' -> 0 < outstanding G)) ->
  (forall e g, waits p' = Some (TSlot e (Some g)) <-> waits p = Some (TSlot e (Some g))) ->
  (forall e, occ e (will_signal p') = occ e (will_signal p)) ->
  (forall g G', zero_point p' g -> gs' !! g = Some G' -> outstanding G' = 0) ->
  (forall e g, in_set p' e g -> in_set p e g) -> (forall e g, p'.1 = GLock e g -> p.1 = GLock e g) ->
  early (<[f := p']> K) sl gs'.
Proof.
  intros HE HD Hf Hwt Hout Hw Hsig Hzero Hin Hfr.
  assert (Hocc : forall e, occ e (signals (<[f := p']> K) gs') = occ e (signals K gs)).
  { intros e. rewrite (occ_signals_same _ _ _ _ Hwt). pose proof (occ_signals_cell K gs f p p' e Hf) as H. rewrite Hsig in H. lia. }
  assert (Hwg : forall g G G', gs !! g = Some G -> gs' !! g = Some G' -> waiters G' = waiters G).
  { intros g G G' H1 H2. assert (H : (waiters <$> gs') !! g = (waiters <$> gs) !! g) by by rewrite Hwt.
    rewrite !list_lookup_fmap, H1, H2 in H. by injection H. }
  assert (Hin' : forall h q e g G', K !! h = Some q -> in_set q e g -> gs' !! g = Some G' -> e ∈ waiters G').
  { intros h q e g G' Hh Hq HG'. destruct (Hout g G' HG') as (G & HG & _). rewrite (Hwg g G G') by done. by eapply e_in. }
  eapply early_update; try done.
  - intros g G' HG'. destruct (Hout g G' HG') as (G & HG & H1 & H2). exists G. rewrite (Hwg g G G') by done. auto.
  - intros e He. left. by apply (elem_occ e _ _ (Hsig e)).
  - intros e. rewrite Hocc. by eapply e_once.
  - intros e g _ He. left. by apply (elem_occ e _ _ (Hocc e)).
  - intros e g G' H. apply (Hin' f p e g); auto.
  - intros h q e g G' _. apply Hin'.
  - intros e g H. split; [by apply Hfr|]. apply (elem_occ e _ _ (Hocc e)).
Qed.

(** The slot of the actor's own event changes, or what it waits for ends. *)
Lemma early_slot K sl sl' gs f p p' : early K sl gs -> K !! f = Some p ->
  (forall e, e ∈ signals (<[f := p']> K) gs -> e ∈ signals K gs /\
     forall u, sl !! e = Some (Some u) -> sl' !! e = Some (Some u) /\
       (u = f -> forall g, waits p = Some (TSlot e (Some g)) -> waits p' = Some (TSlot e (Some g)))) ->
  (forall e, (occ e (signals (<[f := p']> K) gs) <= 1)%nat) ->
  (forall e, e ∈ will_signal p' -> e ∈ will_signal p) ->
  (forall h q e g, <[f := p']> K !! h = Some q -> waits q = Some (TSlot e (Some g)) ->
     (h <> f \/ waits p = Some (TSlot e (Some g))) \/ e ∉ signals (<[f := p']> K) gs) ->
  (forall h q e g G, <[f := p']> K !! h = Some q -> waits q = Some (TSlot e (Some g)) -> gs !! g = Some G -> 0 < outstanding G ->
     sl' !! e = Some (Some h)) ->
  (forall g, ~ zero_point p' g) -> (forall e g, ~ in_set p' e g) ->
  (forall e g, p'.1 = GLock e g -> (e ∉ signals (<[f := p']> K) gs) /\ sl' !! e = Some (Some f)) ->
  (forall h e, h <> f -> sl !! e = Some (Some h) -> e ∉ signals K gs -> sl' !! e = Some (Some h)) -> early (<[f := p']> K) sl' gs.
Proof.
  intros HE Hf Hs Honce Hws Hwt Hcount Hz Hi Hfr Hkept.
  assert (Hat : forall h q, <[f := p']> K !! h = Some q -> h = f /\ q = p' \/ h <> f /\ K !! h = Some q) by (intros h q [(-> & <- & _)|[? ?]]%list_lookup_insert_Some; auto).
  assert (Hgone : forall h q e, <[f := p']> K !! h = Some q -> e ∈ will_signal q -> exists q0, K !! h = Some q0 /\ e ∈ will_signal q0).
  { intros h q e [[-> ->]|[_ Hh]]%Hat He; eauto. }
  constructor.
  - done.
  - intros e He. destruct (Hs e He) as [H0 Hs0]. destruct (e_used _ _ _ HE e H0) as (u & q & g & Hu & Hq & Hsl).
    destruct (Hs0 u Hsl) as [H1 H2]. destruct (decide (u = f)) as [->|Hn].
    + exists f, p', g. split; [apply list_lookup_insert_eq; by eapply lookup_lt_Some|]. split; [|done]. apply H2; [done|congruence].
    + exists u, q, g. by rewrite list_lookup_insert_ne.
  - intros g G e u q g' HG He Hu Hq. assert (Hin : e ∈ signals (<[f := p']> K) gs) by (apply elem_of_signals; left; eauto).
    destruct (Hwt u q e g' Hu Hq) as [H|H]; [|done]. destruct (Hat u q Hu) as [[-> ->]|[Hn Hu0]].
    + destruct H as [H|H]; [done|]. exact (e_own _ _ _ HE g G e f p g' HG He Hf H).
    + exact (e_own _ _ _ HE g G e u q g' HG He Hu0 Hq).
  - intros h r e u q g G Hh Hr Hu Hq HG. destruct (Hgone h r e Hh Hr) as (r0 & Hh0 & Hr0).
    assert (Hin : e ∈ signals (<[f := p']> K) gs) by (apply elem_of_signals; right; eauto).
    destruct (Hwt u q e g Hu Hq) as [H|H]; [|done]. destruct (Hat u q Hu) as [[-> ->]|[Hn Hu0]].
    + destruct H as [H|H]; [done|]. exact (e_sig _ _ _ HE h r0 e f p g G Hh0 Hr0 Hf H HG).
    + exact (e_sig _ _ _ HE h r0 e u q g G Hh0 Hr0 Hu0 Hq HG).
  - done.
  - intros h q g G [[-> ->]|[Hn Hh]]%Hat Hzp HG; [by destruct (Hz g)|by eapply e_zero].
  - intros h q e g G [[-> ->]|[Hn Hh]]%Hat Hzp HG; [by destruct (Hi e g)|by eapply e_in].
  - intros h q e g [[-> ->]|[Hn Hh]]%Hat Hq; [by apply Hfr with g|].
    destruct (e_fresh _ _ _ HE h q e g Hh Hq) as [F1 F2]. split; [|by apply Hkept]. intros He. by destruct (Hs e He).
Qed.

(** ** The invariant in the runs *)

Definition ei (s : state) : Prop := early (codes s) (slots s) (groups s).

(** A task is counted in a group that is not in use. *)
Lemma early_count K sl gs g G G' : early K sl gs -> gs !! g = Some G -> waiters G' = waiters G ->
  (forall h p, K !! h = Some p -> ~ in_use g p) -> early K sl (<[g := G']> gs).
Proof.
  intros HE Hg Hw Hu.
  assert (Hlt : (g < length gs)%nat) by by eapply lookup_lt_Some.
  assert (Hsig : forall e, occ e (signals K (<[g := G']> gs)) = occ e (signals K gs)).
  { intros e. apply occ_signals_same. rewrite list_fmap_insert, Hw. apply list_insert_id. by rewrite list_lookup_fmap, Hg. }
  assert (Hel : forall e, e ∈ signals K (<[g := G']> gs) <-> e ∈ signals K gs) by (intros e; by apply elem_occ).
  assert (Hback : forall h H, <[g := G']> gs !! h = Some H -> exists H0, gs !! h = Some H0 /\ waiters H = waiters H0 /\ (h <> g -> H = H0)).
  { intros h H [(<- & <- & _)|[? HH]]%list_lookup_insert_Some; [by exists G|by exists H]. }
  constructor.
  - intros e. rewrite Hsig. apply HE.
  - intros e He%Hel. by apply (e_used _ _ _ HE).
  - intros h H e f p g' (H0 & HH & Hwt & _)%Hback He. rewrite Hwt in He. intros Hf Hp.
    exact (e_own _ _ _ HE h H0 e f p g' HH He Hf Hp).
  - intros h q e f p k H Hh Hq Hf Hp (H0 & HH & _ & Hne)%Hback. destruct (decide (k = g)) as [->|Hk].
    + destruct (Hu f p Hf). right. by rewrite Hp.
    + rewrite (Hne Hk). exact (e_sig _ _ _ HE h q e f p k H0 Hh Hq Hf Hp HH).
  - intros f p e k H Hf Hp (H0 & HH & _ & Hne)%Hback Ho. destruct (decide (k = g)) as [->|Hk].
    + destruct (Hu f p Hf). right. by rewrite Hp.
    + rewrite (Hne Hk) in Ho. exact (e_count _ _ _ HE f p e k H0 Hf Hp HH Ho).
  - intros h p k H Hh Hz (H0 & HH & _ & Hne)%Hback. destruct (decide (k = g)) as [->|Hk].
    + destruct (Hu h p Hh). by left.
    + rewrite (Hne Hk). exact (e_zero _ _ _ HE h p k H0 Hh Hz HH).
  - intros h p e k H Hh Hi (H0 & HH & Hwt & _)%Hback. rewrite Hwt. exact (e_in _ _ _ HE h p e k H0 Hh Hi HH).
  - intros h p e k Hh Hp. rewrite Hel. by apply (e_fresh _ _ _ HE h p e k).
Qed.

(** Nothing about the groups or the waiting changes. *)
Lemma ei_quiet s s' f p p' : sound s -> ei s -> codes s !! f = Some p -> codes s' = <[f := p']> (codes s) -> slots s' = slots s ->
  groups s' = groups s -> (forall e g, waits p' = Some (TSlot e (Some g)) <-> waits p = Some (TSlot e (Some g))) ->
  (forall e, occ e (will_signal p') = occ e (will_signal p)) -> (forall g, zero_point p' g -> zero_point p g) ->
  (forall e g, in_set p' e g -> in_set p e g) -> (forall e g, p'.1 = GLock e g -> p.1 = GLock e g) -> ei s'.
Proof.
  intros HS HE Hf Hc Hsl Hg Hw Hsig Hz Hi Hfr. unfold ei. rewrite Hc, Hsl, Hg. eapply early_quiet; try done.
  - apply codes_distinct, HS.
  - intros g G HG. exists G. auto.
  - intros g G H%Hz HG. by eapply e_zero.
Qed.

Lemma ei_group s s' f p p' g G G' : sound s -> ei s -> codes s !! f = Some p -> codes s' = <[f := p']> (codes s) -> slots s' = slots s ->
  groups s !! g = Some G -> groups s' = <[g := G']> (groups s) -> waiters G' = waiters G ->
  (outstanding G = 0 -> outstanding G' = 0) -> (0 < outstanding G' -> 0 < outstanding G) ->
  (forall e g, waits p' = Some (TSlot e (Some g)) <-> waits p = Some (TSlot e (Some g))) ->
  (forall e, occ e (will_signal p') = occ e (will_signal p)) -> (forall h, zero_point p' h -> h = g /\ outstanding G' = 0) ->
  (forall e g, in_set p' e g -> in_set p e g) -> (forall e g, p'.1 = GLock e g -> p.1 = GLock e g) -> ei s'.
Proof.
  intros HS HE Hf Hc Hsl Hg Hgs Hwt Ho1 Ho2 Hw Hsig Hz Hi Hfr. unfold ei. rewrite Hc, Hsl, Hgs.
  assert (Hlt : (g < length (groups s))%nat) by by eapply lookup_lt_Some. eapply early_quiet; try done.
  - apply codes_distinct, HS.
  - rewrite list_fmap_insert, Hwt. apply list_insert_id. by rewrite list_lookup_fmap, Hg.
  - intros h H [(<- & <- & _)|[_ HH]]%list_lookup_insert_Some; [by exists G|]. exists H. auto.
  - intros h H [-> H0]%Hz HH. rewrite list_lookup_insert_eq in HH by done. by injection HH as <-.
Qed.

Section Steps.
Context (s : state) (f : nat) (c : cell code_t) (HS : sound s) (HE : ei s) (Hf : cells s !! f = Some c).

Lemma ei_lookup : codes s !! f = Some (code c).
Proof. apply codes_lookup. eauto. Qed.

Lemma ei_publish e og : code c = (DPublish e og, KClient None) ->
  let p' := match og with None => (Client, KClient (Some (TSlot e None))) | Some g => (GLock e g, KClient None) end in
  inv (with_cell (with_slot s e (Some f)) f (set_code c p')) -> ei (with_cell (with_slot s e (Some f)) f (set_code c p')).
Proof.
  intros Hc p' HI'. assert (He : slots s !! e = Some None).
  { apply (unpublished_slot s e (so_inv s HS)). right. exists f, c. split; [done|]. rewrite Hc. split; [by left|done]. }
  assert (Hp' : waits p' = Some (TSlot e og) /\ will_signal p' = []) by (unfold p'; by destruct og).
  destruct Hp' as [Hw Hws]. pose proof ei_lookup as Hlook. rewrite Hc in Hlook.
  assert (HK : codes (with_cell (with_slot s e (Some f)) f (set_code c p')) = <[f := p']> (codes s)) by (by rewrite codes_set).
  assert (Hocc : forall e', occ e' (signals (<[f := p']> (codes s)) (groups s)) = occ e' (signals (codes s) (groups s))).
  { intros e'. pose proof (occ_signals_cell _ (groups s) f _ p' e' Hlook) as H. rewrite Hws in H. cbn in H. lia. }
  assert (Hfresh : e ∉ signals (codes s) (groups s)).
  { intros H. destruct (e_used _ _ _ HE e H) as (u & q & g & _ & _ & Hu). congruence. }
  pose proof (codes_distinct _ HI') as HD'. rewrite HK in HD'.
  assert (Hself : <[f := p']> (codes s) !! f = Some p') by (apply list_lookup_insert_eq; by eapply lookup_lt_Some).
  unfold ei. rewrite HK. cbn [with_cell with_slot slots groups].
  assert (Hlt : (e < length (slots s))%nat) by by eapply lookup_lt_Some.
  eapply (early_slot (codes s) (slots s)); [done|done|..].
  - intros e' H. apply (elem_occ e' _ _ (Hocc e')) in H. split; [done|]. intros u Hu.
    rewrite list_lookup_insert_ne by (intros <-; congruence). split; [done|]. intros _ g [=].
  - intros e'. rewrite Hocc. by eapply e_once.
  - rewrite Hws. by intros e' ?%not_elem_of_nil.
  - intros h q e' g Hh Hq. destruct (decide (h = f)) as [->|Hn]; [right|left; by left].
    rewrite Hself in Hh. injection Hh as <-. rewrite Hw in Hq. injection Hq as <- _.
    intros H. by apply Hfresh, (elem_occ e _ _ (Hocc e)).
  - intros h q e' g G Hh Hq HG Ho. destruct (decide (h = f)) as [->|Hn].
    + rewrite Hself in Hh. injection Hh as <-. rewrite Hw in Hq. injection Hq as <- _. by apply list_lookup_insert_eq.
    + rewrite list_lookup_insert_ne by (intros <-; apply Hn; by eapply (HD' h f q p' e)).
      rewrite list_lookup_insert_ne in Hh by done. by eapply e_count.
  - unfold p'. by destruct og; intros ? ?.
  - unfold p'. by destruct og; intros ? ? ?.
  - intros e' g H. assert (e' = e) as -> by (unfold p' in H; destruct og; cbn in H; congruence).
    split; [|by apply list_lookup_insert_eq]. intros H'. by apply Hfresh, (elem_occ e _ _ (Hocc e)).
  - intros h e' Hn Hs _. rewrite list_lookup_insert_ne; [done|congruence].
Qed.

Lemma ei_exchange e k t : code c = (DExchange e, k) -> slots s !! e = Some (Some t) -> shape (DExchange e, k) ->
  ei (with_cell (with_slot s e None) f (set_code c (Resuming t RLoad, k))).
Proof.
  intros Hc He Hsh. pose proof ei_lookup as Hlook. rewrite Hc in Hlook. set (p' := (Resuming t RLoad, k)).
  assert (HK : codes (with_cell (with_slot s e None) f (set_code c p')) = <[f := p']> (codes s)) by (by rewrite codes_set).
  assert (Hocc : forall e', (occ e' (signals (<[f := p']> (codes s)) (groups s)) + occ e' [e] = occ e' (signals (codes s) (groups s)))%nat).
  { intros e'. pose proof (occ_signals_cell _ (groups s) f _ p' e' Hlook) as H.
    change (will_signal (DExchange e, k)) with ([e] ++ will_signal p') in H. rewrite occ_app in H. lia. }
  assert (Hsig : e ∈ will_signal (DExchange e, k)) by by left.
  assert (Hne : forall e', e' ∈ signals (<[f := p']> (codes s)) (groups s) -> e' <> e /\ e' ∈ signals (codes s) (groups s)).
  { intros e' H%occ_elem. pose proof (Hocc e') as H1. pose proof (e_once _ _ _ HE e'). split.
    - intros ->. cbn in H1. rewrite decide_True in H1 by done. lia.
    - apply occ_elem. lia. }
  unfold ei. rewrite HK. cbn [with_cell with_slot slots groups].
  assert (Hwaits : forall e' g, waits p' = Some (TSlot e' (Some g)) -> waits (DExchange e, k) = Some (TSlot e' (Some g))) by done.
  eapply (early_slot (codes s) (slots s)); [done|done|..].
  - intros e' [Hn H]%Hne. split; [done|]. intros u Hu. rewrite list_lookup_insert_ne by done. done.
  - intros e'. pose proof (Hocc e'). pose proof (e_once _ _ _ HE e'). lia.
  - intros e' H. by right.
  - intros h q e' g Hh Hq. left. destruct (decide (h = f)) as [->|Hn]; [right|by left].
    rewrite list_lookup_insert_eq in Hh by (by eapply lookup_lt_Some). injection Hh as <-. by apply Hwaits.
  - intros h q e' g G Hh Hq HG Ho.
    assert (Hold : exists q0, codes s !! h = Some q0 /\ waits q0 = Some (TSlot e' (Some g))).
    { destruct (decide (h = f)) as [->|Hn]; [|rewrite list_lookup_insert_ne in Hh by done; eauto].
      rewrite list_lookup_insert_eq in Hh by (by eapply lookup_lt_Some). injection Hh as <-. eauto. }
    destruct Hold as (q0 & Hh0 & Hq0). rewrite list_lookup_insert_ne; [by eapply e_count|].
    intros <-. pose proof (e_sig _ _ _ HE f _ e h q0 g G Hlook Hsig Hh0 Hq0 HG). lia.
  - by intros ? ?.
  - by intros ? ? ?.
  - done.
  - intros h e' _ Hs Hns. rewrite list_lookup_insert_ne; [done|]. intros <-. apply Hns, elem_of_signals. right. eauto.
Qed.

(** The mutex keeps other fibers out of the sections of [WaitFor]'s arm. *)
Lemma in_set_holder h q e g : codes s !! h = Some q -> in_set q e g -> forall G, groups s !! g = Some G -> mtx G = Some h.
Proof.
  intros Hh Hq G HG. destruct (g_holds _ _ _ _ (so_groups s HS) h q g Hh) as (G0 & ? & ?); [|congruence].
  destruct q as [[] k]; try done; cbn in *; by destruct Hq as [_ ->].
Qed.

Section Group.
Context (g : nat) (G G' : group) (p' : code_t) (Hg : groups s !! g = Some G) (HO : outstanding G' = outstanding G).

Let s' := with_cell (with_group s g G') f (set_code c p').

(** A step that changes the waiters of [g]: [ei_step] leaves what it does to the
    registered events. *)
Lemma ei_step :
  (forall e h, waits p' = Some (TSlot e (Some h)) <-> waits (code c) = Some (TSlot e (Some h))) ->
  (forall e, e ∈ waiters G' -> e ∈ waiters G \/ waits (code c) = Some (TSlot e (Some g))) ->
  (forall e, e ∈ will_signal p' -> e ∈ will_signal (code c) \/ e ∈ waiters G /\ outstanding G = 0) ->
  (forall e, (occ e (waiters G') + occ e (will_signal p') + occ e (signals (codes s) (groups s)) <=
     1 + occ e (waiters G) + occ e (will_signal (code c)))%nat) ->
  (forall e h, waits (code c) = Some (TSlot e (Some h)) -> slots s !! e = Some (Some f)) ->
  (forall h, zero_point p' h -> h = g /\ outstanding G = 0) ->
  (forall e h, in_set p' e h -> h = g /\ e ∈ waiters G') ->
  (forall h q e, h <> f -> codes s !! h = Some q -> in_set q e g -> e ∈ waiters G') ->
  (forall e h, p'.1 <> GLock e h) -> ei s'.
Proof.
  intros W1 W2 W3 W4 W5 W6 W7 W8 W9. assert (HK : codes s' = <[f := p']> (codes s)) by (unfold s'; by rewrite codes_set).
  assert (Hlt : (g < length (groups s))%nat) by by eapply lookup_lt_Some.
  unfold ei. rewrite HK. change (slots s') with (slots s). change (groups s') with (<[g := G']> (groups s)).
  assert (Hat : forall h H, <[g := G']> (groups s) !! h = Some H -> h = g /\ H = G' \/ h <> g /\ groups s !! h = Some H).
  { intros h H [(-> & <- & _)|[? ?]]%list_lookup_insert_Some; auto. }
  eapply (early_update (codes s) (slots s) (groups s)); try done.
  - apply codes_distinct, HS.
  - exact ei_lookup.
  - intros h H [[-> ->]|[Hn HH]]%Hat; [exists G; rewrite HO; auto|exists H; auto].
  - intros e H%W3. destruct H as [H|[H1 H2]]; [by left|right; eauto].
  - intros e. pose proof (occ_signals_cell _ (<[g := G']> (groups s)) f _ p' e ei_lookup) as H1.
    pose proof (occ_signals_group (codes s) _ g G G' e Hg) as H2. specialize (W4 e). lia.
  - intros e h Hw _. right. by eapply W5.
  - intros h H Hz [[-> ->]|[Hn HH]]%Hat; destruct (W6 _ Hz) as [? H0]; [by rewrite HO|done].
  - intros e h H Hz [[-> ->]|[Hn HH]]%Hat; by destruct (W7 e _ Hz) as [? H0].
  - intros h q e j H Hn Hh Hz [[-> ->]|[Hn' HH]]%Hat; [by eapply W8|by eapply e_in].
  - intros e h H. by destruct (W9 e h).
Qed.
End Group.

Lemma ei_lock e g G : code c = (GLock e g, KClient None) -> groups s !! g = Some G -> mtx G = None ->
  ei (with_cell (with_group s g (mk_group (n G) (Some f) (set_insert e (waiters G)) (outstanding G))) f
    (set_code c (GOr e g, KClient None))).
Proof.
  intros Hc Hg Hm. set (G' := mk_group _ _ _ _).
  assert (Hfr : (e ∉ signals (codes s) (groups s)) /\ slots s !! e = Some (Some f)).
  { apply (e_fresh _ _ _ HE f (code c) e g); [exact ei_lookup|by rewrite Hc]. }
  destruct Hfr as [Hfr He]. assert (Hno : e ∉ waiters G) by (intros H; apply Hfr, elem_of_signals; left; eauto).
  assert (Hins : waiters G' = waiters G ++ [e]) by (cbn; unfold set_insert; by rewrite decide_False).
  apply (ei_step g G G' (GOr e g, KClient None)); try done; rewrite ?Hc; try done.
  - intros e'. rewrite Hins, elem_of_app, list_elem_of_singleton. intros [?| ->]; [by left|by right].
  - intros e' H. by apply not_elem_of_nil in H.
  - intros e'. rewrite Hins, occ_app. pose proof (e_once _ _ _ HE e'). apply occ_zero in Hfr. cbn. case_decide; subst; lia.
  - by intros e' h [= <- <-].
  - intros e' h [<- <-]. split; [done|]. rewrite Hins. apply elem_of_app. right. by left.
  - intros h q e' Hn Hh Hq. rewrite (in_set_holder h q e' g Hh Hq G Hg) in Hm. done.
Qed.

Lemma ei_erase e g G : code c = (GErase e g, KClient None) -> groups s !! g = Some G ->
  ei (with_cell (with_group s g (mk_group (n G) (mtx G) (set_erase e (waiters G)) (outstanding G))) f
    (set_code c (DExchange e, KSelf e g))).
Proof.
  intros Hc Hg. set (G' := mk_group _ _ _ _).
  assert (Hin : e ∈ waiters G) by (apply (e_in _ _ _ HE f (code c) e g); [exact ei_lookup|by rewrite Hc|done]).
  assert (H0 : outstanding G = 0) by (apply (e_zero _ _ _ HE f (code c) g); [exact ei_lookup|by rewrite Hc|done]).
  assert (He : slots s !! e = Some (Some f)).
  { destruct (e_used _ _ _ HE e) as (u & q & h & Hu & Hq & Hs); [apply elem_of_signals; left; eauto|].
    assert (u = f) as ->; [|done]. eapply (codes_distinct s (so_inv s HS) u f q (code c) e); try done; [exact ei_lookup|by rewrite Hc]. }
  assert (Hmx : mtx G = Some f) by (apply (in_set_holder f (code c) e g); [exact ei_lookup|by rewrite Hc|done]).
  apply (ei_step g G G' (DExchange e, KSelf e g)); try done; rewrite ?Hc; try done.
  - intros e' H. apply elem_of_erase in H as [? _]. by left.
  - intros e' H. apply list_elem_of_singleton in H as ->. auto.
  - intros e'. cbn [G' waiters]. rewrite occ_erase. pose proof (e_once _ _ _ HE e').
    change (will_signal (DExchange e, KSelf e g)) with [e]. apply occ_elem in Hin. cbn [occ].
    destruct (decide (e' = e)) as [->|Hn]; [rewrite decide_True by done; lia|rewrite decide_False by done]. lia.
  - by intros e' h [= <- <-].
  - intros h q e' Hn Hh Hq. rewrite (in_set_holder h q e' g Hh Hq G Hg) in Hmx. congruence.
Qed.

Lemma ei_take g G : code c = (WTake g, KClient None) -> groups s !! g = Some G -> mtx G = None ->
  ei (with_cell (with_group s g (mk_group (n G) (Some f) [] (outstanding G))) f (set_code c (WAnd g, KSlots (waiters G)))).
Proof.
  intros Hc Hg Hm. set (G' := mk_group _ _ _ _).
  assert (H0 : outstanding G = 0) by (apply (e_zero _ _ _ HE f (code c) g); [exact ei_lookup|by rewrite Hc|done]).
  apply (ei_step g G G' (WAnd g, KSlots (waiters G))); try done; rewrite ?Hc; try done.
  - intros e' H. by apply not_elem_of_nil in H.
  - intros e' H. by right.
  - intros e'. pose proof (e_once _ _ _ HE e'). change (will_signal (WAnd g, KSlots (waiters G))) with (waiters G). cbn. lia.
  - intros h q e' Hn Hh Hq. rewrite (in_set_holder h q e' g Hh Hq G Hg) in Hm. done.
Qed.

(** The switch onto a worker: the fiber was signaled, so nobody refers to its
    event. *)
Lemma ei_dispatch c' : dispatch wake c = Some c' -> ei (with_cell s f c').
Proof.
  intros Hd. destruct (dispatch_ok at_point wake c c') as (H1 & H2 & H3 & _); [by eapply (i_cells s (so_inv s HS))|done|].
  destruct (parked_code _ H1) as (t & k & Hc). pose proof ei_lookup as Hlook.
  assert (HK : codes (with_cell s f c') = <[f := code c']> (codes s)) by (by rewrite codes_set).
  assert (Hno : forall e, slots s !! e <> Some (Some f)).
  { intros e He. destruct (i_reg s (so_inv s HS) f (RSlot e) He) as (c0 & tgt & ? & _ & _ & ?). by simplify_eq. }
  assert (Hp : will_signal (code c) = [] /\ will_signal (code c') = [] /\ waits (code c') = None).
  { pose proof (i_shape s (so_inv s HS) f c Hf) as Hsh. rewrite H2. rewrite Hc in Hsh |- *. destruct k as [[]| | |]; try done. by destruct t. }
  destruct Hp as (P1 & P2 & P3).
  assert (Hocc : forall e', occ e' (signals (<[f := code c']> (codes s)) (groups s)) = occ e' (signals (codes s) (groups s))).
  { intros e'. pose proof (occ_signals_cell _ (groups s) f _ (code c') e' Hlook) as H. rewrite P1, P2 in H. lia. }
  unfold ei. rewrite HK. eapply (early_slot (codes s) (slots s)); [done|done|..].
  - intros e' H. apply (elem_occ e' _ _ (Hocc e')) in H. split; [done|]. intros u Hu. split; [done|]. intros ->. by destruct (Hno e').
  - intros e'. rewrite Hocc. by eapply e_once.
  - rewrite P2. by intros e' ?%not_elem_of_nil.
  - intros h q e' g Hh Hq. left. left. intros ->. rewrite list_lookup_insert_eq in Hh by (by eapply lookup_lt_Some). congruence.
  - intros h q e' g G Hh Hq HG Ho. destruct (decide (h = f)) as [->|Hn].
    + rewrite list_lookup_insert_eq in Hh by (by eapply lookup_lt_Some). congruence.
    + rewrite list_lookup_insert_ne in Hh by done. by eapply e_count.
  - rewrite H2, Hc. by destruct t; intros ? ?.
  - rewrite H2, Hc. by destruct t; intros ? ? ?.
  - rewrite H2, Hc. by destruct t.
  - by intros h e' _ H _.
Qed.
End Steps.

(** The fiber's point moves and nothing that matters to the groups changes. *)
Record quiet_move (p p' : code_t) : Prop := {
  q_waits : forall e g, waits p' = Some (TSlot e (Some g)) <-> waits p = Some (TSlot e (Some g));
  q_signal : forall e, occ e (will_signal p') = occ e (will_signal p);
  q_zero : forall g, zero_point p' g -> zero_point p g;
  q_set : forall e g, in_set p' e g -> in_set p e g;
  q_lock : forall e g, p'.1 = GLock e g -> p.1 = GLock e g
}.

Lemma ei_moved s s1 f p p' : sound s -> ei s -> codes s !! f = Some p -> codes s1 = <[f := p']> (codes s) -> slots s1 = slots s ->
  groups s1 = groups s -> quiet_move p p' -> ei s1.
Proof. intros HS HE Hf Hc Hsl Hg []. by eapply (ei_quiet s s1 f p p'). Qed.

(** [Resume] goes on, or is back in what called it. *)
Lemma resumed_quiet n pc pc' k : quiet_move (Resuming n pc, k) (resumed_code n pc' k).
Proof.
  unfold resumed_code. case_decide; [|by constructor].
  destruct k as [[]| | |]; constructor; done || (intros; by rewrite (proj1 (ret_refs _))).
Qed.
Lemma next_quiet i l t : l !! i = Some t -> quiet_move (Next, KSlots l) (DExchange t, KSlots (delete i l)).
Proof.
  intros Hi. constructor; try done. intros e.
  change (will_signal (DExchange t, KSlots (delete i l))) with ([t] ++ delete i l). rewrite occ_app. symmetry. by apply occ_delete.
Qed.

Section Code.
Context (s : state) (f : nat) (c : cell code_t) (k : kont) (HS : sound s) (HE : ei s) (Hf : cells s !! f = Some c).

Lemma ei_resuming_step n pc s' : code c = (Resuming n pc, k) -> resume_fiber f n pc k s = Some s' -> ei s'.
Proof.
  intros Hc Hs. assert (Hlook : codes s !! f = Some (Resuming n pc, k)) by (apply codes_lookup; eauto).
  unfold resume_fiber in Hs. destruct (cells s !! n) as [ct|] eqn:Ht; [|done]. cbn [mbind option_bind] in Hs.
  destruct (resume pc ct) as [ct' pc'] eqn:Hr. destruct (cells (with_cell s n ct') !! f) as [cf|]; [|done].
  cbn [mbind option_bind] in Hs. injection Hs as <-.
  assert (Hcode : code ct' = code ct) by (unfold resume in Hr; destruct (resume_step pc (Parking.status ct)); by simplify_eq).
  assert (Hsame : codes (with_cell s n ct') = codes s).
  { rewrite codes_set, Hcode. apply list_insert_id. apply codes_lookup. eauto. }
  apply (ei_moved s _ f _ (resumed_code n pc' k) HS HE Hlook); [by rewrite codes_set, Hsame|done|done|apply resumed_quiet].
Qed.

Lemma ei_next_step i s' : code c = (Next, k) -> next_waiter f c i k s = Some s' -> ei s'.
Proof.
  intros Hc Hs. assert (Hlook : codes s !! f = Some (Next, k)) by (apply codes_lookup; eauto).
  unfold next_waiter, go in Hs. destruct k as [a|e g|l a|l]; try done;
    (destruct l as [|x l0] eqn:El; [|destruct (l !! i) as [t|] eqn:Ei; subst l; rewrite Ei in Hs; [|done]]); injection Hs as <-;
    (eapply (ei_moved s _ f _ _ HS HE Hlook); [by rewrite codes_set|done|done|]); first [by constructor|by apply next_quiet].
Qed.

(** A step that only moves the fiber. *)
Lemma ei_quiet_step q c' : code c = (q, k) -> quiet_move (q, k) (code c') -> ei (with_cell s f c').
Proof.
  intros Hc Hq. eapply (ei_moved s _ f (q, k) (code c') HS HE); [apply codes_lookup; eauto|by rewrite codes_set|done|done|done].
Qed.
End Code.

Lemma ei_acquire_step s f c i e og : sound s -> ei s -> cells s !! f = Some c -> code c = (DAcquire og, KClient None) ->
  freeq s !! i = Some e ->
  ei (with_cell (with_free (with_slot s e None) (delete i (freeq s))) f (set_code c (DPark e og, KClient None))).
Proof.
  intros HS HE Hf Hc He. rewrite with_slot_id by (apply (unpublished_slot s e (so_inv s HS)); left; by eapply list_elem_of_lookup_2).
  eapply (ei_moved s _ f (DAcquire og, KClient None) _ HS HE); [apply codes_lookup; eauto|by rewrite codes_set|done|done|by constructor].
Qed.

Lemma ei_code_step s f c i s' : sound s -> ei s -> cells s !! f = Some c -> inv s' -> code_step f c i s = Some s' -> ei s'.
Proof.
  intros HS HE Hf HI' Hs. pose proof (i_shape s (so_inv s HS) f c Hf) as Hsh. destruct (code c) as [p k] eqn:Hc.
  pose proof (kclient p k Hsh) as Hk. unfold code_step, go in Hs. rewrite Hc in Hs. cbn [fst snd] in Hs.
  assert (Hlook : codes s !! f = Some (p, k)) by (apply codes_lookup; eauto).
  assert (Hquiet : forall c', quiet_move (p, k) (code c') -> ei (with_cell s f c')) by (intros c'; by apply (ei_quiet_step s f c k)).
  destruct p; try subst k; try done.
  - injection Hs as <-. apply Hquiet; by constructor.
  - destruct (events s !! x) as [l|]; [|done]. injection Hs as <-.
    eapply (ei_moved s _ f (EAdd x armed, KClient None) _ HS HE); [apply codes_lookup; eauto|by rewrite codes_set|done|done|].
    destruct armed; by constructor.
  - unfold EventPool_Acquire in Hs. destruct (freeq s !! i) as [e|] eqn:He; [|done]. cbn [mbind option_bind] in Hs. injection Hs as <-.
    by apply (ei_acquire_step s f c i).
  - injection Hs as <-. apply Hquiet; by constructor.
  - injection Hs as <-. by apply ei_publish.
  - unfold wait_for_lock in Hs. open_group Hs G Hg.
    destruct (mtx G) eqn:Hm; [done|]. injection Hs as <-. by apply ei_lock.
  - unfold wait_for_or in Hs. open_group Hs G Hg. injection Hs as <-.
    destruct (gi_count s g G (so_groups s HS) Hg) as [Hn Hr]. rewrite Hn, counter_count by done.
    destruct (Z.eqb_spec (outstanding G) 0).
    + eapply (ei_group s _ f (GOr e g, KClient None) (GErase e g, KClient None) g G); try done; by rewrite codes_set.
    + eapply (ei_group s _ f (GOr e g, KClient None) (GUnlock e g, KClient None) g G); try done. by rewrite codes_set.
  - unfold wait_for_erase in Hs. open_group Hs G Hg. injection Hs as <-. by apply ei_erase.
  - unfold wait_for_unlock in Hs. open_group Hs G Hg. injection Hs as <-.
    eapply (ei_group s _ f (GUnlock e g, KClient None) (Switch (TSlot e (Some g)), KClient None) g G); try done. by rewrite codes_set.
  - injection Hs as <-. apply Hquiet; by constructor.
  - injection Hs as <-. apply Hquiet; by constructor.
  - open_group Hs G Hg. destruct (keeps_spinning (n G)); [done|]. injection Hs as <-. apply Hquiet; by constructor.
  - unfold direct_signal, go in Hs. destruct (slots s !! e) as [[t|]|] eqn:He; [| |done]; cbn [mbind option_bind] in Hs; injection Hs as <-.
    + by apply ei_exchange.
    + exfalso. destruct (e_used _ _ _ HE e) as (u & q & g & _ & _ & H); [apply elem_of_signals; right; exists f, (DExchange e, k)|congruence].
      split; [apply codes_lookup; eauto|by left].
  - by eapply ei_resuming_step.
  - by eapply ei_next_step.
  - unfold wake_all_take in Hs. open_group Hs G Hg.
    destruct (mtx G) eqn:Hm; [done|]. injection Hs as <-. by apply ei_take.
  - destruct k as [| | |l]; try done. unfold wake_all_and in Hs. open_group Hs G Hg. injection Hs as <-.
    eapply (ei_group s _ f (WAnd g, KSlots l) (Next, KSlots l) g G); try done. by rewrite codes_set.
Qed.

Lemma ei_call_step s f c a x s' : sound s -> ei s -> cells s !! f = Some c -> code c = (Client, KClient a) ->
  fork_join s (Call f x) -> call_step f c a x s = Some s' -> ei s'.
Proof.
  intros HS HE Hf Hc Hfj Hs.
  assert (Hlook : codes s !! f = Some (Client, KClient a)) by (apply codes_lookup; eauto).
  assert (Hquiet : forall s1 p', codes s1 = <[f := p']> (codes s) -> slots s1 = slots s -> groups s1 = groups s ->
    (forall e g, waits p' = Some (TSlot e (Some g)) <-> a = Some (TSlot e (Some g))) -> will_signal p' = [] ->
    (forall g, zero_point p' g -> False) -> (forall e g, in_set p' e g -> False) -> (forall e g, p'.1 = GLock e g -> False) -> ei s1).
  { intros s1 p' H1 H2 H3 H4 H5 H6 H7 H8. eapply (ei_quiet s s1 f (Client, KClient a) p'); try done.
    - intros e. by rewrite H5.
    - intros e g H. by destruct (H8 e g). }
  assert (Hpark : forall name armed s1 i, GetEvent name s = (s1, i) -> a = None -> ei (with_cell s1 f (set_code c (EPark i armed, KClient None)))).
  { intros name armed s1 i E ->. destruct (GetEvent_spec _ _ _ _ E) as (E1 & E2 & E3 & _).
    apply (Hquiet _ (EPark i armed, KClient None)); try done; rewrite codes_set. unfold codes. by rewrite E1. }
  destruct (event_call x) eqn:Hx.
  { destruct (event_call_moves s f c a x s' Hf Hc Hx Hs) as (p & H1 & H2 & H3 & H4 & _).
    apply (Hquiet s' p); try done; by destruct H2 as [-> |[[t ->]|[l ->]]]. }
  unfold call_step, go in Hs. destruct x as [name|name| |g|g| |name|x t|x|x t|e|g|g]; try done.
  - destruct a; [done|]. destruct (GetEvent name s) as [s1 i] eqn:E. injection Hs as <-. by eapply Hpark.
  - destruct a; [done|]. destruct (GetEvent name s) as [s1 i] eqn:E. injection Hs as <-. by eapply Hpark.
  - destruct a; [done|]. injection Hs as <-. apply (Hquiet _ (DAcquire None, KClient None)); try done; by rewrite codes_set.
  - destruct a; [done|]. destruct (groups s !! g); [|done]. injection Hs as <-.
    apply (Hquiet _ (DAcquire (Some g), KClient None)); try done; by rewrite codes_set.
  - destruct a; [done|]. destruct (groups s !! g); [|done]. injection Hs as <-.
    apply (Hquiet _ (Spin g, KClient None)); try done; by rewrite codes_set.
  - destruct a as [t|]; [|done]. injection Hs as <-. apply (Hquiet _ (Switch t, KClient None)); try done; by rewrite codes_set.
  - assert (Hcount : exists G, groups s !! g = Some G /\ s' = with_group s g (mk_group (n G + 1) (mtx G) (waiters G) (outstanding G + 1))).
    { destruct (groups s !! g) as [G|] eqn:Hg; [|by destruct a]. exists G. split; [done|].
      cbn [mbind option_bind] in Hs. destruct (outstanding G <? COUNT_MASK); destruct a; congruence. }
    destruct Hcount as (G & Hg & ->). apply (early_count _ _ _ _ G); [done|done|done|].
    intros h p (c0 & Hc0 & <-)%codes_lookup. cbn [fork_join] in Hfj. by apply (Forall_lookup_1 _ _ _ _ Hfj Hc0).
  - destruct a; [done|]. open_group Hs G Hg.
    destruct (Z.ltb_spec 0 (outstanding G)) as [Ho|]; [|done]. destruct (gi_count s g G (so_groups s HS) Hg) as [Hn Hr].
    assert (Hw : (complete (n G)).2 = true -> outstanding G = 1).
    { unfold complete. cbn [snd]. rewrite Hn, counter_count by done. intros H%andb_prop. destruct H as [H%Z.eqb_eq _]. done. }
    destruct (complete (n G)) as [n' wakes]. cbn [snd] in Hw. injection Hs as <-.
    eapply (ei_group s _ f (Client, KClient None) (if wakes then (WTake g, KClient None) else (Client, KClient None)) g G);
      try done; try (by rewrite codes_set); try (cbn; lia); try (destruct wakes; done).
    intros h Hz. destruct wakes; [|done]. cbn in Hz. subst h. split; [done|]. cbn. rewrite Hw by done. lia.
Qed.

Lemma ei_exec a s s' : sound s /\ ei s -> fork_join s a -> exec a s = Some s' -> sound s' /\ ei s'.
Proof.
  intros [HS HE] Hfj Hs. pose proof (sound_exec a s s' HS Hs) as HS'. split; [done|]. pose proof (so_inv s' HS') as HI'.
  destruct a as [f x|f i|f|f]; cbn [exec] in Hs; destruct (cells s !! f) as [c|] eqn:Hf; cbn [mbind option_bind] in Hs; try done.
  - destruct (code c) as [[] []] eqn:Hc; try done. destruct (running c); [|done]. by eapply (ei_call_step s f c).
  - destruct (running c) eqn:Hr; [|done]. by eapply (ei_code_step s f c i).
  - destruct (worker_step c) as [c'|] eqn:E; [|done]. injection Hs as <-. assert (Hcode : code c' = code c).
    { unfold worker_step in E. destruct (Parking.place c) as [[]|]; try done; destruct (post_step _ _); by simplify_eq. }
    unfold ei. rewrite codes_set, Hcode, list_insert_id; [done|]. apply codes_lookup. eauto.
  - destruct (dispatch wake c) as [c'|] eqn:E; [|done]. injection Hs as <-. by eapply (ei_dispatch s f c).
Qed.

Lemma ei_start actors pool_size counts : ei (start actors pool_size counts).
Proof.
  assert (Hp : forall h p, codes (start actors pool_size counts) !! h = Some p -> p = (Client, KClient None)).
  { intros h p (c & Hh & <-)%codes_lookup. by apply lookup_replicate in Hh as [-> _]. }
  assert (Hg : forall g G, groups (start actors pool_size counts) !! g = Some G -> waiters G = []).
  { cbn. intros g G H. rewrite list_lookup_fmap in H. by apply fmap_Some in H as (k & _ & ->). }
  assert (Hno : forall e, e ∉ signals (codes (start actors pool_size counts)) (groups (start actors pool_size counts))).
  { intros e [(g & G & HG%Hg & He)|(h & q & ->%Hp & He)]%elem_of_signals; [rewrite HG in He|]; by apply not_elem_of_nil in He. }
  constructor; try (intros h p g G ->%Hp; done); try (intros h p e g G ->%Hp; done).
  - intros e. rewrite occ_zero by apply Hno. lia.
  - intros e He. by destruct (Hno e).
  - intros g G e f p g' HG%Hg He. rewrite HG in He. by apply not_elem_of_nil in He.
  - intros h q e f p g G ->%Hp He. by apply not_elem_of_nil in He.
Qed.

(** ** Properties *)

(** [C7] In a run in which no thread calls [Signal] of a [DirectEvent] itself and
    in which tasks are counted in a group only while no fiber has been inserted
    among its waiters or is about to be, and no [WakeAll] of it is under way, a
    fiber that is suspended in [WaitFor] can run again only when no counted task of
    its group is left, in every interleaving of the completions, of [WakeAll], of
    other fibers in [WaitFor] on the same group and of the reuse of their events.
    (Otherwise: [wait_group_defects].) *)
Theorem wait_for_not_early actors pool_size counts l s f c e g :
  good_counts counts -> run fork_join_exec l (start actors pool_size counts) = Some s ->
  cells s !! f = Some c -> (code c).1 = Parked (TSlot e (Some g)) -> is_Some (exec (Dispatch f) s) ->
  exists G, groups s !! g = Some G /\ outstanding G = 0.
Proof.
  intros Hgc Hrun Hf Hc [s' Hd]. assert (HS : sound s /\ ei s).
  { assert (H0 : sound (start actors pool_size counts) /\ ei (start actors pool_size counts)) by (split; [by apply sound_start|apply ei_start]).
    revert Hrun H0. generalize (start actors pool_size counts). clear. induction l as [|a l IH]; intros s0; simpl.
    - by intros [= ->].
    - destruct (fork_join_exec a s0) as [s1|] eqn:Ea; [|done]. unfold fork_join_exec in Ea. case_decide as Ha; [|done].
      rename Ea into E. intros Hr H0. by eapply (IH s1), ei_exec. }
  destruct HS as [HS HE]. assert (Hlook : codes s !! f = Some (code c)) by (apply codes_lookup; eauto).
  assert (Hw : waits (code c) = Some (TSlot e (Some g))) by (unfold waits; by rewrite Hc).
  destruct (lookup_lt_is_Some_2 (groups s) g) as [G HG].
  { eapply (g_group _ _ _ _ (so_groups s HS) f (code c)); [done|]. unfold group_of. rewrite Hc. by rewrite Hw. }
  exists G. split; [done|]. pose proof (gi_count s g G (so_groups s HS) HG) as [_ Hr].
  destruct (decide (0 < outstanding G)) as [Ho|]; [exfalso|lia].
  pose proof (e_count _ _ _ HE f (code c) e g G Hlook Hw HG Ho) as Hs.
  destruct (i_reg s (so_inv s HS) f (RSlot e) Hs) as (c0 & tgt & H0 & _ & _ & Hu). assert (c0 = c) as -> by congruence.
  cbn [exec] in Hd. rewrite Hf in Hd. cbn [mbind option_bind] in Hd. destruct (dispatch wake c) as [c'|] eqn:E; [|done].
  by destruct (dispatch_ok at_point wake c c' (i_cells s (so_inv s HS) f c Hf) E) as (_ & _ & H & _).
Qed.

(** *** Concrete runs: fiber 0 waits, actor 1 completes, one [DirectEvent] *)

(** [WaitFor] on a group with nothing to wait for, to its return. *)
Definition empty_wait : list action :=
  Call 0 (CWaitFor 0) :: replicate 11 (Code 0 0) ++ replicate 4 (Worker 0) ++ [Dispatch 0; Code 0 0].
(** [WaitFor] on a group with tasks left, until the fiber is parked. *)
Definition parked_wait (f : nat) : list action :=
  Call f (CWaitFor 0) :: replicate 7 (Code f 0) ++ replicate 2 (Worker f).
(** [WakeAll] by actor 1, with one waiter that is parked. *)
Definition wake_up : list action := replicate 8 (Code 1 0).

(** The last task completes and fiber 0 is woken. *)
Definition good_trace : list action := parked_wait 0 ++ [Call 1 (CComplete 0)] ++ wake_up.
(** The group is used again after that: fiber 0 counts a task and waits for it. *)
Definition again_trace : list action :=
  good_trace ++ [Dispatch 0; Code 0 0; Call 0 (CRunCounted 0)] ++ good_trace.
(** A [WaitFor] that found the group empty leaves the flag set; a thread then
    waits for the group. *)
Definition stale_flag_trace : list action := empty_wait ++ [Call 1 (CSpin 0)].
(** The flag is still set when a task is run and completes: its completion calls
    [WakeAll], which comes after the next task is counted and waited for. *)
Definition early_trace : list action :=
  empty_wait ++ [Call 0 (CRunCounted 0); Call 1 (CComplete 0); Call 0 (CRunCounted 0)] ++ parked_wait 0 ++ wake_up.
(** A second [Signal] on a [DirectEvent] that has been reused. *)
Definition direct_wait : list action :=
  Call 0 CWaitOnEventDirectArmed :: replicate 3 (Code 0 0) ++ [Call 0 CArmed; Code 0 0] ++ replicate 2 (Worker 0).
Definition signal_once : list action := Call 1 (CDirectSignal 0) :: replicate 4 (Code 1 0).
Definition reused_trace : list action :=
  direct_wait ++ signal_once ++ [Dispatch 0; Code 0 0] ++ parked_wait 2 ++ signal_once.

Lemma one_task_good : good_counts [1].
Proof. apply Forall_cons. split; [|apply Forall_nil_2]. unfold COUNT_MASK, WAITER_BIT. lia. Qed.

Lemma wait_for_not_early_witness : exists s G,
  run fork_join_exec again_trace (start 2 1 [1]) = Some s /\ groups s !! 0%nat = Some G /\ outstanding G = 0 /\
  is_Some (exec (Dispatch 0) s).
Proof.
  assert (Hf : (fun s => (cells s !! 0%nat, bool_decide (is_Some (exec (Dispatch 0) s)))) <$> run fork_join_exec again_trace (start 2 1 [1]) =
    Some (Some (mk_cell (Parked (TSlot 0 (Some 0%nat)), KClient None) READY None true), true)) by (vm_compute; reflexivity).
  destruct (run fork_join_exec again_trace (start 2 1 [1])) as [s|] eqn:E; [|discriminate Hf]. injection Hf as Hc Hd.
  apply bool_decide_eq_true in Hd.
  destruct (wait_for_not_early 2 1 [1] again_trace s 0 _ 0 0 one_task_good E Hc eq_refl Hd) as (G & HG & HO).
  exists s, G. split; [reflexivity|]. split; [exact HG|]. split; [exact HO|exact Hd].
Defined.

(** The fiber runs again with tasks of the group outstanding. *)
Definition released_early (s : state) (f g : nat) : Prop :=
  exists c e G, cells s !! f = Some c /\ (code c).1 = Parked (TSlot e (Some g)) /\ is_Some (exec (Dispatch f) s) /\
    groups s !! g = Some G /\ 0 < outstanding G.

(** [C29] What the wait group and the [DirectEvent]s do not survive.  [WaitFor] on a
    group whose count is 0 sets the waiter flag and leaves it set: (1) a thread that
    then waits for the idle group off a fiber ([WaitFor], [WaitForMain]) spins for
    ever; (2) when the group is used again, a task's completion calls [WakeAll] for
    nobody, and that call releases a fiber that has meanwhile counted another task
    and waits for it.  (3) A second [Signal] on a [DirectEvent] is not the no-op that
    its comment promises once the event is reused: it releases another fiber, here
    one in [WaitFor] with a task outstanding. *)
Theorem wait_group_defects :
  (exists s G, run exec stale_flag_trace (start 2 1 [0]) = Some s /\ quiescent s /\ groups s !! 0%nat = Some G /\ outstanding G = 0 /\
     (fun c => (code c).1) <$> cells s !! 1%nat = Some (Spin 0)) /\
  (exists s, run exec early_trace (start 2 1 [0]) = Some s /\ released_early s 0 0) /\
  (exists s, run exec reused_trace (start 3 1 [1]) = Some s /\ released_early s 2 0).
Proof.
  split; [|split].
  - eexists _, _. split; [vm_compute; reflexivity|]. split; [|done].
    intros [f x|f i|f|f] Ha; [done|..]; destruct f as [|[|f]]; vm_compute; done.
  - eexists. split; [vm_compute; reflexivity|]. eexists _, _, _. split_and!; [done|done| |done|done]. by eexists.
  - eexists. split; [vm_compute; reflexivity|]. eexists _, _, _. split_and!; [done|done| |done|done]. by eexists.
Qed.
